(* ===== verification/_CoqProject ===== *)
-Q . S2P
Prelude.v
External.v
Wire.v
Connection.v
Errors.v
ChatTypes.v
Database.v
Serial.v
Automerge.v
Schema.v
Repository.v
Contract.v
Sync.v
Peers.v
Manager.v
Link.v
Tests.v
Race.v
Receiver.v
Clients.v
Network.v
Scenarios.v
Tryst.v
Handler.v
App.v
Meeting.v
Log.v
Lifecycle.v
Bench.v
Workers.v
