(* ===== verification/Prelude.v ===== *)
(** * A verification development of tryst-core

    The program (src/src) is the core of a peer-to-peer messenger: every pair of peers has a
    chat, whose history is an automerge document kept in SQLite and synchronised over an
    iroh (QUIC) connection. Its parts, from the wire upwards, and the files that model them:

    - the framing of protocol messages on a stream (protocols/chat/message.rs, utils.rs) and
      the send and receive tasks of a connection: [Wire];
    - the connection of a chat (protocols/chat.rs): a lock-protected state machine that both
      peers may dial at once, with the tasks it spawns: [Connection], [Module ChatConnection];
    - the connection actor (protocols/chat/protocol_handler.rs): the handshake of both roles,
      the loop that serves dials and accepts, the close codes: [Handler], [Module ChatProtocol];
    - the errors (error.rs) and their conversions: [Errors]; also [stop] and [attempt] for
      calls that may still be waiting when a run ends;
    - messages, their order and chat ids (persistence.rs): [ChatTypes];
    - the database (migrations/20250414093115_setup.sql): the two tables, every SQL statement
      of persistence.rs as a function on them, and what an [.await] on the pool may bring:
      [Database];
    - the document's schema (persistence/schema.rs): [Schema], over the interfaces of
      automerge and autosurgeon in [Automerge] (with [Serial], a byte codec for the instance);
    - the repository (persistence.rs): [Repository], [Module ChatRepository];
    - the listing of peers (persistence.rs, list_chats_remote_peers_ids): [Peers];
    - the chat manager (manager.rs): the actor that owns a repository and a connection, and
      its client calls: [Manager], [Module ChatManager];
    - trust records, invites, the discovery stub and the stubs of the withheld primitives
      (protocols/tryst): [Tryst], [Module TrystRepository];
    - the application actor (app.rs): one manager per chat, accepted connections, invites:
      [App], [Module AppActor];
    - start-up, shutdown, keys (app.rs) and the endpoint (network_endpoint.rs): [Lifecycle];
    - the tracing layer that hands log lines to the platform (log.rs): [Log];
    - the benchmarks (bench_utils.rs, bin/bench_orchestrator.rs): [Bench], and their two
      worker programs (bin/bench_p2p_conn_worker.rs, bin/bench_tryst_discovery_worker.rs):
      [Workers].

    On top of the parts stand the files about their composition and the program's tests:

    - [Contract]: the repository's promise to its callers, as an abstract machine of known and
      durable changes, and that the repository refines it;
    - [Sync]: automerge's synchronisation as the program relies on it, and the invariant of two
      peers that answer each other; [Link]: two chat managers connected to each other;
    - [Race]: a chat that is opened while other tasks write to it;
    - [Tests]: the unit tests of persistence.rs as programs over the model;
    - [Receiver]: the client of the integration tests (module tests of manager.rs and app.rs);
      [Clients]: such a client following an actor, and one at each end of a link;
    - [Network]: two peers with their databases and clients through connections, losses,
      shutdowns and restarts; [Scenarios]: the integration tests of app.rs as scripts of it;
    - [Meeting]: how a connection comes up, through the actors of both peers.

    [Prelude] (this file) has what they share: outcomes and actions, the case-splitting
    tactics, machine integers, stable sorting, the last elements of a list, pages.
    [External] has the identifiers of other crates as classes with their laws.

    ** How the code is modelled

    A method that mutates state and may fail is an [action W E A]: a function from a state
    [W] to an [outcome E A] ([Ok], [Err], or [Panic] for an unwinding panic) and a new state;
    mutations made before an error are kept, as in the code. [?] is the [bind] of actions,
    [match] on a result is [catch] (or [attempt]). Records have the fields of the structs
    that the methods read or write; names are those of the source.

    Concurrency appears in four ways. [ChatConnection.step] is a step relation: methods run
    under a lock, so each is one step, and each spawned task is cut at its awaits
    ([reconnect_step]); properties quantify over all interleavings. A pool is a
    [Database.World]: tables together with a forecast that says, for each [.await], what
    other tasks commit before the statement runs and whether it fails. The chat manager's
    [select!] is [ChatManager.turn], given what is ready and in the source's [biased] order;
    between turns other tasks may do anything to the connection. The application actor runs
    among other tasks that it relies on not to take a manager out of its map ([respects]),
    which its own operations are proved to keep, so it may itself be among them.

    Integers have their width where it matters: lengths on the wire are reduced to 32 bits,
    [offset + limit] wraps or panics at 2^64 ([usize_add]), the epoch is cast between u64
    and i64.

    ** What is a parameter

    Code outside src/ is a class: its operations with the laws the program relies on. Keys and
    UUIDs ([External]; concrete instances in [Module Concrete]), postcard and async byte
    streams ([Wire]; [Module ConcreteWire]), the sync message codec ([Manager.SyncCodec]), and
    automerge ([Automerge]; [AutomergeLaws] says that a document is its set of changes, what
    load, save and transactions do to it, [PatchLaws] what patches report, [Sync.SyncLaws] what
    a sync state knows and a message announces, and [Module ToyDoc] is an instance with all
    the laws). Secret keys and hexadecimal ([Lifecycle.SecretKeys]), hdrhistogram
    ([Bench.Histograms]), what iroh's builders, processes, clocks and random generators
    return are arguments of the definitions that use them. Every property with a hypothesis is applied to concrete inputs over these
    instances in a theorem named after it with [_witness].

    ** What the properties show

    Lemmas that were properties of their own keep their doc comments; the properties are:

    - Nothing acknowledged is lost: [acknowledged_never_lost] over any sequence of repository
      operations, [acknowledged_reply_survives] over any run of a chat's actor; the repository
      is a machine of known and durable changes ([repository_refines_chat]); a stored chat
      reloads exactly and its log stays bounded by CHAT_LOGS_LIMIT = 512 rows
      ([reload_is_exact], [add_then_restart]); two tasks creating a chat agree
      ([create_race_agrees]); a chat may be opened while others append to it
      ([opening_beside_writers]) but not while another load compacts it
      ([stale_compaction_loses]); the exact behaviour on a failed write ([failed_add_is_kept]).
    - Two peers end with the same chat: [quiet_link_agrees] for two connected managers in any
      interleaving, and [everyone_gets_everything] over the lifetime of a chat, whatever
      connections are lost and whoever is shut down and started again: both users see the
      messages of both, each once. A client shows what its actor has ([clients_see_chat]) with
      two exceptions ([second_failure_hides_messages], [late_subscriber_misses]). Once the
      run of an integration test has settled, its assertions hold but for one about the order
      in which a client took in its own messages ([integration_tests_pass]).
    - History: pagination is the slicing of one sorted history although only the tails of the
      lists are read ([pagination_correct]), where it is not ([unordered_list_repeats]); the unit
      tests pass for every automerge that keeps the laws ([persistence_tests_pass]).
    - Connections: two peers that dial each other agree on one transport ([glare_agreement]); no
      transport leaks ([transports_accounted]) except one dialed while closing
      ([dial_outlives_close]); in every fair run a
      reconnecting state resolves ([reconnecting_resolves]); a dial connects two applications,
      through all the actors of both ([dial_connects_both]).
    - The wire: what is sent arrives, through the stream ([stream_roundtrip]) and through both
      handshakes ([dialed_messages_arrive]); every branch of reading, writing and the handshake
      ([read_lp_reference], [write_message_size_guard], [truncated_frame_panics],
      [handshake_cases]).
    - The actors: a new connection synchronises anew ([connected_resyncs]), recovery from a
      failed synchronisation ([sync_error_recovery]); one manager per chat
      ([one_manager_per_chat]); invites ([invite_starts_chat]); peers ([remote_peers_exact]); trust
      records ([save_get_roundtrip], [reads_are_typed]).
    - Around the core: start-up on every branch ([start_up_cases]) and shutdown, which a silent
      peer can hold up ([shutdown_waits]); the log lines the platform gets
      ([log_tells_stories]); the benchmark workers' result lines and their parser
      ([worker_result_roundtrip]).

    ** Fuel and bounds

    [read_exact_loop], [fill_buffer] and [recv_task] take fuel; a poll returns a byte at least,
    so the number of bytes wanted, one more than the limit, and the number of bytes to come
    are enough ([recv_task_terminates]; the first two by their specifications). [sync_repos]
    has the bound of its source, ten rounds; it asserts that it got through in time, so its
    theorem is about the runs that do, and its witness is one. The retry loop
    [persisted_loop] goes round again only when another task created the chat between two
    awaits, which uses up two turns of the forecast: its length and two are enough
    ([persisted_loop_total]); [get_persisted_doc_state] starts with that much. Runs of actors
    recurse on the list of their turns.

    Durability is about a chat whose rows no other task writes ([bystanders]), which is what
    [one_manager_per_chat] provides within one process.

    ** What is not modelled

    The bodies of other crates, automerge's first; random generation (what is drawn is an
    argument); the build script and [init_worker_tracing], which configure tools; the derives
    of serde on types the snapshot never serialises ([TrystInvite], [TrystAddress]). Timing is
    not modelled: a timer tick or a timeout may come at any turn. A send on a connection's
    channel is not held up by a full channel.

    A write on a stream is all or nothing and returns: the part of a frame that is out when
    [write_all] fails, and a first write of OPEN_MESSAGE that waits for room, are not
    represented. Of sqlx's migrations what they leave in the database is modelled, its checks
    of earlier migrations being a failure that may come; of iroh's router the order in which
    its shutdown closes the protocol and the endpoint.

    The runs of [reconnecting_resolves] are fair to dials: each gets an answer, be it an error.
    A silent peer can hold one up as long as its connection lives
    ([silent_peer_blocks_actor]). The network and the links take sync messages to be processed
    and to bring what the peer has ([Clients.honest]).

    The scripts of the integration tests leave out the drawing of keys, the invite with which
    the first peer learns of the second, and the time limits of their waiting: a script is
    followed by any run of the network until that settles. In the network a connection is up
    once both actors have its handle; that they get it is [dial_connects_both], whose runs are
    not part of the network's steps, so a chat that an incoming dial opens is there first and
    connected next. The databases of the network do not fail; what faults do to a chat is
    shown for one repository and for one actor.

    That the exchange of two connected managers comes to rest is not proved: it would need a
    law of progress of automerge's synchronisation, whose Bloom filters may hold a change back
    for a number of rounds that nothing documents. Agreement is shown for links at rest and
    networks that have settled.

    Next steps of the plan, in this order: the network over two applications, with the
    connections of [Meeting] among its steps; faults of the database in the network. *)
From stdpp Require Import base gmap strings list fin_maps.
From Stdlib Require Import ZArith Lia Sorting.Sorted Permutation.

(** Lemmas the components register for [eauto with tryst] / [autorewrite with tryst]. *)
Create HintDb tryst.

Declare Scope tryst_scope.
Delimit Scope tryst_scope with tryst.

(** ** Outcomes: what a Rust call of type [Result<A, E>] can end in. [Panic] is an
    unwinding panic: it is neither a value nor an error the caller can match on. *)
Inductive outcome (E A : Type) : Type :=
| Ok (a : A)
| Err (e : E)
| Panic.
Arguments Ok {E A} a.
Arguments Err {E A} e.
Arguments Panic {E A}.

#[export] Instance outcome_eq_dec {E A} `{EqDecision E, EqDecision A} :
  EqDecision (outcome E A).
Proof. solve_decision. Defined.

Definition is_ok {E A} (o : outcome E A) : bool :=
  match o with Ok _ => true | _ => false end.

(** [Result::map_err] *)
Definition map_err {E E' A} (f : E -> E') (o : outcome E A) : outcome E' A :=
  match o with Ok a => Ok a | Err e => Err (f e) | Panic => Panic end.

(** [Result::map] *)
Definition map_ok {E A B} (f : A -> B) (o : outcome E A) : outcome E B :=
  match o with Ok a => Ok (f a) | Err e => Err e | Panic => Panic end.

(** The [?] operator inside a pure function. *)
Definition obind {E A B} (o : outcome E A) (k : A -> outcome E B) : outcome E B :=
  match o with Ok a => k a | Err e => Err e | Panic => Panic end.

(** ** Actions: code that mutates a world [W] and returns an outcome. The world's
    mutations made before an error are kept, as in the code. *)
Definition action (W E A : Type) : Type := W -> outcome E A * W.

Definition ret {W E A} (a : A) : action W E A := fun w => (Ok a, w).
Definition throw {W E A} (e : E) : action W E A := fun w => (Err e, w).
Definition lift {W E A} (o : outcome E A) : action W E A := fun w => (o, w).
Definition gets {W E A} (f : W -> A) : action W E A := fun w => (Ok (f w), w).
Definition modify {W E} (f : W -> W) : action W E unit := fun w => (Ok tt, f w).
Definition bind {W E A B} (c : action W E A) (k : A -> action W E B) : action W E B :=
  fun w => match c w with
           | (Ok a, w') => k a w'
           | (Err e, w') => (Err e, w')
           | (Panic, w') => (Panic, w')
           end.
(** [match c { Ok(a) => .., Err(e) => .. }]: run [c] and look at its result; a panic
    still unwinds. *)
Definition catch {W E E' A} (c : action W E A) : action W E' (E + A) :=
  fun w => match c w with
           | (Ok a, w') => (Ok (inr a), w')
           | (Err e, w') => (Ok (inl e), w')
           | (Panic, w') => (Panic, w')
           end.

(** [c.map_err(f)] *)
Definition act_map_err {W E E' A} (f : E -> E') (c : action W E A) : action W E' A :=
  fun w => let '(r, w') := c w in (map_err f r, w').
(** A call that only reads the world. *)
Definition reads {W E A} (f : W -> outcome E A) : action W E A := fun w => (f w, w).

Notation "x <- c ;; k" := (bind c (fun x => k))
  (at level 100, c at next level, right associativity) : tryst_scope.
Notation "c ;;; k" := (bind c (fun _ => k))
  (at level 100, right associativity) : tryst_scope.
Notation "'let?' x := c 'in' k" := (obind c (fun x => k))
  (at level 100, x name, c at next level, right associativity) : tryst_scope.

Section ActionLemmas.
Context {W E : Type}.

Lemma bind_ok_inv {A B} (c : action W E A) (k : A -> action W E B) w b w' :
  bind c k w = (Ok b, w') -> exists a w1, c w = (Ok a, w1) /\ k a w1 = (Ok b, w').
Proof. unfold bind. destruct (c w) as [[a|e|] w1]; intros H; simplify_eq; eauto. Qed.

Lemma bind_bind {A B C} (c : action W E A) (k : A -> action W E B) (k' : B -> action W E C) w :
  bind (bind c k) k' w = bind c (fun a => bind (k a) k') w.
Proof. unfold bind. by destruct (c w) as [[a|e|] w1]. Qed.

Lemma bind_ok {A B} (c : action W E A) (k : A -> action W E B) w a w1 :
  c w = (Ok a, w1) -> bind c k w = k a w1.
Proof. unfold bind. by intros ->. Qed.

Lemma bind_err {A B} (c : action W E A) (k : A -> action W E B) w e w1 :
  c w = (Err e, w1) -> bind c k w = (Err e, w1).
Proof. unfold bind. by intros ->. Qed.

Lemma bind_panic {A B} (c : action W E A) (k : A -> action W E B) w w1 :
  c w = (Panic, w1) -> bind c k w = (Panic, w1).
Proof. unfold bind. by intros ->. Qed.
End ActionLemmas.

Lemma obind_ok_inv {E A B} (o : outcome E A) (k : A -> outcome E B) b :
  obind o k = Ok b -> exists a, o = Ok a /\ k a = Ok b.
Proof. destruct o; simpl; intros; simplify_eq; eauto. Qed.

(** Splits every hypothesis that says a sequence of actions succeeded. *)
Ltac inv_ok :=
  repeat match goal with
  | H : bind _ _ _ = (Ok _, _) |- _ =>
      let a := fresh "a" in let w := fresh "w" in
      let H1 := fresh "Hc" in let H2 := fresh "Hk" in
      apply bind_ok_inv in H as (a & w & H1 & H2)
  | H : obind _ _ = Ok _ |- _ =>
      let a := fresh "a" in let H1 := fresh "Ho" in let H2 := fresh "Hk" in
      apply obind_ok_inv in H as (a & H1 & H2)
  | H : ret _ _ = (Ok _, _) |- _ => unfold ret in H; simplify_eq
  | H : lift _ _ = (Ok _, _) |- _ => unfold lift in H; simplify_eq
  | H : gets _ _ = (Ok _, _) |- _ => unfold gets in H; simplify_eq
  | H : modify _ _ = (Ok _, _) |- _ => unfold modify in H; simplify_eq
  | H : throw _ _ = (Ok _, _) |- _ => discriminate H
  end.

(** Splits the innermost [match] of a hypothesis or of the goal. *)
Ltac case_inner :=
  match goal with
  | |- context [match ?x with _ => _ end] =>
      lazymatch x with
      | context [match _ with _ => _ end] => fail
      | _ => let E := fresh "E" in destruct x eqn:E
      end
  | H : context [match ?x with _ => _ end] |- _ =>
      lazymatch x with
      | context [match _ with _ => _ end] => fail
      | _ => let E := fresh "E" in destruct x eqn:E
      end
  end.

(** ** Machine integers *)
Definition usize_max : Z := 2 ^ 64 - 1.
Definition usize (z : Z) : Prop := (0 <= z <= usize_max)%Z.

(** [a + b] on [usize]: an overflow panics when the build has overflow checks (the
    default for debug and test builds) and wraps otherwise (release). *)
Definition usize_add {E} (overflow_checks : bool) (a b : Z) : outcome E Z :=
  if bool_decide (a + b <= usize_max)%Z then Ok (a + b)%Z
  else if overflow_checks then Panic else Ok ((a + b) mod 2 ^ 64)%Z.

(** [usize::saturating_sub] *)
Definition saturating_sub (a b : Z) : Z := Z.max 0 (a - b).

(** [u64 as i64] and [i64 as u64]: the same 64 bits, read differently. *)
Definition u64_as_i64 (z : Z) : Z := (if bool_decide (z < 2 ^ 63) then z else z - 2 ^ 64)%Z.
Definition i64_as_u64 (z : Z) : Z := (z mod 2 ^ 64)%Z.

Lemma u64_as_i64_roundtrip z :
  (0 <= z < 2 ^ 64)%Z -> i64_as_u64 (u64_as_i64 z) = z.
Proof.
  intros Hz. unfold i64_as_u64, u64_as_i64. case_bool_decide.
  - by apply Z.mod_small.
  - replace (z - 2 ^ 64)%Z with (z + (-1) * 2 ^ 64)%Z by lia.
    rewrite Z.mod_add by lia. by apply Z.mod_small.
Qed.

Lemma u64_as_i64_range z :
  (0 <= z < 2 ^ 64)%Z -> (- 2 ^ 63 <= u64_as_i64 z < 2 ^ 63)%Z.
Proof. intros Hz. unfold u64_as_i64. case_bool_decide; lia. Qed.

(** ** Strings *)
Lemma append_empty (s : string) : String.append s "" = s.
Proof. induction s as [|c s IH]; [done|]. change (String c (String.append s "") = String c s). by rewrite IH. Qed.

Lemma append_assoc (a b c : string) : String.append (String.append a b) c = String.append a (String.append b c).
Proof.
  induction a as [|x a IH]; [done|].
  change (String x (String.append (String.append a b) c) = String x (String.append a (String.append b c))).
  by rewrite IH.
Qed.

Lemma append_suffix_inj (a b c : string) : a +:+ c = b +:+ c -> a = b.
Proof.
  assert (forall x y : string, String.length (x +:+ y) = String.length x + String.length y) as Hlen.
  { intros x y. induction x as [|z x IH]; [done|]. change (S (String.length (x +:+ y)) = S (String.length x) + String.length y). lia. }
  revert b. induction a as [|x a IH]; intros [|y b] Heq; [done| | |].
  - apply (f_equal String.length) in Heq. rewrite !Hlen in Heq. simpl in Heq. lia.
  - apply (f_equal String.length) in Heq. rewrite !Hlen in Heq. simpl in Heq. lia.
  - injection Heq as -> Heq. f_equal. by apply IH.
Qed.

(** ** Lists: the last [n] elements *)
Definition lastn {A} (n : nat) (l : list A) : list A := drop (length l - n) l.

Section Lastn.
Context {A : Type}.
Implicit Types l : list A.

Lemma lastn_all n l : length l <= n -> lastn n l = l.
Proof. intros H. unfold lastn. by replace (length l - n) with 0 by lia. Qed.

Lemma lastn_0 l : lastn 0 l = [].
Proof. unfold lastn. by rewrite Nat.sub_0_r, drop_all. Qed.

Lemma length_lastn n l : length (lastn n l) = n `min` length l.
Proof. unfold lastn. rewrite length_drop. lia. Qed.

Lemma lastn_app_le n l1 l2 : n <= length l2 -> lastn n (l1 ++ l2) = lastn n l2.
Proof.
  intros H. unfold lastn. rewrite length_app, drop_app.
  rewrite (drop_ge l1) by lia. simpl. f_equal; lia.
Qed.

Lemma lastn_cons_le n x l : n <= length l -> lastn n (x :: l) = lastn n l.
Proof. apply (lastn_app_le n [x]). Qed.

Lemma lastn_cons_gt n x l : length l < n -> lastn n (x :: l) = x :: l.
Proof. intros. apply lastn_all. simpl. lia. Qed.
End Lastn.

(** A page of a list, counted from its end: skip [offset], then take [limit]. *)
Definition page {A} (offset limit : nat) (l : list A) : list A :=
  reverse (take limit (drop offset (reverse l))).

Section Pages.
Context {A : Type}.
Implicit Types l : list A.

Lemma lastn_reverse n l : lastn n l = reverse (take n (reverse l)).
Proof. unfold lastn. by rewrite take_reverse, reverse_involutive. Qed.

(** A page only looks at the last [offset + limit] elements. *)
Lemma page_lastn offset limit l l' :
  lastn (offset + limit) l = lastn (offset + limit) l' -> page offset limit l = page offset limit l'.
Proof.
  rewrite !lastn_reverse. intros Heq%(inj reverse). unfold page.
  by rewrite !take_drop_commute, Heq.
Qed.

(** The code's way to cut a page out. *)
Lemma page_slice offset limit l :
  page offset limit l =
    take ((length l - offset) - (length l - offset - limit)) (drop (length l - offset - limit) l).
Proof.
  unfold page. rewrite drop_reverse, take_reverse, reverse_involutive, length_take.
  replace ((length l - offset) `min` length l) with (length l - offset) by lia.
  by rewrite skipn_firstn_comm.
Qed.

Lemma page_all n l : length l <= n -> page 0 n l = l.
Proof. intros Hn. unfold page. by rewrite drop_0, take_ge, reverse_involutive by (by rewrite length_reverse). Qed.
End Pages.

(** ** Sorted lists and filters *)
Lemma Forall_filter {A} (Q P : A -> Prop) `{!forall x, Decision (P x)} l :
  Forall Q l -> Forall Q (filter P l).
Proof. rewrite !Forall_forall. intros HQ x [_ Hx]%list_elem_of_filter. auto. Qed.

Lemma StronglySorted_filter {A} (R : A -> A -> Prop) (P : A -> Prop) `{!forall x, Decision (P x)} l :
  StronglySorted R l -> StronglySorted R (filter P l).
Proof.
  induction 1 as [|x l Hl IH Hx]; [constructor|]. rewrite filter_cons.
  destruct (decide (P x)); [|done]. constructor; [done|]. by apply Forall_filter.
Qed.

Lemma StronglySorted_weaken {A} (R R' : A -> A -> Prop) l :
  (forall x y, R x y -> R' x y) -> StronglySorted R l -> StronglySorted R' l.
Proof.
  intros HR. induction 1 as [|x l Hl IH Hx]; constructor; [done|].
  eapply Forall_impl; [exact Hx|]. auto.
Qed.

(** Permutations of lists of numbers that follow from permutation hypotheses, by
    counting occurrences. *)
Ltac solve_perm :=
  let x := fresh "x" in
  repeat match goal with
  | H : @Permutation nat _ _ |- _ =>
      rewrite (Permutation_count_occ Nat.eq_dec) in H
  end;
  apply (Permutation_count_occ Nat.eq_dec); intros x;
  repeat match goal with
  | H : forall y : nat, count_occ _ _ y = count_occ _ _ y |- _ =>
      specialize (H x); repeat (progress (cbn [count_occ] in H; rewrite ?count_occ_app in H))
  end;
  repeat (progress (cbn [count_occ]; rewrite ?count_occ_app));
  repeat match goal with
  | |- context [if ?d then _ else _] => destruct d
  | H : context [if ?d then _ else _] |- _ => destruct d
  end; lia.

(** ** [slice::sort_by]: Rust's stable sort, as a stable insertion sort. *)
Section SortBy.
Context {A : Type} (leb : A -> A -> bool).

Fixpoint insert_by (x : A) (l : list A) : list A :=
  match l with
  | [] => [x]
  | y :: l' => if leb x y then x :: l else y :: insert_by x l'
  end.

Fixpoint sort_by (l : list A) : list A :=
  match l with
  | [] => []
  | x :: l' => insert_by x (sort_by l')
  end.

Definition sorted_by : list A -> Prop := StronglySorted (fun x y => leb x y = true).

Lemma insert_by_Permutation x l : insert_by x l ≡ₚ x :: l.
Proof.
  induction l as [|y l IH]; simpl; [done|]. destruct (leb x y); [done|].
  rewrite IH. by rewrite Permutation_swap.
Qed.

Lemma sort_by_Permutation l : sort_by l ≡ₚ l.
Proof. induction l as [|x l IH]; simpl; [done|]. by rewrite insert_by_Permutation, IH. Qed.

Lemma length_sort_by l : length (sort_by l) = length l.
Proof. by rewrite sort_by_Permutation. Qed.

Lemma length_insert_by x l : length (insert_by x l) = S (length l).
Proof. by rewrite insert_by_Permutation. Qed.

Lemma insert_by_Forall (P : A -> Prop) x l :
  P x -> Forall P l -> Forall P (insert_by x l).
Proof. intros. rewrite insert_by_Permutation. by constructor. Qed.

Context (leb_total : forall x y, leb x y = true \/ leb y x = true).
Context (leb_trans : forall x y z, leb x y = true -> leb y z = true -> leb x z = true).

Lemma leb_false_flip x y : leb x y = false -> leb y x = true.
Proof using leb_total. destruct (leb_total x y); congruence. Qed.

Lemma insert_by_sorted x l : sorted_by l -> sorted_by (insert_by x l).
Proof using leb_total leb_trans.
  intros Hl. induction Hl as [|y l Hl IH Hy]; simpl.
  - repeat constructor.
  - destruct (leb x y) eqn:Exy.
    + repeat constructor; auto.
      eapply Forall_impl; [exact Hy|]. intros z Hz. by eapply leb_trans.
    + constructor; [done|]. apply insert_by_Forall; [by apply leb_false_flip|done].
Qed.

Lemma sort_by_sorted l : sorted_by (sort_by l).
Proof using leb_total leb_trans.
  induction l; simpl; [constructor|]. by apply insert_by_sorted.
Qed.

Lemma sort_by_id l : sorted_by l -> sort_by l = l.
Proof.
  induction 1 as [|x l Hl IH Hx]; simpl; [done|]. rewrite IH.
  destruct l as [|y l]; [done|]. simpl. apply Forall_inv in Hx. by rewrite Hx.
Qed.

(** Removing one element from the input removes one element from the output, and
    everything the removed one precedes comes after it. *)
Lemma insert_by_split x l :
  sorted_by l ->
  exists p q, insert_by x l = p ++ x :: q /\ l = p ++ q /\
    length (filter (fun y => leb x y = true) l) <= length q.
Proof using leb_trans.
  induction 1 as [|y l Hl (p & q & Hi & -> & Hlen) Hy]; simpl.
  - by exists [], [].
  - destruct (leb x y) eqn:Exy.
    + exists [], (y :: p ++ q). repeat split.
      apply (length_filter (fun z => leb x z = true) (y :: p ++ q)).
    + exists (y :: p), q. rewrite Hi. repeat split; try done.
      rewrite filter_cons_False by congruence. done.
Qed.

Lemma insert_by_across x y p q :
  sorted_by (p ++ y :: q) ->
  exists p' q', insert_by x (p ++ y :: q) = p' ++ y :: q' /\
    insert_by x (p ++ q) = p' ++ q' /\ length q <= length q'.
Proof using leb_total leb_trans.
  induction p as [|z p IH]; simpl; intros Hs.
  - destruct (leb x y) eqn:Exy.
    + exists [x], q. repeat split; [|done]. simpl.
      apply StronglySorted_inv in Hs as [_ Hy].
      destruct q as [|w q]; [done|]. simpl. apply Forall_inv in Hy.
      by rewrite (leb_trans x y w).
    + exists [], (insert_by x q). repeat split. rewrite length_insert_by. lia.
  - destruct (leb x z) eqn:Exz.
    + exists (x :: z :: p), q. by repeat split.
    + apply StronglySorted_inv in Hs as [Hs _].
      destruct (IH Hs) as (p' & q' & -> & -> & ?). by exists (z :: p'), q'.
Qed.

Lemma sort_by_remove l x r :
  exists p q, sort_by (l ++ x :: r) = p ++ x :: q /\ sort_by (l ++ r) = p ++ q /\
    length (filter (fun y => leb x y = true) r) <= length q.
Proof using leb_total leb_trans.
  induction l as [|y l (p & q & H1 & H2 & Hlen)]; simpl.
  - destruct (insert_by_split x (sort_by r)) as (p & q & H1 & H2 & Hlen);
      [apply sort_by_sorted|].
    exists p, q. repeat split; try done. by rewrite <- Hlen, sort_by_Permutation.
  - rewrite H1, H2.
    destruct (insert_by_across y x p q) as (p' & q' & H3 & H4 & ?).
    { rewrite <- H1. apply sort_by_sorted. }
    exists p', q'. repeat split; [done..|lia].
Qed.

(** The last [n] elements of a sort do not depend on what a sorted run of the
    input holds beyond its own last [n] elements. *)
Lemma lastn_sort_by_run n l r t :
  sorted_by r -> lastn n (sort_by (l ++ r ++ t)) = lastn n (sort_by (l ++ lastn n r ++ t)).
Proof using leb_total leb_trans.
  induction 1 as [|x r Hr IH Hx]; [done|].
  destruct (decide (n <= length r)) as [Hn|Hn].
  2: { by rewrite lastn_cons_gt by lia. }
  rewrite (lastn_cons_le n x r) by done. rewrite <- IH. simpl.
  destruct (sort_by_remove l x (r ++ t)) as (p & q & -> & -> & Hlen).
  assert (n <= length q).
  { rewrite filter_app, length_app in Hlen.
    enough (filter (fun y => leb x y = true) r = r) as Hf by (rewrite Hf in Hlen; lia).
    clear -Hx. induction Hx; [done|]. rewrite filter_cons_True by done. by f_equal. }
  rewrite !lastn_app_le by (simpl; lia). by apply lastn_cons_le.
Qed.

Lemma lastn_sort_by_concat n l ls :
  Forall sorted_by ls ->
  lastn n (sort_by (l ++ concat ls)) = lastn n (sort_by (l ++ concat (lastn n <$> ls))).
Proof using leb_total leb_trans.
  intros Hls. revert l. induction Hls as [|r ls Hr Hls IH]; intros l; simpl; [done|].
  rewrite lastn_sort_by_run by done. rewrite !(assoc_L (++)). apply IH.
Qed.
End SortBy.
