(* ===== verification/External.v ===== *)
(** External identifiers: what the program relies on of the key and UUID types of the
    crates it depends on (iroh's [EndpointId]/[PublicKey], uuid's [Uuid]), as type classes
    with their documented laws, and a small concrete key space and UUID space
    ([Module Concrete]) that satisfies the laws. *)
From S2P Require Import Prelude.
From stdpp Require Import base gmap strings list.
From Stdlib Require Import Ascii ZArith Lia.

(** ** [iroh::EndpointId]: an [Ord] type with [Display] and [FromStr]. *)
Class EndpointIds := {
  EndpointId : Type;
  EndpointId_eq_dec :: EqDecision EndpointId;
  EndpointId_countable :: Countable EndpointId;
  id_ltb : EndpointId -> EndpointId -> bool;
  id_to_string : EndpointId -> string;
  id_from_str : string -> option EndpointId;
}.

(** No character of [s] is [c]. *)
Fixpoint char_free (c : ascii) (s : string) : bool :=
  match s with
  | EmptyString => true
  | String d s' => negb (bool_decide (c = d)) && char_free c s'
  end.

(** The order is a strict total order, and a key prints in hexadecimal, which
    [FromStr] reads back. *)
Class EndpointIdLaws (Ids : EndpointIds) : Prop := {
  id_ltb_irrefl (a : EndpointId) : id_ltb a a = false;
  id_ltb_trans (a b c : EndpointId) :
    id_ltb a b = true -> id_ltb b c = true -> id_ltb a c = true;
  id_ltb_total (a b : EndpointId) : a <> b -> id_ltb a b = true \/ id_ltb b a = true;
  id_from_to_string (a : EndpointId) : id_from_str (id_to_string a) = Some a;
  id_to_string_hex (a : EndpointId) : char_free "_"%char (id_to_string a) = true;
}.

(** ** [uuid::Uuid] *)
Class Uuids := {
  Uuid : Type;
  Uuid_eq_dec :: EqDecision Uuid;
  uuid_to_string : Uuid -> string;
  uuid_from_str : string -> option Uuid;
}.

Class UuidLaws (Us : Uuids) : Prop := {
  uuid_from_to_string (u : Uuid) : uuid_from_str (uuid_to_string u) = Some u;
}.

Section EndpointIdFacts.
Context {Ids : EndpointIds} {Laws : EndpointIdLaws Ids}.

Lemma id_ltb_antisym (a b : EndpointId) : id_ltb a b = true -> id_ltb b a = false.
Proof.
  intros Hab. destruct (id_ltb b a) eqn:Hba; [|done].
  rewrite <- (id_ltb_irrefl a). symmetry. by eapply id_ltb_trans.
Qed.

Lemma id_ltb_flip (a b : EndpointId) : a <> b -> id_ltb b a = negb (id_ltb a b).
Proof.
  intros Hne. destruct (id_ltb a b) eqn:Hab; simpl; [by apply id_ltb_antisym|].
  destruct (id_ltb_total a b Hne); congruence.
Qed.

#[export] Instance id_to_string_inj : Inj (=) (=) id_to_string.
Proof.
  intros a b Hab. apply (f_equal id_from_str) in Hab.
  rewrite !id_from_to_string in Hab. by simplify_eq.
Qed.

(** [a <= b] on keys, as [sort] uses it. *)
Definition id_leb (a b : EndpointId) : bool := negb (id_ltb b a).

Lemma id_leb_total (a b : EndpointId) : id_leb a b = true \/ id_leb b a = true.
Proof.
  unfold id_leb. destruct (decide (a = b)) as [->|Hne].
  - rewrite id_ltb_irrefl. by left.
  - rewrite (id_ltb_flip a b Hne). destruct (id_ltb a b); auto.
Qed.

Lemma id_leb_lt_or_eq (a b : EndpointId) : id_leb a b = true <-> id_ltb a b = true \/ a = b.
Proof.
  unfold id_leb. destruct (decide (a = b)) as [->|Hne].
  - rewrite id_ltb_irrefl. simpl. tauto.
  - rewrite (id_ltb_flip a b Hne). destruct (id_ltb a b); simpl; split; try tauto; intros [?|?]; congruence.
Qed.

Lemma id_leb_trans (a b c : EndpointId) :
  id_leb a b = true -> id_leb b c = true -> id_leb a c = true.
Proof.
  rewrite !id_leb_lt_or_eq. intros [?| ->] [?| ->]; auto. left. by eapply id_ltb_trans.
Qed.

Lemma id_leb_antisym (a b : EndpointId) : id_leb a b = true -> id_leb b a = true -> a = b.
Proof.
  rewrite !id_leb_lt_or_eq. intros [Hab|?] [Hba|?]; auto.
  apply id_ltb_antisym in Hab. congruence.
Qed.
End EndpointIdFacts.

#[export] Hint Resolve id_leb_total id_leb_trans id_leb_antisym : tryst.

(** ** A concrete key space: numbers, printed in unary over the letters s and z. *)
Module Concrete.
Fixpoint key_to_string (n : nat) : string :=
  match n with
  | O => "z"
  | S n' => String "s"%char (key_to_string n')
  end.

Fixpoint key_from_str (s : string) : option nat :=
  match s with
  | String "z"%char EmptyString => Some 0
  | String "s"%char s' => S <$> key_from_str s'
  | _ => None
  end.

Lemma key_from_to n : key_from_str (key_to_string n) = Some n.
Proof. induction n as [|n IH]; simpl; [done|]. by rewrite IH. Qed.

#[export] Instance keys : EndpointIds := {|
  EndpointId := nat;
  id_ltb := Nat.ltb;
  id_to_string := key_to_string;
  id_from_str := key_from_str;
|}.

#[export] Instance keys_laws : EndpointIdLaws keys.
Proof.
  split; simpl.
  - intros a. apply Nat.ltb_irrefl.
  - intros a b c. rewrite !Nat.ltb_lt. lia.
  - intros a b. rewrite !Nat.ltb_lt. lia.
  - apply key_from_to.
  - intros a. induction a; simpl; [done|]. by rewrite IHa.
Qed.

#[export] Instance uuids : Uuids := {|
  Uuid := nat;
  uuid_to_string := key_to_string;
  uuid_from_str := key_from_str;
|}.

#[export] Instance uuids_laws : UuidLaws uuids.
Proof. split. apply key_from_to. Qed.
End Concrete.
