(* ===== verification/Wire.v ===== *)
(** The wire protocol of a chat connection (src/src/protocols/chat/message.rs and
    utils.rs) and the two stream tasks that run it (protocol_handler.rs): length-prefixed
    frames holding a postcard-encoded [ProtoMessage].

    postcard and the byte streams of tokio/iroh are interfaces here ([Postcard],
    [AsyncRead], [Writer]); [Module ConcreteWire] has instances of both. *)
From coqutil Require Import Byte.
From coqutil Require LittleEndianList.
From S2P Require Import Prelude.
From stdpp Require Import base list.
From Stdlib Require Strings.Byte.
From Stdlib Require Import ZArith Lia.
Open Scope tryst_scope.

Abbreviation byte := Init.Byte.byte.
Abbreviation bytes := (list Init.Byte.byte).

#[export] Instance byte_eq_dec : EqDecision byte.
Proof. intros a b. apply Stdlib.Strings.Byte.byte_eq_dec. Defined.

(** ** message.rs *)
Record SyncMessage := MkSyncMessage { sync_bytes : bytes }.

Inductive ProtoMessage :=
| Sync (m : option SyncMessage).

(** ** The error types of utils.rs. [IoKind] is [std::io::ErrorKind], of which the code
    tells only [UnexpectedEof] apart. *)
Inductive IoKind := UnexpectedEof | OtherIo (code : nat).

Inductive WriteError (SerErr : Type) :=
| WSer (e : SerErr)
| WIo (e : IoKind)
| WTooLarge.
Arguments WSer {SerErr} e.
Arguments WIo {SerErr} e.
Arguments WTooLarge {SerErr}.

Inductive ReadError (DeErr : Type) :=
| RDe (e : DeErr)
| RIo (e : IoKind)
| RTooLarge.
Arguments RDe {DeErr} e.
Arguments RIo {DeErr} e.
Arguments RTooLarge {DeErr}.

(** ** postcard: [to_slice] writes the value's encoding into a buffer that is large
    enough, [serialized_size] is its length, [from_bytes] reads it back. *)
Class Postcard := {
  PostcardError : Type;
  serialized_size : ProtoMessage -> outcome PostcardError nat;
  to_slice : ProtoMessage -> bytes -> outcome PostcardError bytes;
  from_bytes : bytes -> outcome PostcardError ProtoMessage;
  to_allocvec : ProtoMessage -> bytes;
}.

Class PostcardLaws (P : Postcard) : Prop := {
  serialized_size_spec m : serialized_size m = Ok (length (to_allocvec m));
  to_slice_spec m buf :
    length (to_allocvec m) <= length buf -> to_slice m buf = Ok (to_allocvec m);
  from_bytes_spec m : from_bytes (to_allocvec m) = Ok m;
}.

(** ** [tokio::io::AsyncRead]: a poll returns between one and [n] of the bytes still to
    come; after the last one it returns no byte when the stream was finished
    ([at_eof]) and an error otherwise. How the bytes are cut into polls is up to the
    reader. *)
Class AsyncRead (R : Type) := {
  stream : R -> bytes;
  at_eof : R -> bool;
  poll_read : nat -> action R IoKind bytes;
}.

Class AsyncReadLaws (R : Type) {A : AsyncRead R} : Prop := {
  poll_read_some r n :
    0 < n -> stream r <> [] ->
    exists bs r', poll_read n r = (Ok bs, r') /\ bs <> [] /\ length bs <= n /\
      stream r = bs ++ stream r' /\ at_eof r' = at_eof r;
  poll_read_end r n :
    0 < n -> stream r = [] -> at_eof r = true ->
    exists r', poll_read n r = (Ok [], r') /\ stream r' = [] /\ at_eof r' = true;
  poll_read_broken r n :
    0 < n -> stream r = [] -> at_eof r = false ->
    exists e r', poll_read n r = (Err e, r');
  poll_read_zero r : poll_read 0 r = (Ok [], r);
}.

(** [write_u32] / [read_u32]: big-endian. *)
Definition be32 (n : Z) : bytes := rev (LittleEndianList.le_split 4 n).
Definition of_be32 (bs : bytes) : Z := LittleEndianList.le_combine (rev bs).
Arguments be32 : simpl never.
Arguments of_be32 : simpl never.

Lemma length_be32 n : length (be32 n) = 4.
Proof. unfold be32. by rewrite length_rev, LittleEndianList.length_le_split. Qed.

Lemma of_be32_be32 n : (0 <= n < 2 ^ 32)%Z -> of_be32 (be32 n) = n.
Proof.
  intros Hn. unfold of_be32, be32. rewrite rev_involutive, LittleEndianList.le_combine_split.
  by apply Z.mod_small.
Qed.

Lemma be32_of_be32 bs : length bs = 4 -> be32 (of_be32 bs) = bs.
Proof.
  intros Hl. unfold of_be32, be32.
  rewrite LittleEndianList.split_le_combine' by (by rewrite length_rev).
  by rewrite rev_involutive.
Qed.

Lemma of_be32_range bs : length bs = 4 -> (0 <= of_be32 bs < 2 ^ 32)%Z.
Proof.
  intros Hl. unfold of_be32. pose proof (LittleEndianList.le_combine_bound (rev bs)) as Hb.
  rewrite length_rev, Hl in Hb. done.
Qed.

(** ** The sending side *)

(** The send half of a stream: what was written, and what the next writes return
    ([None]: the write succeeds; an exhausted list: every write succeeds). *)
Record Writer := { written : bytes; write_results : list (option IoKind) }.

Definition write_all (bs : bytes) : action Writer IoKind unit := fun w =>
  match write_results w with
  | Some e :: rs => (Err e, {| written := written w; write_results := rs |})
  | rs => (Ok tt, {| written := written w ++ bs; write_results := tail rs |})
  end.

Definition write_u32 (n : Z) : action Writer IoKind unit := write_all (be32 n).

(** The state a send task owns: its stream and its [BytesMut]. *)
Record SendState := { writer : Writer; send_buf : bytes }.

Definition on_writer {E A} (f : IoKind -> E) (c : action Writer IoKind A) :
  action SendState E A := fun s =>
  let '(o, w) := c (writer s) in
  (map_err f o, {| writer := w; send_buf := send_buf s |}).

Definition set_send_buf {E} (b : bytes) : action SendState E unit :=
  modify (fun s => {| writer := writer s; send_buf := b |}).

(** ** The receiving side *)
Record RecvState (R : Type) := { reader : R; recv_buf : bytes }.
Arguments reader {R} r.
Arguments recv_buf {R} r.

Section Frames.
Context {P : Postcard}.

Definition write_message (frame : ProtoMessage) (max_message_size : Z) :
  action SendState (WriteError PostcardError) unit :=
  len <- lift (map_err WSer (serialized_size frame)) ;;
  if bool_decide (max_message_size <= Z.of_nat len)%Z then throw WTooLarge else
  set_send_buf [] ;;;
  set_send_buf (repeat Byte.x00 len) ;;;
  buffer <- gets send_buf ;;
  slice <- lift (map_err WSer (to_slice frame buffer)) ;;
  set_send_buf slice ;;;
  on_writer WIo (write_u32 (Z.of_nat len mod 2 ^ 32)) ;;;
  on_writer WIo (write_all slice).

(** The send task of [process_established_connection]: [write_rx] yields [msgs] and is
    then closed; [finish] tells the peer that no more data will come. *)
Fixpoint send_task (msgs : list ProtoMessage) (max_message_size : Z) :
  action SendState (WriteError PostcardError) unit :=
  match msgs with
  | [] => ret tt
  | msg :: msgs' => write_message msg max_message_size ;;; send_task msgs' max_message_size
  end.

Context {R : Type} {AR : AsyncRead R}.

(** [read_exact] / [read_u32]: poll until [n] bytes are there; a stream that ends
    first is an [UnexpectedEof]. [fuel] is [n], since a poll returns at least a byte. *)
Fixpoint read_exact_loop (fuel n : nat) : action R IoKind bytes :=
  match n, fuel with
  | 0, _ => ret []
  | _, 0 => throw UnexpectedEof
  | _, S fuel' =>
      bs <- poll_read n ;;
      match bs with
      | [] => throw UnexpectedEof
      | _ => rest <- read_exact_loop fuel' (n - length bs) ;; ret (bs ++ rest)
      end
  end.
Definition read_exact (n : nat) : action R IoKind bytes := read_exact_loop n n.
Definition read_u32 : action R IoKind Z :=
  bs <- read_exact 4 ;; ret (of_be32 bs).

Definition on_reader {E A} (f : IoKind -> E) (c : action R IoKind A) :
  action (RecvState R) E A := fun s =>
  let '(o, r) := c (reader s) in
  (map_err f o, {| reader := r; recv_buf := recv_buf s |}).

Definition push_recv_buf {E} (bs : bytes) : action (RecvState R) E unit :=
  modify (fun s => {| reader := reader s; recv_buf := recv_buf s ++ bs |}).

(** The loop of [read_lp] over [reader.take(size)]: [limit] is what the [Take] still
    lets through. The result is [false] when [fuel] ran out. *)
Fixpoint fill_buffer (fuel limit : nat) : action (RecvState R) (ReadError PostcardError) bool :=
  match fuel with
  | 0 => ret false
  | S fuel' =>
      bs <- on_reader RIo (poll_read limit) ;;
      match bs with
      | [] => ret true
      | _ => push_recv_buf bs ;;; fill_buffer fuel' (limit - length bs)
      end
  end.

(** [BytesMut::split_to]: panics when the buffer is shorter than [size]. *)
Definition split_to {E} (size : nat) : action (RecvState R) E bytes := fun s =>
  if bool_decide (size <= length (recv_buf s)) then
    (Ok (take size (recv_buf s)),
     {| reader := reader s; recv_buf := drop size (recv_buf s) |})
  else (Panic, s).

(** [usize::try_from(size)] of a [u32] cannot fail on a 64-bit target. *)
Definition read_lp (max_message_size : Z) :
  action (RecvState R) (ReadError PostcardError) (option bytes) :=
  size <- catch (on_reader id read_u32) ;;
  match size with
  | inl UnexpectedEof => ret None
  | inl err => throw (RIo err)
  | inr size =>
      if bool_decide (max_message_size < size)%Z then throw RTooLarge else
      let size := Z.to_nat size in
      _ <- fill_buffer (S size) size ;;
      data <- split_to size ;;
      ret (Some data)
  end.

Definition read_message (max_message_size : Z) :
  action (RecvState R) (ReadError PostcardError) (option ProtoMessage) :=
  data <- read_lp max_message_size ;;
  match data with
  | None => ret None
  | Some data => message <- lift (map_err RDe (from_bytes data)) ;; ret (Some message)
  end.

(** What the receive task does: the messages it handed to [read_tx]. [rx_capacity] is
    how many messages the other side takes before it drops the receiver ([None]: it
    never does); a [send] after that fails and ends the task. *)
Inductive TaskError :=
| TaskRead (e : ReadError PostcardError)
| TaskChannelClosed.

Record RecvTask := {
  task_state : RecvState R;
  delivered : list ProtoMessage;
  rx_capacity : option nat;
}.

Definition on_task {A} (c : action (RecvState R) (ReadError PostcardError) A) :
  action RecvTask TaskError A := fun t =>
  let '(o, s) := c (task_state t) in
  (map_err TaskRead o,
   {| task_state := s; delivered := delivered t; rx_capacity := rx_capacity t |}).

Definition read_tx_send (msg : ProtoMessage) : action RecvTask TaskError unit := fun t =>
  match rx_capacity t with
  | Some 0 => (Err TaskChannelClosed, t)
  | c => (Ok tt, {| task_state := task_state t; delivered := delivered t ++ [msg];
                    rx_capacity := pred <$> c |})
  end.

(** The receive task of [process_established_connection]; the result is [false] when
    [fuel] ran out. *)
Fixpoint recv_task (fuel : nat) (max_message_size : Z) : action RecvTask TaskError bool :=
  match fuel with
  | 0 => ret false
  | S fuel' =>
      msg_opt <- on_task (read_message max_message_size) ;;
      match msg_opt with
      | None => ret true
      | Some msg => read_tx_send msg ;;; recv_task fuel' max_message_size
      end
  end.
End Frames.

(** [DEFAULT_MAX_MESSAGE_SIZE] of protocol_handler.rs *)
Definition DEFAULT_MAX_MESSAGE_SIZE : Z := 1024 * 1024.

Arguments RecvTask R : clear implicits.
Arguments task_state {R} r.
Arguments delivered {R} r.
Arguments rx_capacity {R} r.

(** ** Reading: what a lawful reader makes of the bytes of its stream *)
Section ReadLemmas.
Context {P : Postcard} {R : Type} {AR : AsyncRead R} {ARL : AsyncReadLaws R}.
Implicit Types (r : R) (s : RecvState R).

Lemma read_exact_loop_ok fuel n r :
  n <= fuel -> n <= length (stream r) ->
  exists r', read_exact_loop fuel n r = (Ok (take n (stream r)), r') /\
    stream r' = drop n (stream r) /\ at_eof r' = at_eof r.
Proof using ARL.
  revert n r. induction fuel as [|fuel IH]; intros n r Hf Hn.
  - destruct n; [|lia]. by exists r.
  - destruct n as [|n]; [by exists r|]. cbn [read_exact_loop].
    destruct (poll_read_some r (S n)) as (bs & r1 & Hp & Hbs & Hle & Hs & He);
      [lia|intros Hnil; rewrite Hnil in Hn; simpl in Hn; lia|].
    erewrite bind_ok by exact Hp. destruct bs as [|b bs]; [done|].
    rewrite Hs, length_app in Hn.
    destruct (IH (S n - length (b :: bs)) r1) as (r2 & Hr2 & Hs2 & He2); [simpl; lia|lia|].
    erewrite bind_ok by exact Hr2. exists r2. unfold ret. split_and!; [|..|congruence].
    + rewrite Hs, take_app, (take_ge (b :: bs)) by lia. done.
    + rewrite Hs2, Hs, drop_app, (drop_ge (b :: bs)) by lia. done.
Qed.

Lemma read_exact_loop_short fuel n r :
  n <= fuel -> length (stream r) < n -> at_eof r = true ->
  exists r', read_exact_loop fuel n r = (Err UnexpectedEof, r').
Proof using ARL.
  revert n r. induction fuel as [|fuel IH]; intros n r Hf Hn He; [lia|].
  destruct n as [|n]; [lia|]. cbn [read_exact_loop].
  destruct (decide (stream r = [])) as [Hnil|Hne].
  - destruct (poll_read_end r (S n)) as (r1 & Hp & _); [lia|done|done|].
    erewrite bind_ok by exact Hp. by exists r1.
  - destruct (poll_read_some r (S n)) as (bs & r1 & Hp & Hbs & Hle & Hs & He1); [lia|done|].
    erewrite bind_ok by exact Hp. destruct bs as [|b bs]; [done|].
    rewrite Hs, length_app in Hn.
    destruct (IH (S n - length (b :: bs)) r1) as (r2 & Hr2); [simpl; lia|lia|congruence|].
    exists r2. by erewrite bind_err by exact Hr2.
Qed.

Lemma read_u32_ok r hdr rest :
  stream r = hdr ++ rest -> length hdr = 4 ->
  exists r', read_u32 r = (Ok (of_be32 hdr), r') /\ stream r' = rest /\ at_eof r' = at_eof r.
Proof using ARL.
  intros Hs Hl. unfold read_u32, read_exact.
  destruct (read_exact_loop_ok 4 4 r) as (r' & Hr & Hs' & He);
    [done|rewrite Hs, length_app; lia|].
  erewrite bind_ok by exact Hr. exists r'. unfold ret.
  rewrite Hs, <- Hl, take_app_length. rewrite Hs', Hs, <- Hl, drop_app_length. done.
Qed.

Lemma read_u32_short r :
  length (stream r) < 4 -> at_eof r = true -> exists r', read_u32 r = (Err UnexpectedEof, r').
Proof using ARL.
  intros Hl He. destruct (read_exact_loop_short 4 4 r) as (r' & Hr); [done..|].
  exists r'. unfold read_u32, read_exact. by erewrite bind_err by exact Hr.
Qed.

(** The [read_buf] loop stops at the size limit or at the end of the stream; a poll
    takes at least one byte, so [S limit] rounds are enough. *)
Lemma fill_buffer_spec fuel limit s :
  limit < fuel -> limit <= length (stream (reader s)) \/ at_eof (reader s) = true ->
  exists s', fill_buffer fuel limit s = (Ok true, s') /\
    recv_buf s' = recv_buf s ++ take limit (stream (reader s)) /\
    stream (reader s') = drop limit (stream (reader s)) /\
    at_eof (reader s') = at_eof (reader s).
Proof using ARL.
  revert limit s. induction fuel as [|fuel IH]; intros limit s Hf Hor; [lia|].
  cbn [fill_buffer]. unfold on_reader, bind.
  destruct limit as [|limit].
  { rewrite poll_read_zero. simpl. eexists; split; [done|]. simpl.
    by rewrite app_nil_r. }
  destruct (decide (stream (reader s) = [])) as [Hnil|Hne].
  - destruct (poll_read_end (reader s) (S limit)) as (r1 & -> & Hr1 & He1);
      [lia|done| |].
    { destruct Hor as [Hor|]; [rewrite Hnil in Hor; simpl in Hor; lia|done]. }
    simpl. eexists; split; [done|]. simpl. rewrite Hnil, Hr1, app_nil_r.
    split_and!; try done. rewrite Hnil in Hor. simpl in Hor.
    destruct Hor; [lia|congruence].
  - destruct (poll_read_some (reader s) (S limit)) as (bs & r1 & -> & Hbs & Hle & Hs & He1);
      [lia|done|].
    destruct bs as [|b bs]; [done|]. cbn [map_err].
    cbn [push_recv_buf modify reader recv_buf].
    destruct (IH (S limit - length (b :: bs))
                {| reader := r1; recv_buf := recv_buf s ++ b :: bs |})
      as (s' & -> & Hb & Hs' & He'); cbn [reader recv_buf] in *.
    { simpl in *. lia. }
    { rewrite Hs, length_app in Hor. destruct Hor; [left; lia|right; congruence]. }
    eexists; split; [done|]. rewrite Hb, Hs', He', He1. split_and!; [| |done].
    + rewrite Hs, take_app, (take_ge (b :: bs)) by lia. by rewrite (assoc_L (++)).
    + rewrite Hs, drop_app, (drop_ge (b :: bs)) by lia. done.
Qed.

Lemma fill_buffer_broken fuel limit s :
  limit < fuel -> length (stream (reader s)) < limit -> at_eof (reader s) = false ->
  exists e s', fill_buffer fuel limit s = (Err (RIo e), s').
Proof using ARL.
  revert limit s. induction fuel as [|fuel IH]; intros limit s Hf Hlen He; [lia|].
  cbn [fill_buffer]. unfold on_reader, bind.
  destruct (decide (stream (reader s) = [])) as [Hnil|Hne].
  - destruct (poll_read_broken (reader s) limit) as (e & r1 & ->); [lia|done|done|].
    simpl. eauto.
  - destruct (poll_read_some (reader s) limit) as (bs & r1 & -> & Hbs & Hle & Hs & He1);
      [lia|done|].
    destruct bs as [|b bs]; [done|]. cbn [map_err push_recv_buf modify reader recv_buf].
    apply IH; cbn [reader]; [simpl in *; lia| |congruence].
    rewrite Hs, length_app in Hlen. lia.
Qed.

(** [read_lp] on a stream that starts with a whole frame. *)
Lemma read_lp_frame max s hdr body rest :
  recv_buf s = [] -> stream (reader s) = hdr ++ body ++ rest -> length hdr = 4 ->
  of_be32 hdr = Z.of_nat (length body) -> (Z.of_nat (length body) <= max)%Z ->
  exists s', read_lp max s = (Ok (Some body), s') /\ recv_buf s' = [] /\
    stream (reader s') = rest /\ at_eof (reader s') = at_eof (reader s).
Proof using ARL.
  intros Hb Hs Hl Hn Hmax. unfold read_lp.
  destruct (read_u32_ok (reader s) hdr (body ++ rest)) as (r1 & Hr & Hs1 & He1); [done..|].
  unfold bind at 1, catch, on_reader. rewrite Hr. cbn [map_err]. rewrite Hn.
  rewrite bool_decide_eq_false_2 by lia. rewrite Nat2Z.id.
  destruct (fill_buffer_spec (S (length body)) (length body)
              {| reader := r1; recv_buf := recv_buf s |}) as (s2 & Hf & Hb2 & Hs2 & He2);
    [lia|left; cbn [reader]; rewrite Hs1, length_app; lia|].
  erewrite bind_ok by exact Hf. cbn [reader recv_buf] in *.
  rewrite Hb, Hs1, take_app_length in Hb2. simpl in Hb2.
  unfold bind, split_to. rewrite Hb2. rewrite bool_decide_eq_true_2 by done.
  unfold ret. rewrite take_ge, drop_ge by done. eexists; split; [done|]. simpl.
  rewrite Hs2, Hs1, drop_app_length. split_and!; congruence.
Qed.

Lemma read_lp_end max s :
  length (stream (reader s)) < 4 -> at_eof (reader s) = true ->
  exists s', read_lp max s = (Ok None, s').
Proof using ARL.
  intros Hl He. unfold read_lp. destruct (read_u32_short (reader s)) as (r' & Hr); [done..|].
  unfold bind, catch, on_reader. rewrite Hr. simpl. eauto.
Qed.
End ReadLemmas.

(** ** The reference reading of a byte string that ends cleanly: what [read_lp] returns
    and what it leaves unread. *)
Definition parse_frame {DeErr} (max_message_size : Z) (bs : bytes) :
  outcome (ReadError DeErr) (option (bytes * bytes)) :=
  if bool_decide (length bs < 4) then Ok None
  else
    let size := of_be32 (take 4 bs) in
    let body := drop 4 bs in
    if bool_decide (max_message_size < size)%Z then Err RTooLarge
    else if bool_decide (Z.of_nat (length body) < size)%Z then Panic
    else Ok (Some (take (Z.to_nat size) body, drop (Z.to_nat size) body)).

(** The bytes of one frame. *)
Definition frame {P : Postcard} (m : ProtoMessage) : bytes :=
  be32 (Z.of_nat (length (to_allocvec m))) ++ to_allocvec m.

Arguments frame : simpl never.

Definition fits {P : Postcard} (max_message_size : Z) (m : ProtoMessage) : Prop :=
  (Z.of_nat (length (to_allocvec m)) < max_message_size)%Z.

Section WireLemmas.
Context {P : Postcard} {PL : PostcardLaws P}.
Context {R : Type} {AR : AsyncRead R} {ARL : AsyncReadLaws R}.

Lemma write_message_ok max m s :
  (max <= 2 ^ 32)%Z -> fits max m -> write_results (writer s) = [] ->
  exists s', write_message m max s = (Ok tt, s') /\
    written (writer s') = written (writer s) ++ frame m /\ write_results (writer s') = [].
Proof using PL.
  unfold fits. intros Hmax Hf Hw. unfold write_message.
  unfold bind, lift, set_send_buf, modify, gets, on_writer, write_u32, write_all.
  rewrite serialized_size_spec. simpl. rewrite bool_decide_eq_false_2 by lia. simpl.
  rewrite to_slice_spec by (by rewrite repeat_length). simpl. rewrite Hw. simpl.
  eexists; split; [done|]. simpl. rewrite Z.mod_small by lia.
  unfold frame. by rewrite app_assoc.
Qed.

Lemma send_task_ok max msgs s :
  (max <= 2 ^ 32)%Z -> Forall (fits max) msgs -> write_results (writer s) = [] ->
  exists s', send_task msgs max s = (Ok tt, s') /\
    written (writer s') = written (writer s) ++ concat (frame <$> msgs) /\
    write_results (writer s') = [].
Proof using PL.
  intros Hmax Hf. revert s. induction Hf as [|m msgs Hm Hms IH]; intros s Hw; cbn [send_task].
  - exists s. by rewrite app_nil_r.
  - rewrite fmap_cons, concat_cons. destruct (write_message_ok max m s) as (s1 & H1 & Hb1 & Hw1); [done..|].
    destruct (IH s1 Hw1) as (s2 & H2 & Hb2 & Hw2). erewrite bind_ok by exact H1.
    exists s2. rewrite Hb2, Hb1. by rewrite (assoc_L (++)).
Qed.

Lemma read_message_frame max s m rest :
  recv_buf s = [] -> stream (reader s) = frame m ++ rest -> fits max m -> (max <= 2 ^ 32)%Z ->
  exists s', read_message max s = (Ok (Some m), s') /\ recv_buf s' = [] /\
    stream (reader s') = rest /\ at_eof (reader s') = at_eof (reader s).
Proof using PL ARL.
  unfold fits. intros Hb Hs Hf Hmax. unfold frame in Hs. rewrite <- (assoc_L (++)) in Hs.
  destruct (read_lp_frame max s _ _ _ Hb Hs) as (s' & Hr & Hrest);
    [by rewrite length_be32|by rewrite of_be32_be32 by lia|lia|].
  exists s'. unfold read_message. erewrite bind_ok by exact Hr.
  unfold bind, lift. by rewrite from_bytes_spec.
Qed.

(** The receive task runs through whole frames and goes on with what follows. *)
Lemma recv_task_frames max msgs : forall fuel t rest,
  recv_buf (task_state t) = [] -> rx_capacity t = None ->
  stream (reader (task_state t)) = concat (frame <$> msgs) ++ rest ->
  Forall (fits max) msgs -> (max <= 2 ^ 32)%Z ->
  exists t', recv_task (length msgs + fuel) max t = recv_task fuel max t' /\
    recv_buf (task_state t') = [] /\ rx_capacity t' = None /\
    stream (reader (task_state t')) = rest /\
    at_eof (reader (task_state t')) = at_eof (reader (task_state t)) /\
    delivered t' = delivered t ++ msgs.
Proof using PL ARL.
  induction msgs as [|m msgs IH]; intros fuel t rest Hb Hc Hs Hf Hmax.
  - exists t. by rewrite app_nil_r.
  - apply Forall_cons in Hf as [Hm Hms].
    rewrite fmap_cons, concat_cons, <- (assoc_L (++)) in Hs.
    destruct (read_message_frame max (task_state t) m _ Hb Hs) as (s' & Hr & Hb' & Hs' & He');
      [done..|].
    simpl. unfold bind at 1, on_task. rewrite Hr. simpl.
    unfold bind at 1, read_tx_send. simpl. rewrite Hc. simpl.
    edestruct (IH fuel {| task_state := s'; delivered := delivered t ++ [m];
                          rx_capacity := None |} rest) as (t' & -> & Hb2 & Hc2 & Hs2 & He2 & Hd2);
      [done..|].
    exists t'. simpl in *. rewrite He2, Hd2, <- (assoc_L (++)). done.
Qed.

Lemma read_lp_parse max s :
  recv_buf s = [] -> at_eof (reader s) = true ->
  exists s', read_lp max s = (map_ok (fmap fst) (parse_frame max (stream (reader s))), s') /\
    (forall body rest, parse_frame (DeErr := PostcardError) max (stream (reader s))
                       = Ok (Some (body, rest)) ->
      stream (reader s') = rest /\ recv_buf s' = [] /\ at_eof (reader s') = true).
Proof using ARL.
  intros Hb He. unfold parse_frame. destruct (bool_decide_reflect (length (stream (reader s)) < 4)).
  { destruct (read_lp_end max s) as (s' & Hr); [done..|]. exists s'. by split. }
  set (hdr := take 4 (stream (reader s))). set (body := drop 4 (stream (reader s))).
  assert (length hdr = 4) as Hl by (unfold hdr; rewrite length_take; lia).
  assert (stream (reader s) = hdr ++ body) as Hs by (unfold hdr, body; by rewrite take_drop).
  pose proof (of_be32_range hdr Hl) as Hrng. unfold read_lp.
  destruct (read_u32_ok (reader s) hdr body) as (r1 & Hr & Hs1 & He1); [done..|].
  unfold bind at 1, catch, on_reader. rewrite Hr. cbn [map_err].
  case_bool_decide as Hmax; [eexists; split; [done|done]|].
  set (size := Z.to_nat (of_be32 hdr)).
  destruct (fill_buffer_spec (S size) size {| reader := r1; recv_buf := recv_buf s |})
    as (s2 & Hf & Hb2 & Hs2 & He2); [lia|right; simpl; congruence|].
  erewrite bind_ok by exact Hf. unfold bind, split_to, ret.
  rewrite Hb in Hb2. cbn [reader recv_buf app] in *. rewrite Hb2, Hs1, length_take.
  case_bool_decide as Hsz; case_bool_decide as Hn; try lia.
  - eexists; split.
    + simpl. by rewrite take_take, Nat.min_id.
    + intros b rs [= <- <-]. simpl. rewrite Hs2, Hs1, He2, He1. split_and!; [done| |done].
      apply drop_ge. rewrite length_take. lia.
  - eexists; split; [done|]. done.
Qed.

Lemma read_lp_consumes max s body s' :
  at_eof (reader s) = true -> recv_buf s = [] -> read_lp max s = (Ok (Some body), s') ->
  length (stream (reader s')) < length (stream (reader s)) /\
  at_eof (reader s') = true /\ recv_buf s' = [].
Proof using ARL.
  intros He Hb Hr. destruct (read_lp_parse max s Hb He) as (s1 & Hr1 & Hrest).
  rewrite Hr in Hr1. simplify_eq.
  destruct (parse_frame max (stream (reader s))) as [[[b rs]|]|e|] eqn:Hp; try done.
  destruct (Hrest b rs eq_refl) as (-> & ? & ?). split_and!; try done.
  unfold parse_frame in Hp. repeat case_bool_decide; try done. simplify_eq.
  rewrite !length_drop. lia.
Qed.

Lemma recv_task_fuel max : forall fuel t,
  length (stream (reader (task_state t))) < fuel -> at_eof (reader (task_state t)) = true ->
  recv_buf (task_state t) = [] -> (recv_task fuel max t).1 <> Ok false.
Proof using ARL.
  induction fuel as [|fuel IH]; intros t Hf He Hb; [lia|]. simpl.
  unfold bind at 1, on_task. unfold read_message.
  destruct (read_lp max (task_state t)) as [[[body|]|e|] s1] eqn:Hr;
    unfold bind at 1; rewrite Hr; simpl; try done.
  apply read_lp_consumes in Hr as (Hlen & He1 & Hb1); [|done..].
  unfold bind at 1, lift. destruct (from_bytes body) as [m|e|]; simpl; try done.
  unfold bind, read_tx_send. simpl.
  destruct (rx_capacity t) as [[|n]|]; simpl; try done; apply IH; simpl; try done; lia.
Qed.
End WireLemmas.

(** ** A concrete postcard codec and a reader over arbitrary segments, which satisfy the
    laws above. The codec is postcard's documented format for [ProtoMessage]: a varint
    for the enum variant, a tag byte for the option, a varint length before the bytes. *)
Module ConcreteWire.
Definition nat_of_byte (b : byte) : nat := Z.to_nat (byte.unsigned b).
Definition byte_of_nat (n : nat) : byte := byte.of_Z (Z.of_nat n).

Lemma nat_of_byte_of_nat n : n < 256 -> nat_of_byte (byte_of_nat n) = n.
Proof.
  intros Hn. unfold nat_of_byte, byte_of_nat. rewrite byte.unsigned_of_Z.
  unfold byte.wrap. rewrite Z.mod_small by lia. lia.
Qed.

Fixpoint varint (fuel n : nat) : bytes :=
  match fuel with
  | 0 => [byte_of_nat n]
  | S fuel' =>
      if bool_decide (n < 128) then [byte_of_nat n]
      else byte_of_nat (n mod 128 + 128) :: varint fuel' (n / 128)
  end.

Fixpoint unvarint (bs : bytes) : option (nat * bytes) :=
  match bs with
  | [] => None
  | b :: bs' =>
      let n := nat_of_byte b in
      if bool_decide (n < 128) then Some (n, bs')
      else '(m, rest) ← unvarint bs'; Some (n - 128 + 128 * m, rest)
  end.

Lemma unvarint_varint fuel n rest :
  n <= fuel -> unvarint (varint fuel n ++ rest) = Some (n, rest).
Proof.
  revert n. induction fuel as [|fuel IH]; intros n Hn; cbn [varint].
  - replace n with 0 by lia. done.
  - case_bool_decide as Hlt; cbn [app unvarint].
    + rewrite nat_of_byte_of_nat by lia. by rewrite bool_decide_eq_true_2.
    + assert (n mod 128 < 128) by (by apply Nat.mod_upper_bound).
      rewrite nat_of_byte_of_nat by lia. rewrite bool_decide_eq_false_2 by lia.
      assert (n / 128 < n) by (apply Nat.div_lt; lia).
      rewrite IH by lia.
      change (Some (n mod 128 + 128 - 128 + 128 * (n / 128), rest) = Some (n, rest)).
      do 2 f_equal. pose proof (Nat.div_mod_eq n 128). lia.
Qed.

Definition encode (m : ProtoMessage) : bytes :=
  match m with
  | Sync None => [Byte.x00; Byte.x00]
  | Sync (Some sm) =>
      [Byte.x00; Byte.x01] ++ varint (length (sync_bytes sm)) (length (sync_bytes sm))
                           ++ sync_bytes sm
  end.

Definition decode (bs : bytes) : outcome unit ProtoMessage :=
  match bs with
  | Byte.x00 :: Byte.x00 :: _ => Ok (Sync None)
  | Byte.x00 :: Byte.x01 :: bs' =>
      match unvarint bs' with
      | Some (n, body) =>
          if bool_decide (n <= length body) then Ok (Sync (Some (MkSyncMessage (take n body))))
          else Err tt
      | None => Err tt
      end
  | _ => Err tt
  end.

#[export] Instance postcard : Postcard := {|
  PostcardError := unit;
  serialized_size m := Ok (length (encode m));
  to_slice m buf := if bool_decide (length (encode m) <= length buf) then Ok (encode m) else Err tt;
  from_bytes := decode;
  to_allocvec := encode;
|}.

#[export] Instance postcard_laws : PostcardLaws postcard.
Proof.
  split; simpl.
  - done.
  - intros m buf H. by rewrite bool_decide_eq_true_2.
  - intros [[[b]|]]; [|done]. simpl. rewrite unvarint_varint by done.
    rewrite bool_decide_eq_true_2 by done. by rewrite take_ge.
Qed.

(** A stream cut into segments; polls return (at most) one segment. *)
Record Segments := { segments : list bytes; finished : bool }.

Fixpoint poll_segments (n : nat) (ss : list bytes) : bytes * list bytes :=
  match ss with
  | [] => ([], [])
  | [] :: ss' => poll_segments n ss'
  | s :: ss' => (take n s, drop n s :: ss')
  end.

#[export] Instance segments_read : AsyncRead Segments := {|
  stream r := concat (segments r);
  at_eof := finished;
  poll_read n r :=
    match n with
    | 0 => (Ok [], r)
    | _ =>
        let '(bs, ss) := poll_segments n (segments r) in
        match bs with
        | [] => if finished r then (Ok [], {| segments := ss; finished := true |})
                else (Err (OtherIo 0), {| segments := ss; finished := false |})
        | _ => (Ok bs, {| segments := ss; finished := finished r |})
        end
    end;
|}.

Lemma poll_segments_concat n ss :
  concat ss = (poll_segments n ss).1 ++ concat (poll_segments n ss).2.
Proof.
  induction ss as [|[|b s] ss IH]; simpl; [done|done|]. destruct n; simpl; [done|].
  by rewrite (assoc_L (++)), take_drop.
Qed.

Lemma poll_segments_length n ss : length (poll_segments n ss).1 <= n.
Proof. induction ss as [|[|b s] ss IH]; simpl; [lia|done|]. rewrite length_take. lia. Qed.

Lemma poll_segments_nil n ss : 0 < n -> (poll_segments n ss).1 = [] -> concat ss = [].
Proof.
  induction ss as [|[|b s] ss IH]; simpl; [done|auto|]. by destruct n; [lia|].
Qed.

#[export] Instance segments_laws : AsyncReadLaws Segments.
Proof.
  split; simpl; [..|done].
  all: intros r n Hn Hs; destruct n as [|n]; [lia|]; clear Hn.
  all: pose proof (poll_segments_concat (S n) (segments r)) as Hc.
  all: pose proof (poll_segments_length (S n) (segments r)) as Hl.
  all: pose proof (poll_segments_nil (S n) (segments r)) as Hnil.
  all: destruct (poll_segments (S n) (segments r)) as [bs ss]; simpl in *.
  - destruct bs as [|b bs]; [naive_solver lia|]. do 2 eexists. repeat split; eauto.
  - intros ->. rewrite Hs in Hc. symmetry in Hc. apply app_eq_nil in Hc as [-> ?].
    eexists. repeat split; simpl; done.
  - intros ->. rewrite Hs in Hc. symmetry in Hc. apply app_eq_nil in Hc as [-> ?]. eauto.
Qed.
End ConcreteWire.

(** ** Inputs of the witnesses *)
Module WireSamples.
Import ConcreteWire.

Definition hello : ProtoMessage := Sync (Some (MkSyncMessage [Byte.x68; Byte.x69])).
Definition done_msg : ProtoMessage := Sync None.
Definition fresh_writer : SendState :=
  {| writer := {| written := []; write_results := [] |}; send_buf := [] |}.

(** A stream cut into pieces of one, none, two and the other bytes. *)
Definition cut (bs : bytes) : Segments :=
  {| segments := [take 1 bs; []; take 2 (drop 1 bs); drop 3 bs]; finished := true |}.
End WireSamples.

(** ** Properties *)
Definition new_recv_task {R} (r : R) {P : Postcard} : RecvTask R := {|
  task_state := {| reader := r; recv_buf := [] |};
  delivered := [];
  rx_capacity := None;
|}.

Section WireProperties.
Context {P : Postcard} {PL : PostcardLaws P}.
Context {R : Type} {AR : AsyncRead R} {ARL : AsyncReadLaws R}.

(** A receive task on the whole stream of a send task. *)
Lemma recv_task_all max msgs (r : R) fuel :
  (max <= 2 ^ 32)%Z -> Forall (fits max) msgs -> stream r = concat (frame <$> msgs) -> at_eof r = true ->
  length msgs < fuel -> exists t', recv_task fuel max (new_recv_task r) = (Ok true, t') /\ delivered t' = msgs.
Proof.
  intros Hmax Hf Hs He Hfuel. replace fuel with (length msgs + S (fuel - S (length msgs))) by lia.
  destruct (recv_task_frames max msgs (S (fuel - S (length msgs))) (new_recv_task r) [])
    as (t' & -> & _ & _ & Hs' & He' & Hd); [done|done| |done|done|].
  { simpl. by rewrite app_nil_r. }
  destruct (read_lp_end max (task_state t')) as (s2 & Hend); [by rewrite Hs'; simpl; lia|by rewrite He'|].
  eexists. simpl. unfold on_task, read_message, bind. rewrite Hend. simpl. by split.
Qed.

(** C18. Round trip of the connection's byte stream: whatever messages the send task
    writes, a receive task that reads the resulting bytes, in whatever pieces they
    arrive, delivers exactly those messages in order and then ends normally. *)
Theorem stream_roundtrip max msgs s fuel :
  (max <= 2 ^ 32)%Z -> Forall (fits max) msgs ->
  written (writer s) = [] -> write_results (writer s) = [] -> length msgs < fuel ->
  exists s', send_task msgs max s = (Ok tt, s') /\
    forall r : R, stream r = written (writer s') -> at_eof r = true ->
      exists t', recv_task fuel max (new_recv_task r) = (Ok true, t') /\ delivered t' = msgs.
Proof.
  intros Hmax Hf Hw Hr Hfuel.
  destruct (send_task_ok max msgs s) as (s' & Hs & Hb & _); [done..|].
  exists s'. split; [done|]. intros r Hst He. rewrite Hw in Hb. simpl in Hb.
  apply recv_task_all; congruence || done.
Qed.

(** C38. The size guard of [write_message], on both sides of the limit: a frame of
    [max_message_size] bytes or more is refused before anything is written, a smaller
    one is written as its 4-byte big-endian length followed by its encoding. *)
Theorem write_message_size_guard max m s :
  (max <= 2 ^ 32)%Z -> write_results (writer s) = [] ->
  (~ fits max m -> write_message m max s = (Err WTooLarge, s)) /\
  (fits max m -> exists s', write_message m max s = (Ok tt, s') /\
     written (writer s') = written (writer s) ++ frame m).
Proof.
  intros Hmax Hw. split; intros Hf.
  - unfold write_message, bind, lift, throw. rewrite serialized_size_spec. simpl.
    rewrite bool_decide_eq_true_2; [done|]. unfold fits in Hf. lia.
  - destruct (write_message_ok max m s) as (s' & ? & ? & ?); eauto.
Qed.

(** C30. [read_lp] computes the reference reading [parse_frame] of the bytes to come, on
    every branch: the end of the stream (also after one to three bytes of a length
    prefix), a frame over the limit, a whole frame (the rest of the stream is left for
    the next call and the buffer is empty again), and a frame that is cut short, where
    [split_to] panics. *)
Theorem read_lp_reference max r :
  at_eof r = true ->
  exists s', read_lp max {| reader := r; recv_buf := [] |}
               = (map_ok (fmap fst) (parse_frame max (stream r)), s') /\
    (forall body rest, parse_frame (DeErr := PostcardError) max (stream r)
                       = Ok (Some (body, rest)) ->
      stream (reader s') = rest /\ recv_buf s' = []).
Proof.
  intros He. destruct (read_lp_parse max {| reader := r; recv_buf := [] |}) as (s' & ? & Hs);
    [done..|]. exists s'. split; [done|]. intros body rest Hp.
  by destruct (Hs body rest Hp) as (? & ? & ?).
Qed.

(** C39. A peer that stops in the middle of a frame's body takes the receive task down
    by a panic, not by an error: every whole frame before it was delivered, and then
    [split_to] is called with more bytes than the buffer holds. *)
Theorem truncated_frame_panics max msgs n body r fuel :
  (max <= 2 ^ 32)%Z -> Forall (fits max) msgs -> (Z.of_nat (length body) < n <= max)%Z ->
  (n < 2 ^ 32)%Z -> stream r = concat (frame <$> msgs) ++ be32 n ++ body ->
  at_eof r = true -> length msgs < fuel ->
  exists t', recv_task fuel max (new_recv_task r) = (Panic, t') /\ delivered t' = msgs.
Proof.
  intros Hmax Hf Hn Hn32 Hst He Hfuel.
  replace fuel with (length msgs + S (fuel - S (length msgs))) by lia.
  destruct (recv_task_frames max msgs (S (fuel - S (length msgs))) (new_recv_task r)
              (be32 n ++ body)) as (t' & -> & Hb' & _ & Hs' & He' & Hd); [done..|].
  destruct (read_lp_parse max (task_state t')) as (s2 & Hr & _); [done|by rewrite He'|].
  assert (parse_frame (DeErr := PostcardError) max (stream (reader (task_state t'))) = Panic)
    as Hp.
  { rewrite Hs'. unfold parse_frame. rewrite length_app, length_be32.
    rewrite take_app_length', drop_app_length' by (by rewrite length_be32).
    rewrite of_be32_be32 by lia.
    rewrite bool_decide_eq_false_2, bool_decide_eq_false_2, bool_decide_eq_true_2 by lia.
    done. }
  rewrite Hp in Hr. eexists. simpl. unfold on_task, read_message, bind.
  rewrite Hr. simpl. by split.
Qed.

(** The receive task ends on every input that ends: whatever bytes the peer sent,
    it comes to an end of stream, an error or a panic within as many rounds as there are
    bytes. *)
Theorem recv_task_terminates max r fuel :
  at_eof r = true -> length (stream r) < fuel ->
  (recv_task fuel max (new_recv_task r)).1 <> Ok false.
Proof. intros He Hf. by apply recv_task_fuel. Qed.
End WireProperties.

Section WireWitnesses.
Import ConcreteWire WireSamples.

Lemma stream_roundtrip_witness :
  exists s', send_task [hello; done_msg] DEFAULT_MAX_MESSAGE_SIZE fresh_writer = (Ok tt, s') /\
    exists t', recv_task 3 DEFAULT_MAX_MESSAGE_SIZE (new_recv_task (cut (written (writer s'))))
                 = (Ok true, t') /\ delivered t' = [hello; done_msg].
Proof.
  destruct (stream_roundtrip (R := Segments) DEFAULT_MAX_MESSAGE_SIZE [hello; done_msg]
              fresh_writer 3) as (s' & Hs & Hr).
  - unfold DEFAULT_MAX_MESSAGE_SIZE. lia.
  - repeat constructor.
  - done.
  - done.
  - simpl. lia.
  - exists s'. split; [done|]. apply Hr; [|done]. vm_compute in Hs.
    injection Hs as <-. vm_compute. reflexivity.
Defined.

Lemma write_message_size_guard_witness :
  write_message hello 4 fresh_writer = (Err WTooLarge, fresh_writer) /\
  exists s', write_message hello 6 fresh_writer = (Ok tt, s').
Proof.
  split.
  - refine (proj1 (write_message_size_guard 4 hello fresh_writer _ _) _);
      [lia|done|by vm_compute].
  - destruct (proj2 (write_message_size_guard 6 hello fresh_writer ltac:(lia) eq_refl))
      as (s' & H & _); [by vm_compute|]. by exists s'.
Defined.

Lemma read_lp_reference_witness :
  exists s', read_lp 10 {| reader := cut (be32 2 ++ [Byte.x68; Byte.x69; Byte.x00]);
                           recv_buf := [] |}
    = (Ok (Some [Byte.x68; Byte.x69]), s') /\ stream (reader s') = [Byte.x00].
Proof.
  destruct (read_lp_reference (R := Segments) 10
              (cut (be32 2 ++ [Byte.x68; Byte.x69; Byte.x00]))) as (s' & Hr & Hs); [done|].
  exists s'. split; [exact Hr|]. eapply Hs. vm_compute. reflexivity.
Defined.

Lemma truncated_frame_panics_witness :
  exists t', recv_task 2 100 (new_recv_task
      {| segments := [frame hello; be32 9; [Byte.x00]]; finished := true |}) = (Panic, t') /\
    delivered t' = [hello].
Proof.
  apply (truncated_frame_panics (R := Segments) 100 [hello] 9 [Byte.x00]);
    [lia|repeat constructor|simpl; lia|lia|vm_compute; reflexivity|done|simpl; lia].
Defined.

Lemma recv_task_terminates_witness :
  (recv_task 6 100 (new_recv_task (cut [Byte.x00; Byte.x00; Byte.x00; Byte.x01; Byte.x07]))).1
    <> Ok false.
Proof. apply recv_task_terminates; [done|simpl; lia]. Defined.
End WireWitnesses.
