(* ===== verification/Connection.v ===== *)
(** The chat connection state machine and glare resolution
    (src/src/protocols/chat.rs): the state behind [ChatConnection]'s lock, one definition
    per method, and the relation [step] that interleaves the methods with the tasks they
    spawn.

    Every method takes the [RwLock]'s write guard for its whole body, so it is one atomic
    function of the state. Calls that leave the component are returned as [effect]s:
    cancelling a handle's [CancellationToken], waking the watchers of the published
    state, spawning a task. *)
From S2P Require Import Prelude External Wire.
From stdpp Require Import base list gmap strings.
From Stdlib Require Import Lia Permutation.

(** [ConnOrigin] of protocol_handler.rs *)
Inductive ConnOrigin := Accept | Dial.

#[export] Instance ConnOrigin_eq_dec : EqDecision ConnOrigin.
Proof. solve_decision. Defined.

Section ConnectionTypes.
Context {Ids : EndpointIds} {Us : Uuids}.

(** An [iroh::endpoint::Connection]: an external object, known by the QUIC connection it
    belongs to and by its [remote_id()]. *)
Record Connection := { conn_id : nat; conn_remote_id : EndpointId }.

(** Channels and cancellation tokens are external objects too, known by a number. *)
Record ChatConnectionHandle := {
  handle_id : Uuid;
  origin : ConnOrigin;
  connection : Connection;
  tx : nat;
  rx : nat;
  cancel_token : nat;
}.

Inductive InternalConnState :=
| IDisconnected
| IConnected (handle : ChatConnectionHandle)
| IReconnecting.

Inductive ChatConnectionState :=
| CDisconnected
| CConnected (id : Uuid)
| CReconnecting.

Inductive UniffiChatConnectionState :=
| UDisconnected
| UConnected (id : string)
| UReconnecting.

#[export] Instance ChatConnectionState_eq_dec : EqDecision ChatConnectionState.
Proof. solve_decision. Defined.

(** [impl From<&InternalConnState> for ChatConnectionState] *)
Definition chat_state_of (value : InternalConnState) : ChatConnectionState :=
  match value with
  | IDisconnected => CDisconnected
  | IConnected handle => CConnected (handle_id handle)
  | IReconnecting => CReconnecting
  end.

(** [impl From<ChatConnectionState> for UniffiChatConnectionState] *)
Definition uniffi_state_of (value : ChatConnectionState) : UniffiChatConnectionState :=
  match value with
  | CDisconnected => UDisconnected
  | CConnected id => UConnected (uuid_to_string id)
  | CReconnecting => UReconnecting
  end.

End ConnectionTypes.

Module ChatConnection.
Section ChatConnection.
Context {Ids : EndpointIds} {Us : Uuids}.

(** The fields of [Inner] the methods read and write; [state_value] is the value the
    watch channel [state_notifier]/[state_subscriber] holds. *)
Record Inner := {
  local_id : EndpointId;
  remote_id : EndpointId;
  state : InternalConnState;
  state_value : ChatConnectionState;
}.

Definition set_internal (s : InternalConnState) (c : Inner) : Inner :=
  {| local_id := local_id c; remote_id := remote_id c; state := s;
     state_value := state_value c |}.
Definition set_value (v : ChatConnectionState) (c : Inner) : Inner :=
  {| local_id := local_id c; remote_id := remote_id c; state := state c;
     state_value := v |}.

Inductive effect :=
| CancelToken (token : nat)
| NotifyWatchers (value : ChatConnectionState)
| SpawnDisconnect (expected_id : Uuid)
| SpawnReconnect
| SendToChannel (tx : nat) (msg : ProtoMessage).

(** [ChatConnectionHandle::shutdown] *)
Definition shutdown (h : ChatConnectionHandle) : list effect := [CancelToken (cancel_token h)].

Definition shutdown_current (s : InternalConnState) : list effect :=
  match s with IConnected old => shutdown old | _ => [] end.

(** [state_notifier.send_if_modified(..)] with the closure the setters share: the
    watchers wake up only if the value changed. *)
Definition send_if_modified (public_state : ChatConnectionState) (c : Inner) :
  Inner * list effect :=
  if bool_decide (state_value c <> public_state)
  then (set_value public_state c, [NotifyWatchers public_state])
  else (c, []).

(** [state_notifier.send_modify(..)]: the watchers always wake up. *)
Definition send_modify (public_state : ChatConnectionState) (c : Inner) :
  Inner * list effect :=
  (set_value public_state c, [NotifyWatchers public_state]).

Definition set_state (new_state : InternalConnState) (c : Inner) : Inner * list effect :=
  let old := shutdown_current (state c) in
  let '(c', es) := send_if_modified (chat_state_of new_state) (set_internal new_state c) in
  (c', old ++ es).

Definition close (c : Inner) : Inner * list effect := set_state IDisconnected c.

Definition set_state_disconnected_if_id_matches (expected_id : Uuid) (c : Inner) :
  Inner * list effect :=
  match state c with
  | IConnected handle =>
      if bool_decide (handle_id handle = expected_id) then
        let '(c', es) :=
          send_if_modified (chat_state_of IDisconnected) (set_internal IDisconnected c) in
        (c', shutdown handle ++ es)
      else (c, [])
  | _ => (c, [])
  end.

Definition set_state_if_disconnected (new_state : InternalConnState) (c : Inner) :
  bool * Inner * list effect :=
  match state c with
  | IDisconnected =>
      let '(c', es) := send_if_modified (chat_state_of new_state) (set_internal new_state c) in
      (true, c', es)
  | _ => (false, c, [])
  end.

Definition set_state_if_reconnecting (new_state : InternalConnState) (c : Inner) :
  bool * Inner * list effect :=
  match state c with
  | IReconnecting =>
      let '(c', es) := send_if_modified (chat_state_of new_state) (set_internal new_state c) in
      (true, c', es)
  | _ => (false, c, [])
  end.

(** The decision at the head of [update_handle]. *)
Definition should_switch (c : Inner) (new_handle : ChatConnectionHandle) : bool :=
  match state c with
  | IConnected current_handle =>
      if bool_decide (origin current_handle = origin new_handle) then true
      else match id_ltb (local_id c) (remote_id c), origin new_handle with
           | true, Dial => true
           | true, Accept => false
           | false, Accept => true
           | false, Dial => false
           end
  | _ => true
  end.

Definition with_id (new_id : Uuid) (h : ChatConnectionHandle) : ChatConnectionHandle :=
  {| handle_id := new_id; origin := origin h; connection := connection h;
     tx := tx h; rx := rx h; cancel_token := cancel_token h |}.

(** [update_handle]; [new_id] is the [Uuid::new_v4()] of the rotation branch. *)
Definition update_handle (new_handle : ChatConnectionHandle) (new_id : Uuid) (c : Inner) :
  Inner * list effect :=
  if should_switch c new_handle then
    let old := shutdown_current (state c) in
    let internal_state := IConnected new_handle in
    let '(c', es) := send_modify (chat_state_of internal_state) (set_internal internal_state c) in
    (c', old ++ es)
  else
    let rejected := shutdown new_handle in
    match state c with
    | IConnected current_handle =>
        let internal_state := IConnected (with_id new_id current_handle) in
        let '(c', es) :=
          send_modify (chat_state_of internal_state) (set_internal internal_state c) in
        (c', rejected ++ es)
    | _ => (c, rejected)
    end.

(** [send_message]: the state is only read; [is_open] says whether the handle's channel
    still has a receiver. *)
Definition send_message (is_open : nat -> bool) (msg : ProtoMessage) (c : Inner) : list effect :=
  match state c with
  | IConnected handle =>
      if is_open (tx handle) then [SendToChannel (tx handle) msg]
      else [SpawnDisconnect (handle_id handle)]
  | _ => []
  end.

(** [receive]; [recv] is what the channel's [recv()] returns, [None] when it is closed
    and drained. *)
Definition receive (recv : nat -> option ProtoMessage) (c : Inner) :
  option ProtoMessage * list effect :=
  match state c with
  | IConnected handle =>
      match recv (rx handle) with
      | Some msg => (Some msg, [])
      | None => (None, [SpawnDisconnect (handle_id handle)])
      end
  | _ => (None, [])
  end.

(** [reconnect] only spawns the task below; [new] starts disconnected and calls it. *)
Definition reconnect : list effect := [SpawnReconnect].

Definition new (local_id remote_id : EndpointId) : Inner * list effect :=
  let state := IDisconnected in
  ({| local_id := local_id; remote_id := remote_id; state := state;
      state_value := chat_state_of state |}, reconnect).

Definition new_connected (local_id : EndpointId) (handle : ChatConnectionHandle) : Inner :=
  {| local_id := local_id; remote_id := conn_remote_id (connection handle);
     state := IConnected handle; state_value := CConnected (handle_id handle) |}.

(** The task [reconnect] spawns, cut at its await points. *)
Inductive ReconnectTask :=
| RStart
| RSendDial
| RAwaitDial
| RGotHandle (handle : ChatConnectionHandle)
| RFailed.

(** What the await a task stands at returns: [proto_tx.send] succeeded or not, the
    dial's answer. *)
Inductive DialEvent :=
| Resume
| SendOk
| SendErr
| DialOk (handle : ChatConnectionHandle)
| DialErr
| DialClosed.

Definition reconnect_step (t : ReconnectTask) (e : DialEvent) (new_id : Uuid) (c : Inner) :
  option (option ReconnectTask * Inner * list effect) :=
  match t, e with
  | RStart, Resume =>
      let '(ok, c', es) := set_state_if_disconnected IReconnecting c in
      Some (if ok then Some RSendDial else None, c', es)
  | RSendDial, SendOk => Some (Some RAwaitDial, c, [])
  | RSendDial, SendErr => Some (Some RFailed, c, [])
  | RAwaitDial, DialOk handle => Some (Some (RGotHandle handle), c, [])
  | RAwaitDial, DialErr => Some (Some RFailed, c, [])
  | RAwaitDial, DialClosed => Some (Some RFailed, c, [])
  | RGotHandle handle, Resume =>
      let '(c', es) := update_handle handle new_id c in Some (None, c', es)
  | RFailed, Resume =>
      let '(_, c', es) := set_state_if_reconnecting IDisconnected c in Some (None, c', es)
  | _, _ => None
  end.

(** ** The connection with the tasks around it. [issued] are the tokens of the handles
    the protocol actor created for this peer, [cancelled] those this component
    cancelled, in order. *)
Record System := {
  conn : Inner;
  reconnects : list ReconnectTask;
  disconnects : list Uuid;
  issued : list nat;
  cancelled : list nat;
}.

Definition apply_effect (s : System) (e : effect) : System :=
  match e with
  | CancelToken t =>
      {| conn := conn s; reconnects := reconnects s; disconnects := disconnects s;
         issued := issued s; cancelled := cancelled s ++ [t] |}
  | SpawnDisconnect i =>
      {| conn := conn s; reconnects := reconnects s; disconnects := disconnects s ++ [i];
         issued := issued s; cancelled := cancelled s |}
  | SpawnReconnect =>
      {| conn := conn s; reconnects := reconnects s ++ [RStart]; disconnects := disconnects s;
         issued := issued s; cancelled := cancelled s |}
  | NotifyWatchers _ | SendToChannel _ _ => s
  end.

Definition set_conn (c : Inner) (s : System) : System :=
  {| conn := c; reconnects := reconnects s; disconnects := disconnects s;
     issued := issued s; cancelled := cancelled s |}.

(** The result of a method: the new state and its effects. *)
Definition run (r : Inner * list effect) (s : System) : System :=
  fold_left apply_effect r.2 (set_conn r.1 s).

Definition set_tasks (rs : list ReconnectTask) (ds : list Uuid) (s : System) : System :=
  {| conn := conn s; reconnects := rs; disconnects := ds;
     issued := issued s; cancelled := cancelled s |}.

Definition issue (h : ChatConnectionHandle) (s : System) : System :=
  {| conn := conn s; reconnects := reconnects s; disconnects := disconnects s;
     issued := issued s ++ [cancel_token h]; cancelled := cancelled s |}.

(** The token of the handle a dial event brings in, if any. *)
Definition event_issue (e : DialEvent) (s : System) : System :=
  match e with DialOk h => issue h s | _ => s end.

Definition event_fresh (e : DialEvent) (s : System) : Prop :=
  match e with DialOk h => cancel_token h ∉ issued s | _ => True end.

(** One atomic step of the methods and tasks, in any order. A handle that enters, by a
    dial or by an accepted connection, has a token of its own. *)
Inductive step : System -> System -> Prop :=
| step_reconnect_call s :
    step s (run (conn s, reconnect) s)
| step_reconnect_task s ts1 t ts2 e new_id t' c es :
    reconnects s = ts1 ++ t :: ts2 ->
    event_fresh e s ->
    reconnect_step t e new_id (conn s) = Some (t', c, es) ->
    step s (run (c, es)
              (set_tasks (ts1 ++ option_list t' ++ ts2) (disconnects s) (event_issue e s)))
| step_accepted s h new_id :
    cancel_token h ∉ issued s ->
    step s (run (update_handle h new_id (conn s)) (issue h s))
| step_send s is_open msg :
    step s (run (conn s, send_message is_open msg (conn s)) s)
| step_receive s recv :
    step s (run (conn s, (receive recv (conn s)).2) s)
| step_disconnect_task s ds1 i ds2 :
    disconnects s = ds1 ++ i :: ds2 ->
    step s (run (set_state_disconnected_if_id_matches i (conn s))
              (set_tasks (reconnects s) (ds1 ++ ds2) s))
| step_close s :
    step s (run (close (conn s)) s).

(** The two ways a connection comes to life. *)
Inductive initial : System -> Prop :=
| initial_new local remote :
    initial (run (new local remote)
               {| conn := (new local remote).1; reconnects := []; disconnects := [];
                  issued := []; cancelled := [] |})
| initial_connected local h :
    initial {| conn := new_connected local h; reconnects := []; disconnects := [];
               issued := [cancel_token h]; cancelled := [] |}.

Definition reachable (s : System) : Prop := exists s0, initial s0 /\ rtc step s0 s.
End ChatConnection.

(** ** Lemmas *)
Section ConnectionLemmas.
Context {Ids : EndpointIds} {Us : Uuids}.
Implicit Types (c : Inner) (s : System) (es : list effect) (h : ChatConnectionHandle).

(** What the watchers see is the state itself. *)
Definition coherent c : Prop := state_value c = chat_state_of (state c).

Definition cancels es : list nat :=
  omap (fun e => match e with CancelToken t => Some t | _ => None end) es.
Definition starts es : list ReconnectTask :=
  omap (fun e => match e with SpawnReconnect => Some RStart | _ => None end) es.

(** The tokens of the transports that are not shut down: the current one and those
    that reconnect tasks are about to hand over. *)
Definition live_state (st : InternalConnState) : list nat :=
  match st with IConnected h => [cancel_token h] | _ => [] end.
Definition in_flight (ts : list ReconnectTask) : list nat :=
  omap (fun t => match t with RGotHandle h => Some (cancel_token h) | _ => None end) ts.
Definition live s : list nat := live_state (state (conn s)) ++ in_flight (reconnects s).

(** A reconnect task that will still resolve the [Reconnecting] state. *)
Definition dialing (t : ReconnectTask) : bool :=
  match t with RStart => false | _ => true end.

Lemma in_flight_app ts1 ts2 : in_flight (ts1 ++ ts2) = in_flight ts1 ++ in_flight ts2.
Proof. apply omap_app. Qed.

Lemma run_fields r s :
  conn (run r s) = r.1 /\ cancelled (run r s) = cancelled s ++ cancels r.2 /\
  reconnects (run r s) = reconnects s ++ starts r.2 /\ issued (run r s) = issued s.
Proof.
  destruct r as [c es]. unfold run; simpl.
  assert (forall s0, let s1 := fold_left apply_effect es s0 in
    conn s1 = conn s0 /\ cancelled s1 = cancelled s0 ++ cancels es /\
    reconnects s1 = reconnects s0 ++ starts es /\ issued s1 = issued s0) as H.
  { induction es as [|e es IH]; intros s0; simpl; [by rewrite !app_nil_r|].
    destruct (IH (apply_effect s0 e)) as (-> & -> & -> & ->).
    destruct e; simpl; by rewrite <- ?(assoc_L (++)). }
  destruct (H (set_conn c s)) as (-> & -> & -> & ->). done.
Qed.

Lemma send_if_modified_fst v c : (send_if_modified v c).1 = set_value v c.
Proof.
  unfold send_if_modified. case_bool_decide as H; [done|]. destruct c as [l r st v']; simpl in *.
  unfold set_value; simpl. by destruct (decide (v' = v)) as [->|].
Qed.

(** A method that sets the state to [st] and publishes it. *)
Lemma publish_spec st c :
  exists es, send_if_modified (chat_state_of st) (set_internal st c)
               = (set_value (chat_state_of st) (set_internal st c), es) /\
    cancels es = [] /\ starts es = [].
Proof.
  exists (send_if_modified (chat_state_of st) (set_internal st c)).2.
  rewrite <- send_if_modified_fst. split; [by destruct send_if_modified|].
  unfold send_if_modified. by case_bool_decide.
Qed.

(** What one method call does to the transports: those that were live, or came in, are
    live or cancelled afterwards; and it keeps the watchers coherent. *)
Definition accounts (before : list nat) (c : Inner) (r : Inner * list effect) : Prop :=
  (coherent c -> coherent r.1) /\ starts r.2 = [] /\
  before ++ live_state (state c) ≡ₚ cancels r.2 ++ live_state (state r.1).

Lemma cancels_app es1 es2 : cancels (es1 ++ es2) = cancels es1 ++ cancels es2.
Proof. apply omap_app. Qed.
Lemma starts_app es1 es2 : starts (es1 ++ es2) = starts es1 ++ starts es2.
Proof. apply omap_app. Qed.

Lemma set_state_disconnected_accounts c : accounts [] c (set_state IDisconnected c).
Proof.
  unfold set_state, accounts. destruct (publish_spec IDisconnected c) as (es & -> & Hc & Hs).
  simpl. rewrite cancels_app, starts_app, Hc, Hs. by destruct (state c).
Qed.

Lemma disconnect_accounts i c : accounts [] c (set_state_disconnected_if_id_matches i c).
Proof.
  unfold set_state_disconnected_if_id_matches, accounts.
  destruct (state c) eqn:Hst; simpl; rewrite ?Hst; try done.
  case_bool_decide; simpl; [|by rewrite Hst].
  destruct (publish_spec IDisconnected c) as (es & Hp & Hc & Hs). simpl in Hp. rewrite Hp.
  simpl. by rewrite Hc, Hs.
Qed.

Lemma update_handle_accounts h u c : accounts [cancel_token h] c (update_handle h u c).
Proof.
  unfold update_handle, accounts. destruct (should_switch c h) eqn:Hsw; simpl.
  - destruct (state c); simpl; split_and!; try done. apply Permutation_swap.
  - unfold should_switch in Hsw. destruct (state c); simpl; split_and!; try done.
Qed.

Definition event_tokens (e : DialEvent) : list nat :=
  match e with DialOk h => [cancel_token h] | _ => [] end.

Lemma reconnect_step_accounts t e u c t' c' es :
  reconnect_step t e u c = Some (t', c', es) ->
  (coherent c -> coherent c') /\ starts es = [] /\
  event_tokens e ++ in_flight [t] ++ live_state (state c)
    ≡ₚ cancels es ++ in_flight (option_list t') ++ live_state (state c').
Proof.
  unfold reconnect_step. destruct t, e; intros Hs; simplify_eq/=; try done.
  - unfold set_state_if_disconnected in Hs. destruct (state c) eqn:Hst; simplify_eq/=;
      rewrite ?Hst; try by split_and!.
    destruct (publish_spec IReconnecting c) as (es' & Hp & Hc' & Hs'). simpl in Hp.
    rewrite Hp in Hs. simplify_eq/=. by rewrite Hc', Hs'.
  - pose proof (update_handle_accounts handle u c) as (Hc & Hst & Hp).
    destruct (update_handle handle u c) as [c1 es1]. by simplify_eq/=.
  - unfold set_state_if_reconnecting in Hs. destruct (state c) eqn:Hst; simplify_eq/=;
      rewrite ?Hst; try by split_and!.
    destruct (publish_spec IDisconnected c) as (es' & Hp & Hc' & Hs'). simpl in Hp.
    rewrite Hp in Hs. simplify_eq/=. by rewrite Hc', Hs'.
Qed.

(** A step that ends in [Reconnecting] found it so or leaves a task that resolves it. *)
Lemma reconnect_step_dialing t e u c t' c' es :
  reconnect_step t e u c = Some (t', c', es) -> state c' = IReconnecting ->
  (state c = IReconnecting /\ dialing t = false) \/ existsb dialing (option_list t') = true.
Proof.
  unfold reconnect_step. destruct t, e; intros Hs Hr; simplify_eq/=; auto.
  - unfold set_state_if_disconnected in Hs. destruct (state c) eqn:Hst; simplify_eq/=;
      try congruence; try (by left).
    destruct (publish_spec IReconnecting c) as (es' & Hp & _). simpl in Hp.
    rewrite Hp in Hs. simplify_eq/=. auto.
  - unfold update_handle in Hs. destruct (should_switch c handle) eqn:Hsw; simplify_eq/=.
    unfold should_switch in Hsw. by destruct (state c); simplify_eq/=.
  - unfold set_state_if_reconnecting in Hs. destruct (state c) eqn:Hst; simplify_eq/=;
      try congruence.
    destruct (publish_spec IDisconnected c) as (es' & Hp & _). simpl in Hp.
    rewrite Hp in Hs. by simplify_eq/=.
Qed.

(** The invariant of the connection and its tasks. *)
Record inv s : Prop := {
  inv_coherent : coherent (conn s);
  inv_nodup : NoDup (issued s);
  inv_tokens : issued s ≡ₚ cancelled s ++ live s;
  inv_dialing : state (conn s) = IReconnecting -> existsb dialing (reconnects s) = true;
}.

Lemma inv_initial s : initial s -> inv s.
Proof.
  intros [local remote|local h]; split; simpl; try done.
  - constructor.
  - apply NoDup_singleton.
Qed.

(** Running a method that accounts for the tokens in [before] keeps the invariant. *)
Lemma inv_run before r s :
  accounts before (conn s) r ->
  coherent (conn s) -> NoDup (issued s) -> issued s ≡ₚ cancelled s ++ before ++ live s ->
  (state r.1 = IReconnecting -> existsb dialing (reconnects s) = true) ->
  inv (run r s).
Proof.
  intros (Hc & Hst & Hp) Hco Hnd Htok Hd.
  destruct (run_fields r s) as (Hconn & Hcan & Hrec & Hiss).
  split; unfold live; rewrite ?Hconn, ?Hcan, ?Hrec, ?Hiss, ?Hst, ?app_nil_r; auto.
  rewrite Htok. unfold live. rewrite (assoc_L (++) before), Hp. by rewrite !(assoc_L (++)).
Qed.

Lemma inv_run_same_conn es s :
  inv s -> cancels es = [] -> inv (run (conn s, es) s).
Proof.
  intros [Hco Hnd Htok Hd] Hes.
  destruct (run_fields (conn s, es) s) as (Hconn & Hcan & Hrec & Hiss). simpl in *.
  split; unfold live; rewrite ?Hconn, ?Hcan, ?Hrec, ?Hiss, ?Hes, ?app_nil_r; auto.
  - rewrite in_flight_app. replace (in_flight (starts es)) with (@nil nat).
    { by rewrite app_nil_r. }
    clear. induction es as [|[]]; done.
  - intros Hr. rewrite existsb_app, Hd by done. done.
Qed.

Lemma set_state_not_reconnecting c : state (set_state IDisconnected c).1 <> IReconnecting.
Proof.
  unfold set_state. by destruct (publish_spec IDisconnected c) as (es & -> & _).
Qed.

Lemma disconnect_reconnecting i c :
  state (set_state_disconnected_if_id_matches i c).1 = IReconnecting -> state c = IReconnecting.
Proof.
  unfold set_state_disconnected_if_id_matches. destruct (state c) eqn:Hst; simpl; try congruence.
  case_bool_decide; simpl; [|congruence].
  destruct (publish_spec IDisconnected c) as (es & Hp & _). simpl in Hp. by rewrite Hp.
Qed.

Lemma update_handle_state h u c :
  exists h', state (update_handle h u c).1 = IConnected h' /\
    state_value (update_handle h u c).1 = CConnected (handle_id h') /\
    local_id (update_handle h u c).1 = local_id c /\
    remote_id (update_handle h u c).1 = remote_id c.
Proof.
  unfold update_handle. destruct (should_switch c h) eqn:Hsw; simpl; [by eexists|].
  unfold should_switch in Hsw. destruct (state c); simpl; try done. by eexists.
Qed.

Lemma NoDup_issue e s :
  NoDup (issued s) -> event_fresh e s -> NoDup (issued s ++ event_tokens e).
Proof.
  destruct e; simpl; rewrite ?app_nil_r; try done. intros Hnd Hf. apply NoDup_app.
  split_and!; [done|by intros x Hx ->%list_elem_of_singleton|apply NoDup_singleton].
Qed.

Lemma inv_reconnect_step s ts1 t ts2 e u t' c es :
  inv s -> reconnects s = ts1 ++ t :: ts2 -> event_fresh e s ->
  reconnect_step t e u (conn s) = Some (t', c, es) ->
  inv (run (c, es) (set_tasks (ts1 ++ option_list t' ++ ts2) (disconnects s) (event_issue e s))).
Proof.
  intros [Hco Hnd Htok Hd] Hts Hfresh Hstep.
  destruct (reconnect_step_accounts t e u _ _ _ _ Hstep) as (Hc & Hst & Hp).
  set (s1 := set_tasks _ _ _). destruct (run_fields (c, es) s1) as (Hconn & Hcan & Hrec & Hiss).
  cbn [fst snd] in *. assert (issued s1 = issued s ++ event_tokens e /\ cancelled s1 = cancelled s)
    as [Hi1 Hc1] by (destruct e; simpl; by rewrite ?app_nil_r).
  split; unfold live; rewrite ?Hconn, ?Hcan, ?Hrec, ?Hiss, ?Hst, ?Hi1, ?Hc1, ?app_nil_r; auto.
  - by apply NoDup_issue.
  - unfold live in Htok. rewrite Hts in Htok. change (t :: ts2) with ([t] ++ ts2) in Htok.
    change (reconnects s1) with (ts1 ++ option_list t' ++ ts2).
    rewrite !in_flight_app in *. solve_perm.
  - intros Hr. simpl. rewrite !existsb_app.
    destruct (reconnect_step_dialing t e u _ _ _ _ Hstep Hr) as [[Hr' Ht]| ->].
    + specialize (Hd Hr'). rewrite Hts, existsb_app in Hd. simpl in Hd. rewrite Ht in Hd.
      simpl in Hd. destruct (existsb dialing ts1); simpl in *; [done|]. by rewrite Hd, orb_true_r.
    + by rewrite orb_true_r.
Qed.

Lemma inv_step s s' : inv s -> step s s' -> inv s'.
Proof.
  intros Hinv Hstep. pose proof Hinv as [Hco Hnd Htok Hd].
  destruct Hstep as [s|s ts1 t ts2 e u t' c es|s h u Hfresh|s is_open msg|s recv|s ds1 i ds2|s].
  - by apply inv_run_same_conn.
  - by eapply inv_reconnect_step.
  - eapply inv_run; simpl; [apply update_handle_accounts|done|..].
    + by apply (NoDup_issue (DialOk h)).
    + unfold live in *. simpl. solve_perm.
    + destruct (update_handle_state h u (conn s)) as (h' & -> & _). done.
  - apply inv_run_same_conn; [done|]. unfold send_message. by repeat case_match.
  - apply inv_run_same_conn; [done|]. unfold receive. by repeat case_match.
  - eapply inv_run; simpl; [apply disconnect_accounts|done..|].
    intros Hr. by apply disconnect_reconnecting, Hd in Hr.
  - eapply inv_run; simpl; [apply set_state_disconnected_accounts|done..|].
    intros Hr. by apply set_state_not_reconnecting in Hr.
Qed.

Lemma inv_reachable s : reachable s -> inv s.
Proof.
  intros (s0 & Hi & Hs). apply inv_initial in Hi.
  induction Hs as [|s1 s2 s3 Hstep _ IH]; [done|]. apply IH. by eapply inv_step.
Qed.

(** ** Glare *)

(** The role this node prefers against its peer. *)
Definition prefers c : ConnOrigin := if id_ltb (local_id c) (remote_id c) then Dial else Accept.

(** Two handles of the same transport: a rotation changes the id only. *)
Definition same_transport h h' : Prop := h' = with_id (handle_id h') h.

Lemma same_transport_refl h : same_transport h h.
Proof. by destruct h. Qed.

Lemma same_transport_fields h h' :
  same_transport h h' -> origin h' = origin h /\ connection h' = connection h.
Proof. unfold same_transport. by intros ->. Qed.

Lemma same_transport_with_id u h h' : same_transport h h' -> same_transport h (with_id u h').
Proof. unfold same_transport. by intros ->. Qed.

Lemma should_switch_connected c cur h :
  state c = IConnected cur ->
  should_switch c h = bool_decide (origin cur = origin h \/ origin h = prefers c).
Proof.
  unfold should_switch, prefers. intros ->.
  destruct (origin cur), (origin h), (id_ltb (local_id c) (remote_id c)); done.
Qed.

(** Handles arriving one after the other, each with the fresh id a rotation would use. *)
Definition deliver (hs : list (ChatConnectionHandle * Uuid)) c : Inner :=
  fold_left (fun c '(h, u) => (update_handle h u c).1) hs c.

(** The reference choice: the last handle of the preferred origin, or the last one if
    there is none. *)
Definition winner (pref : ConnOrigin) (hs : list ChatConnectionHandle) :
  option ChatConnectionHandle :=
  match last (filter (fun h => origin h = pref) hs) with
  | Some h => Some h
  | None => last hs
  end.

Lemma winner_snoc pref hs h :
  winner pref (hs ++ [h]) =
    if bool_decide (origin h = pref) then Some h
    else if bool_decide (filter (fun h => origin h = pref) hs = []) then Some h
    else winner pref hs.
Proof.
  unfold winner. rewrite filter_app, last_snoc. case_bool_decide as Ho.
  - rewrite filter_cons_True, filter_nil by done. by rewrite last_snoc.
  - rewrite filter_cons_False, filter_nil by done. rewrite app_nil_r.
    destruct (last (filter _ hs)) eqn:Hl; case_bool_decide as Hn; try done.
    + by rewrite Hn in Hl.
    + by apply last_None in Hl.
Qed.

Lemma winner_origin pref hs h :
  winner pref hs = Some h -> filter (fun h => origin h = pref) hs <> [] -> origin h = pref.
Proof.
  unfold winner. destruct (last (filter _ hs)) as [h'|] eqn:Hl; intros ? Hne; simplify_eq.
  - apply last_Some_elem_of, list_elem_of_filter in Hl. tauto.
  - by apply last_None in Hl.
Qed.

Lemma deliver_snoc hs h u c : deliver (hs ++ [(h, u)]) c = (update_handle h u (deliver hs c)).1.
Proof. unfold deliver. by rewrite fold_left_app. Qed.

Lemma deliver_ids hs c :
  local_id (deliver hs c) = local_id c /\ remote_id (deliver hs c) = remote_id c.
Proof.
  induction hs as [|[h u] hs IH] using rev_ind; [done|]. rewrite deliver_snoc.
  destruct (update_handle_state h u (deliver hs c)) as (_ & _ & _ & -> & ->). done.
Qed.

Lemma prefers_deliver hs c : prefers (deliver hs c) = prefers c.
Proof. unfold prefers. by destruct (deliver_ids hs c) as [-> ->]. Qed.

Lemma deliver_winner hs c :
  (forall h, state c <> IConnected h) -> hs <> [] ->
  exists w h, winner (prefers c) (fst <$> hs) = Some w /\
    state (deliver hs c) = IConnected h /\ same_transport w h.
Proof.
  intros Hc. induction hs as [|[h u] hs IH] using rev_ind; [done|]. intros _.
  rewrite deliver_snoc, fmap_app. simpl. rewrite winner_snoc.
  unfold update_handle. destruct (decide (hs = [])) as [->|Hne]; simpl.
  { exists h, h. unfold should_switch. destruct (state c) eqn:Hst; simpl.
    all: try by destruct (Hc handle). all: case_bool_decide; simpl; auto using same_transport_refl. }
  destruct (IH Hne) as (w & cur & Hw & Hcur & Hsame).
  rewrite (should_switch_connected _ cur) by done. rewrite prefers_deliver, Hcur.
  assert (origin w = origin cur) as Ho by (by rewrite Hsame).
  destruct (bool_decide_reflect (origin cur = origin h \/ origin h = prefers c)) as [Hd1|Hd1];
    simpl.
  - exists h, h. split_and!; [|done|apply same_transport_refl].
    destruct Hd1 as [Hd1|Hd1]; [|by rewrite bool_decide_eq_true_2].
    case_bool_decide as Hp; [done|]. rewrite bool_decide_eq_true_2; [done|].
    destruct (filter _ (fst <$> hs)) eqn:Hf; [done|].
    exfalso. apply Hp. rewrite <- Hd1, <- Ho. eapply winner_origin; [exact Hw|congruence].
  - exists w, (with_id u cur). split_and!; [|done|by apply same_transport_with_id].
    rewrite bool_decide_eq_false_2 by tauto. rewrite bool_decide_eq_false_2; [done|].
    intros Hf. apply Hd1. left. rewrite <- Ho.
    unfold winner in Hw. rewrite Hf in Hw. simpl in Hw.
    (* no preferred handle so far, so neither is preferred: same origin *)
    apply last_Some_elem_of in Hw.
    assert (origin w <> prefers c) as Hnw.
    { intros Hpw. eapply (not_elem_of_nil w). rewrite <- Hf. by apply list_elem_of_filter. }
    destruct (origin w), (origin h), (prefers c); tauto.
Qed.

(** ** A reconnect task always gets the state out of [Reconnecting]. *)

Lemma step_task s ts1 t ts2 e u t' c es :
  reconnects s = ts1 ++ t :: ts2 -> event_fresh e s ->
  reconnect_step t e u (conn s) = Some (t', c, es) ->
  exists s', step s s' /\ conn s' = c /\ reconnects s' = (ts1 ++ option_list t' ++ ts2) ++ starts es.
Proof.
  intros Hts Hf Hs. eexists. split; [by eapply step_reconnect_task|].
  destruct (run_fields (c, es) (set_tasks (ts1 ++ option_list t' ++ ts2) (disconnects s)
                                  (event_issue e s))) as (-> & _ & -> & _). done.
Qed.

(** How many awaits a task has before it at most, and all tasks together. One that has yet
    to start counts for nothing: in [Reconnecting] it does nothing. *)
Definition awaits (t : ReconnectTask) : nat :=
  match t with RStart => 0 | RSendDial => 3 | RAwaitDial => 2 | RGotHandle _ | RFailed => 1 end.
Definition patience s : nat := sum_list_with awaits (reconnects s).

(** The step of a task that has begun to dial, whatever the answer that it gets. *)
Inductive dial_step : System -> System -> Prop :=
| dial_step_intro s ts1 t ts2 e new_id t' c es :
    dialing t = true -> reconnects s = ts1 ++ t :: ts2 -> event_fresh e s ->
    reconnect_step t e new_id (conn s) = Some (t', c, es) ->
    dial_step s (run (c, es) (set_tasks (ts1 ++ option_list t' ++ ts2) (disconnects s) (event_issue e s))).

Lemma dial_step_step s s' : dial_step s s' -> step s s'.
Proof. intros []. by eapply step_reconnect_task. Qed.

(** A run without end, and that none of its tasks waits for ever: a dial that was sent gets
    an answer, be it an error. *)
Definition endless (f : nat -> System) : Prop := forall i, f (S i) = f i \/ step (f i) (f (S i)).
Definition fair (f : nat -> System) : Prop :=
  forall i, existsb dialing (reconnects (f i)) = true -> exists j, i <= j /\ dial_step (f j) (f (S j)).

Lemma patience_run r s : starts r.2 = [] -> patience (run r s) = patience s.
Proof. intros Hr. unfold patience. destruct (run_fields r s) as (_ & _ & -> & _). by rewrite Hr, app_nil_r. Qed.

Lemma awaits_step t e u c t' c' es :
  reconnect_step t e u c = Some (t', c', es) -> state c = IReconnecting ->
  sum_list_with awaits (option_list t') <= awaits t /\
  (dialing t = true -> sum_list_with awaits (option_list t') < awaits t).
Proof.
  unfold reconnect_step. intros Hs Hc. destruct t, e; simplify_eq/=; try (split; [lia|]; intros; lia).
  - unfold set_state_if_disconnected in Hs. rewrite Hc in Hs. simplify_eq/=. split; [lia|done].
  - destruct (update_handle handle u c). simplify_eq/=. split; [lia|]. intros; lia.
  - destruct (set_state_if_reconnecting IDisconnected c) as [[b c1] es1]. simplify_eq/=. split; [lia|]. intros; lia.
Qed.

Lemma patience_task s ts1 t ts2 e u t' c es :
  reconnects s = ts1 ++ t :: ts2 -> reconnect_step t e u (conn s) = Some (t', c, es) ->
  state (conn s) = IReconnecting ->
  let s' := run (c, es) (set_tasks (ts1 ++ option_list t' ++ ts2) (disconnects s) (event_issue e s)) in
  patience s' <= patience s /\ (dialing t = true -> patience s' < patience s).
Proof.
  intros Hts Hs Hr s'. destruct (reconnect_step_accounts _ _ _ _ _ _ _ Hs) as (_ & Hst & _).
  unfold s'. rewrite patience_run by done. unfold patience. cbn [reconnects set_tasks]. rewrite Hts.
  change (t :: ts2) with ([t] ++ ts2). rewrite !sum_list_with_app. simpl.
  destruct (awaits_step _ _ _ _ _ _ _ Hs Hr) as [? Hd]. split; [lia|]. intros ?%Hd. lia.
Qed.

(** While the state is [Reconnecting] nothing makes the wait longer, and every step of a
    dialing task shortens it. *)
Lemma patience_step s s' : step s s' -> state (conn s) = IReconnecting -> patience s' <= patience s.
Proof.
  intros Hstep Hr. destruct Hstep as [s|s ts1 t ts2 e u t' c es|s h u Hfresh|s is_open msg|s recv|s ds1 i ds2|s].
  - unfold patience. destruct (run_fields (conn s, reconnect) s) as (_ & _ & -> & _).
    rewrite sum_list_with_app. simpl. lia.
  - by eapply patience_task.
  - rewrite patience_run; [done|]. by destruct (update_handle_accounts h u (conn s)) as (_ & ? & _).
  - rewrite patience_run; [done|]. simpl. unfold send_message. by repeat case_match.
  - rewrite patience_run; [done|]. simpl. unfold receive. by repeat case_match.
  - rewrite patience_run; [done|]. by destruct (disconnect_accounts i (conn s)) as (_ & ? & _).
  - rewrite patience_run; [done|]. by destruct (set_state_disconnected_accounts (conn s)) as (_ & ? & _).
Qed.

Lemma patience_dial s s' : dial_step s s' -> state (conn s) = IReconnecting -> patience s' < patience s.
Proof. intros [s0 ts1 t ts2 e u t' c es Ht Hts _ Hs] Hr. by eapply patience_task. Qed.

Lemma patience_endless f i n :
  endless f -> (exists j, i <= j /\ state (conn (f j)) <> IReconnecting) \/
    (state (conn (f (i + n))) = IReconnecting /\ patience (f (i + n)) <= patience (f i)).
Proof.
  intros Hf. induction n as [|n [?|[Hr Hp]]]; [|by left|].
  - rewrite Nat.add_0_r. destruct (state (conn (f i))) eqn:E; [left; exists i; by rewrite E| |by right].
    left. exists i. by rewrite E.
  - rewrite Nat.add_succ_r. destruct (state (conn (f (S (i + n))))) eqn:E;
      [left; exists (S (i + n)); rewrite E; split; [lia|done]..|right; split; [done|]].
    destruct (Hf (i + n)) as [->|Hs%patience_step]; [done|lia|done].
Qed.

(** Along a run in which every [Reconnecting] state has a dialing task. *)
Lemma fair_resolves f i :
  endless f -> fair f -> (forall j, state (conn (f j)) = IReconnecting -> existsb dialing (reconnects (f j)) = true) ->
  exists j, i <= j /\ state (conn (f j)) <> IReconnecting.
Proof.
  intros Hf Hfair Hd. remember (patience (f i)) as n eqn:En. revert i En.
  induction n as [n IH] using lt_wf_ind. intros i ->.
  destruct (state (conn (f i))) eqn:Ei; [exists i; by rewrite Ei..|].
  destruct (Hfair i (Hd i Ei)) as (j & Hij & Hj). replace j with (i + (j - i)) in Hj by lia.
  destruct (patience_endless f i (j - i) Hf) as [?|[Hr Hp]]; [done|].
  apply patience_dial in Hj; [|done].
  destruct (IH (patience (f (S (i + (j - i))))) ltac:(lia) _ eq_refl) as (k & Hk & ?). exists k. split; [lia|done].
Qed.
End ConnectionLemmas.

(** ** Properties *)
Section ConnectionProperties.
Context {Ids : EndpointIds} {Us : Uuids}.

(** C6. Glare ends on one transport at both peers. Two peers hear of the transports
    between them in any interleaving; if both hear of the transports the peer with the
    smaller id dialed, and in the same order, then both end connected over the same
    transport, and it is one that peer dialed: its handle is a [Dial] at the smaller
    id and an [Accept] at the larger one. *)
Theorem glare_agreement {Laws : EndpointIdLaws Ids} (ca cb : Inner) ha hb :
  local_id ca = remote_id cb -> remote_id ca = local_id cb ->
  id_ltb (local_id ca) (remote_id ca) = true ->
  (forall h, state ca <> IConnected h) -> (forall h, state cb <> IConnected h) ->
  (fun h => conn_id (connection h)) <$> filter (fun h => origin h = Dial) (fst <$> ha) =
    (fun h => conn_id (connection h)) <$> filter (fun h => origin h = Accept) (fst <$> hb) ->
  filter (fun h => origin h = Dial) (fst <$> ha) <> [] ->
  exists h1 h2, state (deliver ha ca) = IConnected h1 /\ state (deliver hb cb) = IConnected h2 /\
    conn_id (connection h1) = conn_id (connection h2) /\ origin h1 = Dial /\ origin h2 = Accept.
Proof.
  intros Hl Hr Hlt Hca Hcb Hsame Hne.
  assert (prefers ca = Dial) as Hpa by (unfold prefers; by rewrite Hlt).
  assert (prefers cb = Accept) as Hpb.
  { unfold prefers. rewrite <- Hl, <- Hr. by rewrite (id_ltb_antisym _ _ Hlt). }
  assert (filter (fun h => origin h = Accept) (fst <$> hb) <> []) as Hneb.
  { intros Hb. rewrite Hb in Hsame. by apply fmap_nil_inv in Hsame. }
  destruct (deliver_winner ha ca Hca) as (w1 & h1 & Hw1 & Hs1 & Ht1); [by intros ->|].
  destruct (deliver_winner hb cb Hcb) as (w2 & h2 & Hw2 & Hs2 & Ht2); [by intros ->|].
  apply same_transport_fields in Ht1 as [Ho1 Hc1].
  apply same_transport_fields in Ht2 as [Ho2 Hc2].
  exists h1, h2. rewrite Hc1, Hc2, Ho1, Ho2. split_and!; [done|done| | |].
  - rewrite Hpa in Hw1. rewrite Hpb in Hw2. unfold winner in *.
    apply (f_equal last) in Hsame. rewrite !fmap_last in Hsame.
    destruct (last (filter _ (fst <$> ha))) eqn:E1; [|by apply last_None in E1].
    destruct (last (filter _ (fst <$> hb))) eqn:E2; [|by apply last_None in E2].
    by simplify_eq/=.
  - rewrite <- Hpa. eapply winner_origin; [exact Hw1|by rewrite Hpa].
  - rewrite <- Hpb. eapply winner_origin; [exact Hw2|by rewrite Hpb].
Qed.

(** [update_handle] over any sequence of handles computes the reference choice: from
    a connection that is not connected, the state ends on the last handle of the
    preferred origin, or on the last handle when none has it; rotations have changed at
    most its id. *)
Theorem deliver_chooses_winner (c : Inner) hs :
  (forall h, state c <> IConnected h) -> hs <> [] ->
  exists w h, winner (prefers c) (fst <$> hs) = Some w /\
    state (deliver hs c) = IConnected h /\ same_transport w h.
Proof. apply deliver_winner. Qed.

(** Every branch of [update_handle]. Without a current connection the new handle is
    installed. With one, a new handle of the same or of the preferred origin replaces it
    and shuts the old transport down; any other is shut down itself while the current
    handle stays under a fresh id. In each case the watchers wake up, whether or not
    the value changed. *)
Theorem update_handle_cases h u (c : Inner) :
  let r := update_handle h u c in
  let woken st := set_value (chat_state_of st) (set_internal st c) in
  match state c with
  | IConnected cur =>
      if bool_decide (origin cur = origin h \/ origin h = prefers c)
      then r = (woken (IConnected h),
                [CancelToken (cancel_token cur); NotifyWatchers (CConnected (handle_id h))])
      else r = (woken (IConnected (with_id u cur)),
                [CancelToken (cancel_token h); NotifyWatchers (CConnected u)])
  | _ => r = (woken (IConnected h), [NotifyWatchers (CConnected (handle_id h))])
  end.
Proof.
  destruct (state c) as [|cur|] eqn:Hst; simpl; unfold update_handle;
    [by unfold should_switch; rewrite Hst| |by unfold should_switch; rewrite Hst].
  rewrite (should_switch_connected c cur) by done. by case_bool_decide; simpl; rewrite Hst.
Qed.

(** C7. Only one transport per peer. In every state the methods and their tasks can
    reach, in any interleaving, the transports created for the peer are, each exactly
    once, either shut down by this component, or the current one, or in the hands of a
    reconnect task that has yet to report it. *)
Theorem transports_accounted (s : System) :
  reachable s -> NoDup (issued s) /\ issued s ≡ₚ cancelled s ++ live s.
Proof. intros Hs. by destruct (inv_reachable s Hs). Qed.

(** The watch channel never lags behind the lock: in every reachable state the
    published value is the image of the internal state, so a subscriber that reads it
    sees the connection's state. *)
Theorem watchers_see_state (s : System) :
  reachable s -> state_value (conn s) = chat_state_of (state (conn s)).
Proof. intros Hs. by destruct (inv_reachable s Hs). Qed.

(** C20. [Reconnecting] does not last. In every run of the connection, whatever its methods
    and tasks do in between and however every dial ends, so long as no dial waits for its
    answer for ever: from any moment on there is a later one at which the state is not
    [Reconnecting]. *)
Theorem reconnecting_resolves (f : nat -> System) :
  reachable (f 0) -> endless f -> fair f ->
  forall i, exists j, i <= j /\ state (conn (f j)) <> IReconnecting.
Proof.
  intros (s0 & Hi & Hs) Hf Hfair i. apply fair_resolves; [done|done|]. intros j.
  apply inv_dialing, inv_reachable. exists s0. split; [done|].
  induction j as [|j IH]; [done|]. destruct (Hf j) as [->|Hstep]; [done|]. by eapply rtc_r.
Qed.

(** A late disconnect cannot hurt a newer connection: the task that a failed send or
    receive spawns changes the state only if the handle it failed on is still the current
    one, and then it disconnects, shuts that transport down and wakes the watchers. *)
Theorem disconnect_only_current (i : Uuid) (c : Inner) :
  coherent c ->
  set_state_disconnected_if_id_matches i c =
    match state c with
    | IConnected cur =>
        if bool_decide (handle_id cur = i)
        then (set_value CDisconnected (set_internal IDisconnected c),
              [CancelToken (cancel_token cur); NotifyWatchers CDisconnected])
        else (c, [])
    | _ => (c, [])
    end.
Proof.
  unfold coherent, set_state_disconnected_if_id_matches. intros Hc.
  destruct (state c) as [|cur|] eqn:Hst; [done| |done]. case_bool_decide; [|done].
  unfold send_if_modified. simpl. by rewrite Hc, bool_decide_eq_true_2.
Qed.

Lemma dial_step_task s ts1 t ts2 e u t' c es :
  dialing t = true -> reconnects s = ts1 ++ t :: ts2 -> event_fresh e s ->
  reconnect_step t e u (conn s) = Some (t', c, es) -> starts es = [] ->
  exists s', dial_step s s' /\ conn s' = c /\ reconnects s' = ts1 ++ option_list t' ++ ts2.
Proof.
  intros Ht Hts Hf Hs He. eexists. split; [by eapply dial_step_intro|].
  destruct (run_fields (c, es) (set_tasks (ts1 ++ option_list t' ++ ts2) (disconnects s)
    (event_issue e s))) as (-> & _ & -> & _). cbn [snd]. by rewrite He, app_nil_r.
Qed.

Lemma close_leaves_tasks s :
  let s1 := run (close (conn s)) s in
  state (conn s1) = IDisconnected /\ reconnects s1 = reconnects s /\ issued s1 = issued s.
Proof.
  intros s1. unfold s1. destruct (run_fields (close (conn s)) s) as (-> & _ & -> & ->).
  destruct (set_state_disconnected_accounts (conn s)) as (_ & Hz & _). unfold close.
  rewrite Hz, app_nil_r. unfold set_state. by destruct (publish_spec IDisconnected (conn s)) as (es & -> & _).
Qed.

Lemma reachable_dial s s' : reachable s -> rtc dial_step s s' -> reachable s'.
Proof.
  intros (s0 & Hi & Hs) Hd. exists s0. split; [done|]. etransitivity; [exact Hs|].
  eapply (rtc_subrel dial_step step); [intros ??; apply dial_step_step|done].
Qed.

(** C37. [close] is not final. A dial that is under way when the connection is closed stays
    under way: the connection is disconnected, and the task still waits for its answer. When
    that is a handle, the steps of the dial alone, with no accepted connection and no call of
    [reconnect], connect the closed connection again, over the dialed transport, which is
    live and which nobody has shut down. *)
Theorem dial_outlives_close (s : System) ts1 ts2 h (u : Uuid) :
  reachable s -> reconnects s = ts1 ++ RAwaitDial :: ts2 -> cancel_token h ∉ issued s ->
  let closed := run (close (conn s)) s in
  state (conn closed) = IDisconnected /\ reconnects closed = ts1 ++ RAwaitDial :: ts2 /\
  exists s', rtc dial_step closed s' /\ state (conn s') = IConnected h /\ reconnects s' = ts1 ++ ts2 /\
    cancel_token h ∈ live s' /\ cancel_token h ∉ cancelled s'.
Proof.
  intros Hs Hts Hf s1. destruct (close_leaves_tasks s) as (Hst1 & Hts1 & Hi1). fold s1 in Hst1, Hts1, Hi1.
  rewrite Hts in Hts1. split; [done|]. split; [done|].
  assert (reachable s1) as Hr1.
  { destruct Hs as (s0 & ? & ?). exists s0. split; [done|]. eapply rtc_r; [done|]. apply step_close. }
  destruct (dial_step_task s1 ts1 RAwaitDial ts2 (DialOk h) u (Some (RGotHandle h)) (conn s1) [])
    as (s2 & Hstep2 & Hc2 & Hr2); [done|done|simpl; by rewrite Hi1|done|done|].
  destruct (dial_step_task s2 ts1 (RGotHandle h) ts2 Resume u None
              (update_handle h u (conn s2)).1 (update_handle h u (conn s2)).2)
    as (s3 & Hstep3 & Hc3 & Hr3);
    [done|done|done|simpl; by destruct update_handle|by destruct (update_handle_accounts h u (conn s2)) as (_ & ? & _)|].
  assert (rtc dial_step s1 s3) as Hrun by (eapply rtc_l; [exact Hstep2|]; by apply rtc_once).
  assert (state (conn s3) = IConnected h) as Hst3.
  { rewrite Hc3, Hc2. unfold update_handle, should_switch. by rewrite Hst1. }
  assert (cancel_token h ∈ live s3) as Hlive by (unfold live; rewrite Hst3; simpl; set_solver).
  exists s3. do 4 (split; [done|]).
  destruct (inv_reachable s3 (reachable_dial _ _ Hr1 Hrun)) as [_ Hnd Htok _]. rewrite Htok in Hnd.
  apply NoDup_app in Hnd as (_ & Hdisj & _). intros Hin. by apply (Hdisj _ Hin).
Qed.
End ConnectionProperties.

(** ** Witnesses, over the concrete key space *)
Section ConnectionWitnesses.
Import Concrete.

(** A handle of transport [n]; its token and channels carry the same number. *)
Definition sample_handle (n : nat) (o : ConnOrigin) (peer : nat) : ChatConnectionHandle := {|
  handle_id := (10 + n : @Uuid uuids); origin := o;
  connection := {| conn_id := n; conn_remote_id := (peer : @EndpointId keys) |};
  tx := n; rx := n; cancel_token := n;
|}.

Definition sample_conn (me peer : nat) : Inner := (new (Ids := keys) me peer).1.

(** A fresh connection whose first dial was sent and is still unanswered. *)
Definition sample_dialing : System := {|
  conn := set_value CReconnecting (set_internal IReconnecting (sample_conn 1 2));
  reconnects := [RAwaitDial]; disconnects := []; issued := []; cancelled := [];
|}.

Lemma sample_dialing_reachable : reachable sample_dialing.
Proof.
  eexists. split; [apply (initial_new (1 : @EndpointId keys) (2 : @EndpointId keys))|].
  set (c := set_value CReconnecting (set_internal IReconnecting (sample_conn 1 2))).
  eapply rtc_l; [|apply rtc_once];
    match goal with |- step ?s _ =>
      first
        [ exact (step_reconnect_task s [] RStart [] Resume (0 : @Uuid uuids) (Some RSendDial) c
                   [NotifyWatchers CReconnecting] eq_refl Logic.I eq_refl)
        | exact (step_reconnect_task s [] RSendDial [] SendOk (0 : @Uuid uuids)
                   (Some RAwaitDial) c [] eq_refl Logic.I eq_refl) ]
    end.
Defined.

(** The classic glare: peers 1 and 2 dial at once; 1 hears of its own dial first, 2 of
    its own dial first as well. *)
Lemma glare_agreement_witness :
  exists h1 h2,
    state (deliver [(sample_handle 1 Dial 2, 90); (sample_handle 2 Accept 2, 91)]
             (sample_conn 1 2)) = IConnected h1 /\
    state (deliver [(sample_handle 2 Dial 1, 92); (sample_handle 1 Accept 1, 93)]
             (sample_conn 2 1)) = IConnected h2 /\
    conn_id (connection h1) = conn_id (connection h2) /\ origin h1 = Dial /\ origin h2 = Accept.
Proof. by apply glare_agreement. Defined.

Lemma deliver_chooses_winner_witness :
  exists w h,
    winner Dial [sample_handle 1 Dial 2; sample_handle 2 Accept 2] = Some w /\
    state (deliver [(sample_handle 1 Dial 2, 90); (sample_handle 2 Accept 2, 91)]
             (sample_conn 1 2)) = IConnected h /\ same_transport w h.
Proof.
  apply (deliver_chooses_winner (sample_conn 1 2)
           [(sample_handle 1 Dial 2, 90); (sample_handle 2 Accept 2, 91)]); done.
Defined.

Lemma transports_accounted_witness :
  NoDup (issued sample_dialing) /\
    issued sample_dialing ≡ₚ cancelled sample_dialing ++ live sample_dialing.
Proof. apply transports_accounted, sample_dialing_reachable. Defined.

Lemma watchers_see_state_witness :
  state_value (conn sample_dialing) = chat_state_of (state (conn sample_dialing)).
Proof. apply watchers_see_state, sample_dialing_reachable. Defined.

(** A run in which the first dial fails: it starts, is sent, is refused, and the connection
    is disconnected from then on. *)
Definition sample_run (i : nat) : System :=
  let at_conn c rs := {| conn := c; reconnects := rs; disconnects := []; issued := []; cancelled := [] |} in
  match i with
  | 0 => sample_dialing
  | 1 => at_conn (conn sample_dialing) [RFailed]
  | _ => at_conn (set_value CDisconnected (set_internal IDisconnected (conn sample_dialing))) []
  end.

Lemma sample_run_dials i : i < 2 -> dial_step (sample_run i) (sample_run (S i)).
Proof.
  intros Hi. destruct i as [|[|i]]; [..|lia].
  - exact (dial_step_intro sample_dialing [] RAwaitDial [] DialErr (0 : @Uuid uuids) (Some RFailed)
             (conn sample_dialing) [] eq_refl eq_refl Logic.I eq_refl).
  - exact (dial_step_intro (sample_run 1) [] RFailed [] Resume (0 : @Uuid uuids) None
             (conn (sample_run 2)) [NotifyWatchers CDisconnected] eq_refl eq_refl Logic.I eq_refl).
Qed.

Lemma reconnecting_resolves_witness :
  state (conn (sample_run 0)) = IReconnecting /\
  exists j, 0 <= j /\ state (conn (sample_run j)) <> IReconnecting.
Proof.
  split; [reflexivity|]. apply (reconnecting_resolves sample_run).
  - apply sample_dialing_reachable.
  - intros i. destruct (decide (i < 2)) as [Hi|Hi].
    + right. by apply dial_step_step, sample_run_dials.
    + left. by destruct i as [|[|i]]; [lia..|].
  - intros i. destruct (decide (i < 2)) as [Hi|Hi].
    + exists i. split; [done|]. by apply sample_run_dials.
    + by destruct i as [|[|i]]; [lia..|].
Defined.

Definition sample_connected : Inner :=
  new_connected (1 : @EndpointId keys) (sample_handle 3 Accept 2).

Lemma disconnect_only_current_witness :
  set_state_disconnected_if_id_matches (13 : @Uuid uuids) sample_connected =
    (set_value CDisconnected (set_internal IDisconnected sample_connected),
     [CancelToken 3; NotifyWatchers CDisconnected]).
Proof. by rewrite (disconnect_only_current (13 : @Uuid uuids) sample_connected). Defined.

Lemma dial_outlives_close_witness :
  let closed := run (close (conn sample_dialing)) sample_dialing in
  state (conn closed) = IDisconnected /\ reconnects closed = [RAwaitDial] /\
  exists s', rtc dial_step closed s' /\ state (conn s') = IConnected (sample_handle 5 Dial 2) /\
    reconnects s' = [] /\ 5 ∈ live s' /\ 5 ∉ cancelled s'.
Proof.
  apply (dial_outlives_close sample_dialing [] [] (sample_handle 5 Dial 2) (0 : @Uuid uuids));
    [apply sample_dialing_reachable|done|]. simpl. apply not_elem_of_nil.
Defined.
End ConnectionWitnesses.
End ChatConnection.
