(* ===== verification/Errors.v ===== *)
(** The error types (src/src/error.rs): [LibError], its [Display], and its conversion to
    the [GossipError] that crosses the FFI boundary. An error of a dependency is known by
    the text it displays, which is all the program reads of it. Also [stop], the errors of
    calls that may wait. *)
From S2P Require Import Prelude.
From stdpp Require Import base strings.

(** [anyhow::Error], as its [Display] text. *)
Abbreviation anyhow := string.

Inductive LibError :=
| Sqlx (e : string)
| SqlxMigrations (e : string)
| PeerConnection (e : string)
| Automerge (e : anyhow)
| ChatNotFound (id : string)
| InvalidPeerId (e : string)
| EndpointStartup
| LockPoisoned
| Unexpected (e : anyhow).

Inductive GossipError :=
| Storage (msg : string)
| Connectivity (msg : string)
| Protocol (msg : string)
| Internal (msg : string).

#[export] Instance LibError_eq_dec : EqDecision LibError.
Proof. solve_decision. Defined.
#[export] Instance GossipError_eq_dec : EqDecision GossipError.
Proof. solve_decision. Defined.

(** The [#[error(..)]] attributes of [LibError]. *)
Definition lib_error_to_string (err : LibError) : string :=
  match err with
  | Sqlx e => "SQLx database error: " +:+ e
  | SqlxMigrations e => "SQLx database migrations error: " +:+ e
  | PeerConnection e => "iroh Connection error: " +:+ e
  | Automerge e => "Automerge/Autosurgeon error: " +:+ e
  | ChatNotFound id => "Chat not found for ID: " +:+ id
  | InvalidPeerId e => "Invalid Peer ID for Chat ID generation: " +:+ e
  | EndpointStartup => "Failed to startup network endpoint. Check internet connection."
  | LockPoisoned => "Mutex lock poisoned"
  | Unexpected e => "Unexpected error: " +:+ e
  end.

(** The [#[error(..)]] attributes of [GossipError]; [message()] is its [to_string()]. *)
Definition gossip_error_message (err : GossipError) : string :=
  match err with
  | Storage m => "Storage failure: " +:+ m
  | Connectivity m => "Network connectivity issue: " +:+ m
  | Protocol m => "P2P protocol error: " +:+ m
  | Internal m => "Internal system error: " +:+ m
  end.

(** [impl From<LibError> for GossipError] *)
Definition gossip_of_lib (err : LibError) : GossipError :=
  match err with
  | Sqlx e => Storage e
  | SqlxMigrations e => Storage e
  | PeerConnection e => Connectivity e
  | EndpointStartup => Connectivity "Failed to startup network endpoint."
  | Automerge e => Protocol e
  | ChatNotFound id => Protocol ("Chat not found for ID: " +:+ id)
  | InvalidPeerId e => Protocol e
  | LockPoisoned => Internal "Internal lock poisoned"
  | Unexpected e => Internal e
  end.

(** [impl From<anyhow::Error> for GossipError] *)
Definition gossip_of_anyhow (value : anyhow) : GossipError := Internal value.

(** [impl From<PoisonError<T>> for LibError] *)
Definition lib_of_poison : LibError := LockPoisoned.

(** [?] from [LibError] into [anyhow::Error] and back: the category is lost, the text
    stays. *)
Definition anyhow_of_lib (err : LibError) : anyhow := lib_error_to_string err.
Definition lib_of_anyhow (value : anyhow) : LibError := Unexpected value.

(** ** Calls that wait: one ends with the code's own error, or the run under consideration
    ends while the call still waits. *)
Inductive stop (E : Type) :=
| Failed (e : E)
| Pending.
Arguments Failed {E} e.
Arguments Pending {E}.

(** [match c { Ok(a) => .., Err(e) => .. }]; waiting is not a result. *)
Definition attempt {W E E' A} (c : action W (stop E) A) : action W (stop E') (outcome E A) := fun w =>
  match c w with
  | (Ok x, w') => (Ok (Ok x), w')
  | (Err (Failed e), w') => (Ok (Err e), w')
  | (Err Pending, w') => (Err Pending, w')
  | (Panic, w') => (Panic, w')
  end.
