(* ===== verification/ChatTypes.v ===== *)
(** The chat's data model (src/src/persistence.rs): messages, their order, and [ChatId]
    with its [Display]. *)
From S2P Require Import Prelude External.
From stdpp Require Import base countable strings list.
From Stdlib Require Import Ascii ZArith Lia.

Inductive ChatMessageContent :=
| Text (text : string).

#[export] Instance ChatMessageContent_eq_dec : EqDecision ChatMessageContent.
Proof. solve_decision. Defined.

(** [created_at] and [updated_at] are [i64] milliseconds. *)
Record ChatMessage := {
  msg_id : string;
  sender_node_id : string;
  content : ChatMessageContent;
  created_at : Z;
  updated_at : Z;
}.

#[export] Instance ChatMessage_eq_dec : EqDecision ChatMessage.
Proof. solve_decision. Defined.

(** The struct the document is initialised from. *)
Record ChatInit := { init_chat_id : string }.

(** [String]'s [Ord]: bytewise lexicographic. *)
Definition str_leb (a b : string) : bool := bool_decide (String.le a b).

Lemma str_leb_total a b : str_leb a b = true \/ str_leb b a = true.
Proof. unfold str_leb. rewrite !bool_decide_eq_true. apply (total String.le). Qed.

Lemma str_leb_trans a b c : str_leb a b = true -> str_leb b c = true -> str_leb a c = true.
Proof. unfold str_leb. rewrite !bool_decide_eq_true. apply (transitivity (R := String.le)). Qed.

Lemma str_leb_antisym a b : str_leb a b = true -> str_leb b a = true -> a = b.
Proof. unfold str_leb. rewrite !bool_decide_eq_true. apply (anti_symm String.le). Qed.

(** [a.created_at.cmp(&b.created_at).then_with(|| a.id.cmp(&b.id))], as "not greater". *)
Definition msg_leb (a b : ChatMessage) : bool :=
  if (created_at a <? created_at b)%Z then true
  else if (created_at b <? created_at a)%Z then false
  else str_leb (msg_id a) (msg_id b).

Lemma msg_leb_total a b : msg_leb a b = true \/ msg_leb b a = true.
Proof.
  unfold msg_leb.
  destruct (Z.ltb_spec (created_at a) (created_at b)), (Z.ltb_spec (created_at b) (created_at a));
    auto. apply str_leb_total.
Qed.

Lemma msg_leb_trans a b c : msg_leb a b = true -> msg_leb b c = true -> msg_leb a c = true.
Proof.
  unfold msg_leb.
  destruct (Z.ltb_spec (created_at a) (created_at b)), (Z.ltb_spec (created_at b) (created_at a)),
    (Z.ltb_spec (created_at b) (created_at c)), (Z.ltb_spec (created_at c) (created_at b)),
    (Z.ltb_spec (created_at a) (created_at c)), (Z.ltb_spec (created_at c) (created_at a));
    try done; try lia. apply str_leb_trans.
Qed.

(** Messages that compare equal have the same id. *)
Lemma msg_leb_antisym_id a b : msg_leb a b = true -> msg_leb b a = true -> msg_id a = msg_id b.
Proof.
  unfold msg_leb.
  destruct (Z.ltb_spec (created_at a) (created_at b)), (Z.ltb_spec (created_at b) (created_at a));
    try done; try lia. apply str_leb_antisym.
Qed.

(** [sort_by_key(|m| m.created_at)] *)
Definition created_leb (a b : ChatMessage) : bool := (created_at a <=? created_at b)%Z.

Lemma created_leb_total a b : created_leb a b = true \/ created_leb b a = true.
Proof. unfold created_leb. rewrite !Z.leb_le. lia. Qed.

Lemma created_leb_trans a b c :
  created_leb a b = true -> created_leb b c = true -> created_leb a c = true.
Proof. unfold created_leb. rewrite !Z.leb_le. lia. Qed.

#[export] Hint Resolve str_leb_total str_leb_trans str_leb_antisym msg_leb_total msg_leb_trans
  created_leb_total created_leb_trans : tryst.

(** ** [ChatId] *)
Section ChatId.
Context {Ids : EndpointIds}.

Record ChatId := { my_id : EndpointId; remote_peer : EndpointId }.

#[export] Instance ChatId_eq_dec : EqDecision ChatId.
Proof. solve_decision. Defined.

#[export] Program Instance ChatId_countable : Countable ChatId :=
  inj_countable' (fun c => (my_id c, remote_peer c))
                 (fun p => {| my_id := p.1; remote_peer := p.2 |}) _.
Next Obligation. by intros []. Qed.

(** [impl Display for ChatId]: the two ids, sorted, with an underscore between. *)
Definition chat_id_to_string (c : ChatId) : string :=
  match sort_by id_leb [my_id c; remote_peer c] with
  | n0 :: n1 :: _ => id_to_string n0 +:+ "_" +:+ id_to_string n1
  | _ => ""
  end.

Definition swap_chat_id (c : ChatId) : ChatId :=
  {| my_id := remote_peer c; remote_peer := my_id c |}.
End ChatId.

(** [str::split_once('_')] *)
Fixpoint split_once (d : ascii) (s : string) : option (string * string) :=
  match s with
  | EmptyString => None
  | String c s' =>
      if bool_decide (d = c) then Some (EmptyString, s')
      else '(a, b) ← split_once d s'; Some (String c a, b)
  end.

Lemma split_once_app d a b :
  char_free d a = true -> split_once d (a +:+ String d b) = Some (a, b).
Proof.
  induction a as [|c a IH]; simpl; intros Ha.
  - by rewrite bool_decide_eq_true_2.
  - apply andb_true_iff in Ha as [Hc Ha]. apply negb_true_iff in Hc. rewrite Hc.
    by rewrite (IH Ha).
Qed.

Lemma split_once_inv d s a b : split_once d s = Some (a, b) -> s = a +:+ String d b.
Proof.
  revert a. induction s as [|c s IH]; simpl; intros a Hs; [done|].
  case_bool_decide; simplify_eq; [done|].
  destruct (split_once d s) as [[a' b']|] eqn:E; simplify_eq/=. by rewrite (IH a').
Qed.

Section ChatIdFacts.
Context {Ids : EndpointIds} {Laws : EndpointIdLaws Ids}.
Implicit Types (a b : EndpointId) (c : ChatId).

Lemma chat_id_to_string_leb c :
  chat_id_to_string c =
    if id_leb (my_id c) (remote_peer c)
    then id_to_string (my_id c) +:+ "_" +:+ id_to_string (remote_peer c)
    else id_to_string (remote_peer c) +:+ "_" +:+ id_to_string (my_id c).
Proof. unfold chat_id_to_string. simpl. by destruct (id_leb _ _). Qed.

Lemma chat_id_split c :
  split_once "_" (chat_id_to_string c) =
    if id_leb (my_id c) (remote_peer c)
    then Some (id_to_string (my_id c), id_to_string (remote_peer c))
    else Some (id_to_string (remote_peer c), id_to_string (my_id c)).
Proof using Laws.
  rewrite chat_id_to_string_leb. destruct (id_leb _ _); apply split_once_app, id_to_string_hex.
Qed.

Lemma chat_id_to_string_swap c : chat_id_to_string (swap_chat_id c) = chat_id_to_string c.
Proof using Laws.
  rewrite !chat_id_to_string_leb. simpl. destruct c as [a b]. simpl.
  destruct (id_leb a b) eqn:Hab, (id_leb b a) eqn:Hba; try done.
  - by rewrite (id_leb_antisym a b).
  - destruct (id_leb_total a b); congruence.
Qed.

Lemma chat_id_to_string_inj c c' :
  chat_id_to_string c = chat_id_to_string c' -> c' = c \/ c' = swap_chat_id c.
Proof using Laws.
  intros Heq. apply (f_equal (split_once "_")) in Heq. rewrite !chat_id_split in Heq.
  destruct c as [a b], c' as [a' b']. unfold swap_chat_id. simpl in *.
  destruct (id_leb a b), (id_leb a' b'); simplify_eq; auto.
Qed.
End ChatIdFacts.
