(* ===== verification/Database.v ===== *)
(** The SQLite database (src/migrations/20250414093115_setup.sql) and the statements the
    program runs on it. Each statement of src/src/persistence.rs is a function on the two
    tables; a pool is a [World]: the tables together with a forecast of what happens at
    each [.await] on the pool (what other tasks commit before the statement runs, and
    whether the statement fails). *)
From S2P Require Import Prelude Errors Wire.
From stdpp Require Import base gmap strings list sorting.
From Stdlib Require Import ZArith Lia Sorting.Sorted.
Open Scope tryst_scope.

(** ** Statements under a forecast *)
Section Worlds.
Context {D : Type}.

(** What happens at one [.await]: [others] are the writes other tasks commit while this
    one waits; [fault] is the error the statement then fails with, if it does. *)
Record Weather := { others : D -> D; fault : option string }.

Record World := { store : D; forecast : list Weather }.

Definition calm : Weather := {| others := id; fault := None |}.

(** The weather of the next [.await]; a forecast that has run out is calm. *)
Definition next_weather (w : World) : Weather * list Weather :=
  match forecast w with
  | [] => (calm, [])
  | wx :: rest => (wx, rest)
  end.

(** One autocommitted statement: it takes effect as a whole or fails without effect. *)
Definition stmt {A} (f : D -> outcome string A * D) : action World LibError A := fun w =>
  let '(wx, rest) := next_weather w in
  let d := others wx (store w) in
  match fault wx with
  | Some e => (Err (Sqlx e), {| store := d; forecast := rest |})
  | None =>
      let '(r, d') := f d in
      match r with
      | Ok a => (Ok a, {| store := d'; forecast := rest |})
      | Err e => (Err (Sqlx e), {| store := d; forecast := rest |})
      | Panic => (Panic, {| store := d; forecast := rest |})
      end
  end.

(** The writes of a transaction. The first one takes the write lock, so what other tasks
    wanted to commit during the later ones waits ([waiting]) until the transaction is
    over. [base] is what a rollback restores. *)
Fixpoint tx_writes (ws : list (D -> outcome string D)) (base d : D) (waiting : D -> D) (w : World) :
    outcome LibError unit * World :=
  let '(wx, rest) := next_weather w in
  let waiting' := fun x => others wx (waiting x) in
  match fault wx with
  | Some e => (Err (Sqlx e), {| store := waiting' base; forecast := rest |})
  | None =>
      match ws with
      | [] => (Ok tt, {| store := waiting' d; forecast := rest |})
      | f :: ws' =>
          match f d with
          | Ok d' => tx_writes ws' base d' waiting' {| store := store w; forecast := rest |}
          | Err e => (Err (Sqlx e), {| store := waiting' base; forecast := rest |})
          | Panic => (Panic, {| store := waiting' base; forecast := rest |})
          end
      end
  end.

(** [begin], the first write [f], the other writes [ws], [commit]. A [?] before the commit
    drops the transaction, which rolls it back. *)
Definition transaction (f : D -> outcome string D) (ws : list (D -> outcome string D)) :
    action World LibError unit :=
  stmt (fun d => (Ok tt, d)) ;;; fun w =>
    let '(wx, rest) := next_weather w in
    let base := others wx (store w) in
    match fault wx with
    | Some e => (Err (Sqlx e), {| store := base; forecast := rest |})
    | None =>
        match f base with
        | Ok d => tx_writes ws base d id {| store := base; forecast := rest |}
        | Err e => (Err (Sqlx e), {| store := base; forecast := rest |})
        | Panic => (Panic, {| store := base; forecast := rest |})
        end
    end.

(** *** An invariant other tasks keep *)
Definition kept (I : D -> Prop) (w : World) : Prop :=
  Forall (fun wx => forall d, I d -> I (others wx d)) (forecast w).

Lemma next_weather_kept I w wx rest :
  kept I w -> next_weather w = (wx, rest) ->
  (forall d, I d -> I (others wx d)) /\ Forall (fun wx => forall d, I d -> I (others wx d)) rest.
Proof.
  unfold kept, next_weather. destruct (forecast w) as [|y ys]; intros Hk [= <- <-].
  - split; [done|constructor].
  - by apply Forall_cons in Hk.
Qed.

(** No statement of the forecast fails. *)
Definition faultless (w : World) : Prop := Forall (fun wx => fault wx = None) (forecast w).

Lemma next_weather_faultless w wx rest :
  faultless w -> next_weather w = (wx, rest) ->
  fault wx = None /\ Forall (fun wx => fault wx = None) rest.
Proof.
  unfold faultless, next_weather. destruct (forecast w) as [|y ys]; intros Hk [= <- <-].
  - split; [done|constructor].
  - by apply Forall_cons in Hk.
Qed.

(** [w'] is [w] some turns of the weather later. *)
Definition later (w w' : World) : Prop := exists n, forecast w' = drop n (forecast w).

#[export] Instance later_preorder : PreOrder later.
Proof.
  split; [by exists 0|]. intros w1 w2 w3 [n Hn] [m Hm]. exists (n + m). by rewrite Hm, Hn, drop_drop.
Qed.

Lemma kept_later I w w' : later w w' -> kept I w -> kept I w'.
Proof. intros [n Hn] Hk. unfold kept. rewrite Hn. by apply Forall_drop. Qed.

Lemma faultless_later w w' : later w w' -> faultless w -> faultless w'.
Proof. intros [n Hn] Hk. unfold faultless. rewrite Hn. by apply Forall_drop. Qed.

Lemma next_weather_later w wx rest d :
  next_weather w = (wx, rest) -> later w {| store := d; forecast := rest |}.
Proof.
  unfold next_weather, later. simpl. destruct (forecast w) as [|y ys] eqn:E; intros [= <- <-].
  - by exists 0.
  - by exists 1.
Qed.

Lemma stmt_forecast {A} (f : D -> outcome string A * D) w r w' :
  stmt f w = (r, w') -> forecast w' = tail (forecast w).
Proof.
  unfold stmt, next_weather. destruct (forecast w) as [|wx rest]; simpl.
  - destruct (f _) as [[]]; intros [= <- <-]; done.
  - destruct (fault wx); [by intros [= <- <-]|]. destruct (f _) as [[]]; intros [= <- <-]; done.
Qed.

Lemma stmt_calm {A} (f : D -> outcome string A * D) w a d' :
  forecast w = [] -> f (store w) = (Ok a, d') -> stmt f w = (Ok a, {| store := d'; forecast := [] |}).
Proof. unfold stmt, next_weather. intros ->. simpl. by intros ->. Qed.

(** A statement that runs in a state other tasks keep has its effect, or fails because of
    the weather and has none. *)
Lemma stmt_effect {A} I (f : D -> outcome string A * D) (Q : A -> D -> Prop) w :
  kept I w -> I (store w) -> (forall d, I d -> exists a d', f d = (Ok a, d') /\ Q a d') ->
  exists r w', stmt f w = (r, w') /\ later w w' /\
    ((exists a, r = Ok a /\ Q a (store w')) \/
     (~ faultless w /\ I (store w') /\ exists e, r = Err (Sqlx e))).
Proof.
  intros Hk HI Hf. unfold stmt. destruct (next_weather w) as [wx rest] eqn:Enw.
  destruct (next_weather_kept _ _ _ _ Hk Enw) as [Hwx Hrest].
  destruct (fault wx) as [e|] eqn:Ef.
  - eexists _, _. split; [done|]. split; [by eapply next_weather_later|].
    right. split; [|simpl; eauto]. intros Hfl.
    apply (next_weather_faultless w wx rest Hfl) in Enw as [? ?]. congruence.
  - destruct (Hf (others wx (store w))) as (a & d' & -> & HQ); [auto|].
    eexists _, _. split; [done|]. split; [by eapply next_weather_later|]. simpl. eauto.
Qed.

(** The case of a statement that keeps the state it runs in. *)
Lemma stmt_spec {A} I (f : D -> outcome string A * D) (Q : A -> D -> Prop) w :
  kept I w -> I (store w) ->
  (forall d, I d -> exists a d', f d = (Ok a, d') /\ I d' /\ Q a d') ->
  exists r w', stmt f w = (r, w') /\ later w w' /\ I (store w') /\
    ((exists a, r = Ok a /\ Q a (store w')) \/ (~ faultless w /\ exists e, r = Err (Sqlx e))).
Proof.
  intros Hk HI Hf.
  destruct (stmt_effect I f (fun a d => I d /\ Q a d) w Hk HI Hf) as (r & w' & E & Hl & Hr).
  exists r, w'. split; [done|]. split; [done|].
  destruct Hr as [(a & -> & ? & ?)|(? & ? & ?)]; (split; [done|]); eauto.
Qed.

(** The writes of a transaction: [K] holds when they commit, [J], of the rollback point,
    when they do not. *)
Lemma tx_writes_spec (J K : D -> Prop) ws base d waiting w :
  kept J w -> kept K w -> (forall x, J x -> J (waiting x)) -> (forall x, K x -> K (waiting x)) ->
  J base -> (exists d', foldl (fun o f => obind o f) (Ok d) ws = Ok (E := string) d' /\ K d') ->
  exists r w', tx_writes ws base d waiting w = (r, w') /\ later w w' /\
    ((r = Ok tt /\ K (store w')) \/
     (~ faultless w /\ J (store w') /\ exists e, r = Err (Sqlx e))).
Proof.
  revert d waiting w. induction ws as [|f ws IH]; intros d waiting w HkJ HkK HwJ HwK Hb (d' & Hd & HK).
  all: simpl; destruct (next_weather w) as [wx rest] eqn:Enw;
    destruct (next_weather_kept _ _ _ _ HkJ Enw) as [HJwx HJrest];
    destruct (next_weather_kept _ _ _ _ HkK Enw) as [HKwx HKrest];
    pose proof (fun H => next_weather_faultless w wx rest H Enw) as Hfl.
  all: destruct (fault wx) as [e|] eqn:Ef;
    [eexists _, _; split; [done|]; split; [by eapply next_weather_later|];
     right; split; [|by simpl; eauto]; intros Hf; destruct (Hfl Hf); congruence|].
  - simpl in Hd. simplify_eq. eexists _, _. split; [done|]. split; [by eapply next_weather_later|].
    left. simpl. eauto.
  - simpl in Hd. destruct (f d) as [d1|e|] eqn:Efd; simpl in Hd.
    + destruct (IH d1 (fun x => others wx (waiting x)) {| store := store w; forecast := rest |})
        as (r & w' & -> & Hl & Hr); [done|done|auto|auto|done|eauto|].
      pose proof (next_weather_later _ _ _ (store w) Enw) as Hl'.
      eexists _, _. split; [done|]. split; [by etransitivity|].
      destruct Hr as [?|[Hn ?]]; [by left|right]. split; [|done].
      intros Hf. by apply Hn, (faultless_later w).
    + exfalso. clear -Hd. induction ws; simpl in Hd; [done|auto].
    + exfalso. clear -Hd. induction ws; simpl in Hd; [done|auto].
Qed.

(** A transaction that takes [I] to [K] leaves [K] when it commits and [I] when it does
    not. *)
Lemma transaction_spec (I K : D -> Prop) f ws w :
  kept I w -> kept K w -> I (store w) ->
  (forall d, I d -> exists d', foldl (fun o g => obind o g) (f d) ws = Ok d' /\ K d') ->
  exists r w', transaction f ws w = (r, w') /\ later w w' /\
    ((r = Ok tt /\ K (store w')) \/
     (~ faultless w /\ I (store w') /\ exists e, r = Err (Sqlx e))).
Proof.
  intros HkI HkK HI Hf. unfold transaction, bind.
  destruct (stmt_spec I (fun d => (Ok tt, d)) (fun _ _ => True) w) as (r & w1 & E1 & Hl1 & HI1 & Hr);
    [done..|eauto 10|].
  rewrite E1. destruct Hr as [(a & -> & _)|[Hnf (e & ->)]].
  2: { eexists _, _. split; [done|]. split; [done|]. right. eauto. }
  pose proof (kept_later _ _ _ Hl1 HkI) as HkI1. pose proof (kept_later _ _ _ Hl1 HkK) as HkK1.
  destruct (next_weather w1) as [wx rest] eqn:Enw.
  destruct (next_weather_kept I w1 _ _ HkI1 Enw) as [HwI HrI].
  destruct (next_weather_kept K w1 _ _ HkK1 Enw) as [HwK HrK].
  pose proof (fun H => next_weather_faultless w1 wx rest H Enw) as Hfl.
  set (base := others wx (store w1)).
  assert (later w {| store := base; forecast := rest |}) as Hl2
    by (etransitivity; [exact Hl1|by eapply next_weather_later]).
  assert (I base) as HIb by (by apply HwI).
  destruct (fault wx) as [e|] eqn:Ef.
  { eexists _, _. split; [done|]. split; [done|]. right.
    split; [|by eauto]. intros Hw. destruct (Hfl (faultless_later _ _ Hl1 Hw)). congruence. }
  destruct (Hf base HIb) as (d' & Hd & HK).
  destruct (f base) as [d|e|] eqn:Efd.
  - destruct (tx_writes_spec I K ws base d id {| store := base; forecast := rest |})
      as (r & w' & -> & Hl3 & Hr); [done|done|done|done|done|eauto|].
    eexists _, _. split; [done|]. split; [by etransitivity|].
    destruct Hr as [?|[Hn ?]]; [by left|right]. split; [|done].
    intros Hw. by apply Hn, (faultless_later w).
  - exfalso. clear -Hd. induction ws; simpl in Hd; [done|auto].
  - exfalso. clear -Hd. induction ws; simpl in Hd; [done|auto].
Qed.
End Worlds.
Arguments Weather : clear implicits.
Arguments World : clear implicits.

(** ** The two tables *)
Record LogRow := { log_id : Z; log_chat_id : string; log_data : bytes }.

(** [next_log_id] is the next AUTOINCREMENT key: larger than every key ever used. The
    [created_at] columns are written by their defaults and never read. *)
Record Db := { chats : gmap string bytes; chat_log : list LogRow; next_log_id : Z }.

Definition empty_db : Db := {| chats := ∅; chat_log := []; next_log_id := 1 |}.

(** SELECT document FROM chats WHERE chat_id = ? *)
Definition select_document (cid : string) (d : Db) : outcome string (option bytes) * Db :=
  (Ok (chats d !! cid), d).

Definition log_id_leb (a b : LogRow) : bool := (log_id a <=? log_id b)%Z.

(** SELECT id, data FROM chat_log WHERE chat_id = ? ORDER BY id ASC *)
Definition log_rows (cid : string) (d : Db) : list LogRow :=
  sort_by log_id_leb (filter (fun r => log_chat_id r = cid) (chat_log d)).
Definition select_log (cid : string) (d : Db) : outcome string (list LogRow) * Db :=
  (Ok (log_rows cid d), d).

(** INSERT INTO chat_log (chat_id, data) VALUES (?, ?), with the foreign key to [chats]. *)
Definition insert_log (cid : string) (data : bytes) (d : Db) : outcome string unit * Db :=
  match chats d !! cid with
  | None => (Err "FOREIGN KEY constraint failed", d)
  | Some _ =>
      (Ok tt, {| chats := chats d;
                 chat_log := chat_log d ++ [{| log_id := next_log_id d; log_chat_id := cid; log_data := data |}];
                 next_log_id := next_log_id d + 1 |})
  end.

(** INSERT OR IGNORE INTO chats (chat_id, document) VALUES (?, ?): the rows affected. *)
Definition insert_or_ignore_chat (cid : string) (document : bytes) (d : Db) : outcome string Z * Db :=
  match chats d !! cid with
  | Some _ => (Ok 0%Z, d)
  | None => (Ok 1%Z, {| chats := <[cid := document]> (chats d);
                        chat_log := chat_log d; next_log_id := next_log_id d |})
  end.

(** UPDATE chats SET document = ? WHERE chat_id = ? *)
Definition update_document (document : bytes) (cid : string) (d : Db) : outcome string Db :=
  Ok {| chats := alter (fun _ => document) cid (chats d);
        chat_log := chat_log d; next_log_id := next_log_id d |}.

(** DELETE FROM chat_log WHERE chat_id = ? AND id <= ? *)
Definition delete_log (cid : string) (max_id : Z) (d : Db) : outcome string Db :=
  Ok {| chats := chats d;
        chat_log := filter (fun r => ~ (log_chat_id r = cid /\ (log_id r <= max_id)%Z)) (chat_log d);
        next_log_id := next_log_id d |}.

(** SELECT chat_id FROM chats *)
Definition select_chat_ids (d : Db) : outcome string (list string) * Db :=
  (Ok (map_to_list (chats d)).*1, d).

(** *** A well-formed database: log rows in key order, below the next key, each with its
    chat. *)
Record db_wf (d : Db) : Prop := {
  wf_sorted : StronglySorted (fun a b => (log_id a < log_id b)%Z) (chat_log d);
  wf_next : Forall (fun r => (log_id r < next_log_id d)%Z) (chat_log d);
  wf_chat : Forall (fun r => is_Some (chats d !! log_chat_id r)) (chat_log d);
}.

(** What the database holds of one chat. *)
Definition chat_view (cid : string) (d : Db) : option bytes * list LogRow :=
  (chats d !! cid, log_rows cid d).

Lemma log_rows_filter cid d :
  db_wf d -> log_rows cid d = filter (fun r => log_chat_id r = cid) (chat_log d).
Proof.
  intros Hwf. unfold log_rows. apply sort_by_id.
  apply (StronglySorted_weaken (fun a b => (log_id a < log_id b)%Z)).
  - intros a b Hab. unfold log_id_leb. apply Z.leb_le. lia.
  - apply StronglySorted_filter, wf_sorted, Hwf.
Qed.

Lemma insert_log_ok cid data d :
  db_wf d -> is_Some (chats d !! cid) ->
  exists d', insert_log cid data d = (Ok tt, d') /\ db_wf d' /\
    chats d' = chats d /\
    log_rows cid d' = log_rows cid d ++
      [{| log_id := next_log_id d; log_chat_id := cid; log_data := data |}] /\
    (forall cid', cid' <> cid -> chat_view cid' d' = chat_view cid' d).
Proof.
  intros Hwf [doc Hdoc]. unfold insert_log. rewrite Hdoc. eexists. split; [done|].
  set (d' := Build_Db _ _ _).
  assert (db_wf d') as Hwf'.
  { destruct Hwf as [Hs Hn Hc]. split; simpl.
    - apply StronglySorted_app_2; [|done|repeat constructor].
      intros x1 x2 Hx1 Hx2%list_elem_of_singleton. subst. simpl.
      by rewrite Forall_forall in Hn; apply Hn.
    - apply Forall_app. split; [|repeat constructor; simpl; lia].
      eapply Forall_impl; [exact Hn|]. simpl. intros. lia.
    - apply Forall_app. split; [done|]. repeat constructor. simpl. eauto. }
  split_and!; [done..| |].
  - rewrite !log_rows_filter by done. simpl. rewrite filter_app. f_equal.
    by rewrite filter_cons_True.
  - intros cid' Hne. unfold chat_view. rewrite !log_rows_filter by done. simpl.
    rewrite filter_app, (filter_cons_False _ (Build_LogRow _ _ _)) by (simpl; congruence).
    by rewrite filter_nil, app_nil_r.
Qed.

Lemma insert_or_ignore_chat_wf cid document d :
  db_wf d -> db_wf (insert_or_ignore_chat cid document d).2.
Proof.
  intros [Hs Hn Hc]. unfold insert_or_ignore_chat.
  destruct (chats d !! cid) eqn:E; [done|]. split; simpl; [done..|].
  eapply Forall_impl; [exact Hc|]. simpl. intros r Hr. apply lookup_insert_is_Some'. auto.
Qed.

(** A chat that is not there has no log. *)
Lemma log_rows_no_chat cid d : db_wf d -> chats d !! cid = None -> log_rows cid d = [].
Proof.
  intros Hwf Hnone. rewrite log_rows_filter by done.
  destruct (filter _ _) as [|r l] eqn:E; [done|exfalso].
  assert (r ∈ filter (fun r => log_chat_id r = cid) (chat_log d)) as Hin by (rewrite E; left).
  apply list_elem_of_filter in Hin as [Hid Hin]. subst cid.
  pose proof (wf_chat d Hwf) as Hc. rewrite Forall_forall in Hc.
  apply Hc in Hin as [x Hx]. congruence.
Qed.

(** The compaction's two writes: a new document, and no row of the chat up to [max_id];
    the rows with a larger key stay, and so does every other chat. *)
Lemma compaction_writes cid snapshot max_id d :
  db_wf d ->
  exists d', obind (update_document snapshot cid d) (delete_log cid max_id) = Ok d' /\ db_wf d' /\
    chats d' !! cid = (fun _ => snapshot) <$> chats d !! cid /\
    log_rows cid d' = filter (fun r => (max_id < log_id r)%Z) (log_rows cid d) /\
    (forall cid', cid' <> cid -> chat_view cid' d' = chat_view cid' d).
Proof.
  intros Hwf. simpl. eexists. split; [done|]. set (d' := Build_Db _ _ _).
  assert (db_wf d') as Hwf'.
  { destruct Hwf as [Hs Hn Hc]. split; simpl.
    - by apply StronglySorted_filter.
    - by apply Forall_filter.
    - apply Forall_filter. eapply Forall_impl; [exact Hc|]. simpl. intros r Hr.
      destruct (decide (log_chat_id r = cid)) as [Heq|Hne].
      + subst cid. rewrite lookup_alter_eq. by apply fmap_is_Some.
      + by rewrite lookup_alter_ne by congruence. }
  split_and!; [done| | |].
  - simpl. by rewrite lookup_alter_eq.
  - rewrite !log_rows_filter by done. simpl. rewrite !list_filter_filter.
    apply list_filter_iff. intros r. split.
    + intros [Hr Hd]. split; [|done]. apply Znot_ge_lt. intros ?. apply Hd. split; [done|lia].
    + intros [? ->]. split; [done|]. intros [_ ?]. lia.
  - intros cid' Hne. unfold chat_view. rewrite !log_rows_filter by done. simpl.
    rewrite lookup_alter_ne by congruence. f_equal. rewrite list_filter_filter.
    apply list_filter_iff. intros r. split; [by intros [-> ?]|]. intros ->. split; [done|]. by intros [? ?].
Qed.

(** The last selected row has the largest key, so a compaction up to it removes every
    selected row. *)
Lemma log_rows_last cid d r :
  db_wf d -> last (log_rows cid d) = Some r ->
  filter (fun x => (log_id r < log_id x)%Z) (log_rows cid d) = [].
Proof.
  intros Hwf Hlast. rewrite log_rows_filter in * by done.
  pose proof (StronglySorted_filter _ (fun r => log_chat_id r = cid) _ (wf_sorted d Hwf)) as Hs.
  apply last_Some in Hlast as [l' Hl']. rewrite Hl' in *.
  destruct (filter (fun x => (log_id r < log_id x)%Z) (l' ++ [r])) as [|x l] eqn:E; [done|exfalso].
  assert (x ∈ filter (fun x => (log_id r < log_id x)%Z) (l' ++ [r])) as Hin by (rewrite E; left).
  apply list_elem_of_filter in Hin as [Hlt [Hin|Hin%list_elem_of_singleton]%elem_of_app]; [|subst; lia].
  pose proof (StronglySorted_app_1_elem_of _ _ _ x r Hs Hin) as Hlt'.
  specialize (Hlt' ltac:(by left)). simpl in Hlt'. lia.
Qed.
