(* ===== verification/Serial.v ===== *)
(** Self-delimiting serialisation, for the concrete instances of the interfaces: a type
    class with its round trip, and instances for the types they store. *)
From S2P Require Import Prelude Wire.
From stdpp Require Import base gmap countable strings list.
From Stdlib Require Import Ascii Strings.Byte ZArith Lia.

Class Serial (A : Type) := {
  ser : A -> bytes;
  parse : bytes -> option (A * bytes);
  parse_ser (a : A) (rest : bytes) : parse (ser a ++ rest) = Some (a, rest);
}.

(** Through an injection with a left inverse. *)
Definition serial_via {A B} `{Serial B} (f : A -> B) (g : B -> A) (Hgf : forall a, g (f a) = a) : Serial A.
Proof.
  refine {| ser a := ser (f a); parse bs := '(b, rest) ← parse bs; Some (g b, rest) |}.
  intros a rest. rewrite parse_ser. simpl. by rewrite Hgf.
Defined.

Definition zero_b : byte := Byte.x00.
Definition one_b : byte := Byte.x01.

(** Numbers in unary. *)
Fixpoint ser_nat (n : nat) : bytes :=
  match n with O => [zero_b] | S n' => one_b :: ser_nat n' end.
Fixpoint parse_nat (bs : bytes) : option (nat * bytes) :=
  match bs with
  | [] => None
  | b :: bs' =>
      if Byte.eqb b zero_b then Some (0, bs')
      else '(n, rest) ← parse_nat bs'; Some (S n, rest)
  end.

#[export] Instance nat_serial : Serial nat.
Proof.
  refine {| ser := ser_nat; parse := parse_nat |}.
  intros a rest. induction a as [|a IH]; simpl; [done|]. by rewrite IH.
Defined.

#[export] Instance ascii_serial : Serial ascii.
Proof.
  refine {| ser c := [byte_of_ascii c];
            parse bs := match bs with b :: bs' => Some (ascii_of_byte b, bs') | [] => None end |}.
  intros c rest. simpl. by rewrite ascii_of_byte_of_ascii.
Defined.

#[export] Instance prod_serial {A B} `{Serial A, Serial B} : Serial (A * B).
Proof.
  refine {| ser p := ser p.1 ++ ser p.2;
            parse bs := '(a, bs') ← parse bs; '(b, rest) ← parse bs'; Some ((a, b), rest) |}.
  intros [a b] rest. cbn [fst snd]. rewrite <- (assoc_L (++)), parse_ser. simpl. by rewrite parse_ser.
Defined.

#[export] Instance sum_serial {A B} `{Serial A, Serial B} : Serial (A + B).
Proof.
  refine {| ser s := match s with inl a => zero_b :: ser a | inr b => one_b :: ser b end;
            parse bs := match bs with
                        | [] => None
                        | b :: bs' => if Byte.eqb b zero_b
                                      then '(a, rest) ← parse bs'; Some (inl a, rest)
                                      else '(b, rest) ← parse bs'; Some (inr b, rest)
                        end |}.
  intros [a|b] rest; simpl; by rewrite parse_ser.
Defined.

#[export] Instance unit_serial : Serial unit.
Proof. refine {| ser _ := []; parse bs := Some (tt, bs) |}. by intros []. Defined.

(** Lists, after their length. *)
Fixpoint parse_n {A} `{Serial A} (n : nat) (bs : bytes) : option (list A * bytes) :=
  match n with
  | O => Some ([], bs)
  | S n' => '(a, bs') ← parse bs; '(l, rest) ← parse_n n' bs'; Some (a :: l, rest)
  end.

Lemma parse_n_ser {A} `{Serial A} (l : list A) rest :
  parse_n (length l) (concat (ser <$> l) ++ rest) = Some (l, rest).
Proof.
  induction l as [|a l IH]; [done|]. rewrite fmap_cons, concat_cons. cbn [length parse_n].
  rewrite <- (assoc_L (++)), parse_ser. simpl. by rewrite IH.
Qed.

#[export] Instance list_serial {A} `{Serial A} : Serial (list A).
Proof.
  refine {| ser l := ser (length l) ++ concat (ser <$> l);
            parse bs := '(n, bs') ← parse (A := nat) bs; parse_n n bs' |}.
  intros l rest. rewrite <- (assoc_L (++)), parse_ser. apply parse_n_ser.
Defined.

#[export] Instance Z_serial : Serial Z.
Proof.
  refine (serial_via (B := nat + nat) (fun z => if (z <? 0)%Z then inl (Z.to_nat (- z)) else inr (Z.to_nat z))
    (fun s => match s with inl n => (- Z.of_nat n)%Z | inr n => Z.of_nat n end) _).
  intros z. destruct (Z.ltb_spec z 0); lia.
Defined.

#[export] Instance string_serial : Serial string.
Proof.
  refine (serial_via (B := list ascii) String.list_ascii_of_string String.string_of_list_ascii _).
  apply String.string_of_list_ascii_of_string.
Defined.

#[export] Instance gmap_serial {K A} `{Countable K, Serial K, Serial A} : Serial (gmap K A).
Proof. refine (serial_via (B := list (K * A)) (fun m => map_to_list m) list_to_map _). apply list_to_map_to_list. Defined.

#[export] Instance gset_serial {A} `{Countable A, Serial A} : Serial (gset A).
Proof. refine (serial_via (B := list A) elements list_to_set _). apply list_to_set_elements_L. Defined.
