(* ===== verification/Automerge.v ===== *)
(** What the program relies on of the automerge and autosurgeon crates: an interface of
    their operations (the traits [ReadDoc] and [Transactable], the document, transactions,
    the sync protocol's operations, patches, hydrating a message), their documented laws
    stated over a ghost view of a document (its objects and its set of changes), and a
    small concrete implementation ([Module ToyDoc]) that satisfies them. *)
From S2P Require Import Prelude Wire ChatTypes Serial.
From stdpp Require Import base gmap countable strings list.
From Stdlib Require Import ZArith Lia.
Open Scope tryst_scope.

Inductive ObjType := ObjMap | ObjList | ObjText | ObjTable.

(** The scalars the program writes; a peer's document may hold others. *)
Inductive ScalarValue := Str (s : string) | Int (z : Z) | OtherScalar.

Inductive Value := Object (ty : ObjType) | Scalar (v : ScalarValue).

(** [automerge::Prop] *)
Inductive Property := PMap (key : string) | PSeq (index : nat).

#[export] Instance ObjType_eq_dec : EqDecision ObjType.
Proof. solve_decision. Defined.
#[export] Instance ScalarValue_eq_dec : EqDecision ScalarValue.
Proof. solve_decision. Defined.
#[export] Instance Value_eq_dec : EqDecision Value.
Proof. solve_decision. Defined.
#[export] Instance Property_eq_dec : EqDecision Property.
Proof. solve_decision. Defined.

(** ** Objects *)
Class ObjIds := {
  ObjId : Type;
  ObjId_eq_dec :: EqDecision ObjId;
  ObjId_countable :: Countable ObjId;
  ROOT : ObjId;
}.

Section Objects.
Context {OI : ObjIds}.

(** The ghost view of an object: what its keys or indices hold, with the id automerge
    gives each entry. *)
Inductive Obj :=
| MapObj (m : gmap string (Value * ObjId))
| ListObj (l : list (Value * ObjId)).

Abbreviation store := (gmap ObjId Obj).

Definition empty_obj (ty : ObjType) : Obj :=
  match ty with ObjMap | ObjTable => MapObj ∅ | ObjList | ObjText => ListObj [] end.

Definition map_at (o : store) (id : ObjId) : option (gmap string (Value * ObjId)) :=
  match o !! id with Some (MapObj m) => Some m | _ => None end.
Definition list_at (o : store) (id : ObjId) : option (list (Value * ObjId)) :=
  match o !! id with Some (ListObj l) => Some l | _ => None end.

Definition str_field (m : gmap string (Value * ObjId)) (k : string) : option string :=
  match m !! k with Some (Scalar (Str s), _) => Some s | _ => None end.
Definition int_field (m : gmap string (Value * ObjId)) (k : string) : option Z :=
  match m !! k with Some (Scalar (Int z), _) => Some z | _ => None end.
Definition map_field (o : store) (m : gmap string (Value * ObjId)) (k : string) :
    option (gmap string (Value * ObjId)) :=
  match m !! k with Some (Object ObjMap, id) => map_at o id | _ => None end.

(** The object under a key of the root. *)
Definition key_object (o : store) (k : string) : option ObjId :=
  m ← map_at o ROOT; snd <$> m !! k.

(** The layout [#[derive(Hydrate)]] gives [ChatMessage]: a map with a key per field, an
    enum's variant a map with the variant's name as its key. *)
Definition read_msg (o : store) (e : Value * ObjId) : option ChatMessage :=
  match e with
  | (Object ObjMap, mid) =>
      m ← map_at o mid;
      id ← str_field m "id";
      sender ← str_field m "sender_node_id";
      c ← map_field o m "content";
      text ← str_field c "Text";
      created ← int_field m "created_at";
      updated ← int_field m "updated_at";
      Some {| msg_id := id; sender_node_id := sender; content := Text text;
              created_at := created; updated_at := updated |}
  | _ => None
  end.
End Objects.

(** ** The traits *)
Class ReadDoc {OI : ObjIds} (T : Type) := {
  get : T -> ObjId -> string -> outcome string (option (Value * ObjId));
  doc_keys : T -> ObjId -> list string;
  doc_length : T -> ObjId -> nat;
}.

Class Transactable {OI : ObjIds} (T : Type) := {
  tx_read :: ReadDoc T;
  put_object : ObjId -> string -> ObjType -> action T string ObjId;
  insert_object : ObjId -> nat -> ObjType -> action T string ObjId;
  put : ObjId -> string -> ScalarValue -> action T string unit;
}.

Class ReadDocLaws {OI : ObjIds} (T : Type) {R : ReadDoc T} (view : T -> gmap ObjId Obj) : Prop := {
  get_map (t : T) o m k : map_at (view t) o = Some m -> get t o k = Ok (m !! k);
  keys_map (t : T) o m :
    map_at (view t) o = Some m -> doc_keys t o ≡ₚ elements (dom m);
  length_list (t : T) o l : list_at (view t) o = Some l -> doc_length t o = length l;
}.

Class TransactableLaws {OI : ObjIds} (T : Type) {Tr : Transactable T}
    (view : T -> gmap ObjId Obj) : Prop := {
  tx_read_laws :: ReadDocLaws T view;
  put_object_map (t : T) o m k ty :
    map_at (view t) o = Some m ->
    exists id t', put_object o k ty t = (Ok id, t') /\ view t !! id = None /\
      view t' = <[id := empty_obj ty]> (<[o := MapObj (<[k := (Object ty, id)]> m)]> (view t));
  insert_object_list (t : T) o l i ty :
    list_at (view t) o = Some l -> i <= length l ->
    exists id t', insert_object o i ty t = (Ok id, t') /\ view t !! id = None /\
      view t' = <[id := empty_obj ty]>
                  (<[o := ListObj (take i l ++ (Object ty, id) :: drop i l)]> (view t));
  put_map (t : T) o m k v :
    map_at (view t) o = Some m ->
    exists id t', put o k v t = (Ok tt, t') /\
      view t' = <[o := MapObj (<[k := (Scalar v, id)]> m)]> (view t);
}.

(** ** The document *)
Record Failure (E : Type) := { error : E; cancelled : nat }.
Arguments error {E} _.
Arguments cancelled {E} _.
Arguments Build_Failure {E} _ _.

(** A patch, as far as the program reads it. *)
Record Patch {OI : ObjIds} := { path : list (ObjId * Property) }.

Class Automerges {OI : ObjIds} := {
  ChangeHash : Type;
  ChangeHash_eq_dec :: EqDecision ChangeHash;
  ChangeHash_countable :: Countable ChangeHash;
  Doc : Type;
  Tx : Type;
  SyncState : Type;
  SyncMsg : Type;
  PatchLog : Type;
  doc_read :: ReadDoc Doc;
  tx_write :: Transactable Tx;
  new_doc : Doc;
  load : bytes -> outcome string Doc;
  save : Doc -> bytes;
  save_after : Doc -> list ChangeHash -> bytes;
  load_incremental : bytes -> action Doc string unit;
  get_heads : Doc -> list ChangeHash;
  transact : forall {E A : Type}, action Tx E A -> action Doc (Failure E) A;
  new_sync_state : SyncState;
  sync_generate : Doc -> SyncState -> option SyncMsg * SyncState;
  sync_receive : SyncMsg -> action (Doc * SyncState * PatchLog) string unit;
  patch_log_new : bool -> PatchLog;
  make_patches_of : Doc -> PatchLog -> list Patch * PatchLog;
  hydrate_message : Doc -> ObjId -> nat -> outcome string ChatMessage;
  reconcile_init : ChatInit -> action Tx string unit;
}.

(** The ghost view: the objects a document or an open transaction shows, the changes a
    document consists of, and the transaction a document opens. *)
Class DocViews {OI : ObjIds} (AM : Automerges) := {
  objs : Doc -> gmap ObjId Obj;
  tx_objs : Tx -> gmap ObjId Obj;
  changes : Doc -> gset ChangeHash;
  begin_tx : Doc -> Tx;
}.

(** [replays acc bs acc']: [bs] is a concatenation of incremental saves, each taken since
    the heads of a document whose changes were there by then; reading it takes the
    changes [acc] to [acc']. *)
Inductive replays {OI : ObjIds} {AM : Automerges} {V : DocViews AM} :
    gset ChangeHash -> bytes -> gset ChangeHash -> Prop :=
| replays_nil acc : replays acc [] acc
| replays_cons acc d0 d1 bs acc' :
    changes d0 ⊆ changes d1 -> changes d0 ⊆ acc ->
    replays (acc ∪ changes d1) bs acc' ->
    replays acc (save_after d1 (get_heads d0) ++ bs) acc'.

Class AutomergeLaws {OI : ObjIds} (AM : Automerges) (V : DocViews AM) : Prop := {
  doc_read_laws :: ReadDocLaws Doc objs;
  tx_laws :: TransactableLaws Tx tx_objs;
  (* a document is its set of changes *)
  changes_objs d d' : changes d = changes d' -> objs d = objs d';
  changes_heads d d' : changes d = changes d' -> get_heads d = get_heads d';
  new_doc_objs : objs new_doc = {[ROOT := MapObj ∅]};
  (* storage *)
  load_save d : exists d', load (save d) = Ok d' /\ changes d' = changes d;
  save_after_empty d0 d :
    changes d0 ⊆ changes d ->
    save_after d (get_heads d0) = [] <-> changes d = changes d0;
  load_replays d bs acc :
    replays (changes d) bs acc ->
    exists d', load_incremental bs d = (Ok tt, d') /\ changes d' = acc;
  (* transactions: commit on success, roll back on error and on unwinding *)
  begin_objs d : tx_objs (begin_tx d) = objs d;
  transact_ok {E A} (f : action Tx E A) d a t :
    f (begin_tx d) = (Ok a, t) ->
    exists d', transact f d = (Ok a, d') /\ objs d' = tx_objs t /\ changes d ⊆ changes d';
  transact_err {E A} (f : action Tx E A) d e t :
    f (begin_tx d) = (Err e, t) ->
    exists n d', transact f d = (Err (Build_Failure e n), d') /\ changes d' = changes d;
  transact_panic {E A} (f : action Tx E A) d t :
    f (begin_tx d) = (Panic, t) ->
    exists d', transact f d = (Panic, d') /\ changes d' = changes d;
  (* receiving only adds changes *)
  sync_receive_grows m d st pl r d' st' pl' :
    sync_receive m (d, st, pl) = (r, (d', st', pl')) -> changes d ⊆ changes d';
  (* the derived code *)
  hydrate_element d l xs i e m :
    list_at (objs d) l = Some xs -> xs !! i = Some e -> read_msg (objs d) e = Some m ->
    hydrate_message d l i = Ok m;
  reconcile_empty t s :
    map_at (tx_objs t) ROOT = Some ∅ ->
    exists id t', reconcile_init {| init_chat_id := s |} t = (Ok tt, t') /\
      tx_objs t' = <[ROOT := MapObj {["chat_id" := (Scalar (Str s), id)]}]> (tx_objs t);
}.

(** What a received message's patches say of the elements of the lists under the root's
    keys: a patch inside such an element names it as it is in the new document, and every
    readable element without one was in its list before and reads as it did. *)
Class PatchLaws {OI : ObjIds} (AM : Automerges) (V : DocViews AM) : Prop := {
  patches_located m d st d' st' pl p o k l i rest :
    sync_receive m (d, st, patch_log_new true) = (Ok tt, (d', st', pl)) ->
    p ∈ (make_patches_of d' pl).1 -> path p = (o, PMap k) :: (l, PSeq i) :: rest ->
    key_object (objs d') k = Some l /\ exists xs, list_at (objs d') l = Some xs /\ i < length xs;
  patches_complete m d st d' st' pl k l xs i e msg :
    sync_receive m (d, st, patch_log_new true) = (Ok tt, (d', st', pl)) ->
    key_object (objs d') k = Some l -> list_at (objs d') l = Some xs -> xs !! i = Some e ->
    read_msg (objs d') e = Some msg ->
    (exists p o rest, p ∈ (make_patches_of d' pl).1 /\ path p = (o, PMap k) :: (l, PSeq i) :: rest) \/
    (key_object (objs d) k = Some l /\
     exists xs0, list_at (objs d) l = Some xs0 /\ e ∈ xs0 /\ read_msg (objs d) e = Some msg);
}.

(** ** A concrete implementation: a change is a numbered snapshot of all objects, and the
    document shows its latest one. *)
Module ToyDoc.
#[export] Instance toy_ids : ObjIds := {| ObjId := nat; ROOT := 0 |}.

#[export] Instance ObjType_countable : Countable ObjType.
Proof.
  refine (inj_countable' (fun t => match t with ObjMap => 0 | ObjList => 1 | ObjText => 2 | ObjTable => 3 end)
    (fun n => match n with 0 => ObjMap | 1 => ObjList | 2 => ObjText | _ => ObjTable end) _).
  by intros [].
Defined.
#[export] Instance ObjType_serial : Serial ObjType.
Proof.
  refine (serial_via (fun t => match t with ObjMap => 0 | ObjList => 1 | ObjText => 2 | ObjTable => 3 end)
    (fun n => match n with 0 => ObjMap | 1 => ObjList | 2 => ObjText | _ => ObjTable end) _).
  by intros [].
Defined.

#[export] Instance ScalarValue_countable : Countable ScalarValue.
Proof.
  refine (inj_countable' (fun v => match v with Str s => inl (inl s) | Int z => inl (inr z) | OtherScalar => inr tt end)
    (fun s => match s with inl (inl s) => Str s | inl (inr z) => Int z | inr _ => OtherScalar end) _).
  by intros [].
Defined.
#[export] Instance ScalarValue_serial : Serial ScalarValue.
Proof.
  refine (serial_via (fun v => match v with Str s => inl (inl s) | Int z => inl (inr z) | OtherScalar => inr tt end)
    (fun s => match s with inl (inl s) => Str s | inl (inr z) => Int z | inr _ => OtherScalar end) _).
  by intros [].
Defined.

#[export] Instance Value_countable : Countable Value.
Proof.
  refine (inj_countable' (fun v => match v with Object t => inl t | Scalar v => inr v end)
    (fun s => match s with inl t => Object t | inr v => Scalar v end) _).
  by intros [].
Defined.
#[export] Instance Value_serial : Serial Value.
Proof.
  refine (serial_via (fun v => match v with Object t => inl t | Scalar v => inr v end)
    (fun s => match s with inl t => Object t | inr v => Scalar v end) _).
  by intros [].
Defined.

(** The keys of the schema take a byte or a few. *)
Definition words : list string := ["id"; "Text"; "content"; "created_at"; "updated_at"; "sender_node_id"; "chat_id"].
#[export] Instance word_serial : Serial string.
Proof.
  refine (serial_via (B := nat + list Ascii.ascii)
    (fun s => match list_find (fun w => w = s) words with Some (i, _) => inl i | None => inr (String.list_ascii_of_string s) end)
    (fun x => match x with inl i => default ""%string (words !! i) | inr l => String.string_of_list_ascii l end) _).
  intros s. destruct (list_find _ words) as [[i w]|] eqn:E; [|apply String.string_of_list_ascii_of_string].
  apply list_find_Some in E as (Hi & <- & _). by rewrite Hi.
Defined.

#[export] Instance Obj_eq_dec : EqDecision Obj.
Proof. solve_decision. Defined.

#[export] Instance Obj_countable : Countable Obj.
Proof.
  refine (inj_countable' (fun o => match o with MapObj m => inl m | ListObj l => inr l end)
    (fun s => match s with inl m => MapObj m | inr l => ListObj l end) _).
  by intros [].
Defined.
#[export] Instance Obj_serial : Serial Obj.
Proof.
  refine (serial_via (fun o => match o with MapObj m => inl m | ListObj l => inr l end)
    (fun s => match s with inl m => MapObj m | inr l => ListObj l end) _).
  by intros [].
Defined.

Abbreviation objects := (gmap nat Obj).

(** Counted by the bits of their bytes, which are fewer than the nested encoding of maps has. *)
Definition byte_bits (b : Byte.byte) : list bool :=
  let '(b0, (b1, (b2, (b3, (b4, (b5, (b6, b7))))))) := Byte.to_bits b in [b0; b1; b2; b3; b4; b5; b6; b7].
Fixpoint bytes_of_bits (l : list bool) : bytes :=
  match l with
  | b0 :: b1 :: b2 :: b3 :: b4 :: b5 :: b6 :: b7 :: l' =>
      Byte.of_bits (b0, (b1, (b2, (b3, (b4, (b5, (b6, b7))))))) :: bytes_of_bits l'
  | _ => []
  end.
Fixpoint pos_of_bits (l : list bool) : positive :=
  match l with [] => 1 | true :: l => (pos_of_bits l)~1 | false :: l => (pos_of_bits l)~0 end.
Fixpoint bits_of_pos (p : positive) : list bool :=
  match p with 1 => [] | p~1 => true :: bits_of_pos p | p~0 => false :: bits_of_pos p end%positive.

Lemma bits_of_pos_of_bits l : bits_of_pos (pos_of_bits l) = l.
Proof. induction l as [|[] l IH]; simpl; by rewrite ?IH. Qed.

Lemma bytes_of_byte_bits bs : bytes_of_bits (concat (byte_bits <$> bs)) = bs.
Proof.
  induction bs as [|b bs IH]; [done|]. rewrite fmap_cons, concat_cons. pose proof (Byte.of_bits_to_bits b) as Hb.
  unfold byte_bits at 1. destruct (Byte.to_bits b) as (b0 & b1 & b2 & b3 & b4 & b5 & b6 & b7).
  cbn [app bytes_of_bits]. by rewrite IH, Hb.
Qed.

Definition serial_countable {A} `{EqDecision A, Serial A} : Countable A.
Proof.
  refine {| encode a := pos_of_bits (concat (byte_bits <$> ser a));
            decode p := fst <$> parse (bytes_of_bits (bits_of_pos p)) |}.
  intros a. rewrite bits_of_pos_of_bits, bytes_of_byte_bits, <- (app_nil_r (ser a)). by rewrite parse_ser.
Defined.
#[export] Instance objects_countable : Countable objects := serial_countable.

Abbreviation change := (nat * objects)%type.
#[export] Instance change_countable : Countable change := serial_countable.
Abbreviation document := (gset change).

(** *** Reading *)
Definition get_entry (o : objects) (id : nat) (k : string) : outcome string (option (Value * nat)) :=
  match o !! id with
  | Some (MapObj m) => Ok (m !! k)
  | _ => Err "invalid object"
  end.

Definition keys_of (o : objects) (id : nat) : list string :=
  match o !! id with Some (MapObj m) => elements (dom m) | _ => [] end.

Definition length_of (o : objects) (id : nat) : nat :=
  match o !! id with Some (ListObj l) => length l | Some (MapObj m) => size m | None => 0 end.

(** *** Writing *)
Definition fresh_id (o : objects) : nat := S (set_fold Nat.max 0 (dom o)).

Definition put_entry (id : nat) (k : string) (v : Value) (new : nat) (o : objects) : outcome string objects :=
  match o !! id with
  | Some (MapObj m) => Ok (<[id := MapObj (<[k := (v, new)]> m)]> o)
  | _ => Err "invalid object"
  end.

Definition insert_entry (id : nat) (i : nat) (v : Value) (new : nat) (o : objects) : outcome string objects :=
  match o !! id with
  | Some (ListObj l) =>
      if bool_decide (i <= length l) then Ok (<[id := ListObj (take i l ++ (v, new) :: drop i l)]> o)
      else Err "index out of bounds"
  | _ => Err "invalid object"
  end.

Definition update {A} (r : outcome string objects) (a : A) (t : objects) : outcome string A * objects :=
  match r with
  | Ok o => (Ok a, o)
  | Err e => (Err e, t)
  | Panic => (Panic, t)
  end.

(** *** The document *)
Definition newer (c : change) (acc : option change) : option change :=
  match acc with
  | Some c' => if c.1 <=? c'.1 then acc else Some c
  | None => Some c
  end.
Definition latest (d : document) : option change := foldr newer None (elements d).

Definition view (d : document) : objects :=
  match latest d with Some c => c.2 | None => {[0 := MapObj ∅]} end.

Definition next_seq (d : document) : nat := match latest d with Some c => S c.1 | None => 0 end.

Definition commit (d : document) (t : objects) : document :=
  if decide (t = view d) then d else d ∪ {[ (next_seq d, t) ]}.

Definition run {E A} (f : action objects E A) : action document (Failure E) A := fun d =>
  match f (view d) with
  | (Ok a, t) => (Ok a, commit d t)
  | (Err e, t) => (Err {| error := e; cancelled := 0 |}, d)
  | (Panic, t) => (Panic, d)
  end.

(** *** Bytes: the set's serialisation *)
Definition chunk (d : document) : bytes := ser d.
Arguments chunk : simpl never.

Fixpoint load_chunks (fuel : nat) (bs : bytes) (d : document) : outcome string unit * document :=
  match bs, fuel with
  | [], _ => (Ok tt, d)
  | _, 0 => (Err "invalid chunk", d)
  | _, S fuel' =>
      match parse (A := document) bs with
      | Some (d', rest) => load_chunks fuel' rest (d ∪ d')
      | None => (Err "invalid chunk", d)
      end
  end.

(** *** Synchronisation: the whole document, unless it was sent already and the peer has
    it or has yet to answer. Receiving logs two patches per element of a list of the root
    that is new there or reads differently. *)
Record toy_sync := { toy_their : option document; toy_sent : document; toy_in_flight : bool }.

#[export] Instance toy_sync_eq_dec : EqDecision toy_sync.
Proof. solve_decision. Defined.

Definition generate (d : document) (st : toy_sync) : option document * toy_sync :=
  if bool_decide (toy_sent st = d) && (bool_decide (toy_their st = Some d) || toy_in_flight st) then (None, st)
  else (Some d, {| toy_their := toy_their st; toy_sent := d; toy_in_flight := true |}).

(** The element [x] of the list under the root's key [k] was there before and reads the same. *)
Definition unchanged (before after : objects) (k : string) (l : nat) (x : Value * nat) : bool :=
  bool_decide (key_object (OI := toy_ids) before k = Some l) &&
  bool_decide (x ∈ default [] (list_at (OI := toy_ids) before l)) &&
  bool_decide (read_msg (OI := toy_ids) before x = read_msg (OI := toy_ids) after x).

Definition list_patches (before after : objects) (k : string) (l : nat) : list (Patch (OI := toy_ids)) :=
  concat (imap (fun i x =>
      if unchanged before after k l x then []
      else let p := Build_Patch toy_ids [(0, PMap k); (l, PSeq i)] in [p; p])
    (default [] (list_at (OI := toy_ids) after l))).

Definition new_elements (before after : objects) : list (Patch (OI := toy_ids)) :=
  concat ((fun ke => list_patches before after ke.1 ke.2.2) <$>
    default [] (map_to_list <$> map_at (OI := toy_ids) after 0)).

Definition receive (m : document) :
    action (document * toy_sync * list (Patch (OI := toy_ids))) string unit :=
  fun '(d, st, pl) =>
    (Ok tt, (d ∪ m, {| toy_their := Some m; toy_sent := if bool_decide (m = d) then d else toy_sent st;
                       toy_in_flight := false |}, pl ++ new_elements (view d) (view (d ∪ m)))).

#[export] Instance toy_doc_read : ReadDoc document := {|
  get d := get_entry (view d);
  doc_keys d := keys_of (view d);
  doc_length d := length_of (view d);
|}.

#[export] Instance toy_tx : Transactable objects := {|
  tx_read := {| get t := get_entry t; doc_keys t := keys_of t;
                doc_length t := length_of t |};
  put_object id k ty t :=
    let new := fresh_id t in
    update (map_ok <[new := empty_obj ty]> (put_entry id k (Object ty) new t)) new t;
  insert_object id i ty t :=
    let new := fresh_id t in
    update (map_ok <[new := empty_obj ty]> (insert_entry id i (Object ty) new t)) new t;
  put id k v t := update (put_entry id k (Scalar v) (fresh_id t) t) tt t;
|}.

#[export] Instance toy : Automerges := {|
  ChangeHash := change;
  Doc := document;
  Tx := objects;
  SyncState := toy_sync;
  SyncMsg := document;
  PatchLog := list (Patch (OI := toy_ids));
  new_doc := ∅;
  load bs := match load_chunks (length bs) bs ∅ with
             | (Ok _, d) => Ok d | (Err e, _) => Err e | (Panic, _) => Panic end;
  save := chunk;
  save_after d heads :=
    let missing := d ∖ list_to_set heads in
    if decide (missing = ∅) then [] else chunk missing;
  load_incremental bs := load_chunks (length bs) bs;
  get_heads d := elements d;
  transact E A := run;
  new_sync_state := {| toy_their := None; toy_sent := ∅; toy_in_flight := false |};
  sync_generate := generate;
  sync_receive := receive;
  patch_log_new _ := [];
  make_patches_of d pl := (pl, []);
  hydrate_message d l i :=
    match xs ← list_at (view d) l; e ← xs !! i; read_msg (view d) e with
    | Some m => Ok m
    | None => Err "unexpected value"
    end;
  reconcile_init init t :=
    update (put_entry 0 "chat_id" (Scalar (Str (init_chat_id init))) (fresh_id t) t) tt t;
|}.

#[export] Instance toy_views : DocViews toy := {|
  objs := view; tx_objs := id; changes := id; begin_tx := view;
|}.

(** *** The laws hold *)
Lemma map_at_inv (o : objects) (id : nat) m : map_at o id = Some m -> o !! id = Some (MapObj m).
Proof. unfold map_at. simpl. destruct (_ !! _) as [[]|]; congruence. Qed.

Lemma list_at_inv (o : objects) (id : nat) l : list_at o id = Some l -> o !! id = Some (ListObj l).
Proof. unfold list_at. simpl. destruct (_ !! _) as [[]|]; congruence. Qed.

Lemma read_laws T (R : ReadDoc T) (v : T -> objects) :
  (forall t, get t = get_entry (v t)) -> (forall t, doc_keys t = keys_of (v t)) ->
  (forall t, doc_length t = length_of (v t)) -> ReadDocLaws T v.
Proof.
  intros Hg Hk Hl. split.
  - intros t o m k Hm%map_at_inv. rewrite Hg. unfold get_entry. by rewrite Hm.
  - intros t o m Hm%map_at_inv. rewrite Hk. unfold keys_of. by rewrite Hm.
  - intros t o l Hm%list_at_inv. rewrite Hl. unfold length_of. by rewrite Hm.
Qed.

Lemma set_fold_max_le (X : gset nat) x : x ∈ X -> x <= set_fold Nat.max 0 X.
Proof.
  revert x. apply (set_fold_ind_L (fun r X => forall x, x ∈ X -> x <= r)).
  - set_solver.
  - intros y X' r Hy IH x. rewrite elem_of_union, elem_of_singleton.
    intros [->|Hx]; [lia|]. apply IH in Hx. lia.
Qed.

Lemma fresh_id_fresh (o : objects) : o !! fresh_id o = None.
Proof.
  apply not_elem_of_dom. intros Hin%set_fold_max_le. unfold fresh_id in Hin. lia.
Qed.

Lemma toy_tx_laws : TransactableLaws objects id.
Proof.
  split.
  - by apply read_laws.
  - intros t o m k ty Hm%map_at_inv. unfold id in *. simpl. unfold put_entry. rewrite Hm. simpl.
    eexists _, _. split; [done|]. split; [apply fresh_id_fresh|done].
  - intros t o l i ty Hl%list_at_inv Hi. unfold id in *. simpl. unfold insert_entry.
    rewrite Hl, bool_decide_eq_true_2 by done. simpl.
    eexists _, _. split; [done|]. split; [apply fresh_id_fresh|done].
  - intros t o m k v Hm%map_at_inv. unfold id in *. simpl. unfold put_entry. rewrite Hm. simpl. eauto.
Qed.

Lemma foldr_newer (l : list change) :
  match foldr newer None l with
  | Some c => c ∈ l /\ Forall (fun c' => c'.1 <= c.1) l
  | None => l = []
  end.
Proof.
  induction l as [|c l IH]; [done|]. cbn [foldr].
  destruct (foldr newer None l) as [c'|]; simpl.
  - destruct IH as [Hin Hall]. destruct (Nat.leb_spec c.1 c'.1) as [Hle|Hlt].
    + split; [by right|]. by constructor.
    + split; [by left|]. constructor; [done|].
      eapply Forall_impl; [exact Hall|]. simpl. intros; lia.
  - subst l. split; [by left|]. by repeat constructor.
Qed.

Lemma latest_spec (d : document) c : latest d = Some c -> c ∈ d /\ forall c', c' ∈ d -> c'.1 <= c.1.
Proof.
  intros Hd. pose proof (foldr_newer (elements d)) as Hf. fold (latest d) in Hf.
  rewrite Hd in Hf. destruct Hf as [Hin Hall]. split; [by apply elem_of_elements|].
  intros c' Hc'. rewrite Forall_forall in Hall. by apply Hall, elem_of_elements.
Qed.

Lemma latest_none (d : document) : latest d = None -> d = ∅.
Proof.
  intros Hd. pose proof (foldr_newer (elements d)) as Hf. fold (latest d) in Hf.
  rewrite Hd in Hf. by apply elements_empty_inv, leibniz_equiv in Hf.
Qed.

Lemma next_seq_fresh d o : (next_seq d, o) ∉ d.
Proof.
  unfold next_seq. destruct (latest d) as [c|] eqn:E.
  - apply latest_spec in E as [_ Hmax]. intros Hin%Hmax. simpl in Hin. lia.
  - apply latest_none in E. rewrite E. apply not_elem_of_empty.
Qed.

Lemma next_seq_grows (d d0 : document) o : d0 ⊆ d -> d ∪ {[ (next_seq d, o) ]} <> d0.
Proof.
  intros Hsub Heq. apply (next_seq_fresh d o), Hsub. rewrite <- Heq.
  by apply elem_of_union_r, elem_of_singleton_2.
Qed.

Lemma view_commit d t : view (commit d t) = t.
Proof.
  unfold commit. destruct (decide _) as [->|Hne]; [done|].
  unfold view at 1. destruct (latest (d ∪ _)) as [c|] eqn:E.
  2: { apply latest_none in E. set_solver. }
  apply latest_spec in E as [Hin Hmax].
  pose proof (Hmax (next_seq d, t)) as Hle. simpl in Hle.
  apply elem_of_union in Hin as [Hin|Hin%elem_of_singleton]; [|by subst].
  exfalso. unfold next_seq in Hle. destruct (latest d) as [c'|] eqn:E'.
  - apply latest_spec in E' as [_ Hmax']. apply Hmax' in Hin.
    assert (S c'.1 <= c.1) by (apply Hle; set_solver). lia.
  - apply latest_none in E'. rewrite E' in Hin. set_solver.
Qed.

Lemma commit_grows d t : d ⊆ commit d t.
Proof. unfold commit. destruct (decide _); set_solver. Qed.

Lemma chunk_not_nil d : chunk d <> [].
Proof. unfold chunk, ser. simpl. unfold ser. simpl. by destruct (length _). Qed.

Lemma load_chunk fuel d' bs d :
  load_chunks (S fuel) (chunk d' ++ bs) d = load_chunks fuel bs (d ∪ d').
Proof.
  cbn [load_chunks]. unfold chunk at 2. rewrite parse_ser.
  pose proof (chunk_not_nil d'). by destruct (chunk d').
Qed.

Lemma union_missing {A} `{EqDecision A} {CA : Countable A} (acc d0 d1 : gset A) :
  d0 ⊆ acc -> acc ∪ d1 ∖ d0 = acc ∪ d1.
Proof.
  intros H0. apply set_eq. intros c. rewrite !elem_of_union, elem_of_difference.
  destruct (decide (c ∈ d0)) as [Hc|]; [|tauto]. apply H0 in Hc. tauto.
Qed.

Lemma union_missing_nil {A} `{EqDecision A} {CA : Countable A} (acc d0 d1 : gset A) :
  d1 ∖ d0 = ∅ -> d0 ⊆ acc -> acc ∪ d1 = acc.
Proof. intros He H0. rewrite <- (union_missing acc d0 d1 H0), He. by rewrite (right_id_L ∅ (∪)). Qed.

Lemma missing_nil {A} `{EqDecision A} {CA : Countable A} (d0 d1 : gset A) :
  d0 ⊆ d1 -> d1 ∖ d0 = ∅ <-> d1 = d0.
Proof.
  intros Hsub. split; intros He; [|subst; apply difference_diag_L].
  apply set_eq. intros c. split; [|apply Hsub]. intros Hc.
  destruct (decide (c ∈ d0)) as [|Hn]; [done|].
  assert (c ∈ d1 ∖ d0) as Hin by (by apply elem_of_difference).
  rewrite He in Hin. by apply elem_of_empty in Hin.
Qed.

Lemma toy_replays acc bs acc' :
  replays (V := toy_views) acc bs acc' ->
  forall fuel, length bs <= fuel -> load_chunks fuel bs acc = (Ok tt, acc').
Proof.
  induction 1 as [acc|acc d0 d1 bs acc' H01 H0 Hr IH]; intros fuel Hfuel; [by destruct fuel|].
  cbn in acc, d0, d1, H01, H0, IH |- *. cbn in Hfuel. unfold id in *.
  rewrite list_to_set_elements_L in *. destruct (decide (d1 ∖ d0 = ∅)) as [He|He].
  - rewrite (union_missing_nil acc d0 d1 He H0) in IH. by apply IH.
  - rewrite length_app in Hfuel. pose proof (chunk_not_nil (d1 ∖ d0)) as Hn.
    destruct (chunk (d1 ∖ d0)) as [|b c] eqn:Ec; [done|]. cbn in Hfuel.
    destruct fuel as [|fuel]; [lia|]. rewrite <- Ec, load_chunk, (union_missing acc d0 d1 H0).
    apply IH. lia.
Qed.

Lemma toy_load_save d : load (save d) = Ok (A := Doc) d.
Proof.
  simpl. destruct (chunk d) as [|b c] eqn:E; [by apply chunk_not_nil in E|].
  rewrite <- E. replace (length (chunk d)) with (S (length c)) by (by rewrite E).
  rewrite <- (app_nil_r (chunk d)), load_chunk. destruct c; simpl; by rewrite (left_id_L ∅ (∪)).
Qed.

#[export] Instance toy_laws : AutomergeLaws toy toy_views.
Proof.
  split.
  - by apply read_laws.
  - apply toy_tx_laws.
  - intros d d' Heq. cbn in *. unfold id in *. by subst.
  - intros d d' Heq. cbn in *. unfold id in *. by subst.
  - done.
  - intros d. exists d. split; [apply toy_load_save|done].
  - simpl. intros d0 d Hsub. rewrite list_to_set_elements_L. destruct (decide _) as [He|He].
    + split; [|done]. intros _. by apply missing_nil.
    + split; [by intros Hc%chunk_not_nil|]. intros Heq. exfalso. by apply He, missing_nil.
  - simpl. intros d bs acc Hr. eexists. split; [by eapply toy_replays|done].
  - done.
  - simpl. intros E A f d a t Hf. unfold run. rewrite Hf. eexists. split; [done|].
    split; [apply view_commit|apply commit_grows].
  - simpl. intros E A f d e t Hf. unfold run. rewrite Hf. eauto.
  - simpl. intros E A f d t Hf. unfold run. rewrite Hf. eauto.
  - simpl. intros m d st pl r d' st' pl' [= <- <- <- <-]. apply union_subseteq_l.
  - simpl. intros d l xs i e m Hl Hi Hm. rewrite Hl. simpl. rewrite Hi. simpl. by rewrite Hm.
  - simpl. intros t s Hm%map_at_inv. unfold put_entry. rewrite Hm. simpl. eauto.
Qed.

(** *** Patches *)
Lemma elem_of_list_patches before after k l (p : Patch (OI := toy_ids)) :
  p ∈ list_patches before after k l <->
  exists i x, default [] (list_at (OI := toy_ids) after l) !! i = Some x /\ unchanged before after k l x = false /\
    p = Build_Patch toy_ids [(0, PMap k); (l, PSeq i)].
Proof.
  unfold list_patches. rewrite list_elem_of_In, in_concat. split.
  - intros (ps & Hps & Hp). apply list_elem_of_In, elem_of_lookup_imap in Hps as (i & x & -> & Hx).
    exists i, x. split; [done|]. destruct (unchanged _ _ _ _ _); [done|]. split; [done|].
    by destruct Hp as [<-|[<-|[]]].
  - intros (i & x & Hx & Hu & ->). eexists. split; [apply list_elem_of_In, elem_of_lookup_imap; by exists i, x|].
    rewrite Hu. by left.
Qed.

Lemma elem_of_new_elements before after (p : Patch (OI := toy_ids)) :
  p ∈ new_elements before after <->
  exists k l, key_object (OI := toy_ids) after k = Some l /\ p ∈ list_patches before after k l.
Proof.
  unfold new_elements, key_object. rewrite list_elem_of_In, in_concat.
  change (@ROOT toy_ids) with 0. destruct (map_at (OI := toy_ids) after 0) as [m|]; simpl.
  - split.
    + intros (ps & Hps & Hp). apply list_elem_of_In, list_elem_of_fmap in Hps as ([k [v l]] & -> & Hk).
      apply elem_of_map_to_list in Hk. exists k, l. rewrite Hk. split; [done|]. by apply list_elem_of_In.
    + intros (k & l & Hk & Hp). apply fmap_Some in Hk as ([v l'] & Em & ->).
      exists (list_patches before after k l'). split; [|by apply list_elem_of_In].
      apply list_elem_of_In, list_elem_of_fmap. exists (k, (v, l')). split; [done|]. by apply elem_of_map_to_list.
  - split; [by intros (? & [] & _)|by intros (? & ? & ? & _)].
Qed.

#[export] Instance toy_patch_laws : PatchLaws toy toy_views.
Proof.
  split.
  - simpl. intros m d st d' st' pl p o k l i rest [= <- <- <-].
    intros (k' & l' & Hk & (i' & x & Hx & _ & ->)%elem_of_list_patches)%elem_of_new_elements Heq. simpl in Heq. simplify_eq.
    split; [done|]. destruct (list_at (OI := toy_ids) (view (d ∪ m)) l) as [xs|]; [|done]. exists xs. split; [done|]. by eapply lookup_lt_Some.
  - simpl. intros m d st d' st' pl k l xs i e msg [= <- <- <-] Hk Hl Hi Hm.
    destruct (unchanged (view d) (view (d ∪ m)) k l e) eqn:Eu; [right|left].
    + unfold unchanged in Eu. rewrite !andb_true_iff, !bool_decide_eq_true in Eu. destruct Eu as [[Hk0 Hin] Hread].
      split; [done|]. destruct (list_at (OI := toy_ids) (view d) l) as [xs0|]; [|by apply elem_of_nil in Hin].
      exists xs0. by rewrite Hread.
    + exists (Build_Patch toy_ids [(0, PMap k); (l, PSeq i)]), 0, []. split; [|done]. apply elem_of_new_elements. exists k, l. split; [done|].
      apply elem_of_list_patches. exists i, e. rewrite Hl. by split.
Qed.
End ToyDoc.
