(* ===== verification/Schema.v ===== *)
(** The layout of a chat document (src/src/persistence/schema.rs): the root map holds, per
    peer, a list of message maps under the key [msgs_<peer id>]. *)
From S2P Require Import Prelude Wire Errors ChatTypes Automerge.
From stdpp Require Import base gmap strings list fin_maps.
From Stdlib Require Import ZArith Lia.
Open Scope tryst_scope.

Module keys.
Definition LIST_PREFIX : string := "msgs_".
Definition ID : string := "id".
Definition SENDER : string := "sender_node_id".
Definition CONTENT : string := "content".
Definition CONTENT_TEXT : string := "Text".
Definition CREATED_AT : string := "created_at".
Definition UPDATED_AT : string := "updated_at".
End keys.

(** [str::strip_prefix]; [starts_with] is whether it succeeds. *)
Fixpoint strip_prefix (p s : string) : option string :=
  match p, s with
  | EmptyString, _ => Some s
  | String a p', String b s' => if bool_decide (a = b) then strip_prefix p' s' else None
  | _, EmptyString => None
  end.
Definition starts_with (p s : string) : bool :=
  match strip_prefix p s with Some _ => true | None => false end.

Lemma strip_prefix_app p s : strip_prefix p (p +:+ s) = Some s.
Proof. induction p; simpl; [done|]. by rewrite bool_decide_eq_true_2. Qed.

Lemma strip_prefix_inv p s r : strip_prefix p s = Some r -> s = p +:+ r.
Proof.
  revert s. induction p as [|a p IH]; intros s; simpl; [by intros [= ->]|].
  destruct s as [|b s]; [done|]. case_bool_decide; [subst|done].
  intros Hs. by rewrite (IH s Hs).
Qed.

(** What a document says: per peer, a list of messages. *)
Abbreviation history := (gmap string (list ChatMessage)).

Section Root.
Context {OI : ObjIds}.

(** [struct MessageListId(ObjId)] *)
Record MessageListId := { inner : ObjId }.

Definition peer_list_key (peer_id : string) : string := keys.LIST_PREFIX +:+ peer_id.

Section Reads.
Context {T : Type} {R : ReadDoc T}.

(** The loop of [get_all_peer_lists] over the root's keys. *)
Fixpoint collect_peer_lists (doc : T) (ks : list string) : outcome LibError (list MessageListId) :=
  match ks with
  | [] => Ok []
  | key :: ks' =>
      if starts_with keys.LIST_PREFIX key then
        let? e := map_err Automerge (get doc ROOT key) in
        let? lists := collect_peer_lists doc ks' in
        Ok (match e with Some (_, id) => {| inner := id |} :: lists | None => lists end)
      else collect_peer_lists doc ks'
  end.

Definition get_all_peer_lists (doc : T) : outcome LibError (list MessageListId) :=
  collect_peer_lists doc (doc_keys doc ROOT).

Definition get_peer_list (doc : T) (peer_id : string) : outcome LibError (option MessageListId) :=
  let? e := map_err Automerge (get doc ROOT (peer_list_key peer_id)) in
  match e with
  | Some (_, id) => Ok (Some {| inner := id |})
  | None => Ok None
  end.

Definition list_len (l : MessageListId) (doc : T) : nat := doc_length doc (inner l).
End Reads.

Section Writes.
Context {T : Type} {Tr : Transactable T}.

Definition ensure_peer_list (peer_id : string) : action T LibError MessageListId :=
  let key := peer_list_key peer_id in
  e <- act_map_err Automerge (reads (fun tx => get tx ROOT key)) ;;
  list_id <- match e with
             | Some (_, id) => ret id
             | None => act_map_err Automerge (put_object ROOT key ObjList)
             end ;;
  ret {| inner := list_id |}.

Definition append_message (l : MessageListId) (msg : ChatMessage) : action T LibError unit :=
  idx <- gets (list_len l) ;;
  mid <- act_map_err Automerge (insert_object (inner l) idx ObjMap) ;;
  act_map_err Automerge (put mid keys.ID (Str (msg_id msg))) ;;;
  act_map_err Automerge (put mid keys.SENDER (Str (sender_node_id msg))) ;;;
  act_map_err Automerge (put mid keys.CREATED_AT (Int (created_at msg))) ;;;
  act_map_err Automerge (put mid keys.UPDATED_AT (Int (updated_at msg))) ;;;
  content_id <- act_map_err Automerge (put_object mid keys.CONTENT ObjMap) ;;
  match content msg with
  | Text text_val => act_map_err Automerge (put content_id keys.CONTENT_TEXT (Str text_val))
  end.
End Writes.

(** ** What a document says *)

(** The list object [lid] holds exactly the messages [ms]. *)
Definition list_holds (o : gmap ObjId Obj) (lid : ObjId) (ms : list ChatMessage) : Prop :=
  exists xs, list_at o lid = Some xs /\ mapM (read_msg o) xs = Some ms.

Definition peer_list_at (o : gmap ObjId Obj) (peer : string) : option ObjId :=
  m ← map_at o ROOT; snd <$> m !! peer_list_key peer.

(** The objects [o] are a chat document whose lists are [h]: each peer's list holds its
    messages, and no two peers share a list object. *)
Record represents (o : gmap ObjId Obj) (h : history) : Prop := {
  rep_root : is_Some (map_at o ROOT);
  rep_list p ms : h !! p = Some ms -> exists lid, peer_list_at o p = Some lid /\ list_holds o lid ms;
  rep_none p : h !! p = None -> peer_list_at o p = None;
  rep_distinct p p' lid : peer_list_at o p = Some lid -> peer_list_at o p' = Some lid -> p = p';
}.

(** [o'] has every map entry of [o]. *)
Definition extends (o o' : gmap ObjId Obj) : Prop :=
  forall id m, map_at o id = Some m -> exists m', map_at o' id = Some m' /\ m ⊆ m'.

#[export] Instance extends_preorder : PreOrder extends.
Proof.
  split.
  - intros o id m Hm. eauto.
  - intros o1 o2 o3 H12 H23 id m Hm. destruct (H12 id m Hm) as (m2 & Hm2 & ?).
    destruct (H23 id m2 Hm2) as (m3 & Hm3 & ?). exists m3. split; [done|]. by transitivity m2.
Qed.

Lemma str_field_mono m m' k s : m ⊆ m' -> str_field m k = Some s -> str_field m' k = Some s.
Proof.
  unfold str_field. intros Hsub. destruct (m !! k) as [x|] eqn:E; [|done].
  by rewrite (lookup_weaken _ _ _ _ E Hsub).
Qed.

Lemma int_field_mono m m' k z : m ⊆ m' -> int_field m k = Some z -> int_field m' k = Some z.
Proof.
  unfold int_field. intros Hsub. destruct (m !! k) as [x|] eqn:E; [|done].
  by rewrite (lookup_weaken _ _ _ _ E Hsub).
Qed.

Lemma map_field_mono o o' m m' k c :
  extends o o' -> m ⊆ m' -> map_field o m k = Some c ->
  exists c', map_field o' m' k = Some c' /\ c ⊆ c'.
Proof.
  unfold map_field. intros He Hsub. destruct (m !! k) as [x|] eqn:E; [|done].
  rewrite (lookup_weaken _ _ _ _ E Hsub). destruct x as [[[]|] id]; try done. apply He.
Qed.

Lemma read_msg_extends o o' e m : extends o o' -> read_msg o e = Some m -> read_msg o' e = Some m.
Proof.
  intros He. unfold read_msg. destruct e as [[[]|] mid]; try done. intros Hm.
  destruct (map_at o mid) as [mm|] eqn:Emm; [|done]. destruct (He _ _ Emm) as (mm' & -> & Hsub).
  simpl in *.
  destruct (str_field mm "id") as [i|] eqn:Ei; [|done]. rewrite (str_field_mono _ _ _ _ Hsub Ei). simpl in *.
  destruct (str_field mm "sender_node_id") as [s|] eqn:Es; [|done]. rewrite (str_field_mono _ _ _ _ Hsub Es).
  simpl in *. destruct (map_field o mm "content") as [c|] eqn:Ec; [|done].
  destruct (map_field_mono _ _ _ _ _ _ He Hsub Ec) as (c' & -> & Hc). simpl in *.
  destruct (str_field c "Text") as [t|] eqn:Et; [|done]. rewrite (str_field_mono _ _ _ _ Hc Et). simpl in *.
  destruct (int_field mm "created_at") as [z|] eqn:Ez; [|done]. rewrite (int_field_mono _ _ _ _ Hsub Ez).
  simpl in *. destruct (int_field mm "updated_at") as [z'|] eqn:Ez'; [|done].
  by rewrite (int_field_mono _ _ _ _ Hsub Ez').
Qed.

Lemma mapM_read_extends o o' xs ms :
  extends o o' -> mapM (read_msg o) xs = Some ms -> mapM (read_msg o') xs = Some ms.
Proof.
  intros He. rewrite !mapM_Some. intros Hf. eapply Forall2_impl; [exact Hf|].
  intros x y. by apply read_msg_extends.
Qed.

(** *** How the writes change maps and lists *)
Lemma map_at_insert o i x j :
  map_at (<[i := x]> o) j =
    if decide (i = j) then match x with MapObj m => Some m | ListObj _ => None end else map_at o j.
Proof. unfold map_at. rewrite lookup_insert. by destruct (decide (i = j)), x. Qed.

Lemma map_at_updated o o' i m : o' = <[i := MapObj m]> o -> map_at o' i = Some m.
Proof. intros ->. by rewrite map_at_insert, decide_True. Qed.

Lemma list_at_insert o i x j :
  list_at (<[i := x]> o) j =
    if decide (i = j) then match x with ListObj l => Some l | MapObj _ => None end else list_at o j.
Proof. unfold list_at. rewrite lookup_insert. by destruct (decide (i = j)), x. Qed.

Lemma map_at_present o i m : map_at o i = Some m -> o !! i <> None.
Proof. unfold map_at. by destruct (o !! i). Qed.

Lemma list_at_present o i l : list_at o i = Some l -> o !! i <> None.
Proof. unfold list_at. by destruct (o !! i). Qed.

Lemma map_list_ne o i j m l : map_at o i = Some m -> list_at o j = Some l -> i <> j.
Proof. unfold map_at, list_at. intros Hm Hl ->. by destruct (o !! j) as [[]|]. Qed.

End Root.

Section AppendFacts.
Context {OI : ObjIds} {T : Type} {Tr : Transactable T} {view : T -> gmap ObjId Obj}
  {Laws : TransactableLaws T view}.

Lemma act_map_err_ok {W E E' A} (f : E -> E') (c : action W E A) w a w' :
  c w = (Ok a, w') -> act_map_err f c w = (Ok (E := E') a, w').
Proof. unfold act_map_err. by intros ->. Qed.

(** Runs the next call of a sequence, whose result is known. *)
Local Ltac run_ok H := rewrite (bind_ok _ _ _ _ _ (act_map_err_ok Automerge _ _ _ _ H)).

(** What [append_message] leaves as it was: every map entry, and every other list. *)
Record appended (lid : ObjId) (o o' : gmap ObjId Obj) : Prop := {
  app_maps i m : map_at o i = Some m -> map_at o' i = Some m;
  app_lists l ys : l <> lid -> list_at o l = Some ys -> list_at o' l = Some ys;
}.

Lemma append_message_spec t lid xs msg :
  list_at (view t) lid = Some xs ->
  exists e t', append_message {| inner := lid |} msg t = (Ok tt, t') /\
    list_at (view t') lid = Some (xs ++ [e]) /\ read_msg (view t') e = Some msg /\
    appended lid (view t) (view t').
Proof using Laws.
  intros Hxs.
  destruct (insert_object_list t lid xs (length xs) ObjMap Hxs (le_n _)) as (mid & t1 & E1 & Hmid & V1).
  rewrite firstn_all, drop_all in V1. simpl in V1.
  assert (lid <> mid) as Hlm by (intros ->; by apply list_at_present in Hxs).
  assert (map_at (view t1) mid = Some ∅) as M1
    by (by rewrite V1, map_at_insert, decide_True by done).
  destruct (put_map t1 mid _ keys.ID (Str (msg_id msg)) M1) as (i1 & t2 & E2 & V2).
  pose proof (map_at_updated _ _ _ _ V2) as M2.
  destruct (put_map t2 mid _ keys.SENDER (Str (sender_node_id msg)) M2) as (i2 & t3 & E3 & V3).
  pose proof (map_at_updated _ _ _ _ V3) as M3.
  destruct (put_map t3 mid _ keys.CREATED_AT (Int (created_at msg)) M3) as (i3 & t4 & E4 & V4).
  pose proof (map_at_updated _ _ _ _ V4) as M4.
  destruct (put_map t4 mid _ keys.UPDATED_AT (Int (updated_at msg)) M4) as (i4 & t5 & E5 & V5).
  pose proof (map_at_updated _ _ _ _ V5) as M5.
  destruct (put_object_map t5 mid _ keys.CONTENT ObjMap M5) as (cid & t6 & E6 & Hcid & V6).
  assert (mid <> cid) as Hmc by (intros ->; by apply map_at_present in M5).
  assert (map_at (view t6) cid = Some ∅) as M6
    by (by rewrite V6, map_at_insert, decide_True by done).
  destruct (content msg) as [text] eqn:Ec.
  destruct (put_map t6 cid _ keys.CONTENT_TEXT (Str text) M6) as (i5 & t7 & E7 & V7).
  rewrite V4, V3, V2, V1, !insert_insert_eq in V5. rewrite V5, insert_insert_eq in V6.
  rewrite V6, insert_insert_eq in V7.
  rewrite V5, lookup_insert_ne in Hcid by done.
  assert (lid <> cid) as Hlc by (intros ->; by rewrite lookup_insert_eq in Hcid).
  rewrite lookup_insert_ne in Hcid by done. clear V1 V2 V3 V4 V5 V6 M1 M2 M3 M4 M5 M6.
  exists (Object ObjMap, mid), t7. split.
  { unfold append_message, bind at 1, gets, list_len. cbn [inner].
    rewrite (length_list t lid xs Hxs).
    by run_ok E1; run_ok E2; run_ok E3; run_ok E4; run_ok E5; run_ok E6; rewrite Ec; apply act_map_err_ok. }
  rewrite V7. split_and!; [| |split].
  - by rewrite !list_at_insert, !decide_False, decide_True by done.
  - unfold read_msg, map_field. rewrite map_at_insert, decide_False, map_at_insert, decide_True by done.
    unfold str_field, int_field, keys.ID, keys.SENDER, keys.CREATED_AT, keys.UPDATED_AT, keys.CONTENT, keys.CONTENT_TEXT. simpl. simplify_map_eq.
    rewrite map_at_insert, decide_True by done. simpl. simplify_map_eq. destruct msg. simpl in *. by subst.
  - intros i m Hm. pose proof (map_at_present _ _ _ Hm) as Hp.
    rewrite !map_at_insert, !decide_False; [done|..]; try (intros ->; done).
    intros <-. by eapply map_list_ne.
  - intros l ys Hne Hl. pose proof (list_at_present _ _ _ Hl) as Hp.
    rewrite !list_at_insert, !decide_False; try done; by intros ->.
Qed.

Lemma peer_list_at_same_root o o' p :
  map_at o' ROOT = map_at o ROOT -> peer_list_at o' p = peer_list_at o p.
Proof. unfold peer_list_at. by intros ->. Qed.

(** Appending to a peer's list of a chat document: the list gets the message at its end,
    every other list stays. *)
Lemma append_represents t h p lid ms msg :
  represents (view t) h -> h !! p = Some ms -> peer_list_at (view t) p = Some lid ->
  exists t', append_message {| inner := lid |} msg t = (Ok tt, t') /\
    represents (view t') (<[p := ms ++ [msg]]> h).
Proof using Laws.
  intros [[m Hroot] Hlist Hnone Hdist] Hp Hlid.
  destruct (Hlist p ms Hp) as (lid' & Hlid' & xs & Hxs & Hms). simplify_eq.
  destruct (append_message_spec t lid xs msg Hxs) as (e & t' & E & Hxs' & He & [Hmaps Hlists]).
  exists t'. split; [done|].
  assert (extends (view t) (view t')) as Hext by (intros i m' Hm'; eauto).
  assert (forall q, peer_list_at (view t') q = peer_list_at (view t) q) as Hpeer.
  { intros q. apply peer_list_at_same_root. by rewrite Hroot, (Hmaps _ _ Hroot). }
  split.
  - eauto.
  - intros q ms'. rewrite Hpeer. destruct (decide (p = q)) as [<-|Hne].
    + rewrite lookup_insert_eq. intros [= <-]. exists lid. split; [done|].
      exists (xs ++ [e]). split; [done|]. apply mapM_Some, Forall2_app; [|by repeat constructor].
      by apply mapM_Some, (mapM_read_extends (view t)).
    + rewrite lookup_insert_ne by done. intros Hq.
      destruct (Hlist q ms' Hq) as (lq & Hlq & ys & Hys & Hms'). exists lq. split; [done|].
      exists ys. split; [|by eapply mapM_read_extends].
      apply Hlists; [|done]. intros ->. by eapply Hne, Hdist.
  - intros q. destruct (decide (p = q)) as [<-|Hne]; [by rewrite lookup_insert_eq|].
    rewrite lookup_insert_ne, Hpeer by done. apply Hnone.
  - intros q q' l. rewrite !Hpeer. apply Hdist.
Qed.

(** A fresh list under a new peer's key. *)
Lemma represents_new_list o o' h p m lid :
  represents o h -> map_at o ROOT = Some m -> h !! p = None -> o !! lid = None ->
  o' = <[lid := empty_obj ObjList]> (<[ROOT := MapObj (<[peer_list_key p := (Object ObjList, lid)]> m)]> o) ->
  peer_list_at o' p = Some lid /\ represents o' (<[p := []]> h).
Proof.
  intros [_ Hlist Hnone Hdist] Hroot Ep Hfresh V.
  assert (forall q, peer_list_at o q = snd <$> m !! peer_list_key q) as Hpeer
    by (intros q; unfold peer_list_at; by rewrite Hroot).
  assert (lid <> ROOT) as Hlr by (intros Heq; rewrite <- Heq in Hroot; by apply map_at_present in Hroot).
  assert (forall q, peer_list_at o' q = if decide (p = q) then Some lid else peer_list_at o q) as Hpeer'.
  { intros q. unfold peer_list_at at 1. rewrite V, !map_at_insert, decide_False, decide_True by done.
    simpl. rewrite Hpeer. destruct (decide (p = q)) as [<-|Hne]; [by rewrite lookup_insert_eq|].
    rewrite lookup_insert_ne; [done|]. unfold peer_list_key. by intros ?%(inj _). }
  split; [by rewrite Hpeer', decide_True|]. assert (extends o o') as Hext.
  { intros i mi Hi. rewrite V, !map_at_insert. rewrite decide_False by (intros ->; by apply map_at_present in Hi).
    destruct (decide (ROOT = i)) as [<-|]; [|by exists mi].
    simplify_eq. eexists. split; [done|]. apply insert_subseteq.
    apply (fmap_None snd). by rewrite <- Hpeer, Hnone. }
  split.
  - destruct (Hext _ _ Hroot) as (m' & ? & _). eauto.
  - intros q ms. rewrite Hpeer'. destruct (decide (p = q)) as [<-|Hne].
    + rewrite lookup_insert_eq. intros [= <-]. exists lid. split; [done|]. exists [].
      by rewrite V, list_at_insert, decide_True.
    + rewrite lookup_insert_ne by done. intros Hq.
      destruct (Hlist q ms Hq) as (lq & Hlq & ys & Hys & Hms). exists lq. split; [done|].
      exists ys. split; [|by eapply mapM_read_extends]. rewrite V, !list_at_insert.
      rewrite decide_False by (intros ->; by apply list_at_present in Hys).
      rewrite decide_False; [done|]. by eapply map_list_ne.
  - intros q. destruct (decide (p = q)) as [<-|Hne]; [by rewrite lookup_insert_eq|].
    rewrite lookup_insert_ne, Hpeer', decide_False by done. apply Hnone.
  - assert (forall q, peer_list_at o q <> Some lid) as Hold.
    { intros q Hl. destruct (h !! q) as [ms|] eqn:Eq; [|by rewrite (Hnone q Eq) in Hl].
      destruct (Hlist q ms Eq) as (l & Hl' & ys & Hys & _). simplify_eq. by apply list_at_present in Hys. }
    intros q q' l. rewrite !Hpeer'.
    destruct (decide (p = q)), (decide (p = q')); intros H1 H2; simplify_eq; try done;
      [by apply Hold in H2|by apply Hold in H1|by eapply Hdist].
Qed.

(** Making sure a peer's list is there adds an empty one when it is not. *)
Lemma ensure_represents t h p :
  represents (view t) h ->
  exists lid t', ensure_peer_list p t = (Ok {| inner := lid |}, t') /\
    peer_list_at (view t') p = Some lid /\
    represents (view t') (<[p := default [] (h !! p)]> h).
Proof using Laws.
  intros Hr. destruct (Hr) as [[m Hroot] Hlist Hnone Hdist].
  assert (peer_list_at (view t) p = snd <$> m !! peer_list_key p) as Hpeer by (unfold peer_list_at; by rewrite Hroot).
  unfold ensure_peer_list, bind, act_map_err, reads. rewrite (get_map t ROOT m _ Hroot). simpl.
  destruct (h !! p) as [ms|] eqn:Ep; simpl.
  - destruct (Hlist p ms Ep) as (lid & Hlid & _). pose proof Hlid as Hlid'. rewrite Hpeer in Hlid'.
    destruct (m !! peer_list_key p) as [[v l]|] eqn:Em; simplify_eq/=.
    eexists _, _. split; [done|]. split; [done|]. by rewrite insert_id.
  - pose proof (Hnone p Ep) as Hn. rewrite Hpeer in Hn.
    destruct (m !! peer_list_key p) as [[v l]|] eqn:Em; simplify_eq/=.
    destruct (put_object_map t ROOT m (peer_list_key p) ObjList Hroot) as (lid & t' & E & Hfresh & V).
    unfold act_map_err. rewrite E. simpl. eexists _, _. split; [done|]. by eapply represents_new_list.
Qed.
End AppendFacts.

(** ** Reading a chat document *)
Section ReadFacts.
Context {OI : ObjIds} {T : Type} {R : ReadDoc T} {view : T -> gmap ObjId Obj}
  {Laws : ReadDocLaws T view}.

(** The peer and the messages of a root key. *)
Definition key_history (h : history) (key : string) : option (string * list ChatMessage) :=
  p ← strip_prefix keys.LIST_PREFIX key; ms ← h !! p; Some (p, ms).

Lemma peer_list_at_key o m p :
  map_at o ROOT = Some m -> peer_list_at o p = snd <$> m !! (keys.LIST_PREFIX +:+ p).
Proof. unfold peer_list_at. by intros ->. Qed.

Lemma collect_spec t h m ks :
  represents (view t) h -> map_at (view t) ROOT = Some m -> (forall k, k ∈ ks -> k ∈ dom m) ->
  exists ls, collect_peer_lists t ks = Ok ls /\
    Forall2 (fun l ph => peer_list_at (view t) ph.1 = Some (inner l) /\
                         list_holds (view t) (inner l) ph.2) ls (omap (key_history h) ks).
Proof using Laws.
  intros [_ Hlist Hnone _] Hroot. induction ks as [|key ks IH]; intros Hks; [by exists []|].
  destruct IH as (ls & E & Hls); [intros; apply Hks; by right|].
  cbn [collect_peer_lists omap list_omap]. unfold starts_with.
  unfold key_history at 1. destruct (strip_prefix keys.LIST_PREFIX key) as [p|] eqn:Ep; [|by exists ls].
  rewrite (get_map t ROOT m key Hroot). simpl. rewrite E. simpl.
  apply strip_prefix_inv in Ep. pose proof (peer_list_at_key _ m p Hroot) as Hp. rewrite <- Ep in Hp.
  assert (is_Some (m !! key)) as [[v lid] Hkey] by (apply elem_of_dom, Hks; left).
  rewrite Hkey in Hp |- *. simpl in Hp. eexists. split; [done|].
  destruct (h !! p) as [ms|] eqn:Eh; [|by rewrite (Hnone p Eh) in Hp].
  destruct (Hlist p ms Eh) as (lid' & Hlid' & Hh). simplify_eq. by constructor.
Qed.

Lemma omap_key_history h (m : gmap string (Value * ObjId)) ks :
  (forall p, is_Some (h !! p) -> keys.LIST_PREFIX +:+ p ∈ dom m) -> ks ≡ₚ elements (dom m) ->
  omap (key_history h) ks ≡ₚ map_to_list h.
Proof.
  intros Hdom ->. apply NoDup_Permutation.
  - assert (forall k k' x, key_history h k = Some x -> key_history h k' = Some x -> k = k') as Hinj.
    { unfold key_history. intros k k' [p ms].
      destruct (strip_prefix _ k) as [q|] eqn:E1, (strip_prefix _ k') as [q'|] eqn:E2; simpl; try done.
      apply strip_prefix_inv in E1, E2. intros H1 H2.
      destruct (h !! q) eqn:Eq, (h !! q') eqn:Eq'; by simplify_eq/=. }
    pose proof (NoDup_elements (dom m)) as Hnd. induction Hnd as [|k l Hk Hnd IH]; [constructor|].
    simpl. destruct (key_history h k) as [x|] eqn:E; [|done]. constructor; [|done].
    intros (k' & Hk' & Hx)%list_elem_of_omap. by rewrite (Hinj _ _ _ E Hx) in Hk.
  - apply NoDup_map_to_list.
  - intros [p ms]. rewrite list_elem_of_omap, elem_of_map_to_list. split.
    + intros (k & _ & Hk). unfold key_history in Hk. destruct (strip_prefix _ k) as [q|]; [|done].
      simpl in Hk. destruct (h !! q) eqn:Eq; by simplify_eq/=.
    + intros Hp. exists (keys.LIST_PREFIX +:+ p). split; [apply elem_of_elements; eauto|].
      unfold key_history. rewrite strip_prefix_app. simpl. by rewrite Hp.
Qed.

(** The lists found are the histories' lists, in some order of the peers. *)
Lemma get_all_peer_lists_spec t h :
  represents (view t) h ->
  exists ls hs, get_all_peer_lists t = Ok ls /\ hs ≡ₚ map_to_list h /\
    Forall2 (fun l ph => list_holds (view t) (inner l) ph.2) ls hs.
Proof using Laws.
  intros Hr. destruct (Hr) as [[m Hroot] Hlist _ _].
  destruct (collect_spec t h m (doc_keys t ROOT) Hr Hroot) as (ls & E & Hls).
  { intros k Hk. rewrite (keys_map t ROOT m Hroot) in Hk. by apply elem_of_elements. }
  exists ls, (omap (key_history h) (doc_keys t ROOT)). split; [done|]. split.
  - apply (omap_key_history h m); [|by apply (keys_map t ROOT m)].
    intros p [ms Hp]. destruct (Hlist p ms Hp) as (lid & Hlid & _).
    rewrite (peer_list_at_key _ m p Hroot) in Hlid. apply elem_of_dom.
    destruct (m !! _); [eauto|done].
  - eapply Forall2_impl; [exact Hls|]. by intros l ph [_ ?].
Qed.

Lemma get_peer_list_spec t h p :
  represents (view t) h ->
  get_peer_list t p = Ok ((fun id => {| inner := id |}) <$> peer_list_at (view t) p).
Proof using Laws.
  intros [[m Hroot] _ _ _]. unfold get_peer_list. rewrite (get_map t ROOT m _ Hroot). simpl.
  rewrite (peer_list_at_key _ m p Hroot). unfold peer_list_key. by destruct (m !! _) as [[v id]|].
Qed.
End ReadFacts.
