(* ===== verification/Repository.v ===== *)
(** The chat repository (src/src/persistence.rs): the automerge document of one chat, its
    copy in the database, and the state of its synchronisation with the peer. *)
From S2P Require Import Prelude External Wire Errors ChatTypes Database Automerge Schema.
From stdpp Require Import base gmap strings list fin_maps.
From Stdlib Require Import ZArith Lia.
Open Scope tryst_scope.

Definition CHAT_LOGS_LIMIT : nat := 512.

Module ChatRepository.
Section Operations.
Context {Ids : EndpointIds} {Us : Uuids} {OI : ObjIds} {AM : Automerges}.

(** [ChatRepositoryInner]; the watch channel [sync_status_tx] is its value and how often
    it was announced. The pool is the other half of the state. *)
Record Repo := {
  chat_id : ChatId;
  doc : Doc;
  sync_state : SyncState;
  last_saved_heads : list ChangeHash;
  sync_status : bool;
  status_version : nat;
}.

Abbreviation Pool := (World Db).
Abbreviation State := (Repo * Pool)%type.

Definition set_doc (d : Doc) (r : Repo) : Repo :=
  {| chat_id := chat_id r; doc := d; sync_state := sync_state r;
     last_saved_heads := last_saved_heads r; sync_status := sync_status r;
     status_version := status_version r |}.
Definition set_sync_state (s : SyncState) (r : Repo) : Repo :=
  {| chat_id := chat_id r; doc := doc r; sync_state := s;
     last_saved_heads := last_saved_heads r; sync_status := sync_status r;
     status_version := status_version r |}.
Definition set_heads (h : list ChangeHash) (r : Repo) : Repo :=
  {| chat_id := chat_id r; doc := doc r; sync_state := sync_state r;
     last_saved_heads := h; sync_status := sync_status r; status_version := status_version r |}.

(** Running a call on one part of the state. *)
Definition on_pool {E A} (c : action Pool E A) : action State E A :=
  fun '(r, w) => let '(a, w') := c w in (a, (r, w')).
Definition on_doc {E A} (c : action Doc E A) : action State E A :=
  fun '(r, w) => let '(a, d) := c (doc r) in (a, (set_doc d r, w)).

(** ** [get_persisted_doc_state] *)

(** The branch for a chat that has a row in [chats]. *)
Definition restore (chat_id_str : string) (document : bytes) :
    action Pool LibError (Doc * list ChangeHash) :=
  d <- lift (map_err Automerge (load document)) ;;
  rows <- stmt (select_log chat_id_str) ;;
  d <- (match last rows with
        | None => ret d
        | Some last_row =>
            let '(r, d') := load_incremental (concat (log_data <$> rows)) d in
            lift (map_err Automerge r) ;;;
            (if bool_decide (CHAT_LOGS_LIMIT < length rows) then
               transaction (update_document (save d') chat_id_str)
                           [delete_log chat_id_str (log_id last_row)]
             else ret tt) ;;;
            ret d'
        end) ;;
  ret (d, get_heads d).

(** The branch that creates the chat; [None] when another task created it meanwhile. *)
Definition create (cid : ChatId) : action Pool LibError (option (Doc * list ChangeHash)) :=
  let init := reconcile_init {| init_chat_id := chat_id_to_string cid |} in
  let '(r, d) := transact (act_map_err (fun e => anyhow_of_lib (Automerge e)) init) new_doc in
  lift (map_err (fun e => lib_of_anyhow (error e)) r) ;;;
  affected <- stmt (insert_or_ignore_chat (chat_id_to_string cid) (save d)) ;;
  if bool_decide (0 < affected)%Z then ret (Some (d, get_heads d)) else ret None.

(** The [loop]; [None] when the fuel runs out. *)
Fixpoint persisted_loop (fuel : nat) (cid : ChatId) :
    action Pool LibError (option (Doc * list ChangeHash)) :=
  match fuel with
  | O => ret None
  | S fuel' =>
      snapshot_row <- stmt (select_document (chat_id_to_string cid)) ;;
      match snapshot_row with
      | Some document => x <- restore (chat_id_to_string cid) document ;; ret (Some x)
      | None =>
          created <- create cid ;;
          match created with
          | Some x => ret (Some x)
          | None => persisted_loop fuel' cid
          end
      end
  end.

(** Fuel for as many rounds as there are turns of the weather; see
    [persisted_loop_total]. *)
Definition get_persisted_doc_state (cid : ChatId) : action Pool LibError (Doc * list ChangeHash) :=
  fuel <- gets (fun w => S (S (length (forecast w)))) ;;
  x <- persisted_loop fuel cid ;;
  match x with Some x => ret x | None => lift Panic end.

(** ** [ChatRepository] *)
Definition new (cid : ChatId) : action Pool LibError Repo :=
  x <- get_persisted_doc_state cid ;;
  ret {| chat_id := cid; doc := x.1; sync_state := new_sync_state; last_saved_heads := x.2;
         sync_status := false; status_version := 0 |}.

Definition persist_chat : action State LibError unit :=
  chat_id_str <- gets (fun s => chat_id_to_string (chat_id s.1)) ;;
  new_changes <- gets (fun s => save_after (doc s.1) (last_saved_heads s.1)) ;;
  if bool_decide (new_changes = []) then ret tt
  else
    on_pool (stmt (insert_log chat_id_str new_changes)) ;;;
    modify (fun s => (set_heads (get_heads (doc s.1)) s.1, s.2)).

Definition generate_sync_message {E} : action State E (option SyncMsg) := fun '(r, w) =>
  let '(message, st) := sync_generate (doc r) (sync_state r) in
  let is_synced := match message with None => true | Some _ => false end in
  let modified := negb (eqb (sync_status r) is_synced) in
  (Ok message,
   ({| chat_id := chat_id r; doc := doc r; sync_state := st;
       last_saved_heads := last_saved_heads r; sync_status := is_synced;
       status_version := if modified then S (status_version r) else status_version r |}, w)).

(** [now] is the clock's reading and [uuid] the fresh id. *)
Definition add_message (now : Z) (uuid : Uuid) (msg : ChatMessageContent) :
    action State LibError (ChatMessage * option SyncMsg) :=
  my_peer_id <- gets (fun s => id_to_string (my_id (chat_id s.1))) ;;
  let new_msg := {| msg_id := uuid_to_string uuid; sender_node_id := my_peer_id; content := msg;
                    created_at := now; updated_at := now |} in
  act_map_err error (on_doc (transact
    (msgs_list <- ensure_peer_list my_peer_id ;; append_message msgs_list new_msg))) ;;;
  persist_chat ;;;
  sync_message <- generate_sync_message ;;
  ret (new_msg, sync_message).

Definition hydrate_message_at_index (r : Repo) (list_id : ObjId) (idx : nat) : outcome LibError ChatMessage :=
  map_err Automerge (hydrate_message (doc r) list_id idx).

(** The loop over the indices [start..len] of one list. *)
Fixpoint hydrate_range (r : Repo) (list_id : ObjId) (idxs : list nat) : outcome LibError (list ChatMessage) :=
  match idxs with
  | [] => Ok []
  | i :: idxs' =>
      let? msg := hydrate_message_at_index r list_id i in
      let? msgs := hydrate_range r list_id idxs' in
      Ok (msg :: msgs)
  end.

(** The loop over the lists: the last [fetch_depth] messages of each. *)
Fixpoint fetch_candidates (r : Repo) (fetch_depth : Z) (lists : list MessageListId) :
    outcome LibError (list ChatMessage) :=
  match lists with
  | [] => Ok []
  | l :: lists' =>
      let len := Z.of_nat (list_len l (doc r)) in
      if bool_decide (len = 0)%Z then fetch_candidates r fetch_depth lists'
      else
        let start := saturating_sub len fetch_depth in
        let? msgs := hydrate_range r (inner l) (seq (Z.to_nat start) (Z.to_nat (len - start))) in
        let? rest := fetch_candidates r fetch_depth lists' in
        Ok (msgs ++ rest)
  end.

Definition get_messages (overflow_checks : bool) (r : Repo) (offset limit : Z) :
    outcome LibError (list ChatMessage) :=
  let? lists := get_all_peer_lists (doc r) in
  let? fetch_depth := usize_add overflow_checks offset limit in
  let? found := fetch_candidates r fetch_depth lists in
  let candidates := sort_by msg_leb found in
  let total := Z.of_nat (length candidates) in
  let end_ := saturating_sub total offset in
  let start := saturating_sub end_ limit in
  if bool_decide (end_ <= start)%Z then Ok []
  else Ok (take (Z.to_nat (end_ - start)) (drop (Z.to_nat start) candidates)).

Definition get_all_messages (overflow_checks : bool) (r : Repo) : outcome LibError (list ChatMessage) :=
  get_messages overflow_checks r 0 (usize_max - 1).

(** The loop of [extract_new_messages_from_patches]. *)
Fixpoint extract_loop (r : Repo) (patches : list Patch) : outcome LibError (list ChatMessage) :=
  match patches with
  | [] => Ok []
  | patch :: patches' =>
      let? new := match path patch with
                  | (_, PMap key) :: (_, PSeq index) :: _ =>
                      match Schema.strip_prefix keys.LIST_PREFIX key with
                      | Some peer_id_suffix =>
                          let? l := get_peer_list (doc r) peer_id_suffix in
                          match l with
                          | Some list_id => map_ok (fun m => [m]) (hydrate_message_at_index r (inner list_id) index)
                          | None => Ok []
                          end
                      | None => Ok []
                      end
                  | _ => Ok []
                  end in
      let? rest := extract_loop r patches' in
      Ok (new ++ rest)
  end.

Definition extract_new_messages_from_patches (r : Repo) (patches : list Patch) :
    outcome LibError (list ChatMessage) :=
  let? new_msgs := extract_loop r patches in
  Ok (sort_by created_leb new_msgs).

(** The branch of [receive_sync_message] for a message that is there. *)
Definition receive_changes (in_sync_msg : SyncMsg) : action State LibError (list ChatMessage) :=
  patch_log <- (fun '(r, w) =>
    let '(a, (d, st, pl)) := sync_receive in_sync_msg (doc r, sync_state r, patch_log_new true) in
    (map_ok (fun _ => pl) (map_err Automerge a), (set_sync_state st (set_doc d r), w))) ;;
  persist_chat ;;;
  patches <- gets (fun s => (make_patches_of (doc s.1) patch_log).1) ;;
  reads (fun s => extract_new_messages_from_patches s.1 patches).

Definition receive_sync_message (in_sync_msg : option SyncMsg) :
    action State LibError (list ChatMessage * option (option SyncMsg)) :=
  new_messages <- match in_sync_msg with
                  | Some m => receive_changes m
                  | None => ret []
                  end ;;
  out_sync_msg <- generate_sync_message ;;
  ret (new_messages,
       match in_sync_msg, out_sync_msg with
       | None, None => None
       | _, _ => Some out_sync_msg
       end).

Definition reset_sync_state {E} : action State E unit :=
  modify (fun s => (set_sync_state new_sync_state s.1, s.2)).

Definition reset_doc_state_to_persisted : action State LibError unit :=
  cid <- gets (fun s => chat_id s.1) ;;
  x <- on_pool (get_persisted_doc_state cid) ;;
  modify (fun s => (set_heads x.2 (set_doc x.1 s.1), s.2)) ;;;
  reset_sync_state.
End Operations.

(** ** Durability *)
Section Durability.
Context {Ids : EndpointIds} {Us : Uuids} {OI : ObjIds} {AM : Automerges} {V : DocViews AM}.

(** The database holds, for the chat [cid], exactly the changes [cs]: a snapshot and log
    rows whose chunks lead from it to [cs]. *)
Definition holds_changes (cid : string) (cs : gset ChangeHash) (d : Db) : Prop :=
  db_wf d /\ exists document d0, chats d !! cid = Some document /\ load document = Ok d0 /\
    replays (changes d0) (concat (log_data <$> log_rows cid d)) cs.

(** Other tasks leave this chat's rows alone. *)
Definition bystanders (cid : string) (w : World Db) : Prop :=
  Forall (fun wx => forall d, db_wf d ->
    db_wf (others wx d) /\ chat_view cid (others wx d) = chat_view cid d) (forecast w).

Definition repo_chat (r : Repo) : string := chat_id_to_string (chat_id r).

(** The repository's invariant: the heads it calls saved are those of what the database
    holds, which its document contains; and the database holds at least [cs]. *)
Definition saved_prefix (cs : gset ChangeHash) (s : Repo * World Db) : Prop :=
  bystanders (repo_chat s.1) s.2 /\
  exists ds, last_saved_heads s.1 = get_heads ds /\ cs ⊆ changes ds /\ changes ds ⊆ changes (doc s.1) /\
    holds_changes (repo_chat s.1) (changes ds) (store s.2).

(** The database holds all of the repository's document. *)
Definition all_saved (s : Repo * World Db) : Prop :=
  holds_changes (repo_chat s.1) (changes (doc s.1)) (store s.2).

Lemma replays_app acc bs1 acc1 bs2 acc2 :
  replays acc bs1 acc1 -> replays acc1 bs2 acc2 -> replays acc (bs1 ++ bs2) acc2.
Proof.
  induction 1 as [|acc d0 d1 bs acc' ? ? ? IH]; [done|]. intros H2.
  rewrite <- (assoc_L (++)). constructor; auto.
Qed.

Lemma replays_one d0 d1 :
  changes d0 ⊆ changes d1 -> replays (changes d0) (save_after d1 (get_heads d0)) (changes d1).
Proof.
  intros Hsub. rewrite <- (app_nil_r (save_after _ _)). constructor; [done..|].
  rewrite (subseteq_union_1_L _ _ Hsub). constructor.
Qed.

Lemma bystanders_kept cid P w :
  bystanders cid w -> kept (fun d => db_wf d /\ P (chat_view cid d)) w.
Proof.
  intros Hb. eapply Forall_impl; [exact Hb|]. intros wx Hwx d [Hwf HP].
  destruct (Hwx d Hwf) as [Hwf' Hv]. by rewrite Hv.
Qed.

Lemma kept_iff {D} (I J : D -> Prop) w : (forall d, I d <-> J d) -> kept I w -> kept J w.
Proof.
  intros HIJ Hk. eapply Forall_impl; [exact Hk|]. intros wx Hwx d. rewrite <- !HIJ. apply Hwx.
Qed.

Lemma bystanders_holds cid cs w : bystanders cid w -> kept (holds_changes cid cs) w.
Proof.
  intros Hb. eapply kept_iff, (bystanders_kept cid (fun v => exists document d0,
    v.1 = Some document /\ load document = Ok d0 /\
    replays (changes d0) (concat (log_data <$> v.2)) cs)), Hb.
  done.
Qed.

Lemma bystanders_later cid w w' : later w w' -> bystanders cid w -> bystanders cid w'.
Proof. intros [n Hn] Hb. unfold bystanders. rewrite Hn. by apply Forall_drop. Qed.

(** A view other tasks leave alone. *)
Lemma bystanders_view cid v w : bystanders cid w -> kept (fun d => db_wf d /\ chat_view cid d = v) w.
Proof. intros Hb. by apply (bystanders_kept cid (fun v' => v' = v)). Qed.

Context {Laws : AutomergeLaws AM V}.

(** What a compaction leaves: the whole document as the snapshot, and no log. *)
Lemma holds_compacted cid d db :
  db_wf db -> chat_view cid db = (Some (save d), []) -> holds_changes cid (changes d) db.
Proof using Laws.
  intros Hwf [= Hdoc Hrows]. split; [done|]. destruct (load_save d) as (d' & Hl & Hc).
  exists (save d), d'. rewrite Hrows, Hc. split; [done|]. split; [done|]. constructor.
Qed.

Lemma holds_view cid document d0 rows cs db :
  load document = Ok d0 -> replays (changes d0) (concat (log_data <$> rows)) cs ->
  db_wf db -> chat_view cid db = (Some document, rows) -> holds_changes cid cs db.
Proof. intros Hl Hr Hwf [= Hdoc Hrows]. split; [done|]. exists document, d0. by rewrite Hrows. Qed.

(** The compaction keeps the changes, whether it commits or not, and leaves no log when it
    commits. *)
Lemma compaction_spec cid document rows last_row d w :
  bystanders cid w -> db_wf (store w) -> chat_view cid (store w) = (Some document, rows) ->
  last rows = Some last_row ->
  exists r w', transaction (update_document (save d) cid) [delete_log cid (log_id last_row)] w = (r, w') /\
    later w w' /\ db_wf (store w') /\
    ((r = Ok tt /\ chat_view cid (store w') = (Some (save d), [])) \/
     (~ faultless w /\ chat_view cid (store w') = (Some document, rows) /\ exists e, r = Err (Sqlx e))).
Proof.
  intros Hb Hwf Hv Hlast.
  destruct (transaction_spec (fun d => db_wf d /\ chat_view cid d = (Some document, rows))
    (fun db => db_wf db /\ chat_view cid db = (Some (save d), []))
    (update_document (save d) cid) [delete_log cid (log_id last_row)] w)
    as (r & w' & E & Hl & Hr); [by apply bystanders_view..|done| |].
  - intros db [Hwfd [= Hdoc Hrows]].
    destruct (compaction_writes cid (save d) (log_id last_row) db Hwfd) as (d' & E & Hwf' & Hc & Hrows' & _).
    exists d'. split; [done|]. split; [done|]. unfold chat_view.
    rewrite Hc, Hdoc, Hrows', log_rows_last by (done || by rewrite Hrows). done.
  - exists r, w'. split; [done|]. split; [done|].
    destruct Hr as [(-> & ? & ?)|(? & (? & ?) & ?)]; (split; [done|]); [left|right]; auto.
Qed.

Lemma replays_nil_inv acc bs cs : replays acc bs cs -> bs = [] -> acc = cs.
Proof using Laws.
  induction 1 as [|acc d0 d1 bs acc' H01 H0 Hr IH]; [done|]. intros [Hs ->]%app_nil.
  apply (save_after_empty d0 d1 H01) in Hs. rewrite <- IH by done.
  rewrite Hs. symmetry. rewrite (comm_L (∪)). by apply subseteq_union_1_L.
Qed.

(** The log after a chat was loaded: gone if it was too long, as it was otherwise. *)
Definition compacted (rows : list LogRow) : list LogRow :=
  if bool_decide (CHAT_LOGS_LIMIT < length rows) then [] else rows.

Lemma compacted_length rows : length (compacted rows) <= CHAT_LOGS_LIMIT.
Proof. unfold compacted. case_bool_decide; simpl; lia. Qed.

Lemma restore_spec cid document rows d0 cs w :
  bystanders cid w -> db_wf (store w) -> chat_view cid (store w) = (Some document, rows) ->
  load document = Ok d0 -> replays (changes d0) (concat (log_data <$> rows)) cs ->
  exists r w', restore cid document w = (r, w') /\ later w w' /\ holds_changes cid cs (store w') /\
    ((exists d, r = Ok (d, get_heads d) /\ changes d = cs /\
        log_rows cid (store w') = compacted rows) \/
     (~ faultless w /\ exists e, r = Err (Sqlx e))).
Proof using Laws.
  intros Hb Hwf Hv Hload Hrep. unfold restore. rewrite Hload. simpl map_err.
  rewrite (bind_ok _ _ w d0 w) by done.
  destruct (stmt_spec (fun d => db_wf d /\ chat_view cid d = (Some document, rows)) (select_log cid)
    (fun x _ => x = rows) w) as (r & w1 & E1 & Hl1 & [Hwf1 Hv1] & Hr).
  { by apply bystanders_view. }
  { done. }
  { intros d [Hwfd Hvd]. exists rows, d. split; [|done]. unfold select_log. by injection Hvd as _ ->. }
  destruct Hr as [(a & -> & ->)|[Hn [e ->]]].
  2: { rewrite (bind_err _ _ _ _ _ E1). eexists _, _. split; [done|]. split; [done|].
       split; [by eapply holds_view|]. right. eauto. }
  rewrite (bind_ok _ _ _ _ _ E1). pose proof (bystanders_later _ _ _ Hl1 Hb) as Hb1.
  destruct (last rows) as [last_row|] eqn:Elast.
  2: { apply last_None in Elast as ->. eexists _, _. split; [done|]. split; [done|].
       split; [by eapply holds_view|]. left. exists d0. split; [done|].
       split; [by eapply replays_nil_inv|]. by injection Hv1 as _ ->. }
  destruct (load_replays d0 (concat (log_data <$> rows)) cs Hrep) as (d & E & <-). rewrite E.
  rewrite bind_bind, (bind_ok _ _ w1 tt w1) by done. rewrite bind_bind. case_bool_decide as Hlim.
  - destruct (compaction_spec cid document rows last_row d w1 Hb1 Hwf1 Hv1 Elast)
      as (r & w2 & E2 & Hl2 & Hwf2 & Hr).
    pose proof (transitivity Hl1 Hl2) as Hl.
    destruct Hr as [(-> & Hv2)|(Hn & Hv2 & e & ->)].
    + rewrite (bind_ok _ _ _ _ _ E2). eexists _, _. split; [done|]. split; [done|].
      split; [by apply holds_compacted|]. left. exists d. split; [done|]. split; [done|].
      injection Hv2 as _ ->. unfold compacted. by rewrite bool_decide_eq_true_2.
    + rewrite (bind_err _ _ _ _ _ E2). eexists _, _. split; [done|]. split; [done|].
      split; [by eapply holds_view|]. right. split; [|by eauto].
      intros Hf. by apply Hn, (faultless_later w).
  - eexists _, _. split; [done|]. split; [done|]. split; [by eapply holds_view|]. left.
    exists d. split; [done|]. split; [done|]. injection Hv1 as _ ->.
    unfold compacted. by rewrite bool_decide_eq_false_2.
Qed.

(** *** The creating branch *)
Lemma init_doc cid :
  exists id d, transact (act_map_err (fun e => anyhow_of_lib (Automerge e))
      (reconcile_init {| init_chat_id := chat_id_to_string cid |})) new_doc = (Ok tt, d) /\
    objs d = {[ROOT := MapObj {["chat_id" := (Scalar (Str (chat_id_to_string cid)), id)]}]}.
Proof using Laws.
  destruct (reconcile_empty (begin_tx new_doc) (chat_id_to_string cid)) as (id & t & E & Ht).
  { rewrite begin_objs, new_doc_objs. unfold map_at. by rewrite lookup_singleton_eq. }
  destruct (transact_ok _ new_doc tt t (act_map_err_ok (fun e => anyhow_of_lib (Automerge e)) _ _ _ _ E))
    as (d & Ed & Hd & _).
  exists id, d. split; [done|]. rewrite Hd, Ht, begin_objs, new_doc_objs. apply insert_singleton_eq.
Qed.

Lemma create_spec cid w :
  bystanders (chat_id_to_string cid) w -> db_wf (store w) -> chats (store w) !! chat_id_to_string cid = None ->
  exists r w', create cid w = (r, w') /\ later w w' /\
    ((exists id d, r = Ok (Some (d, get_heads d)) /\
        objs d = {[ROOT := MapObj {["chat_id" := (Scalar (Str (chat_id_to_string cid)), id)]}]} /\
        holds_changes (chat_id_to_string cid) (changes d) (store w')) \/
     (~ faultless w /\ exists e, r = Err (Sqlx e))).
Proof using Laws.
  intros Hb Hwf Hnone. set (c := chat_id_to_string cid) in *.
  destruct (init_doc cid) as (id & d & Et & Hd). unfold create. rewrite Et. simpl map_err.
  rewrite (bind_ok _ _ w tt w) by done.
  unfold bind at 1. unfold stmt. destruct (next_weather w) as [wx rest] eqn:Enw.
  pose proof (next_weather_later _ _ _ (others wx (store w)) Enw) as Hl.
  destruct (fault wx) as [e|] eqn:Ef.
  { eexists _, _. split; [done|]. split; [done|]. right. split; [|by eauto].
    intros Hf. destruct (next_weather_faultless _ _ _ Hf Enw). congruence. }
  destruct (next_weather_kept _ _ _ _ (bystanders_view c (None, []) w Hb) Enw) as [Hwx _].
  destruct (Hwx (store w)) as [Hwf' [= Hnone' Hrows']].
  { split; [done|]. unfold chat_view. by rewrite Hnone, log_rows_no_chat. }
  pose proof (insert_or_ignore_chat_wf c (save d) _ Hwf') as Hwf''.
  unfold insert_or_ignore_chat in *. fold c. rewrite Hnone' in *. simpl in Hwf'' |- *.
  eexists _, _. split; [done|]. split; [exact Hl|]. left. exists id, d. split; [done|].
  split; [done|]. apply holds_compacted; [done|]. unfold chat_view. simpl.
  rewrite lookup_insert_eq. f_equal. rewrite log_rows_filter in Hrows' |- * by done. done.
Qed.

(** *** The loop *)
Lemma loop_present fuel cid cs w :
  bystanders (chat_id_to_string cid) w -> holds_changes (chat_id_to_string cid) cs (store w) ->
  exists r w', persisted_loop (S fuel) cid w = (r, w') /\ later w w' /\
    holds_changes (chat_id_to_string cid) cs (store w') /\
    ((exists d, r = Ok (Some (d, get_heads d)) /\ changes d = cs /\
        log_rows (chat_id_to_string cid) (store w') = compacted (log_rows (chat_id_to_string cid) (store w))) \/
     (~ faultless w /\ exists e, r = Err (Sqlx e))).
Proof using Laws.
  intros Hb (Hwf & document & d0 & Hdoc & Hload & Hrep). set (c := chat_id_to_string cid) in *.
  cbn [persisted_loop]. fold c.
  destruct (stmt_spec (fun d => db_wf d /\ chat_view c d = (Some document, log_rows c (store w)))
    (select_document c) (fun x _ => x = Some document) w) as (r & w1 & E1 & Hl1 & [Hwf1 Hv1] & Hr).
  { by apply bystanders_view. }
  { split; [done|]. unfold chat_view. by rewrite Hdoc. }
  { intros d [Hwfd Hvd]. eexists _, d. split; [done|]. split; [done|]. by injection Hvd. }
  destruct Hr as [(a & -> & ->)|[Hn [e ->]]].
  2: { rewrite (bind_err _ _ _ _ _ E1). eexists _, _. split; [done|].
       split; [done|]. split; [by eapply holds_view|]. right. eauto. }
  rewrite (bind_ok _ _ _ _ _ E1).
  destruct (restore_spec c document _ d0 cs w1 (bystanders_later _ _ _ Hl1 Hb) Hwf1 Hv1 Hload Hrep)
    as (r & w2 & E2 & Hl2 & Hh2 & Hr).
  pose proof (transitivity Hl1 Hl2) as Hl.
  destruct Hr as [(d & -> & Hd & Hlen)|[Hn [e ->]]].
  - rewrite (bind_ok _ _ _ _ _ E2). eexists _, _. split; [done|]. split; [done|].
    split; [done|]. left. eauto.
  - rewrite (bind_err _ _ _ _ _ E2). eexists _, _. split; [done|]. split; [done|].
    split; [done|]. right. split; [|by eauto]. intros Hf. by apply Hn, (faultless_later w).
Qed.

Lemma get_persisted_present cid cs w :
  bystanders (chat_id_to_string cid) w -> holds_changes (chat_id_to_string cid) cs (store w) ->
  exists r w', get_persisted_doc_state cid w = (r, w') /\ later w w' /\
    holds_changes (chat_id_to_string cid) cs (store w') /\
    ((exists d, r = Ok (d, get_heads d) /\ changes d = cs /\
        log_rows (chat_id_to_string cid) (store w') = compacted (log_rows (chat_id_to_string cid) (store w))) \/
     (~ faultless w /\ exists e, r = Err (Sqlx e))).
Proof using Laws.
  intros Hb Hh. destruct (loop_present (S (length (forecast w))) cid cs w Hb Hh)
    as (r & w' & E & Hl & Hh' & Hr).
  unfold get_persisted_doc_state, bind at 1, gets. destruct Hr as [(d & -> & Hd & Hlen)|[Hn [e ->]]].
  - rewrite (bind_ok _ _ _ _ _ E). eexists _, _. do 3 (split; [done|]). left. eauto.
  - rewrite (bind_err _ _ _ _ _ E). eexists _, _. do 3 (split; [done|]). right. eauto.
Qed.

Lemma get_persisted_absent cid w :
  bystanders (chat_id_to_string cid) w -> db_wf (store w) -> chats (store w) !! chat_id_to_string cid = None ->
  exists r w', get_persisted_doc_state cid w = (r, w') /\ later w w' /\
    ((exists id d, r = Ok (d, get_heads d) /\
        objs d = {[ROOT := MapObj {["chat_id" := (Scalar (Str (chat_id_to_string cid)), id)]}]} /\
        holds_changes (chat_id_to_string cid) (changes d) (store w')) \/
     (~ faultless w /\ exists e, r = Err (Sqlx e))).
Proof using Laws.
  intros Hb Hwf Hnone. set (c := chat_id_to_string cid) in *.
  unfold get_persisted_doc_state, bind at 1, gets. cbn [persisted_loop]. fold c.
  destruct (stmt_spec (fun d => db_wf d /\ chat_view c d = (None, []))
    (select_document c) (fun x _ => x = None) w) as (r & w1 & E1 & Hl1 & [Hwf1 Hv1] & Hr).
  { by apply bystanders_view. }
  { split; [done|]. unfold chat_view. by rewrite Hnone, log_rows_no_chat. }
  { intros d [Hwfd Hvd]. eexists _, d. split; [done|]. split; [done|]. by injection Hvd. }
  destruct Hr as [(a & -> & ->)|[Hn [e ->]]].
  2: { rewrite (bind_err _ _ _ _ _ (bind_err _ _ _ _ _ E1)). eexists _, _. split; [done|].
       split; [done|]. right. eauto. }
  rewrite bind_bind, (bind_ok _ _ _ _ _ E1).
  destruct (create_spec cid w1) as (r & w2 & E2 & Hl2 & Hr);
    [by eapply bystanders_later|done|by injection Hv1|].
  pose proof (transitivity Hl1 Hl2) as Hl.
  destruct Hr as [(id & d & -> & Hd & Hh)|[Hn [e ->]]].
  - rewrite bind_bind, (bind_ok _ _ _ _ _ E2). eexists _, _. split; [done|]. split; [done|].
    left. eauto.
  - rewrite bind_bind, (bind_err _ _ _ _ _ E2). eexists _, _. split; [done|]. split; [done|].
    right. split; [|by eauto]. intros Hf. by apply Hn, (faultless_later w).
Qed.

(** A round that runs into the race consumes two turns of the weather. *)
Lemma create_race cid w w' d :
  chats (store w) !! chat_id_to_string cid = None ->
  create cid w = (Ok (E := LibError) None, w') -> d = store w ->
  forecast w <> [] /\ forecast w' = tail (forecast w).
Proof.
  intros Hnone Hc ->. unfold create in Hc.
  destruct (transact _ new_doc) as [[[]|e|] d]; try discriminate.
  simpl map_err in Hc. rewrite (bind_ok _ _ w tt w) in Hc by done.
  apply bind_ok_inv in Hc as (n & w1 & Es & Hk).
  pose proof (stmt_forecast _ _ _ _ Es) as Hf. case_bool_decide as Hn; [done|].
  injection Hk as <-. split; [|done]. intros Hnil. apply Hn.
  unfold stmt, next_weather in Es. rewrite Hnil in Es. simpl in Es.
  unfold insert_or_ignore_chat in Es. rewrite Hnone in Es. by simplify_eq.
Qed.

Lemma persisted_loop_enough fuel cid w r w' :
  length (forecast w) < 2 * fuel -> persisted_loop fuel cid w = (r, w') -> r <> Ok None.
Proof.
  revert w. induction fuel as [|fuel IH]; intros w Hlen; [lia|]. cbn [persisted_loop].
  unfold bind at 1. destruct (stmt (select_document _) w) as [[a|e|] w1] eqn:E1; [|congruence..].
  pose proof (stmt_forecast _ _ _ _ E1) as Hf1. destruct a as [document|].
  { unfold bind. by destruct (restore _ _ w1) as [[]]; intros [= <- <-]. }
  assert (chats (store w1) !! chat_id_to_string cid = None) as Hnone.
  { unfold stmt in E1. destruct (next_weather w) as [wx rest]. destruct (fault wx); [done|].
    unfold select_document in E1. injection E1 as E1 <-. by simpl. }
  unfold bind at 1. destruct (create cid w1) as [[[x|]|e|] w2] eqn:E2; [by intros [= <- <-]| |congruence..].
  destruct (create_race _ _ _ _ Hnone E2 eq_refl) as [Hne Hf2]. apply IH.
  rewrite Hf2, Hf1. rewrite Hf1 in Hne. destruct (forecast w) as [|? [|? l]]; simpl in *; try done. lia.
Qed.

(** *** Writing *)

Lemma insert_holds cid ds d db :
  changes ds ⊆ changes d -> holds_changes cid (changes ds) db ->
  exists db', insert_log cid (save_after d (get_heads ds)) db = (Ok tt, db') /\
    holds_changes cid (changes d) db'.
Proof.
  intros Hsub (Hwf & document & d0 & Hdoc & Hload & Hrep).
  destruct (insert_log_ok cid (save_after d (get_heads ds)) db Hwf) as (db' & E & Hwf' & Hc & Hr & _);
    [by rewrite Hdoc|].
  exists db'. split; [done|]. split; [done|]. exists document, d0. rewrite Hc, Hr.
  split; [done|]. split; [done|]. rewrite fmap_app, concat_app.
  eapply replays_app; [done|]. simpl. rewrite app_nil_r. by apply replays_one.
Qed.

(** [persist_chat] writes what is new, whatever the weather: on success the database holds
    the whole document, on failure the invariant still says what is missing. *)
Lemma persist_chat_spec cs s :
  saved_prefix cs s ->
  exists r s', persist_chat s = (r, s') /\ saved_prefix cs s' /\ chat_id s'.1 = chat_id s.1 /\
    doc s'.1 = doc s.1 /\ later s.2 s'.2 /\
    ((r = Ok tt /\ all_saved s') \/ (~ faultless s.2 /\ exists e, r = Err (Sqlx e))).
Proof using Laws.
  destruct s as [r w]. intros [Hb (ds & Hheads & Hcs & Hsub & Hh)]. cbn [fst snd] in *.
  unfold persist_chat. unfold bind at 1 2, gets. cbn [fst snd]. rewrite Hheads.
  case_bool_decide as Hnil.
  - eexists _, (r, w). split; [done|]. split; [split; [done|]; by exists ds|].
    do 3 (split; [done|]). left. split; [done|]. unfold all_saved. cbn [fst snd].
    apply (save_after_empty ds (doc r) Hsub) in Hnil. by rewrite Hnil.
  - unfold repo_chat in *. set (c := chat_id_to_string (chat_id r)) in *. set (bs := save_after (doc r) (get_heads ds)) in *.
    destruct (stmt_effect (holds_changes c (changes ds)) (insert_log c bs)
      (fun _ => holds_changes c (changes (doc r))) w) as (o & w1 & E1 & Hl1 & Hr).
    { by apply bystanders_holds. }
    { done. }
    { intros d Hd. destruct (insert_holds c ds (doc r) d) as (d' & E & Hd'); eauto. }
    unfold bind, on_pool. fold c bs. rewrite E1. pose proof (bystanders_later _ _ _ Hl1 Hb) as Hb1.
    destruct Hr as [([] & -> & Hh1)|(Hn & Hh1 & e & ->)].
    + eexists _, (_, w1). split; [done|]. split; [split; [done|]; exists (doc r); split; [done|]; split; [by transitivity (changes ds)|done]|].
      do 3 (split; [done|]). by left.
    + eexists _, (r, w1). split; [done|]. split; [split; [done|]; by exists ds|].
      do 3 (split; [done|]). right. eauto.
Qed.

(** A refused write leaves the repository as it was. *)
Lemma persist_chat_fault s ds e :
  last_saved_heads s.1 = get_heads ds -> changes ds ⊆ changes (doc s.1) -> changes (doc s.1) <> changes ds ->
  fault (next_weather s.2).1 = Some e ->
  persist_chat s = (Err (Sqlx e),
    (s.1, {| store := others (next_weather s.2).1 (store s.2); forecast := (next_weather s.2).2 |})).
Proof using Laws.
  destruct s as [r w]. cbn [fst snd]. intros Hheads Hsub Hne He.
  unfold persist_chat. unfold bind at 1 2, gets. cbn [fst snd].
  rewrite bool_decide_eq_false_2 by (rewrite Hheads; intros Hnil; by apply (save_after_empty ds (doc r) Hsub) in Hnil).
  unfold bind, on_pool, stmt. destruct (next_weather w) as [wx rest]. cbn [fst snd] in *. by rewrite He.
Qed.

Lemma generate_sync_message_frame {E} s :
  exists m s', generate_sync_message (E := E) s = (Ok m, s') /\ s'.2 = s.2 /\
    chat_id s'.1 = chat_id s.1 /\ doc s'.1 = doc s.1 /\ last_saved_heads s'.1 = last_saved_heads s.1.
Proof. destruct s as [r w]. unfold generate_sync_message. destruct (sync_generate _ _). eauto 10. Qed.

(** [saved_prefix] and [all_saved] do not look at the synchronisation. *)
Lemma saved_prefix_frame cs s s' :
  s'.2 = s.2 -> chat_id s'.1 = chat_id s.1 -> changes (doc s.1) ⊆ changes (doc s'.1) ->
  last_saved_heads s'.1 = last_saved_heads s.1 -> saved_prefix cs s -> saved_prefix cs s'.
Proof.
  intros Hw Hc Hd Hh [Hb (ds & Hheads & Hcs & Hsub & Hholds)]. unfold saved_prefix, repo_chat in *.
  rewrite Hw, Hc, Hh. split; [done|]. exists ds. do 2 (split; [done|]). split; [by transitivity (changes (doc s.1))|done].
Qed.

Lemma all_saved_frame s s' :
  s'.2 = s.2 -> chat_id s'.1 = chat_id s.1 -> changes (doc s'.1) = changes (doc s.1) ->
  all_saved s -> all_saved s'.
Proof. unfold all_saved, repo_chat. by intros -> -> ->. Qed.

(** After a change of the document: persist, then answer. *)
Lemma persist_and_generate {A} cs s (k : option SyncMsg -> A) r s' :
  saved_prefix cs s ->
  (persist_chat ;;; m <- generate_sync_message ;; ret (k m)) s = (r, s') ->
  saved_prefix cs s' /\ chat_id s'.1 = chat_id s.1 /\ doc s'.1 = doc s.1 /\ later s.2 s'.2 /\
  (((exists a, r = Ok a) /\ all_saved s') \/ (~ faultless s.2 /\ exists e, r = Err (Sqlx e))).
Proof using Laws.
  intros Hs Hrun. destruct (persist_chat_spec cs s Hs) as (o & s1 & E1 & Hs1 & Hc1 & Hd1 & Hl1 & Ho).
  destruct Ho as [[-> Hall]|[Hn [e ->]]].
  - rewrite (bind_ok _ _ _ _ _ E1) in Hrun.
    destruct (generate_sync_message_frame (E := LibError) s1) as (m & s2 & E2 & Hw2 & Hc2 & Hd2 & Hh2).
    rewrite (bind_ok _ _ _ _ _ E2) in Hrun. injection Hrun as <- <-.
    rewrite Hc2, Hd2, Hw2. split; [by apply (saved_prefix_frame cs s1 s2); rewrite ?Hd2|].
    do 3 (split; [done|]). left. split; [eauto|]. by apply (all_saved_frame s1 s2); rewrite ?Hd2.
  - rewrite (bind_err _ _ _ _ _ E1) in Hrun. injection Hrun as <- <-. do 4 (split; [done|]). eauto.
Qed.

Definition message_of (r : Repo) (now : Z) (uuid : Uuid) (msg : ChatMessageContent) : ChatMessage :=
  {| msg_id := uuid_to_string uuid; sender_node_id := id_to_string (my_id (chat_id r));
     content := msg; created_at := now; updated_at := now |}.

(** [add_message] outside a panic: what is acknowledged is in the database. *)
Lemma add_message_durable cs now uuid msg s r s' :
  saved_prefix cs s -> add_message now uuid msg s = (r, s') ->
  saved_prefix cs s' /\ chat_id s'.1 = chat_id s.1 /\ later s.2 s'.2 /\
  changes (doc s.1) ⊆ changes (doc s'.1) /\ (is_ok r = true -> all_saved s').
Proof using Laws.
  destruct s as [rp w]. intros Hs. unfold add_message. unfold bind at 1, gets. cbn [fst snd].
  set (f := bind (ensure_peer_list _) _).
  unfold bind at 1, act_map_err, on_doc.
  destruct (f (begin_tx (doc rp))) as [[[]|e|] t] eqn:Ef.
  - destruct (transact_ok f (doc rp) tt t Ef) as (d & -> & Hd & Hsub). simpl map_err.
    intros Hrun.
    destruct (persist_and_generate cs (set_doc d rp, w)
      (fun m => (message_of rp now uuid msg, m)) r s') as (Hs' & Hc & Hdoc & Hl & Hr); [|done|].
    { by apply (saved_prefix_frame cs (rp, w)). }
    rewrite Hdoc. do 4 (split; [done|]). destruct Hr as [[_ ?]|[_ [e ->]]]; [done|done].
  - destruct (transact_err f (doc rp) e t Ef) as (n & d & -> & Hd). simpl map_err.
    intros [= <- <-]. split; [by apply (saved_prefix_frame cs (rp, w)); simpl; rewrite ?Hd|].
    simpl. rewrite Hd. by do 3 (split; [done|]).
  - destruct (transact_panic f (doc rp) t Ef) as (d & -> & Hd). simpl map_err.
    intros [= <- <-]. split; [by apply (saved_prefix_frame cs (rp, w)); simpl; rewrite ?Hd|].
    simpl. rewrite Hd. by do 3 (split; [done|]).
Qed.

Lemma receive_changes_durable cs m s r s' :
  saved_prefix cs s -> receive_changes m s = (r, s') ->
  saved_prefix cs s' /\ chat_id s'.1 = chat_id s.1 /\ later s.2 s'.2 /\
  changes (doc s.1) ⊆ changes (doc s'.1) /\ (is_ok r = true -> all_saved s').
Proof using Laws.
  destruct s as [rp w]. intros Hs. unfold receive_changes. unfold bind at 1.
  destruct (sync_receive m (doc rp, sync_state rp, patch_log_new true)) as [a [[d st] pl]] eqn:Er.
  pose proof (sync_receive_grows _ _ _ _ _ _ _ _ Er) as Hsub.
  set (s1 := (set_sync_state st (set_doc d rp), w)).
  assert (saved_prefix cs s1) as Hs1 by (by apply (saved_prefix_frame cs (rp, w))).
  destruct a as [[]|e|]; simpl map_ok.
  2,3: intros [= <- <-]; by do 4 (split; [done|]).
  destruct (persist_chat_spec cs s1 Hs1) as (o & s2 & E2 & Hs2 & Hc2 & Hd2 & Hl2 & Ho).
  destruct Ho as [[-> Hall]|[Hn [e ->]]].
  - rewrite (bind_ok _ _ _ _ _ E2). unfold bind, gets, reads. intros [= <- <-].
    rewrite Hd2. by do 4 (split; [done|]).
  - rewrite (bind_err _ _ _ _ _ E2). intros [= <- <-]. rewrite Hd2. by do 4 (split; [done|]).
Qed.

Lemma receive_sync_message_durable cs m s r s' :
  saved_prefix cs s -> receive_sync_message m s = (r, s') ->
  saved_prefix cs s' /\ chat_id s'.1 = chat_id s.1 /\ later s.2 s'.2 /\
  changes (doc s.1) ⊆ changes (doc s'.1) /\ (is_ok r = true -> m <> None -> all_saved s').
Proof using Laws.
  intros Hs. unfold receive_sync_message. destruct m as [m|].
  - destruct (receive_changes m s) as [r1 s1] eqn:E1.
    destruct (receive_changes_durable _ _ _ _ _ Hs E1) as (Hs1 & Hc1 & Hl1 & Hd1 & Hok).
    unfold bind at 1. rewrite E1. destruct r1 as [msgs|e|].
    2,3: intros [= <- <-]; by do 4 (split; [done|]).
    destruct (generate_sync_message_frame (E := LibError) s1) as (o & s2 & E2 & Hw2 & Hc2 & Hd2 & Hh2).
    rewrite (bind_ok _ _ _ _ _ E2). intros [= <- <-]. rewrite Hw2, Hc2, Hd2.
    split; [by apply (saved_prefix_frame cs s1 s2); rewrite ?Hd2|]. do 3 (split; [done|]).
    intros _ _. apply (all_saved_frame s1 s2); rewrite ?Hd2; auto.
  - unfold bind at 1, ret at 1.
    destruct (generate_sync_message_frame (E := LibError) s) as (o & s2 & E2 & Hw2 & Hc2 & Hd2 & Hh2).
    rewrite (bind_ok _ _ _ _ _ E2). intros [= <- <-]. rewrite Hw2, Hc2, Hd2.
    split; [by apply (saved_prefix_frame cs s s2); rewrite ?Hd2|]. by do 3 (split; [done|]).
Qed.

(** What was loaded from the database is a saved prefix. *)
Lemma loaded_saved_prefix cs r w d :
  bystanders (repo_chat r) w -> doc r = d -> last_saved_heads r = get_heads d -> cs ⊆ changes d ->
  holds_changes (repo_chat r) (changes d) (store w) -> saved_prefix cs (r, w) /\ all_saved (r, w).
Proof.
  intros Hb Hd Hh Hcs Hholds. unfold saved_prefix, all_saved. cbn [fst snd]. rewrite Hd, Hh.
  split; [|done]. split; [done|]. by exists d.
Qed.

Lemma reset_doc_state_durable cs s r s' :
  saved_prefix cs s -> reset_doc_state_to_persisted s = (r, s') ->
  saved_prefix cs s' /\ chat_id s'.1 = chat_id s.1 /\ later s.2 s'.2 /\
  ((r = Ok tt /\ all_saved s' /\ sync_state s'.1 = new_sync_state) \/
   (~ faultless s.2 /\ exists e, r = Err (Sqlx e))).
Proof using Laws.
  destruct s as [rp w]. intros [Hb (ds & Hheads & Hcs & Hsub & Hh)] Hrun. cbn [fst snd] in *.
  unfold reset_doc_state_to_persisted in Hrun. unfold bind at 1, gets in Hrun. cbn [fst snd] in Hrun.
  unfold repo_chat in *.
  destruct (get_persisted_present (chat_id rp) (changes ds) w Hb Hh) as (o & w1 & E1 & Hl1 & Hh1 & Ho).
  pose proof (bystanders_later _ _ _ Hl1 Hb) as Hb1.
  unfold bind at 1, on_pool in Hrun. rewrite E1 in Hrun.
  destruct Ho as [(d & -> & Hd & _)|[Hn [e ->]]]; injection Hrun as <- <-; cbn [fst snd].
  - destruct (loaded_saved_prefix cs (set_sync_state new_sync_state (set_heads (get_heads d) (set_doc d rp))) w1 d)
      as [Hp Ha]; try done; [by rewrite Hd..|].
    do 3 (split; [done|]). left. done.
  - split; [split; [done|by exists ds]|]. do 2 (split; [done|]). right. eauto.
Qed.

(** *** Runs of operations *)
Inductive repo_op :=
| OpAdd (now : Z) (uuid : Uuid) (msg : ChatMessageContent)
| OpReceive (m : option SyncMsg)
| OpGenerate
| OpResetDoc
| OpResetSync.

(** The whole state after an operation, and whether it was acknowledged with [Ok]. *)
Definition run_op (op : repo_op) (s : Repo * World Db) : bool * (Repo * World Db) :=
  match op with
  | OpAdd now uuid msg => let '(r, s') := add_message now uuid msg s in (is_ok r, s')
  | OpReceive m => let '(r, s') := receive_sync_message m s in (is_ok r, s')
  | OpGenerate => let '(r, s') := generate_sync_message (E := LibError) s in (is_ok r, s')
  | OpResetDoc => let '(r, s') := reset_doc_state_to_persisted s in (is_ok r, s')
  | OpResetSync => let '(r, s') := reset_sync_state (E := LibError) s in (is_ok r, s')
  end.

Definition run_ops (ops : list repo_op) (s : Repo * World Db) : Repo * World Db :=
  fold_left (fun s op => (run_op op s).2) ops s.

Lemma run_op_saved_prefix cs op s :
  saved_prefix cs s ->
  saved_prefix cs (run_op op s).2 /\ chat_id (run_op op s).2.1 = chat_id s.1 /\ later s.2 (run_op op s).2.2.
Proof using Laws.
  intros Hs. destruct op as [now uuid msg|m| | |]; simpl.
  - destruct (add_message now uuid msg s) as [r s'] eqn:E.
    by destruct (add_message_durable _ _ _ _ _ _ _ Hs E) as (? & ? & ? & _).
  - destruct (receive_sync_message m s) as [r s'] eqn:E.
    by destruct (receive_sync_message_durable _ _ _ _ _ Hs E) as (? & ? & ? & _).
  - destruct (generate_sync_message_frame (E := LibError) s) as (m & s' & -> & Hw & Hc & Hd & Hh).
    simpl. rewrite Hw, Hc. split; [|done]. apply (saved_prefix_frame cs s s'); rewrite ?Hd; done.
  - destruct (reset_doc_state_to_persisted s) as [r s'] eqn:E.
    by destruct (reset_doc_state_durable _ _ _ _ Hs E) as (? & ? & ? & _).
  - split; [|done]. by apply (saved_prefix_frame cs s).
Qed.

Lemma run_ops_saved_prefix cs ops s :
  saved_prefix cs s ->
  saved_prefix cs (run_ops ops s) /\ chat_id (run_ops ops s).1 = chat_id s.1 /\ later s.2 (run_ops ops s).2.
Proof using Laws.
  revert s. induction ops as [|op ops IH]; intros s Hs; [done|]. simpl.
  destruct (run_op_saved_prefix cs op s Hs) as (Hs1 & Hc1 & Hl1).
  destruct (IH _ Hs1) as (Hs2 & Hc2 & Hl2). split; [done|]. split; [by rewrite Hc2|].
  by etransitivity.
Qed.

(** *** What [add_message] does to the document *)
Definition said (me : string) (msg : ChatMessage) (h : history) : history :=
  <[me := default [] (h !! me) ++ [msg]]> h.

Lemma represents_unique o h h' : represents o h -> represents o h' -> h = h'.
Proof.
  assert (forall h h' p ms, represents o h -> represents o h' -> h !! p = Some ms -> h' !! p = Some ms) as Hle.
  { intros h1 h2 p ms [_ Hl1 _ _] [_ Hl2 Hn2 _] Hp.
    destruct (Hl1 p ms Hp) as (lid & Hlid & xs & Hxs & Hms).
    destruct (h2 !! p) as [ms'|] eqn:Ep; [|by rewrite Hn2 in Hlid].
    destruct (Hl2 p ms' Ep) as (lid' & Hlid' & xs' & Hxs' & Hms'). by simplify_eq. }
  intros H1 H2. apply map_eq. intros p. apply option_eq. intros ms. split; by apply Hle.
Qed.

Lemma said_changes me msg h : said me msg h <> h.
Proof.
  intros Heq. apply (f_equal (fun x => x !! me)) in Heq. unfold said in Heq.
  rewrite lookup_insert_eq in Heq. destruct (h !! me) as [ms|]; simplify_eq/=.
  apply (f_equal length) in Heq. rewrite length_app in Heq. simpl in Heq. lia.
Qed.

Lemma say_transaction d h me msg :
  represents (objs d) h ->
  exists d', transact (msgs_list <- ensure_peer_list me ;; append_message msgs_list msg) d = (Ok tt, d') /\
    represents (objs d') (said me msg h) /\ changes d ⊆ changes d' /\ changes d' <> changes d.
Proof using Laws.
  intros Hr. destruct (ensure_represents (view := tx_objs) (begin_tx d) h me) as (lid & t1 & E1 & Hlid & Hr1).
  { by rewrite begin_objs. }
  destruct (append_represents (view := tx_objs) t1 _ me lid (default [] (h !! me)) msg Hr1)
    as (t2 & E2 & Hr2); [by rewrite lookup_insert_eq|done|].
  rewrite insert_insert_eq in Hr2.
  destruct (transact_ok (msgs_list <- ensure_peer_list me ;; append_message msgs_list msg) d tt t2)
    as (d' & E & Hd' & Hsub).
  { by rewrite (bind_ok _ _ _ _ _ E1). }
  exists d'. rewrite Hd'. do 3 (split; [done|]). intros Heq.
  apply changes_objs in Heq. rewrite Hd' in Heq. rewrite Heq in Hr2.
  by apply (said_changes me msg h), (represents_unique (objs d)).
Qed.

(** The state after the document took the message. *)
Lemma add_message_doc now uuid msg s h :
  represents (objs (doc s.1)) h ->
  exists d', represents (objs d') (said (id_to_string (my_id (chat_id s.1))) (message_of s.1 now uuid msg) h) /\
    changes (doc s.1) ⊆ changes d' /\ changes d' <> changes (doc s.1) /\
    add_message now uuid msg s =
      (persist_chat ;;; m <- generate_sync_message ;; ret (message_of s.1 now uuid msg, m)) (set_doc d' s.1, s.2).
Proof using Laws.
  destruct s as [rp w]. intros Hr. cbn [fst snd] in *.
  destruct (say_transaction _ h (id_to_string (my_id (chat_id rp))) (message_of rp now uuid msg) Hr)
    as (d' & E & Hr' & Hsub & Hne).
  exists d'. do 3 (split; [done|]). unfold add_message. unfold bind at 1, gets. cbn [fst snd].
  fold (message_of rp now uuid msg). unfold bind at 1, act_map_err, on_doc. by rewrite E.
Qed.

(** In good weather the message is stored and the whole document with it. *)
Lemma add_then_all_saved cs now uuid msg s h :
  saved_prefix cs s -> faultless s.2 -> represents (objs (doc s.1)) h ->
  exists out s', add_message now uuid msg s = (Ok (message_of s.1 now uuid msg, out), s') /\
    represents (objs (doc s'.1))
      (said (id_to_string (my_id (chat_id s.1))) (message_of s.1 now uuid msg) h) /\
    all_saved s' /\ chat_id s'.1 = chat_id s.1 /\ later s.2 s'.2.
Proof using Laws.
  intros Hs Hf Hr. destruct (add_message_doc now uuid msg s h Hr) as (d' & Hr' & Hsub & _ & E).
  rewrite E. destruct (persist_chat_spec cs (set_doc d' s.1, s.2)) as (o & s1 & E1 & Hs1 & Hc1 & Hd1 & Hl1 & Ho).
  { by apply (saved_prefix_frame cs s). }
  destruct Ho as [[-> Hall]|[Hn _]]; [|done].
  destruct (generate_sync_message_frame (E := LibError) s1) as (m & s2 & E2 & Hw2 & Hc2 & Hd2 & Hh2).
  rewrite (bind_ok _ _ _ _ _ E1), (bind_ok _ _ _ _ _ E2). exists m, s2.
  split; [done|]. rewrite Hd2, Hd1. split; [done|].
  split; [by apply (all_saved_frame s1 s2); rewrite ?Hd2|]. rewrite Hc2, Hc1, Hw2. by split.
Qed.

(** C14. A message that [add_message] stores is appended to this peer's own list, every
    other list stays, the whole document is in the database when the call returns, and a
    repository opened from the database afterwards (compaction included) shows the same
    history. *)
Theorem add_then_restart cs now uuid msg s h :
  saved_prefix cs s -> faultless s.2 -> represents (objs (doc s.1)) h ->
  exists out s',
    add_message now uuid msg s = (Ok (message_of s.1 now uuid msg, out), s') /\
    represents (objs (doc s'.1))
      (said (id_to_string (my_id (chat_id s.1))) (message_of s.1 now uuid msg) h) /\
    all_saved s' /\
    exists r2 w2, new (chat_id s.1) s'.2 = (Ok r2, w2) /\
      represents (objs (doc r2))
        (said (id_to_string (my_id (chat_id s.1))) (message_of s.1 now uuid msg) h) /\
      length (log_rows (repo_chat s.1) (store w2)) <= CHAT_LOGS_LIMIT.
Proof using Laws.
  intros Hs Hf Hr. destruct (add_then_all_saved cs now uuid msg s h Hs Hf Hr)
    as (out & s' & E & Hr' & Hall & Hc & Hl).
  exists out, s'. do 3 (split; [done|]). unfold all_saved, repo_chat in *. rewrite Hc in Hall.
  destruct (get_persisted_present (chat_id s.1) (changes (doc s'.1)) s'.2) as (o & w2 & E3 & _ & Hh3 & Ho).
  { destruct Hs as [Hb _]. by apply (bystanders_later _ s.2). }
  { done. }
  destruct Ho as [(d2 & -> & Hd & Hlen)|[Hn _]].
  - unfold new. rewrite (bind_ok _ _ _ _ _ E3). eexists _, w2. split; [done|].
    cbn [doc fst]. rewrite (changes_objs _ _ Hd). split; [done|]. rewrite Hlen. apply compacted_length.
  - exfalso. by apply Hn, (faultless_later s.2).
Qed.

Lemma holds_changes_unique cid cs cs' d : holds_changes cid cs d -> holds_changes cid cs' d -> cs = cs'.
Proof using Laws.
  intros (_ & doc1 & d1 & H1 & L1 & R1) (_ & doc2 & d2 & H2 & L2 & R2).
  rewrite H1 in H2. simplify_eq. rewrite L1 in L2. simplify_eq.
  apply load_replays in R1 as (x & E1 & <-). apply load_replays in R2 as (y & E2 & <-).
  by rewrite E1 in E2; simplify_eq.
Qed.

Lemma all_saved_prefix cs s : saved_prefix cs s -> all_saved s -> saved_prefix (changes (doc s.1)) s.
Proof using Laws.
  intros [Hb (ds & Hheads & _ & Hsub & Hh)] Hall. split; [done|]. exists ds.
  by rewrite (holds_changes_unique _ _ _ _ Hall Hh) at 1.
Qed.

(** What the database is known to hold is in every repository opened from it. *)
Lemma saved_prefix_reload cs s w :
  saved_prefix cs s -> store w = store s.2 -> forecast w = [] ->
  exists r w', new (chat_id s.1) w = (Ok r, w') /\ cs ⊆ changes (doc r).
Proof using Laws.
  intros [_ (ds & _ & Hsub & _ & Hh)] Hstore Hcalm. unfold repo_chat in Hh. rewrite <- Hstore in Hh.
  destruct (get_persisted_present (chat_id s.1) (changes ds) w) as (o & w' & E & _ & _ & Ho); [|done|].
  { unfold bystanders. rewrite Hcalm. constructor. }
  destruct Ho as [(d & -> & Hd & _)|[Hn _]].
  - unfold new. rewrite (bind_ok _ _ _ _ _ E). eexists _, _. split; [done|]. cbn [doc fst]. by rewrite Hd.
  - exfalso. apply Hn. unfold faultless. rewrite Hcalm. constructor.
Qed.

(** C1. What a call acknowledged is never lost: whatever operations ran before, whatever
    runs afterwards (failing statements, failed transactions, resets, compactions and
    restarts of the synchronisation included), a repository opened from the database has
    all the changes the document had when [add_message] or the receipt of a sync message
    returned [Ok]. *)
Theorem acknowledged_never_lost s0 ops1 op s2 ops2 w :
  saved_prefix ∅ s0 ->
  match op with OpAdd _ _ _ | OpReceive (Some _) => True | _ => False end ->
  run_op op (run_ops ops1 s0) = (true, s2) ->
  store w = store (run_ops ops2 s2).2 -> forecast w = [] ->
  exists r w', new (chat_id s0.1) w = (Ok r, w') /\ changes (doc s2.1) ⊆ changes (doc r).
Proof using Laws.
  intros Hs0 Hop Hrun Hstore Hcalm.
  destruct (run_ops_saved_prefix ∅ ops1 s0 Hs0) as (Hs1 & Hc1 & _).
  set (s1 := run_ops ops1 s0) in *.
  destruct (run_op_saved_prefix ∅ op s1 Hs1) as (Hs2 & Hc2 & _). rewrite Hrun in Hs2, Hc2. simpl in Hs2, Hc2.
  assert (all_saved s2) as Hall.
  { destruct op as [now uuid msg|[m|]| | |]; try done; simpl in Hrun.
    - destruct (add_message now uuid msg s1) as [r s'] eqn:E. simplify_eq.
      destruct (add_message_durable ∅ now uuid msg s1 r s2 Hs1 E) as (_ & _ & _ & _ & Hok). auto.
    - destruct (receive_sync_message (Some m) s1) as [r s'] eqn:E. simplify_eq.
      destruct (receive_sync_message_durable ∅ (Some m) s1 r s2 Hs1 E) as (_ & _ & _ & _ & Hok). auto. }
  destruct (run_ops_saved_prefix _ ops2 s2 (all_saved_prefix _ _ Hs2 Hall)) as (Hs3 & Hc3 & _).
  destruct (saved_prefix_reload _ _ w Hs3 Hstore Hcalm) as (r & w' & E & Hsub).
  rewrite Hc3, Hc2, Hc1 in E. eauto.
Qed.

(** C36. When the database refuses the write, [add_message] returns the error, but the
    document has the message all the same: the database is as it was, and the next
    successful write of the repository stores the message after all. *)
Theorem failed_add_is_kept now uuid msg s h e :
  saved_prefix ∅ s -> represents (objs (doc s.1)) h -> fault (next_weather s.2).1 = Some e ->
  exists s',
    add_message now uuid msg s = (Err (Sqlx e), s') /\
    represents (objs (doc s'.1))
      (said (id_to_string (my_id (chat_id s.1))) (message_of s.1 now uuid msg) h) /\
    chat_view (repo_chat s.1) (store s'.2) = chat_view (repo_chat s.1) (store s.2) /\
    ~ all_saved s' /\
    forall s2, persist_chat s' = (Ok tt, s2) -> doc s2.1 = doc s'.1 /\ all_saved s2.
Proof using Laws.
  intros Hs Hr He. destruct (add_message_doc now uuid msg s h Hr) as (d' & Hr' & Hsub & Hne & E).
  rewrite E. clear E. destruct Hs as [Hb (ds & Hheads & _ & Hds & Hh)].
  assert (changes ds ⊆ changes d') as Hds' by (by transitivity (changes (doc s.1))).
  assert (changes d' <> changes ds) as Hnds.
  { intros Heq. apply Hne, (anti_symm (⊆)); [by rewrite Heq|done]. }
  pose proof (persist_chat_fault (set_doc d' s.1, s.2) ds e Hheads Hds' Hnds He) as E. cbn [fst snd] in E.
  rewrite (bind_err _ _ _ _ _ E). eexists. split; [done|]. split; [done|].
  destruct (next_weather s.2) as [wx rest] eqn:Enw. cbn [fst snd] in *.
  assert (later s.2 {| store := others wx (store s.2); forecast := rest |}) as Hl
    by (by eapply next_weather_later).
  assert (db_wf (others wx (store s.2)) /\
    chat_view (repo_chat s.1) (others wx (store s.2)) = chat_view (repo_chat s.1) (store s.2)) as [Hwf Hview].
  { destruct (next_weather_kept _ _ _ _ (bystanders_view _ (chat_view (repo_chat s.1) (store s.2)) _ Hb) Enw)
      as [Hwx _]. apply Hwx. split; [apply Hh|done]. }
  assert (holds_changes (repo_chat s.1) (changes ds) (others wx (store s.2))) as Hh'.
  { destruct Hh as (_ & document & d0 & Hdoc & Hload & Hrep). eapply holds_view; [done..|].
    rewrite Hview. unfold chat_view. by rewrite Hdoc. }
  split; [done|]. split.
  - intros Hall. apply Hne, (anti_symm (⊆)); [|done].
    pose proof (holds_changes_unique _ _ _ _ Hall Hh') as Heq. cbn [fst set_doc doc] in Heq. by rewrite Heq.
  - intros s2 E2. destruct (persist_chat_spec ∅ (set_doc d' s.1,
      {| store := others wx (store s.2); forecast := rest |})) as (o & s3 & E3 & _ & _ & Hd3 & _ & Ho).
    { split; [by eapply bystanders_later|]. exists ds. split; [done|]. split; [apply empty_subseteq|done]. }
    rewrite E2 in E3. simplify_eq. split; [done|]. by destruct Ho as [[_ ?]|[_ [e' ?]]].
Qed.

(** C12. Opening a stored chat reads back exactly the stored changes, whatever other chats'
    tasks write meanwhile; it leaves the stored changes as they are even when a statement
    or the compaction's transaction fails, fails only because of that, and leaves the log
    empty when it had more than [CHAT_LOGS_LIMIT] rows and as it was otherwise. *)
Theorem reload_is_exact cid cs w :
  bystanders (chat_id_to_string cid) w -> holds_changes (chat_id_to_string cid) cs (store w) ->
  exists r w', new cid w = (r, w') /\ holds_changes (chat_id_to_string cid) cs (store w') /\
    ((exists rp, r = Ok rp /\ changes (doc rp) = cs /\ saved_prefix cs (rp, w') /\
        log_rows (chat_id_to_string cid) (store w') = compacted (log_rows (chat_id_to_string cid) (store w))) \/
     (~ faultless w /\ exists e, r = Err (Sqlx e))).
Proof using Laws.
  intros Hb Hh. destruct (get_persisted_present cid cs w Hb Hh) as (r & w' & E & Hl & Hh' & Hr).
  unfold new. destruct Hr as [(d & -> & Hd & Hlen)|[Hn [e ->]]].
  - rewrite (bind_ok _ _ _ _ _ E). eexists _, _. split; [done|]. split; [done|]. left.
    eexists. split; [done|]. split; [done|]. split; [|done].
    apply (loaded_saved_prefix cs _ w' d); unfold repo_chat; cbn [doc chat_id last_saved_heads fst snd];
      rewrite ?Hd; try done. by eapply bystanders_later.
  - rewrite (bind_err _ _ _ _ _ E). eexists _, _. split; [done|]. split; [done|]. right. eauto.
Qed.

(** The retry loop of [get_persisted_doc_state] ends whatever other tasks do to the
    database (rows of this chat appearing and disappearing included): the fuel it is given
    never runs out, and more fuel changes nothing about that. *)
Theorem persisted_loop_total fuel cid w :
  S (S (length (forecast w))) <= fuel -> (persisted_loop fuel cid w).1 <> Ok None.
Proof using Laws.
  intros Hfuel. destruct (persisted_loop fuel cid w) as [r w'] eqn:E.
  apply (persisted_loop_enough fuel cid w r w'); [lia|done].
Qed.

(** C21. Two tasks that create the same chat at once end with the same document: the one
    whose INSERT was ignored retries and loads what the other one stored. *)
Theorem create_race_agrees cid d0 w rest :
  db_wf (store w) -> chats (store w) !! chat_id_to_string cid = None ->
  forecast w = calm :: {| others := fun db => (insert_or_ignore_chat (chat_id_to_string cid) (save d0) db).2;
                          fault := None |} :: rest ->
  bystanders (chat_id_to_string cid) {| store := store w; forecast := rest |} ->
  Forall (fun wx => fault wx = None) rest ->
  exists r w', new cid w = (Ok r, w') /\ changes (doc r) = changes d0 /\ objs (doc r) = objs d0 /\
    holds_changes (chat_id_to_string cid) (changes d0) (store w').
Proof using Laws.
  intros Hwf Hnone Hfc Hb Hf. set (c := chat_id_to_string cid) in *.
  set (db := (insert_or_ignore_chat c (save d0) (store w)).2).
  set (w2 := {| store := db; forecast := rest |}).
  assert (chats db !! c = Some (save d0)) as Hdb.
  { unfold db, insert_or_ignore_chat. rewrite Hnone. simpl. apply lookup_insert_eq. }
  assert (holds_changes c (changes d0) (store w2)) as Hh.
  { pose proof (insert_or_ignore_chat_wf c (save d0) _ Hwf) as Hwf'. apply holds_compacted; [done|].
    unfold chat_view. simpl. rewrite Hdb. f_equal. pose proof (log_rows_no_chat _ _ Hwf Hnone) as Hr.
    rewrite log_rows_filter in Hr |- * by done. unfold db, insert_or_ignore_chat in *. by rewrite Hnone in *. }
  destruct (loop_present (S (S (length rest))) cid (changes d0) w2 Hb Hh) as (r & w' & E & _ & Hh' & Hr).
  destruct Hr as [(d & -> & Hd & _)|[Hn _]]; [|done].
  destruct (init_doc cid) as (id & di & Et & _).
  assert (create cid {| store := store w; forecast := tail (forecast w) |} = (Ok None, w2)) as Ec.
  { unfold create. rewrite Et. simpl map_err. rewrite (bind_ok _ _ _ tt _) by done.
    rewrite Hfc. unfold bind, stmt, next_weather. simpl. fold c db.
    unfold insert_or_ignore_chat at 1. by rewrite Hdb. }
  unfold new. exists {| chat_id := cid; doc := d; sync_state := new_sync_state; last_saved_heads := get_heads d;
    sync_status := false; status_version := 0 |}, w'.
  split; [|split; [done|split; [by apply changes_objs|done]]].
  assert (stmt (select_document c) w = (Ok None, {| store := store w; forecast := tail (forecast w) |})) as Es.
  { unfold stmt, next_weather, select_document. rewrite Hfc. simpl. by rewrite Hnone. }
  assert (persisted_loop (S (S (length (forecast w)))) cid w = (Ok (Some (d, get_heads d)), w')) as EL.
  { rewrite Hfc at 1. cbn [length]. remember (S (S (S (length rest)))) as n. cbn [persisted_loop]. fold c.
    rewrite (bind_ok _ _ _ _ _ Es), (bind_ok _ _ _ _ _ Ec). subst n. exact E. }
  unfold get_persisted_doc_state. rewrite bind_bind. unfold bind at 1, gets.
  rewrite bind_bind. by rewrite (bind_ok _ _ _ _ _ EL).
Qed.

Lemma represents_init id s : represents {[ROOT := MapObj {["chat_id" := (Scalar (Str s), id)]}]} ∅.
Proof.
  assert (forall p, peer_list_at {[ROOT := MapObj {["chat_id" := (Scalar (Str s), id)]}]} p = None) as Hnone.
  { intros p. unfold peer_list_at, map_at. rewrite lookup_singleton_eq. simpl.
    rewrite lookup_singleton_ne; [done|]. by unfold peer_list_key, keys.LIST_PREFIX. }
  split.
  - unfold map_at. rewrite lookup_singleton_eq. eauto.
  - intros p ms. by rewrite lookup_empty.
  - auto.
  - intros p p' lid. by rewrite Hnone.
Qed.

(** Opening a chat the database does not know. *)
Lemma new_chat_spec cid w :
  bystanders (chat_id_to_string cid) w -> db_wf (store w) ->
  chats (store w) !! chat_id_to_string cid = None -> faultless w ->
  exists r w', new cid w = (Ok r, w') /\ chat_id r = cid /\ later w w' /\
    represents (objs (doc r)) ∅ /\ saved_prefix ∅ (r, w') /\ all_saved (r, w').
Proof using Laws.
  intros Hb Hwf Hnone Hf. destruct (get_persisted_absent cid w Hb Hwf Hnone) as (o & w' & E & Hl & Ho).
  destruct Ho as [(id & d & -> & Hd & Hh)|[Hn _]]; [|done].
  unfold new. rewrite (bind_ok _ _ _ _ _ E). eexists _, w'. split; [done|]. split; [done|]. split; [done|].
  cbn [doc fst snd]. split; [rewrite Hd; apply represents_init|].
  apply (loaded_saved_prefix ∅ _ w' d); try done. by eapply bystanders_later.
Qed.
End Durability.

(** ** Reading messages *)
Section Reading.
Context {Ids : EndpointIds} {Us : Uuids} {OI : ObjIds} {AM : Automerges} {V : DocViews AM}
  {Laws : AutomergeLaws AM V}.

Lemma hydrate_range_spec r lid ms i n :
  list_holds (objs (doc r)) lid ms -> i + n <= length ms ->
  hydrate_range r lid (seq i n) = Ok (take n (drop i ms)).
Proof using Laws.
  intros (xs & Hxs & Hms). apply mapM_Some in Hms. revert i. induction n as [|n IH]; intros i Hi; [done|].
  destruct (lookup_lt_is_Some_2 ms i) as [m Hm]; [lia|].
  destruct (Forall2_lookup_r _ _ _ _ _ Hms Hm) as (e & He & Hread).
  cbn [seq hydrate_range]. unfold hydrate_message_at_index.
  rewrite (hydrate_element (doc r) lid xs i e m Hxs He Hread). simpl. rewrite IH by lia. simpl.
  by rewrite (drop_S ms m i Hm).
Qed.

Lemma fetch_candidates_spec r depth ls hs :
  (0 <= depth)%Z ->
  Forall2 (fun l (ph : string * list ChatMessage) => list_holds (objs (doc r)) (inner l) ph.2) ls hs ->
  fetch_candidates r depth ls = Ok (concat (lastn (Z.to_nat depth) <$> hs.*2)).
Proof using Laws.
  intros Hd. induction 1 as [|l [p ms] ls hs Hh Hls IH]; [done|]. simpl in Hh.
  pose proof Hh as (xs & Hxs & Hms). pose proof (Forall2_length _ _ _ (proj1 (mapM_Some _ _ _) Hms)) as Hlen.
  cbn [fetch_candidates]. unfold list_len. rewrite (length_list (doc r) (inner l) xs Hxs), Hlen, IH.
  rewrite !fmap_cons. cbn [snd]. rewrite concat_cons. unfold saturating_sub, lastn.
  case_bool_decide as Hnil.
  - destruct ms; [by rewrite drop_nil|]. simpl in Hnil. lia.
  - rewrite (hydrate_range_spec r (inner l) ms) by (done || lia). simpl. do 2 f_equal.
    rewrite take_ge by (rewrite length_drop; lia). f_equal. lia.
Qed.

(** What [get_messages] computes, on a chat document and without overflow. *)
Lemma get_messages_spec r h :
  represents (objs (doc r)) h ->
  exists hs, hs ≡ₚ map_to_list h /\
    forall overflow_checks offset limit, usize offset -> usize limit ->
      get_messages overflow_checks r offset limit =
        (let? depth := usize_add overflow_checks offset limit in
         Ok (page (Z.to_nat offset) (Z.to_nat limit)
               (sort_by msg_leb (concat (lastn (Z.to_nat depth) <$> hs.*2))))).
Proof using Laws.
  intros Hr. destruct (get_all_peer_lists_spec (view := objs) (doc r) h Hr) as (ls & hs & E & Hhs & Hls).
  exists hs. split; [done|]. intros oc offset limit Ho Hl. unfold usize, usize_max in *.
  unfold get_messages. rewrite E. simpl. unfold usize_add.
  assert (forall depth, (0 <= depth)%Z ->
    (let? found := fetch_candidates r depth ls in
     let candidates := sort_by msg_leb found in
     let total := Z.of_nat (length candidates) in
     let end_ := saturating_sub total offset in
     let start := saturating_sub end_ limit in
     if bool_decide (end_ <= start)%Z then Ok []
     else Ok (take (Z.to_nat (end_ - start)) (drop (Z.to_nat start) candidates))) =
    Ok (E := LibError) (page (Z.to_nat offset) (Z.to_nat limit)
          (sort_by msg_leb (concat (lastn (Z.to_nat depth) <$> hs.*2))))) as Hdepth.
  { intros depth Hdepth. rewrite (fetch_candidates_spec r depth ls hs Hdepth Hls). cbn [obind].
    set (c := sort_by msg_leb _). rewrite page_slice. unfold saturating_sub. cbv zeta.
    case_bool_decide as Hcmp.
    - replace (length c - Z.to_nat offset - (length c - Z.to_nat offset - Z.to_nat limit)) with 0 by lia.
      by rewrite take_0.
    - do 2 f_equal; [lia|]. f_equal. lia. }
  case_bool_decide; cbn [obind]; [apply Hdepth; lia|]. destruct oc; cbn [obind]; [done|].
  apply Hdepth. apply Z.mod_pos_bound. lia.
Qed.

(** The pages of a chat whose lists are in order. *)
Lemma pagination_spec r h :
  represents (objs (doc r)) h -> (forall p ms, h !! p = Some ms -> sorted_by msg_leb ms) ->
  exists full, full ≡ₚ concat (map_to_list h).*2 /\ sorted_by msg_leb full /\
    (forall overflow_checks offset limit, usize offset -> usize limit -> (offset + limit <= usize_max)%Z ->
      get_messages overflow_checks r offset limit = Ok (page (Z.to_nat offset) (Z.to_nat limit) full)) /\
    (forall overflow_checks, (Z.of_nat (length full) < usize_max)%Z ->
      get_all_messages overflow_checks r = Ok full).
Proof using Laws.
  intros Hr Hsorted. destruct (get_messages_spec r h Hr) as (hs & Hhs & Hget).
  exists (sort_by msg_leb (concat hs.*2)). split.
  { rewrite sort_by_Permutation. by rewrite Hhs. }
  split; [apply sort_by_sorted; [apply msg_leb_total|apply msg_leb_trans]|].
  assert (forall overflow_checks offset limit, usize offset -> usize limit -> (offset + limit <= usize_max)%Z ->
    get_messages overflow_checks r offset limit =
      Ok (page (Z.to_nat offset) (Z.to_nat limit) (sort_by msg_leb (concat hs.*2)))) as Hpage.
  { intros oc offset limit Ho Hl Hno. rewrite Hget by done. unfold usize_add, usize in *.
    rewrite bool_decide_eq_true_2 by done. simpl. f_equal. apply page_lastn.
    rewrite <- Z2Nat.inj_add by lia.
    symmetry. apply (lastn_sort_by_concat msg_leb msg_leb_total msg_leb_trans _ []).
    apply Forall_fmap, Forall_forall. intros [p ms] Hin. rewrite Hhs in Hin.
    apply elem_of_map_to_list in Hin. by apply (Hsorted p). }
  split; [done|]. intros oc Hlen. unfold get_all_messages.
  rewrite Hpage by (unfold usize, usize_max; lia). f_equal. apply page_all.
  unfold usize_max in *. lia.
Qed.

(** C10. Pagination: when every peer's list is in order, the pages [get_messages] serves
    are those of one sorted history of all messages, counted from its end, although it
    only reads the last [offset + limit] messages of each list; [get_all_messages] is that
    history. *)
Theorem pagination_correct r h :
  represents (objs (doc r)) h -> (forall p ms, h !! p = Some ms -> sorted_by msg_leb ms) ->
  exists full, full ≡ₚ concat (map_to_list h).*2 /\ sorted_by msg_leb full /\
    (forall overflow_checks offset limit, usize offset -> usize limit -> (offset + limit <= usize_max)%Z ->
      get_messages overflow_checks r offset limit = Ok (page (Z.to_nat offset) (Z.to_nat limit) full)) /\
    (forall overflow_checks, (Z.of_nat (length full) < usize_max)%Z ->
      get_all_messages overflow_checks r = Ok full).
Proof using Laws. apply pagination_spec. Qed.

(** [offset + limit] beyond [usize::MAX] panics in a build with overflow checks; in a
    release build the depth wraps around, and a request whose sum is exactly [2^64] is
    answered with no message at all. *)
Theorem get_messages_overflow r h offset limit :
  represents (objs (doc r)) h -> usize offset -> usize limit -> (usize_max < offset + limit)%Z ->
  get_messages true r offset limit = Panic /\
  ((offset + limit = 2 ^ 64)%Z -> get_messages false r offset limit = Ok []).
Proof using Laws.
  intros Hr Ho Hl Hov. destruct (get_messages_spec r h Hr) as (hs & _ & Hget).
  rewrite !Hget by done. unfold usize_add. rewrite !bool_decide_eq_false_2 by lia. split; [done|].
  intros ->. rewrite Z_mod_same_full. cbn [obind]. f_equal. change (Z.to_nat 0) with 0.
  assert (concat (lastn 0 <$> hs.*2) = []) as ->; [|unfold page; cbn [sort_by]; by rewrite reverse_nil, drop_nil, take_nil, reverse_nil].
  clear Hget. induction hs as [|ph hs IH]; [done|]. rewrite !fmap_cons, concat_cons, lastn_0. exact IH.
Qed.

(** C40. Pages need every list in order: two messages of one millisecond, the later one with
    the smaller id, make the one-message pages 0 and 1 show the same message twice and the
    other one not at all. *)
Theorem unordered_list_repeats r me a b overflow_checks :
  represents (objs (doc r)) {[me := [b; a]]} -> msg_leb b a = false ->
  get_messages overflow_checks r 0 1 = Ok [a] /\ get_messages overflow_checks r 1 1 = Ok [a] /\
  get_all_messages overflow_checks r = Ok [a; b].
Proof using Laws.
  intros Hr Hab. destruct (get_messages_spec r _ Hr) as (hs & Hhs & Hget).
  rewrite map_to_list_singleton in Hhs. apply Permutation_singleton_r in Hhs. subst hs.
  unfold get_all_messages. rewrite !Hget by (unfold usize, usize_max; lia).
  pose proof (leb_false_flip msg_leb msg_leb_total _ _ Hab) as Hba.
  unfold usize_add. rewrite !bool_decide_eq_true_2 by (unfold usize_max; lia). cbn [obind].
  split_and!; [done|f_equal..].
  - simpl. by rewrite Hab.
  - cbn [fmap list_fmap snd concat]. rewrite lastn_all, app_nil_r by (unfold usize_max; simpl; lia).
    simpl sort_by. rewrite Hab. apply page_all. unfold usize_max. simpl. lia.
Qed.

(** *** Patches *)

(** The list position a patch is about, if it lies inside a message list. *)
Definition patch_target (p : Patch) : option (string * nat) :=
  match path p with
  | (_, PMap key) :: (_, PSeq index) :: _ =>
      peer ← Schema.strip_prefix keys.LIST_PREFIX key; Some (peer, index)
  | _ => None
  end.

Definition patch_message (h : history) (p : Patch) : option ChatMessage :=
  '(peer, index) ← patch_target p; ms ← h !! peer; ms !! index.

(** The index of a patch inside a known list is one of the list's. *)
Definition in_range (h : history) (p : Patch) : Prop :=
  forall peer index ms, patch_target p = Some (peer, index) -> h !! peer = Some ms -> index < length ms.

Lemma extract_loop_spec r h patches :
  represents (objs (doc r)) h -> Forall (in_range h) patches ->
  extract_loop r patches = Ok (omap (patch_message h) patches).
Proof using Laws.
  intros Hr. induction 1 as [|p patches Hp Hps IH]; [done|]. cbn [extract_loop omap list_omap].
  rewrite IH. clear IH. unfold patch_message, in_range, patch_target in *.
  destruct (path p) as [|[? [key|]] [|[? [|index]] rest]]; try done.
  destruct (Schema.strip_prefix keys.LIST_PREFIX key) as [peer|]; [|done]. cbn [mbind option_bind].
  rewrite (get_peer_list_spec (doc r) h peer Hr). destruct (Hr) as [_ Hlist Hnone _].
  destruct (h !! peer) as [ms|] eqn:Eh.
  - destruct (Hlist peer ms Eh) as (lid & -> & Hh). cbn [fmap option_fmap option_map obind inner].
    pose proof (Hp peer index ms eq_refl Eh) as Hi. destruct (lookup_lt_is_Some_2 _ _ Hi) as [m Hm].
    pose proof (hydrate_range_spec r lid ms index 1 Hh ltac:(lia)) as Hone.
    rewrite (drop_S _ _ _ Hm) in Hone. cbn in Hone.
    destruct (hydrate_message_at_index r lid index) as [m'|e|]; try done. cbn in Hone |- *.
    rewrite Hm. by simplify_eq.
  - rewrite (Hnone peer Eh). done.
Qed.

(** The messages a received sync message is reported to bring are one per patch that
    lies inside a message, in the order of their timestamps: a message touched by several
    patches (one per field when it is new) is reported as often. *)
Theorem extract_one_per_patch r h patches :
  represents (objs (doc r)) h -> Forall (in_range h) patches ->
  exists msgs, extract_new_messages_from_patches r patches = Ok msgs /\
    msgs ≡ₚ omap (patch_message h) patches /\ sorted_by created_leb msgs /\
    (forall m, count_occ (decide_rel (=)) msgs m =
               length (filter (fun p => patch_message h p = Some m) patches)).
Proof using Laws.
  intros Hr Hp. unfold extract_new_messages_from_patches. rewrite (extract_loop_spec r h _ Hr Hp). simpl.
  eexists. split; [done|]. split; [apply sort_by_Permutation|].
  split; [apply sort_by_sorted; [apply created_leb_total|apply created_leb_trans]|].
  intros m. rewrite (proj1 (Permutation_count_occ _ _ _) (sort_by_Permutation created_leb _)).
  clear. induction patches as [|p patches IH]; [done|]. cbn [omap list_omap]. rewrite filter_cons.
  destruct (patch_message h p) as [m'|] eqn:E.
  - simpl. destruct (decide_rel _ m' m) as [->|Hne], (decide (Some _ = Some _)); simplify_eq/=; auto.
  - destruct (decide (None = Some m)); [done|]. apply IH.
Qed.

Lemma persist_chat_status s r s' :
  persist_chat s = (r, s') ->
  sync_status s'.1 = sync_status s.1 /\ status_version s'.1 = status_version s.1.
Proof.
  destruct s as [rp w]. unfold persist_chat. unfold bind at 1 2, gets. cbn [fst snd].
  case_bool_decide; [by intros [= <- <-]|]. unfold bind, on_pool.
  destruct (stmt _ w) as [[[]|e|] w']; by intros [= <- <-].
Qed.

Lemma receive_changes_status m s r s' :
  receive_changes m s = (r, s') ->
  sync_status s'.1 = sync_status s.1 /\ status_version s'.1 = status_version s.1.
Proof.
  destruct s as [rp w]. unfold receive_changes, bind at 1.
  destruct (sync_receive _ _) as [a [[d st] pl]]. destruct a as [[]|e|]; simpl map_ok; [|by intros [= <- <-]..].
  unfold bind at 1. destruct (persist_chat _) as [[[]|e|] s1] eqn:E1;
    destruct (persist_chat_status _ _ _ E1) as [H1 H2]; intros [= <- <-]; by rewrite H1, H2.
Qed.

(** The exchange of sync messages: a received message is always answered (with [None]
    when nothing is left to say); after a received [None] the document stays, nothing new is
    reported, and a peer that has nothing to say stays silent, so two silent peers stop.
    The published status is whether there was nothing to say, and it is announced exactly
    when it changes. *)
Theorem reply_rule m s msgs reply s' :
  receive_sync_message m s = (Ok (msgs, reply), s') ->
  sync_status s'.1 = match reply with Some (Some _) => false | _ => true end /\
  (sync_status s'.1 = sync_status s.1 <-> status_version s'.1 = status_version s.1) /\
  match m with
  | Some _ => reply <> None
  | None => msgs = [] /\ doc s'.1 = doc s.1 /\ s'.2 = s.2 /\
      reply = Some <$> (sync_generate (doc s.1) (sync_state s.1)).1
  end.
Proof.
  unfold receive_sync_message. intros Hrun.
  destruct (match m with Some m0 => receive_changes m0 | None => ret [] end s) as [r1 s1] eqn:E1.
  assert (sync_status s1.1 = sync_status s.1 /\ status_version s1.1 = status_version s.1) as [Hst Hv].
  { destruct m as [m|]; [by eapply receive_changes_status|]. by injection E1 as _ <-. }
  destruct r1 as [msgs1|e|]; [|by rewrite (bind_err _ _ _ _ _ E1) in Hrun|by rewrite (bind_panic _ _ _ _ E1) in Hrun].
  rewrite (bind_ok _ _ _ _ _ E1) in Hrun. destruct s1 as [rp1 w1]. cbn [fst snd] in *.
  unfold bind, generate_sync_message in Hrun.
  destruct (sync_generate (doc rp1) (sync_state rp1)) as [out st] eqn:Eg.
  injection Hrun as <- <- <-. cbn [fst snd sync_status status_version doc].
  split; [by destruct m, out|]. split.
  { rewrite <- Hst, <- Hv. destruct (sync_status rp1), out; simpl; split; try done; lia. }
  destruct m as [m|]; [done|]. unfold ret in E1. simplify_eq. cbn [fst snd]. rewrite Eg. by destruct out.
Qed.
End Reading.
End ChatRepository.

(** ** The theorems at a concrete chat *)
Module ChatRepositorySamples.
Import Concrete ToyDoc ChatRepository.

Definition cid : ChatId := {| my_id := (0 : @EndpointId keys); remote_peer := (1 : @EndpointId keys) |}.
Definition me : string := "z".
Definition quiet (d : Db) : World Db := {| store := d; forecast := [] |}.
Definition msg_a : ChatMessage := message_of {| chat_id := cid; doc := new_doc; sync_state := new_sync_state;
  last_saved_heads := []; sync_status := false; status_version := 0 |} 5 (0 : @Uuid uuids) (Text "a").
Definition msg_b : ChatMessage := {| msg_id := "zz"; sender_node_id := "z"; content := Text "b";
  created_at := 5; updated_at := 5 |}.

Lemma empty_db_wf : db_wf empty_db.
Proof. repeat constructor. Qed.

Lemma quiet_bystanders c d : bystanders c (quiet d).
Proof. constructor. Qed.

(** The chat just opened on an empty database. *)
Lemma opened :
  exists r w, new cid (quiet empty_db) = (Ok r, w) /\ chat_id r = cid /\ forecast w = [] /\
    represents (objs (doc r)) ∅ /\ saved_prefix ∅ (r, w) /\ all_saved (r, w).
Proof.
  destruct (new_chat_spec cid (quiet empty_db)) as (r & w & E & Hc & [n Hn] & Hr & Hs & Ha);
    [apply quiet_bystanders|apply empty_db_wf|done|constructor|].
  exists r, w. split; [done|]. split; [done|]. split; [|done]. rewrite Hn. apply drop_nil.
Qed.

Lemma add_then_restart_witness :
  exists s out s', saved_prefix ∅ s /\ faultless s.2 /\ represents (objs (doc s.1)) ∅ /\
    add_message 5 (0 : @Uuid uuids) (Text "a") s = (Ok (msg_a, out), s') /\
    exists r2 w2, new cid s'.2 = (Ok r2, w2) /\ represents (objs (doc r2)) (said me msg_a ∅).
Proof.
  destruct opened as (r & w & E & Hc & Hf & Hr & Hs & _).
  assert (faultless w) as Hfl by (unfold faultless; rewrite Hf; constructor).
  destruct (add_then_restart ∅ 5 (0 : @Uuid uuids) (Text "a") (r, w) ∅ Hs Hfl Hr)
    as (out & s' & E1 & _ & _ & r2 & w2 & E2 & Hr2 & _).
  cbn [fst snd] in *. unfold message_of in E1, Hr2. rewrite Hc in E1, E2, Hr2.
  exists (r, w), out, s'. do 4 (split; [done|]). eauto.
Defined.

(** Opened on a pool whose next statement fails. *)
Lemma opened_faulty :
  exists r w, chat_id r = cid /\ represents (objs (doc r)) ∅ /\ saved_prefix ∅ (r, w) /\
    fault (next_weather w).1 = Some "disk full" /\ (next_weather w).2 = [].
Proof.
  destruct opened as (r & w & E & Hc & Hf & Hr & [Hb Hds] & _).
  exists r, {| store := store w; forecast := [ {| others := id; fault := Some "disk full" |} ] |}.
  do 2 (split; [done|]). split; [|done]. split; [|done].
  apply Forall_singleton. intros d Hd. by split.
Qed.

Lemma failed_add_is_kept_witness :
  exists s s', saved_prefix ∅ s /\ represents (objs (doc s.1)) ∅ /\
    add_message 5 (0 : @Uuid uuids) (Text "a") s = (Err (Sqlx "disk full"), s') /\
    represents (objs (doc s'.1)) (said me msg_a ∅) /\ ~ all_saved s'.
Proof.
  destruct opened_faulty as (r & w & Hc & Hr & Hs & Hf & _).
  destruct (failed_add_is_kept 5 (0 : @Uuid uuids) (Text "a") (r, w) ∅ "disk full" Hs Hr Hf)
    as (s' & E & Hr' & _ & Hn & _).
  cbn [fst snd] in *. unfold message_of in Hr'. rewrite Hc in Hr'.
  exists (r, w), s'. by do 4 (split; [done|]).
Defined.

Lemma acknowledged_never_lost_witness :
  exists s0 s2 r w', saved_prefix ∅ s0 /\
    run_op (OpAdd 5 (0 : @Uuid uuids) (Text "a")) s0 = (true, s2) /\
    new cid (quiet (store (run_ops [OpResetDoc; OpGenerate] s2).2)) = (Ok r, w') /\
    changes (doc s2.1) ⊆ changes (doc r).
Proof.
  destruct opened as (rp & w & E & Hc & Hf & Hr & Hs & _).
  destruct (add_message_doc 5 (0 : @Uuid uuids) (Text "a") (rp, w) ∅ Hr) as (d' & _ & Hsub & _ & Ea).
  destruct (persist_and_generate ∅ (set_doc d' rp, w)
    (fun m => (message_of rp 5 (0 : @Uuid uuids) (Text "a"), m))
    (add_message 5 (0 : @Uuid uuids) (Text "a") (rp, w)).1
    (add_message 5 (0 : @Uuid uuids) (Text "a") (rp, w)).2) as (_ & _ & _ & _ & Hok).
  { by apply (saved_prefix_frame ∅ (rp, w)). }
  { rewrite Ea. by destruct (bind _ _ _). }
  destruct Hok as [[[a Ha] _]|[Hn _]].
  2: { exfalso. apply Hn. unfold faultless. simpl. rewrite Hf. constructor. }
  set (s2 := (add_message 5 (0 : @Uuid uuids) (Text "a") (rp, w)).2).
  assert (run_op (OpAdd 5 (0 : @Uuid uuids) (Text "a")) (rp, w) = (true, s2)) as Hrun.
  { unfold s2. simpl. destruct (add_message _ _ _ _) as [o s']. cbn [fst snd] in *. by subst o. }
  destruct (acknowledged_never_lost (rp, w) [] (OpAdd 5 (0 : @Uuid uuids) (Text "a")) s2
    [OpResetDoc; OpGenerate] (quiet (store (run_ops [OpResetDoc; OpGenerate] s2).2)) Hs I Hrun eq_refl eq_refl)
    as (r & w' & E' & Hsub').
  cbn [fst] in E'. rewrite Hc in E'. exists (rp, w), s2, r, w'. by do 3 (split; [done|]).
Defined.

Lemma reload_is_exact_witness :
  exists cs w r w', holds_changes (chat_id_to_string cid) cs (store w) /\ new cid w = (Ok r, w') /\
    changes (doc r) = cs.
Proof.
  destruct opened as (rp & w & E & Hc & Hf & Hr & Hs & Hall).
  unfold all_saved, repo_chat in Hall. cbn [fst snd] in Hall. rewrite Hc in Hall.
  destruct (reload_is_exact cid (changes (doc rp)) (quiet (store w)) (quiet_bystanders _ _) Hall)
    as (r & w' & E' & _ & [(rp' & -> & Hd & _)|[Hn _]]).
  - exists (changes (doc rp)), (quiet (store w)), rp', w'. by do 2 (split; [done|]).
  - exfalso. apply Hn. constructor.
Defined.

Lemma persisted_loop_total_witness :
  2 <= 2 /\ (persisted_loop 2 cid (quiet empty_db)).1 <> Ok None.
Proof. split; [done|]. apply (persisted_loop_total 2 cid (quiet empty_db)). simpl. done. Defined.

Lemma create_race_agrees_witness :
  exists r w', new cid {| store := empty_db; forecast := [calm; {|
      others := fun db => (insert_or_ignore_chat (chat_id_to_string cid) (save new_doc) db).2;
      fault := None |}] |} = (Ok r, w') /\ objs (doc r) = objs new_doc.
Proof.
  destruct (create_race_agrees cid new_doc {| store := empty_db; forecast := [calm; {|
      others := fun db => (insert_or_ignore_chat (chat_id_to_string cid) (save new_doc) db).2;
      fault := None |}] |} [] empty_db_wf eq_refl eq_refl ltac:(constructor) ltac:(constructor))
    as (r & w' & E & _ & Ho & _).
  by exists r, w'.
Defined.

(** A repository whose document says [h] about this peer. *)
Lemma said_twice :
  exists r, represents (objs (doc r)) {[me := [msg_b; msg_a]]}.
Proof.
  destruct opened as (rp & w & _ & _ & _ & Hr & _).
  destruct (say_transaction (doc rp) ∅ me msg_b Hr) as (d1 & _ & Hr1 & _).
  destruct (say_transaction d1 _ me msg_a Hr1) as (d2 & _ & Hr2 & _).
  exists (set_doc d2 rp). cbn [doc set_doc]. unfold said in Hr2.
  rewrite lookup_insert_eq, insert_insert_eq in Hr2. exact Hr2.
Qed.

Lemma unordered_list_repeats_witness :
  exists r, represents (objs (doc r)) {[me := [msg_b; msg_a]]} /\
    get_messages true r 0 1 = Ok [msg_a] /\ get_messages true r 1 1 = Ok [msg_a].
Proof.
  destruct said_twice as [r Hr].
  destruct (unordered_list_repeats r me msg_a msg_b true Hr) as (H0 & H1 & _); [by vm_compute|].
  by exists r.
Defined.

Lemma said_in_order : exists r, represents (objs (doc r)) {[me := [msg_a; msg_b]]}.
Proof.
  destruct opened as (rp & w & _ & _ & _ & Hr & _).
  destruct (say_transaction (doc rp) ∅ me msg_a Hr) as (d1 & _ & Hr1 & _).
  destruct (say_transaction d1 _ me msg_b Hr1) as (d2 & _ & Hr2 & _).
  exists (set_doc d2 rp). cbn [doc set_doc]. unfold said in Hr2.
  rewrite lookup_insert_eq, insert_insert_eq in Hr2. exact Hr2.
Qed.

Lemma pagination_correct_witness :
  exists r full, full ≡ₚ [msg_a; msg_b] /\ get_messages true r 1 5 = Ok (page 1 5 full) /\
    get_all_messages true r = Ok full.
Proof.
  destruct said_in_order as [r Hr]. destruct (pagination_correct r _ Hr) as (full & Hfull & _ & Hpage & Hall).
  - intros p ms [<- <-]%lookup_singleton_Some. repeat constructor.
  - rewrite map_to_list_singleton in Hfull. cbn [fmap list_fmap snd concat] in Hfull. rewrite app_nil_r in Hfull.
    exists r, full. split; [done|]. split; [by apply (Hpage true 1 5)%Z; unfold usize, usize_max; lia|].
    apply Hall. rewrite Hfull. unfold usize_max. simpl. lia.
Defined.

Lemma get_messages_overflow_witness :
  exists r, get_messages true r 1 usize_max = Panic /\ get_messages false r 1 usize_max = Ok [].
Proof.
  destruct said_in_order as [r Hr].
  destruct (get_messages_overflow r _ 1 usize_max Hr) as [Hp Hw]; [unfold usize, usize_max; lia..|].
  exists r. split; [done|]. apply Hw. unfold usize_max. lia.
Defined.

Definition patch_at (fields : nat) : Patch :=
  {| path := [(ROOT, PMap (peer_list_key me)); ((fields : @ObjId toy_ids), PSeq 0)] |}.

Lemma extract_one_per_patch_witness :
  exists r msgs, extract_new_messages_from_patches r [patch_at 7; patch_at 7] = Ok msgs /\
    msgs ≡ₚ [msg_a; msg_a].
Proof.
  destruct said_in_order as [r Hr].
  destruct (extract_one_per_patch r _ [patch_at 7; patch_at 7] Hr) as (msgs & E & Hp & _).
  - repeat constructor; intros peer index ms [= <- <-] [_ <-]%lookup_singleton_Some; simpl; lia.
  - exists r, msgs. split; [done|]. rewrite Hp. unfold patch_message, patch_target. simpl.
    by rewrite lookup_singleton_eq.
Defined.

Lemma reply_rule_witness :
  exists r w s' out, receive_sync_message None (r, w) = (Ok ([], out), s') /\ s'.2 = w.
Proof.
  destruct opened as (r & w & _). destruct (receive_sync_message None (r, w)) as [o s'] eqn:E.
  assert (exists msgs reply, o = Ok (msgs, reply)) as (msgs & reply & ->).
  { unfold receive_sync_message, bind, ret, generate_sync_message in E.
    destruct (sync_generate (doc r) (sync_state r)) as [m st]. injection E as <- _. eauto. }
  destruct (reply_rule None (r, w) msgs reply s' E) as (_ & _ & -> & _ & Hw & _).
  exists r, w, s', reply. by split.
Defined.
End ChatRepositorySamples.
