(* ===== verification/Contract.v ===== *)
(** The contract of the chat repository (src/src/persistence.rs): a chat as the set of changes
    its peer knows and the part of it that is durable in the database. Every run of the
    repository's operations, whatever the database and its other users do, is a run of this
    machine. *)
From S2P Require Import Prelude External Wire Errors ChatTypes Database Automerge Schema Repository.
From stdpp Require Import base gmap strings list relations.
From Stdlib Require Import ZArith Lia.
Import ChatRepository.
Open Scope tryst_scope.

Module Contract.
Section Machine.
Context {Ids : EndpointIds} {Us : Uuids} {OI : ObjIds} {AM : Automerges} {V : DocViews AM}.

(** What is known, and what of it is durable. *)
Record chat := { known : gset ChangeHash; durable : gset ChangeHash }.

(** What a caller sees of one call. *)
Inductive event :=
| Say (msg : ChatMessage) (ok : bool)
| Learn (ok : bool)
| Quiet
| Forget (ok : bool)
| Reopen (ok : bool)
| Read (offset limit : Z) (out : outcome LibError (list ChatMessage)).

(** The messages a set of changes amounts to. *)
Definition shows (cs : gset ChangeHash) (h : history) : Prop :=
  exists d, changes d = cs /\ represents (objs d) h.

(** More becomes known; then all that is known is durable, or, in a call that failed, what was
    durable stays as it is. *)
Definition writes (c : chat) (ok : bool) (c' : chat) : Prop :=
  known c ⊆ known c' /\ (durable c' = known c' \/ (ok = false /\ durable c' = durable c)).

(** A page, counted from the end of the sorted messages of all peers. *)
Definition page_of (h : history) (offset limit : Z) (out : list ChatMessage) : Prop :=
  exists full, full ≡ₚ concat (map_to_list h).*2 /\ sorted_by msg_leb full /\
    out = page (Z.to_nat offset) (Z.to_nat limit) full.

Inductive chat_step (me : string) : chat -> event -> chat -> Prop :=
| chat_say c msg ok c' :
    writes c ok c' -> (forall h, shows (known c) h -> shows (known c') (said me msg h)) ->
    chat_step me c (Say msg ok) c'
| chat_learn c ok c' : writes c ok c' -> chat_step me c (Learn ok) c'
| chat_quiet c : chat_step me c Quiet c
| chat_forget c : chat_step me c (Forget true) {| known := durable c; durable := durable c |}
| chat_not_forgotten c : chat_step me c (Forget false) c
| chat_reopen c : chat_step me c (Reopen true) {| known := durable c; durable := durable c |}
| chat_not_reopened c : chat_step me c (Reopen false) c
| chat_read c offset limit out :
    (forall h, shows (known c) h -> (forall p ms, h !! p = Some ms -> sorted_by msg_leb ms) ->
       usize offset -> usize limit -> (offset + limit <= usize_max)%Z ->
       exists msgs, out = Ok msgs /\ page_of h offset limit msgs) ->
    chat_step me c (Read offset limit out) c.

Inductive chat_run (me : string) : chat -> list event -> chat -> Prop :=
| chat_run_nil c : chat_run me c [] c
| chat_run_cons c e c1 es c' : chat_step me c e c1 -> chat_run me c1 es c' -> chat_run me c (e :: es) c'.

(** *** The machine's own promises *)
Lemma chat_step_durable me c e c' :
  chat_step me c e c' -> durable c ⊆ known c -> durable c ⊆ durable c' /\ durable c' ⊆ known c'.
Proof.
  assert (forall ok c c', writes c ok c' -> durable c ⊆ known c -> durable c ⊆ durable c' /\ durable c' ⊆ known c') as Hw.
  { intros ok [k1 s1] [k2 s2] [Hk [->|[_ ->]]]; set_solver. }
  intros Hstep Hc. destruct Hstep; by eauto.
Qed.

(** Nothing that is durable is ever lost, not even by forgetting. *)
Lemma chat_run_durable me c es c' : chat_run me c es c' -> durable c ⊆ known c -> durable c ⊆ durable c' /\ durable c' ⊆ known c'.
Proof.
  induction 1 as [c|c e c1 es c' Hstep _ IH]; intros Hc; [done|].
  destruct (chat_step_durable _ _ _ _ Hstep Hc) as [H1 H2]. destruct (IH H2). split; [by etransitivity|done].
Qed.

(** ** The repository as such a machine *)

(** The calls of a repository's owner; [Restart] opens a new one from the database. *)
Inductive call :=
| Do (op : repo_op)
| Restart
| Page (overflow_checks : bool) (offset limit : Z).

Definition event_of (r : Repo) (op : repo_op) (ok : bool) : event :=
  match op with
  | OpAdd now uuid msg => Say (message_of r now uuid msg) ok
  | OpReceive (Some _) => Learn ok
  | OpReceive None | OpGenerate | OpResetSync => Quiet
  | OpResetDoc => Forget ok
  end.

Definition perform (c : call) (s : Repo * World Db) : event * (Repo * World Db) :=
  match c with
  | Do op => let '(ok, s') := run_op op s in (event_of s.1 op ok, s')
  | Restart => match new (chat_id s.1) s.2 with
               | (Ok r, w') => (Reopen true, (r, w'))
               | (_, w') => (Reopen false, (s.1, w'))
               end
  | Page oc offset limit => (Read offset limit (get_messages oc s.1 offset limit), s)
  end.

Fixpoint perform_all (cs : list call) (s : Repo * World Db) : list event * (Repo * World Db) :=
  match cs with
  | [] => ([], s)
  | c :: cs => let '(e, s1) := perform c s in let '(es, s') := perform_all cs s1 in (e :: es, s')
  end.

Definition abstracts (s : Repo * World Db) (c : chat) : Prop :=
  known c = changes (doc s.1) /\ saved_prefix (durable c) s /\ holds_changes (repo_chat s.1) (durable c) (store s.2).

Context {Laws : AutomergeLaws AM V}.

Lemma abstracts_intro s cs :
  saved_prefix ∅ s -> holds_changes (repo_chat s.1) cs (store s.2) ->
  abstracts s {| known := changes (doc s.1); durable := cs |}.
Proof using Laws.
  intros [Hb (ds & Hheads & _ & Hsub & Hh)] Hcs. split; [done|]. split; [|done]. split; [done|].
  exists ds. by rewrite <- (holds_changes_unique _ _ _ _ Hh Hcs).
Qed.

Lemma saved_prefix_weaken cs s : saved_prefix cs s -> saved_prefix ∅ s.
Proof. intros [Hb (ds & Hheads & _ & Hrest)]. split; [done|]. exists ds. split; [done|]. split; [apply empty_subseteq|done]. Qed.

(** *** Writing: all of it or nothing *)
Lemma persist_chat_keeps cs ks s r s' :
  saved_prefix cs s -> holds_changes (repo_chat s.1) ks (store s.2) -> persist_chat s = (r, s') ->
  is_ok r = true \/ holds_changes (repo_chat s'.1) ks (store s'.2).
Proof using Laws.
  destruct s as [rp w]. intros [Hb (ds & Hheads & _ & Hsub & Hh)] Hks. cbn [fst snd] in *.
  unfold persist_chat. unfold bind at 1 2, gets. cbn [fst snd]. rewrite Hheads.
  case_bool_decide; [intros [= <- <-]; by left|].
  destruct (stmt_effect (holds_changes (repo_chat rp) ks) (insert_log (repo_chat rp) (save_after (doc rp) (get_heads ds)))
    (fun _ _ => True) w) as (o & w1 & E1 & _ & Hr).
  { by apply bystanders_holds. }
  { done. }
  { intros d Hd. rewrite <- (holds_changes_unique _ _ _ _ Hh Hks) in Hd.
    destruct (insert_holds (repo_chat rp) ds (doc rp) d Hsub Hd) as (d' & E & _). eauto. }
  unfold bind, on_pool. unfold repo_chat in *. rewrite E1.
  destruct Hr as [([] & -> & _)|(_ & Hh1 & e & ->)]; intros [= <- <-]; [by left|by right].
Qed.

(** What a failed call can leave: all of the document, or what was durable before. *)
Definition all_or_nothing (ks : gset ChangeHash) (s' : Repo * World Db) : Prop :=
  all_saved s' \/ holds_changes (repo_chat s'.1) ks (store s'.2).

Lemma persist_chat_all_or_nothing ks s :
  saved_prefix ∅ s -> holds_changes (repo_chat s.1) ks (store s.2) -> all_or_nothing ks (persist_chat s).2.
Proof using Laws.
  intros Hs Hks. destruct (persist_chat_spec ∅ s Hs) as (r & s' & E & _ & _ & _ & _ & Hr). rewrite E.
  destruct Hr as [[_ ?]|[_ [e ->]]]; [by left|]. right.
  by destruct (persist_chat_keeps _ _ _ _ _ Hs Hks E).
Qed.

Lemma add_all_or_nothing ks now uuid msg s :
  saved_prefix ∅ s -> holds_changes (repo_chat s.1) ks (store s.2) ->
  all_or_nothing ks (add_message now uuid msg s).2.
Proof using Laws.
  destruct s as [rp w]. intros Hs Hks. unfold add_message. unfold bind at 1, gets. cbn [fst snd].
  set (f := bind (ensure_peer_list _) _). unfold bind at 1, act_map_err, on_doc.
  destruct (f (begin_tx (doc rp))) as [[[]|e|] t] eqn:Ef.
  - destruct (transact_ok f (doc rp) tt t Ef) as (d & -> & Hd & Hsub). simpl map_err.
    pose proof (persist_chat_all_or_nothing ks (set_doc d rp, w)) as Hp. unfold bind at 1.
    destruct (persist_chat (set_doc d rp, w)) as [[[]|e|] s1] eqn:E1; cbn [snd] in Hp |- *.
    2,3: apply Hp; [by apply (saved_prefix_frame ∅ (rp, w))|done].
    unfold bind. destruct (generate_sync_message_frame (E := LibError) s1) as (m & s2 & -> & Hw2 & Hc2 & Hd2 & _).
    cbn [snd ret]. unfold all_or_nothing, all_saved, repo_chat in *. rewrite Hw2, Hc2, Hd2.
    apply Hp; [by apply (saved_prefix_frame ∅ (rp, w))|done].
  - destruct (transact_err f (doc rp) e t Ef) as (n & d & -> & Hd). by right.
  - destruct (transact_panic f (doc rp) t Ef) as (d & -> & Hd). by right.
Qed.

Lemma receive_all_or_nothing ks m s :
  saved_prefix ∅ s -> holds_changes (repo_chat s.1) ks (store s.2) ->
  all_or_nothing ks (receive_sync_message (Some m) s).2.
Proof using Laws.
  destruct s as [rp w]. intros Hs Hks. unfold receive_sync_message, receive_changes. rewrite bind_bind. unfold bind at 1.
  destruct (sync_receive m (doc rp, sync_state rp, patch_log_new true)) as [a [[d st] pl]] eqn:Er.
  pose proof (sync_receive_grows _ _ _ _ _ _ _ _ Er) as Hsub. destruct a as [[]|e|]; simpl map_ok; [|by right..].
  pose proof (persist_chat_all_or_nothing ks (set_sync_state st (set_doc d rp), w)) as Hp.
  cbv iota. rewrite bind_bind. unfold bind at 1.
  destruct (persist_chat (set_sync_state st (set_doc d rp), w)) as [[[]|e|] s1] eqn:E1; cbn [snd] in Hp |- *.
  2,3: apply Hp; [by apply (saved_prefix_frame ∅ (rp, w))|done].
  unfold bind, gets, reads. destruct (extract_new_messages_from_patches _ _); cbn [snd].
  2,3: apply Hp; [by apply (saved_prefix_frame ∅ (rp, w))|done].
  destruct (generate_sync_message_frame (E := LibError) s1) as (m2 & s2 & -> & Hw2 & Hc2 & Hd2 & _).
  cbn [snd ret]. unfold all_or_nothing, all_saved, repo_chat in *. rewrite Hw2, Hc2, Hd2.
  apply Hp; [by apply (saved_prefix_frame ∅ (rp, w))|done].
Qed.

(** A call that grows the document and writes it: the machine's [writes]. *)
Lemma abstracts_writes s c s' (ok : bool) :
  abstracts s c -> saved_prefix ∅ s' -> changes (doc s.1) ⊆ changes (doc s'.1) ->
  (ok = true -> all_saved s') -> all_or_nothing (durable c) s' ->
  exists c', abstracts s' c' /\ writes c ok c'.
Proof using Laws.
  intros (Hk & _ & Hh) Hs' Hsub Hok Hall.
  assert (all_saved s' \/ (ok = false /\ holds_changes (repo_chat s'.1) (durable c) (store s'.2))) as [Ha|[-> Hn]].
  { destruct ok; [left; by apply Hok|]. destruct Hall; [by left|by right]. }
  - exists {| known := changes (doc s'.1); durable := changes (doc s'.1) |}. split; [by apply abstracts_intro|].
    split; [by rewrite Hk|by left].
  - exists {| known := changes (doc s'.1); durable := durable c |}. split; [by apply abstracts_intro|].
    split; [by rewrite Hk|by right].
Qed.

Lemma abstracts_same s s' c :
  abstracts s c -> s'.2 = s.2 -> chat_id s'.1 = chat_id s.1 -> changes (doc s'.1) = changes (doc s.1) ->
  last_saved_heads s'.1 = last_saved_heads s.1 -> abstracts s' c.
Proof.
  intros (Hk & Hs & Hh) Hw Hc Hd Hl. unfold abstracts, repo_chat. rewrite Hd, Hw, Hc. split; [done|]. split; [|done].
  apply (saved_prefix_frame _ s); by rewrite ?Hd.
Qed.

Lemma said_shows now uuid msg s r s' h :
  saved_prefix ∅ s -> add_message now uuid msg s = (r, s') -> shows (changes (doc s.1)) h ->
  shows (changes (doc s'.1)) (said (id_to_string (my_id (chat_id s.1))) (message_of s.1 now uuid msg) h).
Proof using Laws.
  intros Hs Hrun (d & Hd & Hr). rewrite (changes_objs _ _ Hd) in Hr.
  destruct (add_message_doc now uuid msg s h Hr) as (d' & Hr' & Hsub & _ & E). rewrite E in Hrun.
  destruct (persist_and_generate ∅ _ _ _ _ (saved_prefix_frame ∅ s (set_doc d' s.1, s.2)
    eq_refl eq_refl Hsub eq_refl Hs) Hrun) as (_ & _ & Hdoc & _). rewrite Hdoc. by exists d'.
Qed.

Lemma get_messages_page (s : Repo * World Db) overflow_checks offset limit h :
  shows (changes (doc s.1)) h -> (forall p ms, h !! p = Some ms -> sorted_by msg_leb ms) ->
  usize offset -> usize limit -> (offset + limit <= usize_max)%Z ->
  exists msgs, get_messages overflow_checks s.1 offset limit = Ok msgs /\ page_of h offset limit msgs.
Proof using Laws.
  intros (d & Hd & Hr) Hsorted Ho Hl Hsum. rewrite (changes_objs _ _ Hd) in Hr.
  destruct (pagination_spec s.1 h Hr Hsorted) as (full & Hperm & Hfull & Hget & _).
  eexists. split; [by apply Hget|]. by exists full.
Qed.

(** Going back to the database: by a reset, or by opening the chat again. *)
Lemma restored_abstracts (s : Repo * World Db) c r w' d :
  bystanders (repo_chat s.1) w' -> repo_chat r = repo_chat s.1 -> doc r = d ->
  changes d = durable c -> last_saved_heads r = get_heads d ->
  holds_changes (repo_chat s.1) (durable c) (store w') ->
  abstracts (r, w') {| known := durable c; durable := durable c |}.
Proof.
  intros Hb Hr Hd Hc Hl Hh. unfold abstracts. cbn [fst snd known durable]. rewrite Hr, Hd, Hc.
  split; [done|]. split; [|done]. apply (loaded_saved_prefix _ r w' d); rewrite ?Hr, ?Hc; done.
Qed.

Lemma unrestored_abstracts w r w' c :
  abstracts (r, w) c -> bystanders (repo_chat r) w' -> holds_changes (repo_chat r) (durable c) (store w') ->
  abstracts (r, w') c.
Proof using Laws.
  intros (Hk & [_ (ds & Hheads & Hds & Hsub & Hhs)] & Hh) Hb Hh'. split; [done|]. split; [|done]. split; [done|].
  exists ds. do 3 (split; [done|]). cbn [fst snd] in *. by rewrite (holds_changes_unique _ _ _ _ Hhs Hh).
Qed.

Lemma perform_refines call s c e s' :
  abstracts s c -> perform call s = (e, s') ->
  exists c', chat_step (id_to_string (my_id (chat_id s.1))) c e c' /\ abstracts s' c' /\ chat_id s'.1 = chat_id s.1.
Proof using Laws.
  intros Ha Hp. pose proof Ha as (Hk & Hs & Hh). pose proof (saved_prefix_weaken _ _ Hs) as Hs0.
  destruct call as [op| |oc offset limit]; cbn [perform] in Hp.
  - destruct op as [now uuid msg|[m|]| | |]; cbn [run_op] in Hp.
    + destruct (add_message now uuid msg s) as [r s1] eqn:E. injection Hp as <- <-.
      pose proof (add_all_or_nothing (durable c) now uuid msg s Hs0 Hh) as Han. rewrite E in Han.
      destruct (add_message_durable _ _ _ _ _ _ _ Hs0 E) as (Hs1 & Hc1 & _ & Hsub & Hok).
      destruct (abstracts_writes s c s1 (is_ok r) Ha Hs1 Hsub Hok Han) as (c' & Ha' & Hw).
      exists c'. split; [|done]. constructor; [done|]. intros h. rewrite Hk. destruct Ha' as [-> _].
      by eapply said_shows.
    + destruct (receive_sync_message (Some m) s) as [r s1] eqn:E. injection Hp as <- <-.
      pose proof (receive_all_or_nothing (durable c) m s Hs0 Hh) as Han. rewrite E in Han.
      destruct (receive_sync_message_durable _ _ _ _ _ Hs0 E) as (Hs1 & Hc1 & _ & Hsub & Hok).
      destruct (abstracts_writes s c s1 (is_ok r) Ha Hs1 Hsub) as (c' & Ha' & Hw); [by intros ?; apply Hok|done|].
      exists c'. split; [by constructor|done].
    + destruct (generate_sync_message_frame (E := LibError) s) as (m & s1 & E & Hw1 & Hc1 & Hd1 & Hl1).
      unfold receive_sync_message, bind, ret in Hp. rewrite E in Hp. injection Hp as <- <-.
      exists c. split; [constructor|]. split; [|done]. apply (abstracts_same s); by rewrite ?Hd1.
    + destruct (generate_sync_message_frame (E := LibError) s) as (m & s1 & E & Hw1 & Hc1 & Hd1 & Hl1).
      rewrite E in Hp. injection Hp as <- <-.
      exists c. split; [constructor|]. split; [|done]. apply (abstracts_same s); by rewrite ?Hd1.
    + destruct s as [rp w]. unfold reset_doc_state_to_persisted, bind, gets, on_pool in Hp. cbn [fst snd] in *.
      pose proof Hs as [Hb _].
      destruct (get_persisted_present (chat_id rp) (durable c) w Hb Hh) as (o & w1 & E1 & Hl1 & Hh1 & Ho).
      pose proof (bystanders_later _ _ _ Hl1 Hb) as Hb1. rewrite E1 in Hp.
      destruct Ho as [(d & -> & Hd & _)|[_ [e' ->]]]; injection Hp as <- <-.
      * eexists. split; [constructor|]. split; [|done]. by apply (restored_abstracts (rp, w) c _ w1 d).
      * exists c. split; [constructor|]. split; [|done]. by apply (unrestored_abstracts w).
    + injection Hp as <- <-. exists c. split; [constructor|]. split; [|done]. by apply (abstracts_same s).
  - destruct s as [rp w]. unfold new, bind in Hp. cbn [fst snd] in *. pose proof Hs as [Hb _].
    destruct (get_persisted_present (chat_id rp) (durable c) w Hb Hh) as (o & w1 & E1 & Hl1 & Hh1 & Ho).
    pose proof (bystanders_later _ _ _ Hl1 Hb) as Hb1. rewrite E1 in Hp.
    destruct Ho as [(d & -> & Hd & _)|[_ [e' ->]]]; injection Hp as <- <-.
    + eexists. split; [constructor|]. split; [|done]. by apply (restored_abstracts (rp, w) c _ w1 d).
    + exists c. split; [constructor|]. split; [|done]. by apply (unrestored_abstracts w).
  - injection Hp as <- <-. exists c. split; [|done]. constructor. intros h. rewrite Hk. by apply get_messages_page.
Qed.

Lemma perform_all_refines calls s c es s' :
  abstracts s c -> perform_all calls s = (es, s') ->
  exists c', chat_run (id_to_string (my_id (chat_id s.1))) c es c' /\ abstracts s' c' /\ chat_id s'.1 = chat_id s.1.
Proof using Laws.
  revert s c es. induction calls as [|call calls IH]; intros s c es Ha Hp; cbn [perform_all] in Hp.
  { injection Hp as <- <-. exists c. by split; [constructor|]. }
  destruct (perform call s) as [e s1] eqn:E1. destruct (perform_all calls s1) as [es1 s2] eqn:E2. injection Hp as <- <-.
  destruct (perform_refines call s c e s1 Ha E1) as (c1 & Hstep & Ha1 & Hc1).
  destruct (IH s1 c1 es1 Ha1 E2) as (c' & Hrun & Ha' & Hc'). rewrite Hc1 in Hrun, Hc'.
  exists c'. split; [by econstructor|done].
Qed.

(** What opening a chat starts with: what is stored, or nothing said. *)
Lemma new_abstracts cid w r w' :
  bystanders (chat_id_to_string cid) w -> db_wf (store w) -> new cid w = (Ok r, w') ->
  chats (store w) !! chat_id_to_string cid = None \/ (exists cs, holds_changes (chat_id_to_string cid) cs (store w)) ->
  chat_id r = cid /\ exists ks, abstracts (r, w') {| known := ks; durable := ks |} /\
    (chats (store w) !! chat_id_to_string cid = None -> shows ks ∅) /\
    (forall cs, holds_changes (chat_id_to_string cid) cs (store w) -> cs = ks).
Proof using Laws.
  intros Hb Hwf Hnew Hdb. unfold new in Hnew. destruct Hdb as [Hnone|[cs Hh]].
  - destruct (get_persisted_absent cid w Hb Hwf Hnone) as (o & w1 & E & Hl & [(id & d & -> & Hd & Hh)|[_ [e ->]]]).
    2: { by rewrite (bind_err _ _ _ _ _ E) in Hnew. }
    rewrite (bind_ok _ _ _ _ _ E) in Hnew. injection Hnew as <- <-. split; [done|]. exists (changes d).
    split; [apply abstracts_intro; [|done]; apply (loaded_saved_prefix ∅ _ w1 d); try done; by eapply bystanders_later|].
    split; [intros _; exists d; split; [done|]; rewrite Hd; apply represents_init|].
    intros cs (_ & x & _ & Hx & _). congruence.
  - destruct (get_persisted_present cid cs w Hb Hh) as (o & w1 & E & Hl & Hh1 & [(d & -> & <- & _)|[_ [e ->]]]).
    2: { by rewrite (bind_err _ _ _ _ _ E) in Hnew. }
    rewrite (bind_ok _ _ _ _ _ E) in Hnew. injection Hnew as <- <-. split; [done|]. exists (changes d).
    split; [apply abstracts_intro; [|done]; apply (loaded_saved_prefix ∅ _ w1 d); try done; by eapply bystanders_later|].
    split; [intros Hn; destruct Hh as (_ & x & _ & Hx & _); congruence|].
    intros cs Hcs. by eapply holds_changes_unique.
Qed.

(** C2. The repository is a chat with a durable part. Whatever its owner calls from opening it
    on, whatever the weather and the database's other users, the calls and what they return
    are a run of the abstract machine, which starts with exactly what was stored, or with
    nothing said when the chat is new, and which the final repository and database stand
    for; what was durable at any time still is. *)
Theorem repository_refines_chat cid w r w' calls1 es1 s1 calls2 es2 s2 :
  bystanders (chat_id_to_string cid) w -> db_wf (store w) ->
  chats (store w) !! chat_id_to_string cid = None \/ (exists cs, holds_changes (chat_id_to_string cid) cs (store w)) ->
  new cid w = (Ok r, w') -> perform_all calls1 (r, w') = (es1, s1) -> perform_all calls2 s1 = (es2, s2) ->
  exists ks c1 c2,
    (chats (store w) !! chat_id_to_string cid = None -> shows ks ∅) /\
    (forall cs, holds_changes (chat_id_to_string cid) cs (store w) -> cs = ks) /\
    chat_run (id_to_string (my_id cid)) {| known := ks; durable := ks |} es1 c1 /\ abstracts s1 c1 /\
    chat_run (id_to_string (my_id cid)) c1 es2 c2 /\ abstracts s2 c2 /\ durable c1 ⊆ durable c2.
Proof using Laws.
  intros Hb Hwf Hdb Hnew H1 H2.
  destruct (new_abstracts cid w r w' Hb Hwf Hnew Hdb) as (Hcid & ks & Ha & Hnone & Hstored).
  destruct (perform_all_refines _ _ _ _ _ Ha H1) as (c1 & Hrun1 & Ha1 & Hc1).
  destruct (perform_all_refines _ _ _ _ _ Ha1 H2) as (c2 & Hrun2 & Ha2 & _).
  rewrite Hc1 in Hrun2. cbn [fst] in *. rewrite Hcid in Hrun1, Hrun2.
  exists ks, c1, c2. repeat (split; [done|]).
  apply (chat_run_durable _ _ _ _ Hrun2). by apply (chat_run_durable _ _ _ _ Hrun1).
Qed.
End Machine.
End Contract.

(** ** The theorem at a concrete run: a message is said, the chat opened again and read. *)
Module ContractSamples.
Import Concrete ToyDoc ChatRepositorySamples Contract.

Lemma repository_refines_chat_witness :
  exists r w' out s1 es2 s2 c1 c2, new cid (quiet empty_db) = (Ok r, w') /\
    perform_all [Do (OpAdd 5 (0 : @Uuid uuids) (Text "a"))] (r, w') = ([Say msg_a true], s1) /\
    add_message 5 (0 : @Uuid uuids) (Text "a") (r, w') = (Ok (msg_a, out), s1) /\
    perform_all [Restart; Page true 0 10] s1 = (es2, s2) /\
    chat_run me c1 es2 c2 /\ abstracts s2 c2 /\ durable c1 ⊆ durable c2.
Proof.
  destruct opened as (r & w & E & Hc & Hf & Hr & Hs & _).
  assert (faultless w) as Hfl by (unfold faultless; rewrite Hf; constructor).
  destruct (add_then_all_saved ∅ 5 (0 : @Uuid uuids) (Text "a") (r, w) ∅ Hs Hfl Hr) as (out & s1 & E1 & _).
  assert (message_of (r, w).1 5 (0 : @Uuid uuids) (Text "a") = msg_a) as Hm by (unfold message_of; simpl; by rewrite Hc).
  destruct (perform_all [Restart; Page true 0 10] s1) as [es2 s2] eqn:E2.
  assert (perform_all [Do (OpAdd 5 (0 : @Uuid uuids) (Text "a"))] (r, w) = ([Say msg_a true], s1)) as E1'.
  { cbn [perform_all perform run_op]. rewrite E1. cbn [event_of is_ok]. by rewrite Hm. }
  destruct (repository_refines_chat cid (quiet empty_db) r w _ _ _ _ _ _ (quiet_bystanders _ _) empty_db_wf
    (or_introl eq_refl) E E1' E2) as (ks & c1 & c2 & _ & _ & _ & _ & Hrun & Ha & Hd).
  exists r, w, out, s1, es2, s2, c1, c2. rewrite Hm in E1. by repeat (split; [done|]).
Defined.
End ContractSamples.
