(* ===== verification/Sync.v ===== *)
(** The synchronisation protocol of automerge as the program relies on it
    (automerge::sync, called by src/src/persistence.rs): what a sync state knows and what a
    message announces, as ghost views with laws for generating and receiving one message; and
    a session of two peers over two ordered streams, whose invariant holds of every exchange
    in which each received message is answered. *)
From S2P Require Import Prelude Wire Automerge.
From stdpp Require Import base gmap list.
From Stdlib Require Import ZArith Lia.
Open Scope tryst_scope.

(** A set of heads stands for the changes it leads to. [their_changes] is what the peer last
    said it has, [last_sent] what this side last said, [in_flight] whether an answer to
    that is still to come; [announced] is what the sender of a message had. *)
Class SyncViews {OI : ObjIds} (AM : Automerges) := {
  their_changes : SyncState -> option (gset ChangeHash);
  last_sent : SyncState -> gset ChangeHash;
  in_flight : SyncState -> bool;
  announced : SyncMsg -> gset ChangeHash;
}.

Definition same_knowledge {OI : ObjIds} {AM : Automerges} {SV : SyncViews AM} (st st' : SyncState) : Prop :=
  their_changes st' = their_changes st /\ last_sent st' = last_sent st /\ in_flight st' = in_flight st.

(** One call each. A message announces all of the document; nothing is generated only when
    the document is what was last sent and either the peer has announced the same or an
    answer is to come; receiving notes what the peer announced, and a peer that has nothing
    at all is told everything anew. *)
Class SyncLaws {OI : ObjIds} (AM : Automerges) (V : DocViews AM) (SV : SyncViews AM) : Prop := {
  new_sync_knowledge :
    their_changes new_sync_state = None /\ last_sent new_sync_state = ∅ /\ in_flight new_sync_state = false;
  generate_some d st m st' :
    sync_generate d st = (Some m, st') ->
    announced m = changes d /\ their_changes st' = their_changes st /\
    ((last_sent st' = changes d /\ in_flight st' = true) \/ same_knowledge st st');
  generate_none d st st' :
    sync_generate d st = (None, st') ->
    same_knowledge st st' /\ last_sent st = changes d /\
    (their_changes st = Some (changes d) \/ in_flight st = true);
  receive_ok m d st pl d' st' pl' :
    sync_receive m (d, st, pl) = (Ok tt, (d', st', pl')) ->
    their_changes st' = Some (announced m) /\ in_flight st' = false /\
    (last_sent st' = last_sent st \/ (last_sent st' = changes d /\ announced m = changes d) \/
     (last_sent st' = ∅ /\ announced m = ∅));
}.

Section Session.
Context {OI : ObjIds} {AM : Automerges} {V : DocViews AM} {SV : SyncViews AM} {L : SyncLaws AM V SV}.
Context {Laws : AutomergeLaws AM V}.

(** What a stream carries: a sync message, or word that there is nothing to say. *)
Abbreviation stream := (list (option SyncMsg)).

Definition silent (xs : stream) : Prop := Forall (fun x => x = None) xs.

(** Of the direction from X to Y: X has changes [cX] and state [sX], Y has state [sY], [xy]
    is on its way from X to Y and [yx] back. While an answer to X is to come, its last
    message is still on its way, or Y's answer is, or Y had the same changes and so no more
    to say. *)
Record half (cX : gset ChangeHash) (sX sY : SyncState) (xy yx : stream) : Prop := {
  half_msgs m : Some m ∈ xy -> announced m ⊆ cX;
  half_their c : their_changes sY = Some c -> c ⊆ cX;
  half_sent : last_sent sX ⊆ cX;
  half_flight : in_flight sX = true -> exists S', last_sent sX ⊆ S' /\
    ((exists pre m post, xy = pre ++ Some m :: post /\ silent post /\ announced m = S') \/
     (silent xy /\ ((exists m, Some m ∈ yx) \/ (their_changes sY = Some S' /\ last_sent sY = S'))));
}.

(** Both directions. *)
Definition session (cX cY : gset ChangeHash) (sX sY : SyncState) (xy yx : stream) : Prop :=
  half cX sX sY xy yx /\ half cY sY sX yx xy.

Lemma session_flip cX cY sX sY xy yx : session cX cY sX sY xy yx -> session cY cX sY sX yx xy.
Proof. by intros []. Qed.

Lemma elem_of_snoc_some m (xs : stream) x : Some m ∈ xs ++ [x] -> Some m ∈ xs \/ x = Some m.
Proof. intros [?|?%list_elem_of_singleton]%elem_of_app; [by left|by right]. Qed.

(** Knowledge is all that counts of the states. *)
Lemma session_same cX cY sX sX' sY xy yx :
  same_knowledge sX sX' -> session cX cY sX sY xy yx -> session cX cY sX' sY xy yx.
Proof.
  intros (Ht & Hl & Hf) [[H1 H2 H3 H4] [G1 G2 G3 G4]]. split; split; rewrite ?Ht, ?Hl, ?Hf; auto.
Qed.

(** A document grows. *)
Lemma session_grows cX cX' cY sX sY xy yx :
  cX ⊆ cX' -> session cX cY sX sY xy yx -> session cX' cY sX sY xy yx.
Proof.
  intros Hs [[H1 H2 H3 H4] HG]. split; [|done]. split; [| | |done].
  - intros m Hm. etransitivity; [by apply H1|done].
  - intros c Hc. etransitivity; [by apply H2|done].
  - by etransitivity.
Qed.

(** X generates and sends what came out: its own direction. *)
Lemma half_generate d sX sX' sY xy yx om :
  sync_generate d sX = (om, sX') -> half (changes d) sX sY xy yx -> half (changes d) sX' sY (xy ++ [om]) yx.
Proof using L.
  intros Hg [H1 H2 H3 H4]. destruct om as [m|].
  - destruct (generate_some _ _ _ _ Hg) as (Hm & Ht & Hk). split.
    + intros m' [?|[= <-]]%elem_of_snoc_some; [by apply H1|by rewrite Hm].
    + done.
    + by destruct Hk as [[-> _]|(_ & -> & _)].
    + intros _. exists (changes d). split; [by destruct Hk as [[-> _]|(_ & -> & _)]|].
      left. exists xy, m, []. split; [done|]. split; [constructor|done].
  - destruct (generate_none _ _ _ Hg) as ((_ & Hl & Hf) & _ & _). split; rewrite ?Hl, ?Hf; try done.
    + intros m' [?|?]%elem_of_snoc_some; [by apply H1|done].
    + intros Hfl. destruct (H4 Hfl) as (S' & HS & Hor). exists S'. split; [done|].
      destruct Hor as [(pre & m & post & -> & Hp & Hm)|[Hs Hor]].
      * left. exists pre, m, (post ++ [None]). rewrite <- (assoc_L (++)). split; [done|]. split; [|done].
        apply Forall_app. split; [done|by constructor].
      * right. split; [|done]. apply Forall_app. split; [done|by constructor].
Qed.

Lemma session_generate d cY sX sX' sY xy yx om :
  sync_generate d sX = (om, sX') -> session (changes d) cY sX sY xy yx ->
  session (changes d) cY sX' sY (xy ++ [om]) yx.
Proof using L.
  intros Hg [HX [G1 G2 G3 G4]]. split; [by eapply half_generate|].
  assert (their_changes sX' = their_changes sX /\ (om = None -> last_sent sX' = last_sent sX)) as [Ht Hl].
  { destruct om; [apply generate_some in Hg as (_ & ? & _)|apply generate_none in Hg as ((? & ? & _) & _)]; done. }
  split; rewrite ?Ht; try done. intros Hf. destruct (G4 Hf) as (S' & HS & [?|[Hs Hor]]); exists S'; (split; [done|]); [by left|].
  right. split; [done|]. destruct Hor as [[m Hm]|[Hth Hls]]; [left; exists m; apply elem_of_app; by left|].
  destruct om as [m|]; [left; exists m; apply elem_of_app; right; by left|right]. by rewrite Hl.
Qed.

(** X says what it would say in another session: the truth about its document, which does
    no harm while no answer is owed to X. *)
Lemma session_stale d cY st st' sX sY xy yx om :
  sync_generate d st = (om, st') -> in_flight sX = false -> session (changes d) cY sX sY xy yx ->
  session (changes d) cY sX sY (xy ++ [om]) yx.
Proof using L.
  intros Hg Hfl [[H1 H2 H3 H4] [G1 G2 G3 G4]]. split; split; try done.
  - intros m [?| ->]%elem_of_snoc_some; [by apply H1|]. by destruct (generate_some _ _ _ _ Hg) as [-> _].
  - intros Hf. congruence.
  - intros Hf. destruct (G4 Hf) as (S' & HS & [?|[Hs [[m Hm]|?]]]); exists S'; (split; [done|]); [by left|right..];
      (split; [done|]); [left|by right]. exists m. apply elem_of_app. by left.
Qed.

(** X generates and has nothing to say, and does not say so. *)
Lemma session_generate_nothing d cY sX sX' sY xy yx :
  sync_generate d sX = (None, sX') -> session (changes d) cY sX sY xy yx -> session (changes d) cY sX' sY xy yx.
Proof using L. intros Hg. destruct (generate_none _ _ _ Hg) as (Hk & _). by apply session_same. Qed.

(** X reads that Y has nothing to say. *)
Lemma session_nothing cX cY sX sY xy yx : session cX cY sX sY xy (None :: yx) -> session cX cY sX sY xy yx.
Proof.
  intros [[H1 H2 H3 H4] [G1 G2 G3 G4]]. split; split; try done.
  - intros Hf. destruct (H4 Hf) as (S' & HS & Hor). exists S'. split; [done|].
    destruct Hor as [?|[Hs [[m Hm]|?]]]; [by left| |]; right; (split; [done|]); [left|by right].
    exists m. by apply elem_of_cons in Hm as [?|?].
  - intros m Hm. apply G1. by right.
  - intros Hf. destruct (G4 Hf) as (S' & HS & Hor). exists S'. split; [done|].
    destruct Hor as [(pre & m & post & Heq & Hp & Hm)|[Hs Hor]].
    + left. destruct pre as [|p pre]; [done|]. injection Heq as <- ->. by exists pre, m, post.
    + right. split; [|done]. by apply Forall_cons in Hs as [_ ?].
Qed.

(** Y's direction, when X takes a message of Y's and answers it: Y's last message is still to
    come, or X's answer is, or X had the same to say. *)
Lemma half_answered cY d' sX sX1 sX' sY xy yx m om :
  half cY sY sX (Some m :: yx) xy -> sync_generate d' sX1 = (om, sX') ->
  their_changes sX1 = Some (announced m) -> in_flight sX1 = false ->
  half cY sY sX' yx (xy ++ [om]).
Proof using L.
  intros [G1 G2 G3 G4] Hg Ht Hf. split.
  - intros m' Hm'. apply G1. by right.
  - intros c. assert (their_changes sX' = Some (announced m)) as ->; [|intros [= <-]; apply G1; by left].
    rewrite <- Ht. destruct om; [by apply generate_some in Hg as (_ & -> & _)|].
    by apply generate_none in Hg as ((-> & _) & _).
  - done.
  - intros HfY. destruct (G4 HfY) as (S' & HS & [(pre & m' & post & Heq & Hp & Hm')|[Hs _]]);
      [|exfalso; by apply Forall_cons in Hs as [? _]].
    exists S'. split; [done|]. destruct pre as [|p pre]; injection Heq as E1 E2; subst; [right|left; by exists pre, m', post].
    split; [done|]. destruct om as [m2|]; [left; exists m2; apply elem_of_app; right; by left|right].
    destruct (generate_none _ _ _ Hg) as ((Hk1 & Hk2 & _) & Hsent & [Hth|Hfl]); [|congruence].
    rewrite Hk1, Hk2, Hsent. rewrite Ht in Hth. injection Hth as Hth. split; congruence.
Qed.

(** X receives a message and answers with what it then generates. *)
Lemma session_receive m d d' cY sX sX1 sX' pl pl' sY xy yx om :
  sync_receive m (d, sX, pl) = (Ok tt, (d', sX1, pl')) -> sync_generate d' sX1 = (om, sX') ->
  session (changes d) cY sX sY xy (Some m :: yx) ->
  session (changes d') cY sX' sY (xy ++ [om]) yx.
Proof using L Laws.
  intros Hr Hg [[H1 H2 H3 H4] HY]. pose proof (sync_receive_grows _ _ _ _ _ _ _ _ Hr) as Hgrow.
  destruct (receive_ok _ _ _ _ _ _ _ Hr) as (Ht & Hf & Hl). split; [|by eapply half_answered].
  apply (half_generate d' sX1); [done|]. split.
  - intros m' Hm'. etransitivity; [by apply H1|done].
  - intros c Hc. etransitivity; [by apply H2|done].
  - destruct Hl as [->|[[-> _]|[-> _]]]; [by etransitivity|done|apply empty_subseteq].
  - intros. congruence.
Qed.

(** A new session: whatever the two documents are, before anything was said. *)
Lemma session_start cX cY : session cX cY new_sync_state new_sync_state [] [].
Proof using L.
  destruct new_sync_knowledge as (Ht & Hl & Hf).
  split; split; rewrite ?Ht, ?Hl, ?Hf; try done; try (intros m Hm; by apply elem_of_nil in Hm);
    apply empty_subseteq.
Qed.

(** What generating nothing says of a side. *)
Definition nothing_to_say (d : Doc) (st : SyncState) : Prop :=
  last_sent st = changes d /\ (their_changes st = Some (changes d) \/ in_flight st = true).

Lemma generate_none_says d st st' :
  sync_generate d st = (None, st') -> nothing_to_say d st /\ nothing_to_say d st'.
Proof using L.
  intros Hg. destruct (generate_none _ _ _ Hg) as ((Ht & Hl & Hf) & Hsent & Hor).
  unfold nothing_to_say. by rewrite Ht, Hl, Hf.
Qed.

(** With nothing on its way and nothing to say on either side, the documents agree. *)
Lemma session_agrees dX dY sX sY :
  session (changes dX) (changes dY) sX sY [] [] -> nothing_to_say dX sX -> nothing_to_say dY sY ->
  changes dX = changes dY.
Proof.
  assert (forall d1 d2 s1 s2, session (changes d1) (changes d2) s1 s2 [] [] ->
    nothing_to_say d1 s1 -> nothing_to_say d2 s2 -> changes d1 ⊆ changes d2) as Hsub.
  { intros d1 d2 s1 s2 [[H1 H2 H3 H4] [G1 G2 G3 G4]] [Hl1 [Ht|Hf]] [Hl2 _]; [by apply G2|].
    destruct (H4 Hf) as (S' & HS & [(pre & m & post & Heq & _)|[_ [[m Hm]|[_ Hl]]]]).
    - by destruct pre.
    - by apply elem_of_nil in Hm.
    - by rewrite <- Hl1, <- Hl2, Hl. }
  intros Hs E1 E2. apply (anti_symm (⊆)); [by eapply Hsub|]. eapply Hsub; [apply session_flip, Hs|done..].
Qed.
End Session.

(** ** The concrete instance has the laws. *)
Module ToySync.
Import ToyDoc.

#[export] Instance toy_sync_views : SyncViews toy := {|
  their_changes := toy_their;
  last_sent := toy_sent;
  in_flight := toy_in_flight;
  announced m := m;
|}.

#[export] Instance toy_sync_laws : SyncLaws toy toy_views toy_sync_views.
Proof.
  split.
  - done.
  - intros d st m st'. simpl. unfold generate. case_match; [done|]. intros [= <- <-]. simpl. auto.
  - intros d st st'. simpl. unfold generate, same_knowledge. case_match eqn:E; [|done]. intros [= <-].
    apply andb_true_iff in E as [Hs%bool_decide_eq_true Ho]. unfold id. split; [done|]. split; [done|].
    apply orb_true_iff in Ho as [?%bool_decide_eq_true|?]; auto.
  - intros m d st pl d' st' pl' [= <- <- <-]. simpl. split; [done|]. split; [done|]. unfold id.
    case_bool_decide; auto.
Qed.
End ToySync.
