(* ===== verification/Peers.v ===== *)
(** The peers this node has chats with (src/src/persistence.rs,
    [list_chats_remote_peers_ids]): read back from the chat ids in the database. *)
From S2P Require Import Prelude External Errors ChatTypes Database.
From stdpp Require Import base gmap strings list sorting fin_maps.
From Stdlib Require Import Ascii ZArith Lia.
Open Scope tryst_scope.

(** [Vec::dedup]: of neighbours that are equal the first stays. *)
Fixpoint dedup {A} `{EqDecision A} (l : list A) : list A :=
  match l with
  | x :: l' => match l' with
               | y :: _ => if decide (x = y) then dedup l' else x :: dedup l'
               | [] => [x]
               end
  | [] => []
  end.

Lemma elem_of_dedup {A} `{EqDecision A} (l : list A) x : x ∈ dedup l <-> x ∈ l.
Proof.
  induction l as [|y l IH]; [done|]. cbn [dedup]. destruct l as [|z l]; [done|].
  destruct (decide (y = z)) as [->|Hne].
  - rewrite IH, !elem_of_cons. tauto.
  - rewrite (elem_of_cons (dedup (z :: l))), (elem_of_cons (z :: l)), IH. done.
Qed.

Section Peers.
Context {Ids : EndpointIds}.

(** The remote half of one row's chat id: [None] for a row that is skipped. *)
Definition remote_of (my_id_str chat_id : string) : option string :=
  match split_once "_" chat_id with
  | Some (first, second) =>
      match bool_decide (first = my_id_str), bool_decide (second = my_id_str) with
      | true, false => Some second
      | false, true => Some first
      | true, true => None
      | false, false => None
      end
  | None => None
  end.

(** The loop over the rows. *)
Fixpoint collect_peers (my_id_str : string) (chat_ids : list string) : outcome LibError (list EndpointId) :=
  match chat_ids with
  | [] => Ok []
  | chat_id :: rest =>
      match remote_of my_id_str chat_id with
      | None => collect_peers my_id_str rest
      | Some remote_node_id_str =>
          match id_from_str remote_node_id_str with
          | None => Err (lib_of_anyhow ("Expected to parse EndpointId from string. Value: " +:+ remote_node_id_str))
          | Some remote_node_id =>
              let? peers := collect_peers my_id_str rest in
              Ok (remote_node_id :: peers)
          end
      end
  end.

Definition list_chats_remote_peers_ids (my_public_id : EndpointId) :
    action (World Db) LibError (list EndpointId) :=
  chat_ids <- stmt select_chat_ids ;;
  peer_ids <- lift (collect_peers (id_to_string my_public_id) chat_ids) ;;
  ret (dedup (sort_by id_leb peer_ids)).

Context {Laws : EndpointIdLaws Ids}.

(** What [remote_of] makes of a row this program wrote. *)
Lemma remote_of_chat_id me c :
  remote_of (id_to_string me) (chat_id_to_string c) =
    if bool_decide (my_id c = me) then
      if bool_decide (remote_peer c = me) then None else Some (id_to_string (remote_peer c))
    else if bool_decide (remote_peer c = me) then Some (id_to_string (my_id c)) else None.
Proof using Laws.
  unfold remote_of. rewrite chat_id_split.
  assert (forall a, bool_decide (id_to_string a = id_to_string me) = bool_decide (a = me)) as Hd
    by (intros a; apply bool_decide_ext; split; [apply (inj id_to_string)|by intros ->]).
  destruct (id_leb (my_id c) (remote_peer c)); rewrite !Hd;
    by destruct (bool_decide (my_id c = me)), (bool_decide (remote_peer c = me)).
Qed.

Lemma remote_of_chat_id_Some me c s :
  remote_of (id_to_string me) (chat_id_to_string c) = Some s ->
  exists q, s = id_to_string q /\ q <> me /\
    chat_id_to_string c = chat_id_to_string {| my_id := me; remote_peer := q |}.
Proof using Laws.
  rewrite remote_of_chat_id. destruct c as [a b]. cbn [my_id remote_peer].
  repeat case_bool_decide; intros [= <-]; subst.
  - by exists b.
  - exists a. split; [done|]. split; [done|].
    by rewrite <- (chat_id_to_string_swap {| my_id := me; remote_peer := a |}).
Qed.

Lemma collect_peers_ok me rows :
  (forall row, row ∈ rows -> exists c, row = chat_id_to_string c) ->
  exists l, collect_peers (id_to_string me) rows = Ok l /\
    forall q, q ∈ l <-> q <> me /\ chat_id_to_string {| my_id := me; remote_peer := q |} ∈ rows.
Proof using Laws.
  induction rows as [|row rows IH]; intros Hrows.
  { exists []. split; [done|]. intros q. rewrite !elem_of_nil. tauto. }
  destruct IH as (l & E & Hl); [intros; apply Hrows; by right|].
  destruct (Hrows row) as [c ->]; [by left|]. cbn [collect_peers].
  destruct (remote_of _ _) as [s|] eqn:Er.
  - destruct (remote_of_chat_id_Some _ _ _ Er) as (q & -> & Hq & Hc).
    rewrite id_from_to_string, E. simpl. exists (q :: l). split; [done|]. intros q'.
    rewrite !elem_of_cons, Hl, Hc. split.
    + intros [->|[? ?]]; auto.
    + intros [Hne [Heq|Hin]]; [|by auto]. left.
      apply chat_id_to_string_inj in Heq as [Heq|Heq]; unfold swap_chat_id in Heq; by simplify_eq/=.
  - exists l. split; [done|]. intros q. rewrite Hl, elem_of_cons. split; [by intros [? ?]; auto|].
    intros [Hne [Heq|Hin]]; [|done]. exfalso. rewrite <- Heq, remote_of_chat_id in Er.
    cbn [my_id remote_peer] in Er. rewrite bool_decide_eq_true_2, bool_decide_eq_false_2 in Er by done.
    done.
Qed.

Lemma dedup_sorted l : sorted_by id_leb l -> StronglySorted (fun a b => id_ltb a b = true) (dedup l).
Proof using Laws.
  induction 1 as [|x l Hl IH Hx]; [constructor|]. cbn [dedup]. destruct l as [|y l]; [repeat constructor|].
  destruct (decide (x = y)) as [->|Hne]; [done|]. constructor; [done|].
  apply Forall_forall. intros z Hz. apply (proj1 (elem_of_dedup _ _)) in Hz.
  pose proof (Forall_inv Hx) as Hxy. apply id_leb_lt_or_eq in Hxy as [Hxy|?]; [|done].
  apply StronglySorted_inv in Hl as [_ Hy]. apply elem_of_cons in Hz as [->|Hz]; [done|].
  rewrite Forall_forall in Hy. specialize (Hy z Hz). apply id_leb_lt_or_eq in Hy as [Hy| ->]; [|done].
  by eapply id_ltb_trans.
Qed.

(** The listing on a calm pool whose rows are chat ids. *)
Lemma list_peers_calm me w :
  (forall row, row ∈ dom (chats (store w)) -> exists c, row = chat_id_to_string c) -> forecast w = [] ->
  exists l, list_chats_remote_peers_ids me w = (Ok (dedup (sort_by id_leb l)), w) /\
    forall q, q ∈ l <-> q <> me /\ chat_id_to_string {| my_id := me; remote_peer := q |} ∈ dom (chats (store w)).
Proof using Laws.
  intros Hrows Hcalm. destruct w as [d fc]. simpl in Hcalm, Hrows. subst fc. cbn [store].
  assert (forall row, row ∈ (map_to_list (chats d)).*1 <-> row ∈ dom (chats d)) as Hdom.
  { intros row. rewrite elem_of_dom, list_elem_of_fmap. split.
    - intros ([k v] & -> & Hin%elem_of_map_to_list). eauto.
    - intros [v Hv]. exists (row, v). split; [done|]. by apply elem_of_map_to_list. }
  destruct (collect_peers_ok me (map_to_list (chats d)).*1) as (l & E & Hl).
  { intros row Hrow. apply Hrows. by apply Hdom. }
  exists l. split; [|intros q; by rewrite Hl, Hdom].
  unfold list_chats_remote_peers_ids, bind, stmt. simpl. unfold lift. by rewrite E.
Qed.

(** C34. On a database whose rows are chat ids this program wrote (of any nodes), the listing
    is exactly the other nodes this node has a chat with, in order and each once; a chat with
    oneself and chats of other nodes are left out. *)
Theorem remote_peers_exact me w :
  (forall row, row ∈ dom (chats (store w)) -> exists c, row = chat_id_to_string c) -> forecast w = [] ->
  exists l, list_chats_remote_peers_ids me w = (Ok l, w) /\
    StronglySorted (fun a b => id_ltb a b = true) l /\
    forall q, q ∈ l <-> q <> me /\ chat_id_to_string {| my_id := me; remote_peer := q |} ∈ dom (chats (store w)).
Proof using Laws.
  intros Hrows Hcalm. destruct (list_peers_calm me w Hrows Hcalm) as (l & E & Hl).
  exists (dedup (sort_by id_leb l)). split; [done|].
  split; [apply dedup_sorted, sort_by_sorted; [apply id_leb_total|apply id_leb_trans]|].
  intros q. by rewrite elem_of_dedup, sort_by_Permutation, Hl.
Qed.

(** One row that names this node next to something that is no node id makes the whole
    listing fail, with a text that shows it; rows without a separator do not. *)
Theorem remote_peers_parse_error me w bad l1 l2 :
  forecast w = [] -> (map_to_list (chats (store w))).*1 = l1 ++ bad :: l2 ->
  (forall row, row ∈ l1 -> (exists c, row = chat_id_to_string c) \/ split_once "_" row = None) ->
  (exists s, remote_of (id_to_string me) bad = Some s /\ id_from_str s = None) ->
  exists s, list_chats_remote_peers_ids me w = (Err (Unexpected s), w) /\
    exists other, remote_of (id_to_string me) bad = Some other /\
      s = "Expected to parse EndpointId from string. Value: " +:+ other.
Proof using Laws.
  intros Hcalm Hrows Hl1 (other & Hr & Hp). destruct w as [d fc]. simpl in Hcalm, Hrows. subst fc.
  eexists. split; [|by exists other].
  unfold list_chats_remote_peers_ids, bind, stmt. simpl. rewrite Hrows. unfold lift.
  clear Hrows. induction l1 as [|row l1 IH]; simpl.
  - by rewrite Hr, Hp.
  - destruct (Hl1 row) as [[c ->]|Hnone]; [by left| |].
    + destruct (remote_of _ (chat_id_to_string c)) as [s|] eqn:Er.
      * destruct (remote_of_chat_id_Some _ _ _ Er) as (q & -> & _). rewrite id_from_to_string.
        assert (forall row, row ∈ l1 -> (exists c, row = chat_id_to_string c) \/ split_once "_" row = None)
          as Hl1' by (intros; apply Hl1; by right).
        specialize (IH Hl1').
        destruct (collect_peers _ _) as [x|e|]; simpl in *; by simplify_eq/=.
      * apply IH. intros; apply Hl1; by right.
    + unfold remote_of. rewrite Hnone. apply IH. intros; apply Hl1; by right.
Qed.
End Peers.

Module PeersSamples.
Import Concrete.

Definition db : Db := {|
  chats := <[chat_id_to_string {| my_id := 0 : @EndpointId keys; remote_peer := 2 : @EndpointId keys |} := []]>
    (<[chat_id_to_string {| my_id := 1 : @EndpointId keys; remote_peer := 0 : @EndpointId keys |} := []]> ∅);
  chat_log := []; next_log_id := 1 |}.

Lemma remote_peers_exact_witness :
  exists l, list_chats_remote_peers_ids (0 : @EndpointId keys) {| store := db; forecast := [] |} =
    (Ok l, {| store := db; forecast := [] |}) /\ (1 : @EndpointId keys) ∈ l /\ ~ (3 : @EndpointId keys) ∈ l.
Proof.
  destruct (remote_peers_exact (0 : @EndpointId keys) {| store := db; forecast := [] |}) as (l & E & _ & Hl).
  - cbn [store db chats]. intros row. rewrite !dom_insert_L, !elem_of_union, !elem_of_singleton.
    intros [->|[->|Hrow]]; [eauto..|]. by rewrite dom_empty_L in Hrow.
  - done.
  - exists l. split; [done|]. rewrite !Hl. cbn [store db chats].
    rewrite !dom_insert_L, !elem_of_union, !elem_of_singleton, dom_empty_L. split.
    + split; [done|]. right. left. by vm_compute.
    + intros [_ [Heq|[Heq|Hin]]]; [vm_compute in Heq; discriminate..|]. by apply elem_of_empty in Hin.
Defined.

Lemma remote_peers_parse_error_witness :
  exists s, list_chats_remote_peers_ids (0 : @EndpointId keys)
    {| store := {| chats := {["z_x" := []]}; chat_log := []; next_log_id := 1 |}; forecast := [] |} =
    (Err (Unexpected s), {| store := {| chats := {["z_x" := []]}; chat_log := []; next_log_id := 1 |}; forecast := [] |}).
Proof.
  destruct (remote_peers_parse_error (0 : @EndpointId keys)
    {| store := {| chats := {["z_x" := []]}; chat_log := []; next_log_id := 1 |}; forecast := [] |}
    "z_x" [] []) as (s & E & _).
  - done.
  - cbn [store chats]. by rewrite map_to_list_singleton.
  - by intros row Hrow%elem_of_nil.
  - by exists "x".
  - by exists s.
Defined.
End PeersSamples.
