(* ===== verification/Manager.v ===== *)
(** The chat manager (src/src/manager.rs): the actor of one chat, which owns the chat's
    repository and connection, one definition per handler and [select!] branch. *)
From S2P Require Import Prelude External Wire Errors ChatTypes Database Serial Automerge Schema Repository Connection.
From stdpp Require Import base gmap strings list.
From Stdlib Require Import ZArith Lia.
Import ChatRepository.
Open Scope tryst_scope.

Definition CHANNEL_BUFFER : nat := 1024.

(** [impl From<sync::Message> for SyncMessage] and [TryFrom<SyncMessage>]
    (protocols/chat/message.rs) are the crate's [encode] and [decode]. *)
Class SyncCodec {OI : ObjIds} (AM : Automerges) := {
  sync_encode : SyncMsg -> bytes;
  sync_decode : bytes -> option SyncMsg;
}.

Module ChatManager.
Section Manager.
Context {Ids : EndpointIds} {Us : Uuids} {OI : ObjIds} {AM : Automerges} {SC : SyncCodec AM}.

(** Receivers (foreign objects) and oneshot channels are external, known by a number. *)
Inductive InMessage :=
| Single (msg : ChatMessageContent) (tx : nat)
| All (tx : nat)
| PassAcceptedConnHandle (handle : ChatConnectionHandle).

Record SubscribeMessage := { subscriber : nat; subscribe_tx : nat }.

(** What the actor does to the outside. *)
Inductive output :=
| ProcessMessages (receiver : nat) (msgs : list ChatMessage)
| ProcessConnectionState (receiver : nat) (state : UniffiChatConnectionState)
| ProcessSyncStatus (receiver : nat) (is_synced : bool)
| ConnEffect (e : ChatConnection.effect)
| ReplySingle (tx : nat) (result : outcome LibError ChatMessage)
| ReplyAll (tx : nat) (result : outcome LibError (list ChatMessage))
| ReplySubscribe (tx : nat).

(** The fields of [Actor]. [sync_seen] and [conn_seen] are what the two watch receivers
    have seen: the version of the sync status, and whether the current connection state
    is news. [log] is everything the actor did so far. *)
Record Actor := {
  doc_state : Repo * World Db;
  conn : ChatConnection.Inner;
  msg_receiver : option nat;
  sync_seen : nat;
  conn_changed : bool;
  reset_doc_state : bool;
  log : list output;
}.

(** What one turn reads from its environment: the clock, fresh ids, whether the other end
    of a channel is still there, and the build. *)
Record Env := {
  now : Z;
  fresh_uuid : Uuid;
  rotation_id : Uuid;
  is_open : nat -> bool;
  oneshot_open : nat -> bool;
  overflow_checks : bool;
}.

Definition set_doc_state (d : Repo * World Db) (a : Actor) : Actor :=
  {| doc_state := d; conn := conn a; msg_receiver := msg_receiver a; sync_seen := sync_seen a;
     conn_changed := conn_changed a; reset_doc_state := reset_doc_state a; log := log a |}.
Definition set_msg_receiver (r : option nat) (a : Actor) : Actor :=
  {| doc_state := doc_state a; conn := conn a; msg_receiver := r; sync_seen := sync_seen a;
     conn_changed := conn_changed a; reset_doc_state := reset_doc_state a; log := log a |}.
Definition set_sync_seen (n : nat) (a : Actor) : Actor :=
  {| doc_state := doc_state a; conn := conn a; msg_receiver := msg_receiver a; sync_seen := n;
     conn_changed := conn_changed a; reset_doc_state := reset_doc_state a; log := log a |}.
Definition set_conn (c : ChatConnection.Inner) (changed : bool) (a : Actor) : Actor :=
  {| doc_state := doc_state a; conn := c; msg_receiver := msg_receiver a; sync_seen := sync_seen a;
     conn_changed := changed; reset_doc_state := reset_doc_state a; log := log a |}.
Definition set_reset_doc_state (b : bool) (a : Actor) : Actor :=
  {| doc_state := doc_state a; conn := conn a; msg_receiver := msg_receiver a; sync_seen := sync_seen a;
     conn_changed := conn_changed a; reset_doc_state := b; log := log a |}.
Definition add_log (os : list output) (a : Actor) : Actor :=
  {| doc_state := doc_state a; conn := conn a; msg_receiver := msg_receiver a; sync_seen := sync_seen a;
     conn_changed := conn_changed a; reset_doc_state := reset_doc_state a; log := log a ++ os |}.

Definition emit {E} (os : list output) : action Actor E unit := modify (add_log os).

(** A call on [self.doc]. *)
Definition on_repo {E A} (c : action (Repo * World Db) E A) : action Actor E A :=
  fun a => let '(r, d) := c (doc_state a) in (r, set_doc_state d a).

(** A method of [self.conn] that changes it; a wake-up of its watchers is news for this
    actor's receiver too. *)
Definition notifies (e : ChatConnection.effect) : bool :=
  match e with ChatConnection.NotifyWatchers _ => true | _ => false end.
Definition on_conn {E} (f : ChatConnection.Inner -> ChatConnection.Inner * list ChatConnection.effect) :
    action Actor E unit := fun a =>
  let '(c, es) := f (conn a) in
  (Ok tt, add_log (ConnEffect <$> es) (set_conn c (conn_changed a || existsb notifies es) a)).

(** To the receiver, if one is set up. *)
Definition to_receiver {E} (o : nat -> output) : action Actor E unit :=
  r <- gets msg_receiver ;;
  match r with Some r => emit [o r] | None => ret tt end.

Definition handle_outgoing_sync_message {E} (env : Env) (sync_msg : option SyncMsg) : action Actor E unit :=
  c <- gets conn ;;
  emit (ConnEffect <$>
    ChatConnection.send_message (is_open env) (Sync (MkSyncMessage ∘ sync_encode <$> sync_msg)) c).

Definition handle_connection_state_change {E} (env : Env) (new_state : ChatConnectionState) :
    action Actor E unit :=
  to_receiver (fun r => ProcessConnectionState r (uniffi_state_of new_state)) ;;;
  match new_state with
  | CConnected _ =>
      on_repo reset_sync_state ;;;
      sync_msg <- on_repo generate_sync_message ;;
      handle_outgoing_sync_message env sync_msg
  | _ => ret tt
  end.

Definition handle_subscription (subscribe_msg : option SubscribeMessage) : action Actor anyhow unit :=
  match subscribe_msg with
  | None => throw "ChatManagerActor: Subscribe message channel is closed. Closing manager..."
  | Some m =>
      is_synced <- gets (fun a => sync_status (doc_state a).1) ;;
      new_conn_state <- gets (fun a => ChatConnection.state_value (conn a)) ;;
      emit [ProcessSyncStatus (subscriber m) is_synced;
            ProcessConnectionState (subscriber m) (uniffi_state_of new_conn_state)] ;;;
      modify (set_msg_receiver (Some (subscriber m))) ;;;
      emit [ReplySubscribe (subscribe_tx m)]
  end.

Definition handle_incomming_message {E} (env : Env) (msg : ProtoMessage) : action Actor E unit :=
  match msg with
  | Sync proto_sync_msg =>
      let handle (in_sync_msg : option SyncMsg) : action Actor E unit :=
        received <- catch (on_repo (receive_sync_message in_sync_msg)) ;;
        match received with
        | inr (chunks, reply_action) =>
            modify (set_reset_doc_state false) ;;;
            (if bool_decide (chunks = []) then ret tt
             else to_receiver (fun r => ProcessMessages r chunks)) ;;;
            match reply_action with
            | Some out_sync_msg => handle_outgoing_sync_message env out_sync_msg
            | None => ret tt
            end
        | inl rx_err =>
            was_reset <- gets reset_doc_state ;;
            if (was_reset : bool) then ret tt
            else
              reset <- catch (on_repo reset_doc_state_to_persisted) ;;
              match reset with
              | inr _ =>
                  modify (set_reset_doc_state true) ;;;
                  sync_message <- on_repo generate_sync_message ;;
                  handle_outgoing_sync_message env sync_message
              | inl reset_err => ret tt
              end
        end in
      match proto_sync_msg with
      | Some m =>
          match sync_decode (sync_bytes m) with
          | Some msg => handle (Some msg)
          | None => ret tt
          end
      | None => handle None
      end
  end.

(** A finished call's result, as a value to reply with. *)
Definition result_of {A} (r : LibError + A) : outcome LibError A :=
  match r with inr a => Ok a | inl e => Err e end.

Definition handle_outgoing_message (env : Env) (in_msg : option InMessage) : action Actor anyhow unit :=
  match in_msg with
  | None => throw "ChatManagerActor: Outgoing message channel is closed. Closing manager..."
  | Some (Single msg tx) =>
      added <- catch (on_repo (add_message (now env) (fresh_uuid env) msg)) ;;
      result <- match added with
                | inr (msgs, sync_msg) => handle_outgoing_sync_message env sync_msg ;;; ret (inr msgs)
                | inl err => ret (inl err)
                end ;;
      if oneshot_open env tx then emit [ReplySingle tx (result_of result)]
      else throw "ChatManagerActor: Failed to return add message result. Channel is closed."
  | Some (All tx) =>
      result <- catch (reads (fun a => ChatRepository.get_all_messages (overflow_checks env) (doc_state a).1)) ;;
      if oneshot_open env tx then emit [ReplyAll tx (result_of result)]
      else throw "ChatManagerActor: Failed to return all messages. Channel closed."
  | Some (PassAcceptedConnHandle handle) => on_conn (ChatConnection.update_handle handle (rotation_id env))
  end.

(** *** The [select!] loop *)

(** What is ready when a turn begins; the outer [option] of a channel is whether its
    [recv()] is ready, the inner one what it returns. *)
Record Ready := {
  cancelled : bool;
  tick : bool;
  subscribe_rx : option (option SubscribeMessage);
  in_rx : option (option InMessage);
  conn_rx : option (option ProtoMessage);
}.

Inductive control := Continue | Stop.

Definition is_connected (s : ChatConnectionState) : bool :=
  match s with CConnected _ => true | _ => false end.

(** One turn of the loop: the first ready branch in the order of the [biased] select. *)
Definition turn (env : Env) (rdy : Ready) : action Actor anyhow control :=
  a <- gets id ;;
  if cancelled rdy then on_conn ChatConnection.close ;;; ret Stop
  else if tick rdy then
    match ChatConnection.state_value (conn a) with
    | CConnected _ =>
        sync_msg <- on_repo generate_sync_message ;;
        handle_outgoing_sync_message env sync_msg ;;; ret Continue
    | CDisconnected => emit (ConnEffect <$> ChatConnection.reconnect) ;;; ret Continue
    | CReconnecting => ret Continue
    end
  else if negb (bool_decide (sync_seen a = status_version (doc_state a).1)) then
    modify (set_sync_seen (status_version (doc_state a).1)) ;;;
    to_receiver (fun r => ProcessSyncStatus r (sync_status (doc_state a).1)) ;;; ret Continue
  else if conn_changed a then
    modify (set_conn (conn a) false) ;;;
    handle_connection_state_change env (ChatConnection.state_value (conn a)) ;;; ret Continue
  else
    match subscribe_rx rdy, in_rx rdy, conn_rx rdy with
    | Some subscribe_msg, _, _ => handle_subscription subscribe_msg ;;; ret Continue
    | None, Some in_msg, _ => handle_outgoing_message env in_msg ;;; ret Continue
    | None, None, Some incoming =>
        if is_connected (ChatConnection.state_value (conn a)) then
          let '(msg_opt, es) := ChatConnection.receive (fun _ => incoming) (conn a) in
          emit (ConnEffect <$> es) ;;;
          match msg_opt with
          | Some msg => handle_incomming_message env msg ;;; ret Continue
          | None => ret Continue
          end
        else ret Continue
    | None, None, None => ret Continue
    end.

(** Between two turns other tasks work on the connection. *)
Record Turn := {
  conn_before : ChatConnection.Inner -> ChatConnection.Inner * bool;
  env : Env;
  ready : Ready;
}.

Definition others_on_conn (t : Turn) (a : Actor) : Actor :=
  let '(c, changed) := conn_before t (conn a) in set_conn c (conn_changed a || changed) a.

(** The loop over the turns of a run; [Continue] when they are used up. *)
Fixpoint run_loop (ts : list Turn) : action Actor anyhow control :=
  match ts with
  | [] => ret Continue
  | t :: ts' =>
      modify (others_on_conn t) ;;;
      c <- turn (env t) (ready t) ;;
      match c with Stop => ret Stop | Continue => run_loop ts' end
  end.

Definition run (env0 : Env) (ts : list Turn) : action Actor anyhow control :=
  initial_conn_state <- gets (fun a => ChatConnection.state_value (conn a)) ;;
  modify (fun a => set_conn (conn a) false a) ;;;
  handle_connection_state_change env0 initial_conn_state ;;;
  run_loop ts.

(** The task [ChatManager::new] spawns: when [run] is over, with an error or not, the
    connection is closed. *)
Definition actor_task (env0 : Env) (ts : list Turn) : action Actor anyhow control :=
  r <- catch (run env0 ts) ;;
  match r with
  | inr Continue => ret Continue
  | inr Stop => on_conn ChatConnection.close ;;; ret Stop
  | inl _ => on_conn ChatConnection.close ;;; ret Stop
  end.

(** [ChatManager::new]: the actor it starts. *)
Definition new (doc : Repo * World Db) (conn : ChatConnection.Inner) : Actor :=
  {| doc_state := doc; conn := conn; msg_receiver := None; sync_seen := status_version doc.1;
     conn_changed := false; reset_doc_state := false; log := [] |}.

(** *** The calls of [ChatManager] *)

(** What became of a message sent to the actor: the channel was closed; the actor dropped
    the oneshot without an answer; or it answered. The texts are the channel errors'. *)
Inductive exchange (A : Type) :=
| NotSent (err : string)
| NoReply (err : string)
| Replied (result : outcome LibError A).
Arguments NotSent {A} err.
Arguments NoReply {A} err.
Arguments Replied {A} result.

(** The sequence the three calls share, with their error texts. *)
Definition request {A} (send_failed receive_failed : string) (x : exchange A) : outcome GossipError A :=
  match x with
  | NotSent err => Err (gossip_of_anyhow (send_failed +:+ err))
  | NoReply err => Err (gossip_of_anyhow (receive_failed +:+ err))
  | Replied result => map_err gossip_of_lib result
  end.

Definition subscribe (x : exchange unit) : outcome GossipError unit :=
  request "ChatManager: Failed to send subscribe message. Channel closed. Err: "
          "ChatManager: Failed to receive subscribe result. Channel closed. Err: " x.

Definition send_message (x : exchange ChatMessage) : outcome GossipError ChatMessage :=
  request "ChatManager: Failed to send InMessage::Single. Channel closed. Err: "
          "ChatManager: Failed to receive send_message result. Channel closed. Err: " x.

Definition get_all_messages (x : exchange (list ChatMessage)) : outcome GossipError (list ChatMessage) :=
  request "ChatManager: Failed to send InMessage::All. Channel closed. Err: "
          "ChatManager: Failed to receive all messages result. Channel closed. Err: " x.
End Manager.

(** ** What the actor keeps *)
Section Keeps.
Context {Ids : EndpointIds} {Us : Uuids} {OI : ObjIds} {AM : Automerges} {SC : SyncCodec AM}
  {V : DocViews AM} {Laws : AutomergeLaws AM V}.

Definition acknowledges (o : output) : bool :=
  match o with ReplySingle _ (Ok _) => true | _ => false end.

(** From [a] to [a'] the chat stays the same, whatever the database is known to hold it
    still holds, and no sent message was acknowledged. *)
Record steady (a a' : Actor) : Prop := {
  steady_saved cs : saved_prefix cs (doc_state a) -> saved_prefix cs (doc_state a');
  steady_chat cs : saved_prefix cs (doc_state a) -> chat_id (doc_state a').1 = chat_id (doc_state a).1;
  steady_log : exists os, log a' = log a ++ os /\ Forall (fun o => acknowledges o = false) os;
}.

#[export] Instance steady_preorder : PreOrder steady.
Proof.
  split.
  - intros a. split; [done..|]. exists []. by rewrite app_nil_r.
  - intros a b c [Hs1 Hc1 (os1 & Hl1 & Hf1)] [Hs2 Hc2 (os2 & Hl2 & Hf2)]. split.
    + auto.
    + intros cs Hs. rewrite (Hc2 cs) by auto. eauto.
    + exists (os1 ++ os2). rewrite Hl2, Hl1, (assoc_L (++)). split; [done|]. by apply Forall_app.
Qed.

(** An action all of whose runs are steady. *)
Definition keeps {E A} (c : action Actor E A) : Prop := forall a, steady a (c a).2.

Lemma keeps_bind {E A B} (c : action Actor E A) (k : A -> action Actor E B) :
  keeps c -> (forall x, keeps (k x)) -> keeps (bind c k).
Proof.
  intros Hc Hk a. unfold bind. specialize (Hc a). destruct (c a) as [[x|e|] a1]; simpl in *; [|done..].
  etransitivity; [exact Hc|apply Hk].
Qed.

Lemma keeps_catch {E E' A} (c : action Actor E A) : keeps c -> keeps (catch (E' := E') c).
Proof. intros Hc a. unfold catch. specialize (Hc a). by destruct (c a) as [[x|e|] a1]. Qed.

Lemma keeps_same {E A} (c : action Actor E A) :
  (forall a, doc_state (c a).2 = doc_state a /\ log (c a).2 = log a) -> keeps c.
Proof.
  intros Hc a. destruct (Hc a) as [Hd Hl]. split.
  - intros cs. by rewrite Hd.
  - intros cs _. by rewrite Hd.
  - exists []. by rewrite Hl, app_nil_r.
Qed.

Lemma keeps_emit {E} os : Forall (fun o => acknowledges o = false) os -> keeps (emit (E := E) os).
Proof. intros Hos a. split; [done..|]. by exists os. Qed.

Lemma keeps_conn_effects {E} es : keeps (emit (E := E) (ConnEffect <$> es)).
Proof. apply keeps_emit, Forall_fmap, Forall_forall. done. Qed.

Lemma keeps_on_conn {E} f : keeps (on_conn (E := E) f).
Proof.
  intros a. unfold on_conn. destruct (f (conn a)) as [c es]. split; [done..|].
  exists (ConnEffect <$> es). split; [done|]. apply Forall_fmap, Forall_forall. done.
Qed.

Lemma keeps_to_receiver {E} o : (forall r, acknowledges (o r) = false) -> keeps (to_receiver (E := E) o).
Proof.
  intros Ho. unfold to_receiver. apply keeps_bind; [by apply keeps_same|].
  intros [r|]; [|by apply keeps_same]. apply keeps_emit. by repeat constructor.
Qed.

(** Calls on the repository keep what the database holds. *)
Lemma keeps_on_repo {E A} (c : action (Repo * World Db) E A) :
  (forall cs s r s', saved_prefix cs s -> c s = (r, s') ->
     saved_prefix cs s' /\ chat_id s'.1 = chat_id s.1) -> keeps (on_repo c).
Proof.
  intros Hc a. unfold on_repo. destruct (c (doc_state a)) as [r d] eqn:E1. split; cbn [snd doc_state set_doc_state].
  - intros cs Hs. by apply (Hc cs _ _ _ Hs E1).
  - intros cs Hs. by apply (Hc cs _ _ _ Hs E1).
  - exists []. by rewrite app_nil_r.
Qed.

Lemma keeps_generate {E} : keeps (on_repo (E := E) generate_sync_message).
Proof using Laws.
  apply keeps_on_repo. intros cs s r s' Hs Hg.
  destruct (generate_sync_message_frame (E := E) s) as (m & s1 & E1 & Hw & Hc & Hd & Hh).
  rewrite Hg in E1. simplify_eq. split; [|done]. apply (saved_prefix_frame cs s); rewrite ?Hd; done.
Qed.

Lemma keeps_reset_sync {E} : keeps (on_repo (E := E) reset_sync_state).
Proof.
  apply keeps_on_repo. intros cs s r s' Hs [= <- <-]. split; [|done]. by apply (saved_prefix_frame cs s).
Qed.

Lemma keeps_receive m : keeps (on_repo (receive_sync_message m)).
Proof using Laws.
  apply keeps_on_repo. intros cs s r s' Hs Hr.
  by destruct (receive_sync_message_durable cs m s r s' Hs Hr) as (? & ? & _).
Qed.

Lemma keeps_reset_doc : keeps (on_repo reset_doc_state_to_persisted).
Proof using Laws.
  apply keeps_on_repo. intros cs s r s' Hs Hr.
  by destruct (reset_doc_state_durable cs s r s' Hs Hr) as (? & ? & _).
Qed.

Lemma keeps_add now uuid msg : keeps (on_repo (add_message now uuid msg)).
Proof using Laws.
  apply keeps_on_repo. intros cs s r s' Hs Hr.
  by destruct (add_message_durable cs now uuid msg s r s' Hs Hr) as (? & ? & _).
Qed.

Lemma keeps_send {E} env m : keeps (handle_outgoing_sync_message (E := E) env m).
Proof. apply keeps_bind; [by apply keeps_same|]. intros c. apply keeps_conn_effects. Qed.
End Keeps.

(** [keeps] of a composed handler: sequence, catch, and the calls above. *)
Ltac solve_keeps :=
  repeat first
    [ apply keeps_bind; [|intros ?] | apply keeps_catch | apply keeps_generate | apply keeps_reset_sync
    | apply keeps_receive | apply keeps_reset_doc | apply keeps_add | apply keeps_send
    | apply keeps_conn_effects | apply keeps_on_conn | apply keeps_to_receiver; done
    | apply keeps_same; done | apply keeps_emit; by repeat constructor
    | match goal with |- keeps (match ?x with _ => _ end) => destruct x end
    | match goal with |- keeps (let _ := _ in _) => cbv zeta end ].

Section Handlers.
Context {Ids : EndpointIds} {Us : Uuids} {OI : ObjIds} {AM : Automerges} {SC : SyncCodec AM}
  {V : DocViews AM} {Laws : AutomergeLaws AM V}.

Lemma keeps_state_change {E} env s : keeps (handle_connection_state_change (E := E) env s).
Proof using Laws. unfold handle_connection_state_change. solve_keeps. Qed.

Lemma keeps_subscription m : keeps (handle_subscription m).
Proof. unfold handle_subscription. solve_keeps. Qed.

Lemma keeps_incoming {E} env m : keeps (handle_incomming_message (E := E) env m).
Proof using Laws. unfold handle_incomming_message. solve_keeps. Qed.

(** The same, but an acknowledgement may be among the outputs: then the database holds the
    whole document. *)
Record safe (a a' : Actor) : Prop := {
  safe_saved cs : saved_prefix cs (doc_state a) -> saved_prefix cs (doc_state a');
  safe_chat cs : saved_prefix cs (doc_state a) -> chat_id (doc_state a').1 = chat_id (doc_state a).1;
  safe_log : exists os, log a' = log a ++ os /\
    forall cs, saved_prefix cs (doc_state a) -> existsb acknowledges os = true -> all_saved (doc_state a');
}.

Lemma add_log_add_log os1 os2 a : add_log os2 (add_log os1 a) = add_log (os1 ++ os2) a.
Proof. unfold add_log. simpl. by rewrite (assoc_L (++)). Qed.

Lemma silent_existsb os : Forall (fun o => acknowledges o = false) os -> existsb acknowledges os = false.
Proof. induction 1 as [|o os Ho _ IH]; simpl; [done|]. by rewrite Ho. Qed.

Lemma steady_safe a a' : steady a a' -> safe a a'.
Proof.
  intros [Hs Hc (os & Hl & Hf)]. split; [done..|]. exists os. split; [done|].
  intros cs _. by rewrite (silent_existsb os Hf).
Qed.

Lemma keeps_safe {E A} (c : action Actor E A) a : keeps c -> safe a (c a).2.
Proof. intros Hc. apply steady_safe, Hc. Qed.

Lemma handle_outgoing_message_safe env m a : safe a (handle_outgoing_message env m a).2.
Proof using Laws.
  destruct m as [[msg tx|tx|h]|]; cbn [handle_outgoing_message].
  - unfold bind at 1, catch, on_repo.
    destruct (add_message (now env) (fresh_uuid env) msg (doc_state a)) as [r d] eqn:E.
    assert (forall cs, saved_prefix cs (doc_state a) ->
      saved_prefix cs d /\ chat_id d.1 = chat_id (doc_state a).1 /\ (is_ok r = true -> all_saved d)) as Hd.
    { intros cs Hs. by destruct (add_message_durable cs _ _ _ _ _ _ Hs E) as (? & ? & _ & _ & ?). }
    assert (forall os, existsb acknowledges os = true -> is_ok r = true ->
      safe a (add_log os (set_doc_state d a))) as Hack.
    { intros os Hos Hr. split; [intros cs Hs; by apply Hd|intros cs Hs; by apply (Hd cs)|].
      exists os. split; [done|]. intros cs Hs _. by apply (Hd cs). }
    assert (forall os, existsb acknowledges os = false -> safe a (add_log os (set_doc_state d a))) as Hsil.
    { intros os Hos. split; [intros cs Hs; by apply Hd|intros cs Hs; by apply (Hd cs)|].
      exists os. split; [done|]. intros cs _. by rewrite Hos. }
    pose proof (Hsil [] eq_refl) as Hnil. unfold add_log in Hnil. rewrite app_nil_r in Hnil.
    destruct r as [[m out]|e|]; [| |exact Hnil].
    + unfold handle_outgoing_sync_message, gets, emit, modify, ret, throw. unfold bind.
      cbn [result_of]. destruct (oneshot_open env tx); cbn [snd].
      * rewrite add_log_add_log. apply Hack; [|done]. by rewrite existsb_app, orb_true_r.
      * apply Hsil. apply silent_existsb, Forall_fmap, Forall_forall. done.
    + unfold bind, ret, emit, modify, throw. cbn [result_of].
      destruct (oneshot_open env tx); cbn [snd result_of]; [by apply Hsil|done].
  - apply keeps_safe. apply keeps_bind; [by apply keeps_catch, keeps_same|].
    intros x. destruct (oneshot_open env tx); [|by apply keeps_same]. apply keeps_emit. by repeat constructor.
  - apply keeps_safe, keeps_on_conn.
  - apply keeps_safe. by apply keeps_same.
Qed.

Lemma turn_safe env rdy a : safe a (turn env rdy a).2.
Proof using Laws.
  unfold turn. unfold bind at 1, gets, id.
  destruct (cancelled rdy). { apply keeps_safe. solve_keeps. }
  destruct (tick rdy). { apply keeps_safe. solve_keeps. }
  destruct (negb _). { apply keeps_safe. solve_keeps. }
  destruct (conn_changed a). { apply keeps_safe. repeat (apply keeps_state_change || solve_keeps). }
  destruct (subscribe_rx rdy) as [m|]. { apply keeps_safe. repeat (apply keeps_subscription || solve_keeps). }
  destruct (in_rx rdy) as [m|].
  { unfold bind. pose proof (handle_outgoing_message_safe env m a) as Hs.
    by destruct (handle_outgoing_message env m a) as [[[]|e|] a1]. }
  destruct (conn_rx rdy) as [incoming|]; [|by apply keeps_safe, keeps_same].
  destruct (is_connected _); [|by apply keeps_safe, keeps_same].
  destruct (ChatConnection.receive _ _) as [[msg|] es]; apply keeps_safe;
    repeat (apply keeps_incoming || solve_keeps).
Qed.

(** Other tasks work on the connection only. *)
Lemma others_on_conn_doc t a :
  doc_state (others_on_conn t a) = doc_state a /\ log (others_on_conn t a) = log a.
Proof. unfold others_on_conn. by destruct (conn_before t (conn a)). Qed.

Lemma run_loop_saved cs ts a :
  saved_prefix cs (doc_state a) ->
  saved_prefix cs (doc_state (run_loop ts a).2) /\
  chat_id (doc_state (run_loop ts a).2).1 = chat_id (doc_state a).1.
Proof using Laws.
  revert a. induction ts as [|t ts IH]; intros a Hs; [done|]. cbn [run_loop].
  unfold bind, modify. destruct (others_on_conn_doc t a) as [Hd _].
  pose proof (turn_safe (env t) (ready t) (others_on_conn t a)) as [Hsaved Hchat _].
  rewrite Hd in Hsaved, Hchat. specialize (Hsaved cs Hs). specialize (Hchat cs Hs).
  destruct (turn (env t) (ready t) (others_on_conn t a)) as [[[]|e|] a1]; cbn [snd] in *; try done.
  destruct (IH a1 Hsaved) as [? ->]. done.
Qed.

(** C13. A message the actor acknowledged to its caller is never lost: in any run of the
    actor, whatever its environment and the other tasks do, once a turn has answered
    [send_message] with the stored message, a repository opened from the database at any
    later point of the run has all the changes of the document of that turn. *)
Theorem acknowledged_reply_survives a0 ts1 a1 t r2 a2 ts2 a3 w os tx msg :
  saved_prefix ∅ (doc_state a0) -> run_loop ts1 a0 = (Ok Continue, a1) ->
  turn (env t) (ready t) (others_on_conn t a1) = (r2, a2) ->
  log a2 = log a1 ++ os -> ReplySingle tx (Ok msg) ∈ os ->
  (run_loop ts2 a2).2 = a3 -> store w = store (doc_state a3).2 -> forecast w = [] ->
  exists r w', ChatRepository.new (chat_id (doc_state a0).1) w = (Ok r, w') /\
    changes (doc (doc_state a2).1) ⊆ changes (doc r).
Proof using Laws.
  intros Hs0 Hrun1 Hturn Hlog Hin Hrun2 Hstore Hcalm.
  destruct (run_loop_saved ∅ ts1 a0 Hs0) as [Hs1 Hc1]. rewrite Hrun1 in Hs1, Hc1. cbn [snd] in *.
  destruct (others_on_conn_doc t a1) as [Hd Hl].
  pose proof (turn_safe (env t) (ready t) (others_on_conn t a1)) as [Hsaved Hchat (os' & Hlog' & Hack)].
  rewrite Hturn in *. rewrite Hd in *. cbn [snd] in *. rewrite Hl, Hlog in Hlog'.
  apply app_inv_head in Hlog' as <-.
  assert (all_saved (doc_state a2)) as Hall.
  { apply (Hack ∅ Hs1). apply existsb_exists. exists (ReplySingle tx (Ok msg)).
    split; [by apply list_elem_of_In|done]. }
  pose proof (all_saved_prefix ∅ _ (Hsaved ∅ Hs1) Hall) as Hs2.
  destruct (run_loop_saved _ ts2 a2 Hs2) as [Hs3 Hc3]. rewrite Hrun2 in Hs3, Hc3.
  destruct (saved_prefix_reload _ _ w Hs3 Hstore Hcalm) as (r & w' & E & Hsub).
  rewrite Hc3, (Hchat ∅ Hs1), Hc1 in E. eauto.
Qed.

(** C22. On every change to [Connected] the synchronisation starts anew: the receiver is told,
    the sync state of the old connection is dropped, and exactly one message, the first of
    a fresh synchronisation of the whole document, goes out on the current transport;
    document, database and connection stay as they are. *)
Theorem connected_resyncs env a id h :
  ChatConnection.state (conn a) = IConnected h -> is_open env (tx h) = true ->
  exists a', handle_connection_state_change (E := Empty_set) env (CConnected id) a = (Ok tt, a') /\
    let fresh := sync_generate (doc (doc_state a).1) new_sync_state in
    sync_state (doc_state a').1 = fresh.2 /\ doc (doc_state a').1 = doc (doc_state a).1 /\
    (doc_state a').2 = (doc_state a).2 /\ conn a' = conn a /\
    log a' = log a ++
      match msg_receiver a with
      | Some r => [ProcessConnectionState r (UConnected (uuid_to_string id))]
      | None => []
      end ++
      [ConnEffect (ChatConnection.SendToChannel (tx h) (Sync (MkSyncMessage ∘ sync_encode <$> fresh.1)))].
Proof.
  intros Hc Hopen. destruct a as [[rp w] c rcv seen ch rst lg]. cbn [conn] in Hc.
  unfold handle_connection_state_change, to_receiver, handle_outgoing_sync_message, on_repo,
    reset_sync_state, generate_sync_message, gets, emit, modify, ret. unfold bind.
  cbn [doc_state msg_receiver]. destruct rcv as [r|]; cbn;
    destruct (sync_generate (doc rp) new_sync_state) as [m st]; cbn;
    unfold ChatConnection.send_message; rewrite Hc, Hopen; cbn;
    (eexists; split; [done|]; do 4 (split; [done|]); cbn).
  - by rewrite <- (assoc_L (++)).
  - done.
Qed.

(** What a protocol message asks the repository to take in: a decoded sync message, or that
    the peer has nothing to say; nothing at all when it cannot be decoded. *)
Definition decoded (proto_sync_msg : option SyncMessage) : option (option SyncMsg) :=
  match proto_sync_msg with Some m => Some <$> sync_decode (sync_bytes m) | None => Some None end.

Lemma incoming_decoded env m im s1 r a :
  decoded m = Some im -> receive_sync_message im (doc_state a) = (r, s1) ->
  handle_incomming_message (E := Empty_set) env (Sync m) a =
  match r with
  | Ok (chunks, reply_action) =>
      (modify (set_reset_doc_state false) ;;;
       (if bool_decide (chunks = []) then ret tt else to_receiver (fun r => ProcessMessages r chunks)) ;;;
       match reply_action with
       | Some out_sync_msg => handle_outgoing_sync_message env out_sync_msg
       | None => ret tt
       end) (set_doc_state s1 a)
  | Err _ =>
      (was_reset <- gets reset_doc_state ;;
       if (was_reset : bool) then ret tt
       else reset <- catch (on_repo reset_doc_state_to_persisted) ;;
            match reset with
            | inr _ => modify (set_reset_doc_state true) ;;;
                sync_message <- on_repo generate_sync_message ;; handle_outgoing_sync_message env sync_message
            | inl _ => ret tt
            end) (set_doc_state s1 a)
  | Panic => (Panic, set_doc_state s1 a)
  end.
Proof.
  intros Hd Hr. unfold handle_incomming_message, decoded in *.
  destruct m as [b|]; [destruct (sync_decode (sync_bytes b)); [|done]|]; injection Hd as <-;
    unfold bind at 1, catch at 1, on_repo at 1; rewrite Hr; by destruct r as [[chunks reply]|e|].
Qed.

(** C23. What becomes of a sync message, on every branch. One that cannot be decoded changes
    nothing. One that is processed clears the memory of a failure, its messages go to the
    receiver and the reply to the peer. When it fails for the first time, the actor goes
    back to what the database holds, all of which is saved then, remembers the failure, and
    restarts the synchronisation from there with one message; if the database cannot be read
    either, the actor stays as the failed reading leaves it, and remembers nothing. When it
    fails while a failure is remembered, nobody is told anything, nothing is sent and the
    failure stays remembered; but the document keeps what it had and whatever the failed call
    added. So the memory is cleared by a success only. *)
Theorem sync_error_recovery env a cs m :
  saved_prefix cs (doc_state a) ->
  match decoded m with
  | None => handle_incomming_message (E := Empty_set) env (Sync m) a = (Ok tt, a)
  | Some im => exists a', let '(r, s1) := receive_sync_message im (doc_state a) in
      changes (doc (doc_state a).1) ⊆ changes (doc s1.1) /\
      handle_incomming_message (E := Empty_set) env (Sync m) a =
        (match r with Panic => Panic | _ => Ok tt end, a') /\
      match r with
      | Ok (chunks, reply) =>
          doc_state a' = s1 /\ reset_doc_state a' = false /\ conn a' = conn a /\ msg_receiver a' = msg_receiver a /\
          log a' = log a ++
            (if bool_decide (chunks = []) then [] else (fun r => ProcessMessages r chunks) <$> option_list (msg_receiver a)) ++
            match reply with
            | Some o => ConnEffect <$> ChatConnection.send_message (is_open env) (Sync (MkSyncMessage ∘ sync_encode <$> o)) (conn a)
            | None => []
            end
      | Err _ =>
          if reset_doc_state a then a' = set_doc_state s1 a
          else let '(r2, s2) := reset_doc_state_to_persisted s1 in
            match r2 with
            | Ok _ =>
                reset_doc_state a' = true /\ all_saved (doc_state a') /\ sync_state s2.1 = new_sync_state /\
                doc (doc_state a').1 = doc s2.1 /\ conn a' = conn a /\ msg_receiver a' = msg_receiver a /\
                log a' = log a ++ (ConnEffect <$> ChatConnection.send_message (is_open env)
                  (Sync (MkSyncMessage ∘ sync_encode <$> (sync_generate (doc s2.1) new_sync_state).1)) (conn a))
            | _ => a' = set_doc_state s2 a
            end
      | Panic => a' = set_doc_state s1 a
      end
  end.
Proof using Laws.
  intros Hs. destruct (decoded m) as [im|] eqn:Hdec.
  2:{ unfold handle_incomming_message, decoded in *. destruct m as [b|]; [|done]. by destruct (sync_decode (sync_bytes b)). }
  destruct (receive_sync_message im (doc_state a)) as [r s1] eqn:Hrecv.
  destruct (receive_sync_message_durable cs im (doc_state a) _ _ Hs Hrecv) as (Hs1 & _ & _ & Hsub & _).
  rewrite (incoming_decoded _ _ _ _ _ _ Hdec Hrecv).
  destruct r as [[chunks reply]|e|]; [|destruct (reset_doc_state a) eqn:Ereset|by eexists].
  - unfold to_receiver, handle_outgoing_sync_message, emit, gets, modify, ret, bind.
    destruct (bool_decide (chunks = [])); [|destruct (msg_receiver a) eqn:Er]; destruct reply; cbn; rewrite ?Er; cbn;
      (eexists; split; [done|]; split; [done|]; cbn); rewrite ?Er, ?app_nil_r, <- ?(assoc_L (++)); done.
  - eexists. split; [done|]. unfold bind, gets. cbn [reset_doc_state set_doc_state]. by rewrite Ereset.
  - unfold bind at 1, gets. cbn [reset_doc_state set_doc_state]. rewrite Ereset.
    unfold bind at 1, catch, on_repo at 1. cbn [doc_state set_doc_state].
    destruct (reset_doc_state_to_persisted s1) as [r s2] eqn:E2.
    destruct (reset_doc_state_durable cs s1 r s2 Hs1 E2) as (_ & _ & _ & Hok).
    destruct Hok as [(-> & Hall & Hst)|[_ [e' ->]]]; [|by eexists].
    unfold bind, modify, ret, handle_outgoing_sync_message, gets, emit, on_repo, generate_sync_message.
    destruct s2 as [rp2 w2]. cbn in Hst |- *. rewrite Hst.
    destruct (sync_generate (doc rp2) new_sync_state) as [o st] eqn:Eg. cbn.
    eexists. do 3 (split; [done|]). split; [by apply (all_saved_frame (rp2, w2))|done].
Qed.

(** What closing does. *)
Lemma close_spec {E} a :
  exists a', on_conn (E := E) ChatConnection.close a = (Ok tt, a') /\ doc_state a' = doc_state a /\
    ChatConnection.state (conn a') = IDisconnected /\ ChatConnection.state_value (conn a') = CDisconnected /\
    exists os, log a' = log a ++ (ConnEffect <$> os) /\
      (forall h, ChatConnection.state (conn a) = IConnected h ->
         exists os', os = ChatConnection.CancelToken (cancel_token h) :: os').
Proof.
  unfold on_conn, ChatConnection.close, ChatConnection.set_state, ChatConnection.send_if_modified.
  case_bool_decide as Hd; cbn in Hd |- *; (eexists; split; [done|]; split; [done|]; split; [done|]).
  - split; [done|]. eexists. split; [done|]. intros h Hh. rewrite Hh. cbn. eauto.
  - split.
    { destruct (decide (ChatConnection.state_value (conn a) = CDisconnected)); [done|]. by destruct Hd. }
    eexists. split; [done|]. intros h Hh. rewrite Hh. cbn. eauto.
Qed.

(** Whatever ends the actor's loop, cancellation or an error, its task leaves the
    connection disconnected, shuts the transport down and tells the watchers. *)
Theorem actor_task_closes env0 ts a a' :
  actor_task env0 ts a = (Ok (E := anyhow) Stop, a') ->
  ChatConnection.state (conn a') = IDisconnected /\ ChatConnection.state_value (conn a') = CDisconnected /\
  forall h a1 e, run env0 ts a = (Err e, a1) -> ChatConnection.state (conn a1) = IConnected h ->
    exists os, log a' = log a1 ++ ConnEffect (ChatConnection.CancelToken (cancel_token h)) :: os.
Proof.
  unfold actor_task, bind at 1, catch. destruct (run env0 ts a) as [[[]|e|] a1] eqn:E; try done.
  all: destruct (close_spec (E := anyhow) a1) as (a2 & Ec & _ & Hst & Hv & os & Hl & Hos);
    rewrite (bind_ok _ _ _ _ _ Ec); intros [= <-]; split; [done|]; split; [done|];
    intros h a3 e' [= <- <-] Hh.
  destruct (Hos h Hh) as [os' ->]. rewrite Hl. by eexists.
Qed.

(** A caller that went away costs the chat its actor: when the oneshot receiver of
    [send_message] is gone the message is stored and sent all the same, but the actor's
    task ends and closes the connection. *)
Theorem dropped_reply_stops_actor cs env0 a t msg tx h :
  saved_prefix cs (doc_state a) -> faultless (doc_state a).2 -> represents (objs (doc (doc_state a).1)) h ->
  ChatConnection.state_value (conn a) = CDisconnected -> sync_seen a = status_version (doc_state a).1 ->
  conn_before t = (fun c => (c, false)) ->
  ready t = {| cancelled := false; tick := false; subscribe_rx := None;
               in_rx := Some (Some (Single msg tx)); conn_rx := None |} ->
  oneshot_open (env t) tx = false ->
  exists a', actor_task env0 [t] a = (Ok Stop, a') /\ all_saved (doc_state a') /\
    represents (objs (doc (doc_state a').1))
      (said (id_to_string (my_id (chat_id (doc_state a).1)))
            (message_of (doc_state a).1 (now (env t)) (fresh_uuid (env t)) msg) h) /\
    ChatConnection.state (conn a') = IDisconnected /\
    ~ exists r, ReplySingle tx r ∈ drop (length (log a)) (log a').
Proof using Laws.
  intros Hs Hf Hr Hv Hseen Hb Hrdy Hone.
  destruct (add_then_all_saved cs (now (env t)) (fresh_uuid (env t)) msg (doc_state a) h Hs Hf Hr)
    as (out & d & Eadd & Hr' & Hall & _).
  destruct a as [ds c rcv seen ch rst lg], t as [cb en rd].
  cbn [doc_state conn sync_seen conn_before env ready log] in *. subst cb rd seen.
  assert (exists os, run env0 [{| conn_before := fun c => (c, false); env := en;
      ready := {| cancelled := false; tick := false; subscribe_rx := None;
                  in_rx := Some (Some (Single msg tx)); conn_rx := None |} |}]
      {| doc_state := ds; conn := c; msg_receiver := rcv; sync_seen := status_version ds.1;
         conn_changed := ch; reset_doc_state := rst; log := lg |} =
    (Err "ChatManagerActor: Failed to return add message result. Channel is closed.",
     {| doc_state := d; conn := c; msg_receiver := rcv; sync_seen := status_version ds.1;
        conn_changed := false; reset_doc_state := rst; log := lg ++ os |}) /\
    forall r, ~ ReplySingle tx r ∈ os) as (os & Erun & Hno).
  { unfold run, handle_connection_state_change, to_receiver. cbn [run_loop].
    unfold turn, handle_outgoing_message, catch, on_repo, bind. cbn -[add_message]. rewrite Hv. cbn -[add_message].
    destruct rcv as [rv|]; cbn -[add_message]; rewrite bool_decide_eq_true_2 by done; cbn -[add_message]; rewrite Eadd; cbn -[add_message]; rewrite Hone; cbn -[add_message].
    - unfold add_log. cbn. rewrite <- (assoc_L (++)). eexists. split; [done|]. intros r Hin.
      apply elem_of_app in Hin as [Hin%list_elem_of_singleton|Hin]; [done|].
      by apply list_elem_of_fmap in Hin as (x & ? & _).
    - eexists. split; [done|]. intros r Hin. by apply list_elem_of_fmap in Hin as (x & ? & _). }
  destruct (close_spec (E := anyhow) {| doc_state := d; conn := c; msg_receiver := rcv;
    sync_seen := status_version ds.1; conn_changed := false; reset_doc_state := rst; log := lg ++ os |})
    as (a2 & Ec & Hd & Hst & _ & os2 & Hl & _).
  exists a2. split.
  { unfold actor_task, bind at 1, catch. rewrite Erun. by rewrite (bind_ok _ _ _ _ _ Ec). }
  rewrite Hd. do 3 (split; [done|]). intros [r Hin]. rewrite Hl in Hin. cbn [log] in Hin.
  rewrite <- (assoc_L (++)), drop_app_length in Hin.
  apply elem_of_app in Hin as [Hin|Hin]; [by eapply Hno|].
  apply list_elem_of_fmap in Hin as (x & ? & _). done.
Qed.
End Handlers.
End ChatManager.

(** ** The theorems at a concrete actor *)
Module ManagerSamples.
Import Concrete ToyDoc ChatRepositorySamples ChatManager.

Definition toy_encode (m : document) : bytes := ser m.
Definition toy_decode (bs : bytes) : option document := fst <$> parse bs.

#[export] Instance toy_codec : SyncCodec toy := {|
  sync_encode := toy_encode;
  sync_decode := toy_decode;
|}.

Lemma toy_decode_encode m : toy_decode (toy_encode m) = Some m.
Proof. unfold toy_decode, toy_encode. rewrite <- (app_nil_r (ser m)). by rewrite parse_ser. Qed.

Definition sample_env (reply : bool) : Env := {|
  now := 5; fresh_uuid := (0 : @Uuid uuids); rotation_id := (9 : @Uuid uuids);
  is_open := fun _ => true; oneshot_open := fun _ => reply; overflow_checks := true;
|}.

Definition sample_repo : Repo := {| chat_id := cid; doc := new_doc; sync_state := new_sync_state;
  last_saved_heads := []; sync_status := false; status_version := 0 |}.

Definition disconnected : ChatConnection.Inner :=
  (ChatConnection.new (0 : @EndpointId keys) (1 : @EndpointId keys)).1.

Definition sample_handle : ChatConnectionHandle := {|
  handle_id := (3 : @Uuid uuids); origin := Dial;
  connection := {| conn_id := 0; conn_remote_id := (1 : @EndpointId keys) |};
  tx := 11; rx := 12; cancel_token := 13 |}.

Definition idle : Ready :=
  {| cancelled := false; tick := false; subscribe_rx := None; in_rx := None; conn_rx := None |}.

Lemma connected_resyncs_witness :
  exists a', handle_connection_state_change (E := Empty_set) (sample_env true) (CConnected (3 : @Uuid uuids))
    (new (sample_repo, quiet empty_db) (ChatConnection.new_connected (0 : @EndpointId keys) sample_handle)) =
    (Ok tt, a').
Proof.
  destruct (connected_resyncs (sample_env true)
    (new (sample_repo, quiet empty_db) (ChatConnection.new_connected (0 : @EndpointId keys) sample_handle))
    (3 : @Uuid uuids) sample_handle eq_refl eq_refl) as (a' & E & _).
  by exists a'.
Defined.

Lemma actor_task_closes_witness :
  exists a', actor_task (sample_env true)
    [{| conn_before := fun c => (c, false); env := sample_env true;
        ready := {| cancelled := true; tick := false; subscribe_rx := None; in_rx := None; conn_rx := None |} |}]
    (new (sample_repo, quiet empty_db) (ChatConnection.new_connected (0 : @EndpointId keys) sample_handle)) =
    (Ok Stop, a') /\ ChatConnection.state (conn a') = IDisconnected.
Proof.
  destruct (actor_task (sample_env true)
    [{| conn_before := fun c => (c, false); env := sample_env true;
        ready := {| cancelled := true; tick := false; subscribe_rx := None; in_rx := None; conn_rx := None |} |}]
    (new (sample_repo, quiet empty_db) (ChatConnection.new_connected (0 : @EndpointId keys) sample_handle)))
    as [o a'] eqn:E.
  assert (o = Ok Stop) as -> by (apply (f_equal fst) in E; by vm_compute in E).
  exists a'. split; [done|]. by apply actor_task_closes in E as [? _].
Defined.

Lemma dropped_reply_stops_actor_witness :
  exists a a', actor_task (sample_env false)
    [{| conn_before := fun c => (c, false); env := sample_env false;
        ready := {| cancelled := false; tick := false; subscribe_rx := None;
                    in_rx := Some (Some (Single (Text "a") 4)); conn_rx := None |} |}] a = (Ok Stop, a') /\
    all_saved (doc_state a') /\ represents (objs (doc (doc_state a').1)) (said me msg_a ∅).
Proof.
  destruct opened as (r & w & E & Hc & Hf & Hr & Hs & _).
  assert (faultless w) as Hfl by (unfold faultless; rewrite Hf; constructor).
  destruct (dropped_reply_stops_actor ∅ (sample_env false) (new (r, w) disconnected)
    {| conn_before := fun c => (c, false); env := sample_env false;
       ready := {| cancelled := false; tick := false; subscribe_rx := None;
                   in_rx := Some (Some (Single (Text "a") 4)); conn_rx := None |} |}
    (Text "a") 4 ∅ Hs Hfl Hr eq_refl eq_refl eq_refl eq_refl eq_refl) as (a' & Ea & Hall & Hr' & _).
  exists (new (r, w) disconnected), a'. split; [done|]. split; [done|].
  cbn in Hr'. unfold message_of in Hr'. by rewrite Hc in Hr'.
Defined.

Lemma acknowledged_reply_survives_witness :
  exists a0 a2 r w', turn (sample_env true) {| cancelled := false; tick := false; subscribe_rx := None;
      in_rx := Some (Some (Single (Text "a") 4)); conn_rx := None |} a0 = (Ok Continue, a2) /\
    log a2 = [ReplySingle 4 (Ok msg_a)] /\
    ChatRepository.new cid (quiet (store (doc_state a2).2)) = (Ok r, w') /\
    changes (doc (doc_state a2).1) ⊆ changes (doc r).
Proof.
  destruct opened as (r & w & E & Hc & Hf & Hr & Hs & _).
  assert (faultless w) as Hfl by (unfold faultless; rewrite Hf; constructor).
  destruct (add_then_all_saved ∅ 5 (0 : @Uuid uuids) (Text "a") (r, w) ∅ Hs Hfl Hr)
    as (out & d & Ea & _).
  set (t := {| conn_before := fun c => (c, false); env := sample_env true;
       ready := {| cancelled := false; tick := false; subscribe_rx := None;
                   in_rx := Some (Some (Single (Text "a") 4)); conn_rx := None |} |}).
  set (a2 := add_log [ReplySingle 4 (Ok msg_a)] (set_doc_state d (new (r, w) disconnected))).
  assert (turn (env t) (ready t) (others_on_conn t (new (r, w) disconnected)) = (Ok Continue, a2)) as Et.
  { unfold turn, handle_outgoing_message, catch, on_repo, bind. cbn -[add_message].
    rewrite bool_decide_eq_true_2 by done. cbn -[add_message].
    rewrite Ea. cbn -[add_message]. unfold message_of. cbn [fst]. by rewrite Hc. }
  destruct (acknowledged_reply_survives (new (r, w) disconnected) [] _ t _ a2 [] a2 (quiet (store (doc_state a2).2))
    [ReplySingle 4 (Ok msg_a)] 4 msg_a Hs eq_refl Et eq_refl ltac:(by left) eq_refl eq_refl eq_refl)
    as (r' & w' & En & Hsub).
  cbn [doc_state new fst] in En. rewrite Hc in En.
  exists (others_on_conn t (new (r, w) disconnected)), a2, r', w'. by repeat split.
Defined.

Lemma sync_error_recovery_witness :
  exists a a' m b e, receive_sync_message (Some m) (doc_state a) = (Err e, b) /\
    handle_incomming_message (E := Empty_set) (sample_env true) (Sync (Some (MkSyncMessage (sync_encode m)))) a = (Ok tt, a') /\
    reset_doc_state a' = true.
Proof.
  destruct opened_faulty as (r & w & Hc & Hr & Hs & Hf & Hrest).
  set (m := {[ (next_seq (doc r), ∅) ]} : document).
  pose proof Hs as [_ (ds & Hheads & _ & Hsub & _)].
  set (st := {| toy_their := Some m; toy_sent := if bool_decide (m = doc r) then doc r else toy_sent (sync_state r);
                toy_in_flight := false |} : @SyncState toy_ids toy).
  set (rp := set_sync_state st (set_doc (doc r ∪ m : @Doc toy_ids toy) r)).
  set (w1 := {| store := others (next_weather w).1 (store w); forecast := (next_weather w).2 |}).
  assert (persist_chat (rp, w) = (Err (Sqlx "disk full"), (rp, w1))) as Ep.
  { apply (persist_chat_fault (rp, w) ds "disk full" Hheads).
    - change ((ds : document) ⊆ (doc r : document) ∪ m). etransitivity; [exact Hsub|apply union_subseteq_l].
    - by apply (next_seq_grows (doc r) ds ∅).
    - done. }
  assert (receive_sync_message (Some m : option (@SyncMsg toy_ids toy)) (r, w) = (Err (Sqlx "disk full"), (rp, w1))) as Erecv.
  { unfold receive_sync_message, receive_changes. unfold bind at 1. unfold bind at 1. cbn [sync_receive toy receive].
    cbn -[persist_chat]. fold rp. by rewrite (bind_err _ _ _ _ _ Ep). }
  pose proof (sync_error_recovery (sample_env true) (new (r, w) disconnected) ∅ (Some (MkSyncMessage (toy_encode m))) Hs) as Hrec.
  assert (decoded (Some (MkSyncMessage (toy_encode m))) = Some (Some m : option (@SyncMsg toy_ids toy))) as Hdec.
  { unfold decoded. cbn [sync_bytes sync_decode toy_codec]. by rewrite toy_decode_encode. }
  rewrite Hdec in Hrec. cbn [doc_state new] in Hrec. rewrite Erecv in Hrec. destruct Hrec as (a' & _ & E & Hrec).
  destruct (receive_sync_message_durable ∅ _ _ _ _ Hs Erecv) as (Hs1 & _).
  cbn [reset_doc_state new] in Hrec. destruct (reset_doc_state_to_persisted (rp, w1)) as [o s2] eqn:Ers.
  destruct (reset_doc_state_durable ∅ _ _ _ Hs1 Ers) as (_ & _ & _ & [(-> & _)|[Hn _]]).
  - exists (new (r, w) disconnected), a', m, (rp, w1), (Sqlx "disk full"). split; [done|]. split; [exact E|].
    apply Hrec.
  - exfalso. apply Hn. unfold faultless. cbn [snd w1 forecast]. rewrite Hrest. constructor.
Defined.
End ManagerSamples.
