(* ===== verification/Link.v ===== *)
(** Two chat managers connected to each other: the actors of src/src/manager.rs at both ends
    of a connection, with what each has sent and the other has not yet handled in order
    between them. The interleaving of user calls, timer ticks and deliveries is arbitrary. *)
From S2P Require Import Prelude External Wire Errors ChatTypes Database Serial Automerge Schema Repository Connection Manager Sync.
From stdpp Require Import base gmap strings list relations.
From Stdlib Require Import ZArith Lia.
Import ChatRepository ChatManager.
Open Scope tryst_scope.

(** The codec of sync messages is lossless. *)
Class SyncCodecLaws {OI : ObjIds} {AM : Automerges} (SC : SyncCodec AM) : Prop := {
  sync_decode_encode (m : SyncMsg) : sync_decode (sync_encode m) = Some m;
}.

Section Link.
Context {Ids : EndpointIds} {Us : Uuids} {OI : ObjIds} {AM : Automerges} {SC : SyncCodec AM}
  {V : DocViews AM} {SV : SyncViews AM}.

(** What an actor put on the transport of its connection. *)
Definition sent_msg (o : output) : option ProtoMessage :=
  match o with ConnEffect (ChatConnection.SendToChannel _ msg) => Some msg | _ => None end.
Definition sent_between (a a' : Actor) : list ProtoMessage :=
  omap sent_msg (drop (length (log a)) (log a')).

(** There is a connection, and the state that watchers see says so. *)
Definition connected (c : ChatConnection.Inner) : Prop :=
  exists h, ChatConnection.state c = IConnected h /\ ChatConnection.state_value c = CConnected (handle_id h).

(** The transport is there, so that what is sent is queued on it. *)
Definition live (env : Env) (a : Actor) : Prop :=
  exists h, ChatConnection.state (conn a) = IConnected h /\
    ChatConnection.state_value (conn a) = CConnected (handle_id h) /\ is_open env (tx h) = true.

(** A sync message that decodes and is processed without an error. *)
Definition processed (msg : ProtoMessage) (a : Actor) : Prop :=
  match msg with
  | Sync (Some b) => exists m r s', sync_decode (sync_bytes b) = Some m /\
      receive_sync_message (Some m) (doc_state a) = (Ok r, s')
  | Sync None => True
  end.

(** A turn in which the connection stays what it is. *)
Definition undisturbed (rdy : Ready) (a : Actor) : Prop :=
  cancelled rdy = false /\ conn_changed a = false /\
  forall h, in_rx rdy <> Some (Some (PassAcceptedConnHandle h)).

(** The turn gets to the last branch, which takes the next message off the connection. *)
Definition consumes (rdy : Ready) (a : Actor) : bool :=
  negb (tick rdy) && bool_decide (sync_seen a = status_version (doc_state a).1) &&
  match subscribe_rx rdy, in_rx rdy with None, None => true | _, _ => false end &&
  is_connected (ChatConnection.state_value (conn a)).

(** One turn of one actor, and what is left of the messages on their way to it: whatever is
    ready, whatever its callers ask; the message it takes is the next one in order. An actor
    that has yet to see that it is connected may still tick or report its status, and
    takes nothing before it has started the synchronisation anew. *)
Inductive acts : Actor -> list ProtoMessage -> Actor -> list ProtoMessage -> Prop :=
| acts_turn env rdy a inc a' :
    live env a -> undisturbed rdy a -> conn_rx rdy = None ->
    turn env rdy a = (Ok Continue, a') -> acts a inc a' inc
| acts_unread env rdy a inc a' :
    live env a -> undisturbed rdy a -> consumes rdy a = false ->
    turn env rdy a = (Ok Continue, a') -> acts a inc a' inc
| acts_receive env rdy a msg inc a' :
    live env a -> undisturbed rdy a -> consumes rdy a = true -> conn_rx rdy = Some (Some msg) ->
    processed msg a -> turn env rdy a = (Ok Continue, a') -> acts a (msg :: inc) a' inc
| acts_connected env rdy a inc a' :
    live env a -> cancelled rdy = false -> conn_changed a = true ->
    turn env rdy a = (Ok Continue, a') -> acts a inc a' inc.

Record Link := { left : Actor; right : Actor; to_right : list ProtoMessage; to_left : list ProtoMessage }.

Inductive step : Link -> Link -> Prop :=
| step_left l a inc :
    acts (left l) (to_left l) a inc ->
    step l {| left := a; right := right l; to_right := to_right l ++ sent_between (left l) a; to_left := inc |}
| step_right l a inc :
    acts (right l) (to_right l) a inc ->
    step l {| left := left l; right := a; to_right := inc; to_left := to_left l ++ sent_between (right l) a |}.

(** The connection comes up: both sides have it, over a transport that carries nothing yet,
    and it is news to both actors, whatever they did before. *)
Definition came_up (a : Actor) : Prop := conn_changed a = true /\ connected (conn a).
Definition fresh_link (l : Link) : Prop :=
  came_up (left l) /\ came_up (right l) /\ to_right l = [] /\ to_left l = [].

(** Both actors know that they are connected, nothing is on its way, and neither side would
    say anything at its next tick. *)
Definition says_nothing (a : Actor) : Prop :=
  conn_changed a = false /\ (sync_generate (doc (doc_state a).1) (sync_state (doc_state a).1)).1 = None.
Definition at_rest (l : Link) : Prop :=
  to_right l = [] /\ to_left l = [] /\ says_nothing (left l) /\ says_nothing (right l).

Definition doc_of (a : Actor) : Doc := doc (doc_state a).1.
Definition sync_of (a : Actor) : SyncState := sync_state (doc_state a).1.
(** What its synchronisation over this connection amounts to: before the actor knows of the
    connection it has none. *)
Definition session_state (a : Actor) : SyncState := if conn_changed a then new_sync_state else sync_of a.

(** The pool of a side: no statement fails, other tasks leave this chat alone, and the
    database has all of the document. *)
Definition stored (s : Repo * World Db) : Prop := saved_prefix ∅ s /\ all_saved s /\ faultless s.2.

Definition encoded (om : option SyncMsg) : ProtoMessage := Sync (MkSyncMessage ∘ sync_encode <$> om).

(** *** The repository's operations as steps of the protocol *)
Lemma persist_chat_frame s r s' :
  persist_chat s = (r, s') -> doc s'.1 = doc s.1 /\ sync_state s'.1 = sync_state s.1.
Proof.
  destruct s as [rp w]. unfold persist_chat. unfold bind at 1 2, gets. cbn [fst snd].
  case_bool_decide; [by intros [= <- <-]|]. unfold bind, on_pool.
  destruct (stmt _ w) as [[[]|e|] w']; by intros [= <- <-].
Qed.

Lemma generate_step {E} s r s' :
  generate_sync_message (E := E) s = (r, s') ->
  exists om, r = Ok om /\ doc s'.1 = doc s.1 /\ sync_generate (doc s'.1) (sync_state s.1) = (om, sync_state s'.1).
Proof.
  destruct s as [rp w]. unfold generate_sync_message. destruct (sync_generate _ _) as [om st] eqn:Eg.
  intros [= <- <-]. by exists om.
Qed.

Context {Laws : AutomergeLaws AM V}.

Lemma add_message_step now uuid msg s r s' :
  stored s -> add_message now uuid msg s = (r, s') ->
  stored s' /\ changes (doc s.1) ⊆ changes (doc s'.1) /\
  match r with
  | Ok (_, om) => sync_generate (doc s'.1) (sync_state s.1) = (om, sync_state s'.1)
  | _ => sync_state s'.1 = sync_state s.1
  end.
Proof using Laws.
  destruct s as [rp w]. intros (Hs & Ha & Hf) Hrun.
  destruct (add_message_durable _ _ _ _ _ _ _ Hs Hrun) as (Hs' & Hc & Hl & Hsub & Hok).
  assert (faultless s'.2) as Hf' by (by eapply faultless_later). revert Hrun.
  unfold add_message. unfold bind at 1, gets. cbn [fst snd]. set (f := bind (ensure_peer_list _) _).
  unfold bind at 1, act_map_err, on_doc.
  destruct (f (begin_tx (doc rp))) as [[[]|e|] t] eqn:Ef.
  - destruct (transact_ok f (doc rp) tt t Ef) as (d & -> & Hd & Hgrow). simpl map_err. intros Hrun.
    destruct (persist_chat_spec ∅ (set_doc d rp, w)) as (o & s1 & E1 & _ & _ & Hd1 & _ & Ho).
    { by apply (saved_prefix_frame ∅ (rp, w)). }
    destruct Ho as [[-> _]|[Hn _]]; [|done]. rewrite (bind_ok _ _ _ _ _ E1) in Hrun.
    destruct (persist_chat_frame _ _ _ E1) as [_ Hst1].
    unfold bind in Hrun. destruct (generate_sync_message s1) as [o s2] eqn:Eg.
    destruct (generate_step _ _ _ Eg) as (om & -> & Hd2 & Hg). injection Hrun as <- <-.
    split; [split; [done|]; split; [by apply Hok|done]|]. split; [done|].
    rewrite Hst1 in Hg. exact Hg.
  - destruct (transact_err f (doc rp) e t Ef) as (n & d & -> & Hd). simpl map_err. intros [= <- <-].
    split; [|done]. split; [done|]. split; [|done]. by apply (all_saved_frame (rp, w)).
  - destruct (transact_panic f (doc rp) t Ef) as (d & -> & Hd). simpl map_err. intros [= <- <-].
    split; [|done]. split; [done|]. split; [|done]. by apply (all_saved_frame (rp, w)).
Qed.

Lemma receive_step m s msgs reply s' :
  stored s -> receive_sync_message (Some m) s = (Ok (msgs, reply), s') ->
  stored s' /\ exists st pl om,
    sync_receive m (doc s.1, sync_state s.1, patch_log_new true) = (Ok tt, (doc s'.1, st, pl)) /\
    sync_generate (doc s'.1) st = (om, sync_state s'.1) /\ reply = Some om.
Proof using Laws.
  destruct s as [rp w]. intros (Hs & Ha & Hf) Hrun.
  destruct (receive_sync_message_durable _ _ _ _ _ Hs Hrun) as (Hs' & Hc & Hl & Hsub & Hok).
  split; [split; [done|]; split; [by apply Hok|by eapply faultless_later]|].
  unfold receive_sync_message, receive_changes in Hrun. rewrite !bind_bind in Hrun. unfold bind at 1 in Hrun.
  destruct (sync_receive m (doc rp, sync_state rp, patch_log_new true)) as [a [[d st] pl]] eqn:Er.
  destruct a as [[]|e|]; simpl map_ok in Hrun; [|done..].
  apply bind_ok_inv in Hrun as (msgs' & s1 & E1 & Hrun). rewrite bind_bind in E1 || idtac.
  apply bind_ok_inv in E1 as (u & s2 & E2 & E1). destruct (persist_chat_frame _ _ _ E2) as [Hd2 Hst2].
  unfold bind, gets, reads in E1. injection E1 as _ <-.
  unfold bind in Hrun. destruct (generate_sync_message s2) as [o s3] eqn:Eg.
  destruct (generate_step _ _ _ Eg) as (om & -> & Hd3 & Hg). injection Hrun as _ <- <-.
  exists st, pl, om. cbn [fst snd doc sync_state set_doc set_sync_state] in *.
  rewrite Hst2 in Hg. split; [|done]. by rewrite Hd3, Hd2.
Qed.

Lemma generate_stored {E} s r s' :
  stored s -> generate_sync_message (E := E) s = (r, s') -> stored s'.
Proof using Laws.
  intros (Hs & Ha & Hf) E1. destruct (generate_sync_message_frame (E := E) s) as (m & s1 & E2 & Hw & Hc & Hd & Hh).
  rewrite E1 in E2. injection E2 as _ <-. split; [apply (saved_prefix_frame ∅ s); by rewrite ?Hd|].
  split; [apply (all_saved_frame s); by rewrite ?Hd|by rewrite Hw].
Qed.

Lemma receive_none_step s r s' :
  stored s -> receive_sync_message None s = (r, s') ->
  stored s' /\ doc s'.1 = doc s.1 /\ exists om,
    sync_generate (doc s'.1) (sync_state s.1) = (om, sync_state s'.1) /\ r = Ok ([], Some <$> om).
Proof using Laws.
  intros (Hs & Ha & Hf) Hrun. destruct (receive_sync_message_durable _ _ _ _ _ Hs Hrun) as (Hs' & Hc & Hl & _ & _).
  unfold receive_sync_message in Hrun. unfold bind at 1, ret at 1 in Hrun. unfold bind in Hrun.
  destruct (generate_sync_message_frame (E := LibError) s) as (m & s1 & E1 & Hw1 & Hc1 & Hd1 & _).
  destruct (generate_step _ _ _ E1) as (om & [= ->] & Hd2 & Hg). rewrite E1 in Hrun. injection Hrun as <- <-.
  split; [split; [done|]; split; [|by eapply faultless_later]|].
  - apply (all_saved_frame s); by rewrite ?Hd1.
  - split; [done|]. exists om. split; [done|]. by destruct om.
Qed.

(** *** The handlers as steps of the protocol *)

(** One direction of a link: since [a0] the actor sent what is appended to [xs]; of what
    is sent to it, [ys] is still to come. *)
Section Relay.
Context {L : SyncLaws AM V SV} {CL : SyncCodecLaws SC}.
Variables (a0 : Actor) (env : Env) (xs : list (option SyncMsg)) (cY : gset ChangeHash) (sY : SyncState).
Hypothesis Hlive : live env a0.

Definition relays (ys : list (option SyncMsg)) (a : Actor) : Prop :=
  stored (doc_state a) /\ changes (doc_of a0) ⊆ changes (doc_of a) /\ conn a = conn a0 /\ conn_changed a = false /\
  exists os oms, log a = log a0 ++ os /\ omap sent_msg os = encoded <$> oms /\
    session (changes (doc_of a)) cY (sync_of a) sY (xs ++ oms) ys.

Definition relayed {E A} (ys : list (option SyncMsg)) (c : action Actor E A) : Prop :=
  forall a, relays ys a -> relays ys (c a).2.

Lemma relayed_bind {E A B} ys (c : action Actor E A) (k : A -> action Actor E B) :
  relayed ys c -> (forall x, relayed ys (k x)) -> relayed ys (bind c k).
Proof.
  intros Hc Hk a Ha. unfold bind. specialize (Hc a Ha). destruct (c a) as [[x|e|] a1]; simpl in *; [|done..].
  by apply Hk.
Qed.

Lemma relayed_catch {E E' A} ys (c : action Actor E A) : relayed ys c -> relayed ys (catch (E' := E') c).
Proof. intros Hc a Ha. unfold catch. specialize (Hc a Ha). by destruct (c a) as [[x|e|] a1]. Qed.

Lemma add_log_nil a : add_log [] a = a.
Proof. destruct a. unfold add_log. simpl. by rewrite app_nil_r. Qed.

Lemma relays_same ys a a' os :
  doc_state a' = doc_state a -> conn a' = conn a -> conn_changed a' = conn_changed a ->
  log a' = log a ++ os -> omap sent_msg os = [] -> relays ys a -> relays ys a'.
Proof.
  unfold relays, doc_of, sync_of. intros -> -> -> Hl Ho (Hs & Hc & Hk & Hch & os0 & oms & Hl0 & Ho0 & Hsess).
  do 4 (split; [done|]). exists (os0 ++ os), oms. split; [by rewrite Hl, Hl0, (assoc_L (++))|].
  split; [|done]. by rewrite omap_app, Ho, app_nil_r.
Qed.

Lemma relayed_same {E A} ys (c : action Actor E A) :
  (forall a, doc_state (c a).2 = doc_state a /\ conn (c a).2 = conn a /\ conn_changed (c a).2 = conn_changed a /\
     log (c a).2 = log a) -> relayed ys c.
Proof. intros Hc a. destruct (Hc a) as (? & ? & ? & ?). apply (relays_same _ _ _ []); by rewrite ?app_nil_r. Qed.

Lemma relayed_emit {E} ys os : omap sent_msg os = [] -> relayed (E := E) ys (emit os).
Proof. intros Ho a. by apply (relays_same _ _ _ os). Qed.

Lemma relayed_to_receiver {E} ys o : (forall r, sent_msg (o r) = None) -> relayed (E := E) ys (to_receiver o).
Proof.
  intros Ho. unfold to_receiver. apply relayed_bind; [by apply relayed_same|].
  intros [r|]; [|by apply relayed_same]. apply relayed_emit. simpl. by rewrite Ho.
Qed.

Lemma to_receiver_runs {E} o a :
  (forall n, sent_msg (o n) = None) ->
  exists os, to_receiver (E := E) o a = (Ok tt, add_log os a) /\ omap sent_msg os = [].
Proof.
  intros Ho. unfold to_receiver, bind, gets, emit, modify, ret.
  destruct (msg_receiver a); [eexists; split; [done|]; simpl; by rewrite Ho|exists []; by rewrite add_log_nil].
Qed.

(** What goes out on the transport. *)
Lemma relay_send {E} om a :
  conn a = conn a0 -> exists o, handle_outgoing_sync_message (E := E) env om a = (Ok tt, add_log [o] a) /\
    sent_msg o = Some (encoded om).
Proof using Hlive.
  intros Hc. destruct Hlive as (h & Hst & _ & Ho). unfold handle_outgoing_sync_message, bind, gets, emit, modify.
  unfold ChatConnection.send_message. rewrite Hc, Hst, Ho. eexists. by split.
Qed.

(** The call on the repository left [d], and of what the actor then did, one thing was to
    send [om]. *)
Lemma relays_sent ys ys' d om a a' os' :
  relays ys a -> stored d -> changes (doc_of a) ⊆ changes (doc d.1) ->
  doc_state a' = d -> conn a' = conn a -> conn_changed a' = conn_changed a -> log a' = log a ++ os' -> omap sent_msg os' = [encoded om] ->
  (forall xs', session (changes (doc_of a)) cY (sync_of a) sY xs' ys ->
     session (changes (doc d.1)) cY (sync_state d.1) sY (xs' ++ [om]) ys') ->
  relays ys' a'.
Proof.
  intros (Hs & Hc & Hk & Hch & os & oms & Hl & Ho & Hsess) Hd Hsub Hda Hca Hcha Hla Hsent Hgo.
  unfold relays, doc_of, sync_of. rewrite Hda. split; [done|]. split; [by etransitivity|].
  split; [by rewrite Hca|]. split; [by rewrite Hcha|].
  exists (os ++ os'), (oms ++ [om]). split; [by rewrite Hla, Hl, (assoc_L (++))|]. split.
  - by rewrite omap_app, fmap_app, Ho, Hsent.
  - rewrite (assoc_L (++)). by apply Hgo.
Qed.

Lemma relayed_generate {E A} ys (k : action Actor E A) :
  relayed ys k ->
  relayed ys (m <- on_repo generate_sync_message ;; (handle_outgoing_sync_message env m ;;; k)).
Proof using Laws L Hlive.
  intros Hk a Ha. unfold bind at 1, on_repo. pose proof Ha as (Hs & _ & Hconn & _).
  destruct (generate_sync_message (doc_state a)) as [r d] eqn:Eg.
  destruct (generate_step _ _ _ Eg) as (om & -> & Hd & Hg).
  pose proof (generate_stored _ _ _ Hs Eg) as Hs'.
  destruct (relay_send (E := E) om (set_doc_state d a) Hconn) as (o & Es & Ho).
  rewrite (bind_ok _ _ _ _ _ Es). apply Hk. apply (relays_sent ys ys d om a _ [o]); try done; [by rewrite Hd|simpl; by rewrite Ho|].
  intros xs'. unfold doc_of. rewrite <- Hd. by apply session_generate.
Qed.

Lemma relayed_say ys msg tx : relayed ys (handle_outgoing_message env (Some (Single msg tx))).
Proof using Laws L Hlive.
  intros a Ha. unfold handle_outgoing_message. unfold bind at 1, catch, on_repo.
  pose proof Ha as (Hs & _ & Hconn & _).
  destruct (add_message (now env) (fresh_uuid env) msg (doc_state a)) as [r d] eqn:Ea.
  destruct (add_message_step _ _ _ _ _ _ Hs Ea) as (Hs' & Hsub & Hr).
  assert (forall (b : bool) (o : output) e, sent_msg o = None ->
    relayed (E := anyhow) ys (if b then emit [o] else throw e)) as Hreply.
  { intros [] o e Ho; [apply relayed_emit; simpl; by rewrite Ho|by apply relayed_same]. }
  assert (sync_state d.1 = sync_of a -> relays ys (set_doc_state d a)) as Hgrow.
  { intros Hst. destruct Ha as (_ & Hc & _ & Hch & os & oms & Hl & Ho & Hsess). split; [done|].
    split; [by etransitivity|]. do 2 (split; [done|]). exists os, oms. split; [done|]. split; [done|].
    unfold sync_of, doc_of. cbn [doc_state set_doc_state]. rewrite Hst. by apply (session_grows (changes (doc_of a))). }
  destruct r as [[m om]|e|]; [|by apply Hreply, Hgrow|by apply Hgrow].
  destruct (relay_send (E := anyhow) om (set_doc_state d a) Hconn) as (o & Es & Ho).
  rewrite bind_bind, (bind_ok _ _ _ _ _ Es). apply Hreply; [done|].
  apply (relays_sent ys ys d om a _ [o]); try done; [simpl; by rewrite Ho|]. intros xs' Hsess.
  apply (session_generate (doc d.1) _ (sync_of a)); [done|]. by apply (session_grows (changes (doc_of a))).
Qed.

(** The next message, taken off the connection. *)
Lemma relayed_receive {E} ys om a :
  processed (encoded om) a -> relays (om :: ys) a ->
  relays ys (handle_incomming_message (E := E) env (encoded om) a).2.
Proof using Laws L Hlive CL.
  intros Hp Ha. pose proof Ha as (Hs & _ & Hconn & _).
  assert (forall chunks a, exists os1, (if bool_decide (chunks = []) then ret tt
      else to_receiver (E := E) (fun r => ProcessMessages r chunks)) a = (Ok tt, add_log os1 a) /\
      omap sent_msg os1 = []) as Htell.
  { intros chunks a1. case_bool_decide; [exists []; by rewrite add_log_nil|].
    unfold to_receiver, bind, gets, emit, modify, ret.
    destruct (msg_receiver a1); [by eexists|exists []; by rewrite add_log_nil]. }
  destruct om as [m|]; simpl in Hp |- *.
  - destruct Hp as (m' & [msgs reply] & d & Hdec & Er). rewrite Hdec.
    rewrite sync_decode_encode in Hdec. injection Hdec as <-.
    destruct (receive_step _ _ _ _ _ Hs Er) as (Hs' & st & pl & om & Erecv & Eg & ->).
    unfold bind at 1, catch, on_repo. rewrite Er. unfold bind at 1, modify.
    destruct (Htell msgs (set_reset_doc_state false (set_doc_state d a))) as (os1 & E1 & Ho1).
    rewrite (bind_ok _ _ _ _ _ E1).
    destruct (relay_send (E := E) om (add_log os1 (set_reset_doc_state false (set_doc_state d a))) Hconn)
      as (o & -> & Hsent).
    apply (relays_sent (Some m :: ys) _ d om a _ (os1 ++ [o])); try done; [by eapply sync_receive_grows|..].
    + cbn. by rewrite (assoc_L (++)).
    + rewrite omap_app, Ho1. simpl. by rewrite Hsent.
    + intros xs'. by apply (session_receive m (doc_of a) (doc d.1) cY (sync_of a) st _ (patch_log_new true) pl).
  - destruct (receive_sync_message None (doc_state a)) as [r d] eqn:Er.
    destruct (receive_none_step _ _ _ Hs Er) as (Hs' & Hd & om & Hg & ->).
    unfold bind at 1, catch, on_repo. rewrite Er. unfold bind at 1, modify. rewrite bool_decide_eq_true_2 by done.
    unfold bind at 1, ret at 1. destruct om as [m|]; cbn [fmap option_fmap option_map].
    + destruct (relay_send (E := E) (Some m) (set_reset_doc_state false (set_doc_state d a)) Hconn) as (o & -> & Hsent).
      apply (relays_sent (None :: ys) _ d (Some m) a _ [o]); try done; [by rewrite Hd|simpl; by rewrite Hsent|].
      intros xs' Hsess%session_nothing. unfold doc_of in Hsess. rewrite <- Hd in Hsess. by eapply session_generate.
    + destruct Ha as (_ & Hc & _ & Hch & os & oms & Hl & Ho & Hsess). unfold relays, doc_of, sync_of.
      cbn [snd ret doc_state set_reset_doc_state set_doc_state]. rewrite Hd. do 4 (split; [done|]). exists os, oms.
      do 2 (split; [done|]). apply session_nothing in Hsess. rewrite Hd in Hg. by eapply session_generate_nothing.
Qed.

Lemma relayed_subscription ys m : relayed ys (handle_subscription m).
Proof.
  destruct m as [m|]; [|by apply relayed_same]. cbn [handle_subscription].
  do 2 (apply relayed_bind; [by apply relayed_same|intros ?]).
  apply relayed_bind; [by apply relayed_emit|intros ?]. apply relayed_bind; [by apply relayed_same|intros ?].
  by apply relayed_emit.
Qed.

Lemma relayed_outgoing ys m :
  (forall h, m <> Some (PassAcceptedConnHandle h)) -> relayed ys (handle_outgoing_message env m).
Proof using Laws L Hlive.
  intros Hm. destruct m as [[msg tx|tx|h]|]; [apply relayed_say| | |by apply relayed_same].
  - cbn [handle_outgoing_message]. apply relayed_bind; [by apply relayed_catch, relayed_same|]. intros x.
    destruct (oneshot_open env tx); [by apply relayed_emit|by apply relayed_same].
  - by destruct (Hm h).
Qed.

(** A turn that takes no message off the connection. *)
Lemma relayed_turn ys rdy a :
  undisturbed rdy a -> conn_rx rdy = None \/ consumes rdy a = false -> relays ys a ->
  relays ys (turn env rdy a).2.
Proof using Laws L Hlive.
  intros (Hcan & Hchg & Hin) Hun. assert (forall (k : action Actor anyhow unit), relayed ys k ->
    relayed ys (k ;;; ret Continue)) as Hcont.
  { intros k Hk. apply relayed_bind; [done|]. intros []. by apply relayed_same. }
  revert a Hchg Hun. intros a Hchg Hun Ha. revert Ha. unfold turn. unfold bind at 1, gets, id. rewrite Hcan.
  unfold consumes in Hun. destruct (tick rdy).
  { destruct (ChatConnection.state_value (conn a)); [by apply Hcont, relayed_emit| |by apply relayed_same].
    by apply relayed_generate, relayed_same. }
  case_bool_decide as Hseen; simpl negb.
  2: { apply relayed_bind; [by apply relayed_same|]. intros []. by apply Hcont, relayed_to_receiver. }
  rewrite Hchg. destruct (subscribe_rx rdy) as [m|]; [apply Hcont, relayed_subscription|].
  destruct (in_rx rdy) as [m|].
  { apply Hcont, relayed_outgoing. intros h ->. by destruct (Hin h). }
  destruct (conn_rx rdy); [|by apply relayed_same]. destruct Hun as [?|Hun]; [done|].
  simpl in Hun. rewrite Hun. by apply relayed_same.
Qed.

(** A turn that takes the next one. *)
Lemma relays_consumed ys rdy om a :
  undisturbed rdy a -> consumes rdy a = true -> conn_rx rdy = Some (Some (encoded om)) ->
  processed (encoded om) a -> relays (om :: ys) a -> relays ys (turn env rdy a).2.
Proof using Laws L Hlive CL.
  intros (Hcan & Hchg & Hin) Hcons Hrx Hp Ha. unfold turn. unfold bind at 1, gets, id. rewrite Hcan.
  unfold consumes in Hcons. rewrite !andb_true_iff in Hcons. destruct Hcons as [[[Ht Hseen] Hsub] Hst].
  destruct (tick rdy); [done|]. rewrite Hseen. cbn [negb]. rewrite Hchg.
  destruct (subscribe_rx rdy); [done|]. destruct (in_rx rdy); [done|]. rewrite Hrx, Hst. cbv iota beta.
  assert (ChatConnection.receive (fun _ => Some (encoded om)) (conn a) = (Some (encoded om), [])) as ->.
  { pose proof Ha as (_ & _ & -> & _). destruct Hlive as (h & Hh & _). unfold ChatConnection.receive. by rewrite Hh. }
  unfold bind at 1, emit, modify. change (ConnEffect <$> []) with (@nil output). cbv beta. rewrite add_log_nil.
  pose proof (relayed_receive (E := anyhow) ys om a Hp Ha) as Hr. unfold bind.
  by destruct (handle_incomming_message env (encoded om) a) as [[[]|e|] a'].
Qed.
End Relay.

Context {L : SyncLaws AM V SV} {CL : SyncCodecLaws SC}.

(** What a turn adds to its side of the session: the document grows, and what was sent is
    queued behind [xs]. *)
Definition advances (a : Actor) (xs : list (option SyncMsg)) (cY : gset ChangeHash) (sY : SyncState)
    (ys : list (option SyncMsg)) (a' : Actor) : Prop :=
  stored (doc_state a') /\ changes (doc_of a) ⊆ changes (doc_of a') /\ conn a' = conn a /\
  exists os oms, log a' = log a ++ os /\ omap sent_msg os = encoded <$> oms /\
    session (changes (doc_of a')) cY (session_state a') sY (xs ++ oms) ys.

Lemma relays_advances a xs cY sY ys a' : relays a xs cY sY ys a' -> advances a xs cY sY ys a'.
Proof.
  intros (Hs & Hc & Hcn & Hch & os & oms & Hl & Ho & Hsess). do 3 (split; [done|]). exists os, oms.
  unfold session_state. by rewrite Hch.
Qed.

(** Generating a message and sending it, in a live turn. *)
Lemma generate_and_send {E A} env (k : action Actor E A) a r d om :
  live env a -> generate_sync_message (E := E) (doc_state a) = (r, d) -> r = Ok om ->
  exists o, (m <- on_repo generate_sync_message ;; (handle_outgoing_sync_message env m ;;; k)) a =
    k (add_log [o] (set_doc_state d a)) /\ sent_msg o = Some (encoded om).
Proof.
  intros Hlive Eg ->. destruct (relay_send (set_doc_state d a) env Hlive (E := E) om (set_doc_state d a) eq_refl) as (o & Es & Ho).
  exists o. split; [|done]. unfold bind at 1, on_repo. rewrite Eg. by rewrite (bind_ok _ _ _ _ _ Es).
Qed.

(** A turn of an actor that has yet to see that it is connected. *)
Lemma connected_advances env rdy a xs cY sY ys a' :
  live env a -> cancelled rdy = false -> conn_changed a = true -> stored (doc_state a) ->
  turn env rdy a = (Ok Continue, a') ->
  session (changes (doc_of a)) cY (session_state a) sY xs ys -> advances a xs cY sY ys a'.
Proof using Laws L.
  intros Hlive Hcan Hch Hs Ht Hsess. pose proof Hlive as (h & _ & Hv & _).
  assert (in_flight new_sync_state = false) as Hnew by apply new_sync_knowledge.
  unfold session_state in Hsess. rewrite Hch in Hsess.
  unfold turn in Ht. unfold bind at 1, gets, id in Ht. rewrite Hcan, Hv, Hch in Ht.
  destruct (tick rdy).
  { destruct (generate_sync_message (E := anyhow) (doc_state a)) as [r d] eqn:Eg.
    destruct (generate_step _ _ _ Eg) as (om & Hr & Hd & Hg). pose proof (generate_stored _ _ _ Hs Eg) as Hs'.
    destruct (generate_and_send env (ret Continue) a r d om Hlive Eg Hr) as (o & Es & Ho). rewrite Es in Ht.
    injection Ht as <-. split; [done|]. unfold doc_of. cbn [doc_state add_log set_doc_state]. rewrite Hd. do 2 (split; [done|]).
    exists [o], [om]. split; [done|]. split; [simpl; by rewrite Ho|]. unfold session_state. cbn [conn_changed add_log set_doc_state].
    rewrite Hch. rewrite Hd in Hg. by eapply session_stale. }
  destruct (negb _).
  { apply bind_ok_inv in Ht as (u & a1 & [= _ <-] & Ht).
    destruct (to_receiver_runs (E := anyhow) (fun r => ProcessSyncStatus r (sync_status (doc_state a).1))
      (set_sync_seen (status_version (doc_state a).1) a)) as (os & Et & Ho); [done|].
    rewrite (bind_ok _ _ _ _ _ Et) in Ht. injection Ht as <-. do 3 (split; [done|]). exists os, [].
    rewrite app_nil_r. unfold session_state. cbn. by rewrite Hch. }
  apply bind_ok_inv in Ht as (u & a1 & [= _ <-] & Ht). unfold handle_connection_state_change in Ht. rewrite bind_bind in Ht.
  destruct (to_receiver_runs (E := anyhow) (fun r => ProcessConnectionState r (uniffi_state_of (CConnected (handle_id h))))
    (set_conn (conn a) false a)) as (os & Et & Ho); [done|].
  rewrite (bind_ok _ _ _ _ _ Et) in Ht. rewrite bind_bind in Ht.
  apply bind_ok_inv in Ht as (u2 & a2 & E2 & Ht). unfold on_repo, reset_sync_state, modify in E2. injection E2 as _ <-.
  set (a2 := set_doc_state _ _) in Ht. rewrite bind_bind in Ht.
  assert (live env a2) as Hlive2 by exact Hlive.
  assert (stored (doc_state a2)) as Hs2 by exact Hs.
  destruct (generate_sync_message (E := anyhow) (doc_state a2)) as [r d] eqn:Eg.
  destruct (generate_step _ _ _ Eg) as (om & Hr & Hd & Hg). pose proof (generate_stored _ _ _ Hs2 Eg) as Hs'.
  destruct (generate_and_send env (ret Continue) a2 r d om Hlive2 Eg Hr) as (o & Es & Hsent). rewrite Es in Ht.
  injection Ht as <-. split; [done|]. unfold doc_of in *. cbn [doc_state add_log set_doc_state]. rewrite Hd. do 2 (split; [done|]).
  exists (os ++ [o]), [om]. split; [cbn; by rewrite (assoc_L (++))|]. split; [by rewrite omap_app, Ho; simpl; rewrite Hsent|].
  rewrite Hd in Hg. by eapply (session_generate _ _ new_sync_state).
Qed.

Lemma acts_advances a inc a' inc' xs ys cY sY :
  acts a inc a' inc' -> inc = encoded <$> ys -> stored (doc_state a) ->
  session (changes (doc_of a)) cY (session_state a) sY xs ys ->
  exists ys', inc' = encoded <$> ys' /\ advances a xs cY sY ys' a'.
Proof using Laws L CL.
  intros Hacts Hinc Hs Hsess.
  assert (conn_changed a = false -> relays a xs cY sY ys a) as Ha.
  { intros Hch. unfold session_state in Hsess. rewrite Hch in Hsess. do 4 (split; [done|]). exists [], [].
    rewrite !app_nil_r. split; [done|]. by split. }
  destruct Hacts as [env rdy a inc a' Hlive Hu Hrx Ht|env rdy a inc a' Hlive Hu Hc Ht|
    env rdy a msg inc a' Hlive Hu Hc Hrx Hp Ht|env rdy a inc a' Hlive Hcan Hch Ht].
  1,2: exists ys; split; [done|]; pose proof (relayed_turn a env xs cY sY Hlive ys rdy a Hu) as Hr;
    rewrite Ht in Hr; apply relays_advances, Hr; [auto|apply Ha, Hu].
  - destruct ys as [|om ys]; [done|]. injection Hinc as -> ->. exists ys. split; [done|].
    pose proof (relays_consumed a env xs cY sY Hlive ys rdy om a Hu Hc Hrx Hp (Ha (proj1 (proj2 Hu)))) as Hr.
    rewrite Ht in Hr. by apply relays_advances.
  - exists ys. split; [done|]. by eapply connected_advances.
Qed.

(** ** The invariant of a link *)
Record linked (l : Link) : Prop := {
  linked_connected : connected (conn (left l)) /\ connected (conn (right l));
  linked_left : stored (doc_state (left l));
  linked_right : stored (doc_state (right l));
  linked_session : exists xs ys, to_right l = encoded <$> xs /\ to_left l = encoded <$> ys /\
    session (changes (doc_of (left l))) (changes (doc_of (right l)))
      (session_state (left l)) (session_state (right l)) xs ys;
}.

(** What either side has is only added to. *)
Definition grows (l l' : Link) : Prop :=
  changes (doc_of (left l)) ⊆ changes (doc_of (left l')) /\
  changes (doc_of (right l)) ⊆ changes (doc_of (right l')).

#[export] Instance grows_preorder : PreOrder grows.
Proof. split; [by split|]. intros l1 l2 l3 [] []. split; by etransitivity. Qed.

Lemma advances_sent_between a a' xs cY sY ys :
  advances a xs cY sY ys a' -> exists oms, sent_between a a' = encoded <$> oms /\
    session (changes (doc_of a')) cY (session_state a') sY (xs ++ oms) ys.
Proof.
  intros (_ & _ & _ & os & oms & Hl & Ho & Hsess). exists oms. split; [|done].
  unfold sent_between. by rewrite Hl, drop_app_length.
Qed.

Lemma step_linked l l' : step l l' -> linked l -> linked l' /\ grows l l'.
Proof using Laws L CL.
  intros Hstep [[Hcl Hcr] Hsl Hsr (xs & ys & Hx & Hy & Hsess)]. destruct Hstep as [l a inc Ha|l a inc Ha].
  - destruct (acts_advances _ _ _ _ xs ys _ _ Ha Hy Hsl Hsess) as (ys' & -> & Hr).
    destruct (advances_sent_between _ _ _ _ _ _ Hr) as (oms & Hsent & Hsess'). destruct Hr as (Hs & Hc & Hcn & _).
    split; [|by split]. split; [by cbn [left right]; rewrite Hcn|done..|]. exists (xs ++ oms), ys'. by rewrite fmap_app, Hx, <- Hsent.
  - apply session_flip in Hsess. destruct (acts_advances _ _ _ _ ys xs _ _ Ha Hx Hsr Hsess) as (xs' & -> & Hr).
    destruct (advances_sent_between _ _ _ _ _ _ Hr) as (oms & Hsent & Hsess'). destruct Hr as (Hs & Hc & Hcn & _).
    split; [|by split]. split; [by cbn [left right]; rewrite Hcn|done..|]. exists xs', (ys ++ oms). rewrite fmap_app, Hy, <- Hsent.
    do 2 (split; [done|]). by apply session_flip.
Qed.

Lemma steps_linked l l' : rtc step l l' -> linked l -> linked l' /\ grows l l'.
Proof using Laws L CL.
  induction 1 as [l|l l1 l' Hstep _ IH]; intros Hl; [by split|].
  destruct (step_linked _ _ Hstep Hl) as [Hl1 ?]. destruct (IH Hl1). split; [done|by etransitivity].
Qed.

Lemma fresh_linked l :
  fresh_link l -> stored (doc_state (left l)) -> stored (doc_state (right l)) -> linked l.
Proof using L.
  intros ([Hc1 ?] & [Hc2 ?] & Hx & Hy) Hsl Hsr. split; [done..|]. exists [], []. rewrite Hx, Hy. do 2 (split; [done|]).
  unfold session_state. rewrite Hc1, Hc2. apply session_start.
Qed.

(** At rest the documents agree. *)
Lemma linked_agrees l : linked l -> at_rest l -> changes (doc_of (left l)) = changes (doc_of (right l)).
Proof using L.
  intros [_ _ _ (xs & ys & Hxs & Hys & Hsess)] (Hx & Hy & [Hcl Hgl] & [Hcr Hgr]).
  unfold session_state in Hsess. rewrite Hcl, Hcr in Hsess.
  rewrite Hx in Hxs. rewrite Hy in Hys. apply symmetry, fmap_nil_inv in Hxs as ->. apply symmetry, fmap_nil_inv in Hys as ->.
  destruct (sync_generate (doc (doc_state (left l)).1) _) as [? s1] eqn:E1 in Hgl.
  destruct (sync_generate (doc (doc_state (right l)).1) _) as [? s2] eqn:E2 in Hgr. simpl in Hgl, Hgr. subst.
  by apply (session_agrees _ _ _ _ Hsess); [apply generate_none_says in E1 as [? _]|apply generate_none_says in E2 as [? _]].
Qed.

Lemma rest_agrees l0 l :
  fresh_link l0 -> stored (doc_state (left l0)) -> stored (doc_state (right l0)) -> rtc step l0 l -> at_rest l ->
  changes (doc_of (left l)) = changes (doc_of (right l)).
Proof using Laws L CL.
  intros Hf Hsl Hsr Hrun. apply linked_agrees. by destruct (steps_linked _ _ Hrun (fresh_linked _ Hf Hsl Hsr)).
Qed.

(** C3. Once two peers have come to rest they have the same chat. Two managers get
    connected, whatever each has and whenever each sees it, and act in any interleaving, sending, reading, ticking and
    processing the other's messages in order; whenever nothing is on its way and neither
    has anything to say, their documents are equal, consist of every change either of them
    had at any point of the run, and are in both databases. *)
Theorem quiet_link_agrees l0 l1 l :
  fresh_link l0 -> stored (doc_state (left l0)) -> stored (doc_state (right l0)) ->
  rtc step l0 l1 -> rtc step l1 l -> at_rest l ->
  changes (doc_of (left l)) = changes (doc_of (right l)) /\ objs (doc_of (left l)) = objs (doc_of (right l)) /\
  changes (doc_of (left l1)) ∪ changes (doc_of (right l1)) ⊆ changes (doc_of (left l)) /\
  all_saved (doc_state (left l)) /\ all_saved (doc_state (right l)).
Proof using Laws L CL.
  intros Hf Hsl Hsr H1 H2 Hrest.
  destruct (steps_linked _ _ H1 (fresh_linked _ Hf Hsl Hsr)) as [Hl1 _].
  destruct (steps_linked _ _ H2 Hl1) as [Hl [Hg1 Hg2]]. pose proof (linked_agrees l Hl Hrest) as Heq.
  destruct Hl as [_ (_ & Hal & _) (_ & Har & _) _].
  split; [done|]. split; [by apply changes_objs|]. split; [|done].
  apply union_least; [done|]. by rewrite Heq.
Qed.
End Link.

(** ** The theorem at a concrete run *)
Module LinkSamples.
Import Concrete ToyDoc ToySync ChatRepositorySamples ManagerSamples.

#[export] Instance toy_codec_laws : SyncCodecLaws toy_codec.
Proof. split. apply toy_decode_encode. Defined.

(** Two actors on the chat just opened, each on an empty database of its own. *)
Definition opened_state : Repo * World Db :=
  match ChatRepository.new cid (quiet empty_db) with
  | (Ok r, w) => (r, w)
  | (_, w) => (sample_repo, w)
  end.
Definition handle_of (n : nat) : ChatConnectionHandle := {|
  handle_id := (n : @Uuid uuids); origin := Dial;
  connection := {| conn_id := 0; conn_remote_id := (1 : @EndpointId keys) |}; tx := n; rx := n; cancel_token := n |}.
Definition started (n : nat) : Actor :=
  set_conn (ChatConnection.new_connected (0 : @EndpointId keys) (handle_of n)) true
    (new opened_state (ChatConnection.new_connected (0 : @EndpointId keys) (handle_of n))).
Definition link0 : Link := {| left := started 1; right := started 2; to_right := []; to_left := [] |}.

(** A turn of an actor with nothing but a caller's message or the next message from the
    peer ready, when the conditions of [acts] hold. *)
Definition ready_for (in_msg : option InMessage) (inc : list ProtoMessage) : Ready :=
  {| cancelled := false; tick := false; subscribe_rx := None; in_rx := Some <$> in_msg; conn_rx := Some <$> head inc |}.
Definition processedb (msg : ProtoMessage) (a : Actor) : bool :=
  match msg with
  | Sync (Some b) => match toy_decode (sync_bytes b) with
                     | Some m => is_ok (receive_sync_message (Some m : option (@SyncMsg toy_ids toy)) (doc_state a)).1
                     | None => false
                     end
  | Sync None => true
  end.
Definition serve (env : Env) (text : option string) (a : Actor) (inc : list ProtoMessage) : option (Actor * list ProtoMessage) :=
  let rdy := ready_for ((fun t => Single (Text t) 4) <$> text) inc in
  match ChatConnection.state (conn a), turn env rdy a with
  | IConnected h, (Ok Continue, a') =>
      if negb (bool_decide (ChatConnection.state_value (conn a) = CConnected (handle_id h)) && is_open env (tx h)) then None
      else if negb (conn_changed a) && consumes rdy a then
        match inc with
        | msg :: inc' => if processedb msg a then Some (a', inc') else None
        | [] => Some (a', inc)
        end
      else Some (a', inc)
  | _, _ => None
  end.

Lemma serve_acts env text a inc a' inc' : serve env text a inc = Some (a', inc') -> acts a inc a' inc'.
Proof.
  unfold serve. set (rdy := ready_for _ _). destruct (ChatConnection.state (conn a)) as [|h|] eqn:Hst; [done| |done].
  destruct (turn env rdy a) as [[[]|e|] a1] eqn:Ht; [|done..]. case_bool_decide as Hv; [|done].
  destruct (is_open env (tx h)) eqn:Hopen; [|done]. simpl negb. assert (live env a) as Hlive by (by exists h).
  destruct (conn_changed a) eqn:Hch; [intros [= <- <-]; by apply (acts_connected env rdy)|]. simpl andb.
  assert (undisturbed rdy a) as Hu by (split; [done|]; split; [done|]; intros h'; by destruct text).
  destruct (consumes rdy a) eqn:Hc; [|intros [= <- <-]; by eapply acts_unread].
  destruct inc as [|msg inc]; [intros [= <- <-]; by eapply acts_turn|].
  destruct (processedb msg a) eqn:Hp; [|done]. intros [= <- <-]. eapply acts_receive; try done.
  destruct msg as [[b|]]; [|done]. unfold processedb in Hp. simpl.
  destruct (toy_decode (sync_bytes b)) as [m|]; [|done].
  destruct (receive_sync_message _ (doc_state a)) as [[r|e|] s'] eqn:Er; [|done..]. by exists m, r, s'.
Qed.

(** A script: whose turn it is, and what its caller says. *)
Inductive who := L | R.
Definition go (x : who * option string) (l : Link) : option Link :=
  match x.1 with
  | L => '(a, inc) ← serve (sample_env true) x.2 (left l) (to_left l);
         Some {| left := a; right := right l; to_right := to_right l ++ sent_between (left l) a; to_left := inc |}
  | R => '(a, inc) ← serve (sample_env true) x.2 (right l) (to_right l);
         Some {| left := left l; right := a; to_right := inc; to_left := to_left l ++ sent_between (right l) a |}
  end.
Fixpoint play (script : list (who * option string)) (l : Link) : option Link :=
  match script with [] => Some l | x :: script => l ← go x l; play script l end.

Lemma play_steps script l l' : play script l = Some l' -> rtc step l l'.
Proof.
  revert l. induction script as [|[w t] script IH]; intros l; [by intros [= <-]|]. cbn [play].
  intros (l1 & Hgo & Hp)%bind_Some. eapply rtc_l; [|by apply IH].
  destruct w; unfold go in Hgo; cbn [fst snd] in Hgo; apply bind_Some in Hgo as ([a inc] & Hs%serve_acts & [= <-]);
    by constructor.
Qed.

Definition rests (l : Link) : bool :=
  match to_right l, to_left l, (sync_generate (doc_of (left l)) (sync_of (left l))).1,
    (sync_generate (doc_of (right l)) (sync_of (right l))).1 with
  | [], [], None, None => negb (conn_changed (left l) || conn_changed (right l))
  | _, _, _, _ => false
  end.

Lemma rests_at_rest l : rests l = true -> at_rest l.
Proof.
  unfold rests, at_rest, says_nothing, doc_of, sync_of. destruct (to_right l), (to_left l); try done.
  destruct (sync_generate (doc (doc_state (left l)).1) _) as [[?|] ?]; [done|].
  destruct (sync_generate (doc (doc_state (right l)).1) _) as [[?|] ?]; [done|].
  intros [Hl Hr]%negb_true_iff%orb_false_iff. done.
Qed.

(** Both see that they are connected; one side says something while the other's first message
    is on its way; then both read. *)
Definition said_script : list (who * option string) := [(L, None); (R, None); (L, None); (L, None); (L, Some "a")].
Definition rest_script : list (who * option string) :=
  [(R, None); (R, None); (R, None); (R, None); (L, None); (L, None); (L, None); (L, None); (R, None); (R, None)].

Lemma opened_stored : stored opened_state.
Proof.
  unfold opened_state. destruct opened as (r & w & E & _ & Hf & _ & Hs & Ha). rewrite E.
  split; [done|]. split; [done|]. cbn [snd]. unfold faultless. rewrite Hf. constructor.
Qed.

Lemma quiet_link_agrees_witness :
  exists l1 l, rtc step link0 l1 /\ changes (doc_of (left l1)) <> changes (doc_of (right l1)) /\
    rtc step l1 l /\ at_rest l /\ changes (doc_of (left l)) = changes (doc_of (right l)) /\
    changes (doc_of (left l1)) ⊆ changes (doc_of (right l)).
Proof.
  assert (match play said_script link0 with
          | Some l1 => negb (bool_decide (changes (doc_of (left l1)) = changes (doc_of (right l1)))) &&
              match play rest_script l1 with Some l => rests l | None => false end
          | None => false
          end = true) as Hrun by (vm_compute; reflexivity).
  destruct (play said_script link0) as [l1|] eqn:E1; [|done]. apply andb_true_iff in Hrun as [Hne Hrest].
  destruct (play rest_script l1) as [l|] eqn:E2; [|done]. apply play_steps in E1, E2. apply rests_at_rest in Hrest.
  destruct (quiet_link_agrees link0 l1 l) as (Heq & _ & Hsub & _); try done.
  { split; [|split; [|done]]; (split; [done|by eexists]). }
  { exact opened_stored. }
  { exact opened_stored. }
  exists l1, l. split; [done|]. split; [by apply negb_true_iff, bool_decide_eq_false in Hne|].
  do 3 (split; [done|]). rewrite <- Heq. etransitivity; [|exact Hsub]. apply union_subseteq_l.
Defined.
End LinkSamples.
