(* ===== verification/Tests.v ===== *)
(** The unit tests of src/src/persistence.rs as programs over the model: each test is the
    sequence of calls and assertions of the source, and passes for every implementation of
    automerge that has the documented laws, not just the linked one. *)
From S2P Require Import Prelude External Wire Errors ChatTypes Database Automerge Schema Repository Sync Link.
From stdpp Require Import base gmap strings list pretty.
From Stdlib Require Import ZArith Lia.
Import ChatRepository.
Open Scope tryst_scope.

(** Numbers and texts of a test. *)
Ltac compute_ok := first [apply Nat.ltb_lt; vm_compute; reflexivity | vm_compute; reflexivity].

Module PersistenceTests.
Section Programs.
Context {Ids : EndpointIds} {Us : Uuids} {OI : ObjIds} {AM : Automerges}.

Abbreviation Pool := (World Db).
Abbreviation State := (Repo * World Db)%type.

(** The clock's reading and the fresh id at the [i]-th message of a test. *)
Variables (clock : nat -> Z) (ids : nat -> Uuid).

Definition setup_db : Pool := {| store := empty_db; forecast := [] |}.

(** [assert!] and [assert_eq!] *)
Definition assert {W E} (b : bool) : action W E unit := if b then ret tt else lift Panic.

(** [unwrap] and indexing *)
Definition unwrap {W E A} (o : option A) : action W E A := match o with Some x => ret x | None => lift Panic end.

(** A scope that opens the chat, works with the repository and drops it. *)
Definition scoped {A} (cid : ChatId) (c : action State LibError A) : action Pool LibError A :=
  r <- ChatRepository.new cid ;;
  (fun w => let '(a, (_, w')) := c (r, w) in (a, w')).

Definition say (i : nat) (text : string) : action State LibError unit :=
  add_message (clock i) (ids i) (Text text) ;;; ret tt.

(** [for i in ..] with [format!] *)
Fixpoint say_all (prefix : string) (idxs : list nat) : action State LibError unit :=
  match idxs with
  | [] => ret tt
  | i :: idxs' => say i (prefix +:+ pretty i) ;;; say_all prefix idxs'
  end.

(** SELECT count( * ) FROM chat_log WHERE chat_id = ? *)
Definition count_logs (cid : ChatId) : action Pool LibError nat :=
  stmt (fun d => (Ok (length (log_rows (chat_id_to_string cid) d)), d)).

Definition all_messages : action State LibError (list ChatMessage) := reads (fun s => get_all_messages true s.1).
Definition messages (offset limit : Z) : action State LibError (list ChatMessage) :=
  reads (fun s => get_messages true s.1 offset limit).

Definition is_text (m : ChatMessage) (t : string) : bool :=
  match content m with Text txt => bool_decide (txt = t) end.
Definition assert_text (msgs : list ChatMessage) (i : nat) (t : string) : action State LibError unit :=
  m <- unwrap (msgs !! i) ;; assert (is_text m t).
Definition assert_len {A} (l : list A) (n : nat) : action State LibError unit :=
  assert (bool_decide (length l = n)).

Definition test_persistence_restore (cid : ChatId) : action Pool LibError unit :=
  scoped cid (say 0 "Hello Persistence" ;;; msgs <- all_messages ;; assert_len msgs 1) ;;;
  scoped cid (msgs <- all_messages ;; assert_len msgs 1 ;;; assert_text msgs 0 "Hello Persistence").

Definition test_incremental_logging (cid : ChatId) : action Pool LibError unit :=
  let limit := 3 in
  scoped cid (say_all "Msg " (seq 0 limit) ;;;
              log_count <- on_pool (count_logs cid) ;; assert (bool_decide (log_count = limit))).

Definition compaction_messages : nat := CHAT_LOGS_LIMIT + CHAT_LOGS_LIMIT / 2.

Definition test_compaction_trigger (cid : ChatId) : action Pool LibError unit :=
  let limit := compaction_messages in
  scoped cid (say_all "Compaction Check " (seq 0 limit) ;;;
              log_count <- on_pool (count_logs cid) ;; assert (bool_decide (log_count = limit))) ;;;
  scoped cid (log_count_after <- on_pool (count_logs cid) ;;
              assert (bool_decide (log_count_after = 0)) ;;;
              all_msgs <- all_messages ;; assert_len all_msgs limit).

Definition pagination_messages : nat := 305.

Definition test_pagination_logic (cid : ChatId) : action Pool LibError unit :=
  scoped cid (
    say_all "Msg " (seq 0 pagination_messages) ;;;
    latest <- messages 0 1 ;; assert_len latest 1 ;;; assert_text latest 0 "Msg 304" ;;;
    prev <- messages 1 5 ;; assert_len prev 5 ;;;
    assert_text prev 0 "Msg 299" ;;; assert_text prev 4 "Msg 303" ;;;
    page <- messages 0 100 ;; assert_len page 100 ;;;
    assert_text page 0 "Msg 205" ;;; assert_text page 99 "Msg 304" ;;;
    oldest <- messages 300 10 ;; assert_len oldest 5 ;;; assert_text oldest 0 "Msg 0").

(** [sync_repos]: the pair is the repository that caused the exchange and the one that
    receives first. *)
Definition on_cause {E A} (c : action State E A) : action (State * State) E A :=
  fun '(s1, s2) => let '(a, s1') := c s1 in (a, (s1', s2)).
Definition on_receive {E A} (c : action State E A) : action (State * State) E A :=
  fun '(s1, s2) => let '(a, s2') := c s2 in (a, (s1, s2')).

Fixpoint sync_loop (rounds : nat) (sync_from_cause : option SyncMsg) : action (State * State) LibError unit :=
  match rounds with
  | O => lift Panic
  | S rounds' =>
      received <- on_receive (receive_sync_message sync_from_cause) ;;
      match received.2 with
      | None => ret tt
      | Some sync_from_receive =>
          received <- on_cause (receive_sync_message sync_from_receive) ;;
          match received.2 with
          | None => ret tt
          | Some other => assert (bool_decide (0 < rounds')) ;;; sync_loop rounds' other
          end
      end
  end.

(** [counter] reaches the limit of the assertion in the tenth round. *)
Definition sync_repos (cause_repo_sync_msg : option SyncMsg) : action (State * State) LibError unit :=
  sync_loop 10 cause_repo_sync_msg.

(** Two scopes at once, each on a database of its own. *)
Definition scoped_both {A} (cid1 cid2 : ChatId) (c : action (State * State) LibError A) :
    action (Pool * Pool) LibError A := fun '(w1, w2) =>
  match ChatRepository.new cid1 w1 with
  | (Ok r1, w1') =>
      match ChatRepository.new cid2 w2 with
      | (Ok r2, w2') => let '(a, ((_, w1''), (_, w2''))) := c ((r1, w1'), (r2, w2')) in (a, (w1'', w2''))
      | (Err e, w2') => (Err e, (w1', w2'))
      | (Panic, w2') => (Panic, (w1', w2'))
      end
  | (Err e, w1') => (Err e, (w1', w2))
  | (Panic, w1') => (Panic, (w1', w2))
  end.

Definition test_two_peers_sync (p1_id p2_id : EndpointId) : action (Pool * Pool) LibError unit :=
  scoped_both {| my_id := p1_id; remote_peer := p2_id |} {| my_id := p2_id; remote_peer := p1_id |} (
    added <- on_cause (add_message (clock 0) (ids 0) (Text "Hello from P1")) ;;
    sync_repos added.2 ;;;
    on_receive (msgs2 <- all_messages ;; assert_len msgs2 1 ;;; assert_text msgs2 0 "Hello from P1")).
End Programs.

(** ** What the tests rest on *)
Section Passing.
Context {Ids : EndpointIds} {Us : Uuids} {OI : ObjIds} {AM : Automerges} {V : DocViews AM}
  {Laws : AutomergeLaws AM V}.
Variables (clock : nat -> Z) (ids : nat -> Uuid) (cid : ChatId).

Definition owner : string := id_to_string (my_id cid).
Definition nth_message (i : nat) (text : string) : ChatMessage :=
  {| msg_id := uuid_to_string (ids i); sender_node_id := owner; content := Text text;
     created_at := clock i; updated_at := clock i |}.

(** The history in which this peer alone has spoken. *)
Definition mine (ms : list ChatMessage) : history := if decide (ms = []) then ∅ else {[owner := ms]}.

Lemma said_mine ms m : said owner m (mine ms) = mine (ms ++ [m]).
Proof.
  unfold said, mine. rewrite (decide_False (P := ms ++ [m] = [])) by (by destruct ms).
  destruct (decide (ms = [])) as [->|]; [by rewrite lookup_empty, insert_empty|].
  by rewrite lookup_singleton_eq, insert_singleton_eq.
Qed.

(** The repository of the chat, open on a database nobody else uses, with all of it stored,
    [ms] said and [k] rows in the log. *)
Record open_chat (ms : list ChatMessage) (k : nat) (s : Repo * World Db) : Prop := {
  open_id : chat_id s.1 = cid;
  open_saved : saved_prefix ∅ s;
  open_all : all_saved s;
  open_calm : forecast s.2 = [];
  open_shows : represents (objs (doc s.1)) (mine ms);
  open_log : length (log_rows (chat_id_to_string cid) (store s.2)) = k;
}.

Lemma calm_faultless {D} (w : World D) : forecast w = [] -> faultless w.
Proof. unfold faultless. intros ->. constructor. Qed.
Lemma calm_later {D} (w w' : World D) : later w w' -> forecast w = [] -> forecast w' = [].
Proof. intros [n Hn] Hf. by rewrite Hn, Hf, drop_nil. Qed.
Lemma calm_bystanders c w : forecast w = [] -> bystanders c w.
Proof. unfold bystanders. intros ->. constructor. Qed.

(** In calm weather a statement is its effect on the rows. *)
Lemma calm_stmt {D A} (f : D -> outcome string A * D) (w : World D) :
  forecast w = [] -> stmt f w = (map_err Sqlx (f (store w)).1, {| store := (f (store w)).2; forecast := [] |}) \/
  is_ok (f (store w)).1 = false.
Proof.
  intros Hf. unfold stmt, next_weather. rewrite Hf. cbn. destruct (f (store w)) as [[a|e|] d]; [by left|by right..].
Qed.

(** A message costs one log row. *)
Lemma persist_one_row s ds :
  forecast s.2 = [] -> last_saved_heads s.1 = get_heads ds -> changes ds ⊆ changes (doc s.1) ->
  changes (doc s.1) <> changes ds -> holds_changes (repo_chat s.1) (changes ds) (store s.2) ->
  exists s', persist_chat s = (Ok tt, s') /\
    length (log_rows (repo_chat s.1) (store s'.2)) = S (length (log_rows (repo_chat s.1) (store s.2))).
Proof using Laws.
  destruct s as [r w]. cbn [fst snd]. intros Hf Hheads Hsub Hne (Hwf & document & d0 & Hdoc & _).
  destruct (insert_log_ok (repo_chat r) (save_after (doc r) (get_heads ds)) (store w) Hwf) as (d' & E & _ & _ & Hrows & _);
    [by rewrite Hdoc|].
  unfold persist_chat. unfold bind at 1 2, gets. cbn [fst snd].
  rewrite bool_decide_eq_false_2 by (rewrite Hheads; intros Hnil; by apply (save_after_empty ds (doc r) Hsub) in Hnil).
  unfold bind, on_pool. destruct (calm_stmt (insert_log (chat_id_to_string (chat_id r))
    (save_after (doc r) (last_saved_heads r))) w Hf) as [->|Hbad]; rewrite Hheads in *;
    unfold repo_chat in *; rewrite E in *; [|done].
  eexists. split; [done|]. cbn [fst snd store]. rewrite Hrows, length_app. simpl. lia.
Qed.

Lemma say_spec i text ms k s :
  open_chat ms k s -> exists s', say clock ids i text s = (Ok tt, s') /\
    open_chat (ms ++ [nth_message i text]) (S k) s'.
Proof using Laws.
  intros [Hid Hs Ha Hcalm Hr Hk]. unfold say.
  destruct (add_then_all_saved ∅ (clock i) (ids i) (Text text) s _ Hs (calm_faultless _ Hcalm) Hr)
    as (out & s' & E & Hr' & Ha' & Hc' & Hl').
  destruct (add_message_durable ∅ _ _ _ _ _ _ Hs E) as (Hs' & _).
  rewrite (bind_ok _ _ _ _ _ E). exists s'. split; [done|]. rewrite Hid in Hc'.
  split; [done..|by eapply calm_later| |].
  - revert Hr'. unfold message_of. rewrite Hid. fold owner. by rewrite said_mine.
  - destruct (add_message_doc (clock i) (ids i) (Text text) s _ Hr) as (d' & _ & Hsub & Hne & E2).
    rewrite E in E2. symmetry in E2. apply bind_ok_inv in E2 as (u & s1 & Ep & E2).
    pose proof Hs as [_ (ds & Hheads & _ & Hds & Hh)].
    destruct (persist_one_row (set_doc d' s.1, s.2) ds) as (s1' & Ep' & Hrows); try done.
    { by transitivity (changes (doc s.1)). }
    { intros Heq. apply Hne, (anti_symm (⊆)); [|done]. cbn in Heq. by rewrite Heq. }
    rewrite Ep in Ep'. injection Ep' as _ <-. apply bind_ok_inv in E2 as (m & s2 & Eg & E2).
    injection E2 as _ <-. destruct (generate_sync_message_frame (E := LibError) s1) as (? & s2' & Eg' & Hw & _).
    rewrite Eg in Eg'. injection Eg' as _ <-. rewrite Hw. unfold repo_chat in Hrows. cbn [fst snd set_doc chat_id] in Hrows.
    rewrite Hid in Hrows. by rewrite Hrows, Hk.
Qed.

Definition numbered (prefix : string) (i : nat) : ChatMessage := nth_message i (prefix +:+ pretty i).

Lemma say_all_spec prefix idxs ms k s :
  open_chat ms k s -> exists s', say_all clock ids prefix idxs s = (Ok tt, s') /\
    open_chat (ms ++ (numbered prefix <$> idxs)) (k + length idxs) s'.
Proof using Laws.
  revert ms k s. induction idxs as [|i idxs IH]; intros ms k s Hs.
  { exists s. rewrite app_nil_r, Nat.add_0_r. done. }
  destruct (say_spec i (prefix +:+ pretty i) ms k s Hs) as (s1 & E1 & H1).
  destruct (IH _ _ _ H1) as (s2 & E2 & H2). exists s2. cbn [say_all]. rewrite (bind_ok _ _ _ _ _ E1). split; [done|].
  rewrite fmap_cons, cons_middle, (assoc_L (++)). cbn [length]. by replace (k + S (length idxs)) with (S k + length idxs) by lia.
Qed.

(** *** Opening and closing *)
Lemma scoped_ok {A} (c : action (Repo * World Db) LibError A) w r w1 a s :
  ChatRepository.new cid w = (Ok r, w1) -> c (r, w1) = (Ok a, s) -> scoped cid c w = (Ok a, s.2).
Proof. intros E1 E2. unfold scoped. rewrite (bind_ok _ _ _ _ _ E1), E2. by destruct s. Qed.

Lemma new_open : exists r w, ChatRepository.new cid setup_db = (Ok r, w) /\ open_chat [] 0 (r, w).
Proof using Laws.
  destruct (new_chat_spec cid setup_db) as (r & w & E & Hc & Hl & Hr & Hs & Ha);
    [by apply calm_bystanders|by split; [constructor|constructor|]|done|by apply calm_faultless|].
  exists r, w. split; [done|]. split; [done..|by eapply calm_later|done|].
  destruct (init_doc cid) as (id & d & Et & Hd). revert E.
  unfold ChatRepository.new, get_persisted_doc_state, bind at 1 2, gets. cbn [length forecast setup_db].
  cbn [persisted_loop]. unfold create. rewrite Et. cbn -[log_rows]. intros [= <- <-]. done.
Qed.

Lemma reopen ms k s :
  open_chat ms k s -> exists r w, ChatRepository.new cid s.2 = (Ok r, w) /\
    open_chat ms (if bool_decide (CHAT_LOGS_LIMIT < k) then 0 else k) (r, w) /\ changes (doc r) = changes (doc s.1).
Proof using Laws.
  intros [Hid Hs Ha Hcalm Hr Hk]. unfold all_saved, repo_chat in Ha. rewrite Hid in Ha.
  destruct (get_persisted_present cid (changes (doc s.1)) s.2 (calm_bystanders _ _ Hcalm) Ha)
    as (o & w & E & Hl & Hh & [(d & -> & Hd & Hrows)|[Hn _]]); [|by destruct Hn; apply calm_faultless].
  unfold ChatRepository.new. rewrite (bind_ok _ _ _ _ _ E). eexists _, w. split; [done|].
  pose proof (calm_later _ _ Hl Hcalm) as Hcalm'. rewrite <- Hd in Hh.
  destruct (loaded_saved_prefix ∅ {| chat_id := cid; doc := d; sync_state := new_sync_state;
    last_saved_heads := get_heads d; sync_status := false; status_version := 0 |} w d) as [Hs' Ha'];
    [by apply calm_bystanders|done|done|apply empty_subseteq|done|].
  split; [|done]. split; cbn [fst snd doc]; [done..| |].
  - by rewrite (changes_objs _ _ Hd).
  - rewrite Hrows. unfold compacted. rewrite Hk. by case_bool_decide.
Qed.

(** *** Reading *)
Lemma count_logs_spec ms k s : open_chat ms k s -> on_pool (count_logs cid) s = (Ok k, s).
Proof. intros [_ _ _ Hcalm _ Hk]. destruct s as [r [d fc]]. cbn in *. rewrite Hcalm. unfold stmt. cbn. by rewrite Hk. Qed.

Lemma get_messages_mine ms k s offset limit :
  open_chat ms k s -> usize offset -> usize limit -> (offset + limit <= usize_max)%Z ->
  get_messages true s.1 offset limit =
    Ok (page (Z.to_nat offset) (Z.to_nat limit) (sort_by msg_leb (lastn (Z.to_nat (offset + limit)) ms))).
Proof using Laws.
  intros Hs Ho Hl Hsum. destruct (get_messages_spec s.1 _ (open_shows _ _ _ Hs)) as (hs & Hhs & ->); [|done..].
  unfold usize_add. rewrite bool_decide_eq_true_2 by done. cbn [obind]. do 3 f_equal. unfold mine in Hhs.
  destruct (decide (ms = [])) as [->|].
  - rewrite map_to_list_empty in Hhs. apply symmetry, Permutation_nil in Hhs as ->. unfold lastn. by rewrite drop_nil.
  - rewrite map_to_list_singleton in Hhs. apply Permutation_singleton_r in Hhs as ->. cbn. by rewrite app_nil_r.
Qed.

Lemma all_messages_spec ms k s :
  open_chat ms k s -> (Z.of_nat (length ms) < usize_max)%Z -> all_messages s = (Ok (sort_by msg_leb ms), s).
Proof using Laws.
  intros Hs Hlen. unfold all_messages, reads, get_all_messages.
  rewrite (get_messages_mine ms k s) by (done || unfold usize, usize_max; lia).
  rewrite lastn_all by (unfold usize_max in *; lia).
  rewrite page_all; [done|]. rewrite length_sort_by. unfold usize_max in *. lia.
Qed.

Lemma sorted_lastn n ms : sorted_by msg_leb ms -> sorted_by msg_leb (lastn n ms).
Proof.
  unfold lastn. generalize (length ms - n). intros k Hs. revert k.
  induction Hs as [|m ms Hs IH Hm]; intros [|k]; simpl; [constructor..|by constructor|apply IH].
Qed.

(** The page of a chat said in order. *)
Lemma messages_spec ms k s offset limit :
  open_chat ms k s -> sorted_by msg_leb ms -> usize offset -> usize limit -> (offset + limit <= usize_max)%Z ->
  messages offset limit s = (Ok (page (Z.to_nat offset) (Z.to_nat limit) ms), s).
Proof using Laws.
  intros Hs Hsort Ho Hl Hsum. unfold messages, reads. rewrite (get_messages_mine ms k s) by done.
  rewrite sort_by_id by (by apply sorted_lastn). do 2 f_equal. unfold usize in *.
  rewrite Z2Nat.inj_add by lia. apply page_lastn. apply lastn_all. rewrite length_lastn. lia.
Qed.

Lemma page_seq {A} (f : nat -> A) offset limit n :
  page offset limit (f <$> seq 0 n) = f <$> seq (n - offset - limit) (n - offset - (n - offset - limit)).
Proof.
  rewrite page_slice, length_fmap, length_seq, <- fmap_drop, <- fmap_take, drop_seq, take_seq.
  do 2 f_equal; lia.
Qed.

(** Messages in the order of their clock. *)
Lemma numbered_sorted prefix a n :
  (forall i j, i < j -> (clock i < clock j)%Z) -> sorted_by msg_leb (numbered prefix <$> seq a n).
Proof.
  intros Hclock. revert a. induction n as [|n IH]; intros a; [constructor|]. cbn [seq]. rewrite fmap_cons.
  constructor; [apply IH|]. apply Forall_fmap, Forall_forall. intros j Hj%elem_of_seq. unfold compose, msg_leb. simpl.
  specialize (Hclock a j ltac:(lia)). by apply Z.ltb_lt in Hclock as ->.
Qed.

Lemma assert_true {W E} (b : bool) (w : W) : b = true -> assert (E := E) b w = (Ok tt, w).
Proof. by intros ->. Qed.

Lemma assert_len_true {A} (l : list A) n s : length l = n -> assert_len l n s = (Ok tt, s).
Proof. intros Hl. apply assert_true. by apply bool_decide_eq_true. Qed.

Lemma assert_text_numbered prefix a n i t s :
  i < n -> prefix +:+ pretty (a + i) = t -> assert_text (numbered prefix <$> seq a n) i t s = (Ok tt, s).
Proof.
  intros Hi Ht. unfold assert_text. rewrite list_lookup_fmap, lookup_seq_lt by done. cbn.
  unfold bind, ret. apply assert_true. unfold is_text. cbn. by apply bool_decide_eq_true.
Qed.

(** [n] messages said in a new chat: each costs a log row. *)
Lemma said_and_counted prefix n :
  exists r w s, ChatRepository.new cid setup_db = (Ok r, w) /\
    say_all clock ids prefix (seq 0 n) (r, w) = (Ok tt, s) /\ open_chat (numbered prefix <$> seq 0 n) n s.
Proof using Laws.
  destruct new_open as (r & w & E & Hopen). destruct (say_all_spec prefix (seq 0 n) _ _ _ Hopen) as (s & Es & Hs).
  rewrite length_seq in Hs. by exists r, w, s.
Qed.

Lemma restore_passes : exists w, test_persistence_restore clock ids cid setup_db = (Ok tt, w).
Proof using Laws.
  destruct new_open as (r & w & E & Hopen). destruct (say_spec 0 "Hello Persistence" _ _ _ Hopen) as (s & Es & Hs).
  destruct (reopen _ _ _ Hs) as (r2 & w2 & E2 & Hs2 & _).
  assert (Z.of_nat (length ([] ++ [nth_message 0 "Hello Persistence"])) < usize_max)%Z as Hlen by done.
  unfold test_persistence_restore. rewrite (bind_ok _ _ _ tt s.2).
  2: { apply (scoped_ok _ _ _ _ _ _ E). rewrite (bind_ok _ _ _ _ _ Es).
       rewrite (bind_ok _ _ _ _ _ (all_messages_spec _ _ _ Hs Hlen)). by apply assert_len_true. }
  eexists. apply (scoped_ok _ _ _ _ _ (r2, w2) E2).
  rewrite (bind_ok _ _ _ _ _ (all_messages_spec _ _ _ Hs2 Hlen)).
  rewrite (bind_ok _ _ _ tt (r2, w2)) by (by apply assert_len_true). by apply assert_true.
Qed.

Lemma logging_passes : exists w, test_incremental_logging clock ids cid setup_db = (Ok tt, w).
Proof using Laws.
  destruct (said_and_counted "Msg " 3) as (r & w & s & E & Es & Hs). exists s.2.
  apply (scoped_ok _ _ _ _ _ _ E). rewrite (bind_ok _ _ _ _ _ Es).
  by rewrite (bind_ok _ _ _ _ _ (count_logs_spec _ _ _ Hs)).
Qed.

Lemma compaction_passes : exists w, test_compaction_trigger clock ids cid setup_db = (Ok tt, w).
Proof using Laws.
  unfold test_compaction_trigger. assert (CHAT_LOGS_LIMIT < compaction_messages) as Hmore by (apply Nat.ltb_lt; reflexivity).
  assert (Z.of_nat compaction_messages < usize_max)%Z as Hfew by reflexivity.
  generalize dependent compaction_messages. intros n Hmore Hfew. cbv zeta.
  destruct (said_and_counted "Compaction Check " n) as (r & w & s & E & Es & Hs).
  destruct (reopen _ _ _ Hs) as (r2 & w2 & E2 & Hs2 & _). rewrite bool_decide_eq_true_2 in Hs2 by done.
  rewrite (bind_ok _ _ _ tt s.2).
  2: { apply (scoped_ok _ _ _ _ _ _ E). rewrite (bind_ok _ _ _ _ _ Es).
       rewrite (bind_ok _ _ _ _ _ (count_logs_spec _ _ _ Hs)). apply assert_true. by apply bool_decide_eq_true. }
  eexists. apply (scoped_ok _ _ _ _ _ (r2, w2) E2).
  rewrite (bind_ok _ _ _ _ _ (count_logs_spec _ _ _ Hs2)). rewrite (bind_ok _ _ _ tt (r2, w2)) by done.
  rewrite (bind_ok _ _ _ _ _ (all_messages_spec _ _ _ Hs2 ltac:(by rewrite length_fmap, length_seq))).
  apply assert_len_true. by rewrite length_sort_by, length_fmap, length_seq.
Qed.

Lemma pagination_passes :
  (forall i j, i < j -> (clock i < clock j)%Z) -> exists w, test_pagination_logic clock ids cid setup_db = (Ok tt, w).
Proof using Laws.
  intros Hclock. destruct (said_and_counted "Msg " pagination_messages) as (r & w & s & E & Es & Hs).
  pose proof (numbered_sorted "Msg " 0 pagination_messages Hclock) as Hsort. exists s.2.
  apply (scoped_ok _ _ _ _ _ _ E). rewrite (bind_ok _ _ _ _ _ Es).
  assert (forall o l (k : list ChatMessage -> action (Repo * World Db) LibError unit),
    (0 <= o)%Z -> (0 <= l)%Z -> (o + l <= 1000)%Z ->
    bind (messages o l) k s = k (numbered "Msg " <$> seq (pagination_messages - Z.to_nat o - Z.to_nat l)
      (pagination_messages - Z.to_nat o - (pagination_messages - Z.to_nat o - Z.to_nat l))) s) as Hpage.
  { intros o l k Ho Hl Hsum. rewrite <- page_seq.
    rewrite (bind_ok _ _ _ _ _ (messages_spec _ _ _ o l Hs Hsort ltac:(unfold usize, usize_max; lia)
      ltac:(unfold usize, usize_max; lia) ltac:(unfold usize, usize_max; lia))). done. }
  assert (forall a n i t (k : unit -> action (Repo * World Db) LibError unit), i < n -> "Msg " +:+ pretty (a + i) = t ->
    bind (assert_text (numbered "Msg " <$> seq a n) i t) k s = k tt s) as Htext.
  { intros a n i t k Hi Ht. by rewrite (bind_ok _ _ _ _ _ (assert_text_numbered "Msg " a n i t s Hi Ht)). }
  assert (forall a n m (k : unit -> action (Repo * World Db) LibError unit), n = m ->
    bind (assert_len (numbered "Msg " <$> seq a n) m) k s = k tt s) as Hlen.
  { intros a n m k ->. rewrite (bind_ok _ _ _ tt s); [done|]. apply assert_len_true. by rewrite length_fmap, length_seq. }
  rewrite (Hpage 0 1)%Z by done. rewrite Hlen by done. rewrite Htext by compute_ok.
  rewrite (Hpage 1 5)%Z by done. rewrite Hlen by done. do 2 rewrite Htext by compute_ok.
  rewrite (Hpage 0 100)%Z by done. rewrite Hlen by done. do 2 rewrite Htext by compute_ok.
  rewrite (Hpage 300 10)%Z by done. rewrite Hlen by done. apply assert_text_numbered; compute_ok.
Qed.

(** C19. The unit tests of the repository hold whatever automerge does within its laws, for
    every chat and all ids and, where nothing is said about order, every clock: a message
    is there after the chat is opened again, each message costs one log row, 768 rows are
    compacted away on opening with every message kept, and with a clock that moves between
    messages the pages of 305 messages start and end where the test says. *)
Theorem persistence_tests_pass :
  (exists w, test_persistence_restore clock ids cid setup_db = (Ok tt, w)) /\
  (exists w, test_incremental_logging clock ids cid setup_db = (Ok tt, w)) /\
  (exists w, test_compaction_trigger clock ids cid setup_db = (Ok tt, w)) /\
  ((forall i j, i < j -> (clock i < clock j)%Z) ->
    exists w, test_pagination_logic clock ids cid setup_db = (Ok tt, w)).
Proof using Laws.
  split; [apply restore_passes|]. split; [apply logging_passes|]. split; [apply compaction_passes|apply pagination_passes].
Qed.
End Passing.

(** ** [sync_repos] *)
Section Syncing.
Context {Ids : EndpointIds} {Us : Uuids} {OI : ObjIds} {AM : Automerges} {V : DocViews AM} {SV : SyncViews AM}
  {Laws : AutomergeLaws AM V} {L : SyncLaws AM V SV}.

(** [om] is on its way from Y, which has nothing to add when it is empty. *)
Definition expects (X Y : Repo) (om : option SyncMsg) : Prop :=
  session (changes (doc X)) (changes (doc Y)) (sync_state X) (sync_state Y) [] [om] /\
  (om = None -> nothing_to_say (doc Y) (sync_state Y)).

Lemma receive_expected om s msgs reply s' Y :
  stored s -> expects s.1 Y om -> receive_sync_message om s = (Ok (msgs, reply), s') ->
  stored s' /\ changes (doc s.1) ⊆ changes (doc s'.1) /\
  match reply with
  | Some om' => expects Y s'.1 om'
  | None => changes (doc s'.1) = changes (doc Y)
  end.
Proof using Laws L.
  intros Hs [Hsess Hnone] Hr. destruct om as [m|].
  - destruct (receive_step m s msgs reply s' Hs Hr) as (Hs' & st & pl & om & Hrecv & Hg & ->).
    split; [done|]. split; [by eapply sync_receive_grows|]. split.
    + apply session_flip. by apply (session_receive m (doc s.1) (doc s'.1) _ (sync_state s.1) st _
        (patch_log_new true) pl _ [] [] om Hrecv Hg).
    + intros ->. by apply generate_none_says in Hg as [_ ?].
  - destruct (receive_none_step s _ s' Hs Hr) as (Hs' & Hd & om & Hg & [= _ ->]).
    split; [done|]. split; [by rewrite Hd|]. apply session_nothing in Hsess. rewrite <- Hd in Hsess.
    destruct om as [m|]; cbn.
    + split; [|done]. apply session_flip. by apply (session_generate _ _ _ _ _ [] [] (Some m) Hg).
    + pose proof (generate_none_says _ _ _ Hg) as [_ Hsay].
      apply (session_generate_nothing _ _ _ _ _ _ _ Hg) in Hsess.
      by apply (session_agrees _ _ _ _ Hsess); [|apply Hnone].
Qed.

Lemma sync_loop_agrees rounds om s1 s2 e1 e2 :
  stored s1 -> stored s2 -> expects s2.1 s1.1 om -> sync_loop rounds om (s1, s2) = (Ok tt, (e1, e2)) ->
  stored e1 /\ stored e2 /\ changes (doc e1.1) = changes (doc e2.1) /\
  changes (doc s1.1) ⊆ changes (doc e1.1) /\ changes (doc s2.1) ⊆ changes (doc e2.1).
Proof using Laws L.
  revert om s1 s2. induction rounds as [|rounds IH]; intros om s1 s2 Hs1 Hs2 He Hrun; [done|]. cbn [sync_loop] in Hrun.
  apply bind_ok_inv in Hrun as ([msgs1 r1] & [x1 s2'] & E2 & Hrun). unfold on_receive in E2.
  destruct (receive_sync_message om s2) as [o2 y2] eqn:Er2. injection E2 as -> <- ->.
  destruct (receive_expected _ _ _ _ _ _ Hs2 He Er2) as (Hs2' & Hg2 & Hr1). cbn [snd] in Hrun.
  destruct r1 as [om1|]; [|by injection Hrun as <- <-].
  apply bind_ok_inv in Hrun as ([msgs2 r2] & [s1' x2] & E1 & Hrun). unfold on_cause in E1.
  destruct (receive_sync_message om1 s1) as [o1 y1] eqn:Er1. injection E1 as -> -> <-.
  destruct (receive_expected _ _ _ _ _ _ Hs1 Hr1 Er1) as (Hs1' & Hg1 & Hr2). cbn [snd] in Hrun.
  destruct r2 as [om2|]; [|by injection Hrun as <- <-].
  apply bind_ok_inv in Hrun as (u & w & Ea & Hrun). unfold assert in Ea. destruct (bool_decide _); [|done].
  injection Ea as _ <-. destruct (IH _ _ _ Hs1' Hs2' Hr2 Hrun) as (? & ? & ? & ? & ?).
  do 3 (split; [done|]). split; by etransitivity.
Qed.

(** When the tests' [sync_repos] returns, the two repositories have the same chat: after a
    message was added to one of two freshly connected repositories and the two answered
    each other until one had no reply, their documents are equal, hold all that either
    had, and are in both databases. *)
Theorem sync_repos_agree now uuid msg s1 s2 added s1' e1 e2 :
  stored s1 -> stored s2 -> sync_state s1.1 = new_sync_state -> sync_state s2.1 = new_sync_state ->
  add_message now uuid msg s1 = (Ok added, s1') -> sync_repos added.2 (s1', s2) = (Ok tt, (e1, e2)) ->
  changes (doc e1.1) = changes (doc e2.1) /\ objs (doc e1.1) = objs (doc e2.1) /\
  changes (doc s1'.1) ∪ changes (doc s2.1) ⊆ changes (doc e1.1) /\ all_saved e1 /\ all_saved e2.
Proof using Laws L.
  intros Hs1 Hs2 Hn1 Hn2 Hadd Hsync. destruct added as [m om].
  destruct (add_message_step _ _ _ _ _ _ Hs1 Hadd) as (Hs1' & Hg & Hgen). rewrite Hn1 in Hgen.
  assert (expects s2.1 s1'.1 om) as He.
  { split; [|by intros ->; apply generate_none_says in Hgen as [_ ?]]. rewrite Hn2. apply session_flip.
    apply (session_generate _ _ _ _ _ [] [] om Hgen). apply session_start. }
  destruct (sync_loop_agrees _ _ _ _ _ _ Hs1' Hs2 He Hsync) as ((_ & Ha1 & _) & (_ & Ha2 & _) & Heq & H1 & H2).
  split; [done|]. split; [by apply changes_objs|]. split; [|done]. apply union_least; [done|]. by rewrite Heq.
Qed.
End Syncing.
End PersistenceTests.

(** ** The tests at the concrete implementation *)
Module TestSamples.
Import Concrete ToyDoc ToySync ChatRepositorySamples PersistenceTests.

Definition ticking (i : nat) : Z := Z.of_nat i.
Definition numbering (i : nat) : @Uuid uuids := i.

Lemma persistence_tests_pass_witness :
  exists w, test_pagination_logic ticking numbering cid setup_db = (Ok tt, w).
Proof.
  destruct (persistence_tests_pass (AM := toy) ticking numbering cid) as (_ & _ & _ & H). apply H.
  intros i j Hij. unfold ticking. lia.
Defined.

(** The two peers of [test_two_peers_sync] after the exchange, and the test itself. *)
Lemma sync_repos_agree_witness :
  exists r1 w1 r2 w2 out s1 e1 e2, ChatRepository.new cid setup_db = (Ok r1, w1) /\
    ChatRepository.new {| my_id := remote_peer cid; remote_peer := my_id cid |} setup_db = (Ok r2, w2) /\
    add_message 5 (0 : @Uuid uuids) (Text "Hello from P1") (r1, w1) = (Ok out, s1) /\
    sync_repos out.2 (s1, (r2, w2)) = (Ok tt, (e1, e2)) /\
    changes (doc e1.1) = changes (doc e2.1) /\
    is_ok (test_two_peers_sync ticking numbering (0 : @EndpointId keys) (1 : @EndpointId keys)
             (setup_db, setup_db)).1 = true.
Proof.
  destruct (new_open cid) as (r1 & w1 & E1 & O1).
  destruct (new_open {| my_id := remote_peer cid; remote_peer := my_id cid |}) as (r2 & w2 & E2 & O2).
  assert (forall c k s, open_chat c [] k s -> stored s) as Hstored.
  { intros c k s [_ Hs Ha Hc _ _]. split; [done|]. split; [done|by apply calm_faultless]. }
  assert (forall c r w, ChatRepository.new c setup_db = (Ok r, w) -> sync_state r = new_sync_state) as Hnew.
  { intros c r w H. apply bind_ok_inv in H as (x & w' & _ & H). by injection H as <- _. }
  assert (match ChatRepository.new cid setup_db, ChatRepository.new {| my_id := remote_peer cid; remote_peer := my_id cid |} setup_db with
          | (Ok r1, w1), (Ok r2, w2) =>
              match add_message 5 (0 : @Uuid uuids) (Text "Hello from P1") (r1, w1) with
              | (Ok out, s1) => is_ok (sync_repos out.2 (s1, (r2, w2))).1
              | _ => false
              end
          | _, _ => false
          end = true) as Hrun by (vm_compute; reflexivity).
  rewrite E1, E2 in Hrun. destruct (add_message 5 _ _ (r1, w1)) as [[out|e|] s1] eqn:Ea; [|done..].
  destruct (sync_repos out.2 (s1, (r2, w2))) as [[[]|e|] [e1 e2]] eqn:Es; [|done..].
  destruct (sync_repos_agree 5 (0 : @Uuid uuids) (Text "Hello from P1") (r1, w1) (r2, w2) out s1 e1 e2
    (Hstored _ _ _ O1) (Hstored _ _ _ O2) (Hnew _ _ _ E1) (Hnew _ _ _ E2) Ea Es) as [Heq _].
  exists r1, w1, r2, w2, out, s1, e1, e2. do 5 (split; [done|]). vm_compute. reflexivity.
Defined.
End TestSamples.
