(* ===== verification/Race.v ===== *)
(** Opening a chat while its messages are being written: get_persisted_doc_state of
    src/src/persistence.rs against other tasks that append to the same chat's log, and
    against another compaction. *)
From S2P Require Import Prelude External Wire Errors ChatTypes Database Automerge Schema Repository Tests.
From stdpp Require Import base gmap strings list sorting.
From Stdlib Require Import ZArith Lia Sorting.Sorted.
Import ChatRepository.
Open Scope tryst_scope.

(** ** Worlds whose other tasks add *)
Section Tracking.
Context {D C : Type} `{Countable C}.
Implicit Types (I K : gset C -> D -> Prop) (X G : gset C) (adds : list (gset C)).

(** What the first [n] turns add. *)
Definition gains (n : nat) adds : gset C := ⋃ take n adds.

Lemma gains_add n m adds : gains n adds ∪ gains m (drop n adds) = gains (n + m) adds.
Proof. unfold gains. by rewrite <- union_list_app_L, take_take_drop. Qed.

Lemma gains_0 X adds : X ∪ gains 0 adds = X.
Proof. apply (right_id_L ∅ (∪)). Qed.
Lemma gains_1 X a adds : X ∪ gains 1 (a :: adds) = X ∪ a.
Proof. unfold gains. simpl. by rewrite (right_id_L ∅ (∪)). Qed.

(** Each turn of the weather takes [I X] to [I (X ∪ a)]. *)
Definition turns_add I (w : World D) adds : Prop :=
  Forall2 (fun wx a => forall X d, I X d -> I (X ∪ a) (others wx d)) (forecast w) adds.

Lemma turns_add_later I w w' adds n :
  turns_add I w adds -> forecast w' = drop n (forecast w) -> turns_add I w' (drop n adds).
Proof. unfold turns_add. intros Ht ->. by apply Forall2_drop. Qed.

(** The next turn; none is left in a calm world. *)
Lemma next_turn I w adds wx rest :
  turns_add I w adds -> next_weather w = (wx, rest) ->
  exists n, n <= 1 /\ rest = drop n (forecast w) /\ (n = 0 -> forecast w = []) /\
    forall X d, I X d -> I (X ∪ gains n adds) (others wx d).
Proof.
  unfold turns_add, next_weather. intros Ht. destruct (forecast w) as [|wx' rest']; intros [= <- <-].
  - exists 0. split; [lia|]. split; [done|]. split; [done|]. intros X d HI.
    by rewrite gains_0.
  - apply Forall2_cons_inv_l in Ht as (a & adds' & Ha & _ & ->). exists 1. split; [lia|]. split; [done|]. split; [done|].
    intros X d HI. rewrite gains_1. auto.
Qed.

(** The number of turns the weather had is the same for every family. *)
Lemma next_turn_both I K w adds wx rest :
  turns_add I w adds -> turns_add K w adds -> next_weather w = (wx, rest) ->
  exists n, rest = drop n (forecast w) /\
    (forall X d, I X d -> I (X ∪ gains n adds) (others wx d)) /\
    (forall X d, K X d -> K (X ∪ gains n adds) (others wx d)).
Proof.
  intros HI HK Hn. destruct (next_turn _ _ _ _ _ HI Hn) as (n & Hn1 & Hr & H0 & Hi).
  destruct (next_turn _ _ _ _ _ HK Hn) as (m & Hm1 & Hr' & H0' & Hk). exists n. split; [done|]. split; [done|].
  assert (n = m \/ (forecast w = [] /\ adds = [])) as [->|[Hf ->]].
  { destruct (forecast w) as [|y ys] eqn:E; [right; split; [done|]|left; destruct n, m; try lia; [by specialize (H0 eq_refl)|by specialize (H0' eq_refl)]].
    unfold turns_add in HI. rewrite E in HI. by apply Forall2_nil_inv_l in HI. }
  - done.
  - intros X d. unfold gains in *. rewrite !take_nil in *. apply Hk.
Qed.

Lemma stmt_tracks {A} I (f : D -> outcome string A * D) (Q : A -> D -> Prop) w X adds :
  turns_add I w adds -> I X (store w) ->
  (forall Y d, I Y d -> exists a d', f d = (Ok a, d') /\ I Y d' /\ Q a d') ->
  exists n r w', stmt f w = (r, w') /\ forecast w' = drop n (forecast w) /\
    I (X ∪ gains n adds) (store w') /\
    ((exists a, r = Ok a /\ Q a (store w')) \/ (~ faultless w /\ exists e, r = Err (Sqlx e))).
Proof.
  intros Ht HI Hf. unfold stmt. destruct (next_weather w) as [wx rest] eqn:Enw.
  destruct (next_turn _ _ _ _ _ Ht Enw) as (n & _ & Hr & _ & Hwx). specialize (Hwx X _ HI).
  destruct (fault wx) as [e|] eqn:Ef.
  - exists n. eexists _, _. split; [done|]. split; [done|]. split; [done|]. right. split; [|eauto].
    intros Hfl. apply (next_weather_faultless w wx rest Hfl) in Enw as [? ?]. congruence.
  - destruct (Hf _ _ Hwx) as (a & d' & -> & HI' & HQ). exists n. eexists _, _. split; [done|].
    split; [done|]. split; [done|]. left. eauto.
Qed.

Lemma gains_assoc X G n m adds : X ∪ G ∪ gains n adds ∪ gains m (drop n adds) = X ∪ G ∪ gains (n + m) adds.
Proof. by rewrite <- (gains_add n m), !(assoc_L (∪)). Qed.

Lemma tx_writes_tracks I K ws base d waiting w X G adds :
  turns_add I w adds -> turns_add K w adds ->
  (forall Y x, I Y x -> I (Y ∪ G) (waiting x)) -> (forall Y x, K Y x -> K (Y ∪ G) (waiting x)) ->
  I X base -> (exists d', foldl (fun o f => obind o f) (Ok d) ws = Ok (E := string) d' /\ K X d') ->
  exists n r w', tx_writes ws base d waiting w = (r, w') /\ forecast w' = drop n (forecast w) /\
    ((r = Ok tt /\ K (X ∪ G ∪ gains n adds) (store w')) \/
     (~ faultless w /\ I (X ∪ G ∪ gains n adds) (store w') /\ exists e, r = Err (Sqlx e))).
Proof.
  revert d waiting w G adds. induction ws as [|f ws IH]; intros d waiting w G adds HI HK HwI HwK Hb (d' & Hd & Hd').
  all: cbn [tx_writes]; destruct (next_weather w) as [wx rest] eqn:Enw;
    destruct (next_turn_both _ _ _ _ _ _ HI HK Enw) as (n & Hr & HIx & HKx);
    pose proof (fun H => next_weather_faultless w wx rest H Enw) as Hfl;
    destruct (fault wx) as [e|] eqn:Ef;
    [exists n; eexists _, _; split; [done|]; split; [done|]; right; split;
       [intros Hf; destruct (Hfl Hf); congruence|]; split; [by apply HIx, HwI|eauto]|].
  - simpl in Hd. injection Hd as ->. exists n. eexists _, _. split; [done|]. split; [done|]. left. split; [done|].
    by apply HKx, HwK.
  - cbn [foldl obind] in Hd. destruct (f d) as [d1|e|] eqn:Efd; [|by exfalso; clear -Hd; induction ws; simpl in Hd..].
    destruct (IH d1 (fun x => others wx (waiting x)) {| store := store w; forecast := rest |} (G ∪ gains n adds) (drop n adds))
      as (m & r & w' & -> & Hl & Ho).
    { by eapply turns_add_later. } { by eapply turns_add_later. }
    { intros Y x HY. rewrite (assoc_L (∪)). by apply HIx, HwI. }
    { intros Y x HY. rewrite (assoc_L (∪)). by apply HKx, HwK. }
    { done. } { eauto. }
    rewrite !(assoc_L (∪)), gains_assoc in Ho. exists (n + m), r, w'. split; [done|].
    split; [cbn [forecast] in Hl; by rewrite Hl, Hr, drop_drop|]. destruct Ho as [?|(Hn & ?)]; [by left|]. right.
    split; [|done]. intros Hf. apply Hn. unfold faultless in *. cbn [forecast]. rewrite Hr. by apply Forall_drop.
Qed.

(** A transaction that takes [I] to [K], beside tasks that add to either. *)
Lemma transaction_tracks I K f ws w X adds :
  turns_add I w adds -> turns_add K w adds -> I X (store w) ->
  (forall Y d, I Y d -> exists d', foldl (fun o g => obind o g) (f d) ws = Ok d' /\ K Y d') ->
  exists n r w', transaction f ws w = (r, w') /\ forecast w' = drop n (forecast w) /\
    ((r = Ok tt /\ K (X ∪ gains n adds) (store w')) \/
     (~ faultless w /\ I (X ∪ gains n adds) (store w') /\ exists e, r = Err (Sqlx e))).
Proof.
  intros HI HK Hx Hf. unfold transaction, bind.
  destruct (stmt_tracks I (fun d => (Ok tt, d)) (fun _ _ => True) w X adds HI Hx) as (n & r & w1 & E1 & Hl1 & HI1 & Hr);
    [eauto 10|]. rewrite E1. destruct Hr as [(a & -> & _)|[Hn (e & ->)]].
  2: { exists n. eexists _, _. split; [done|]. split; [done|]. right. eauto. }
  destruct (next_weather w1) as [wx rest] eqn:Enw.
  destruct (next_turn_both _ _ _ _ _ _ (turns_add_later _ _ _ _ _ HI Hl1) (turns_add_later _ _ _ _ _ HK Hl1) Enw)
    as (m & Hr & HIx & HKx).
  specialize (HIx _ _ HI1). rewrite <- (assoc_L (∪)), gains_add in HIx. set (base := others wx (store w1)) in *.
  assert (rest = drop (n + m) (forecast w)) as Hrest by (by rewrite Hr, Hl1, drop_drop).
  assert (faultless w -> fault wx = None /\ Forall (fun wx => fault wx = None) rest) as Hfl.
  { intros Hf'. apply (next_weather_faultless w1); [|done]. unfold faultless. rewrite Hl1. by apply Forall_drop. }
  destruct (fault wx) as [e|] eqn:Ef.
  { exists (n + m). eexists _, _. split; [done|]. split; [done|]. right. split; [|by eauto].
    intros Hw. destruct (Hfl Hw). congruence. }
  destruct (Hf _ base HIx) as (d' & Hd & HKd).
  destruct (f base) as [d|e|] eqn:Efd; [|by exfalso; clear -Hd; induction ws; simpl in Hd..].
  destruct (tx_writes_tracks I K ws base d id {| store := base; forecast := rest |} (X ∪ gains (n + m) adds) ∅ (drop (n + m) adds))
    as (l & r & w' & -> & Hl3 & Ho); [by eapply turns_add_later|by eapply turns_add_later|by intros; rewrite (right_id_L ∅ (∪))|
      by intros; rewrite (right_id_L ∅ (∪))|done|eauto|].
  rewrite (right_id_L ∅ (∪)), <- (assoc_L (∪)), gains_add in Ho. exists (n + m + l), r, w'.
  split; [done|]. split; [cbn [forecast] in Hl3; by rewrite Hl3, Hrest, drop_drop|].
  destruct Ho as [?|(Hn & ?)]; [by left|]. right. split; [|done]. intros Hw. apply Hn. by apply Hfl.
Qed.
End Tracking.

Module ChatRace.
Section Racing.
Context {Ids : EndpointIds} {Us : Uuids} {OI : ObjIds} {AM : Automerges} {V : DocViews AM}
  {Laws : AutomergeLaws AM V}.
Implicit Types (base X : gset ChangeHash) (adds : list (gset ChangeHash)).

(** Another task's write: rows after those of the chat's log that add the changes [a] to
    whatever has [base]; the chat's snapshot stays. *)
Record appends (c : string) base (f : Db -> Db) (a : gset ChangeHash) : Prop := {
  appends_wf d : db_wf d -> db_wf (f d);
  appends_doc d : db_wf d -> chats (f d) !! c = chats d !! c;
  appends_log d : db_wf d -> is_Some (chats d !! c) -> exists new, log_rows c (f d) = log_rows c d ++ new /\
    forall X, base ⊆ X -> replays X (concat (log_data <$> new)) (X ∪ a);
}.

Definition writers (c : string) base (w : World Db) adds : Prop :=
  Forall2 (fun wx a => appends c base (others wx) a) (forecast w) adds.

(** What [persist_chat] of a manager that runs meanwhile does. *)
Lemma insert_appends c base d0 d1 :
  changes d0 ⊆ base -> changes d0 ⊆ changes d1 ->
  appends c base (fun db => (insert_log c (save_after d1 (get_heads d0)) db).2) (changes d1).
Proof.
  intros Hb Hsub. split.
  - intros d Hwf. destruct (chats d !! c) as [x|] eqn:E; [|unfold insert_log; by rewrite E].
    destruct (insert_log_ok c (save_after d1 (get_heads d0)) d Hwf) as (d' & -> & ? & _); [by rewrite E|done].
  - intros d Hwf. destruct (chats d !! c) as [x|] eqn:E; [|unfold insert_log; by rewrite E].
    destruct (insert_log_ok c (save_after d1 (get_heads d0)) d Hwf) as (d' & -> & _ & Hc & _); [by rewrite E|]. cbn [snd]. by rewrite Hc.
  - intros d Hwf Hc. destruct (insert_log_ok c (save_after d1 (get_heads d0)) d Hwf Hc) as (d' & -> & _ & _ & Hr & _).
    eexists. split; [exact Hr|]. intros X HX. cbn. rewrite app_nil_r, <- (app_nil_r (save_after _ _)).
    constructor; [done|by transitivity base|constructor].
Qed.

(** The chat's snapshot is [document], its log [rows] and then rows that lead from [X0]
    to [X]. *)
Definition grown (c : string) base (document : bytes) (rows : list LogRow) (X0 X : gset ChangeHash) (d : Db) : Prop :=
  base ⊆ X /\ db_wf d /\ chats d !! c = Some document /\
  exists new, log_rows c d = rows ++ new /\ replays X0 (concat (log_data <$> new)) X.

Lemma writers_grown c base document rows X0 w adds :
  writers c base w adds -> turns_add (grown c base document rows X0) w adds.
Proof.
  unfold writers, turns_add. intros Hw. eapply Forall2_impl; [exact Hw|].
  intros wx a [Hwf Hdoc Hlog] X d (Hb & Hd & Hc & new & Hr & Hrep).
  destruct (Hlog d Hd) as (new' & Hr' & Hrep'); [by rewrite Hc|].
  split; [set_solver|]. split; [by apply Hwf|]. split; [by rewrite Hdoc|].
  exists (new ++ new'). rewrite Hr', Hr, (assoc_L (++)). split; [done|].
  rewrite fmap_app, concat_app. eapply replays_app; [done|]. by apply Hrep'.
Qed.

Lemma grown_holds c base document d0 rows X0 X d :
  load document = Ok d0 -> replays (changes d0) (concat (log_data <$> rows)) X0 ->
  grown c base document rows X0 X d -> holds_changes c X d.
Proof.
  intros Hl Hrep (_ & Hwf & Hc & new & Hr & Hnew). split; [done|]. exists document, d0. split; [done|]. split; [done|].
  rewrite Hr, fmap_app, concat_app. by eapply replays_app.
Qed.

(** A compaction up to the last row that was read keeps the rows that came after it. *)
Lemma log_rows_after c d rows new r :
  db_wf d -> log_rows c d = rows ++ new -> last rows = Some r ->
  filter (fun x => (log_id r < log_id x)%Z) (log_rows c d) = new.
Proof.
  intros Hwf Hr Hlast. rewrite Hr. rewrite log_rows_filter in Hr by done.
  pose proof (StronglySorted_filter _ (fun r => log_chat_id r = c) _ (wf_sorted d Hwf)) as Hs. rewrite Hr in Hs.
  apply last_Some in Hlast as [l ->]. rewrite filter_app.
  assert (filter (fun x => (log_id r < log_id x)%Z) (l ++ [r]) = []) as ->.
  { destruct (filter _ (l ++ [r])) as [|x q] eqn:E; [done|exfalso].
    assert (x ∈ filter (fun x => (log_id r < log_id x)%Z) (l ++ [r])) as Hin by (rewrite E; left).
    apply list_elem_of_filter in Hin as [Hlt [Hin|Hin%list_elem_of_singleton]%elem_of_app]; [|subst; lia].
    rewrite <- (assoc_L (++)) in Hs.
    pose proof (StronglySorted_app_1_elem_of _ _ _ x r Hs Hin ltac:(by left)) as Hlt'. simpl in Hlt'. lia. }
  assert (Forall (fun x => (log_id r < log_id x)%Z) new) as Hnew.
  { apply Forall_forall. intros x Hx. apply (StronglySorted_app_1_elem_of _ _ _ r x Hs); [|done].
    apply elem_of_app. right. by left. }
  clear -Hnew. induction Hnew as [|x l Hx _ IH]; [done|]. rewrite filter_cons_True by done. simpl in IH |- *. by rewrite IH.
Qed.

Lemma restore_beside c base cs document d0 w adds :
  writers c base w adds -> load document = Ok d0 -> grown c base document [] (changes d0) cs (store w) ->
  exists n r w', restore c document w = (r, w') /\ forecast w' = drop n (forecast w) /\
    holds_changes c (cs ∪ gains n adds) (store w') /\
    ((exists d m, r = Ok (d, get_heads d) /\ m <= n /\ changes d = cs ∪ gains m adds) \/
     (~ faultless w /\ exists e, r = Err (Sqlx e))).
Proof using Laws.
  intros Hw Hload Hg. unfold restore. rewrite Hload. simpl map_err. rewrite (bind_ok _ _ w d0 w) by done.
  destruct (stmt_tracks (grown c base document [] (changes d0)) (select_log c) (fun rows d => rows = log_rows c d)
    w cs adds) as (n & r & w1 & E1 & Hl1 & Hg1 & Hr); [by apply writers_grown|done|by intros; unfold select_log; eauto|].
  assert (holds_changes c (cs ∪ gains n adds) (store w1)) as Hh1 by (eapply (grown_holds c base document d0 []); [done|constructor|done]).
  destruct Hr as [(rows & -> & Hrows)|[Hn [e ->]]].
  2: { rewrite (bind_err _ _ _ _ _ E1). exists n. eexists _, _. split; [done|]. split; [done|]. split; [done|].
       right. eauto. }
  rewrite (bind_ok _ _ _ _ _ E1). destruct Hg1 as (Hb1 & Hwf1 & Hc1 & new & Hnew & Hrep). cbn [app] in Hnew.
  rewrite <- Hrows in Hnew. subst new.
  destruct (last rows) as [last_row|] eqn:Elast.
  2: { apply last_None in Elast. exists n. eexists _, _. split; [done|]. split; [done|]. split; [done|].
       left. exists d0, n. split; [done|]. split; [done|]. rewrite Elast in Hrep. by apply (replays_nil_inv _ _ _ Hrep). }
  destruct (load_replays d0 (concat (log_data <$> rows)) _ Hrep) as (d & E & Hd). rewrite E.
  rewrite bind_bind, (bind_ok _ _ w1 tt w1) by done. rewrite bind_bind.
  assert (writers c base w1 (drop n adds)) as Hw1 by (unfold writers; rewrite Hl1; by apply Forall2_drop).
  case_bool_decide as Hlim.
  2: { exists n. eexists _, _. split; [done|]. split; [done|]. split; [done|]. left. by exists d, n. }
  set (X1 := cs ∪ gains n adds) in *.
  destruct (transaction_tracks (grown c base document rows X1) (grown c base (save d) [] X1)
    (update_document (save d) c) [delete_log c (log_id last_row)] w1 X1 (drop n adds)) as (m & r & w2 & E2 & Hl2 & Hr).
  { by apply writers_grown. } { by apply writers_grown. }
  { split; [done|]. split; [done|]. split; [done|]. exists []. rewrite app_nil_r. split; [done|constructor]. }
  { intros Y db (HbY & Hwf & Hdoc & new & Hlog & Hnew).
    destruct (compaction_writes c (save d) (log_id last_row) db Hwf) as (d' & Ed & Hwf' & Hdoc' & Hlog' & _).
    exists d'. split; [done|]. split; [done|]. split; [done|]. split; [by rewrite Hdoc', Hdoc|].
    exists new. rewrite Hlog'. split; [by apply (log_rows_after c db rows)|done]. }
  assert (forecast w2 = drop (n + m) (forecast w)) as Hl by (by rewrite Hl2, Hl1, drop_drop).
  unfold X1 in Hr. rewrite <- (assoc_L (∪)), gains_add in Hr. fold X1 in Hr. destruct (load_save d) as (ds & Hls & Hds).
  exists (n + m). destruct Hr as [(-> & HK)|(Hn & HI & e & ->)].
  - rewrite (bind_ok _ _ _ _ _ E2). eexists _, _. split; [done|]. split; [done|].
    split; [eapply (grown_holds c base (save d) ds [] X1); [done|rewrite Hds, Hd; constructor|done]|].
    left. exists d, n. split; [done|]. split; [lia|done].
  - rewrite (bind_err _ _ _ _ _ E2). eexists _, _. split; [done|]. split; [done|].
    split; [by eapply (grown_holds c base document d0 rows X1)|]. right. split; [|by eauto].
    intros Hf. apply Hn. unfold faultless in *. rewrite Hl1. by apply Forall_drop.
Qed.

(** C8. Opening a chat beside a manager that is writing to it loses nothing and invents
    nothing: whatever rows other tasks append to the chat's log between any two statements
    of the load and of its compaction, the database ends up with exactly what it had and
    what they added, whether the load succeeds, fails or its compaction is rolled back;
    and a repository that was opened has at least what was stored and at most that and
    what was added. *)
Theorem opening_beside_writers cid base cs w adds :
  let c := chat_id_to_string cid in
  writers c base w adds -> base ⊆ cs -> holds_changes c cs (store w) ->
  exists n r w', new cid w = (r, w') /\ forecast w' = drop n (forecast w) /\
    holds_changes c (cs ∪ gains n adds) (store w') /\
    ((exists rp, r = Ok rp /\ cs ⊆ changes (doc rp) /\ changes (doc rp) ⊆ cs ∪ gains n adds) \/
     (~ faultless w /\ exists e, r = Err (Sqlx e))).
Proof using Laws.
  intros c Hw Hb (Hwf & document & d0 & Hdoc & Hload & Hrep).
  assert (grown c base document [] (changes d0) cs (store w)) as Hg.
  { split; [done|]. split; [done|]. split; [done|]. by exists (log_rows c (store w)). }
  destruct (stmt_tracks (grown c base document [] (changes d0)) (select_document c) (fun x _ => x = Some document)
    w cs adds) as (n & r & w1 & E1 & Hl1 & Hg1 & Hr); [by apply writers_grown|done| |].
  { intros Y d HY. pose proof HY as (_ & _ & Hd & _). unfold select_document. rewrite Hd. eauto. }
  assert (writers c base w1 (drop n adds)) as Hw1 by (unfold writers; rewrite Hl1; by apply Forall2_drop).
  unfold new, get_persisted_doc_state. rewrite bind_bind. unfold bind at 1, gets. cbn [persisted_loop]. fold c.
  destruct Hr as [(x & -> & ->)|[Hn [e ->]]].
  2: { rewrite (bind_err _ _ _ _ _ (bind_err _ _ _ _ _ (bind_err _ _ _ _ _ E1))). exists n. eexists _, _. split; [done|]. split; [done|].
       split; [eapply (grown_holds c base document d0 []); [done|constructor|done]|]. right. eauto. }
  destruct (restore_beside c base _ document d0 w1 _ Hw1 Hload Hg1) as (m & r & w2 & E2 & Hl2 & Hh2 & Hr).
  rewrite <- (assoc_L (∪)), gains_add in Hh2. exists (n + m). rewrite !bind_bind, (bind_ok _ _ _ _ _ E1), !bind_bind.
  assert (forecast w2 = drop (n + m) (forecast w)) as Hl by (by rewrite Hl2, Hl1, drop_drop).
  destruct Hr as [(d & k & -> & Hk & Hd)|[Hn [e ->]]].
  - rewrite (bind_ok _ _ _ _ _ E2). eexists _, w2. split; [done|]. split; [done|]. split; [done|]. left.
    eexists. split; [done|]. cbn [doc fst]. rewrite Hd. rewrite <- (assoc_L (∪)), gains_add.
    split; [apply union_subseteq_l|]. apply union_mono_l.
    replace (n + m) with (n + k + (m - k)) by lia. rewrite <- (gains_add (n + k)). apply union_subseteq_l.
  - rewrite (bind_err _ _ _ _ _ E2). eexists _, w2. split; [done|]. split; [done|]. split; [done|]. right.
    split; [|by eauto]. intros Hf. apply Hn. unfold faultless in *. rewrite Hl1. by apply Forall_drop.
Qed.

Lemma bind_lift_ok {W E A B} (a : A) (k : A -> action W E B) w : bind (lift (Ok a)) k w = k a w.
Proof. done. Qed.

(** C31. Two compactions of one chat do not commute. A load reads a log that is over the limit;
    before its transaction begins another task stores more and compacts the chat itself;
    the load's own compaction then puts its older snapshot in place of the newer one: what
    the database held a moment before is gone from it, and nobody gets an error. *)
Theorem stale_compaction_loses cid X0 document1 d1 w other :
  let c := chat_id_to_string cid in
  holds_changes c X0 (store w) -> CHAT_LOGS_LIMIT < length (log_rows c (store w)) ->
  forecast w = [calm; calm; {| others := other; fault := None |}] ->
  db_wf (other (store w)) -> chat_view c (other (store w)) = (Some document1, []) -> load document1 = Ok d1 ->
  X0 ⊆ changes d1 -> changes d1 <> X0 ->
  holds_changes c (changes d1) (other (store w)) /\
  exists rp w', new cid w = (Ok rp, w') /\ changes (doc rp) = X0 /\ holds_changes c X0 (store w') /\
    ~ exists X, holds_changes c X (store w') /\ changes d1 ⊆ X.
Proof using Laws.
  intros c (Hwf & document & d0 & Hdoc & Hload & Hrep) Hlim Hfc Hwf1 Hv1 Hload1 Hsub Hne.
  split; [apply (holds_view c document1 d1 []); [done|apply replays_nil|done|done]|].
  destruct w as [db fc]. cbn [store forecast] in *. subst fc.
  destruct (load_replays d0 _ _ Hrep) as (d & El & Hd). destruct (last (log_rows c db)) as [last_row|] eqn:Elast.
  2: { apply last_None in Elast. rewrite Elast in Hlim. simpl in Hlim. lia. }
  destruct (compaction_writes c (save d) (log_id last_row) (other db) Hwf1) as (db' & Ec & Hwf' & Hc' & Hr' & _).
  injection Hv1 as Hc1 Hr1. rewrite Hr1 in Hr'. rewrite Hc1 in Hc'.
  assert (holds_changes c X0 db') as Hh.
  { rewrite <- Hd. apply holds_compacted; [done|]. unfold chat_view. by rewrite Hc', Hr'. }
  eexists _, {| store := db'; forecast := [] |}. split; [|split; [|split; [done|]]].
  - unfold new, get_persisted_doc_state. rewrite bind_bind. unfold bind at 1, gets. cbn [persisted_loop]. fold c.
    assert (forall rest, stmt (select_document c) {| store := db; forecast := calm :: rest |} =
      (Ok (Some document), {| store := db; forecast := rest |})) as E1.
    { intros rest. unfold stmt, next_weather, select_document. cbn. by rewrite Hdoc. }
    assert (forall rest, stmt (select_log c) {| store := db; forecast := calm :: rest |} =
      (Ok (log_rows c db), {| store := db; forecast := rest |})) as E2 by done.
    rewrite !bind_bind, (bind_ok _ _ _ _ _ (E1 _)), !bind_bind. unfold restore. rewrite Hload. simpl map_err.
    rewrite !bind_bind, bind_lift_ok, !bind_bind, (bind_ok _ _ _ _ _ (E2 _)), Elast, El.
    simpl map_err. rewrite !bind_bind, bind_lift_ok, !bind_bind, bool_decide_eq_true_2 by done.
    rewrite (bind_ok _ _ _ tt {| store := db'; forecast := [] |}); [done|].
    unfold transaction, bind, stmt, next_weather. cbn -[update_document delete_log].
    destruct (update_document (save d) c (other db)) as [dbu|e|]; [|done..]. cbn [obind] in Ec.
    cbn -[delete_log]. by rewrite Ec.
  - exact Hd.
  - intros (X & HX & HsX). rewrite (holds_changes_unique _ _ _ _ HX Hh) in HsX.
    by apply Hne, (anti_symm (⊆)).
Qed.
End Racing.
End ChatRace.

(** ** The theorems at concrete runs *)
Module RaceSamples.
Import Concrete ToyDoc ChatRepositorySamples PersistenceTests TestSamples ChatRace.

(** A chat of [n] messages, and the same chat with one more. *)
Lemma one_more n :
  exists ms s s', open_chat cid ms n s /\ open_chat cid (ms ++ [nth_message ticking numbering cid n "a"]) (S n) s' /\
    changes (doc s.1) ⊆ changes (doc s'.1) /\ changes (doc s'.1) <> changes (doc s.1).
Proof.
  destruct (said_and_counted (AM := toy) ticking numbering cid "" n) as (r & w & s & _ & _ & Hs).
  destruct (say_spec ticking numbering cid n "a" _ _ _ Hs) as (s' & E & Hs'). exists (numbered ticking numbering cid "" <$> seq 0 n), s, s'.
  do 2 (split; [done|]). unfold say in E. apply bind_ok_inv in E as ([m om] & s1 & E & [= <-]).
  destruct (add_message_durable ∅ _ _ _ _ _ _ (open_saved _ _ _ _ Hs) E) as (_ & _ & _ & Hsub & _). split; [done|].
  intros Heq. pose proof (open_shows _ _ _ _ Hs') as Hr'. rewrite (changes_objs _ _ Heq), <- said_mine in Hr'.
  eapply said_changes, represents_unique, (open_shows _ _ _ _ Hs). exact Hr'.
Qed.

Lemma opened_holds ms k s : open_chat cid ms k s -> holds_changes (chat_id_to_string cid) (changes (doc s.1)) (store s.2).
Proof. intros [Hid _ Ha _ _ _]. unfold all_saved, repo_chat in Ha. by rewrite Hid in Ha. Qed.

Lemma opening_beside_writers_witness :
  exists cs a w rp w', forecast w <> [] /\ new cid w = (Ok rp, w') /\ ~ a ⊆ cs /\
    cs ⊆ changes (doc rp) /\ changes (doc rp) ⊆ cs ∪ a /\
    exists n, holds_changes (chat_id_to_string cid) (cs ∪ gains n [a]) (store w').
Proof.
  destruct (one_more 1) as (ms & s & s' & Hs & Hs' & Hsub & Hne).
  set (f := fun db => (insert_log (chat_id_to_string cid) (save_after (doc s'.1) (get_heads (doc s.1))) db).2).
  set (w := {| store := store s.2; forecast := [{| others := f; fault := None |}] |}).
  destruct (opening_beside_writers cid (changes (doc s.1)) (changes (doc s.1)) w [changes (doc s'.1)])
    as (n & r & w' & E & _ & Hh & [(rp & -> & H1 & H2)|[Hn _]]).
  - constructor; [|constructor]. by apply insert_appends.
  - done.
  - by eapply opened_holds.
  - exists (changes (doc s.1)), (changes (doc s'.1)), w, rp, w'. split; [done|]. split; [done|].
    split; [intros H; apply Hne, (anti_symm (⊆)); done|]. split; [done|]. split; [|by exists n].
    etransitivity; [exact H2|]. apply union_mono_l. unfold gains. destruct n as [|n]; [apply empty_subseteq|].
    rewrite take_ge by (simpl; lia). apply union_least; [done|apply empty_subseteq].
  - exfalso. apply Hn. by repeat constructor.
Defined.

Lemma stale_compaction_loses_witness :
  exists X0 X1 w other rp w', holds_changes (chat_id_to_string cid) X1 (other (store w)) /\
    new cid w = (Ok rp, w') /\ holds_changes (chat_id_to_string cid) X0 (store w') /\ ~ X1 ⊆ X0.
Proof.
  destruct (one_more 513) as (ms & s & s' & Hs & Hs' & Hsub & Hne).
  destruct (reopen cid _ _ _ Hs') as (r3 & w3 & _ & H3 & Hc3).
  rewrite bool_decide_eq_true_2 in H3 by (unfold CHAT_LOGS_LIMIT; lia).
  pose proof (opened_holds _ _ _ H3) as (Hwf & document & d1 & Hdoc & Hload & Hrep). cbn [fst snd] in *.
  pose proof (open_log _ _ _ _ H3) as Hnil. cbn [snd] in Hnil. apply nil_length_inv in Hnil. rewrite Hnil in Hrep.
  pose proof (replays_nil_inv _ _ _ Hrep eq_refl) as Hd1. rewrite Hc3 in Hd1.
  destruct (stale_compaction_loses cid (changes (doc s.1)) document d1
    {| store := store s.2; forecast := [calm; calm; {| others := fun _ => store w3; fault := None |}] |}
    (fun _ => store w3)) as (Hh & rp & w' & E & _ & Hh' & Hlost).
  - by eapply opened_holds.
  - cbn [store]. rewrite (open_log _ _ _ _ Hs). unfold CHAT_LOGS_LIMIT. lia.
  - done.
  - done.
  - unfold chat_view. cbn [store]. by rewrite Hdoc, Hnil.
  - done.
  - by rewrite Hd1.
  - by rewrite Hd1.
  - exists (changes (doc s.1)), (changes d1), {| store := store s.2;
      forecast := [calm; calm; {| others := fun _ => store w3; fault := None |}] |}, (fun _ => store w3), rp, w'.
    split; [exact Hh|]. split; [exact E|]. split; [exact Hh'|].
    intros Hsub'. apply Hlost. eauto.
Defined.
End RaceSamples.
