(* ===== verification/Receiver.v ===== *)
(** The receiver of the integration tests (module tests of src/src/manager.rs) and what the
    tests of src/src/app.rs do with it: a client's view of one chat, which merges the
    batches the actor reports, the answers to its own messages and what it loaded. *)
From S2P Require Import Prelude External Wire ChatTypes Connection.
From stdpp Require Import base gmap strings list sorting.
From Stdlib Require Import ZArith Lia Sorting.Sorted.
Open Scope tryst_scope.

#[export] Instance UniffiChatConnectionState_eq_dec : EqDecision UniffiChatConnectionState.
Proof. solve_decision. Defined.

Module TestReceiver.
Section Receiver.

(** A watch channel: its value, and how often the receivers were woken. *)
Record watch (A : Type) := { value : A; version : nat }.
Arguments value {A} _.
Arguments version {A} _.
Definition channel {A} (a : A) : watch A := {| value := a; version := 0 |}.

(** [send_modify] with a closure that assigns when the value differs: the receivers are
    woken either way. *)
Definition send_if_new {A} `{EqDecision A} (a : A) (w : watch A) : watch A :=
  {| value := if bool_decide (value w <> a) then a else value w; version := S (version w) |}.

Record TestChatManagerStateReceiver := {
  all_msgs : list ChatMessage;
  sync_status : watch bool;
  conn_state : watch UniffiChatConnectionState;
  msg_update : watch unit;
}.

Definition new (all_messages : list ChatMessage) : TestChatManagerStateReceiver := {|
  all_msgs := all_messages;
  sync_status := channel false;
  conn_state := channel UDisconnected;
  msg_update := channel tt;
|}.

(** [current_msgs.iter().any(|m| m.id == msg.id)] *)
Definition has_id (i : string) (ms : list ChatMessage) : bool := existsb (fun m => bool_decide (msg_id m = i)) ms.

Definition push_new (ms : list ChatMessage) (msg : ChatMessage) : list ChatMessage :=
  if has_id (msg_id msg) ms then ms else ms ++ [msg].

Definition process_messages (msgs : list ChatMessage) (r : TestChatManagerStateReceiver) : TestChatManagerStateReceiver := {|
  all_msgs := sort_by msg_leb (foldl push_new (all_msgs r) msgs);
  sync_status := sync_status r; conn_state := conn_state r;
  msg_update := {| value := tt; version := S (version (msg_update r)) |};
|}.

Definition process_connection_state (new_state : UniffiChatConnectionState) (r : TestChatManagerStateReceiver) :
    TestChatManagerStateReceiver :=
  {| all_msgs := all_msgs r; sync_status := sync_status r;
     conn_state := send_if_new new_state (conn_state r); msg_update := msg_update r |}.

Definition process_sync_status (is_synced : bool) (r : TestChatManagerStateReceiver) : TestChatManagerStateReceiver :=
  {| all_msgs := all_msgs r; sync_status := send_if_new is_synced (sync_status r);
     conn_state := conn_state r; msg_update := msg_update r |}.

(** The tail of [TestPeerConn::send_random_text_msg], once the actor answered. *)
Definition push_own (new_msg : ChatMessage) (r : TestChatManagerStateReceiver) : TestChatManagerStateReceiver :=
  {| all_msgs := push_new (all_msgs r) new_msg; sync_status := sync_status r;
     conn_state := conn_state r; msg_update := msg_update r |}.

(** [check_equal] and the comparison of [assert_collected_all_msgs]. *)
Definition check_equal (a b : TestChatManagerStateReceiver) : bool :=
  negb (bool_decide (all_msgs a = [])) && bool_decide (all_msgs a = all_msgs b).
Definition collected_all_msgs (r : TestChatManagerStateReceiver) (all_messages : list ChatMessage) : bool :=
  bool_decide (all_msgs r = sort_by msg_leb all_messages).

(** [assert_equal_chats_msgs]: the check at once, whenever one of the receivers is updated
    within the time limit ([wakes] are the two views then), and the plain comparison of what
    they show [late], when the time is up. *)
Definition assert_equal_chats_msgs (views : TestChatManagerStateReceiver * TestChatManagerStateReceiver)
    (wakes : list (TestChatManagerStateReceiver * TestChatManagerStateReceiver))
    (late : TestChatManagerStateReceiver * TestChatManagerStateReceiver) : bool :=
  check_equal views.1 views.2 || existsb (fun w => check_equal w.1 w.2) wakes ||
  bool_decide (all_msgs late.1 = all_msgs late.2).

(** What a receiver sees, in any order. *)
Inductive event :=
| Messages (msgs : list ChatMessage)
| Own (msg : ChatMessage)
| ConnectionState (s : UniffiChatConnectionState)
| SyncStatus (b : bool).

Definition handle (r : TestChatManagerStateReceiver) (e : event) : TestChatManagerStateReceiver :=
  match e with
  | Messages msgs => process_messages msgs r
  | Own msg => push_own msg r
  | ConnectionState s => process_connection_state s r
  | SyncStatus b => process_sync_status b r
  end.

Definition told (e : event) : list ChatMessage :=
  match e with Messages msgs => msgs | Own msg => [msg] | _ => [] end.

Definition told_state (e : event) : option UniffiChatConnectionState :=
  match e with ConnectionState s => Some s | _ => None end.

(** [conn_state_watcher.borrow()] *)
Definition connection (r : TestChatManagerStateReceiver) : UniffiChatConnectionState := value (conn_state r).

(** What [wait_for_success_conn_with_timeout] asserts of the two receivers in the end. *)
Definition success_conn (a b : TestChatManagerStateReceiver) : bool :=
  match connection a, connection b with UConnected _, UConnected _ => true | _, _ => false end.

(** *** The view as a set *)

(** An id belongs to one message. *)
Definition ids_agree (ms : list ChatMessage) : Prop :=
  forall a b, a ∈ ms -> b ∈ ms -> msg_id a = msg_id b -> a = b.

Lemma has_id_spec i ms : has_id i ms = true <-> exists m, m ∈ ms /\ msg_id m = i.
Proof.
  unfold has_id. rewrite existsb_exists. split; intros (m & Hin & Hi); exists m.
  - by rewrite bool_decide_eq_true in Hi; rewrite list_elem_of_In.
  - by rewrite bool_decide_eq_true, <- list_elem_of_In.
Qed.

Lemma push_new_NoDup ms msg : NoDup (msg_id <$> ms) -> NoDup (msg_id <$> push_new ms msg).
Proof.
  intros Hnd. unfold push_new. destruct (has_id (msg_id msg) ms) eqn:Eh; [done|].
  rewrite fmap_app. apply NoDup_app. split; [done|]. split; [|apply NoDup_singleton].
  intros i (m & -> & Hm)%list_elem_of_fmap Hi%list_elem_of_singleton.
  assert (has_id (msg_id msg) ms = true); [|congruence]. apply has_id_spec. eauto.
Qed.

(** With ids that agree, the view gains exactly the message. *)
Lemma push_new_elem ms msg x :
  ids_agree (msg :: ms) -> x ∈ push_new ms msg <-> x ∈ ms \/ x = msg.
Proof.
  intros Hag. unfold push_new. destruct (has_id (msg_id msg) ms) eqn:Eh.
  - split; [by left|]. intros [?| ->]; [done|]. apply has_id_spec in Eh as (m & Hm & Hi).
    by rewrite (Hag msg m) by (by (left; done) || (by right) || done).
  - rewrite elem_of_app, list_elem_of_singleton. done.
Qed.

Lemma foldl_push_new msgs ms :
  ids_agree (ms ++ msgs) -> NoDup (msg_id <$> ms) ->
  NoDup (msg_id <$> foldl push_new ms msgs) /\ forall x, x ∈ foldl push_new ms msgs <-> x ∈ ms \/ x ∈ msgs.
Proof.
  revert ms. induction msgs as [|m msgs IH]; intros ms Hag Hnd; simpl.
  { split; [done|]. intros x. rewrite elem_of_nil. tauto. }
  assert (forall x, x ∈ push_new ms m <-> x ∈ ms \/ x = m) as Hin.
  { intros x. apply push_new_elem. intros a b Ha Hb. rewrite elem_of_cons in Ha, Hb. apply Hag; rewrite elem_of_app, elem_of_cons; tauto. }
  destruct (IH (push_new ms m)) as [Hnd' Hx].
  - intros a b Ha Hb. rewrite elem_of_app, Hin in Ha, Hb. apply Hag; rewrite elem_of_app, elem_of_cons; tauto.
  - by apply push_new_NoDup.
  - split; [done|]. intros x. rewrite Hx, Hin, elem_of_cons. tauto.
Qed.

(** The view is the set of what it was told, each message once. *)
Definition knows (r : TestChatManagerStateReceiver) (ms : list ChatMessage) : Prop :=
  NoDup (msg_id <$> all_msgs r) /\ forall x, x ∈ all_msgs r <-> x ∈ ms.

Lemma merge_knows ms0 ms msgs :
  NoDup (msg_id <$> ms0) /\ (forall x, x ∈ ms0 <-> x ∈ ms) -> ids_agree (ms ++ msgs) ->
  NoDup (msg_id <$> foldl push_new ms0 msgs) /\ forall x, x ∈ foldl push_new ms0 msgs <-> x ∈ ms ++ msgs.
Proof.
  intros [Hnd Hin] Hag. destruct (foldl_push_new msgs ms0) as [Hnd' Hx]; [|done|].
  - intros a b Ha Hb. apply Hag; rewrite elem_of_app in *; by rewrite <- Hin.
  - split; [done|]. intros x. by rewrite Hx, elem_of_app, Hin.
Qed.

Lemma handle_knows r e ms : knows r ms -> ids_agree (ms ++ told e) -> knows (handle r e) (ms ++ told e).
Proof.
  intros Hk Hag. unfold knows. destruct e as [msgs|msg|s|b]; cbn [handle told] in *; [| |by rewrite app_nil_r..].
  - destruct (merge_knows _ _ _ Hk Hag) as [Hnd Hx]. cbn [process_messages all_msgs].
    split; [by rewrite sort_by_Permutation|]. intros x. by rewrite sort_by_Permutation.
  - exact (merge_knows _ _ [msg] Hk Hag).
Qed.

Lemma ids_agree_app ms1 ms2 : ids_agree (ms1 ++ ms2) -> ids_agree ms1.
Proof. intros Hag a b Ha Hb. apply Hag; apply elem_of_app; by left. Qed.

Lemma handle_all_knows es r ms :
  knows r ms -> ids_agree (ms ++ concat (told <$> es)) -> knows (foldl handle r es) (ms ++ concat (told <$> es)).
Proof.
  revert r ms. induction es as [|e es IH]; intros r ms Hk Hag; [by rewrite app_nil_r|].
  rewrite fmap_cons, concat_cons, (assoc_L (++)) in Hag |- *. cbn [foldl]. apply IH; [|done].
  apply handle_knows; [done|]. by eapply ids_agree_app.
Qed.

(** A sorted view is determined by its set of messages. *)
Lemma sorted_views_equal ms1 ms2 :
  NoDup (msg_id <$> ms1) -> NoDup (msg_id <$> ms2) -> (forall x, x ∈ ms1 <-> x ∈ ms2) -> ids_agree ms1 ->
  sort_by msg_leb ms1 = sort_by msg_leb ms2.
Proof.
  intros H1 H2 Hin Hag. assert (ms1 ≡ₚ ms2) as Hp.
  { apply NoDup_Permutation; [by eapply NoDup_fmap_1|by eapply NoDup_fmap_1|done]. }
  apply (StronglySorted_unique_strong (fun x y => msg_leb x y = true)).
  - intros x y Hx Hy Hxy Hyx. rewrite sort_by_Permutation in Hx, Hy. apply Hag; [done|by apply Hin|].
    by apply msg_leb_antisym_id.
  - apply sort_by_sorted; [apply msg_leb_total|apply msg_leb_trans].
  - apply sort_by_sorted; [apply msg_leb_total|apply msg_leb_trans].
  - by rewrite !sort_by_Permutation.
Qed.

(** The view is in order, as the closing comparisons of the tests need it. *)
Definition in_order (r : TestChatManagerStateReceiver) : Prop := sort_by msg_leb (all_msgs r) = all_msgs r.

Lemma in_order_sorted r : in_order r <-> sorted_by msg_leb (all_msgs r).
Proof.
  split; [|apply sort_by_id]. intros <-. apply sort_by_sorted; [apply msg_leb_total|apply msg_leb_trans].
Qed.

(** The client takes in its own messages in time: each is shown already, or is the latest of
    those shown, or a batch comes after it, with which the view is sorted again. *)
Definition is_batch (e : event) : bool := match e with Messages _ => true | _ => false end.
Fixpoint timely (r : TestChatManagerStateReceiver) (es : list event) : bool :=
  match es with
  | [] => true
  | e :: es' =>
      match e with
      | Own msg => has_id (msg_id msg) (all_msgs r) || forallb (fun m => msg_leb m msg) (all_msgs r) || existsb is_batch es'
      | _ => true
      end && timely (handle r e) es'
  end.

Lemma push_own_in_order r msg :
  in_order r -> has_id (msg_id msg) (all_msgs r) || forallb (fun m => msg_leb m msg) (all_msgs r) = true ->
  in_order (push_own msg r).
Proof.
  rewrite !in_order_sorted. cbn [push_own all_msgs]. unfold push_new. intros Hr.
  destruct (has_id (msg_id msg) (all_msgs r)); [done|]. rewrite orb_false_l, forallb_forall. intros Hle.
  apply StronglySorted_app_2; [intros x y Hx ->%list_elem_of_singleton; by apply Hle, list_elem_of_In|done|repeat constructor].
Qed.

Lemma timely_in_order r es :
  in_order r \/ existsb is_batch es = true -> timely r es = true -> in_order (foldl handle r es).
Proof.
  revert r. induction es as [|e es IH]; intros r Hr; [by destruct Hr|]. cbn [timely foldl].
  intros [He Hes]%andb_true_iff. apply IH; [|done]. destruct e as [msgs|msg|c|b]; cbn [existsb is_batch orb] in Hr.
  - left. apply in_order_sorted. cbn [handle process_messages all_msgs].
    apply sort_by_sorted; [apply msg_leb_total|apply msg_leb_trans].
  - destruct Hr as [Hr|?]; [|by right]. apply orb_true_iff in He as [He|?]; [left|by right]. by apply push_own_in_order.
  - exact Hr.
  - exact Hr.
Qed.

(** An own message that comes too late, when a newer one is shown, leaves the view out of
    order: it is then none that [assert_collected_all_msgs] accepts. *)
Lemma late_own_message_fails r msg m all :
  has_id (msg_id msg) (all_msgs r) = false -> m ∈ all_msgs r -> msg_leb m msg = false ->
  collected_all_msgs (push_own msg r) all = false.
Proof.
  intros Hid Hm Hle. apply bool_decide_eq_false. cbn [push_own all_msgs]. unfold push_new. rewrite Hid. intros Heq.
  assert (sorted_by msg_leb (all_msgs r ++ [msg])) as Hs.
  { rewrite Heq. apply sort_by_sorted; [apply msg_leb_total|apply msg_leb_trans]. }
  enough (msg_leb m msg = true) by congruence.
  apply StronglySorted_app in Hs as (Hlt & _ & _). apply Hlt; [done|by left].
Qed.

(** After a batch the view is the sorted list of all it was told. *)
Lemma view_after_batch loaded es last_batch all :
  let es' := es ++ [Messages last_batch] in
  NoDup (msg_id <$> loaded) -> ids_agree (loaded ++ concat (told <$> es')) ->
  NoDup (msg_id <$> all) -> (forall x, x ∈ all <-> x ∈ loaded ++ concat (told <$> es')) ->
  all_msgs (foldl handle (new loaded) es') = sort_by msg_leb all.
Proof.
  intros es' Hnd Hag Hall Hin. assert (knows (new loaded) loaded) as Hk by done.
  unfold es'. rewrite foldl_app. cbn [foldl handle process_messages all_msgs].
  unfold es' in Hag, Hin. rewrite fmap_app, concat_app, (assoc_L (++)) in Hag, Hin. simpl in Hag, Hin.
  rewrite app_nil_r in Hag, Hin.
  destruct (merge_knows (all_msgs (foldl handle (new loaded) es)) (loaded ++ concat (told <$> es)) last_batch) as [Hn Hx].
  { apply (handle_all_knows es _ _ Hk). by eapply ids_agree_app. } { done. }
  apply sorted_views_equal; [done|done|intros x; by rewrite Hx, Hin|].
  intros a b Ha Hb. apply Hag; by apply Hx.
Qed.

(** Two clients that were told the same messages show the same chat. Whatever each loaded,
    however the rest came, in batches, twice, in any order, as answers to own messages and
    mixed with other reports, once both had a batch last their lists are equal, every
    message stands in them once, and they are the sorted list of all messages that the
    integration tests collect. *)
Theorem receivers_converge loaded1 es1 batch1 loaded2 es2 batch2 all :
  let told1 := loaded1 ++ concat (told <$> es1 ++ [Messages batch1]) in
  let told2 := loaded2 ++ concat (told <$> es2 ++ [Messages batch2]) in
  let r1 := foldl handle (new loaded1) (es1 ++ [Messages batch1]) in
  let r2 := foldl handle (new loaded2) (es2 ++ [Messages batch2]) in
  NoDup (msg_id <$> loaded1) -> NoDup (msg_id <$> loaded2) -> ids_agree (told1 ++ told2) ->
  NoDup (msg_id <$> all) -> (forall x, x ∈ all <-> x ∈ told1) -> (forall x, x ∈ all <-> x ∈ told2) ->
  all_msgs r1 = all_msgs r2 /\ NoDup (msg_id <$> all_msgs r1) /\
  collected_all_msgs r1 all = true /\ (all <> [] -> check_equal r1 r2 = true).
Proof.
  intros told1 told2 r1 r2 Hl1 Hl2 Hag Hall H1 H2.
  assert (all_msgs r1 = sort_by msg_leb all) as E1.
  { apply view_after_batch; [done| |done|done]. by eapply ids_agree_app. }
  assert (all_msgs r2 = sort_by msg_leb all) as E2.
  { apply view_after_batch; [done| |done|done]. intros a b Ha Hb. apply Hag; apply elem_of_app; by right. }
  split; [congruence|]. split; [by rewrite E1, sort_by_Permutation|].
  unfold collected_all_msgs, check_equal. rewrite E2, E1, !bool_decide_eq_true_2 by done. split; [done|].
  intros Hne. rewrite bool_decide_eq_false_2; [done|]. intros Hnil. apply Hne, Permutation_nil.
  by rewrite <- (sort_by_Permutation msg_leb all), Hnil.
Qed.
End Receiver.

(** Two clients of one exchange: one said "a" and was told of "b", the other the reverse. *)
Definition sample (i : string) (t : Z) : ChatMessage :=
  {| msg_id := i; sender_node_id := "z"; content := Text i; created_at := t; updated_at := t |}.

Lemma receivers_converge_witness :
  all_msgs (foldl handle (new []) [Own (sample "a" 2); ConnectionState UDisconnected; Messages [sample "b" 1; sample "b" 1]]) =
  all_msgs (foldl handle (new [sample "b" 1]) [SyncStatus true; Messages [sample "a" 2]]).
Proof.
  destruct (receivers_converge [] [Own (sample "a" 2); ConnectionState UDisconnected] [sample "b" 1; sample "b" 1]
    [sample "b" 1] [SyncStatus true] [sample "a" 2] [sample "b" 1; sample "a" 2]) as [Heq _].
  - constructor.
  - apply NoDup_singleton.
  - intros x y Hx Hy Hi. cbn in Hx, Hy. rewrite !elem_of_cons, elem_of_nil in Hx, Hy.
    destruct Hx as [->|[->|[->|[->|[->|[]]]]]], Hy as [->|[->|[->|[->|[->|[]]]]]]; (reflexivity || discriminate Hi).
  - apply (bool_decide_unpack _). by vm_compute.
  - intros x. cbn. rewrite !elem_of_cons, elem_of_nil. tauto.
  - intros x. cbn. rewrite !elem_of_cons, elem_of_nil. tauto.
  - exact Heq.
Defined.
End TestReceiver.
