(* ===== verification/Clients.v ===== *)
(** The clients of two connected chats: what a receiver (module [TestReceiver]) that loaded
    the chat and then follows its actor shows, compared with what the chat's document says;
    and both ends of a link, which is what the integration tests of src/src/app.rs wait for
    ([assert_equal_chats_msgs]). *)
From S2P Require Import Prelude External Wire Errors ChatTypes Database Serial Automerge Schema Repository Connection Sync Manager Link Receiver.
From stdpp Require Import base gmap strings list relations sorting.
From Stdlib Require Import ZArith Lia.
Import ChatRepository ChatManager TestReceiver(all_msgs).
Open Scope tryst_scope.

(** All messages of a history. *)
Definition messages (h : history) : list ChatMessage := concat (map_to_list h).*2.

(** No list loses a message. *)
Definition keeps_messages (h h' : history) : Prop :=
  forall p ms, h !! p = Some ms -> exists ms', h' !! p = Some ms' /\ ms ⊆+ ms'.

#[export] Instance keeps_messages_preorder : PreOrder keeps_messages.
Proof.
  split; [intros h p ms Hp; by exists ms|]. intros h1 h2 h3 H12 H23 p ms Hp.
  destruct (H12 p ms Hp) as (ms2 & Hp2 & Hs2). destruct (H23 p ms2 Hp2) as (ms3 & Hp3 & Hs3).
  exists ms3. split; [done|]. by etransitivity.
Qed.

Lemma elem_of_messages h x : x ∈ messages h <-> exists p ms, h !! p = Some ms /\ x ∈ ms.
Proof.
  unfold messages. rewrite list_elem_of_In, in_concat. split.
  - intros (ms & ([p ms'] & -> & Hp)%list_elem_of_In%list_elem_of_fmap & Hx).
    exists p, ms'. split; [by apply elem_of_map_to_list|by apply list_elem_of_In].
  - intros (p & ms & Hp & Hx). exists ms. split; [|by apply list_elem_of_In].
    apply list_elem_of_In, list_elem_of_fmap. exists (p, ms). split; [done|]. by apply elem_of_map_to_list.
Qed.

Lemma messages_insert p ms h : h !! p = None -> messages (<[p := ms]> h) ≡ₚ ms ++ messages h.
Proof. intros Hp. unfold messages. by rewrite map_to_list_insert. Qed.

Lemma keeps_messages_submseteq h h' : keeps_messages h h' -> messages h ⊆+ messages h'.
Proof.
  revert h'. induction h as [|p ms h Hp IH] using map_ind; intros h' Hk; [apply submseteq_nil_l|].
  destruct (Hk p ms) as (ms' & Hp' & Hs); [by rewrite lookup_insert_eq|].
  rewrite messages_insert by done. rewrite <- (insert_delete_id h' p ms'), messages_insert by (done || apply lookup_delete_eq).
  apply submseteq_app; [done|]. apply IH. intros q xs Hq. destruct (decide (p = q)) as [->|Hne]; [congruence|].
  destruct (Hk q xs) as (xs' & Hq' & ?); [by rewrite lookup_insert_ne|]. exists xs'. by rewrite lookup_delete_ne.
Qed.

Lemma keeps_messages_elem h h' x : keeps_messages h h' -> x ∈ messages h -> x ∈ messages h'.
Proof.
  rewrite !elem_of_messages. intros Hk (p & ms & Hp & Hx). destruct (Hk p ms Hp) as (ms' & Hp' & Hs).
  exists p, ms'. split; [done|]. by eapply elem_of_submseteq.
Qed.

Lemma said_keeps me msg h : keeps_messages h (said me msg h).
Proof.
  intros p ms Hp. unfold said. destruct (decide (me = p)) as [<-|Hne].
  - rewrite lookup_insert_eq, Hp. eexists. split; [done|]. apply submseteq_inserts_r. done.
  - rewrite lookup_insert_ne by done. by exists ms.
Qed.

Lemma elem_of_said me msg h x : x ∈ messages (said me msg h) <-> x ∈ messages h \/ x = msg.
Proof.
  split; [|intros [Hx| ->]].
  - rewrite !elem_of_messages. intros (p & ms & Hp & Hx). unfold said in Hp.
    destruct (decide (me = p)) as [<-|Hne]; [|rewrite lookup_insert_ne in Hp by done; left; by exists p, ms].
    rewrite lookup_insert_eq in Hp. injection Hp as <-. apply elem_of_app in Hx as [Hx|Hx%list_elem_of_singleton]; [|by right].
    left. destruct (h !! me) as [ms|] eqn:Eh; [by exists me, ms|]. by apply elem_of_nil in Hx.
  - eapply keeps_messages_elem; [apply said_keeps|done].
  - apply elem_of_messages. eexists me, _. unfold said. rewrite lookup_insert_eq. split; [done|].
    apply elem_of_app. right. by left.
Qed.

Section Reports.
Context {Ids : EndpointIds} {Us : Uuids} {OI : ObjIds} {AM : Automerges} {V : DocViews AM}
  {Laws : AutomergeLaws AM V} {PL : PatchLaws AM V}.

(** [get_all_messages] is all messages, in order. *)
Lemma get_all_messages_spec oc r h :
  represents (objs (doc r)) h -> (Z.of_nat (length (messages h)) < usize_max)%Z ->
  exists msgs, ChatRepository.get_all_messages oc r = Ok (sort_by msg_leb msgs) /\ msgs ≡ₚ messages h.
Proof using Laws.
  intros Hr Hlen. destruct (get_messages_spec r h Hr) as (hs & Hhs & Hget).
  exists (concat hs.*2). assert (concat hs.*2 ≡ₚ messages h) as Hp by (unfold messages; by rewrite Hhs).
  split; [|done].
  unfold ChatRepository.get_all_messages. rewrite Hget by (unfold usize, usize_max; lia). unfold usize_add.
  rewrite bool_decide_eq_true_2 by (unfold usize_max; lia). cbn [obind]. f_equal.
  assert (lastn (Z.to_nat (0 + (usize_max - 1))) <$> hs.*2 = hs.*2) as ->.
  { transitivity (id <$> hs.*2); [|apply list_fmap_id]. apply list_fmap_ext. intros i ms Hi. apply lastn_all.
    assert (length ms <= length (concat hs.*2)) as Hms.
    { apply list_elem_of_lookup_2 in Hi. revert Hi. generalize hs.*2. intros ls.
      induction ls as [|l ls IH]; intros Hi; [by apply elem_of_nil in Hi|]. simpl. rewrite length_app.
      apply elem_of_cons in Hi as [->|Hi]; [lia|]. apply IH in Hi. lia. }
    rewrite Hp in Hms. unfold id, usize_max in *. lia. }
  apply page_all. rewrite sort_by_Permutation, Hp. unfold usize_max in *. lia.
Qed.

(** The peer's list is the object under its key. *)
Lemma represents_key h o p ms l :
  represents o h -> h !! p = Some ms -> key_object o (peer_list_key p) = Some l ->
  list_holds o l ms.
Proof.
  intros [_ Hlist _ _] Hp Hk. destruct (Hlist p ms Hp) as (l' & Hl' & Hh).
  unfold peer_list_at in Hl'. unfold key_object in Hk. by simplify_eq.
Qed.

Lemma represents_peer h o p l :
  represents o h -> key_object o (peer_list_key p) = Some l -> exists ms, h !! p = Some ms /\ list_holds o l ms.
Proof.
  intros Hr Hk. destruct (h !! p) as [ms|] eqn:Ep; [exists ms; split; [done|by eapply represents_key]|].
  destruct Hr as [_ _ Hnone _]. specialize (Hnone p Ep). unfold peer_list_at in Hnone. unfold key_object in Hk. congruence.
Qed.

(** The steps of receiving a message that succeeds. *)
Lemma receive_extracts m s msgs reply s' :
  receive_sync_message (Some m) s = (Ok (msgs, reply), s') ->
  exists st pl r, sync_receive m (doc s.1, sync_state s.1, patch_log_new true) = (Ok tt, (doc s'.1, st, pl)) /\
    doc r = doc s'.1 /\ extract_new_messages_from_patches r (make_patches_of (doc s'.1) pl).1 = Ok msgs.
Proof.
  destruct s as [rp w]. intros Hrun.
  unfold receive_sync_message, receive_changes in Hrun. rewrite !bind_bind in Hrun. unfold bind at 1 in Hrun.
  destruct (sync_receive m (doc rp, sync_state rp, patch_log_new true)) as [a [[d st] pl]] eqn:Er.
  destruct a as [[]|e|]; simpl map_ok in Hrun; [|done..].
  apply bind_ok_inv in Hrun as (msgs' & s1 & E1 & Hrun).
  apply bind_ok_inv in E1 as (u & s2 & E2 & E1). destruct (persist_chat_frame _ _ _ E2) as [Hd2 _].
  unfold bind, gets, reads in E1. injection E1 as Hx <-.
  unfold bind in Hrun. destruct (generate_sync_message s2) as [o s3] eqn:Eg.
  destruct (generate_step _ _ _ Eg) as (om & -> & Hd3 & _). injection Hrun as <- <- <-.
  exists st, pl, s2.1. rewrite Hd3. split; [by rewrite Hd2|]. split; [done|exact Hx].
Qed.

(** What a received sync message reports: messages of the new document, and all that the
    old one had not. *)
Lemma receive_reports m s msgs reply s' h h' :
  receive_sync_message (Some m) s = (Ok (msgs, reply), s') ->
  represents (objs (doc s.1)) h -> represents (objs (doc s'.1)) h' ->
  (forall x, x ∈ msgs -> x ∈ messages h') /\ (forall x, x ∈ messages h' -> x ∈ messages h \/ x ∈ msgs).
Proof using Laws PL.
  intros Hrun Hr Hr'. destruct (receive_extracts _ _ _ _ _ Hrun) as (st & pl & r & Erecv & Hd & Ex).
  set (ps := (make_patches_of (doc s'.1) pl).1) in *.
  assert (Forall (in_range h') ps) as Hin.
  { apply Forall_forall. intros p Hp peer index ms Ht Hms. unfold patch_target in Ht.
    destruct (path p) as [|[o [key|]] [|[l [|i]] rest]] eqn:Epath; try done.
    apply bind_Some in Ht as (peer' & Hpeer & [= -> ->]). apply strip_prefix_inv in Hpeer as ->.
    destruct (patches_located _ _ _ _ _ _ _ _ _ _ _ _ Erecv Hp Epath) as (Hk & xs & Hxs & Hi).
    destruct (represents_key _ _ _ _ _ Hr' Hms Hk) as (xs' & Hxs' & Hread). simplify_eq.
    by rewrite <- (Forall2_length _ _ _ (proj1 (mapM_Some _ _ _) Hread)). }
  unfold extract_new_messages_from_patches in Ex.
  rewrite (extract_loop_spec r h' ps) in Ex by (done || by rewrite Hd). injection Ex as <-.
  setoid_rewrite sort_by_Permutation. setoid_rewrite list_elem_of_omap. split.
  - intros x (p & Hp & ([peer index] & _ & (ms & Hms & Hx)%bind_Some)%bind_Some).
    apply elem_of_messages. exists peer, ms. split; [done|]. by eapply list_elem_of_lookup_2.
  - intros x (p & ms & Hms & [i Hi]%list_elem_of_lookup)%elem_of_messages.
    destruct Hr' as [Hroot Hlist Hnone Hdist]. destruct (Hlist p ms Hms) as (l & Hk & xs & Hxs & Hread).
    destruct (Forall2_lookup_r _ _ _ _ _ (proj1 (mapM_Some _ _ _) Hread) Hi) as (e & He & Hre).
    destruct (patches_complete _ _ _ _ _ _ _ _ _ _ _ _ Erecv Hk Hxs He Hre) as [(q & o & rest & Hq & Hpath)|Hold].
    + right. exists q. split; [done|]. unfold patch_message, patch_target. rewrite Hpath.
      unfold peer_list_key. rewrite strip_prefix_app. simpl. by rewrite Hms.
    + left. destruct Hold as (Hk0 & xs0 & Hxs0 & He0 & Hre0).
      destruct (represents_peer _ _ _ _ Hr Hk0) as (ms0 & Hms0 & xs0' & Hxs0' & Hread0). simplify_eq.
      apply elem_of_messages. exists p, ms0. split; [done|]. apply mapM_Some in Hread0.
      apply list_elem_of_lookup in He0 as [j Hj]. destruct (Forall2_lookup_l _ _ _ _ _ Hread0 Hj) as (x' & Hj' & Hx').
      simplify_eq. by eapply list_elem_of_lookup_2.
Qed.
End Reports.

(** ** One actor and its client *)
Section Watching.
Context {Ids : EndpointIds} {Us : Uuids} {OI : ObjIds} {AM : Automerges} {SC : SyncCodec AM} {V : DocViews AM}.

(** The client is the receiver [r]; it also gets the answers to its own messages. The peer
    can pass on the messages of [source] and no others. *)
Variables (r : nat) (source : ChatMessage -> Prop).

Definition client_event (o : output) : option TestReceiver.event :=
  match o with
  | ProcessMessages r' msgs => if bool_decide (r' = r) then Some (TestReceiver.Messages msgs) else None
  | ProcessConnectionState r' s => if bool_decide (r' = r) then Some (TestReceiver.ConnectionState s) else None
  | ProcessSyncStatus r' b => if bool_decide (r' = r) then Some (TestReceiver.SyncStatus b) else None
  | ReplySingle _ (Ok msg) => Some (TestReceiver.Own msg)
  | _ => None
  end.

(** What the client hears of the actor from [a] to [a'], and the messages in it. *)
Definition heard (a a' : Actor) : list TestReceiver.event := omap client_event (drop (length (log a)) (log a')).
Definition told_by (os : list output) : list ChatMessage := concat (TestReceiver.told <$> omap client_event os).

(** The messages that the actor's callers got back from [send_message]. *)
Definition answer (o : output) : option ChatMessage := match o with ReplySingle _ (Ok msg) => Some msg | _ => None end.
Definition answered (os : list output) : list ChatMessage := omap answer os.

(** A turn while the client stays subscribed. A sync message that decodes is processed, and
    what comes of it is a chat document that has lost no message and gained only the peer's;
    what cannot be decoded may come too. Other tasks work on the connection; when its state
    changes that is news. *)
Definition honest (rdy : Ready) (a : Actor) : Prop :=
  forall b m h, conn_rx rdy = Some (Some (Sync (Some b))) -> sync_decode (sync_bytes b) = Some m ->
    represents (objs (doc_of a)) h ->
    exists out s' h', receive_sync_message (Some m) (doc_state a) = (Ok out, s') /\
      represents (objs (doc s'.1)) h' /\ keeps_messages h h' /\
      forall x, x ∈ messages h' -> x ∈ messages h \/ source x.

Inductive shown : Actor -> Actor -> Prop :=
| shown_turn env rdy a a' :
    (forall m, subscribe_rx rdy = Some (Some m) -> subscriber m = r) -> honest rdy a ->
    turn env rdy a = (Ok Continue, a') -> shown a a'
| shown_conn c changed a :
    (changed = false -> conn_changed a = false /\ ChatConnection.state_value c = ChatConnection.state_value (conn a)) ->
    shown a (set_conn c changed a).

(** The pool of a side that does not fail, with the database behind the document or level
    with it. *)
Definition sound (s : Repo * World Db) : Prop := saved_prefix ∅ s /\ faultless s.2.

(** The connection state that the client is told last, and the one there is. *)
Definition conn_report (o : output) : option UniffiChatConnectionState :=
  match o with ProcessConnectionState r' s => if bool_decide (r' = r) then Some s else None | _ => None end.
Definition last_report (os : list output) : option UniffiChatConnectionState := last (omap conn_report os).
Definition state_of (a : Actor) : UniffiChatConnectionState := uniffi_state_of (ChatConnection.state_value (conn a)).

(** From [a] to [a'] the client is told [os]: unless the connection is still news, it was told
    what it is. *)
Definition reported (a a' : Actor) (os : list output) : Prop :=
  conn_changed a' = false ->
  match last_report os with
  | Some s => s = state_of a'
  | None => conn_changed a = false /\ state_of a = state_of a'
  end.

(** From [a] to [a'] the client stays, and is told all that is new in the document, which is
    what was sent here and what is the peer's; a document that was stored still is. *)
Record informed (a a' : Actor) (h : history) : Prop := {
  informed_sound : sound (doc_state a');
  informed_saved : all_saved (doc_state a) -> all_saved (doc_state a');
  informed_receiver : msg_receiver a' = Some r;
  informed_news : exists h' os, log a' = log a ++ os /\ represents (objs (doc_of a')) h' /\ keeps_messages h h' /\
    (forall x, x ∈ messages h' <-> x ∈ messages h \/ x ∈ told_by os) /\
    (forall x, x ∈ messages h' -> x ∈ messages h \/ x ∈ answered os \/ source x) /\ reported a a' os;
}.
Definition follows (a a' : Actor) : Prop :=
  sound (doc_state a) -> msg_receiver a = Some r -> forall h, represents (objs (doc_of a)) h -> informed a a' h.

Lemma told_by_app os1 os2 : told_by (os1 ++ os2) = told_by os1 ++ told_by os2.
Proof. unfold told_by. by rewrite omap_app, fmap_app, concat_app. Qed.

Lemma answered_app os1 os2 : answered (os1 ++ os2) = answered os1 ++ answered os2.
Proof. apply omap_app. Qed.

(** An answer is heard. *)
Lemma answered_told os x : x ∈ answered os -> x ∈ told_by os.
Proof.
  unfold answered, told_by. rewrite list_elem_of_omap. intros (o & Ho & Hx). rewrite list_elem_of_In, in_concat.
  exists [x]. split; [|by left]. apply list_elem_of_In, list_elem_of_fmap. exists (TestReceiver.Own x). split; [done|].
  apply list_elem_of_omap. exists o. split; [done|]. destruct o as [| | | |? []| |]; try done. by injection Hx as ->.
Qed.

Lemma reported_refl a : reported a a [].
Proof. by intros Hc. Qed.

Lemma reported_trans a1 a2 a3 os1 os2 : reported a1 a2 os1 -> reported a2 a3 os2 -> reported a1 a3 (os1 ++ os2).
Proof.
  intros H12 H23 Hc. specialize (H23 Hc). unfold last_report in *. rewrite omap_app, last_app.
  destruct (last (omap conn_report os2)) as [s|]; [done|]. destruct H23 as [Hc2 <-]. by apply H12.
Qed.

(** The connection stays what it is. *)
Lemma reported_same a a' os :
  conn a' = conn a -> conn_changed a' = conn_changed a -> omap conn_report os = [] -> reported a a' os.
Proof. intros Hc Hch Ho. unfold reported, last_report, state_of. rewrite Ho, Hc, Hch. done. Qed.

#[export] Instance follows_preorder : PreOrder follows.
Proof.
  split.
  - intros a Hs Hr h Hh. split; [done..|]. exists h, []. rewrite app_nil_r. do 3 (split; [done|]).
    split; [|split; [by auto|apply reported_refl]]. intros x. cbn. rewrite elem_of_nil. tauto.
  - intros a1 a2 a3 H12 H23 Hs Hr h Hh. destruct (H12 Hs Hr h Hh) as [Hs2 Ha2 Hr2 (h2 & os2 & Hl2 & Hh2 & Hk2 & Hx2 & Hu2 & Hc2)].
    destruct (H23 Hs2 Hr2 h2 Hh2) as [Hs3 Ha3 Hr3 (h3 & os3 & Hl3 & Hh3 & Hk3 & Hx3 & Hu3 & Hc3)]. split; [by auto..|].
    exists h3, (os2 ++ os3). split; [by rewrite Hl3, Hl2, (assoc_L (++))|]. split; [done|]. split; [by etransitivity|].
    split; [intros x|split; [intros x|by eapply reported_trans]].
    + rewrite Hx3, Hx2, told_by_app, elem_of_app. tauto.
    + rewrite answered_app, elem_of_app. intros [[?|[?|?]]%Hu2|[?|?]]%Hu3; auto.
Qed.

Definition informs {E A} (c : action Actor E A) : Prop := forall a, follows a (c a).2.

Lemma informs_bind {E A B} (c : action Actor E A) (k : A -> action Actor E B) :
  informs c -> (forall x, informs (k x)) -> informs (bind c k).
Proof.
  intros Hc Hk a. unfold bind. specialize (Hc a). destruct (c a) as [[x|e|] a1]; simpl in *; [|done..].
  etransitivity; [exact Hc|apply Hk].
Qed.

(** The document stays what it is, and nothing is said of messages. *)
Lemma follows_quiet a a' os :
  (sound (doc_state a) -> sound (doc_state a')) -> (all_saved (doc_state a) -> all_saved (doc_state a')) -> doc_of a' = doc_of a ->
  (msg_receiver a = Some r -> msg_receiver a' = Some r) ->
  log a' = log a ++ os -> told_by os = [] -> reported a a' os -> follows a a'.
Proof.
  intros Hst Hsv Hd Hrc Hl Ho Hrep Hs Hr h Hh. split; [by auto..|]. exists h, os. rewrite Hd, Ho.
  do 3 (split; [done|]). split; [|by auto]. intros x. rewrite elem_of_nil. tauto.
Qed.

Lemma informs_same {E A} (c : action Actor E A) :
  (forall a, doc_state (c a).2 = doc_state a /\ msg_receiver (c a).2 = msg_receiver a /\ log (c a).2 = log a /\
     conn (c a).2 = conn a /\ conn_changed (c a).2 = conn_changed a) -> informs c.
Proof.
  intros Hc a. destruct (Hc a) as (Hd & Hr & Hl & Hcn & Hch).
  apply (follows_quiet _ _ []); unfold doc_of; try (by rewrite ?Hd, ?Hr, ?Hl, ?app_nil_r). by apply reported_same.
Qed.

Lemma informs_emit {E} os : told_by os = [] -> omap conn_report os = [] -> informs (emit (E := E) os).
Proof. intros Ho Hc a. apply (follows_quiet _ _ os); try done. by apply reported_same. Qed.

Lemma conn_report_conn es : omap conn_report (ConnEffect <$> es) = [].
Proof. induction es as [|e es IH]; [done|]. exact IH. Qed.

Lemma client_event_conn es : omap client_event (ConnEffect <$> es) = [].
Proof. induction es as [|e es IH]; [done|]. exact IH. Qed.

Lemma told_by_conn es : told_by (ConnEffect <$> es) = [].
Proof. unfold told_by. by rewrite client_event_conn. Qed.

Lemma informs_to_receiver {E} o :
  (forall n, told_by [o n] = [] /\ conn_report (o n) = None) -> informs (to_receiver (E := E) o).
Proof.
  intros Ho. unfold to_receiver. apply informs_bind; [by apply informs_same|].
  intros [n|]; [|by apply informs_same]. destruct (Ho n) as [Ht Hc]. apply informs_emit; [done|]. simpl. by rewrite Hc.
Qed.

(** A change of the connection's state wakes its watchers. *)
Definition wakes (f : ChatConnection.Inner -> ChatConnection.Inner * list ChatConnection.effect) : Prop :=
  forall c, existsb notifies (f c).2 = false -> ChatConnection.state_value (f c).1 = ChatConnection.state_value c.

Lemma informs_on_conn {E} f : wakes f -> informs (on_conn (E := E) f).
Proof.
  intros Hf a. unfold on_conn. specialize (Hf (conn a)). destruct (f (conn a)) as [c es].
  apply (follows_quiet _ _ (ConnEffect <$> es)); try done; [apply told_by_conn|].
  intros [Hch Hn]%orb_false_iff. unfold last_report, state_of. rewrite conn_report_conn. split; [done|].
  cbn [conn add_log set_conn fst snd] in *. by rewrite Hf.
Qed.

Lemma update_handle_wakes h i : wakes (ChatConnection.update_handle h i).
Proof.
  intros c. unfold ChatConnection.update_handle, ChatConnection.send_modify.
  destruct (ChatConnection.should_switch c h); [|destruct (ChatConnection.state c)]; cbn [fst snd];
    rewrite ?existsb_app; simpl; rewrite ?orb_true_r; done.
Qed.

Lemma informs_send {E} env om : informs (handle_outgoing_sync_message (E := E) env om).
Proof.
  apply informs_bind; [by apply informs_same|]. intros c. apply informs_emit; [apply told_by_conn|apply conn_report_conn].
Qed.

Context {Laws : AutomergeLaws AM V}.

Lemma informs_generate {E} : informs (on_repo (E := E) generate_sync_message).
Proof using Laws.
  intros a. unfold on_repo. destruct (generate_sync_message (doc_state a)) as [o d] eqn:Eg.
  destruct (generate_step _ _ _ Eg) as (om & _ & Hd & _).
  destruct (generate_sync_message_frame (E := E) (doc_state a)) as (m & s1 & E1 & Hw & Hc & _ & Hh).
  rewrite Eg in E1. injection E1 as _ <-. apply (follows_quiet _ _ []); simpl; rewrite ?app_nil_r; try done.
  - intros [Hs Hf]. split; [|by rewrite Hw]. apply (saved_prefix_frame ∅ (doc_state a)); by rewrite ?Hd.
  - apply all_saved_frame; by rewrite ?Hd.
Qed.

Lemma informs_reset_sync {E} : informs (on_repo (E := E) reset_sync_state).
Proof using Laws.
  intros a. unfold on_repo, reset_sync_state, modify. apply (follows_quiet _ _ []); simpl; rewrite ?app_nil_r; try done.
Qed.

(** *** The handlers *)
Ltac solve_informs :=
  repeat match goal with
  | |- informs (bind _ _) => apply informs_bind; [|intros ?]
  | |- informs (to_receiver _) => apply informs_to_receiver; intros ?; cbn; by case_bool_decide
  | |- informs (on_repo generate_sync_message) => apply informs_generate
  | |- informs (on_repo reset_sync_state) => apply informs_reset_sync
  | |- informs (handle_outgoing_sync_message _ _) => apply informs_send
  | |- informs (emit _) => apply informs_emit; (apply told_by_conn || apply conn_report_conn || done)
  | |- informs (match ?x with _ => _ end) => destruct x
  | |- informs _ => apply informs_same; done
  end.

Lemma to_receiver_some {E} o n a : msg_receiver a = Some n -> to_receiver (E := E) o a = (Ok tt, add_log [o n] a).
Proof. intros Hn. unfold to_receiver, bind, gets. by rewrite Hn. Qed.

(** The client is told the new state of the connection, and a new connection resyncs. *)
Lemma follows_state_change env a a' :
  (modify (set_conn (conn a) false) ;;;
   handle_connection_state_change env (ChatConnection.state_value (conn a)) ;;; ret Continue) a =
    (Ok (E := anyhow) Continue, a') -> follows a a'.
Proof using Laws.
  set (st := ChatConnection.state_value (conn a)). intros Hrun Hs Hr h Hh. assert (follows a a') as Hf; [|by apply Hf].
  set (rest := match st with
    | CConnected _ => on_repo reset_sync_state ;;; sync_msg <- on_repo generate_sync_message ;; handle_outgoing_sync_message env sync_msg
    | _ => ret (E := anyhow) tt
    end).
  assert (informs rest) as Hrest by (unfold rest; solve_informs).
  set (a1 := add_log [ProcessConnectionState r (uniffi_state_of st)] (set_conn (conn a) false a)).
  assert (follows a a1) as H1.
  { apply (follows_quiet _ _ [ProcessConnectionState r (uniffi_state_of st)]); try done; [cbn; by case_bool_decide|].
    intros _. unfold last_report. cbn. by rewrite bool_decide_eq_true_2. }
  enough (follows a1 a') as H2 by (by etransitivity).
  apply bind_ok_inv in Hrun as (u & b & [= _ <-] & Hrun). unfold handle_connection_state_change in Hrun. fold rest in Hrun.
  assert (msg_receiver (set_conn (conn a) false a) = Some r) as Hr' by done. rewrite bind_bind in Hrun.
  rewrite (bind_ok _ _ _ _ _ (to_receiver_some (fun n => ProcessConnectionState n (uniffi_state_of st)) _ _ Hr')) in Hrun.
  apply bind_ok_inv in Hrun as ([] & a2 & E2 & [= <-]).
  specialize (Hrest a1). change (rest a1 = (Ok tt, a2)) in E2. by rewrite E2 in Hrest.
Qed.

(** Its own message is in the answer. *)
Lemma follows_say env msg tx a a' :
  handle_outgoing_message env (Some (Single msg tx)) a = (Ok tt, a') -> follows a a'.
Proof using Laws.
  intros Hrun Hs Hr h Hh. pose proof Hs as [Hsp Hf].
  destruct (add_then_all_saved ∅ (now env) (fresh_uuid env) msg (doc_state a) h Hsp Hf Hh)
    as (om & d & Ea & Hh' & Hall & _). assert (sound d) as Hs'.
  { destruct (add_message_durable _ _ _ _ _ _ _ Hsp Ea) as (Hsp' & _ & Hl & _). split; [done|by eapply faultless_later]. }
  unfold handle_outgoing_message, bind at 1, catch, on_repo in Hrun. rewrite Ea in Hrun.
  rewrite bind_bind in Hrun. unfold handle_outgoing_sync_message, bind, gets, emit, modify, ret, throw in Hrun.
  cbn [result_of] in Hrun. destruct (oneshot_open env tx); [|done]. injection Hrun as <-.
  split; [done..|]. eexists _, _. split; [cbn [log add_log]; by rewrite <- (assoc_L (++))|].
  split; [exact Hh'|]. split; [apply said_keeps|].
  split; [|split]; [intros x; rewrite elem_of_said..|apply reported_same; [done..|by rewrite omap_app, conn_report_conn]].
  - rewrite told_by_app, told_by_conn. cbn. by rewrite list_elem_of_singleton.
  - intros [?| ->]; [by left|]. right; left. rewrite answered_app, elem_of_app. right. by left.
Qed.

Lemma follows_subscription m a a' :
  (forall m', m = Some m' -> subscriber m' = r) -> handle_subscription m a = (Ok tt, a') -> follows a a'.
Proof.
  intros Hm Hrun. destruct m as [m|]; [|done]. specialize (Hm m eq_refl). unfold handle_subscription in Hrun.
  injection Hrun as <-. eapply (follows_quiet _ _ [_; _; _]); try done; cbn; rewrite <- ?(assoc_L (++)), ?Hm; try done.
  - unfold client_event. by rewrite !bool_decide_eq_true_2.
  - intros _. unfold last_report. cbn. by rewrite bool_decide_eq_true_2.
Qed.

Lemma follows_outgoing env m a a' : handle_outgoing_message env m a = (Ok tt, a') -> follows a a'.
Proof using Laws.
  intros Hrun. destruct m as [[msg tx|tx|h]|]; [by eapply follows_say| | |done].
  - assert (informs (handle_outgoing_message env (Some (All tx)))) as Hi.
    { cbn [handle_outgoing_message]. apply informs_bind; [|intros ?; solve_informs].
      intros b. unfold catch, reads. by destruct (ChatRepository.get_all_messages _ _). }
    specialize (Hi a). by rewrite Hrun in Hi.
  - pose proof (informs_on_conn (E := anyhow) _ (update_handle_wakes h (rotation_id env)) a) as Hi.
    change (on_conn _) with (handle_outgoing_message env (Some (PassAcceptedConnHandle h))) in Hi. by rewrite Hrun in Hi.
Qed.
Context {PL : PatchLaws AM V}.

Lemma told_by_messages ms : told_by [ProcessMessages r ms] = ms.
Proof. unfold told_by, client_event. cbn. rewrite bool_decide_eq_true_2 by done. cbn. by rewrite app_nil_r. Qed.

Lemma receive_sound m s o s' : sound s -> receive_sync_message m s = (o, s') -> sound s'.
Proof using Laws.
  intros [Hs Hf] Er. destruct (receive_sync_message_durable _ _ _ _ _ Hs Er) as (Hs' & _ & Hl & _).
  split; [done|by eapply faultless_later].
Qed.

(** Word that the peer has nothing to say. *)
Lemma receive_none s o s' : receive_sync_message None s = (o, s') -> exists reply, o = Ok ([], reply) /\ doc s'.1 = doc s.1.
Proof.
  unfold receive_sync_message. unfold bind at 1, ret at 1. unfold bind.
  destruct (generate_sync_message s) as [o1 s1] eqn:Eg. destruct (generate_step _ _ _ Eg) as (om & -> & Hd & _).
  intros [= <- <-]. by eexists.
Qed.

Lemma follows_incoming env rdy msg a a' :
  honest rdy a -> conn_rx rdy = Some (Some msg) ->
  handle_incomming_message (E := anyhow) env msg a = (Ok tt, a') -> follows a a'.
Proof using Laws PL.
  intros Hhon Hrx Hrun Hs Hr h Hh. destruct msg as [[b|]]; cbn [handle_incomming_message] in Hrun.
  - destruct (sync_decode (sync_bytes b)) as [m|] eqn:Hdec; [|injection Hrun as <-; by apply (reflexivity (R := follows) a)].
    destruct (Hhon b m h Hrx Hdec Hh) as ([msgs reply] & d & h' & Er & Hh' & Hk & Hfrom).
    pose proof (receive_sound _ _ _ _ Hs Er) as Hs'.
    destruct (receive_reports _ _ _ _ _ _ _ Er Hh Hh') as [Hin Hall].
    unfold bind at 1, catch, on_repo in Hrun. rewrite Er in Hrun. unfold bind at 1, modify in Hrun.
    set (a1 := set_reset_doc_state false (set_doc_state d a)) in Hrun.
    assert (exists os, (if bool_decide (msgs = []) then ret tt
        else to_receiver (E := anyhow) (fun n => ProcessMessages n msgs)) a1 = (Ok tt, add_log os a1) /\ told_by os = msgs /\
        omap conn_report os = []) as (os & E1 & Hos & Hrep).
    { case_bool_decide as Hnil; [exists []; by rewrite add_log_nil, Hnil|]. unfold to_receiver, bind, gets, emit, modify.
      cbn [msg_receiver a1 set_reset_doc_state set_doc_state]. rewrite Hr. eexists. split; [done|]. split; [apply told_by_messages|done]. }
    rewrite (bind_ok _ _ _ _ _ E1) in Hrun.
    assert (exists es, a' = add_log (ConnEffect <$> es) (add_log os a1)) as [es ->].
    { destruct reply as [om|]; injection Hrun as <-; [by eexists|]. exists []. symmetry. apply add_log_nil. }
    split; [done| |done|].
    { intros _. destruct Hs as [Hsp _]. destruct (receive_sync_message_durable _ _ _ _ _ Hsp Er) as (_ & _ & _ & _ & Hok).
      by apply Hok. }
    eexists h', _. split; [cbn [log add_log]; by rewrite <- (assoc_L (++))|]. do 2 (split; [done|]).
    split; [intros x|split; [intros x|apply reported_same; [done..|by rewrite omap_app, conn_report_conn, Hrep]]].
    + rewrite told_by_app, told_by_conn, app_nil_r, Hos. split; [apply Hall|]. intros [Hx|Hx]; [|by apply Hin].
      by eapply keeps_messages_elem.
    + intros [?|?]%Hfrom; auto.
  - destruct (receive_sync_message None (doc_state a)) as [o d] eqn:Er. pose proof (receive_sound _ _ _ _ Hs Er) as Hs'.
    destruct (receive_none _ _ _ Er) as (reply & -> & Hd).
    unfold bind at 1, catch, on_repo in Hrun. rewrite Er in Hrun. unfold bind at 1, modify in Hrun.
    rewrite bool_decide_eq_true_2 in Hrun by done. unfold bind at 1, ret at 1 in Hrun.
    assert (all_saved (doc_state a) -> all_saved d) as Hsv.
    { intros Ha. destruct Hs as [Hsp Hf]. by destruct (receive_none_step _ _ _ (conj Hsp (conj Ha Hf)) Er) as [(_ & ? & _) _]. }
    assert (follows a a') as Hf; [|by apply Hf]. destruct reply as [om|]; injection Hrun as <-.
    + eapply (follows_quiet a); try done; [apply told_by_conn|]. apply reported_same; [done..|apply conn_report_conn].
    + eapply (follows_quiet a _ []); try done. cbn. by rewrite app_nil_r.
Qed.

Lemma follows_turn env rdy a a' :
  (forall m, subscribe_rx rdy = Some (Some m) -> subscriber m = r) -> honest rdy a ->
  turn env rdy a = (Ok Continue, a') -> follows a a'.
Proof using Laws PL.
  intros Hsub Hhon Hrun. unfold turn in Hrun. unfold bind at 1, gets, id in Hrun.
  destruct (cancelled rdy); [by apply bind_ok_inv in Hrun as (u & a1 & _ & [=])|].
  assert (forall k : action Actor anyhow control, informs k -> k a = (Ok Continue, a') -> follows a a') as Hinf.
  { intros k Hk E1. specialize (Hk a). by rewrite E1 in Hk. }
  destruct (tick rdy). { eapply Hinf; [|exact Hrun]. solve_informs. }
  destruct (negb _). { eapply Hinf; [|exact Hrun]. solve_informs. }
  destruct (conn_changed a); [by eapply follows_state_change|].
  destruct (subscribe_rx rdy) as [m|].
  { apply bind_ok_inv in Hrun as ([] & a1 & E1 & [= <-]). eapply follows_subscription; [|exact E1].
    intros m' ->. by apply Hsub. }
  destruct (in_rx rdy) as [m|].
  { apply bind_ok_inv in Hrun as ([] & a1 & E1 & [= <-]). by eapply follows_outgoing. }
  destruct (conn_rx rdy) as [incoming|] eqn:Hrx; [|by injection Hrun as <-].
  destruct (is_connected _); [|by injection Hrun as <-].
  destruct (ChatConnection.receive _ _) as [msg_opt es] eqn:Erecv.
  assert (msg_opt = incoming \/ msg_opt = None) as Hopt.
  { unfold ChatConnection.receive in Erecv. repeat case_match; simplify_eq; auto. }
  apply bind_ok_inv in Hrun as ([] & a1 & E1 & Hrun).
  assert (follows a a1 /\ doc_state a1 = doc_state a) as [Hf1 Hd1].
  { pose proof (informs_emit (E := anyhow) (ConnEffect <$> es) (told_by_conn es) (conn_report_conn es) a) as Hi. rewrite E1 in Hi.
    split; [done|]. by injection E1 as <-. }
  etransitivity; [exact Hf1|]. destruct msg_opt as [msg|]; [|by injection Hrun as <-].
  destruct Hopt as [<-|?]; [|done]. apply bind_ok_inv in Hrun as ([] & a2 & E2 & [= <-]).
  eapply follows_incoming; [|exact Hrx|exact E2]. intros b m h. unfold doc_of. rewrite Hd1. apply Hhon.
Qed.

Lemma shown_follows a a' : rtc shown a a' -> follows a a'.
Proof using Laws PL.
  induction 1 as [a|a a1 a' Hstep _ IH]; [done|]. etransitivity; [|exact IH].
  destruct Hstep as [env rdy a a1 Hsub Hhon Ht|c changed a Hc]; [by eapply follows_turn|].
  apply (follows_quiet _ _ []); try done; [cbn; by rewrite app_nil_r|].
  intros Hch. destruct (Hc Hch) as [? Hst]. split; [done|]. unfold state_of. cbn [conn set_conn]. by rewrite Hst.
Qed.
End Watching.

Section Sources.
Context {Ids : EndpointIds} {Us : Uuids} {OI : ObjIds} {AM : Automerges} {SC : SyncCodec AM} {V : DocViews AM}.

(** Whatever the peer may have. *)
Definition any_message (x : ChatMessage) : Prop := True.

Lemma shown_weaken r (P Q : ChatMessage -> Prop) a a' :
  (forall x, P x -> Q x) -> shown r P a a' -> shown r Q a a'.
Proof.
  intros HPQ [env rdy b b' Hsub Hhon Ht|]; [|by constructor]. apply (shown_turn _ _ env rdy); [done| |done].
  intros bs m h Hrx Hdec Hh. destruct (Hhon bs m h Hrx Hdec Hh) as (out & s' & h' & Er & Hh' & Hk & Hu).
  exists out, s', h'. do 3 (split; [done|]). intros x [?|?]%Hu; auto.
Qed.
End Sources.


Section Agreement.
Context {Ids : EndpointIds} {Us : Uuids} {OI : ObjIds} {AM : Automerges} {SC : SyncCodec AM} {V : DocViews AM}
  {SV : SyncViews AM} {Laws : AutomergeLaws AM V} {PL : PatchLaws AM V}.

(** The ids of a chat's messages are fresh, and there are not absurdly many. *)
Definition distinct (h : history) : Prop :=
  NoDup (msg_id <$> messages h) /\ (Z.of_nat (length (messages h)) < usize_max)%Z.

Lemma distinct_kept h h' : keeps_messages h h' -> distinct h' -> distinct h.
Proof.
  intros Hs%keeps_messages_submseteq [Hnd Hlen]. split.
  - apply submseteq_Permutation in Hs as [k Hk]. rewrite Hk, fmap_app in Hnd. by apply NoDup_app in Hnd as [? _].
  - apply submseteq_length in Hs. lia.
Qed.

Lemma NoDup_ids_agree (ms : list ChatMessage) : NoDup (msg_id <$> ms) -> TestReceiver.ids_agree ms.
Proof.
  intros Hnd a b [i Ha]%list_elem_of_lookup [j Hb]%list_elem_of_lookup Hi.
  assert (i = j) as ->; [|congruence]. apply (NoDup_lookup (msg_id <$> ms) i j (msg_id a)); [done|..];
    rewrite list_lookup_fmap; [by rewrite Ha|by rewrite Hb, Hi].
Qed.

(** The client's view after it loaded the chat of [a0] and heard what the actor said up to
    [a]: the messages of the document of [a]. *)
Lemma view_of_chat r a0 a h0 oc loaded v es :
  sound (doc_state a0) -> msg_receiver a0 = Some r -> represents (objs (doc_of a0)) h0 ->
  ChatRepository.get_all_messages oc (doc_state a0).1 = Ok loaded -> all_msgs v = loaded ->
  rtc (shown r any_message) a0 a -> es ≡ₚ heard r a0 a ->
  exists h, represents (objs (doc_of a)) h /\ keeps_messages h0 h /\
    (distinct h ->
     let view := all_msgs (foldl TestReceiver.handle v es) in
     view ≡ₚ messages h /\
     forall oc', ChatRepository.get_all_messages oc' (doc_state a).1 = Ok (sort_by msg_leb view)).
Proof using Laws PL.
  intros Hs Hr Hh0 Hload Hview0 Hrun Hes.
  destruct (shown_follows r any_message a0 a Hrun Hs Hr h0 Hh0) as [_ _ _ (h & os & Hl & Hh & Hk & Hx & _)].
  exists h. split; [done|]. split; [done|]. intros Hd view. destruct (distinct_kept _ _ Hk Hd) as [Hnd0 Hlen0].
  destruct Hd as [Hnd Hlen].
  destruct (get_all_messages_spec oc (doc_state a0).1 h0 Hh0 Hlen0) as (msgs & E & Hmsgs).
  rewrite E in Hload. injection Hload as <-.
  assert (forall x, x ∈ sort_by msg_leb msgs ++ concat (TestReceiver.told <$> es) <-> x ∈ messages h) as Hin.
  { intros x. rewrite Hx, elem_of_app, sort_by_Permutation, Hmsgs, Hes. unfold heard.
    by rewrite Hl, drop_app_length. }
  destruct (TestReceiver.handle_all_knows es v (sort_by msg_leb msgs)) as [Hvnd Hvin].
  { unfold TestReceiver.knows. rewrite Hview0. split; [|done]. by rewrite sort_by_Permutation, Hmsgs. }
  { intros x y Hx' Hy'. apply (NoDup_ids_agree _ Hnd); by apply Hin. }
  assert (view ≡ₚ messages h) as Hview.
  { apply NoDup_Permutation; [by eapply NoDup_fmap_1|by eapply NoDup_fmap_1|]. intros x. unfold view. by rewrite Hvin, Hin. }
  split; [done|]. intros oc'. destruct (get_all_messages_spec oc' (doc_state a).1 h Hh Hlen) as (msgs' & -> & Hmsgs').
  f_equal. apply TestReceiver.sorted_views_equal; [by rewrite Hmsgs'|done|..].
  - intros x. by rewrite Hmsgs', Hview.
  - apply NoDup_ids_agree. by rewrite Hmsgs'.
Qed.

Lemma shown_connection v es :
  TestReceiver.connection (foldl TestReceiver.handle v es) =
  default (TestReceiver.connection v) (last (omap TestReceiver.told_state es)).
Proof.
  induction es as [|e es IH] using rev_ind; [done|]. rewrite foldl_app, omap_app, last_app. cbn [foldl].
  destruct e; cbn; try exact IH. unfold TestReceiver.connection. cbn. by case_bool_decide.
Qed.

(** A client that takes in what it hears as it comes shows the state the connection has,
    unless the actor is yet to see that it changed. *)
Lemma client_connected r a0 a h0 v :
  sound (doc_state a0) -> msg_receiver a0 = Some r -> represents (objs (doc_of a0)) h0 ->
  (conn_changed a0 = false -> TestReceiver.connection v = state_of a0) ->
  rtc (shown r any_message) a0 a -> conn_changed a = false ->
  TestReceiver.connection (foldl TestReceiver.handle v (heard r a0 a)) = state_of a.
Proof using Laws PL.
  intros Hs Hr Hh0 Hv Hrun Hc.
  destruct (shown_follows r any_message a0 a Hrun Hs Hr h0 Hh0) as [_ _ _ (h & os & Hl & _ & _ & _ & _ & Hrep)].
  unfold heard. rewrite shown_connection, Hl, drop_app_length. specialize (Hrep Hc). unfold last_report in Hrep.
  assert (omap TestReceiver.told_state (omap (client_event r) os) = omap (conn_report r) os) as ->.
  { clear. induction os as [|o os IH]; [done|]. destruct o as [| | | |? []| |]; cbn; try exact IH;
      case_bool_decide; cbn; by rewrite <- IH. }
  destruct (last (omap (conn_report r) os)) as [s|]; [done|]. destruct Hrep as [Hc0 <-]. by apply Hv.
Qed.

(** C5. What the user sees is what the chat is. A client loads the chat of an actor to which
    it is subscribed and from then on takes in what the actor reports, in whatever order it
    comes to its hands; the actor handles any turns (its own and the peer's messages,
    ticks, changes of the connection), the database does not fail, and what the peer sends
    removes no message. Then the client shows exactly the messages of the document, each
    once, and sorted they are what [get_all_messages] would answer now. *)
Theorem clients_see_chat r a0 a h0 oc loaded es :
  sound (doc_state a0) -> msg_receiver a0 = Some r -> represents (objs (doc_of a0)) h0 ->
  ChatRepository.get_all_messages oc (doc_state a0).1 = Ok loaded ->
  rtc (shown r any_message) a0 a -> es ≡ₚ heard r a0 a ->
  exists h, represents (objs (doc_of a)) h /\ keeps_messages h0 h /\
    (distinct h ->
     let view := all_msgs (foldl TestReceiver.handle (TestReceiver.new loaded) es) in
     view ≡ₚ messages h /\
     forall oc', ChatRepository.get_all_messages oc' (doc_state a).1 = Ok (sort_by msg_leb view)).
Proof using Laws PL. intros Hs Hr Hh0 Hload. by apply (view_of_chat _ _ _ _ _ _ _ _ Hs Hr Hh0 Hload). Qed.

(** C35. What the client can miss. When processing a sync message fails a second time in a row
    (say, the database refuses two writes) the actor only logs it: the document keeps what
    came with the message, the client hears nothing of it, and the next message the user
    sends stores and shows it to the peer all the same. From then on the database holds
    messages of which the client heard nothing. *)
Theorem second_failure_hides_messages r env a b m e s1 h' :
  saved_prefix ∅ (doc_state a) -> reset_doc_state a = true -> sync_decode (sync_bytes b) = Some m ->
  receive_sync_message (Some m) (doc_state a) = (Err e, s1) -> represents (objs (doc s1.1)) h' ->
  exists a1, handle_incomming_message (E := anyhow) env (Sync (Some b)) a = (Ok tt, a1) /\
    doc_state a1 = s1 /\ represents (objs (doc_of a1)) h' /\ heard r a a1 = [] /\
    forall env2 msg tx, faultless (doc_state a1).2 -> oneshot_open env2 tx = true ->
      let own := message_of (doc_state a1).1 (now env2) (fresh_uuid env2) msg in
      exists a2, handle_outgoing_message env2 (Some (Single msg tx)) a1 = (Ok tt, a2) /\ all_saved (doc_state a2) /\
        represents (objs (doc_of a2)) (said (id_to_string (my_id (chat_id (doc_state a1).1))) own h') /\
        heard r a a2 = [TestReceiver.Own own].
Proof using Laws.
  intros Hs Hreset Hdec Er Hh'. exists (set_doc_state s1 a). split.
  { cbn [handle_incomming_message]. rewrite Hdec. unfold bind at 1, catch, on_repo. rewrite Er.
    unfold bind, gets. cbn [reset_doc_state set_doc_state]. by rewrite Hreset. }
  do 2 (split; [done|]). split; [unfold heard; cbn [log set_doc_state]; by rewrite drop_all|].
  destruct (receive_sync_message_durable ∅ _ _ _ _ Hs Er) as (Hs1 & _).
  intros env2 msg tx Hf Hopen. destruct (add_then_all_saved ∅ (now env2) (fresh_uuid env2) msg s1 h' Hs1 Hf Hh')
    as (om & d & Ea & Hh2 & Hall & _).
  unfold handle_outgoing_message. unfold bind at 1, catch, on_repo. cbn [doc_state set_doc_state]. rewrite Ea, bind_bind.
  unfold handle_outgoing_sync_message, bind, gets, emit, modify, ret. cbn [result_of]. rewrite Hopen.
  eexists. split; [done|]. split; [done|]. split; [done|].
  unfold heard. cbn [log add_log set_doc_state]. rewrite <- (assoc_L (++)), drop_app_length, omap_app.
  by rewrite client_event_conn.
Qed.

(** [get_manager_and_state_for_chat] of the integration tests, once the application has
    returned the chat's manager: the messages are loaded, then the receiver subscribes.
    [between] is what the actor does between the two requests. *)
Definition get_manager_and_state_for_chat (oc : bool) (between : action Actor anyhow unit) (sub : SubscribeMessage) :
    action Actor anyhow TestReceiver.TestChatManagerStateReceiver :=
  loaded <- catch (reads (fun a => ChatRepository.get_all_messages oc (doc_state a).1)) ;;
  all_messages <- lift (match loaded with inr ms => Ok ms | inl _ => Panic end) ;;
  between ;;;
  handle_subscription (Some sub) ;;;
  ret (TestReceiver.new all_messages).

(** C32. A client must subscribe before it loads. In the order of the integration tests,
    messages that the actor receives between the two requests are in the document, but
    neither in what was loaded nor in anything the client hears: it shows the chat of the
    moment of loading. *)
Theorem late_subscriber_misses r tx env oc a b m msgs reply s' h h' :
  msg_receiver a = None -> sync_decode (sync_bytes b) = Some m ->
  receive_sync_message (Some m) (doc_state a) = (Ok (msgs, reply), s') ->
  represents (objs (doc_of a)) h -> (Z.of_nat (length (messages h)) < usize_max)%Z ->
  represents (objs (doc s'.1)) h' ->
  exists view a',
    get_manager_and_state_for_chat oc (handle_incomming_message env (Sync (Some b)))
      {| subscriber := r; subscribe_tx := tx |} a = (Ok view, a') /\
    msg_receiver a' = Some r /\ represents (objs (doc_of a')) h' /\
    concat (TestReceiver.told <$> heard r a a') = [] /\
    all_msgs (foldl TestReceiver.handle view (heard r a a')) ≡ₚ messages h.
Proof using Laws.
  intros Hrc Hdec Er Hh Hlen Hh'. destruct (get_all_messages_spec oc (doc_state a).1 h Hh Hlen) as (loaded & El & Hl).
  unfold get_manager_and_state_for_chat. unfold bind at 1, catch, reads. rewrite El. unfold bind at 1, lift.
  cbn [handle_incomming_message]. rewrite Hdec. rewrite bind_bind. unfold bind at 1, catch, on_repo. rewrite Er.
  rewrite bind_bind. unfold bind at 1, modify. rewrite bind_bind.
  assert (forall a1, msg_receiver a1 = None -> (if bool_decide (msgs = []) then ret tt
    else to_receiver (E := anyhow) (fun n => ProcessMessages n msgs)) a1 = (Ok tt, a1)) as Hsilent.
  { intros a1 Hn. case_bool_decide; [done|]. unfold to_receiver, bind, gets. by rewrite Hn. }
  rewrite (bind_ok _ _ _ _ _ (Hsilent (set_reset_doc_state false (set_doc_state s' a)) Hrc)).
  assert (exists es, match reply with
    | Some om => handle_outgoing_sync_message (E := anyhow) env om
    | None => ret tt
    end (set_reset_doc_state false (set_doc_state s' a)) =
      (Ok tt, add_log (ConnEffect <$> es) (set_reset_doc_state false (set_doc_state s' a)))) as [es Es].
  { destruct reply as [om|]; [by eexists|]. exists []. unfold ret. f_equal. symmetry. apply add_log_nil. }
  rewrite (bind_ok _ _ _ _ _ Es). eexists _, _. split; [done|]. split; [done|]. split; [done|].
  unfold heard. cbn [log add_log set_msg_receiver set_reset_doc_state set_doc_state subscriber].
  rewrite <- !(assoc_L (++)), drop_app_length, !omap_app, client_event_conn. cbn [app omap list_omap client_event].
  rewrite !bool_decide_eq_true_2 by done. split; [done|]. cbn. by rewrite sort_by_Permutation.
Qed.

(** A step of a link on which the client [r1] follows the left actor and [r2] the right. *)
Definition watched_step (r1 r2 : nat) (l l' : Link) : Prop :=
  step l l' /\ (left l' = left l \/ shown r1 any_message (left l) (left l')) /\ (right l' = right l \/ shown r2 any_message (right l) (right l')).

Lemma stored_sound s : stored s -> sound s.
Proof. by intros (? & _ & ?). Qed.

Lemma watched_runs r1 r2 l l' :
  rtc (watched_step r1 r2) l l' -> rtc step l l' /\ rtc (shown r1 any_message) (left l) (left l') /\ rtc (shown r2 any_message) (right l) (right l').
Proof.
  induction 1 as [l|l l1 l' (Hstep & H1 & H2) _ (IH & IH1 & IH2)]; [done|].
  split; [by eapply rtc_l|]. split.
  - destruct H1 as [<-|?]; [done|by eapply rtc_l].
  - destruct H2 as [<-|?]; [done|by eapply rtc_l].
Qed.

Context {L : SyncLaws AM V SV} {CL : SyncCodecLaws SC}.

(** Two users see the same chat. Two managers connect, a client follows each, and both
    sides act in any interleaving; once nothing is on its way and neither side has anything
    to say, the two clients show the same list, which is all messages that either document
    has, and both actors would answer [get_all_messages] with it. *)
Theorem linked_clients_agree r1 r2 l0 l h1 h2 oc loaded1 loaded2 es1 es2 :
  fresh_link l0 -> stored (doc_state (left l0)) -> stored (doc_state (right l0)) ->
  msg_receiver (left l0) = Some r1 -> msg_receiver (right l0) = Some r2 ->
  represents (objs (doc_of (left l0))) h1 -> represents (objs (doc_of (right l0))) h2 ->
  ChatRepository.get_all_messages oc (doc_state (left l0)).1 = Ok loaded1 ->
  ChatRepository.get_all_messages oc (doc_state (right l0)).1 = Ok loaded2 ->
  rtc (watched_step r1 r2) l0 l -> at_rest l ->
  es1 ≡ₚ heard r1 (left l0) (left l) -> es2 ≡ₚ heard r2 (right l0) (right l) ->
  exists h, represents (objs (doc_of (left l))) h /\ keeps_messages h1 h /\ keeps_messages h2 h /\
    (distinct h ->
     let view1 := all_msgs (foldl TestReceiver.handle (TestReceiver.new loaded1) es1) in
     let view2 := all_msgs (foldl TestReceiver.handle (TestReceiver.new loaded2) es2) in
     view1 ≡ₚ messages h /\ sort_by msg_leb view1 = sort_by msg_leb view2 /\
     ChatRepository.get_all_messages oc (doc_state (left l)).1 = Ok (sort_by msg_leb view1) /\
     ChatRepository.get_all_messages oc (doc_state (right l)).1 = Ok (sort_by msg_leb view1)).
Proof using Laws PL L CL.
  intros Hf Hs1 Hs2 Hr1 Hr2 Hh1 Hh2 Hl1 Hl2 Hrun Hrest He1 He2.
  destruct (watched_runs _ _ _ _ Hrun) as (Hsteps & Hw1 & Hw2).
  destruct (view_of_chat r1 _ _ h1 oc loaded1 (TestReceiver.new loaded1) es1 (stored_sound _ Hs1) Hr1 Hh1 Hl1 eq_refl Hw1 He1) as (h & Hh & Hk1 & Hv1).
  destruct (view_of_chat r2 _ _ h2 oc loaded2 (TestReceiver.new loaded2) es2 (stored_sound _ Hs2) Hr2 Hh2 Hl2 eq_refl Hw2 He2) as (h' & Hh' & Hk2 & Hv2).
  assert (objs (doc_of (left l)) = objs (doc_of (right l))) as Ho.
  { apply changes_objs. by apply (rest_agrees l0 l). }
  assert (h' = h) as -> by (rewrite <- Ho in Hh'; by eapply represents_unique).
  exists h. do 3 (split; [done|]). intros Hd view1 view2. destruct (Hv1 Hd) as [Hp1 Hg1]. destruct (Hv2 Hd) as [Hp2 Hg2].
  fold view1 in Hp1, Hg1. fold view2 in Hp2, Hg2.
  assert (sort_by msg_leb view1 = sort_by msg_leb view2) as Heq.
  { destruct Hd as [Hnd _]. apply TestReceiver.sorted_views_equal; [by rewrite Hp1|by rewrite Hp2|..].
    - intros x. by rewrite Hp1, Hp2.
    - apply NoDup_ids_agree. by rewrite Hp1. }
  split; [done|]. split; [done|]. split; [apply Hg1|]. rewrite Heq. apply Hg2.
Qed.
End Agreement.

(** ** Reading the history off a document *)
Section ReadHistory.
Context {OI : ObjIds}.

Definition list_entry (e : string * (Value * ObjId)) : option (string * ObjId) :=
  p ← Schema.strip_prefix keys.LIST_PREFIX e.1; Some (p, e.2.2).
Definition read_list (o : gmap ObjId Obj) (e : string * ObjId) : option (string * list ChatMessage) :=
  xs ← list_at o e.2; ms ← mapM (read_msg o) xs; Some (e.1, ms).
Definition read_history (o : gmap ObjId Obj) : option history :=
  m ← map_at o ROOT;
  let es := omap list_entry (map_to_list m) in
  if bool_decide (NoDup es.*2) then list_to_map <$> mapM (read_list o) es else None.

Lemma list_entries (m : gmap string (Value * ObjId)) p l :
  (p, l) ∈ omap list_entry (map_to_list m) <-> snd <$> m !! peer_list_key p = Some l.
Proof.
  rewrite list_elem_of_omap. split.
  - intros ([k [v l']] & Hk%elem_of_map_to_list & (p' & Hp & [= -> ->])%bind_Some).
    apply strip_prefix_inv in Hp. simpl in Hp. subst k. unfold peer_list_key. by rewrite Hk.
  - intros ([v l'] & Hk & ->)%fmap_Some. exists (peer_list_key p, (v, l')). split; [by apply elem_of_map_to_list|].
    unfold list_entry, peer_list_key. cbn [fst snd]. by rewrite strip_prefix_app.
Qed.

Lemma read_history_represents o h : read_history o = Some h -> represents o h.
Proof.
  unfold read_history. intros (m & Hroot & Hh)%bind_Some. case_bool_decide as Hnd; [|done].
  apply fmap_Some in Hh as (hs & Hhs%mapM_Some & ->).
  assert (forall p, peer_list_at o p = snd <$> m !! peer_list_key p) as Hat by (intros p; unfold peer_list_at; by rewrite Hroot).
  assert (Forall2 (fun e ph => e.1 = ph.1 /\ list_holds o e.2 ph.2) (omap list_entry (map_to_list m)) hs) as Hf.
  { eapply Forall2_impl; [exact Hhs|]. intros e ph (xs & Hxs & (ms & Hms & [= <-])%bind_Some)%bind_Some.
    split; [done|]. by exists xs. }
  split.
  - eauto.
  - intros p ms Hp%elem_of_list_to_map_2. apply list_elem_of_lookup in Hp as [i Hi].
    destruct (Forall2_lookup_r _ _ _ _ _ Hf Hi) as ([p' l] & He & Hp' & Hl). simpl in Hp', Hl. subst p'.
    exists l. split; [|done]. rewrite Hat. apply list_entries. by eapply list_elem_of_lookup_2.
  - intros p Hp%not_elem_of_list_to_map_2. rewrite Hat. destruct (snd <$> m !! peer_list_key p) as [l|] eqn:E; [|done].
    exfalso. apply Hp. apply list_entries, list_elem_of_lookup in E as [i Hi].
    destruct (Forall2_lookup_l _ _ _ _ _ Hf Hi) as ([p' ms] & Hi' & Hp' & _). simpl in Hp'. subst p'.
    apply list_elem_of_fmap. exists (p, ms). split; [done|]. by eapply list_elem_of_lookup_2.
  - intros p p' l. rewrite !Hat, <- !list_entries. intros [i Hi]%list_elem_of_lookup [j Hj]%list_elem_of_lookup.
    assert (i = j) as ->; [|congruence]. eapply (NoDup_lookup _ i j l Hnd); by rewrite list_lookup_fmap, ?Hi, ?Hj.
Qed.

(** [keeps_messages], decided. *)
Definition keeps_messagesb (h h' : history) : bool :=
  forallb (fun pms => match h' !! pms.1 with Some ms => bool_decide (pms.2 ⊆+ ms) | None => false end)
    (map_to_list h).

Lemma keeps_messagesb_spec h h' : keeps_messagesb h h' = true -> keeps_messages h h'.
Proof.
  unfold keeps_messagesb. rewrite forallb_forall. intros Hall p ms Hp.
  specialize (Hall (p, ms)). simpl in Hall.
  assert (In (p, ms) (map_to_list h)) as Hin by (by apply list_elem_of_In, elem_of_map_to_list).
  apply Hall in Hin. destruct (h' !! p) as [ms'|]; [|done]. exists ms'. by apply bool_decide_eq_true in Hin.
Qed.
End ReadHistory.

(** ** The theorems at a concrete run *)
Module ClientSamples.
Import Concrete ToyDoc ToySync ChatRepositorySamples ManagerSamples LinkSamples.

(** The link of [LinkSamples] with a client at both ends. *)
Definition followed (n : nat) : Actor := set_msg_receiver (Some n) (started n).
Definition clients0 : Link := {| left := followed 1; right := followed 2; to_right := []; to_left := [] |}.

(** The conditions of [honest] on the next message, when the peer has [from]. *)
Definition honestb (from : list ChatMessage) (inc : list ProtoMessage) (a : Actor) : bool :=
  match inc with
  | Sync (Some b) :: _ =>
      match toy_decode (sync_bytes b), read_history (OI := toy_ids) (objs (doc_of a)) with
      | Some m, Some h =>
          match receive_sync_message (Some m : option (@SyncMsg toy_ids toy)) (doc_state a) with
          | (Ok _, s') => match read_history (OI := toy_ids) (objs (doc s'.1)) with
                          | Some h' => keeps_messagesb h h' &&
                              forallb (fun x => bool_decide (x ∈ messages h) || bool_decide (x ∈ from)) (messages h')
                          | None => false
                          end
          | _ => false
          end
      | _, _ => false
      end
  | _ => true
  end.

Lemma honestb_spec from text inc a : honestb from inc a = true -> honest (fun x => x ∈ from) (ready_for text inc) a.
Proof.
  intros Hb b m h Hrx Hdec Hh. destruct inc as [|[[b'|]] inc]; [done| |done]. injection Hrx as ->. cbn [honestb] in Hb.
  change (toy_decode (sync_bytes b) = Some m) in Hdec. rewrite Hdec in Hb. destruct (read_history (objs (doc_of a))) as [h0|] eqn:E0; [|done].
  apply read_history_represents in E0. rewrite (represents_unique _ _ _ Hh E0).
  destruct (receive_sync_message _ (doc_state a)) as [[out|e|] s'] eqn:Er; [|done..].
  destruct (read_history (objs (doc s'.1))) as [h'|] eqn:E1; [|done].
  apply andb_true_iff in Hb as [Hk Hf]. rewrite forallb_forall in Hf.
  exists out, s', h'. split; [done|]. split; [by apply read_history_represents|]. split; [by apply keeps_messagesb_spec|].
  intros x Hx%list_elem_of_In%Hf%orb_true_iff. by rewrite !bool_decide_eq_true in Hx.
Qed.
Lemma serve_shown n from env text a inc a' inc' :
  serve env text a inc = Some (a', inc') -> honestb from inc a = true -> shown n (fun x => x ∈ from) a a'.
Proof.
  intros Hs Hb%(honestb_spec from ((fun t => Single (Text t) 4) <$> text)).
  apply (shown_turn _ _ env (ready_for ((fun t => Single (Text t) 4) <$> text) inc)); [done..|].
  unfold serve in Hs. repeat case_match; by simplify_eq.
Qed.

(** The messages of an actor's document. *)
Definition messages_of (a : Actor) : list ChatMessage :=
  default [] (messages <$> read_history (OI := toy_ids) (objs (doc_of a))).
Definition go_watched (x : who * option string) (l : Link) : option Link :=
  if match x.1 with
     | L => honestb (messages_of (right l)) (to_left l) (left l)
     | R => honestb (messages_of (left l)) (to_right l) (right l)
     end then go x l else None.
Fixpoint play_watched (script : list (who * option string)) (l : Link) : option Link :=
  match script with [] => Some l | x :: script => l ← go_watched x l; play_watched script l end.

Lemma play_watched_steps script l l' : play_watched script l = Some l' -> rtc (watched_step 1 2) l l'.
Proof.
  revert l. induction script as [|[w t] script IH]; intros l; [by intros [= <-]|]. cbn [play_watched].
  intros (l1 & Hgo & Hp)%bind_Some. eapply rtc_l; [|by apply IH]. unfold go_watched in Hgo. cbn [fst] in Hgo.
  destruct w; case_match eqn:Hb; [|done| |done]; unfold go in Hgo; cbn [fst snd] in Hgo;
    apply bind_Some in Hgo as ([a inc] & Hs & [= <-]); pose proof (serve_acts _ _ _ _ _ _ Hs) as Ha; split;
    [by constructor| |by constructor|]; split; (by left) || (right; eapply shown_weaken; [done|]; by eapply serve_shown).
Qed.

Definition distinctb (h : history) : bool :=
  bool_decide (NoDup (msg_id <$> messages h)) && bool_decide (Z.of_nat (length (messages h)) < usize_max)%Z.
Lemma distinctb_spec h : distinctb h = true -> distinct h.
Proof. unfold distinctb. by rewrite andb_true_iff, !bool_decide_eq_true. Qed.

Lemma is_ok_value {E A} (o : outcome E A) : is_ok o = true -> exists a, o = Ok a.
Proof. destruct o; [eauto|done..]. Qed.

(** A chat document with distinct messages. *)
Definition readable (a : Actor) : bool :=
  match read_history (OI := toy_ids) (objs (doc_of a)) with Some h => distinctb h | None => false end.
Lemma readable_spec a : readable a = true -> exists h, represents (objs (doc_of a)) h /\ distinct h.
Proof.
  unfold readable. destruct (read_history _) as [h|] eqn:E; [|done]. intros Hd. exists h.
  split; [by apply read_history_represents|by apply distinctb_spec].
Qed.

Lemma followed_stored n : stored (doc_state (followed n)).
Proof. exact opened_stored. Qed.

Lemma followed_by n : msg_receiver (followed n) = Some n.
Proof. done. Qed.

Lemma clients_start : fresh_link clients0.
Proof. split; [|split; [|done]]; (split; [done|by eexists]). Qed.

Definition client_script : list (who * option string) := said_script ++ rest_script.

(** What the client of an actor shows, from its start at [a0]. *)
Definition shows_at (n : nat) (a0 a : Actor) : list ChatMessage :=
  match ChatRepository.get_all_messages true (doc_state a0).1 with
  | Ok loaded => all_msgs (foldl TestReceiver.handle (TestReceiver.new loaded) (heard n a0 a))
  | _ => []
  end.

(** Everything there is to compute of the run. *)
Definition client_run : bool :=
  match play_watched client_script clients0 with
  | Some l => rests l && readable (left clients0) && readable (right clients0) && readable (right l) &&
      is_ok (ChatRepository.get_all_messages true (doc_state (left clients0)).1) &&
      is_ok (ChatRepository.get_all_messages true (doc_state (right clients0)).1) &&
      bool_decide (shows_at 2 (right clients0) (right l) = [msg_a])
  | None => false
  end.
Lemma client_run_true : client_run = true.
Proof. vm_compute. reflexivity. Qed.

Lemma clients_see_chat_witness :
  exists a, rtc (shown 2 any_message) (followed 2) a /\ shows_at 2 (followed 2) a = [msg_a] /\
    forall oc, ChatRepository.get_all_messages oc (doc_state a).1 = Ok [msg_a].
Proof.
  pose proof client_run_true as Hrun. unfold client_run in Hrun.
  destruct (play_watched client_script clients0) as [l|] eqn:El; [|done].
  rewrite !andb_true_iff, bool_decide_eq_true in Hrun. destruct Hrun as [[[[[[_ _] H2] Hr] _] Ho] Hshow].
  apply play_watched_steps, watched_runs in El as (_ & _ & Hw).
  apply readable_spec in H2 as (h0 & Hh0 & Hd0). apply readable_spec in Hr as (h & Hh & Hd).
  apply is_ok_value in Ho as [loaded Eload].
  destruct (clients_see_chat 2 (followed 2) (right l) h0 true loaded (heard 2 (followed 2) (right l))
    (stored_sound _ (followed_stored 2)) (followed_by 2) Hh0 Eload Hw (reflexivity _)) as (h' & Hh' & _ & Hv).
  rewrite (represents_unique _ _ _ Hh' Hh) in Hv. destruct (Hv Hd) as [_ Hg].
  exists (right l). split; [done|]. split; [done|]. intros oc. rewrite Hg.
  unfold shows_at in Hshow. rewrite Eload in Hshow. change (right clients0) with (followed 2) in Hshow. by rewrite Hshow.
Defined.

Lemma linked_clients_agree_witness :
  exists l, rtc (watched_step 1 2) clients0 l /\ at_rest l /\
    sort_by msg_leb (shows_at 1 (followed 1) (left l)) = sort_by msg_leb (shows_at 2 (followed 2) (right l)) /\
    shows_at 2 (followed 2) (right l) = [msg_a].
Proof.
  pose proof client_run_true as Hrun. unfold client_run in Hrun.
  destruct (play_watched client_script clients0) as [l|] eqn:El; [|done].
  rewrite !andb_true_iff, bool_decide_eq_true in Hrun. destruct Hrun as [[[[[[Hrest H1] H2] Hr] Ho1] Ho2] Hshow].
  apply play_watched_steps in El. apply rests_at_rest in Hrest.
  apply readable_spec in H1 as (h1 & Hh1 & Hd1), H2 as (h2 & Hh2 & Hd2), Hr as (h & Hh & Hd).
  apply is_ok_value in Ho1 as [loaded1 E1]. apply is_ok_value in Ho2 as [loaded2 E2].
  destruct (linked_clients_agree 1 2 clients0 l h1 h2 true loaded1 loaded2
    (heard 1 (followed 1) (left l)) (heard 2 (followed 2) (right l))
    clients_start (followed_stored 1) (followed_stored 2) (followed_by 1) (followed_by 2) Hh1 Hh2 E1 E2 El Hrest
    (reflexivity _) (reflexivity _)) as (h' & Hh' & _ & _ & Hv).
  assert (objs (doc_of (left l)) = objs (doc_of (right l))) as Ho.
  { apply changes_objs. apply (rest_agrees clients0 l clients_start (followed_stored 1) (followed_stored 2)); [|done].
    by apply watched_runs in El as [? _]. }
  rewrite Ho in Hh'. rewrite (represents_unique _ _ _ Hh' Hh) in Hv. destruct (Hv Hd) as (_ & Heq & _).
  exists l. split; [done|]. split; [done|]. split; [|exact Hshow].
  unfold shows_at. change (followed 1) with (left clients0). change (followed 2) with (right clients0).
  by rewrite E1, E2.
Defined.

(** A peer's document with a message more, received while the database refuses writes, by
    an actor that has just recovered from another failure. *)
Lemma second_failure_hides_messages_witness :
  exists a a1 a2 m out, handle_incomming_message (E := anyhow) (sample_env true) (Sync (Some (MkSyncMessage (toy_encode m)))) a = (Ok tt, a1) /\
    represents (objs (doc_of a)) ∅ /\ represents (objs (doc_of a1)) {["sz" := [msg_b]]} /\
    handle_outgoing_message (sample_env true) (Some (Single (Text "a") 4)) a1 = (Ok tt, a2) /\
    all_saved (doc_state a2) /\ heard 7 a a2 = [TestReceiver.Own out].
Proof.
  destruct opened_faulty as (r & w & Hc & Hr & Hs & Hf & Hrest).
  destruct (say_transaction (doc r) ∅ "sz" msg_b Hr) as (d1 & _ & Hr1 & Hsub1 & Hne).
  pose proof Hs as [_ (ds & Hheads & _ & Hsub & _)]. set (m := (d1 : document)).
  set (st := {| toy_their := Some m; toy_sent := if bool_decide (m = doc r) then doc r else toy_sent (sync_state r);
                toy_in_flight := false |} : @SyncState toy_ids toy).
  assert ((doc r : document) ∪ m = m) as Hm by (apply subseteq_union_1_L; exact Hsub1).
  set (rp := set_sync_state st (set_doc (d1 : @Doc toy_ids toy) r)).
  set (w1 := {| store := others (next_weather w).1 (store w); forecast := (next_weather w).2 |}).
  assert (persist_chat (rp, w) = (Err (Sqlx "disk full"), (rp, w1))) as Ep.
  { apply (persist_chat_fault (rp, w) ds "disk full" Hheads); [by etransitivity| |done].
    intros Heq. apply Hne, (anti_symm (⊆)); [|done]. cbn in Heq. by rewrite Heq. }
  assert (receive_sync_message (Some m : option (@SyncMsg toy_ids toy)) (r, w) = (Err (Sqlx "disk full"), (rp, w1))) as Erecv.
  { unfold receive_sync_message, receive_changes. unfold bind at 1. unfold bind at 1. cbn [sync_receive toy receive].
    cbn -[persist_chat]. rewrite Hm. fold rp. by rewrite (bind_err _ _ _ _ _ Ep). }
  set (a := set_reset_doc_state true (new (r, w) disconnected)).
  assert (sync_decode (sync_bytes (MkSyncMessage (toy_encode m))) = Some (m : @SyncMsg toy_ids toy)) as Hdec
    by apply toy_decode_encode.
  destruct (second_failure_hides_messages 7 (sample_env true) a (MkSyncMessage (toy_encode m)) m (Sqlx "disk full") (rp, w1)
    (said "sz" msg_b ∅) Hs eq_refl Hdec Erecv Hr1) as (a1 & E1 & Hd1 & Hh1 & _ & Hnext).
  destruct (Hnext (sample_env true) (Text "a") 4) as (a2 & E2 & Hall & _ & Hheard); [|done|].
  { rewrite Hd1. unfold faultless. cbn [snd w1 forecast]. rewrite Hrest. constructor. }
  exists a, a1, a2, m. eexists. do 5 (split; [done|]). exact Hheard.
Defined.

(** The peer's document of the other run reaches an actor between the two requests. *)
Definition peer_doc : document :=
  match play said_script link0 with Some l => doc_of (left l) | None => ∅ end.
Definition late_run : bool :=
  readable (new opened_state disconnected) &&
  match receive_sync_message (Some peer_doc : option (@SyncMsg toy_ids toy)) opened_state with
  | (Ok _, s') => bool_decide (messages <$> read_history (OI := toy_ids) (objs (doc s'.1)) = Some [msg_a]) &&
      bool_decide (messages <$> read_history (OI := toy_ids) (objs (doc opened_state.1)) = Some [])
  | _ => false
  end.
Lemma late_run_true : late_run = true.
Proof. vm_compute. reflexivity. Qed.

Lemma late_subscriber_misses_witness :
  exists view a' h', get_manager_and_state_for_chat true
      (handle_incomming_message (sample_env true) (Sync (Some (MkSyncMessage (toy_encode peer_doc)))))
      {| subscriber := 7; subscribe_tx := 5 |} (new opened_state disconnected) = (Ok view, a') /\
    represents (objs (doc_of a')) h' /\ messages h' = [msg_a] /\
    all_msgs (foldl TestReceiver.handle view (heard 7 (new opened_state disconnected) a')) = [].
Proof.
  pose proof late_run_true as Hrun. unfold late_run in Hrun. apply andb_true_iff in Hrun as [Hr Hrun].
  apply readable_spec in Hr as (h & Hh & _ & Hlen).
  destruct (receive_sync_message (Some peer_doc : option (@SyncMsg toy_ids toy)) opened_state) as [[[msgs reply]|e|] s'] eqn:Er;
    [|done..].
  apply andb_true_iff in Hrun as [H1%bool_decide_eq_true H0%bool_decide_eq_true].
  apply fmap_Some in H1 as (h' & Hh' & Hm'), H0 as (h0 & Hh0 & Hm0). apply read_history_represents in Hh', Hh0.
  assert (sync_decode (sync_bytes (MkSyncMessage (toy_encode peer_doc))) = Some (peer_doc : @SyncMsg toy_ids toy)) as Hdec
    by apply toy_decode_encode.
  destruct (late_subscriber_misses 7 5 (sample_env true) true (new opened_state disconnected)
    (MkSyncMessage (toy_encode peer_doc)) peer_doc msgs reply s' h h' eq_refl Hdec Er Hh Hlen Hh')
    as (view & a' & E & _ & Ha' & _ & Hv).
  exists view, a', h'. split; [done|]. split; [done|]. split; [done|].
  rewrite (represents_unique _ _ _ Hh Hh0), <- Hm0 in Hv. by apply Permutation_nil_r in Hv.
Defined.
End ClientSamples.
