(* ===== verification/Network.v ===== *)
(** Two peers over the lifetime of their chat: each is an actor with a client that follows
    it, or shut down with its database; connections come up and break, applications stop and
    are started again, and messages are sent all the while. The integration tests at the end
    of src/src/app.rs are scripts of this network. *)
From S2P Require Import Prelude External Wire Errors ChatTypes Database Serial Automerge Schema Repository Connection Sync Manager Link Receiver Clients.
From stdpp Require Import base gmap strings list relations sorting.
From Stdlib Require Import ZArith Lia.
Import ChatRepository ChatManager TestReceiver(all_msgs, TestChatManagerStateReceiver).
Open Scope tryst_scope.

Inductive side := PeerA | PeerB.
#[export] Instance side_eq_dec : EqDecision side.
Proof. solve_decision. Defined.
Definition other (s : side) : side := match s with PeerA => PeerB | PeerB => PeerA end.
Definition at_side {A} (s : side) (x : A) (f : side -> A) : side -> A := fun t => if decide (t = s) then x else f t.

Lemma at_side_eq {A} s (x : A) f : at_side s x f s = x.
Proof. unfold at_side. by rewrite decide_True. Qed.
Lemma at_side_ne {A} s t (x : A) f : t <> s -> at_side s x f t = f t.
Proof. intros Ht. unfold at_side. by rewrite decide_False. Qed.
Lemma other_ne s : other s <> s.
Proof. by destruct s. Qed.

(** ** The network *)
Section Network.
Context {Ids : EndpointIds} {Us : Uuids} {OI : ObjIds} {AM : Automerges} {SC : SyncCodec AM} {V : DocViews AM}.

(** Whose chat it is at either side, and the receiver its user subscribes. *)
Variables (chat_of : side -> ChatId) (client_of : side -> nat).

(** A peer whose user opened the chat: the client's view when it had subscribed, the actor
    at that moment and now; or a peer that is shut down, with its database. *)
Inductive node :=
| Up (view : TestChatManagerStateReceiver) (since current : Actor)
| Down (w : World Db).

(** What is on its way to either side, when there is a connection. *)
Record Net := { nodes : side -> node; wire : option (side -> list ProtoMessage) }.

(** What the users do and are told. *)
Inductive event :=
| Said (s : side) (msg : ChatMessage)
| Stopped (s : side)
| Started (s : side).

(** The messages a peer has: of its document, or of the one stored in its database. *)
Inductive node_has (c : ChatId) : node -> history -> Prop :=
| up_has v a0 a h : represents (objs (doc_of a)) h -> node_has c (Up v a0 a) h
| down_has r w h :
    stored (r, w) -> chat_id r = c -> represents (objs (doc r)) h -> node_has c (Down w) h
| new_has w :
    bystanders (chat_id_to_string c) w -> db_wf (store w) ->
    chats (store w) !! chat_id_to_string c = None -> faultless w -> node_has c (Down w) ∅.

Definition peer_has (n : Net) (s : side) (x : ChatMessage) : Prop :=
  exists h, node_has (chat_of (other s)) (nodes n (other s)) h /\ x ∈ messages h.

(** The chat is opened: the head of [run], then what [get_manager_and_state_for_chat] does,
    with nothing from the peer in between. *)
Definition open_chat (env : Env) (oc : bool) (sub : SubscribeMessage) : action Actor anyhow TestChatManagerStateReceiver :=
  initial_conn_state <- gets (fun a => ChatConnection.state_value (conn a)) ;;
  modify (fun a => set_conn (conn a) false a) ;;;
  handle_connection_state_change env initial_conn_state ;;;
  get_manager_and_state_for_chat oc (ret tt) sub.

Definition outputs_between (a a' : Actor) : list output := drop (length (log a)) (log a').
Definition said_between (s : side) (a a' : Actor) : list event := Said s <$> answered (outputs_between a a').

(** The client's view after it has heard what the actor said from [a0] to [a]. *)
Definition catch_up (s : side) (view : TestChatManagerStateReceiver) (a0 a : Actor) : TestChatManagerStateReceiver :=
  foldl TestReceiver.handle view (heard (client_of s) a0 a).

(** The actor learns of its new connection. *)
Inductive node_came_up : node -> node -> Prop :=
| up_came_up v a0 a c : came_up (set_conn c true a) -> node_came_up (Up v a0 a) (Up v a0 (set_conn c true a)).

(** While there is a connection the actors take each other's messages in order, as on a
    link. Without one an actor acts alone; what was received before the connection broke
    may still be handled, or not, and what is sent is lost. The connection is there from
    the moment both have it, and may break any time. A peer that is shut down again stays
    what it is; one that is started is not connected yet. *)
Inductive net_step : Net -> list event -> Net -> Prop :=
| net_link n w s v a0 a vb b0 b a' inc :
    wire n = Some w -> nodes n s = Up v a0 a -> nodes n (other s) = Up vb b0 b ->
    acts a (w s) a' inc -> shown (client_of s) (peer_has n s) a a' ->
    net_step n (said_between s a a')
      {| nodes := at_side s (Up v a0 a') (nodes n);
         wire := Some (at_side s inc (at_side (other s) (w (other s) ++ sent_between a a') w)) |}
| net_alone n s v a0 a a' :
    wire n = None -> nodes n s = Up v a0 a -> shown (client_of s) (peer_has n s) a a' ->
    net_step n (said_between s a a') {| nodes := at_side s (Up v a0 a') (nodes n); wire := None |}
| net_lose n : net_step n [] {| nodes := nodes n; wire := None |}
| net_connect n nodes' :
    wire n = None -> (forall s, node_came_up (nodes n s) (nodes' s)) ->
    net_step n [] {| nodes := nodes'; wire := Some (fun _ => []) |}
| net_stop n s v a0 a env rdy a' :
    nodes n s = Up v a0 a -> cancelled rdy = true -> turn env rdy a = (Ok Stop, a') ->
    net_step n [Stopped s] {| nodes := at_side s (Down (doc_state a').2) (nodes n); wire := None |}
| net_stop_again n s w :
    nodes n s = Down w -> net_step n [Stopped s] {| nodes := nodes n; wire := None |}
| net_start n s w r w' conn0 env oc tx view a :
    nodes n s = Down w -> ChatRepository.new (chat_of s) w = (Ok r, w') ->
    is_connected (ChatConnection.state_value conn0) = false ->
    open_chat env oc {| subscriber := client_of s; subscribe_tx := tx |} (new (r, w') conn0) = (Ok view, a) ->
    net_step n [Started s] {| nodes := at_side s (Up (catch_up s view (new (r, w') conn0) a) a a) (nodes n); wire := None |}.

Inductive net_run : Net -> list event -> Net -> Prop :=
| net_nil n : net_run n [] n
| net_snoc n0 tr n es n' : net_run n0 tr n -> net_step n es n' -> net_run n0 (tr ++ es) n'.

(** What was sent by one side, and by both. *)
Definition said_at (s : side) (e : event) : option ChatMessage :=
  match e with Said t msg => if decide (t = s) then Some msg else None | _ => None end.
Definition said_by (s : side) (tr : list event) : list ChatMessage := omap (said_at s) tr.
Definition said_msg (e : event) : option ChatMessage := match e with Said _ msg => Some msg | _ => None end.
Definition all_said (tr : list event) : list ChatMessage := omap said_msg tr.

Definition link_of (a b : Actor) (w : side -> list ProtoMessage) : Link :=
  {| left := a; right := b; to_right := w PeerB; to_left := w PeerA |}.

Lemma said_by_all s tr x : x ∈ said_by s tr -> x ∈ all_said tr.
Proof.
  unfold said_by, all_said. rewrite !list_elem_of_omap. intros (e & He & Hx). exists e. split; [done|].
  destruct e as [t msg| |]; [|done..]. simpl in *. by destruct (decide (t = s)).
Qed.

Lemma all_said_by tr x : x ∈ all_said tr -> x ∈ said_by PeerA tr \/ x ∈ said_by PeerB tr.
Proof.
  unfold said_by, all_said. rewrite !list_elem_of_omap. intros (e & He & Hx).
  destruct e as [s msg| |]; [|done..]. injection Hx as ->.
  destruct s; [left|right]; eexists; (split; [exact He|]); unfold said_at; by rewrite decide_True.
Qed.

Lemma said_by_between s t a a' :
  said_by t (said_between s a a') = if decide (s = t) then answered (outputs_between a a') else [].
Proof.
  unfold said_between, said_by. induction (answered _) as [|x xs IH]; csimpl; [by destruct (decide _)|].
  destruct (decide (s = t)); csimpl; by rewrite IH.
Qed.

Lemma all_said_between s a a' : all_said (said_between s a a') = answered (outputs_between a a').
Proof. unfold said_between, all_said. induction (answered _) as [|x xs IH]; csimpl; [done|]. by rewrite IH. Qed.

(** *** What is true of each peer *)
Context {Laws : AutomergeLaws AM V}.

(** The client of a running peer has followed it since it loaded the chat. *)
Definition followed_by (s : side) (v : TestChatManagerStateReceiver) (a0 a : Actor) : Prop :=
  stored (doc_state a0) /\ (exists h0, represents (objs (doc_of a0)) h0) /\ msg_receiver a0 = Some (client_of s) /\
  (exists oc, ChatRepository.get_all_messages oc (doc_state a0).1 = Ok (all_msgs v)) /\
  (conn_changed a0 = false -> TestReceiver.connection v = state_of a0) /\
  rtc (shown (client_of s) any_message) a0 a /\ stored (doc_state a) /\ chat_id (doc_state a).1 = chat_of s.

Definition node_ok (s : side) (nd : node) (h : history) : Prop :=
  node_has (chat_of s) nd h /\ match nd with Up v a0 a => followed_by s v a0 a | Down _ => True end.

Lemma stored_holds r w c :
  stored (r, w) -> chat_id r = c -> holds_changes (chat_id_to_string c) (changes (doc r)) (store w).
Proof. by intros (_ & Ha & _) <-. Qed.

Lemma node_has_unique c nd h h' : node_has c nd h -> node_has c nd h' -> h = h'.
Proof using Laws.
  intros H1 H2.
  destruct H1 as [v a0 a h H1|r w h Hs Hc H1|w Hb Hwf Hn Hf]; inversion H2 as [v' b0 b h2 H2'|r' w' h2 Hs' Hc' H2'|w' Hb' Hwf' Hn' Hf'].
  - subst. by eapply represents_unique.
  - subst w' h2. pose proof (holds_changes_unique _ _ _ _ (stored_holds _ _ _ Hs Hc) (stored_holds _ _ _ Hs' Hc')) as Heq.
    rewrite <- (changes_objs _ _ Heq) in H2'. by eapply represents_unique.
  - subst w'. by destruct (stored_holds _ _ _ Hs Hc) as (_ & ? & ? & ? & _); simplify_eq.
  - subst w'. by destruct (stored_holds _ _ _ Hs' Hc') as (_ & ? & ? & ? & _); simplify_eq.
  - done.
Qed.

(** A repository opened from a peer's database has what the peer had. *)
Lemma node_reopened c w h r w' :
  node_has c (Down w) h -> ChatRepository.new c w = (Ok r, w') ->
  stored (r, w') /\ chat_id r = c /\ represents (objs (doc r)) h.
Proof using Laws.
  intros Hn Hnew. inversion Hn as [|r0 w0 h0 (Hs & Ha & Hf) Hc Hh|w0 Hb Hwf Hnone Hf]; subst.
  - destruct Hs as [Hb _]. cbn [fst snd] in *. unfold all_saved, repo_chat in *. cbn [fst snd] in *.
    destruct (get_persisted_present (chat_id r0) (changes (doc r0)) w Hb Ha) as (o & w1 & E & Hl & Hh1 & Ho).
    destruct Ho as [(d & -> & Hd & _)|[Hn' _]]; [|done]. unfold ChatRepository.new in Hnew. rewrite (bind_ok _ _ _ _ _ E) in Hnew.
    injection Hnew as <- <-. rewrite <- (changes_objs _ _ Hd) in Hh. split; [|done].
    rewrite <- Hd in Hh1. cbn [fst snd]. set (r1 := Build_Repo _ _ _ _ _ _).
    destruct (loaded_saved_prefix ∅ r1 w1 d (bystanders_later _ _ _ Hl Hb)) as [? ?]; try done.
    split; [done|]. split; [done|]. by eapply faultless_later.
  - destruct (new_chat_spec c w Hb Hwf Hnone Hf) as (r1 & w1 & E & Hc & Hl & Hr & Hs & Ha).
    rewrite E in Hnew. injection Hnew as <- <-. split; [|done]. split; [done|]. split; [done|]. by eapply faultless_later.
Qed.

(** Opening the chat: nothing changes but that the client is subscribed, has what it loaded
    and was told the state of the connection. *)
Lemma open_chat_spec env oc s tx d conn0 view a :
  is_connected (ChatConnection.state_value conn0) = false ->
  open_chat env oc {| subscriber := client_of s; subscribe_tx := tx |} (new d conn0) = (Ok view, a) ->
  doc_state a = d /\ msg_receiver a = Some (client_of s) /\
  ChatRepository.get_all_messages oc d.1 = Ok (all_msgs (catch_up s view (new d conn0) a)) /\
  TestReceiver.connection (catch_up s view (new d conn0) a) = state_of a.
Proof.
  intros Hc. unfold open_chat. unfold bind at 1, gets. cbn [conn new].
  destruct (ChatConnection.state_value conn0) eqn:Ev; [|done|];
    unfold handle_connection_state_change, to_receiver, get_manager_and_state_for_chat, catch, reads, lift, bind, modify, gets, ret, emit;
    cbn [msg_receiver new set_conn doc_state];
    (destruct (ChatRepository.get_all_messages oc d.1) as [loaded|e|]; [|done..]);
    intros [= <- <-]; (split; [done|]; split; [done|]);
    unfold catch_up, heard, state_of, TestReceiver.connection; cbn; rewrite !bool_decide_eq_true_2 by done; cbn;
    rewrite Ev; (split; [done|]); by case_bool_decide.
Qed.

Context {PL : PatchLaws AM V}.

(** An actor acts and its client follows. *)
Lemma shown_node s v a0 a a' h (P : ChatMessage -> Prop) :
  node_ok s (Up v a0 a) h -> shown (client_of s) P a a' ->
  exists h', node_ok s (Up v a0 a') h' /\ (forall x, x ∈ messages h -> x ∈ messages h') /\
    (forall x, x ∈ answered (outputs_between a a') -> x ∈ messages h') /\
    (forall x, x ∈ messages h' -> x ∈ messages h \/ x ∈ answered (outputs_between a a') \/ P x).
Proof using Laws PL.
  intros [Hn (Hs0 & [h0 Hh0] & Hr0 & Hv & Hcv & Hrun & Hs & Hc)] Hshown.
  inversion Hn as [v' b0 b hb Hh| |]; subst v' b0 b hb.
  destruct (shown_follows _ _ _ _ Hrun (stored_sound _ Hs0) Hr0 h0 Hh0) as [_ _ Hr _].
  destruct (shown_follows _ P a a' (rtc_once _ _ Hshown) (stored_sound _ Hs) Hr h Hh)
    as [[Hsp Hf] Hall _ (h' & os & Hl & Hh' & Hk & Hx & Hu & _)].
  assert (outputs_between a a' = os) as -> by (unfold outputs_between; by rewrite Hl, drop_app_length).
  exists h'. split; [split; [by constructor|]|split; [|split; [|done]]].
  - split; [done|]. split; [by exists h0|]. do 3 (split; [done|]). split; [|split].
    + eapply rtc_r; [exact Hrun|]. by eapply shown_weaken.
    + destruct Hs as (_ & Ha & _). split; [done|]. split; [by apply Hall|done].
    + rewrite <- Hc. destruct Hshown as [env rdy a a' _ _ Ht|]; [|done].
      pose proof (turn_safe env rdy a) as [_ Hsafe _]. rewrite Ht in Hsafe. apply (Hsafe ∅). by destruct Hs.
  - intros x Hin. apply Hx. by left.
  - intros x Hin. apply Hx. right. by apply answered_told.
Qed.

(** *** What is true of the network *)
Context {SV : SyncViews AM} {L : SyncLaws AM V SV} {CL : SyncCodecLaws SC}.

(** Each peer has what it had at the start and what it said, and no more than what either
    had or said; and while there is a connection the two actors are linked. *)
Section Invariant.
Variable start : side -> ChatMessage -> Prop.

Record accounted (s : side) (tr : list event) (h : history) : Prop := {
  has_own x : start s x \/ x ∈ said_by s tr -> x ∈ messages h;
  has_source x : x ∈ messages h -> start PeerA x \/ start PeerB x \/ x ∈ all_said tr;
}.

Record net_inv (tr : list event) (n : Net) : Prop := {
  inv_node s : exists h, node_ok s (nodes n s) h /\ accounted s tr h;
  inv_wire w : wire n = Some w -> exists va a0 a vb b0 b,
    nodes n PeerA = Up va a0 a /\ nodes n PeerB = Up vb b0 b /\ linked (link_of a b w);
}.

Lemma accounted_more s tr es h h' :
  accounted s tr h -> (forall x, x ∈ messages h -> x ∈ messages h') ->
  (forall x, x ∈ said_by s es -> x ∈ messages h') ->
  (forall x, x ∈ messages h' -> start PeerA x \/ start PeerB x \/ x ∈ all_said tr \/ x ∈ all_said es) ->
  accounted s (tr ++ es) h'.
Proof.
  intros [Hown Hsrc] Hk Hes Hu. split; unfold said_by, all_said in *; intros x; rewrite omap_app, elem_of_app.
  - intros [?|[?|?]]; auto.
  - intros [?|[?|[?|?]]]%Hu; auto.
Qed.

(** One peer moves, the other has what it had. *)
Lemma net_inv_at tr n s nd es h h' w' :
  net_inv tr n -> node_ok s nd h' -> node_has (chat_of s) (nodes n s) h ->
  (forall x, x ∈ messages h -> x ∈ messages h') -> (forall x, x ∈ said_by s es -> x ∈ messages h') ->
  (forall x, x ∈ messages h' -> x ∈ messages h \/ x ∈ all_said es \/ peer_has n s x) ->
  said_by (other s) es = [] ->
  (forall w, w' = Some w -> exists va a0 a vb b0 b, at_side s nd (nodes n) PeerA = Up va a0 a /\
    at_side s nd (nodes n) PeerB = Up vb b0 b /\ linked (link_of a b w)) ->
  net_inv (tr ++ es) {| nodes := at_side s nd (nodes n); wire := w' |}.
Proof using Laws.
  intros [Hnodes _] Hok Hh Hk Hes Hu Hother Hw. split; [|done]. cbn [nodes].
  destruct (Hnodes s) as (h1 & [Hn1 _] & Hacc). rewrite (node_has_unique _ _ _ _ Hn1 Hh) in Hacc.
  destruct (Hnodes (other s)) as (h2 & Hok2 & Hacc2).
  intros t. destruct (decide (t = s)) as [->|Hne].
  - rewrite at_side_eq. exists h'. split; [done|]. eapply accounted_more; [done..|].
    intros x [Hx|[Hx|(h3 & Hh3 & Hx)]]%Hu.
    + apply (has_source _ _ _ Hacc) in Hx. tauto.
    + tauto.
    + destruct Hok2 as [Hn2 _]. rewrite (node_has_unique _ _ _ _ Hh3 Hn2) in Hx. apply (has_source _ _ _ Hacc2) in Hx. tauto.
  - rewrite at_side_ne by done. assert (t = other s) as -> by (by destruct t, s). exists h2. split; [done|].
    eapply accounted_more; [done|done| |].
    + intros x. rewrite Hother. by intros ?%elem_of_nil.
    + intros x ?%(has_source _ _ _ Hacc2). tauto.
Qed.

Lemma link_step s (a b a' : Actor) w inc :
  acts a (w s) a' inc ->
  step (match s with PeerA => link_of a b w | PeerB => link_of b a w end)
    (let w' := at_side s inc (at_side (other s) (w (other s) ++ sent_between a a') w) in
     match s with PeerA => link_of a' b w' | PeerB => link_of b a' w' end).
Proof. intros Ha. destruct s; [by apply (step_left (link_of a b w))|by apply (step_right (link_of b a w))]. Qed.

Lemma net_inv_act tr n s v a0 a a' w' :
  net_inv tr n -> nodes n s = Up v a0 a -> shown (client_of s) (peer_has n s) a a' ->
  (forall w, w' = Some w -> exists va a0' a1 vb b0 b1, at_side s (Up v a0 a') (nodes n) PeerA = Up va a0' a1 /\
    at_side s (Up v a0 a') (nodes n) PeerB = Up vb b0 b1 /\ linked (link_of a1 b1 w)) ->
  net_inv (tr ++ said_between s a a') {| nodes := at_side s (Up v a0 a') (nodes n); wire := w' |}.
Proof using Laws PL.
  intros Hinv Hs Hshown. destruct (inv_node _ _ Hinv s) as (h & Hok & _). rewrite Hs in Hok.
  destruct (shown_node _ _ _ _ _ _ _ Hok Hshown) as (h' & Hok' & Hk & Hsaid & Hu). destruct Hok as [Hh _].
  apply (net_inv_at _ _ _ _ _ h h'); try done; [by rewrite Hs| | |].
  - intros x. rewrite said_by_between, decide_True by done. apply Hsaid.
  - intros x. rewrite all_said_between. apply Hu.
  - rewrite said_by_between, decide_False; [done|]. by destruct s.
Qed.

(** A peer that only goes up or down. *)
Lemma net_inv_switch tr n s nd e :
  net_inv tr n -> said_msg e = None ->
  (forall h, node_ok s (nodes n s) h -> node_ok s nd h) ->
  net_inv (tr ++ [e]) {| nodes := at_side s nd (nodes n); wire := None |}.
Proof using Laws.
  intros Hinv He Hnd. destruct (inv_node _ _ Hinv s) as (h & Hok & _). pose proof Hok as [Hh _].
  assert (forall t, said_by t [e] = []) as Hsaid by (intros t; by destruct e).
  apply (net_inv_at _ _ _ _ _ h h); try done; [by apply Hnd| |by left].
  intros x. rewrite Hsaid. by intros ?%elem_of_nil.
Qed.

Lemma node_ok_came_up s nd nd' h :
  node_came_up nd nd' -> node_ok s nd h ->
  node_ok s nd' h /\ exists v a0 a, nd' = Up v a0 a /\ came_up a /\ stored (doc_state a).
Proof.
  intros [v a0 a c Hcame] [Hh (? & ? & ? & ? & ? & Hrun & ? & ?)]. split; [|by eexists _, _, _].
  split; [inversion Hh; by constructor|]. do 5 (split; [done|]). split; [|done]. eapply rtc_r; [exact Hrun|]. by constructor.
Qed.

(** A connection comes up. *)
Lemma net_inv_connect tr n nodes' :
  net_inv tr n -> (forall s, node_came_up (nodes n s) (nodes' s)) ->
  net_inv tr {| nodes := nodes'; wire := Some (fun _ => []) |}.
Proof using L Laws.
  intros [Hn _] Hup.
  assert (forall s, exists h v a0 a, node_ok s (nodes' s) h /\ accounted s tr h /\ nodes' s = Up v a0 a /\ came_up a /\
    stored (doc_state a)) as Hn'.
  { intros s. destruct (Hn s) as (h & Hok & Hacc).
    destruct (node_ok_came_up _ _ _ _ (Hup s) Hok) as (Hok' & v & a0 & a & Hs & ? & ?). by exists h, v, a0, a. }
  split; [intros s; destruct (Hn' s) as (h & ? & ? & ? & ? & ? & _); by exists h|].
  intros w [= <-]. destruct (Hn' PeerA) as (_ & va & a0 & a & _ & _ & HA & Hca & Hsa).
  destruct (Hn' PeerB) as (_ & vb & b0 & b & _ & _ & HB & Hcb & Hsb).
  exists va, a0, a, vb, b0, b. split; [done|]. split; [done|]. by apply fresh_linked.
Qed.

Lemma node_ok_stopped s v a0 a env rdy a' h :
  cancelled rdy = true -> turn env rdy a = (Ok Stop, a') -> node_ok s (Up v a0 a) h -> node_ok s (Down (doc_state a').2) h.
Proof.
  intros Hcan Ht [Hh (_ & _ & _ & _ & _ & _ & Hst & Hc)]. inversion Hh as [v' b0 b hb Hr| |]; subst. revert Ht.
  unfold turn. unfold bind at 1, gets, id. rewrite Hcan. unfold bind, on_conn. destruct (ChatConnection.close (conn a)).
  intros [= <-]. split; [|done]. apply (down_has _ (doc_state a).1); [|done..].
  cbn [doc_state add_log set_conn]. by destruct (doc_state a).
Qed.

Lemma node_ok_started s w r w' conn0 env oc tx view a h :
  ChatRepository.new (chat_of s) w = (Ok r, w') -> is_connected (ChatConnection.state_value conn0) = false ->
  open_chat env oc {| subscriber := client_of s; subscribe_tx := tx |} (new (r, w') conn0) = (Ok view, a) ->
  node_ok s (Down w) h -> node_ok s (Up (catch_up s view (new (r, w') conn0) a) a a) h.
Proof using Laws.
  intros Hnew Hc Hopen [Hh _]. destruct (node_reopened _ _ _ _ _ Hh Hnew) as (Hst & Hcid & Hr).
  destruct (open_chat_spec _ _ _ _ _ _ _ _ Hc Hopen) as (Hd & Hrec & Hl & Hv).
  unfold node_ok, followed_by. rewrite Hd. split; [constructor; unfold doc_of; by rewrite Hd|].
  split; [done|]. split; [exists h; unfold doc_of; by rewrite Hd|]. split; [done|]. split; [by exists oc|]. by split.
Qed.

Lemma at_side_same {A} s (f : side -> A) t : at_side s (f s) f t = f t.
Proof. unfold at_side. by destruct (decide (t = s)) as [->|]. Qed.

Lemma net_step_inv tr n es n' : net_step n es n' -> net_inv tr n -> net_inv (tr ++ es) n'.
Proof using Laws PL L CL.
  intros Hstep Hinv. destruct Hstep as
    [n w s v a0 a vb b0 b a' inc Hw Hs Ho Hacts Hshown|n s v a0 a a' Hw Hs Hshown|n|n nodes' Hw Hup
    |n s v a0 a env rdy a' Hs Hcan Ht|n s w Hs|n s w r w' conn0 env oc tx view a Hs Hnew Hc Hopen].
  - apply net_inv_act; [done..|]. intros w1 [= <-].
    destruct (inv_wire _ _ Hinv w Hw) as (va & a1 & a2 & vb' & b1 & b2 & HA & HB & Hl).
    pose proof (link_step s a b a' w inc Hacts) as Hst.
    destruct s; cbn [other] in Ho; rewrite HA in *; rewrite HB in *; simplify_eq;
      destruct (step_linked _ _ Hst Hl) as [Hl' _]; by eexists _, _, _, _, _, _.
  - by apply net_inv_act.
  - rewrite app_nil_r. destruct Hinv as [Hn _]. by split.
  - rewrite app_nil_r. by apply (net_inv_connect tr n).
  - apply net_inv_switch; [done..|]. intros h. rewrite Hs. by eapply node_ok_stopped.
  - assert (net_inv (tr ++ [Stopped s]) {| nodes := at_side s (nodes n s) (nodes n); wire := None |}) as [Hn _]
      by (by apply net_inv_switch).
    split; [|done]. intros t. specialize (Hn t). cbn [nodes] in *. by rewrite at_side_same in Hn.
  - apply net_inv_switch; [done..|]. intros h. rewrite Hs. by eapply node_ok_started.
Qed.

Lemma net_run_inv n0 tr n : net_run n0 tr n -> net_inv [] n0 -> net_inv tr n.
Proof using Laws PL L CL.
  induction 1 as [|n0 tr n es n' _ IH Hstep]; intros H0; [done|]. apply (net_step_inv _ _ _ _ Hstep). auto.
Qed.
End Invariant.

(** Both peers are up and connected, and have told each other all there is to tell. *)
Definition settled (n : Net) : Prop := exists va a0 a vb b0 b w,
  nodes n PeerA = Up va a0 a /\ nodes n PeerB = Up vb b0 b /\ wire n = Some w /\ at_rest (link_of a b w).

(** What the client of a running peer may show: it takes in what it heard in any order. *)
Definition shows (s : side) (nd : node) (r : TestChatManagerStateReceiver) : Prop :=
  match nd with
  | Up v a0 a => exists es, es ≡ₚ heard (client_of s) a0 a /\ r = foldl TestReceiver.handle v es
  | Down _ => False
  end.

(** What it shows when it takes that in as it comes. *)
Definition client_view (s : side) (nd : node) : TestChatManagerStateReceiver :=
  match nd with Up v a0 a => catch_up s v a0 a | Down _ => TestReceiver.new [] end.

(** A network at the beginning: both peers are shut down, and have what they have. *)
Definition starts_with (hs : side -> history) (n : Net) : Prop :=
  wire n = None /\ forall s, node_has (chat_of s) (nodes n s) (hs s) /\ match nodes n s with Up _ _ _ => False | _ => True end.

Lemma node_shows s nd h r :
  node_ok s nd h -> distinct h -> shows s nd r ->
  all_msgs r ≡ₚ messages h.
Proof using Laws PL.
  destruct nd as [v a0 a|w]; [|done]. intros [Hn (Hs & [h0 Hh0] & Hr & [oc Hload] & _ & Hrun & _)] Hd (es & Hes & ->).
  inversion Hn as [v' b0 b h2 Hh| |]; subst.
  destruct (view_of_chat _ _ _ _ _ _ _ _ (stored_sound _ Hs) Hr Hh0 Hload eq_refl Hrun Hes) as (h' & Hh' & _ & Hv).
  rewrite (represents_unique _ _ _ Hh' Hh) in Hv. by apply Hv.
Qed.

Lemma settled_agrees start tr n :
  net_inv start tr n -> settled n ->
  exists h, (forall s, node_ok s (nodes n s) h) /\
    forall x, x ∈ messages h <-> start PeerA x \/ start PeerB x \/ x ∈ all_said tr.
Proof using Laws PL L CL.
  intros [Hnodes Hw] (va & a0 & a & vb & b0 & b & w & HA & HB & Hwire & Hrest).
  destruct (Hw w Hwire) as (va' & a0' & a' & vb' & b0' & b' & HA' & HB' & Hl). rewrite HA in HA'. rewrite HB in HB'. simplify_eq.
  pose proof (linked_agrees _ Hl Hrest) as Heq. cbn [left right link_of] in Heq.
  destruct (Hnodes PeerA) as (h & HokA & HaccA), (Hnodes PeerB) as (h' & HokB & HaccB). rewrite HA in HokA. rewrite HB in HokB.
  pose proof HokA as [HhA _]. pose proof HokB as [HhB _].
  inversion HhA as [? ? ? ? HrA| |]; inversion HhB as [? ? ? ? HrB| |]; subst.
  assert (h' = h) as -> by (eapply represents_unique; [exact HrB|]; by rewrite <- (changes_objs _ _ Heq)).
  exists h. split; [intros []; by rewrite ?HA, ?HB|]. intros x. split; [apply (has_source _ _ _ _ HaccA)|].
  intros [?|[?|[?|?]%all_said_by]]; [apply (has_own _ _ _ _ HaccA)|apply (has_own _ _ _ _ HaccB)|
    apply (has_own _ _ _ _ HaccA)|apply (has_own _ _ _ _ HaccB)]; auto.
Qed.

Lemma run_inv hs n0 tr n :
  starts_with hs n0 -> net_run n0 tr n -> net_inv (fun s x => x ∈ messages (hs s)) tr n.
Proof using Laws PL L CL.
  intros [Hwire Hn] Hrun. apply (net_run_inv _ _ _ _ Hrun). split; [|by rewrite Hwire]. intros s. exists (hs s).
  destruct (Hn s) as [Hh Hd]. split; [split; [done|]; by destruct (nodes n0 s)|]. split; [|by destruct s; auto].
  intros x [?|?%elem_of_nil]; [done|done].
Qed.

(** Then both clients show that they are connected. *)
Lemma client_view_connected s v a0 a h :
  node_ok s (Up v a0 a) h -> connected (conn a) -> conn_changed a = false ->
  exists i, TestReceiver.connection (client_view s (Up v a0 a)) = UConnected i.
Proof using Laws PL.
  intros [_ (Hs & [h0 Hh0] & Hr & _ & Hcv & Hrun & _)] (c & _ & Hc) Hch. unfold client_view, catch_up.
  rewrite (client_connected _ _ _ _ _ (stored_sound _ Hs) Hr Hh0 Hcv Hrun Hch). unfold state_of. rewrite Hc. by eexists.
Qed.

Lemma settled_success start tr n :
  net_inv start tr n -> settled n ->
  TestReceiver.success_conn (client_view PeerA (nodes n PeerA)) (client_view PeerB (nodes n PeerB)) = true.
Proof using Laws PL.
  intros [Hnodes Hw] (va & a0 & a & vb & b0 & b & w & HA & HB & Hwire & _ & _ & [HcA _] & [HcB _]).
  destruct (Hw w Hwire) as (va' & a0' & a' & vb' & b0' & b' & HA' & HB' & [[HlA HlB] _ _ _]).
  rewrite HA in HA'. rewrite HB in HB'. simplify_eq.
  destruct (Hnodes PeerA) as (h & HokA & _), (Hnodes PeerB) as (h' & HokB & _). rewrite HA in HokA |- *. rewrite HB in HokB |- *.
  destruct (client_view_connected _ _ _ _ _ HokA HlA HcA) as [i Hi], (client_view_connected _ _ _ _ _ HokB HlB HcB) as [j Hj].
  unfold TestReceiver.success_conn. by rewrite Hi, Hj.
Qed.

(** C4. Everyone gets everything. Two peers start from what their databases hold; they
    connect, lose the connection, shut down and start again as often as they like, and send
    messages all the while, connected or not. Whenever they are connected and have told
    each other all there is, both have exactly the messages that either had at the start or
    that any call of [send_message] returned, and both clients, however often they were
    started anew and in whatever order they take in what they hear, show these messages,
    each once, and that they are connected. *)
Theorem everyone_gets_everything hs n0 tr n :
  starts_with hs n0 -> net_run n0 tr n -> settled n ->
  TestReceiver.success_conn (client_view PeerA (nodes n PeerA)) (client_view PeerB (nodes n PeerB)) = true /\
  exists h, (forall s, node_has (chat_of s) (nodes n s) h) /\
    (forall x, x ∈ messages h <-> x ∈ messages (hs PeerA) \/ x ∈ messages (hs PeerB) \/ x ∈ all_said tr) /\
    (distinct h -> forall s r, shows s (nodes n s) r -> all_msgs r ≡ₚ messages h).
Proof using Laws PL L CL.
  intros Hstart Hrun Hset. pose proof (run_inv _ _ _ _ Hstart Hrun) as Hinv. split; [by eapply settled_success|].
  destruct (settled_agrees _ _ _ Hinv Hset) as (h & Hok & Hx).
  exists h. split; [apply Hok|]. split; [done|]. intros Hd s r. by apply node_shows.
Qed.
End Network.

(** ** The theorem at a concrete run *)
Module NetSamples.
Import Concrete ToyDoc ToySync ChatRepositorySamples ManagerSamples LinkSamples ClientSamples.

Definition chat_of (s : side) : ChatId := match s with
  | PeerA => {| my_id := (0 : @EndpointId keys); remote_peer := (1 : @EndpointId keys) |}
  | PeerB => {| my_id := (1 : @EndpointId keys); remote_peer := (0 : @EndpointId keys) |}
  end.
Definition client_of (s : side) : nat := match s with PeerA => 1 | PeerB => 2 end.
Definition net0 : Net := {| nodes := fun _ => Down (quiet empty_db); wire := None |}.

(** The clock and the fresh id of one turn. *)
Definition env_at (t : nat) : Env := {|
  now := Z.of_nat t; fresh_uuid := (t : @Uuid uuids); rotation_id := (9 : @Uuid uuids);
  is_open := fun _ => true; oneshot_open := fun _ => true; overflow_checks := true;
|}.

(** What happens next in a run; a turn may have a text to send. *)
Inductive move := Turn (s : side) (t : nat) (text : option string) | Break | Meet | Halt (s : side) | Begin (s : side).

Definition messages_at (nd : node) : list ChatMessage := match nd with Up _ _ a => messages_of a | Down _ => [] end.

Definition halt_turn : Ready :=
  {| cancelled := true; tick := false; subscribe_rx := None; in_rx := None; conn_rx := None |}.

Definition meet (n : Net) (s : side) : node :=
  match nodes n s with
  | Up v a0 a => Up v a0 (set_conn (ChatConnection.new_connected (my_id (chat_of s)) (handle_of (client_of s))) true a)
  | nd => nd
  end.
Definition is_up (nd : node) : bool := match nd with Up _ _ _ => true | Down _ => false end.

Definition begin_actor (s : side) (d : Repo * World Db) : Actor :=
  new d (ChatConnection.new (my_id (chat_of s)) (remote_peer (chat_of s))).1.

Definition make (m : move) (n : Net) : option (list event * Net) :=
  match m with
  | Turn s t text =>
      match nodes n s with
      | Up v a0 a =>
          let from := messages_at (nodes n (other s)) in
          match wire n with
          | Some w =>
              if honestb from (w s) a && is_up (nodes n (other s)) then
                '(a', inc) ← serve (env_at t) text a (w s);
                Some (said_between s a a', {| nodes := at_side s (Up v a0 a') (nodes n);
                  wire := Some (at_side s inc (at_side (other s) (w (other s) ++ sent_between a a') w)) |})
              else None
          | None =>
              match turn (env_at t) (ready_for ((fun t => Single (Text t) 4) <$> text) []) a with
              | (Ok Continue, a') => Some (said_between s a a', {| nodes := at_side s (Up v a0 a') (nodes n); wire := None |})
              | _ => None
              end
          end
      | Down _ => None
      end
  | Break => Some ([], {| nodes := nodes n; wire := None |})
  | Meet =>
      match wire n with
      | None => if is_up (nodes n PeerA) && is_up (nodes n PeerB) then Some ([], {| nodes := meet n; wire := Some (fun _ => []) |})
                else None
      | Some _ => None
      end
  | Halt s =>
      match nodes n s with
      | Up v a0 a =>
          match turn (env_at 0) halt_turn a with
          | (Ok ChatManager.Stop, a') => Some ([Stopped s], {| nodes := at_side s (Down (doc_state a').2) (nodes n); wire := None |})
          | _ => None
          end
      | Down _ => Some ([Stopped s], {| nodes := nodes n; wire := None |})
      end
  | Begin s =>
      match nodes n s with
      | Down w =>
          match ChatRepository.new (chat_of s) w with
          | (Ok r, w') =>
              match open_chat (env_at 0) true {| subscriber := client_of s; subscribe_tx := 0 |}
                      (begin_actor s (r, w')) with
              | (Ok view, a) => Some ([Started s],
                    {| nodes := at_side s (Up (catch_up client_of s view (begin_actor s (r, w')) a) a a) (nodes n); wire := None |})
              | _ => None
              end
          | _ => None
          end
      | Up _ _ _ => None
      end
  end.

Fixpoint play_net (ms : list move) (tr : list event) (n : Net) : option (list event * Net) :=
  match ms with
  | [] => Some (tr, n)
  | m :: ms => '(es, n') ← make m n; play_net ms (tr ++ es) n'
  end.

Definition ping (s : side) : list move := [Turn s 0 None; Turn s 0 None].
Definition chatter : list move := concat (replicate 4 (ping PeerA ++ ping PeerB)).

(** Both start and meet; A says "a" and B reads it; the connection breaks, B says "b" while A
    is started anew; and they meet again. *)
Definition sample_moves : list move :=
  [Begin PeerA; Begin PeerB; Meet; Turn PeerA 0 None; Turn PeerB 0 None; Turn PeerA 5 (Some "a")] ++ chatter ++
  [Break; Halt PeerA; Turn PeerB 6 (Some "b"); Turn PeerB 6 (Some "b"); Begin PeerA; Meet] ++ chatter.

Lemma messages_at_has n s x : x ∈ messages_at (nodes n (other s)) -> peer_has chat_of n s x.
Proof.
  unfold messages_at, messages_of. destruct (nodes n (other s)) as [v a0 a|w] eqn:En; [|by intros ?%elem_of_nil].
  destruct (read_history (objs (doc_of a))) as [h|] eqn:Eh; [|by intros ?%elem_of_nil]. intros Hx.
  exists h. split; [|done]. rewrite En. constructor. by apply read_history_represents.
Qed.

Lemma turn_made s t text n es n' : make (Turn s t text) n = Some (es, n') -> net_step chat_of client_of n es n'.
Proof.
  cbn [make]. destruct (nodes n s) as [v a0 a|] eqn:Es; [|done]. destruct (wire n) as [w|] eqn:Ew.
  - destruct (honestb _ _ _) eqn:Hh; [|done]. destruct (nodes n (other s)) as [vb b0 b|] eqn:Eo; [|done]. simpl andb.
    intros ([a' inc] & Hs & [= <- <-])%bind_Some. apply (net_link _ _ n w s v a0 a vb b0 b); [done..|by eapply serve_acts|].
    eapply shown_weaken; [|by eapply serve_shown]. intros x Hx. apply messages_at_has. by rewrite Eo.
  - destruct (turn _ _ a) as [[[]|e|] a'] eqn:Et; [|done..]. intros [= <- <-]. apply (net_alone _ _ n s v a0 a); [done..|].
    apply (shown_turn _ _ (env_at t) (ready_for ((fun t => Single (Text t) 4) <$> text) [])); [done| |done].
    intros b m h Hrx. destruct text; discriminate Hrx.
Qed.

Lemma make_step m n es n' : make m n = Some (es, n') -> net_step chat_of client_of n es n'.
Proof.
  destruct m as [s t text| | |s|s]; [apply turn_made|..]; cbn [make].
  - intros [= <- <-]. constructor.
  - destruct (wire n) eqn:Ew; [done|]. destruct (nodes n PeerA) as [va a0 a|] eqn:Ea; [|done].
    destruct (nodes n PeerB) as [vb b0 b|] eqn:Eb; [|done]. intros [= <- <-]. constructor; [done|].
    intros []; unfold meet; rewrite ?Ea, ?Eb; constructor; (split; [done|by eexists]).
  - destruct (nodes n s) as [v a0 a|w] eqn:Es; [|intros [= <- <-]; by econstructor].
    destruct (turn _ _ a) as [[[]|e|] a'] eqn:Et; [done| |done..]. intros [= <- <-]. by apply (net_stop _ _ n s v a0 a (env_at 0) halt_turn).
  - destruct (nodes n s) as [|w] eqn:Es; [done|]. destruct (ChatRepository.new _ w) as [[r|e|] w'] eqn:Er; [|done..].
    destruct (open_chat _ _ _ _) as [[view|e|] a] eqn:Eo; [|done..]. intros [= <- <-].
    by apply (net_start _ _ n s w r w' (ChatConnection.new (my_id (chat_of s)) (remote_peer (chat_of s))).1 (env_at 0) true 0).
Qed.

Lemma play_net_run ms n0 tr0 n1 tr n :
  play_net ms tr0 n1 = Some (tr, n) -> net_run chat_of client_of n0 tr0 n1 -> net_run chat_of client_of n0 tr n.
Proof.
  revert tr0 n1. induction ms as [|m ms IH]; intros tr0 n1; [by intros [= <- <-]|]. cbn [play_net].
  intros ([es n2] & Hm%make_step & Hp)%bind_Some Hrun. eapply IH; [exact Hp|]. by econstructor.
Qed.

Lemma net0_starts : starts_with chat_of (fun _ => ∅) net0.
Proof. split; [done|]. intros s. split; [|done]. constructor; [apply quiet_bystanders|apply empty_db_wf|done|constructor]. Qed.

(** Both ends of the connection rest, and the documents can be read. *)
Definition settledb (n : Net) : bool :=
  match nodes n PeerA, nodes n PeerB, wire n with
  | Up _ _ a, Up _ _ b, Some w => rests (link_of a b w) && readable b
  | _, _, _ => false
  end.
Lemma settledb_spec n : settledb n = true -> settled n /\
  forall h, node_has (chat_of PeerB) (nodes n PeerB) h -> distinct h.
Proof.
  unfold settledb. destruct (nodes n PeerA) as [va a0 a|] eqn:Ea; [|done]. destruct (nodes n PeerB) as [vb b0 b|] eqn:Eb; [|done].
  destruct (wire n) as [w|] eqn:Ew; [|done]. intros [Hr%rests_at_rest (h & Hh & Hd)%readable_spec]%andb_true_iff.
  split; [by eexists _, _, _, _, _, _, _|]. intros h' Hh'. inversion Hh' as [? ? ? ? Hr'| |]; subst.
  by rewrite (represents_unique _ _ _ Hr' Hh).
Qed.

Lemma client_view_shows s n : is_up (nodes n s) = true -> shows client_of s (nodes n s) (client_view client_of s (nodes n s)).
Proof. unfold client_view, shows. destruct (nodes n s); [|done]. intros _. by eexists. Qed.

Definition msg_text (m : ChatMessage) : string := match content m with Text t => t end.
Definition net_computed : bool :=
  match play_net sample_moves [] net0 with
  | Some (tr, n) => settledb n && is_up (nodes n PeerA) &&
      bool_decide (msg_text <$> all_said tr = ["a"; "b"]) && bool_decide (msg_text <$> all_msgs (client_view client_of PeerA (nodes n PeerA)) = ["a"; "b"])
  | None => false
  end.
Lemma net_computed_true : net_computed = true.
Proof. vm_compute. reflexivity. Qed.

Lemma everyone_gets_everything_witness :
  exists tr n h, net_run chat_of client_of net0 tr n /\ settled n /\
    (forall s, node_has (chat_of s) (nodes n s) h) /\ msg_text <$> all_said tr = ["a"; "b"] /\
    (forall x, x ∈ messages h <-> x ∈ all_said tr) /\
    msg_text <$> all_msgs (client_view client_of PeerA (nodes n PeerA)) = ["a"; "b"] /\ all_msgs (client_view client_of PeerA (nodes n PeerA)) ≡ₚ messages h.
Proof.
  pose proof net_computed_true as Hc. unfold net_computed in Hc.
  destruct (play_net sample_moves [] net0) as [[tr n]|] eqn:Ep; [|done].
  rewrite !andb_true_iff, !bool_decide_eq_true in Hc. destruct Hc as [[[Hset Hup] Htexts] Hview].
  apply (play_net_run _ net0) in Ep; [|constructor]. apply settledb_spec in Hset as [Hset Hd].
  destruct (everyone_gets_everything chat_of client_of (fun _ => ∅) net0 tr n net0_starts Ep Hset) as (_ & h & Hh & Hx & Hv).
  exists tr, n, h. do 4 (split; [done|]). split.
  { intros x. rewrite Hx. unfold messages. rewrite map_to_list_empty. cbn. rewrite elem_of_nil. tauto. }
  split; [done|]. apply (Hv (Hd h (Hh PeerB)) PeerA). by apply client_view_shows.
Defined.
End NetSamples.
