(* ===== verification/Scenarios.v ===== *)
(** The integration tests of src/src/app.rs (module [tests]): what each has its two peers do,
    as a script of the network, and when its closing assertions hold of a run of that script
    which has settled. *)
From S2P Require Import Prelude External Wire Errors ChatTypes Database Serial Automerge Schema Repository Connection Sync Manager Link Receiver Clients Network.
From stdpp Require Import base gmap strings list relations sorting.
From Stdlib Require Import ZArith Lia.
Import ChatRepository ChatManager TestReceiver(all_msgs, TestChatManagerStateReceiver).
Open Scope tryst_scope.

(** ** The scripts *)
Inductive command := Send (s : side) | Stop (s : side) | Start (s : side).

(** [peer_a] when the coin comes up [true]. *)
Definition toss (b : bool) : side := if b then PeerA else PeerB.
Definition send_random_text_msg (s : side) : list command := [Send s].
Definition restart (s : side) : list command := [Stop s; Start s].
Definition setup_connected_peers_pair : list command := [Start PeerA; Start PeerB].

(** [for i in 0..n] *)
Definition for_in (n : nat) (body : nat -> list command) : list command := concat (body <$> seq 0 n).

(** The tests; [coins] are the outcomes of [rand::random_bool(0.5)], in their order. *)
Definition test_initial_connection_with_sealed_invite : list command := setup_connected_peers_pair.

Definition test_peers_conn_with_multiple_disconnection (coins : nat -> bool) : list command :=
  setup_connected_peers_pair ++ for_in 4 (fun i => restart (toss (coins i))).

Definition online_messages_test (n : nat) (coins : nat -> bool) : list command :=
  setup_connected_peers_pair ++ for_in n (fun i => send_random_text_msg (toss (coins i))).
Definition test_peers_conn_with_online_messages : (nat -> bool) -> list command := online_messages_test 30.

Definition test_peers_conn_with_messages_and_disconnections (coins : nat -> bool) : list command :=
  setup_connected_peers_pair ++
  for_in 10 (fun i =>
    for_in 20 (fun j => send_random_text_msg (toss (coins (21 * i + j)))) ++
    restart (toss (coins (21 * i + 20)))).

Definition test_peers_conn_with_offline_messages_and_various_disconnections (coins : nat -> bool) : list command :=
  setup_connected_peers_pair ++
  for_in 6 (fun loop_i =>
    let is_even := loop_i mod 2 =? 0 in
    for_in 10 (fun j => send_random_text_msg (toss (coins (11 * loop_i + j)))) ++
    (let away := toss (coins (11 * loop_i + 10)) in
     [Stop away] ++ for_in 10 (fun _ => send_random_text_msg (other away)) ++
     (if is_even then [Stop (other away)] else []) ++
     restart away ++
     (if is_even then for_in 10 (fun _ => send_random_text_msg away) ++ restart (other away) else []))).

(** Two tasks side by side. *)
Inductive interleaved {A} : list A -> list A -> list A -> Prop :=
| interleaved_nil : interleaved [] [] []
| interleaved_left x xs ys zs : interleaved xs ys zs -> interleaved (x :: xs) ys (x :: zs)
| interleaved_right y xs ys zs : interleaved xs ys zs -> interleaved xs (y :: ys) (y :: zs).

Definition test_heavy_concurrency_stress (script : list command) : Prop := exists both,
  interleaved (for_in 70 (fun _ => send_random_text_msg PeerA)) (for_in 70 (fun _ => send_random_text_msg PeerB)) both /\
  script = setup_connected_peers_pair ++ both.

(** A script of one of the tests, and how many messages it collects; that with online
    messages also for any number of them. *)
Inductive integration_test : list command -> nat -> Prop :=
| initial_connection : integration_test test_initial_connection_with_sealed_invite 0
| multiple_disconnection coins : integration_test (test_peers_conn_with_multiple_disconnection coins) 0
| online_messages coins : integration_test (test_peers_conn_with_online_messages coins) 30
| online_messages_any n coins : integration_test (online_messages_test n coins) n
| messages_and_disconnections coins : integration_test (test_peers_conn_with_messages_and_disconnections coins) 200
| offline_messages coins :
    integration_test (test_peers_conn_with_offline_messages_and_various_disconnections coins) 150
| concurrency_stress script : test_heavy_concurrency_stress script -> integration_test script 140.

Definition is_send (c : command) : bool := match c with Send _ => true | _ => false end.
Definition sends (cs : list command) : nat := length (List.filter is_send cs).

Lemma sends_app cs1 cs2 : sends (cs1 ++ cs2) = sends cs1 + sends cs2.
Proof. unfold sends. by rewrite List.filter_app, length_app. Qed.

Lemma sends_interleaved xs ys zs : interleaved xs ys zs -> sends zs = sends xs + sends ys.
Proof. induction 1 as [|x xs ys zs _ IH|y xs ys zs _ IH]; [done|..]; unfold sends in *; simpl; destruct (is_send _); simpl; lia. Qed.

Lemma sends_for_in n (body : nat -> list command) :
  (forall i, sends (body i) = 1) -> sends (for_in n body) = n.
Proof.
  intros Hb. unfold for_in. generalize 0. induction n as [|n IH]; intros k; [done|]. simpl.
  rewrite sends_app, Hb. by rewrite IH.
Qed.

(** Whatever the coins, a test sends as many messages. *)
Lemma integration_test_sends script total : integration_test script total -> sends script = total.
Proof.
  intros [| | |n coins|coins|coins|cs (both & Hi & ->)]; try reflexivity.
  { unfold online_messages_test. rewrite sends_app. cbn [sends]. by apply sends_for_in. }
  rewrite sends_app, (sends_interleaved _ _ _ Hi). reflexivity.
Qed.

(** ** The closing assertions *)
Section Assertions.
Context {Ids : EndpointIds} {Us : Uuids} {OI : ObjIds} {AM : Automerges} {SC : SyncCodec AM} {V : DocViews AM}
  {SV : SyncViews AM} {Laws : AutomergeLaws AM V} {PL : PatchLaws AM V} {L : SyncLaws AM V SV} {CL : SyncCodecLaws SC}.
Variables (chat_of : side -> ChatId) (client_of : side -> nat).

Definition command_of (e : event) : command :=
  match e with Said s _ => Send s | Stopped s => Stop s | Started s => Start s end.

Lemma sends_said tr : sends (command_of <$> tr) = length (all_said tr).
Proof. induction tr as [|[] tr IH]; [done|..]; unfold sends, all_said in *; csimpl; by rewrite IH. Qed.

(** What the client of a running peer may show when it takes in its own messages in time. *)
Definition shows_in_time (s : side) (nd : node) (r : TestChatManagerStateReceiver) : Prop :=
  match nd with
  | Up v a0 a => exists es, es ≡ₚ heard (client_of s) a0 a /\ TestReceiver.timely v es = true /\
      r = foldl TestReceiver.handle v es
  | Down _ => False
  end.

Lemma shows_in_time_shows s nd r : shows_in_time s nd r -> shows client_of s nd r.
Proof. destruct nd as [v a0 a|w]; [|done]. intros (es & ? & _ & ?). by exists es. Qed.

(** Such a client shows its messages in order: it loaded them so. *)
Lemma shows_in_order s nd h r :
  node_ok chat_of client_of s nd h -> distinct h -> shows_in_time s nd r -> TestReceiver.in_order r.
Proof using Laws PL.
  destruct nd as [v a0 a|w]; [|done]. intros [Hn (Hs & [h0 Hh0] & Hr & [oc Hload] & _ & Hrun & _)] Hd (es & Hes & Ht & ->).
  apply TestReceiver.timely_in_order; [left|done].
  inversion Hn as [v' b0 b h2 Hh| |]; subst.
  destruct (view_of_chat _ _ _ _ _ _ _ _ (stored_sound _ Hs) Hr Hh0 Hload eq_refl Hrun Hes) as (h' & Hh' & Hk & _).
  rewrite (represents_unique _ _ _ Hh' Hh) in Hk. destruct (distinct_kept _ _ Hk Hd) as [_ Hlen0].
  destruct (get_all_messages_spec oc (doc_state a0).1 h0 Hh0 Hlen0) as (msgs & E & _).
  rewrite E in Hload. injection Hload as Hv. apply TestReceiver.in_order_sorted. rewrite <- Hv.
  apply sort_by_sorted; [apply msg_leb_total|apply msg_leb_trans].
Qed.

(** The closing comparisons of two views that show the same messages. *)
Lemma closing_assertions h all r :
  distinct h -> NoDup (msg_id <$> all) -> (forall x, x ∈ messages h <-> x ∈ all) -> all_msgs r ≡ₚ messages h ->
  all_msgs r ≡ₚ all /\ (TestReceiver.collected_all_msgs r all = true <-> TestReceiver.in_order r) /\
  (TestReceiver.in_order r -> all_msgs r = sort_by msg_leb all).
Proof.
  intros [Hnh _] Hnd Hx Hp. assert (sort_by msg_leb (all_msgs r) = sort_by msg_leb all) as Hs.
  { apply TestReceiver.sorted_views_equal; [by rewrite Hp|done| |].
    - intros x. by rewrite Hp, Hx.
    - apply NoDup_ids_agree. by rewrite Hp. }
  unfold TestReceiver.collected_all_msgs, TestReceiver.in_order. rewrite bool_decide_eq_true, Hs. split; [|by split].
  rewrite <- (sort_by_Permutation msg_leb (all_msgs r)), Hs. apply sort_by_Permutation.
Qed.

(** C15. What the integration tests assert. Two applications without a chat between them run
    the script of a test, whatever its coins and however the network behaves in between;
    once they are connected and have told each other all, both clients show the connection
    ([wait_for_success_conn_with_timeout]), and each view has exactly the messages that the
    test collected, as many as the test sends, each once. [assert_collected_all_msgs] then
    holds of a view exactly when the view is in order, and with both in order so does
    [assert_equal_chats_msgs], whatever it waits for. A view is in order when the client took
    in its own messages in time: [send_random_text_msg] appends the answer without sorting,
    so an answer that comes after a newer message of the peer, with no batch to follow, makes
    the assertion fail although nothing is missing. *)
Theorem integration_tests_pass script total n0 tr n :
  integration_test script total -> starts_with chat_of (fun _ => ∅) n0 ->
  net_run chat_of client_of n0 tr n -> command_of <$> tr = script -> settled n -> NoDup (msg_id <$> all_said tr) ->
  length (all_said tr) = total /\
  TestReceiver.success_conn (client_view client_of PeerA (nodes n PeerA)) (client_view client_of PeerB (nodes n PeerB)) = true /\
  exists h, (forall s, node_has (chat_of s) (nodes n s) h) /\
    (distinct h ->
     (forall s r, shows client_of s (nodes n s) r ->
        all_msgs r ≡ₚ all_said tr /\
        (TestReceiver.collected_all_msgs r (all_said tr) = true <-> TestReceiver.in_order r)) /\
     (forall s r, shows_in_time s (nodes n s) r -> TestReceiver.in_order r) /\
     (forall ra rb, shows client_of PeerA (nodes n PeerA) ra -> shows client_of PeerB (nodes n PeerB) rb ->
        TestReceiver.in_order ra -> TestReceiver.in_order rb -> 0 < total ->
        forall wakes late, TestReceiver.assert_equal_chats_msgs (ra, rb) wakes late = true)).
Proof using Laws PL L CL.
  intros Htest Hstart Hrun Hcs Hset Hnd. assert (length (all_said tr) = total) as Hlen.
  { rewrite <- sends_said, Hcs. by apply integration_test_sends. }
  pose proof (run_inv _ _ _ _ _ _ Hstart Hrun) as Hinv. split; [done|]. split; [by eapply settled_success|].
  destruct (settled_agrees _ _ _ _ _ Hinv Hset) as (h & Hok & Hx). exists h. split; [apply Hok|]. intros Hd.
  assert (forall s r, shows client_of s (nodes n s) r -> all_msgs r ≡ₚ all_said tr /\
    (TestReceiver.collected_all_msgs r (all_said tr) = true <-> TestReceiver.in_order r) /\
    (TestReceiver.in_order r -> all_msgs r = sort_by msg_leb (all_said tr))) as Hall.
  { intros s r Hr. apply (closing_assertions h); [done..| |by apply (node_shows _ _ _ _ _ _ (Hok s) Hd Hr)].
    intros x. rewrite Hx. unfold messages. rewrite map_to_list_empty, !elem_of_nil. tauto. }
  split; [intros s r Hr; by destruct (Hall s r Hr) as (? & ? & _)|].
  split; [intros s r; by apply (shows_in_order s _ h)|].
  intros ra rb Ha Hb Hoa Hob Hpos wakes late. destruct (Hall _ _ Ha) as (_ & _ & Ea), (Hall _ _ Hb) as (_ & _ & Eb).
  unfold TestReceiver.assert_equal_chats_msgs, TestReceiver.check_equal. cbn [fst snd]. rewrite Ea, Eb by done.
  assert (sort_by msg_leb (all_said tr) <> []) as Hne.
  { intros Hnil%(f_equal length). rewrite length_sort_by in Hnil. simpl in Hnil. lia. }
  rewrite (bool_decide_eq_false_2 _ Hne). cbn [negb andb]. by rewrite bool_decide_eq_true_2.
Qed.
End Assertions.

(** ** A test at a concrete run *)
Module ScenarioSamples.
Import Concrete ToyDoc ToySync ManagerSamples LinkSamples ClientSamples NetSamples.

(** The test with online messages, two of them: A says one, B reads it and says another. *)
Definition coins : nat -> bool := Nat.even.
Definition online_moves : list move :=
  [Begin PeerA; Begin PeerB; Meet] ++ ping PeerA ++ ping PeerB ++ ping PeerA ++ ping PeerB ++
  [Turn PeerA 5 (Some "a")] ++ ping PeerB ++ ping PeerA ++ ping PeerB ++ [Turn PeerB 6 (Some "b")] ++ chatter.

#[export] Instance command_eq_dec : EqDecision command.
Proof. solve_decision. Defined.

Definition in_timeb (s : side) (nd : node) : bool :=
  match nd with Up v a0 a => TestReceiver.timely v (heard (client_of s) a0 a) | Down _ => false end.
Lemma in_timeb_shows s n : in_timeb s (nodes n s) = true -> shows_in_time client_of s (nodes n s) (client_view client_of s (nodes n s)).
Proof. unfold in_timeb, shows_in_time, client_view. destruct (nodes n s); [|done]. intros Ht. by eexists. Qed.

Definition online_run : bool :=
  match play_net online_moves [] net0 with
  | Some (tr, n) => settledb n && in_timeb PeerA (nodes n PeerA) && in_timeb PeerB (nodes n PeerB) &&
      bool_decide (command_of <$> tr = online_messages_test 2 coins) && bool_decide (NoDup (msg_id <$> all_said tr))
  | None => false
  end.
Lemma online_run_true : online_run = true.
Proof. vm_compute. reflexivity. Qed.

Lemma integration_tests_pass_witness :
  exists tr n, net_run chat_of client_of net0 tr n /\ settled n /\
    command_of <$> tr = online_messages_test 2 coins /\ length (all_said tr) = 2 /\
    let ra := client_view client_of PeerA (nodes n PeerA) in let rb := client_view client_of PeerB (nodes n PeerB) in
    TestReceiver.success_conn ra rb = true /\
    TestReceiver.collected_all_msgs ra (all_said tr) = true /\ TestReceiver.collected_all_msgs rb (all_said tr) = true /\
    TestReceiver.assert_equal_chats_msgs (ra, rb) [] (ra, rb) = true.
Proof.
  pose proof online_run_true as Hc. unfold online_run in Hc.
  destruct (play_net online_moves [] net0) as [[tr n]|] eqn:Ep; [|done].
  rewrite !andb_true_iff, !bool_decide_eq_true in Hc. destruct Hc as [[[[Hset HA] HB] Hcs] Hnd].
  apply (play_net_run _ net0) in Ep; [|constructor]. apply settledb_spec in Hset as [Hset Hd].
  destruct (integration_tests_pass chat_of client_of _ 2 net0 tr n (online_messages_any 2 coins) net0_starts Ep Hcs Hset Hnd)
    as (Hlen & Hsucc & h & Hh & Hv).
  destruct (Hv (Hd h (Hh PeerB))) as (Hall & Hin & Heq).
  apply in_timeb_shows in HA, HB. pose proof (Hin _ _ HA) as HoA. pose proof (Hin _ _ HB) as HoB.
  apply shows_in_time_shows in HA, HB.
  exists tr, n. do 5 (split; [done|]). split; [by apply (Hall _ _ HA)|]. split; [by apply (Hall _ _ HB)|].
  apply (Heq _ _ HA HB HoA HoB). lia.
Defined.
End ScenarioSamples.
