(* ===== verification/Tryst.v ===== *)
(** The Tryst trust records and invites (src/src/protocols/tryst/, the public snapshot): the
    [tryst] table (src/migrations/20250207000000_tryst.sql), [TrystRepository], the mapping
    between rows and records, the withheld primitives as the stubs they are, and invites. *)
From S2P Require Import Prelude External Wire Errors Database Schema.
From stdpp Require Import base strings list.
From Stdlib Require Import ZArith Lia Strings.Byte.
Open Scope tryst_scope.

(** ** crypto.rs *)

(** [EpochSecret([u8; 32])]; the array's length is [secret_ok]. *)
Record EpochSecret := { secret_bytes : bytes }.

#[export] Instance EpochSecret_eq_dec : EqDecision EpochSecret.
Proof. solve_decision. Defined.

Definition secret_ok (s : EpochSecret) : bool := bool_decide (length (secret_bytes s) = 32).

(** [Vec<u8> -> [u8; 32]] *)
Definition to_array_32 (b : bytes) : option bytes := if bool_decide (length b = 32) then Some b else None.

(** [From<[u8; 32]>] *)
Definition epoch_secret_from (b : bytes) : EpochSecret := {| secret_bytes := b |}.

(** [generate], with what the generator [R] writes into an array of that many bytes. *)
Definition generate {R} (fill_bytes : nat -> R -> bytes * R) (csprng : R) : EpochSecret * R :=
  let '(b, csprng') := fill_bytes 32 csprng in (epoch_secret_from b, csprng').

Definition to_bytes (s : EpochSecret) : bytes := secret_bytes s.
Definition current_epoch : Z := 0.
Definition ratchet_secret (s : EpochSecret) : EpochSecret := s.
Definition calculate_sas {K} (s : EpochSecret) (my_id other_id : K) : Z := 0.
Definition encrypt (s : EpochSecret) (plaintext : bytes) : outcome anyhow bytes := Ok plaintext.
Definition decrypt (s : EpochSecret) (ciphertext : bytes) : outcome anyhow bytes := Ok ciphertext.
Definition encrypt_symmetric {K} (key : K) (plaintext : bytes) : outcome anyhow bytes := Ok plaintext.
Definition decrypt_symmetric {K} (key : K) (ciphertext : bytes) : outcome anyhow bytes := Ok ciphertext.

Module TrystRepository.
(** A row of the table. *)
Record RawTryst := {
  raw_id : string;
  raw_account_id : option string;
  raw_current_secret : bytes;
  raw_previous_secret : option bytes;
  raw_last_updated_epoch : Z;
  raw_is_verified : bool;
}.

#[export] Instance RawTryst_eq_dec : EqDecision RawTryst.
Proof. solve_decision. Defined.

(** The table, in insertion order. *)
Abbreviation Table := (list RawTryst).
Abbreviation Pool := (World Table).

Section Tryst.
Context {Ids : EndpointIds} {Us : Uuids}.

(** ** types.rs *)
Record StoredTryst := {
  id : Uuid;
  account_id : option EndpointId;
  current_secret : EpochSecret;
  previous_secret : option EpochSecret;
  last_updated_epoch : Z;
  is_verified : bool;
}.

(** [ratchet_if_needed]: withheld, returns false. *)
Definition ratchet_if_needed (t : StoredTryst) : bool * StoredTryst := (false, t).

(** ** persistence.rs *)
(** INSERT INTO tryst .. ON CONFLICT(id) DO UPDATE SET ..: the conflict clause is about the
    primary key; a clash on the unique index of the account ids is an error. *)
Definition account_taken (r : RawTryst) (t : Table) : bool :=
  existsb (fun x => negb (bool_decide (raw_id x = raw_id r)) &&
                    match raw_account_id r with
                    | Some a => bool_decide (raw_account_id x = Some a)
                    | None => false
                    end) t.
Definition upsert (r : RawTryst) (t : Table) : outcome string unit * Table :=
  if account_taken r t then (Err "UNIQUE constraint failed: tryst.account_id", t)
  else if existsb (fun x => bool_decide (raw_id x = raw_id r)) t
  then (Ok tt, (fun x => if bool_decide (raw_id x = raw_id r) then r else x) <$> t)
  else (Ok tt, t ++ [r]).

(** SELECT .. FROM tryst WHERE id = ?, [fetch_optional]; the other two likewise. *)
Definition select_by_id (i : string) (t : Table) : outcome string (option RawTryst) * Table :=
  (Ok (head (filter (fun x => raw_id x = i) t)), t).
Definition select_by_account (a : string) (t : Table) : outcome string (option RawTryst) * Table :=
  (Ok (head (filter (fun x => raw_account_id x = Some a) t)), t).
Definition select_all (t : Table) : outcome string (list RawTryst) * Table := (Ok t, t).

(** The row [save] writes. *)
Definition raw_of (tryst : StoredTryst) : RawTryst := {|
  raw_id := uuid_to_string (id tryst);
  raw_account_id := id_to_string <$> account_id tryst;
  raw_current_secret := to_bytes (current_secret tryst);
  raw_previous_secret := to_bytes <$> previous_secret tryst;
  raw_last_updated_epoch := u64_as_i64 (last_updated_epoch tryst);
  raw_is_verified := is_verified tryst;
|}.

Definition save (tryst : StoredTryst) : action Pool LibError unit := stmt (upsert (raw_of tryst)).

(** [impl TryFrom<RawTryst> for StoredTryst] *)
Definition try_from (row : RawTryst) : outcome LibError StoredTryst :=
  match uuid_from_str (raw_id row) with
  | None => Err (Unexpected "Invalid UUID in DB")
  | Some i =>
      let? account := match raw_account_id row with
                      | Some s => match id_from_str s with
                                  | Some a => Ok (Some a)
                                  | None => Err (Unexpected "Invalid EndpointId in DB")
                                  end
                      | None => Ok None
                      end in
      match to_array_32 (raw_current_secret row) with
      | None => Err (Unexpected "Invalid secret length")
      | Some current =>
          let? previous := match raw_previous_secret row with
                           | Some b => match to_array_32 b with
                                       | Some s => Ok (Some {| secret_bytes := s |})
                                       | None => Err (Unexpected "Invalid previous secret length")
                                       end
                           | None => Ok None
                           end in
          Ok {| id := i; account_id := account; current_secret := {| secret_bytes := current |};
                previous_secret := previous; last_updated_epoch := i64_as_u64 (raw_last_updated_epoch row);
                is_verified := raw_is_verified row |}
      end
  end.

(** A row that cannot be mapped is skipped with a warning. *)
Definition mapped (row : RawTryst) : option StoredTryst :=
  match try_from row with Ok t => Some t | _ => None end.

(** The error of the nested [save] is only logged. *)
Definition ratchet_and_save_tryst (tryst : StoredTryst) : action Pool LibError StoredTryst :=
  let '(ratcheted, tryst') := ratchet_if_needed tryst in
  if ratcheted then catch (save tryst') ;;; ret tryst' else ret tryst'.

(** The common tail of [get] and [get_by_account_id]. *)
Definition finish (row : option RawTryst) : action Pool LibError (option StoredTryst) :=
  match row ≫= mapped with
  | Some tryst => tryst' <- ratchet_and_save_tryst tryst ;; ret (Some tryst')
  | None => ret None
  end.

Definition get (i : Uuid) : action Pool LibError (option StoredTryst) :=
  row <- stmt (select_by_id (uuid_to_string i)) ;; finish row.

Definition get_by_account_id (a : EndpointId) : action Pool LibError (option StoredTryst) :=
  row <- stmt (select_by_account (id_to_string a)) ;; finish row.

(** The loop [for tryst in trysts.iter_mut()]. *)
Fixpoint ratchet_all (ts : list StoredTryst) : action Pool LibError (list StoredTryst) :=
  match ts with
  | [] => ret []
  | t :: ts' =>
      t' <- ratchet_and_save_tryst t ;;
      ts'' <- ratchet_all ts' ;;
      ret (t' :: ts'')
  end.

Definition get_all : action Pool LibError (list StoredTryst) :=
  rows <- stmt select_all ;; ratchet_all (omap mapped rows).

(** ** invite.rs *)
Definition INVITE_PREFIX : string := "gossip://invite/stub/".

Definition create_invite_str (public : EndpointId) : outcome LibError string :=
  Ok (INVITE_PREFIX +:+ id_to_string public).

Definition receive_invite_str (invite_str : string) : outcome LibError EndpointId :=
  match Schema.strip_prefix INVITE_PREFIX invite_str ≫= id_from_str with
  | Some pk => Ok pk
  | None => Err (Unexpected "Invalid or unsupported invitation format in this public snapshot.")
  end.
End Tryst.

Section TrystFacts.
Context {Ids : EndpointIds} {Laws : EndpointIdLaws Ids} {Us : Uuids} {ULaws : UuidLaws Us}.

(** What Rust's types say of a record. *)
Definition typed (t : StoredTryst) : Prop :=
  secret_ok (current_secret t) = true /\ (forall s, previous_secret t = Some s -> secret_ok s = true) /\
  (0 <= last_updated_epoch t < 2 ^ 64)%Z.

Lemma try_from_raw_of t : typed t -> try_from (raw_of t) = Ok t.
Proof using Laws ULaws.
  destruct t as [i a [cur] prev ep ver]. unfold typed, secret_ok. cbn. intros (Hc & Hp & He).
  unfold try_from, raw_of. cbn. rewrite uuid_from_to_string.
  assert (match id_to_string <$> a with
          | Some s => match id_from_str s with Some a => Ok (Some a) | None => Err (Unexpected "Invalid EndpointId in DB") end
          | None => Ok None
          end = Ok (E := LibError) a) as -> by (destruct a; simpl; by rewrite ?id_from_to_string).
  unfold to_array_32. simpl. rewrite Hc. rewrite u64_as_i64_roundtrip by done.
  destruct prev as [[p]|]; simpl; [|done].
  specialize (Hp _ eq_refl). simpl in Hp. by rewrite Hp.
Qed.

(** *** The table's constraints *)
Definition table_wf (t : Table) : Prop := NoDup (raw_id <$> t) /\ NoDup (omap raw_account_id t).

Lemma head_filter_unique {A} (P : A -> Prop) `{!forall x, Decision (P x)} (l : list A) x :
  x ∈ l -> P x -> (forall y, y ∈ l -> P y -> y = x) -> head (filter P l) = Some x.
Proof.
  intros Hin HP Huniq. destruct (filter P l) as [|y l'] eqn:E.
  - exfalso. assert (x ∈ filter P l) as Hx by (by apply list_elem_of_filter). by rewrite E in Hx; apply elem_of_nil in Hx.
  - simpl. f_equal. assert (y ∈ filter P l) as Hy by (rewrite E; left).
    apply list_elem_of_filter in Hy as [? ?]. auto.
Qed.

Lemma existsb_raw_id i (t : Table) :
  existsb (fun x => bool_decide (raw_id x = i)) t = true <-> i ∈ raw_id <$> t.
Proof.
  rewrite existsb_exists, list_elem_of_fmap. split.
  - intros (x & Hx & Hi). apply bool_decide_eq_true in Hi. exists x. split; [done|]. by apply list_elem_of_In.
  - intros (x & -> & Hx). exists x. split; [by apply list_elem_of_In|]. by apply bool_decide_eq_true.
Qed.

(** The rows after a successful [upsert]: the new one, and the others as they were. *)
Lemma upsert_rows r t t' :
  upsert r t = (Ok tt, t') ->
  forall x, x ∈ t' <-> x = r \/ (x ∈ t /\ raw_id x <> raw_id r).
Proof.
  unfold upsert. destruct (account_taken r t); [done|].
  destruct (existsb _ t) eqn:Ex; intros [= <-] x.
  - apply existsb_raw_id in Ex. rewrite list_elem_of_fmap. split.
    + intros (y & -> & Hy). case_bool_decide; auto.
    + intros [->|[Hx Hne]].
      * apply list_elem_of_fmap in Ex as (y & Hi & Hy). exists y. by rewrite bool_decide_eq_true_2.
      * exists x. by rewrite bool_decide_eq_false_2.
  - rewrite elem_of_app, list_elem_of_singleton. split; [|tauto].
    intros [Hx| ->]; [|auto]. right. split; [done|]. intros Heq.
    assert (existsb (fun y => bool_decide (raw_id y = raw_id r)) t = true); [|congruence].
    apply existsb_raw_id. rewrite <- Heq. apply list_elem_of_fmap. eauto.
Qed.

Lemma upsert_ids r t t' : upsert r t = (Ok tt, t') -> NoDup (raw_id <$> t) -> NoDup (raw_id <$> t').
Proof.
  unfold upsert. destruct (account_taken r t); [done|].
  destruct (existsb _ t) eqn:Ex; intros [= <-] Hnd.
  - replace (raw_id <$> ((fun x => if bool_decide (raw_id x = raw_id r) then r else x) <$> t)) with (raw_id <$> t);
      [done|]. rewrite <- list_fmap_compose. apply list_fmap_ext. intros i x _. simpl. by case_bool_decide.
  - rewrite fmap_app. apply NoDup_app. split; [done|]. split; [|apply NoDup_singleton].
    intros i Hi Hr%list_elem_of_singleton. subst i.
    assert (existsb (fun y => bool_decide (raw_id y = raw_id r)) t = true); [|congruence].
    by apply existsb_raw_id.
Qed.

Lemma account_taken_false r t a :
  account_taken r t = false -> raw_account_id r = Some a ->
  forall x, x ∈ t -> raw_account_id x = Some a -> raw_id x = raw_id r.
Proof.
  intros Hf Hr x Hx Hxa. destruct (decide (raw_id x = raw_id r)) as [|Hne]; [done|exfalso].
  assert (account_taken r t = true); [|congruence]. apply existsb_exists.
  exists x. split; [by apply list_elem_of_In|]. rewrite Hr, bool_decide_eq_false_2, bool_decide_eq_true_2 by done.
  done.
Qed.

Lemma omap_replace_NoDup r t :
  NoDup (raw_id <$> t) -> NoDup (omap raw_account_id t) -> account_taken r t = false ->
  NoDup (omap raw_account_id ((fun x => if bool_decide (raw_id x = raw_id r) then r else x) <$> t)).
Proof.
  intros Hi Ha Ht. induction t as [|x t IH]; [done|].
  assert (account_taken r t = false) as Ht' by (by apply orb_false_iff in Ht as [_ ?]).
  rewrite fmap_cons in Hi. apply NoDup_cons in Hi as [Hx Hi].
  assert (NoDup (omap raw_account_id t)) as Ha'.
  { simpl in Ha. destruct (raw_account_id x); [by apply NoDup_cons in Ha as [_ ?]|done]. }
  specialize (IH Hi Ha' Ht'). rewrite fmap_cons. case_bool_decide as Hid.
  - assert ((fun x => if bool_decide (raw_id x = raw_id r) then r else x) <$> t = t) as Hmap.
    { rewrite <- (list_fmap_id t) at 2. apply list_fmap_ext. intros n y Hy. simpl.
      rewrite bool_decide_eq_false_2; [done|]. intros Hy'. apply Hx. rewrite Hid, <- Hy'.
      apply list_elem_of_fmap. exists y. split; [done|]. by eapply list_elem_of_lookup_2. }
    rewrite Hmap in IH |- *. simpl. destruct (raw_account_id r) as [a|] eqn:Er; [|done].
    apply NoDup_cons. split; [|done]. intros (y & Hy & Hya)%list_elem_of_omap. apply Hx.
    rewrite Hid, <- (account_taken_false r t a Ht' Er y Hy Hya). apply list_elem_of_fmap. eauto.
  - simpl. destruct (raw_account_id x) as [a|] eqn:Ex; [|done]. apply NoDup_cons. split; [|done].
    intros (y & (z & -> & Hz)%list_elem_of_fmap & Hya)%list_elem_of_omap.
    case_bool_decide as Hzr.
    + apply Hid. apply (account_taken_false r (x :: t) a Ht Hya x); [by left|done].
    + simpl in Ha. rewrite Ex in Ha. apply NoDup_cons in Ha as [Hn _]. apply Hn.
      apply list_elem_of_omap. eauto.
Qed.

Lemma upsert_accounts r t t' :
  upsert r t = (Ok tt, t') -> NoDup (raw_id <$> t) -> NoDup (omap raw_account_id t) ->
  NoDup (omap raw_account_id t').
Proof.
  unfold upsert. destruct (account_taken r t) eqn:Et; [done|].
  destruct (existsb _ t) eqn:Ex; intros [= <-] Hi Ha; [by apply omap_replace_NoDup|].
  rewrite omap_app. apply NoDup_app. split; [done|]. simpl.
  destruct (raw_account_id r) as [a|] eqn:Er; [|split; [intros ? _ ?%elem_of_nil; done|constructor]].
  split; [|apply NoDup_singleton]. intros a' Hin ->%list_elem_of_singleton.
  apply list_elem_of_omap in Hin as (x & Hx & Hxa).
  pose proof (account_taken_false r t a Et Er x Hx Hxa) as Hid.
  assert (existsb (fun y => bool_decide (raw_id y = raw_id r)) t = true); [|congruence].
  apply existsb_raw_id. rewrite <- Hid. apply list_elem_of_fmap. eauto.
Qed.

(** C28. A record that [save] stored comes back from [get] exactly as it was (the epoch
    through the cast to the signed column and back, any other record untouched), as long as
    the table has one row per id. *)
Theorem save_get_roundtrip tryst w w' :
  typed tryst -> NoDup (raw_id <$> store w) -> forecast w = [] -> save tryst w = (Ok tt, w') ->
  get (id tryst) w' = (Ok (Some tryst), w') /\
  (forall other r, other <> id tryst -> get other w = (r, w) -> get other w' = (r, w')).
Proof using Laws ULaws.
  intros Ht Hnd Hcalm Hsave. destruct w as [t fc]. simpl in Hnd, Hcalm. subst fc.
  unfold save, stmt in Hsave. simpl in Hsave. destruct (upsert (raw_of tryst) t) as [[[]|e|] t'] eqn:E; simplify_eq.
  pose proof (upsert_rows _ _ _ E) as Hrows. pose proof (upsert_ids _ _ _ E Hnd) as Hnd'.
  assert (forall i t0, get i {| store := t0; forecast := [] |} =
    (Ok (head (filter (fun x => raw_id x = uuid_to_string i) t0) ≫= mapped), {| store := t0; forecast := [] |})) as Hget.
  { intros i t0. unfold get, bind, stmt, finish. simpl.
    destruct (head _ ≫= mapped); done. }
  rewrite Hget. split.
  - rewrite (head_filter_unique _ _ (raw_of tryst)).
    + simpl. unfold mapped. by rewrite try_from_raw_of.
    + apply Hrows. by left.
    + done.
    + intros y Hy Hi. apply Hrows in Hy as [?|[_ Hne]]; [done|]. by destruct Hne.
  - intros other r Hne Ho. rewrite Hget in Ho. rewrite Hget. injection Ho as <-. do 2 f_equal.
    f_equal. clear Hnd' Hget Hrows.
    unfold upsert in E. destruct (account_taken _ t); [done|].
    assert (uuid_to_string other <> raw_id (raw_of tryst)) as Hid.
    { simpl. intros Heq. apply Hne. apply (f_equal uuid_from_str) in Heq. rewrite !uuid_from_to_string in Heq. congruence. }
    destruct (existsb _ t); injection E as <-.
    + f_equal. clear Hnd. induction t as [|x t IH]; [done|]. rewrite fmap_cons, !filter_cons, IH.
      simpl in Hid |- *. case_bool_decide as Hx; repeat destruct (decide _); simpl in *; congruence.
    + rewrite filter_app, filter_cons_False by congruence. by rewrite filter_nil, app_nil_r.
Qed.

(** The table keeps one row per id and per account: saving keeps both, and saving a
    record whose account another record has fails and changes nothing. *)
Theorem save_keeps_unique tryst w r w' :
  table_wf (store w) -> forecast w = [] -> save tryst w = (r, w') ->
  table_wf (store w') /\
  ((r = Ok tt /\ raw_of tryst ∈ store w') \/
   (exists other a, other ∈ store w /\ raw_id other <> uuid_to_string (id tryst) /\
      account_id tryst = Some a /\ raw_account_id other = Some (id_to_string a) /\
      r = Err (Sqlx "UNIQUE constraint failed: tryst.account_id") /\ store w' = store w)).
Proof.
  intros [Hi Ha] Hcalm Hsave. destruct w as [t fc]. simpl in Hi, Ha, Hcalm. subst fc.
  unfold save, stmt in Hsave. simpl in Hsave.
  destruct (upsert (raw_of tryst) t) as [o t'] eqn:E. destruct (account_taken (raw_of tryst) t) eqn:Et.
  - unfold upsert in E. rewrite Et in E. simplify_eq. cbn [store]. split; [done|]. right.
    apply existsb_exists in Et as (x & Hx%list_elem_of_In & Hc). apply andb_true_iff in Hc as [Hne Hacc].
    apply negb_true_iff, bool_decide_eq_false in Hne. simpl in Hacc.
    destruct (account_id tryst) as [a|]; [|done]. apply bool_decide_eq_true in Hacc. by exists x, a.
  - assert (o = Ok tt) as -> by (unfold upsert in E; rewrite Et in E; destruct (existsb _ t); by simplify_eq).
    simplify_eq. cbn [store]. pose proof (upsert_rows _ _ _ E) as Hrows.
    split; [|left; split; [done|apply Hrows; by left]]. split; [by eapply upsert_ids|].
    by eapply upsert_accounts.
Qed.

(** *** Reading *)
Lemma try_from_typed row t :
  try_from row = Ok t ->
  typed t /\ uuid_from_str (raw_id row) = Some (id t) /\ account_id t = raw_account_id row ≫= id_from_str.
Proof.
  unfold try_from. destruct (uuid_from_str (raw_id row)) as [i|]; [|done].
  unfold obind. destruct (raw_account_id row) as [sa|]; [destruct (id_from_str sa) as [a|] eqn:Ea; [|done]|];
    unfold to_array_32; case_bool_decide; try done;
    (destruct (raw_previous_secret row) as [p|]; [case_bool_decide; [|done]|]);
    intros [= <-]; unfold typed, secret_ok, i64_as_u64; cbn [id account_id current_secret previous_secret last_updated_epoch secret_bytes];
    rewrite ?bool_decide_eq_true; (split; [split; [done|]; split; [|by apply Z.mod_pos_bound]|split; [done|]]);
    try (by intros ? [= <-]; apply bool_decide_eq_true); simpl; by rewrite ?Ea.
Qed.
Lemma mapped_typed row t :
  mapped row = Some t ->
  typed t /\ uuid_from_str (raw_id row) = Some (id t) /\ account_id t = raw_account_id row ≫= id_from_str.
Proof. unfold mapped. intros Hm. apply try_from_typed. by case_match; simplify_eq. Qed.

(** What a SELECT that succeeds returns is of the table as it then is. *)
Lemma stmt_select {A} (f : Table -> A) w a w' :
  stmt (fun t => (Ok (f t), t)) w = (Ok a, w') -> a = f (store w').
Proof. unfold stmt. destruct (next_weather w) as [wx rest]. destruct (fault wx); [done|]. by intros [= <- <-]. Qed.

Lemma ratchet_all_same ts w : ratchet_all ts w = (Ok ts, w).
Proof.
  revert w. induction ts as [|t ts IH]; intros w; [done|]. cbn [ratchet_all].
  unfold ratchet_and_save_tryst, ratchet_if_needed, bind, ret. by rewrite IH.
Qed.

(** A single row found by a column. *)
Lemma finish_found (P : RawTryst -> Prop) `{!forall x, Decision (P x)} (t : Table) w r w' :
  finish (head (filter P t)) w = (Ok (Some r), w') -> exists row, row ∈ t /\ P row /\ mapped row = Some r.
Proof.
  unfold finish. destruct (filter P t) as [|row rows] eqn:Ef; [done|]. simpl.
  destruct (mapped row) as [x|] eqn:Em; [|done].
  unfold ratchet_and_save_tryst, ratchet_if_needed, bind, ret. intros [= <- <-]. exists row.
  assert (row ∈ filter P t) as Hin by (rewrite Ef; left). apply list_elem_of_filter in Hin as [HP Hin]. done.
Qed.

(** C29. Whatever is in the table, malformed rows and rows of other versions included, what
    comes out is well typed: every record read has 32-byte secrets and an unsigned 64-bit
    epoch, [get] returns only a record with the id asked for, [get_by_account_id] only one
    with that account, and [get_all] returns all rows that can be mapped, in order, and is
    not made to fail by the others. *)
Theorem reads_are_typed w :
  (forall i r w', get i w = (Ok (Some r), w') -> typed r /\ id r = i) /\
  (forall a r w', get_by_account_id a w = (Ok (Some r), w') -> typed r /\ account_id r = Some a) /\
  (forall rs w', get_all w = (Ok rs, w') -> Forall typed rs /\ rs = omap mapped (store w')) /\
  (faultless w -> exists rs w', get_all w = (Ok rs, w')).
Proof using Laws ULaws.
  split_and!.
  - intros i r w' Hg. apply bind_ok_inv in Hg as (row & w1 & Hs & Hf). apply stmt_select in Hs as ->.
    apply finish_found in Hf as (row & _ & Hi & (Ht & Hid & _)%mapped_typed).
    split; [done|]. rewrite Hi, uuid_from_to_string in Hid. by injection Hid.
  - intros a r w' Hg. apply bind_ok_inv in Hg as (row & w1 & Hs & Hf). apply stmt_select in Hs as ->.
    apply finish_found in Hf as (row & _ & Ha & (Ht & _ & Hacc)%mapped_typed).
    split; [done|]. by rewrite Hacc, Ha; simpl; rewrite id_from_to_string.
  - intros rs w' Hg. apply bind_ok_inv in Hg as (rows & w1 & Hs & Hf). apply stmt_select in Hs as ->.
    rewrite ratchet_all_same in Hf. injection Hf as <- <-. split; [|done].
    apply Forall_forall. intros t (row & _ & Hm)%list_elem_of_omap. by apply mapped_typed in Hm as [? _].
  - intros Hf. unfold get_all, bind, stmt, select_all. destruct (next_weather w) as [wx rest] eqn:Enw.
    destruct (next_weather_faultless _ _ _ Hf Enw) as [-> _]. rewrite ratchet_all_same. eauto.
Qed.

(** An invite leads back to the node that made it; anything without the prefix and a
    node id behind it is refused with the one error, whatever it is. *)
Theorem invite_roundtrip public s :
  (exists inv, create_invite_str public = Ok inv /\ receive_invite_str inv = Ok public) /\
  (forall pk, receive_invite_str s = Ok pk -> exists rest, s = INVITE_PREFIX +:+ rest /\ id_from_str rest = Some pk) /\
  ((forall rest, s = INVITE_PREFIX +:+ rest -> id_from_str rest = None) ->
     receive_invite_str s =
       Err (Unexpected "Invalid or unsupported invitation format in this public snapshot.")).
Proof using Laws.
  unfold receive_invite_str. split_and!.
  - eexists. split; [done|]. rewrite strip_prefix_app. simpl. by rewrite id_from_to_string.
  - intros pk. destruct (Schema.strip_prefix INVITE_PREFIX s) as [rest|] eqn:E; [|done]. simpl.
    apply strip_prefix_inv in E. destruct (id_from_str rest) as [a|] eqn:Ea; [|done].
    intros [= <-]. eauto.
  - intros Hbad. destruct (Schema.strip_prefix INVITE_PREFIX s) as [rest|] eqn:E; [|done]. simpl.
    apply strip_prefix_inv in E. by rewrite (Hbad rest E).
Qed.
End TrystFacts.
End TrystRepository.

(** ** discovery.rs: the snapshot's discovery layer, over the repository [Repo] it is given. *)
Module TrystDiscovery.
Section Discovery.
Context {Repo Key Item Data : Type}.

Record Builder := { builder_repo : Repo }.
Record TrystDiscovery := { repo : Repo }.

Definition new (endpoint_sk : Key) (repo : Repo) : Builder := {| builder_repo := repo |}.
Definition ttl (b : Builder) (ttl : Z) : Builder := b.
Definition include_direct_addresses (b : Builder) (include : bool) : Builder := b.
Definition republish_delay (b : Builder) (delay : Z) : Builder := b.
Definition n0_dns_pkarr_relay (b : Builder) : outcome string Builder := Ok b.
Definition build (b : Builder) : outcome anyhow TrystDiscovery := Ok {| repo := builder_repo b |}.

(** Nothing is published, and nothing is ever resolved. *)
Definition publish {W E} (d : TrystDiscovery) (data : Data) : action W E unit := ret tt.
Definition resolve {Id} (d : TrystDiscovery) (endpoint_id : Id) : option (list Item) := None.
End Discovery.
End TrystDiscovery.

Module TrystSamples.
Import Concrete TrystRepository.

Definition secret (b : byte) : EpochSecret := {| secret_bytes := repeat b 32 |}.
Definition sample (i : nat) (account : option nat) : StoredTryst := {|
  id := (i : @Uuid uuids); account_id := (account : option (@EndpointId keys));
  current_secret := secret Byte.x01; previous_secret := Some (secret Byte.x02);
  last_updated_epoch := 2 ^ 64 - 1; is_verified := true |}.

Lemma save_get_roundtrip_witness :
  exists w', save (sample 1 (Some 2)) {| store := []; forecast := [] |} = (Ok tt, w') /\
    get (1 : @Uuid uuids) w' = (Ok (Some (sample 1 (Some 2))), w').
Proof.
  exists {| store := [raw_of (sample 1 (Some 2))]; forecast := [] |}. split; [by vm_compute|].
  refine (proj1 (save_get_roundtrip (sample 1 (Some 2)) {| store := []; forecast := [] |} _ _ _ _ _)).
  - split; [done|]. split; [by intros s [= <-]|]. simpl. lia.
  - constructor.
  - done.
  - by vm_compute.
Defined.

Lemma save_keeps_unique_witness :
  let w := {| store := [raw_of (sample 1 (Some 2))]; forecast := [] |} in
  exists w', save (sample 3 (Some 2)) w = (Err (Sqlx "UNIQUE constraint failed: tryst.account_id"), w') /\
    table_wf (store w').
Proof.
  intros w. exists w. split; [by vm_compute|].
  apply (save_keeps_unique (sample 3 (Some 2)) w (Err (Sqlx "UNIQUE constraint failed: tryst.account_id"))).
  - split; repeat constructor; by intros ?%elem_of_nil.
  - done.
  - by vm_compute.
Defined.

Lemma reads_are_typed_witness :
  let bad := {| raw_id := "?"; raw_account_id := None; raw_current_secret := []; raw_previous_secret := None;
                raw_last_updated_epoch := -1; raw_is_verified := false |} in
  let w := {| store := [bad; raw_of (sample 1 (Some 2))]; forecast := [] |} in
  exists rs w', get_all w = (Ok rs, w') /\ length rs = 1 /\ Forall typed rs.
Proof.
  intros bad w. destruct (reads_are_typed w) as (_ & _ & Hall & Htotal).
  destruct Htotal as (rs & w' & E); [constructor|]. exists rs, w'. split; [done|].
  assert (length rs = 1) as Hlen.
  { assert (get_all w = (Ok [sample 1 (Some 2)], w)) as E' by (vm_compute; reflexivity).
    rewrite E in E'. by injection E' as -> _. }
  split; [done|]. by apply (Hall rs w').
Defined.

Lemma invite_roundtrip_witness :
  exists inv, create_invite_str (2 : @EndpointId keys) = Ok inv /\ receive_invite_str inv = Ok (2 : @EndpointId keys).
Proof. apply (invite_roundtrip (2 : @EndpointId keys) ""). Defined.
End TrystSamples.
