(* ===== verification/Handler.v ===== *)
(** The chat protocol's connection actor (src/src/protocols/chat/protocol_handler.rs): the
    handshake that turns an iroh connection into a [ChatConnectionHandle], the actor that
    serves dial and accept requests one by one, and the close codes. *)
From S2P Require Import Prelude External Wire Connection Errors.
From stdpp Require Import base strings list.
From Stdlib Require Import ZArith Lia Strings.Byte.
Open Scope tryst_scope.

Definition bytes_of_string (s : string) : bytes := String.list_byte_of_string s.

Definition OPEN_MESSAGE : bytes := bytes_of_string "OPEN_MESSAGE".

(** ** Close codes *)
Inductive ConnectionCloseReason :=
| Normal
| InvalidOpenMessage
| StreamReadFailed
| StreamWriteFailed.

#[export] Instance ConnectionCloseReason_eq_dec : EqDecision ConnectionCloseReason.
Proof. solve_decision. Defined.

(** The code is a [VarInt]. *)
Definition to_code_reason (r : ConnectionCloseReason) : Z * string :=
  match r with
  | Normal => (0, "Normal closure")
  | InvalidOpenMessage => (1001, "Invalid or unexpected open message received")
  | StreamReadFailed => (1002, "Stream read operation failed")
  | StreamWriteFailed => (1003, "Stream write operation failed")
  end%Z.

(** [impl TryFrom<VarInt> for ConnectionCloseReason]; the error carries the code. *)
Definition try_from (value : Z) : outcome Z ConnectionCloseReason :=
  if (value =? 0)%Z then Ok Normal
  else if (value =? 1001)%Z then Ok InvalidOpenMessage
  else if (value =? 1002)%Z then Ok StreamReadFailed
  else if (value =? 1003)%Z then Ok StreamWriteFailed
  else Err value.

Module ChatProtocol.
Section Protocol.
Context {Ids : EndpointIds} {Us : Uuids} {R : Type} {AR : AsyncRead R}.

(** An iroh connection and what its awaits return; [None] where the call does not return,
    and [greets] is whether [read_exact] does: the peer sent enough, or ended the stream. *)
Record Conn := {
  conn : Connection;
  accept_bi : option (string + Writer * R);
  open_bi : option (string + Writer * R);
  greets : bool;
}.

Inductive ConnectionRequest :=
| Accept (conn : Conn)
| Dial (endpoint_id : EndpointId) (respond_to : nat).

(** The two stream tasks and the supervisor of one connection. *)
Record Tasks := { t_conn : Connection; t_send : Writer; t_recv : R; t_token : nat; t_tx : nat; t_rx : nat }.

(** What the actor has done: the connections it closed with their codes, the tasks it
    spawned, what it sent on [accept_tx] and on the oneshots of dials. [fresh] numbers
    tokens and channels. *)
Record Actor := {
  closed : list (Connection * (Z * string));
  tasks : list Tasks;
  accept_tx : list (outcome anyhow ChatConnectionHandle);
  dial_replies : list (nat * outcome LibError ChatConnectionHandle);
  fresh : nat;
}.

Definition close (c : Connection) (reason : ConnectionCloseReason) (a : Actor) : Actor :=
  {| closed := closed a ++ [(c, to_code_reason reason)]; tasks := tasks a; accept_tx := accept_tx a;
     dial_replies := dial_replies a; fresh := fresh a |}.
Definition spawn (t : Tasks) (a : Actor) : Actor :=
  {| closed := closed a; tasks := tasks a ++ [t]; accept_tx := accept_tx a;
     dial_replies := dial_replies a; fresh := S (fresh a) |}.
Definition send_accepted (r : outcome anyhow ChatConnectionHandle) (a : Actor) : Actor :=
  {| closed := closed a; tasks := tasks a; accept_tx := accept_tx a ++ [r];
     dial_replies := dial_replies a; fresh := fresh a |}.
Definition reply_dial (tx : nat) (r : outcome LibError ChatConnectionHandle) (a : Actor) : Actor :=
  {| closed := closed a; tasks := tasks a; accept_tx := accept_tx a;
     dial_replies := dial_replies a ++ [(tx, r)]; fresh := fresh a |}.

(** The environment of one turn: the fresh handle id, what [connect] returns, and whether
    the other ends of the channels are there ([accept_open]) and take more ([accept_room]). *)
Record Env := {
  new_uuid : Uuid;
  connect : EndpointId -> option (string + Conn);
  accept_open : bool;
  accept_room : bool;
  reply_open : nat -> bool;
}.

(** [.await?] of a call that may not return. *)
Definition await {W A} (r : option (string + A)) : action W (stop anyhow) A :=
  match r with
  | None => throw Pending
  | Some (inl err) => throw (Failed err)
  | Some (inr a) => ret a
  end.

Definition process_established_connection (env : Env) (c : Conn) (conn_origin : ConnOrigin) :
    action Actor (stop anyhow) ChatConnectionHandle :=
  streams <-
    match conn_origin with
    | Connection.Accept =>
        streams <- await (accept_bi c) ;;
        let '(send, recv) := streams in
        if negb (greets c) then throw Pending
        else match read_exact (length OPEN_MESSAGE) recv with
             | (Ok buf, recv') =>
                 if bool_decide (buf <> OPEN_MESSAGE) then
                   modify (close (conn c) InvalidOpenMessage) ;;;
                   throw (Failed "Received invalid OPEN_MESSAGE while ACCEPTING connection.")
                 else ret (send, recv')
             | (_, _) =>
                 modify (close (conn c) StreamReadFailed) ;;;
                 throw (Failed "Failed to read open message while ACCEPTING connection.")
             end
    | Connection.Dial =>
        streams <- await (open_bi c) ;;
        let '(send, recv) := streams in
        match write_all OPEN_MESSAGE send with
        | (Ok _, send') => ret (send', recv)
        | (_, _) =>
            modify (close (conn c) StreamWriteFailed) ;;;
            throw (Failed "Failed to send OPEN_MESSAGE while DIAL other peer.")
        end
    end ;;
  n <- gets fresh ;;
  modify (spawn {| t_conn := conn c; t_send := streams.1; t_recv := streams.2;
                   t_token := n; t_tx := n; t_rx := n |}) ;;;
  ret {| handle_id := new_uuid env; origin := conn_origin; connection := conn c;
         tx := n; rx := n; cancel_token := n |}.

Definition dial_endpoint (env : Env) (endpoint_id : EndpointId) :
    action Actor (stop LibError) ChatConnectionHandle :=
  match connect env endpoint_id with
  | None => throw Pending
  | Some (inr c) =>
      result <- attempt (process_established_connection env c Connection.Dial) ;;
      lift (map_err (Failed ∘ lib_of_anyhow) result)
  | Some (inl err) => throw (Failed (PeerConnection err))
  end.

(** What the supervisor task of a connection wakes up to; it closes the connection with
    [Normal] in every case. *)
Inductive Ended :=
| Cancelled
| LocallyClosed
| ApplicationClosed (error_code : Z)
| ConnectionLost
| RecvDone
| SendDone.

Definition supervise (e : Ended) : option (outcome Z ConnectionCloseReason) * ConnectionCloseReason :=
  (match e with ApplicationClosed error_code => Some (try_from error_code) | _ => None end, Normal).

(** *** The actor's loop *)
Record Ready := { cancelled : bool; request_rx : option (option ConnectionRequest) }.

Inductive control := Continue | Stop.

Definition turn (env : Env) (rdy : Ready) : action Actor (stop anyhow) control :=
  if cancelled rdy then ret Stop
  else match request_rx rdy with
       | None => ret Continue
       | Some None => throw (Failed "ChatProtocolActor: Connection request channel is closed. Shutting down.")
       | Some (Some (Accept c)) =>
           result <- attempt (process_established_connection env c Connection.Accept) ;;
           if negb (accept_open env) then
             throw (Failed "ChatProtocolActor: Failed to send Accepted connection. Channel is closed.")
           else if negb (accept_room env) then throw Pending
           else modify (send_accepted result) ;;; ret Continue
       | Some (Some (Dial endpoint_id respond_to)) =>
           result <- attempt (dial_endpoint env endpoint_id) ;;
           if reply_open env respond_to then modify (reply_dial respond_to result) ;;; ret Continue
           else ret Continue
       end.

Fixpoint run (ts : list (Env * Ready)) : action Actor (stop anyhow) control :=
  match ts with
  | [] => ret Continue
  | (env, rdy) :: ts' =>
      c <- turn env rdy ;;
      match c with Stop => ret Stop | Continue => run ts' end
  end.

(** *** [ChatProtocol] *)

(** [ChatProtocol::accept]: the router hands an incoming connection to the actor's channel,
    if the actor is still there. *)
Definition accept (actor_alive : bool) (c : Conn) : action (list ConnectionRequest) unit unit := fun queue =>
  if actor_alive then (Ok tt, queue ++ [Accept c]) else (Err tt, queue).

(** [accept_conn]: the [select!] is not biased, so when the token is cancelled and a
    connection is there either may win ([token_first]). *)
Definition accept_conn (token_cancelled token_first : bool)
    (conn_result : option (option (outcome anyhow ChatConnectionHandle))) :
    outcome (stop LibError) ChatConnectionHandle :=
  if token_cancelled && (token_first || bool_decide (conn_result = None)) then
    Err (Failed (lib_of_anyhow "Chat protocol accept connnection request was cancelled."))
  else match conn_result with
       | None => Err Pending
       | Some None => Err (Failed (lib_of_anyhow "Failed to receive chat connection. Channel is closed."))
       | Some (Some r) => map_err (Failed ∘ lib_of_anyhow) r
       end.

(** The fields of [ChatProtocol]'s [Inner]: the actor's task with its join handle, and what
    is queued for it. *)
Record Inner := {
  actor : Actor;
  request_queue : list ConnectionRequest;
  actor_join_handle : bool;
  token_cancelled : bool;
}.

(** [ChatProtocol::new]: the actor's task is spawned. *)
Definition new : Inner := {|
  actor := {| closed := []; tasks := []; accept_tx := []; dial_replies := []; fresh := 0 |};
  request_queue := []; actor_join_handle := true; token_cancelled := false |}.

Definition cancel_inner (p : Inner) : Inner :=
  {| actor := actor p; request_queue := request_queue p; actor_join_handle := actor_join_handle p;
     token_cancelled := true |}.
Definition take_join_handle (p : Inner) : Inner :=
  {| actor := actor p; request_queue := request_queue p; actor_join_handle := false;
     token_cancelled := token_cancelled p |}.
Definition set_actor (a : Actor) (p : Inner) : Inner :=
  {| actor := a; request_queue := request_queue p; actor_join_handle := actor_join_handle p;
     token_cancelled := token_cancelled p |}.

(** [handle.await] on the actor's task once the token is cancelled: it finishes the turn it
    is in ([busy]), if any, and finds the token cancelled at the next. *)
Definition join (env : Env) (busy : option (Env * Ready)) : action Inner (stop Empty_set) unit := fun p =>
  let '(r, a) := run (option_list busy ++ [(env, {| cancelled := true; request_rx := None |})]) (actor p) in
  (match r with Err Pending => Err Pending | _ => Ok tt end, set_actor a p).

Definition shutdown (env : Env) (busy : option (Env * Ready)) : action Inner (stop Empty_set) unit :=
  modify cancel_inner ;;;
  handle <- gets actor_join_handle ;;
  modify take_join_handle ;;;
  if (handle : bool) then join env busy else ret tt.

(** [sender]: a request on the actor's channel. *)
Definition send_request (r : ConnectionRequest) (p : Inner) : Inner :=
  {| actor := actor p; request_queue := request_queue p ++ [r]; actor_join_handle := actor_join_handle p;
     token_cancelled := token_cancelled p |}.
End Protocol.

(** ** What a handshake comes to *)
Section Handshake.
Context {Ids : EndpointIds} {Us : Uuids} {R : Type} {AR : AsyncRead R}.

Inductive verdict :=
| Waits
| Refused (reason : option ConnectionCloseReason)
| Established.

Definition verdict_of (c : Conn) (o : ConnOrigin) : verdict :=
  match o with
  | Connection.Accept =>
      match accept_bi c with
      | None => Waits
      | Some (inl _) => Refused None
      | Some (inr (_, recv)) =>
          if negb (greets c) then Waits
          else if bool_decide (length (stream recv) < 12) then Refused (Some StreamReadFailed)
          else if bool_decide (take 12 (stream recv) = OPEN_MESSAGE) then Established
          else Refused (Some InvalidOpenMessage)
      end
  | Connection.Dial =>
      match open_bi c with
      | None => Waits
      | Some (inl _) => Refused None
      | Some (inr (send, _)) =>
          match write_results send with Some _ :: _ => Refused (Some StreamWriteFailed) | _ => Established end
      end
  end.

(** The streams the tasks of an established connection start with. *)
Definition streams_ready (c : Conn) (o : ConnOrigin) (t : Tasks) : Prop :=
  match o with
  | Connection.Accept => exists send recv, accept_bi c = Some (inr (send, recv)) /\ t_send t = send /\
      stream (t_recv t) = drop 12 (stream recv) /\ at_eof (t_recv t) = at_eof recv
  | Connection.Dial => exists send recv, open_bi c = Some (inr (send, recv)) /\ t_recv t = recv /\
      written (t_send t) = written send ++ OPEN_MESSAGE /\ write_results (t_send t) = tail (write_results send)
  end.

Lemma close_reason_read_back r : try_from (to_code_reason r).1 = Ok r.
Proof. by destruct r. Qed.

Context {ARL : AsyncReadLaws R}.

(** A read of more than the stream has fails, whatever its end. *)
Lemma read_exact_loop_fails fuel n (r : R) :
  n <= fuel -> length (stream r) < n -> exists e r', read_exact_loop fuel n r = (Err e, r').
Proof using ARL.
  revert n r. induction fuel as [|fuel IH]; intros n r Hf Hn; [lia|].
  destruct n as [|n]; [lia|]. cbn [read_exact_loop]. destruct (decide (stream r = [])) as [Hnil|Hne].
  - destruct (at_eof r) eqn:He.
    + destruct (poll_read_end r (S n)) as (r1 & Hp & _); [lia|done..|]. erewrite bind_ok by exact Hp. by eexists _, _.
    + destruct (poll_read_broken r (S n)) as (e & r1 & Hp); [lia|done..|]. erewrite bind_err by exact Hp. by eexists _, _.
  - destruct (poll_read_some r (S n)) as (bs & r1 & Hp & Hbs & Hle & Hs & _); [lia|done|].
    erewrite bind_ok by exact Hp. destruct bs as [|b bs]; [done|]. rewrite Hs, length_app in Hn.
    destruct (IH (S n - length (b :: bs)) r1) as (e & r2 & Hr2); [simpl in *; lia|lia|].
    erewrite bind_err by exact Hr2. by eexists _, _.
Qed.

Lemma process_spec env c o a :
  exists r a', process_established_connection env c o a = (r, a') /\
    match verdict_of c o with
    | Waits => r = Err Pending /\ a' = a
    | Refused reason => (exists e, r = Err (Failed e)) /\ tasks a' = tasks a /\
        exists codes, closed a' = closed a ++ codes /\ codes.*1 = (fun _ => conn c) <$> codes /\
          (fun x => try_from x.2.1) <$> codes = Ok <$> option_list reason
    | Established => exists h t, r = Ok h /\ handle_id h = new_uuid env /\ origin h = o /\
        connection h = conn c /\ closed a' = closed a /\ tasks a' = tasks a ++ [t] /\ t_conn t = conn c /\
        t_token t = cancel_token h /\ t_tx t = tx h /\ t_rx t = rx h /\ streams_ready c o t
    end.
Proof using ARL.
  unfold process_established_connection, verdict_of. destruct o.
  - destruct (accept_bi c) as [[e|[send recv]]|] eqn:Ea; simpl await; [|destruct (greets c); simpl negb; cbv iota|].
    + do 2 eexists. split; [done|]. split; [by eexists|]. split; [done|]. exists []. by rewrite app_nil_r.
    + case_bool_decide as Hlen.
      { destruct (read_exact_loop_fails 12 12 recv (le_n 12) Hlen) as (e & r' & Er).
        do 2 eexists. split; [unfold bind, ret; change (length OPEN_MESSAGE) with 12; unfold read_exact; rewrite Er; done|].
        split; [by eexists|]. split; [done|]. by eexists. }
      destruct (read_exact_loop_ok 12 12 recv) as (r' & Er & Hs & He); [done|lia|].
      case_bool_decide as Hb.
      * do 2 eexists. split.
        { unfold bind, ret. change (length OPEN_MESSAGE) with 12. unfold read_exact. rewrite Er.
          rewrite bool_decide_eq_false_2 by (intros Hn; by apply Hn). done. }
        do 2 eexists. do 10 (split; [done|]). by exists send, recv.
      * do 2 eexists. split.
        { unfold bind, ret. change (length OPEN_MESSAGE) with 12. unfold read_exact. rewrite Er.
          rewrite bool_decide_eq_true_2 by done. done. }
        split; [by eexists|]. split; [done|]. by eexists.
    + by do 2 eexists.
    + by do 2 eexists.
  - destruct (open_bi c) as [[e|[send recv]]|] eqn:Eo; simpl await.
    + do 2 eexists. split; [done|]. split; [by eexists|]. split; [done|]. exists []. by rewrite app_nil_r.
    + unfold bind at 1 2, ret at 1, write_all. destruct (write_results send) as [|[e|] rs] eqn:Ew.
      * do 2 eexists. split; [done|]. do 2 eexists. do 10 (split; [done|]). exists send, recv. by rewrite Ew.
      * do 2 eexists. split; [done|]. split; [by eexists|]. split; [done|]. by eexists.
      * do 2 eexists. split; [done|]. do 2 eexists. do 10 (split; [done|]). exists send, recv. by rewrite Ew.
    + by do 2 eexists.
Qed.

Lemma process_accept_tx env c o a : accept_tx (process_established_connection env c o a).2 = accept_tx a.
Proof.
  unfold process_established_connection, bind, await, gets, ret, modify, throw. destruct o.
  - destruct (accept_bi c) as [[e|[send recv]]|]; [done| |done]. destruct (greets c); [|done]. simpl negb. cbv iota.
    destruct (read_exact _ recv) as [[buf|e|] recv']; [|done..]. by destruct (bool_decide _).
  - destruct (open_bi c) as [[e|[send recv]]|]; [done| |done]. by destruct (write_all OPEN_MESSAGE send) as [[[]|e|] send'].
Qed.

(** C27. What becomes of a connection, on every branch of both roles: it is established
    exactly when the first bytes are (or could be written as) [OPEN_MESSAGE], and then the
    tasks start right behind those bytes and the handle carries the token they listen to; it
    is refused with a close code the other side reads back as the same reason, without any
    task; or the call waits. A dial passes the result on, its error as [Unexpected]. *)
Theorem handshake_cases env c o a :
  exists r a', process_established_connection env c o a = (r, a') /\
    match verdict_of c o with
    | Waits => r = Err Pending /\ a' = a
    | Refused reason => (exists e, r = Err (Failed e)) /\ tasks a' = tasks a /\
        exists codes, closed a' = closed a ++ codes /\ codes.*1 = (fun _ => conn c) <$> codes /\
          (fun x => try_from x.2.1) <$> codes = Ok <$> option_list reason
    | Established => exists h t, r = Ok h /\ handle_id h = new_uuid env /\ origin h = o /\
        connection h = conn c /\ closed a' = closed a /\ tasks a' = tasks a ++ [t] /\ t_conn t = conn c /\
        t_token t = cancel_token h /\ t_tx t = tx h /\ t_rx t = rx h /\ streams_ready c o t
    end /\
    forall peer, connect env peer = Some (inr c) -> o = Connection.Dial ->
      dial_endpoint env peer a =
        (match r with
         | Ok h => Ok h
         | Err (Failed e) => Err (Failed (Unexpected e))
         | Err Pending => Err Pending
         | Panic => Panic
         end, a').
Proof using ARL.
  destruct (process_spec env c o a) as (r & a' & E & H). exists r, a'. split; [done|]. split; [done|].
  intros peer Hp ->. unfold dial_endpoint, attempt, bind. rewrite Hp, E. by destruct r as [h|[e|]|].
Qed.

(** C9. Two peers end to end: the dialer's handshake and send task, the accepter's handshake
    and receive task. When the accepter gets, in any pieces, the bytes the dialer wrote, it
    establishes the connection too and its receive task delivers exactly the messages that
    were sent; the two handles have opposite origins. *)
Theorem dialed_messages_arrive {P : Postcard} {PL : PostcardLaws P} env1 env2 c1 c2 a1 a2 send1 recv1 send2 msgs fuel :
  open_bi c1 = Some (inr (send1, recv1)) -> written send1 = [] -> write_results send1 = [] ->
  Forall (fits DEFAULT_MAX_MESSAGE_SIZE) msgs -> length msgs < fuel ->
  exists h1 a1' t1 s1, process_established_connection env1 c1 Connection.Dial a1 = (Ok h1, a1') /\
    tasks a1' = tasks a1 ++ [t1] /\
    send_task msgs DEFAULT_MAX_MESSAGE_SIZE {| writer := t_send t1; send_buf := [] |} = (Ok tt, s1) /\
    forall recv2, accept_bi c2 = Some (inr (send2, recv2)) -> greets c2 = true ->
      stream recv2 = written (writer s1) -> at_eof recv2 = true ->
      exists h2 a2' t2 t', process_established_connection env2 c2 Connection.Accept a2 = (Ok h2, a2') /\
        tasks a2' = tasks a2 ++ [t2] /\ origin h1 = Connection.Dial /\ origin h2 = Connection.Accept /\
        recv_task fuel DEFAULT_MAX_MESSAGE_SIZE (new_recv_task (t_recv t2)) = (Ok true, t') /\ delivered t' = msgs.
Proof using ARL.
  intros Ho Hw1 Hr1 Hf Hfuel.
  destruct (process_spec env1 c1 Connection.Dial a1) as (r1 & a1' & E1 & H1).
  unfold verdict_of in H1. rewrite Ho, Hr1 in H1.
  destruct H1 as (h1 & t1 & -> & _ & Ho1 & _ & _ & Ht1 & _ & _ & _ & _ & send & recv & Ho' & _ & Hw & Hr).
  rewrite Ho in Ho'. injection Ho' as <- <-. rewrite Hw1 in Hw. rewrite Hr1 in Hr. simpl in Hw, Hr.
  destruct (send_task_ok DEFAULT_MAX_MESSAGE_SIZE msgs {| writer := t_send t1; send_buf := [] |})
    as (s1 & Es & Hs & _); [done..|].
  exists h1, a1', t1, s1. do 3 (split; [done|]). intros recv2 Ha Hg Hst He.
  cbn [writer] in Hs. rewrite Hs, Hw in Hst.
  destruct (process_spec env2 c2 Connection.Accept a2) as (r2 & a2' & E2 & H2).
  unfold verdict_of in H2. rewrite Ha, Hg in H2. cbn [negb] in H2.
  rewrite bool_decide_eq_false_2 in H2 by (rewrite Hst, length_app; simpl; lia).
  rewrite bool_decide_eq_true_2 in H2 by (rewrite Hst; by rewrite take_app_length').
  destruct H2 as (h2 & t2 & -> & _ & Ho2 & _ & _ & Ht2 & _ & _ & _ & _ & send & recv & Ha' & _ & Hst2 & He2).
  rewrite Ha in Ha'. injection Ha' as <- <-. rewrite Hst, drop_app_length' in Hst2 by done.
  destruct (recv_task_all DEFAULT_MAX_MESSAGE_SIZE msgs (t_recv t2) fuel) as (t' & Et & Hd); [done..|congruence|done|].
  by exists h2, a2', t2, t'.
Qed.

Lemma run_stalled env c ts a :
  verdict_of c Connection.Accept = Waits ->
  run ((env, {| cancelled := false; request_rx := Some (Some (Accept c)) |}) :: ts) a = (Err Pending, a).
Proof using ARL.
  intros Hv. destruct (process_spec env c Connection.Accept a) as (r & a1 & E & H). rewrite Hv in H.
  destruct H as [-> ->]. cbn [run]. unfold turn, attempt. cbn. unfold bind. by rewrite E.
Qed.

(** The actor serves one connection at a time and waits inside the handshake: a peer
    that connects and then neither opens a stream nor sends its first bytes keeps it from
    everything else, later requests, dials and its own cancellation included; a peer whose
    handshake ends, with whatever result, does not. *)
Theorem silent_peer_blocks_actor env c ts a :
  let accepting := (env, {| cancelled := false; request_rx := Some (Some (Accept c)) |}) in
  (verdict_of c Connection.Accept = Waits -> run (accepting :: ts) a = (Err Pending, a)) /\
  (verdict_of c Connection.Accept <> Waits -> accept_open env = true -> accept_room env = true ->
     exists a' r, run (accepting :: ts) a = run ts a' /\ accept_tx a' = accept_tx a ++ [r] /\
       (is_ok r = true <-> verdict_of c Connection.Accept = Established)).
Proof using ARL.
  intros accepting. split; [by apply run_stalled|].
  destruct (process_spec env c Connection.Accept a) as (r & a1 & E & H).
  unfold accepting. cbn [run]. intros Hv Ho Hr.
  assert (exists o, attempt (E' := anyhow) (process_established_connection env c Connection.Accept) a = (Ok o, a1) /\
    accept_tx a1 = accept_tx a /\ (is_ok o = true <-> verdict_of c Connection.Accept = Established)) as (o & Ea & Htx & Hok).
  { unfold attempt. rewrite E. pose proof (process_accept_tx env c Connection.Accept a) as Htx. rewrite E in Htx.
    destruct (verdict_of c Connection.Accept); [done| |].
    - destruct H as [[e ->] _]. by exists (Err e).
    - destruct H as (h & t & -> & _). by exists (Ok h). }
  exists (send_accepted o a1), o. split.
  { unfold turn. cbn. rewrite bind_bind. rewrite (bind_ok _ _ _ _ _ Ea), Ho, Hr. done. }
  split; [|done]. simpl. by rewrite Htx.
Qed.

(** A turn in which the actor waits for a silent peer. *)
Definition stalled (busy : option (Env (R := R) * Ready (R := R))) : Prop :=
  match busy with
  | Some (_, {| cancelled := false; request_rx := Some (Some (Accept c)) |}) => verdict_of c Connection.Accept = Waits
  | _ => False
  end.

(** The actor's task ends after the cancellation unless it is stuck in a handshake. *)
Lemma shutdown_joins env busy p :
  (stalled busy -> actor_join_handle p = true -> (shutdown env busy p).1 = Err Pending) /\
  (busy = None -> shutdown env busy p = (Ok tt, take_join_handle (cancel_inner p))) /\
  (actor_join_handle p = false -> shutdown env busy p = (Ok tt, take_join_handle (cancel_inner p))).
Proof using ARL.
  split_and!.
  - destruct busy as [[env' [[] [[[c|]|]|]]]|]; try done. intros Hv Hh.
    unfold shutdown, modify, gets, bind. cbn [actor_join_handle cancel_inner]. rewrite Hh. unfold join.
    cbn [stalled] in Hv. assert (forall x : Env (R := R) * Ready (R := R), option_list (Some x) = [x]) as Ho by done.
    rewrite Ho. cbn [app]. by rewrite run_stalled.
  - intros ->. unfold shutdown, modify, gets, bind. cbn. by destruct p as [a q [] t].
  - intros Hh. unfold shutdown, modify, gets, bind. cbn. by rewrite Hh.
Qed.
End Handshake.
End ChatProtocol.

Module ChatProtocolSamples.
Import Concrete ConcreteWire WireSamples ChatProtocol.

Definition fresh_actor : Actor (R := Segments) (Ids := keys) (Us := uuids) :=
  {| closed := []; tasks := []; accept_tx := []; dial_replies := []; fresh := 0 |}.
Definition no_writes : Writer := {| written := []; write_results := [] |}.

(** A connection to node [peer] over which [sent] arrives in pieces. *)
Definition conn_with (peer : nat) (sent : bytes) (greets : bool) : Conn (R := Segments) := {|
  conn := {| conn_id := 0; conn_remote_id := (peer : @EndpointId keys) |};
  accept_bi := Some (inr (no_writes, cut sent));
  open_bi := Some (inr (no_writes, cut []));
  greets := greets;
|}.
Definition env_of (peer : nat) : Env (R := Segments) (Ids := keys) (Us := uuids) := {|
  new_uuid := (5 : @Uuid uuids);
  connect := fun _ => Some (inr (conn_with peer [] true));
  accept_open := true; accept_room := true; reply_open := fun _ => true;
|}.

(** A peer that starts with something else is told so. *)
Lemma handshake_cases_witness :
  exists r a', process_established_connection (env_of 1) (conn_with 1 (bytes_of_string "HELLO_MESSAGE") true)
      Connection.Accept fresh_actor = (r, a') /\
    (exists e, r = Err (Failed e)) /\ (fun x => try_from x.2.1) <$> closed a' = [Ok InvalidOpenMessage].
Proof.
  destruct (handshake_cases (env_of 1) (conn_with 1 (bytes_of_string "HELLO_MESSAGE") true)
    Connection.Accept fresh_actor) as (r & a' & E & H & _).
  exists r, a'. split; [exact E|].
  assert (verdict_of (conn_with 1 (bytes_of_string "HELLO_MESSAGE") true) Connection.Accept =
    Refused (Some InvalidOpenMessage)) as Hv by (by vm_compute).
  rewrite Hv in H. destruct H as (He & _ & codes & Hc & _ & Hr). split; [exact He|]. rewrite Hc. exact Hr.
Defined.

Lemma dialed_messages_arrive_witness :
  exists h1 a1' (t1 : Tasks (R := Segments)) s1, process_established_connection (env_of 2) (conn_with 2 [] true) Connection.Dial fresh_actor = (Ok h1, a1') /\
    send_task [hello; done_msg] DEFAULT_MAX_MESSAGE_SIZE {| writer := t_send t1; send_buf := [] |} = (Ok tt, s1) /\
    exists h2 a2' (t2 : Tasks (R := Segments)) t', process_established_connection (env_of 1) (conn_with 1 (written (writer s1)) true)
        Connection.Accept fresh_actor = (Ok h2, a2') /\ tasks a2' = [t2] /\
      recv_task 3 DEFAULT_MAX_MESSAGE_SIZE (new_recv_task (t_recv t2)) = (Ok true, t') /\
      delivered t' = [hello; done_msg].
Proof.
  set (sent := OPEN_MESSAGE ++ concat (frame <$> [hello; done_msg])).
  destruct (dialed_messages_arrive (env_of 2) (env_of 1) (conn_with 2 [] true) (conn_with 1 sent true)
    fresh_actor fresh_actor no_writes (cut []) no_writes [hello; done_msg] 3)
    as (h1 & a1' & t1 & s1 & E1 & Et & Es & H).
  - done.
  - done.
  - done.
  - repeat constructor.
  - simpl. lia.
  - assert (written (writer s1) = sent) as Hs.
    { vm_compute in E1. injection E1 as _ <-. vm_compute in Et. injection Et as <-.
      vm_compute in Es. injection Es as <-. by vm_compute. }
    exists h1, a1', t1, s1. split; [exact E1|]. split; [exact Es|]. rewrite Hs.
    destruct (H (cut sent)) as (h2 & a2' & t2 & t' & E2 & Et2 & _ & _ & Er & Hd).
    + done.
    + done.
    + rewrite Hs. by vm_compute.
    + done.
    + exists h2, a2', t2, t'. done.
Defined.

Lemma silent_peer_blocks_actor_witness :
  run [(env_of 1, {| cancelled := false; request_rx := Some (Some (Accept (conn_with 1 [] false))) |});
       (env_of 1, {| cancelled := true; request_rx := None |})] fresh_actor = (Err Pending, fresh_actor).
Proof.
  apply (silent_peer_blocks_actor (env_of 1) (conn_with 1 [] false)
    [(env_of 1, {| cancelled := true; request_rx := None |})] fresh_actor). done.
Defined.
End ChatProtocolSamples.
