(* ===== verification/App.v ===== *)
(** The application (src/src/app.rs): [AppActor], which keeps one chat manager per chat and
    hands accepted connections to it, and the calls of [Application] that go through it. *)
From S2P Require Import Prelude External Wire Errors ChatTypes Database Automerge Schema Repository Connection Peers Manager Tryst.
From stdpp Require Import base gmap strings list.
From Stdlib Require Import ZArith Lia.
Open Scope tryst_scope.

Module AppActor.
Section App.
Context {Ids : EndpointIds} {Us : Uuids} {OI : ObjIds} {AM : Automerges}.

(** A manager as the rest of the application sees it: the actor that was started, what its
    connection started, and its channel [in_tx]. *)
Record Managed := {
  m_chat_id : ChatId;
  m_actor : ChatManager.Actor;
  m_effects : list ChatConnection.effect;
  in_open : bool;
  inbox : list ChatManager.InMessage;
}.

(** The fields of [AppActor]. A [ChatManager] value is a clone of an [Arc], here a position
    in [managers]. [passing] are the tasks spawned to pass a handle on, [dropped] the
    handles nobody holds any more, [replies] what was sent on the oneshot channels. *)
Record App := {
  public_key : EndpointId;
  db_pool : World Db;
  chat_managers : gmap ChatId nat;
  managers : list Managed;
  passing : list (nat * ChatConnectionHandle);
  dropped : list ChatConnectionHandle;
  replies : list (nat * outcome LibError nat);
  pool_open : bool;
}.

Definition set_db_pool (p : World Db) (a : App) : App :=
  {| public_key := public_key a; db_pool := p; chat_managers := chat_managers a; managers := managers a;
     passing := passing a; dropped := dropped a; replies := replies a; pool_open := pool_open a |}.
Definition set_managers (ms : list Managed) (a : App) : App :=
  {| public_key := public_key a; db_pool := db_pool a; chat_managers := chat_managers a; managers := ms;
     passing := passing a; dropped := dropped a; replies := replies a; pool_open := pool_open a |}.
Definition add_passing (m : nat) (h : ChatConnectionHandle) (a : App) : App :=
  {| public_key := public_key a; db_pool := db_pool a; chat_managers := chat_managers a; managers := managers a;
     passing := passing a ++ [(m, h)]; dropped := dropped a; replies := replies a; pool_open := pool_open a |}.
Definition drop_handle (h : ChatConnectionHandle) (a : App) : App :=
  {| public_key := public_key a; db_pool := db_pool a; chat_managers := chat_managers a; managers := managers a;
     passing := passing a; dropped := dropped a ++ [h]; replies := replies a; pool_open := pool_open a |}.
Definition add_reply (tx : nat) (r : outcome LibError nat) (a : App) : App :=
  {| public_key := public_key a; db_pool := db_pool a; chat_managers := chat_managers a; managers := managers a;
     passing := passing a; dropped := dropped a; replies := replies a ++ [(tx, r)]; pool_open := pool_open a |}.
Definition close_pool (a : App) : App :=
  {| public_key := public_key a; db_pool := db_pool a; chat_managers := chat_managers a; managers := managers a;
     passing := passing a; dropped := dropped a; replies := replies a; pool_open := false |}.
(** [ChatManager::new] and [vacant.insert]: the new manager's number is the next one. *)
Definition insert_manager (c : ChatId) (m : Managed) (a : App) : App :=
  {| public_key := public_key a; db_pool := db_pool a;
     chat_managers := <[c := length (managers a)]> (chat_managers a); managers := managers a ++ [m];
     passing := passing a; dropped := dropped a; replies := replies a; pool_open := pool_open a |}.

(** What happens outside the actor while it waits: between the attempts to send on a full
    channel, and while the repository is opened; and which oneshot receivers are alive. *)
Record Env := {
  while_full : list (App -> App);
  while_opening : App -> App;
  reply_open : nat -> bool;
}.

(** A call on the pool. *)
Definition on_db {E A} (c : action (World Db) E A) : action App (stop E) A := fun a =>
  let '(r, p) := c (db_pool a) in (map_err Failed r, set_db_pool p a).

(** [in_tx.send(msg).await] on manager [m]: whether it was delivered. It waits while the
    channel is full. *)
Fixpoint send_in {E} (waits : list (App -> App)) (m : nat) (msg : ChatManager.InMessage) :
    action App (stop E) bool :=
  found <- gets (fun a => managers a !! m) ;;
  match found with
  | None => ret false
  | Some mg =>
      if negb (in_open mg) then ret false
      else if bool_decide (length (inbox mg) < CHANNEL_BUFFER) then
        modify (fun a => set_managers (<[m := {| m_chat_id := m_chat_id mg; m_actor := m_actor mg;
          m_effects := m_effects mg; in_open := true; inbox := inbox mg ++ [msg] |}]> (managers a)) a) ;;;
        ret true
      else match waits with
           | [] => throw Pending
           | others :: waits' => modify others ;;; send_in waits' m msg
           end
  end.

(** [ChatManager::pass_accepted_conn_handle]: a handle that cannot be sent is dropped. *)
Definition pass_accepted_conn_handle {E} (waits : list (App -> App)) (m : nat) (conn_handle : ChatConnectionHandle) :
    action App (stop E) unit :=
  sent <- send_in waits m (ChatManager.PassAcceptedConnHandle conn_handle) ;;
  if (sent : bool) then ret tt else modify (drop_handle conn_handle).

(** The endpoint is bound with the same secret key, so its id is [public_key] too. *)
Definition handle_chat_manager (env : Env) (remote_id : EndpointId) (conn_handle : option ChatConnectionHandle) :
    action App (stop LibError) nat :=
  chat_id <- gets (fun a => {| my_id := public_key a; remote_peer := remote_id |}) ;;
  found <- gets (fun a => chat_managers a !! chat_id) ;;
  match found with
  | Some manager =>
      (match conn_handle with
       | Some handle => pass_accepted_conn_handle (while_full env) manager handle
       | None => ret tt
       end) ;;;
      ret manager
  | None =>
      opened <- attempt (on_db (ChatRepository.new chat_id)) ;;
      match opened with
      | Ok doc =>
          modify (while_opening env) ;;;
          entry <- gets (fun a => chat_managers a !! chat_id) ;;
          match entry with
          | Some manager =>
              (match conn_handle with
               | Some handle => modify (add_passing manager handle)
               | None => ret tt
               end) ;;;
              ret manager
          | None =>
              local_id <- gets public_key ;;
              let '(chat_conn, effects) :=
                match conn_handle with
                | Some handle => (ChatConnection.new_connected local_id handle, [])
                | None => ChatConnection.new local_id remote_id
                end in
              pool <- gets db_pool ;;
              new_manager <- gets (fun a => length (managers a)) ;;
              modify (insert_manager chat_id
                {| m_chat_id := chat_id; m_actor := ChatManager.new (doc, pool) chat_conn;
                   m_effects := effects; in_open := true; inbox := [] |}) ;;;
              ret new_manager
          end
      | Err e => modify (from_option drop_handle id conn_handle) ;;; throw (Failed e)
      | Panic => lift Panic
      end
  end.

Inductive AppActorRequest :=
| GetChatManager (remote_id : EndpointId) (respond_to : nat).

Definition handle_actor_request {E} (env : Env) (msg : AppActorRequest) : action App (stop E) unit :=
  match msg with
  | GetChatManager remote_id respond_to =>
      result <- attempt (handle_chat_manager env remote_id None) ;;
      if reply_open env respond_to then modify (add_reply respond_to result) else ret tt
  end.

(** What is ready at a turn of the loop. *)
Record Ready := {
  cancelled : bool;
  request_rx : option (option AppActorRequest);
  accepted : option (outcome LibError ChatConnectionHandle);
}.

Definition turn (env : Env) (rdy : Ready) : action App (stop anyhow) ChatManager.control :=
  if cancelled rdy then modify close_pool ;;; ret ChatManager.Stop
  else match request_rx rdy, accepted rdy with
       | Some None, _ => throw (Failed "AppActor: Exiting message loop due to channel closure.")
       | Some (Some msg), _ => handle_actor_request env msg ;;; ret ChatManager.Continue
       | None, Some (Ok conn_handle) =>
           attempt (handle_chat_manager env (conn_remote_id (connection conn_handle)) (Some conn_handle)) ;;;
           ret ChatManager.Continue
       | None, Some (Err _) => ret ChatManager.Continue
       | None, Some Panic => lift Panic
       | None, None => ret ChatManager.Continue
       end.

(** The loop, with what other tasks do before each turn. *)
Record Turn := { before : App -> App; env : Env; ready : Ready }.

Fixpoint run (ts : list Turn) : action App (stop anyhow) ChatManager.control :=
  match ts with
  | [] => ret ChatManager.Continue
  | t :: ts' =>
      modify (before t) ;;;
      c <- turn (env t) (ready t) ;;
      match c with ChatManager.Stop => ret ChatManager.Stop | ChatManager.Continue => run ts' end
  end.

(** [AppActor::new] *)
Definition new (db_pool : World Db) (public_key : EndpointId) : App :=
  {| public_key := public_key; db_pool := db_pool; chat_managers := ∅; managers := [];
     passing := []; dropped := []; replies := []; pool_open := true |}.

(** *** The calls of [Application] *)

(** What becomes of a request on the actor's channel: the actor is gone; it ends before the
    request's turn; or it serves it. *)
Inductive service :=
| NotSent (err : string)
| Unanswered
| Served (env : Env).

Definition reply_to (tx : nat) (a : App) : option (outcome LibError nat) :=
  snd <$> last (filter (fun r => r.1 = tx) (replies a)).

(** [parse_error] is the text of iroh's error for what is no key. *)
Context (parse_error : string -> string).

Definition chat_manager (s : service) (tx : nat) (remote_peer_id : string) : action App (stop GossipError) nat :=
  match id_from_str remote_peer_id with
  | None => throw (Failed (gossip_of_lib (InvalidPeerId (parse_error remote_peer_id))))
  | Some remote_id =>
      match s with
      | NotSent err =>
          throw (Failed (gossip_of_anyhow ("Failed to send GetChatManager message to AppActor. Error: " +:+ err)))
      | Unanswered =>
          throw (Failed (gossip_of_anyhow "Failed to receive ChatManager from AppActor. Channel is closed."))
      | Served env =>
          handle_actor_request env (GetChatManager remote_id tx) ;;;
          reply <- gets (reply_to tx) ;;
          match reply with
          | Some chat_manager_res => lift (map_err (Failed ∘ gossip_of_lib) chat_manager_res)
          | None => throw (Failed (gossip_of_anyhow "Failed to receive ChatManager from AppActor. Channel is closed."))
          end
      end
  end.

Definition all_remote_peers : action App (stop GossipError) (list string) :=
  me <- gets public_key ;;
  peers <- on_db (act_map_err gossip_of_lib (list_chats_remote_peers_ids me)) ;;
  ret (id_to_string <$> peers).

Definition create_tryst_invite (recipient_pk : string) : action App (stop GossipError) string :=
  match id_from_str recipient_pk with
  | None => throw (Failed (gossip_of_anyhow
      "Failed to parse PublicKey from provided string to create tryst invite."))
  | Some _ =>
      me <- gets public_key ;;
      lift (map_err (Failed ∘ gossip_of_lib) (TrystRepository.create_invite_str me))
  end.

Definition receive_tryst_invite (s : service) (tx : nat) (invite_str : string) : action App (stop GossipError) unit :=
  sender_endpoint_id <- lift (map_err (Failed ∘ gossip_of_lib) (TrystRepository.receive_invite_str invite_str)) ;;
  chat_manager s tx (id_to_string sender_endpoint_id) ;;;
  ret tt.
End App.

(** ** One manager per chat *)
Section Managers.
Context {Ids : EndpointIds} {Us : Uuids} {OI : ObjIds} {AM : Automerges}.

(** The map and the started managers agree: each is the one of its chat. *)
Record app_ok (a : App) : Prop := {
  ok_map c i : chat_managers a !! c = Some i -> m_chat_id <$> managers a !! i = Some c;
  ok_managers i m : managers a !! i = Some m -> chat_managers a !! m_chat_id m = Some i;
}.

(** From [a] to [a'] nothing in the map changes hands: managers are added, their actors and
    chats stay, and a closed channel stays closed. *)
Record grows (a a' : App) : Prop := {
  grows_key : public_key a' = public_key a;
  grows_map : chat_managers a ⊆ chat_managers a';
  grows_managers i m : managers a !! i = Some m -> exists m', managers a' !! i = Some m' /\
    m_chat_id m' = m_chat_id m /\ m_actor m' = m_actor m /\ (in_open m' = true -> in_open m = true);
}.

#[export] Instance grows_preorder : PreOrder grows.
Proof.
  split.
  - intros a. split; [done..|]. intros i m Hm. by exists m.
  - intros a b c [Hk1 Hm1 Hs1] [Hk2 Hm2 Hs2]. split; [congruence|by etransitivity|].
    intros i m Hm. destruct (Hs1 i m Hm) as (m1 & Hi1 & ? & ? & ?).
    destruct (Hs2 i m1 Hi1) as (m2 & Hi2 & ? & ? & ?). exists m2. split; [done|]. split_and!; [congruence..|auto].
Qed.

(** What the actor relies on of other tasks, and itself keeps. *)
Definition respects (f : App -> App) : Prop := forall a, app_ok a -> app_ok (f a) /\ grows a (f a).
Definition env_ok (e : Env) : Prop := Forall respects (while_full e) /\ respects (while_opening e).
Definition turns_ok (ts : list Turn) : Prop := Forall (fun t => respects (before t) /\ env_ok (env t)) ts.
Definition keeps {E A} (c : action App E A) : Prop := respects (fun a => (c a).2).

Lemma respects_id : respects id.
Proof. by intros a Ha. Qed.

Lemma respects_compose f g : respects f -> respects g -> respects (fun a => g (f a)).
Proof.
  intros Hf Hg a Ha. destruct (Hf a Ha) as [H1 H2]. destruct (Hg _ H1) as [H3 H4].
  split; [done|]. by etransitivity.
Qed.

(** A change that leaves the map and the managers alone. *)
Lemma respects_frame f :
  (forall a, public_key (f a) = public_key a /\ chat_managers (f a) = chat_managers a /\ managers (f a) = managers a) ->
  respects f.
Proof.
  intros Hf a [H1 H2]. destruct (Hf a) as (Hk & Hc & Hm). split; split; rewrite ?Hk, ?Hc, ?Hm; try done.
  intros i m Him. by exists m.
Qed.

(** A change of one manager's channel that does not open it again. *)
Lemma respects_manager i (f : Managed -> Managed) :
  (forall m, m_chat_id (f m) = m_chat_id m /\ m_actor (f m) = m_actor m /\ (in_open (f m) = true -> in_open m = true)) ->
  respects (fun a => set_managers (alter f i (managers a)) a).
Proof.
  intros Hf a [H1 H2].
  assert (forall j m, alter f i (managers a) !! j = Some m -> exists m0, managers a !! j = Some m0 /\ m_chat_id m = m_chat_id m0) as Hj.
  { intros j m. destruct (decide (i = j)) as [->|Hne].
    - rewrite list_lookup_alter_eq. destruct (managers a !! j) as [m0|]; intros [= <-]. exists m0. by destruct (Hf m0).
    - rewrite list_lookup_alter_ne by done. eauto. }
  split; split; simpl; [|intros j m|done|done|intros j m Hm].
  - intros c j Hc. apply H1 in Hc. destruct (decide (i = j)) as [->|Hne].
    + rewrite list_lookup_alter_eq. destruct (managers a !! j) as [m0|]; [|done]. simpl in *. by destruct (Hf m0) as [-> _].
    + by rewrite list_lookup_alter_ne.
  - intros Hm. destruct (Hj j m Hm) as (m0 & Hm0 & ->). by apply H2.
  - destruct (decide (i = j)) as [->|Hne].
    + rewrite list_lookup_alter_eq, Hm. exists (f m). split; [done|]. apply Hf.
    + rewrite list_lookup_alter_ne by done. by exists m.
Qed.

(** [ChatManager::new] for a chat that has none. *)
Lemma insert_manager_ok c m a :
  app_ok a -> chat_managers a !! c = None -> m_chat_id m = c ->
  app_ok (insert_manager c m a) /\ grows a (insert_manager c m a).
Proof.
  intros [H1 H2] Hnone Hm. split; split; simpl; [|intros i m' Hi|done|by apply insert_subseteq|].
  - intros c' i Hc. apply lookup_insert_Some in Hc as [[<- <-]|[Hne Hc]].
    + rewrite list_lookup_middle by done. simpl. by rewrite Hm.
    + apply H1 in Hc. rewrite lookup_app_l; [done|]. apply lookup_lt_is_Some.
      destruct (managers a !! i); [eauto|done].
  - apply lookup_app_Some in Hi as [Hi|[Hlen Hi]].
    + rewrite lookup_insert_ne; [by apply H2|]. intros Heq. apply H2 in Hi. rewrite <- Heq in Hi. congruence.
    + apply list_lookup_singleton_Some in Hi as [Hi <-]. rewrite Hm, lookup_insert_eq. f_equal. lia.
  - intros i m' Hi. exists m'. split; [|done]. by apply lookup_app_l_Some.
Qed.

Lemma app_keeps_bind {E A B} (c : action App E A) (k : A -> action App E B) :
  keeps c -> (forall x, keeps (k x)) -> keeps (bind c k).
Proof.
  intros Hc Hk a Ha. unfold bind. specialize (Hc a Ha). cbv beta in Hc. destruct (c a) as [[x|e|] a1]; simpl in *; [|done..].
  destruct Hc as [H1 H2]. destruct (Hk x a1 H1) as [H3 H4]. split; [done|]. by etransitivity.
Qed.

(** A call that goes on by what it reads. *)
Lemma keeps_read {E A B} (f : App -> A) (k : A -> action App E B) :
  (forall a, app_ok a -> app_ok (k (f a) a).2 /\ grows a (k (f a) a).2) -> keeps (x <- gets f ;; k x).
Proof. intros Hk a Ha. by apply (Hk a). Qed.

Lemma keeps_attempt {E E' A} (c : action App (stop E) A) : keeps c -> keeps (attempt (E' := E') c).
Proof. intros Hc a Ha. unfold attempt. specialize (Hc a Ha). cbv beta in Hc. by destruct (c a) as [[x|[e|]|] a1]. Qed.

Lemma keeps_modify {E} f : respects f -> keeps (modify (E := E) f).
Proof. done. Qed.

Lemma app_keeps_same {E A} (c : action App E A) :
  (forall a, public_key (c a).2 = public_key a /\ chat_managers (c a).2 = chat_managers a /\
             managers (c a).2 = managers a) -> keeps c.
Proof. apply (respects_frame (fun a => (c a).2)). Qed.

Lemma keeps_on_db {E A} (c : action (World Db) E A) : keeps (on_db c).
Proof. apply app_keeps_same. intros a. unfold on_db. by destruct (c (db_pool a)). Qed.

(** A manager's record is replaced by one that only has more messages. *)
Lemma deliver_ok m mg msg a :
  app_ok a -> managers a !! m = Some mg -> in_open mg = true ->
  let mg' := {| m_chat_id := m_chat_id mg; m_actor := m_actor mg; m_effects := m_effects mg;
                in_open := true; inbox := inbox mg ++ [msg] |} in
  app_ok (set_managers (<[m := mg']> (managers a)) a) /\ grows a (set_managers (<[m := mg']> (managers a)) a).
Proof.
  intros Ha Hm Ho mg'.
  assert (<[m:=mg']> (managers a) = alter (fun _ => mg') m (managers a)) as ->.
  { apply list_eq. intros i. destruct (decide (m = i)) as [->|Hne].
    - rewrite list_lookup_alter_eq, Hm, list_lookup_insert_eq; [done|]. by eapply lookup_lt_Some.
    - by rewrite list_lookup_alter_ne, list_lookup_insert_ne. }
  assert (alter (fun _ => mg') m (managers a) = alter (fun x => {| m_chat_id := m_chat_id x; m_actor := m_actor x;
    m_effects := m_effects x; in_open := in_open x; inbox := inbox x ++ [msg] |}) m (managers a)) as ->.
  { apply list_eq. intros i. destruct (decide (m = i)) as [->|Hne].
    - rewrite !list_lookup_alter_eq, Hm. unfold mg'. by rewrite <- Ho.
    - by rewrite !list_lookup_alter_ne. }
  by apply (respects_manager m).
Qed.

Lemma keeps_send_in {E} waits m msg : Forall respects waits -> keeps (send_in (E := E) waits m msg).
Proof.
  induction 1 as [|f waits Hf Hw IH]; cbn [send_in]; apply keeps_read; intros a Ha;
    (destruct (managers a !! m) as [mg|] eqn:Em; [|by split]);
    (destruct (in_open mg) eqn:Eo; cbn [negb]; [|by split]); case_bool_decide; try by split.
  1, 2: exact (deliver_ok m mg msg a Ha Em Eo).
  apply app_keeps_bind; [by apply keeps_modify|done|done].
Qed.
End Managers.

(** [keeps] of a composed call: sequence and the calls above. *)
Ltac solve_app_keeps :=
  repeat first
    [ apply app_keeps_bind; [|intros ?] | apply keeps_attempt | apply keeps_on_db | apply keeps_modify; assumption
    | apply keeps_send_in; assumption | apply app_keeps_same; done
    | match goal with |- keeps (match ?x with _ => _ end) => destruct x end
    | match goal with |- keeps (let _ := _ in _) => cbv zeta end ].

Section Chats.
Context {Ids : EndpointIds} {Us : Uuids} {OI : ObjIds} {AM : Automerges}.

Lemma keeps_pass {E} waits m h : Forall respects waits -> keeps (pass_accepted_conn_handle (E := E) waits m h).
Proof. intros Hw. unfold pass_accepted_conn_handle. solve_app_keeps. Qed.

Lemma keeps_handle_chat_manager env remote handle : env_ok env -> keeps (handle_chat_manager env remote handle).
Proof.
  intros [Hw Ho]. unfold handle_chat_manager. apply app_keeps_bind; [by apply app_keeps_same|]. intros c.
  apply app_keeps_bind; [by apply app_keeps_same|]. intros [m|].
  { apply app_keeps_bind; [|intros []; by apply app_keeps_same]. destruct handle; [by apply keeps_pass|by apply app_keeps_same]. }
  apply app_keeps_bind; [solve_app_keeps|]. intros [doc|e|]; [|destruct handle; solve_app_keeps|by apply app_keeps_same].
  apply app_keeps_bind; [by apply keeps_modify|]. intros [].
  apply keeps_read. intros a Ha. destruct (chat_managers a !! c) as [m|] eqn:Em.
  - destruct handle; [|by split]. by apply (respects_frame (add_passing m _)).
  - by destruct handle; apply insert_manager_ok.
Qed.

Lemma keeps_request {E} env msg : env_ok env -> keeps (handle_actor_request (E := E) env msg).
Proof.
  intros He. destruct msg as [remote tx]. apply app_keeps_bind; [by apply keeps_attempt, keeps_handle_chat_manager|].
  intros r. destruct (reply_open env tx); by apply app_keeps_same.
Qed.

Lemma keeps_turn env rdy : env_ok env -> keeps (turn env rdy).
Proof.
  intros He. unfold turn. destruct (cancelled rdy); [apply app_keeps_bind; [by apply app_keeps_same|intros; by apply app_keeps_same]|].
  destruct (request_rx rdy) as [[msg|]|]; [|by apply app_keeps_same|].
  { apply app_keeps_bind; [by apply keeps_request|]. intros []. by apply app_keeps_same. }
  destruct (accepted rdy) as [[h|e|]|]; [|by apply app_keeps_same..].
  apply app_keeps_bind; [by apply keeps_attempt, keeps_handle_chat_manager|]. intros r. by apply app_keeps_same.
Qed.

Lemma keeps_run ts : turns_ok ts -> keeps (run ts).
Proof.
  induction 1 as [|t ts [Hb He] _ IH]; [by apply app_keeps_same|]. cbn [run].
  apply app_keeps_bind; [by apply keeps_modify|]. intros []. apply app_keeps_bind; [by apply keeps_turn|].
  intros []; [done|by apply app_keeps_same].
Qed.

Definition served_ok (s : service) (tx : nat) : Prop :=
  match s with Served env => env_ok env /\ reply_open env tx = true | _ => True end.

(** Whoever gets a manager gets the one in the map. *)
Lemma handle_chat_manager_found env remote handle a m a' :
  app_ok a -> env_ok env -> handle_chat_manager env remote handle a = (Ok m, a') ->
  chat_managers a' !! {| my_id := public_key a; remote_peer := remote |} = Some m.
Proof.
  intros Ha [Hw Ho]. unfold handle_chat_manager, bind at 1 2, gets. set (c := {| my_id := _; remote_peer := _ |}).
  destruct (chat_managers a !! c) as [m0|] eqn:Em.
  - destruct handle as [h|]; [|by intros [= <- <-]].
    intros (u & a1 & E1 & E2)%bind_ok_inv. simplify_eq. injection E2 as <- <-.
    pose proof (keeps_pass (E := LibError) (while_full env) m0 h Hw a Ha) as [_ Hg]. rewrite E1 in Hg.
    by apply (lookup_weaken _ _ _ _ Em), grows_map.
  - intros (opened & a1 & E1 & E2)%bind_ok_inv.
    destruct opened as [doc|e|]; [|by destruct handle|done].
    apply bind_ok_inv in E2 as (u & a2 & [= <- <-] & E2). unfold bind at 1, gets in E2.
    destruct (chat_managers (while_opening env a1) !! c) as [m0|] eqn:Em2.
    + destruct handle as [h|]; by injection E2 as <- <-.
    + destruct handle as [h|]; injection E2 as <- <-; by apply lookup_insert_eq.
Qed.

Lemma reply_to_add tx r a : reply_to tx (add_reply tx r a) = Some r.
Proof.
  unfold reply_to. cbn [replies add_reply]. rewrite filter_app, filter_cons_True, filter_nil by done.
  by rewrite last_snoc.
Qed.

Context (parse_error : string -> string).

Lemma chat_manager_found s tx p a m a' :
  app_ok a -> served_ok s tx -> chat_manager parse_error s tx p a = (Ok m, a') ->
  app_ok a' /\ grows a a' /\ exists remote, id_from_str p = Some remote /\
    chat_managers a' !! {| my_id := public_key a; remote_peer := remote |} = Some m.
Proof.
  intros Ha Hs. unfold chat_manager. destruct (id_from_str p) as [remote|]; [|done].
  destruct s as [err| |env]; [done..|]. destruct Hs as [He Hr].
  intros (u & a1 & E1 & E2)%bind_ok_inv. unfold bind, gets in E2.
  pose proof (keeps_request (E := GossipError) env (GetChatManager remote tx) He a Ha) as [Hok Hg].
  rewrite E1 in Hok, Hg. cbn [snd] in *.
  cbn [handle_actor_request] in E1. apply bind_ok_inv in E1 as (r & a0 & E0 & E1). rewrite Hr in E1.
  injection E1 as <- <-. cbn [fst snd] in E2. rewrite reply_to_add in E2.
  destruct r as [m'|e|]; [|done..]. injection E2 as <- <-. split; [done|]. split; [done|]. exists remote.
  split; [done|]. simpl. unfold attempt in E0.
  destruct (handle_chat_manager env remote None a) as [[m0|[e|]|] a2] eqn:Eh; simplify_eq.
  by eapply handle_chat_manager_found.
Qed.

(** Asking for a chat that has its manager changes nothing but the reply. *)
Lemma chat_manager_known {Laws : EndpointIdLaws Ids} env tx remote a m :
  chat_managers a !! {| my_id := public_key a; remote_peer := remote |} = Some m -> reply_open env tx = true ->
  chat_manager parse_error (Served env) tx (id_to_string remote) a = (Ok m, add_reply tx (Ok m) a).
Proof.
  intros Hm Hr. unfold chat_manager. rewrite id_from_to_string.
  assert (handle_actor_request (E := GossipError) env (GetChatManager remote tx) a =
    (Ok tt, add_reply tx (Ok m) a)) as E1.
  { unfold handle_actor_request, handle_chat_manager, attempt, bind, gets. rewrite Hm. simpl. by rewrite Hr. }
  rewrite (bind_ok _ _ _ _ _ E1). unfold bind, gets. by rewrite reply_to_add.
Qed.

(** C11. A chat has one manager: whoever asks for the chat with a peer gets the same one,
    whatever the actor and the other tasks did between (accepted connections of the peer and
    calls that raced with the opening of the repository included), and no chat is ever
    managed twice. *)
Theorem one_manager_per_chat s1 s2 tx1 tx2 p ts a1 a2 a3 i j :
  app_ok a1 -> served_ok s1 tx1 -> turns_ok ts -> served_ok s2 tx2 ->
  chat_manager parse_error s1 tx1 p a1 = (Ok i, a2) ->
  chat_manager parse_error s2 tx2 p (run ts a2).2 = (Ok j, a3) ->
  i = j /\ app_ok a3 /\ NoDup (m_chat_id <$> managers a3) /\
  exists remote m, id_from_str p = Some remote /\ managers a3 !! i = Some m /\
    m_chat_id m = {| my_id := public_key a1; remote_peer := remote |}.
Proof.
  intros Ha Hs1 Hts Hs2 E1 E2.
  destruct (chat_manager_found _ _ _ _ _ _ Ha Hs1 E1) as (Ha2 & Hg2 & remote & Hp & Hi).
  destruct (keeps_run ts Hts a2 Ha2) as [Har Hgr].
  destruct (chat_manager_found _ _ _ _ _ _ Har Hs2 E2) as (Ha3 & Hg3 & remote' & Hp' & Hj).
  simplify_eq. rewrite (grows_key _ _ Hgr), (grows_key _ _ Hg2) in Hj.
  assert (chat_managers a3 !! {| my_id := public_key a1; remote_peer := remote |} = Some i) as Hi3.
  { apply (lookup_weaken _ _ _ _ Hi). etransitivity; apply grows_map; done. }
  assert (i = j) as -> by congruence. split; [done|]. split; [done|]. split.
  - apply NoDup_alt. intros k l c Hk Hl. rewrite list_lookup_fmap in Hk, Hl.
    destruct (managers a3 !! k) as [mk|] eqn:Ek, (managers a3 !! l) as [ml|] eqn:El; simplify_eq/=.
    apply (ok_managers a3 Ha3) in Ek, El. congruence.
  - pose proof (ok_map a3 Ha3 _ _ Hi3) as Hm. destruct (managers a3 !! j) as [m|] eqn:Em; [|done].
    simplify_eq/=. by exists remote, m.
Qed.

(** A manager whose actor has ended is never replaced: from then on the chat's accepted
    connections are dropped and everybody who asks is given the dead manager. *)
Theorem dead_manager_stays {Laws : EndpointIdLaws Ids} ts a c m mg env h tx :
  app_ok a -> turns_ok ts -> my_id c = public_key a -> chat_managers a !! c = Some m ->
  managers a !! m = Some mg -> in_open mg = false -> reply_open env tx = true ->
  let a' := (run ts a).2 in
  handle_chat_manager env (remote_peer c) (Some h) a' = (Ok m, drop_handle h a') /\
  chat_manager parse_error (Served env) tx (id_to_string (remote_peer c)) a' = (Ok m, add_reply tx (Ok m) a').
Proof.
  intros Ha Hts Hc Hm Hmg Hd Hr a'. destruct (keeps_run ts Hts a Ha) as [_ Hg]. fold a' in Hg.
  assert (chat_managers a' !! {| my_id := public_key a'; remote_peer := remote_peer c |} = Some m) as Hm'.
  { rewrite (grows_key _ _ Hg), <- Hc. destruct c. by apply (lookup_weaken _ _ _ _ Hm), grows_map. }
  destruct (grows_managers _ _ Hg m mg Hmg) as (mg' & Hmg' & _ & _ & Ho).
  assert (in_open mg' = false) as Hd' by (destruct (in_open mg'); [by rewrite Ho in Hd|done]).
  split.
  - unfold handle_chat_manager, bind at 1 2, gets. rewrite Hm'.
    assert (pass_accepted_conn_handle (E := LibError) (while_full env) m h a' = (Ok tt, drop_handle h a')) as E1.
    { unfold pass_accepted_conn_handle. destruct (while_full env) as [|f fs]; cbn [send_in];
        unfold bind, gets; by rewrite Hmg', Hd'. }
    by rewrite (bind_ok _ _ _ _ _ E1).
  - by apply chat_manager_known.
Qed.
End Chats.

(** ** Invites *)
Section Invites.
Context {Ids : EndpointIds} {Laws : EndpointIdLaws Ids} {Us : Uuids} {OI : ObjIds} {AM : Automerges} {V : DocViews AM}
  {ALaws : AutomergeLaws AM V}.
Context (parse_error : string -> string).

(** Opening an unknown chat on a calm pool adds its row and no other. *)
Lemma new_chat_rows cid w r w' :
  forecast w = [] -> chats (store w) !! chat_id_to_string cid = None ->
  ChatRepository.new cid w = (r, w') ->
  forecast w' = [] /\ dom (chats (store w')) ⊆ {[chat_id_to_string cid]} ∪ dom (chats (store w)).
Proof using ALaws.
  destruct w as [d fc]. simpl. intros -> Hnone. set (c := chat_id_to_string cid) in *.
  destruct (ChatRepository.init_doc cid) as (id & di & Et & _).
  unfold ChatRepository.new, ChatRepository.get_persisted_doc_state, bind at 1 2, gets. simpl length.
  assert (stmt (select_document c) {| store := d; forecast := [] |} = (Ok None, {| store := d; forecast := [] |})) as Es.
  { unfold select_document. apply stmt_calm; simpl; by rewrite ?Hnone. }
  set (d' := (insert_or_ignore_chat c (save di) d).2).
  assert (stmt (insert_or_ignore_chat c (save di)) {| store := d; forecast := [] |} =
    (Ok 1%Z, {| store := d'; forecast := [] |})) as Ei.
  { apply stmt_calm; [done|]. unfold d', insert_or_ignore_chat. simpl. by rewrite Hnone. }
  assert (ChatRepository.create cid {| store := d; forecast := [] |} =
    (Ok (Some (di, get_heads di)), {| store := d'; forecast := [] |})) as Ec.
  { unfold ChatRepository.create. rewrite Et. simpl map_err. rewrite (bind_ok _ _ _ tt _) by done.
    fold c. by rewrite (bind_ok _ _ _ _ _ Ei). }
  cbn [ChatRepository.persisted_loop]. fold c. rewrite bind_bind, (bind_ok _ _ _ _ _ Es), bind_bind, (bind_ok _ _ _ _ _ Ec).
  intros [= <- <-]. split; [done|]. unfold d', insert_or_ignore_chat. simpl. rewrite Hnone. simpl. by rewrite dom_insert_L.
Qed.

(** The manager [handle_chat_manager] starts for a chat nobody knows yet. *)
Lemma handle_new_chat env remote a :
  let c := {| my_id := public_key a; remote_peer := remote |} in
  chat_managers a !! c = None -> forecast (db_pool a) = [] -> db_wf (store (db_pool a)) ->
  chats (store (db_pool a)) !! chat_id_to_string c = None -> while_opening env = id ->
  exists r pool, ChatRepository.new c (db_pool a) = (Ok r, pool) /\ forecast pool = [] /\
    represents (objs (ChatRepository.doc r)) ∅ /\ ChatRepository.all_saved (r, pool) /\
    ChatRepository.chat_id r = c /\
    dom (chats (store pool)) ⊆ {[chat_id_to_string c]} ∪ dom (chats (store (db_pool a))) /\
    handle_chat_manager env remote None a =
      (Ok (length (managers a)), insert_manager c
        {| m_chat_id := c;
           m_actor := ChatManager.new (r, pool) (ChatConnection.new (public_key a) remote).1;
           m_effects := ChatConnection.reconnect; in_open := true; inbox := [] |} (set_db_pool pool a)).
Proof using ALaws.
  intros c Hm Hcalm Hwf Hrow Henv.
  destruct (ChatRepository.new_chat_spec c (db_pool a)) as (r & pool & E & Hid & _ & Hr & _ & Hs); try done.
  { unfold ChatRepository.bystanders. rewrite Hcalm. constructor. }
  { unfold faultless. rewrite Hcalm. constructor. }
  destruct (new_chat_rows c _ _ _ Hcalm Hrow E) as [Hf Hdom].
  exists r, pool. do 6 (split; [done|]).
  unfold handle_chat_manager, bind at 1 2, gets at 1 2. fold c. rewrite Hm.
  assert (attempt (E' := LibError) (on_db (ChatRepository.new c)) a = (Ok (Ok r), set_db_pool pool a)) as Eo.
  { unfold attempt, on_db. by rewrite E. }
  rewrite (bind_ok _ _ _ _ _ Eo), Henv. unfold bind at 1, modify. unfold bind at 1, gets at 1.
  change (chat_managers (id (set_db_pool pool a))) with (chat_managers a). by rewrite Hm.
Qed.

(** C17. Accepting an invite starts the chat with the one who made it: the row is in the
    database with an empty history, a manager is there that dials the inviter, and the
    inviter is listed among the remote peers. *)
Theorem invite_starts_chat inviter recipient_pk inv inviter' a env tx :
  create_tryst_invite recipient_pk inviter = (Ok inv, inviter') ->
  let c := {| my_id := public_key a; remote_peer := public_key inviter |} in
  public_key a <> public_key inviter -> chat_managers a !! c = None -> forecast (db_pool a) = [] ->
  db_wf (store (db_pool a)) -> chats (store (db_pool a)) !! chat_id_to_string c = None ->
  (forall row, row ∈ dom (chats (store (db_pool a))) -> exists c, row = chat_id_to_string c) ->
  while_opening env = id -> reply_open env tx = true ->
  exists a' m mg peers, receive_tryst_invite parse_error (Served env) tx inv a = (Ok tt, a') /\
    chat_managers a' = <[c := m]> (chat_managers a) /\ managers a' = managers a ++ [mg] /\
    managers a' !! m = Some mg /\
    ChatConnection.state (ChatManager.conn (m_actor mg)) = IDisconnected /\
    m_effects mg = [ChatConnection.SpawnReconnect] /\
    ChatConnection.remote_id (ChatManager.conn (m_actor mg)) = public_key inviter /\
    represents (objs (ChatRepository.doc (ChatManager.doc_state (m_actor mg)).1)) ∅ /\
    is_Some (chats (store (db_pool a')) !! chat_id_to_string c) /\
    all_remote_peers a' = (Ok peers, a') /\ id_to_string (public_key inviter) ∈ peers.
Proof using Laws ALaws.
  intros Einv c Hne Hm Hcalm Hwf Hrow Hrows Henv Htx.
  assert (TrystRepository.receive_invite_str inv = Ok (public_key inviter)) as Er.
  { unfold create_tryst_invite in Einv. destruct (id_from_str recipient_pk); [|done].
    unfold bind, gets, lift in Einv. simpl in Einv. simplify_eq.
    unfold TrystRepository.receive_invite_str. rewrite strip_prefix_app. simpl. by rewrite id_from_to_string. }
  destruct (handle_new_chat env (public_key inviter) a Hm Hcalm Hwf Hrow Henv)
    as (r & pool & E & Hf & Hr & Hs & Hid & Hdom & Eh). fold c in E, Hid, Hdom, Eh.
  set (mg := {| m_chat_id := c |}) in Eh. set (a1 := insert_manager c mg (set_db_pool pool a)) in Eh.
  assert (is_Some (chats (store pool) !! chat_id_to_string c)) as Hc.
  { destruct Hs as (_ & document & d0 & Hc & _). unfold ChatRepository.repo_chat in Hc. simpl in Hc.
    rewrite Hid in Hc. eauto. }
  assert (handle_actor_request (E := GossipError) env (GetChatManager (public_key inviter) tx) a =
    (Ok tt, add_reply tx (Ok (length (managers a))) a1)) as Eq.
  { unfold handle_actor_request, attempt, bind. rewrite Eh. by rewrite Htx. }
  destruct (list_peers_calm (public_key a) pool) as (l & El & Hl).
  { intros row [->%elem_of_singleton|Hin]%Hdom%elem_of_union; eauto. }
  { done. }
  exists (add_reply tx (Ok (length (managers a))) a1), (length (managers a)), mg,
    (id_to_string <$> dedup (sort_by id_leb l)).
  split.
  { unfold receive_tryst_invite, lift. rewrite Er. simpl. unfold bind at 1.
    unfold chat_manager. rewrite id_from_to_string. rewrite bind_bind, (bind_ok _ _ _ _ _ Eq).
    unfold bind, gets. by rewrite reply_to_add. }
  split; [done|]. split; [done|]. split; [by apply list_lookup_middle|]. do 3 (split; [done|]).
  split; [done|]. split; [done|]. split.
  - unfold all_remote_peers, bind at 1, gets. cbn [public_key add_reply a1 insert_manager set_db_pool].
    assert (on_db (act_map_err gossip_of_lib (list_chats_remote_peers_ids (public_key a)))
      (add_reply tx (Ok (length (managers a))) a1) =
      (Ok (dedup (sort_by id_leb l)), add_reply tx (Ok (length (managers a))) a1)) as Eo.
    { unfold on_db, act_map_err. simpl db_pool. by rewrite El. }
    by rewrite (bind_ok _ _ _ _ _ Eo).
  - apply list_elem_of_fmap. eexists. split; [done|]. rewrite elem_of_dedup, sort_by_Permutation, Hl.
    split; [done|]. by apply elem_of_dom.
Qed.
End Invites.
End AppActor.

Module AppSamples.
Import Concrete ToyDoc ChatRepositorySamples AppActor.

Definition calm_env : Env := {| while_full := []; while_opening := id; reply_open := fun _ => true |}.
Definition start (k : nat) : @App keys uuids toy_ids toy := new (quiet empty_db) (k : @EndpointId keys).
Definition no_key : string -> string := fun _ => "invalid key".
Definition chat (k p : nat) : @ChatId keys := {| my_id := (k : @EndpointId keys); remote_peer := p |}.

Lemma start_ok k : app_ok (start k).
Proof. split; [|done]. intros c i Hc. by apply (lookup_empty_Some (M := gmap (@ChatId keys)) c i) in Hc. Qed.

Lemma calm_env_ok : env_ok calm_env.
Proof. split; [constructor|apply respects_id]. Qed.

(** Node [k] asks for the chat with node [p] on an empty database. *)
Lemma asked_for (k p : nat) :
  exists a m mg d, chat_manager no_key (Served calm_env) 7 (id_to_string (p : @EndpointId keys)) (start k) = (Ok m, a) /\
    app_ok a /\ public_key a = k /\ chat_managers a !! chat k p = Some m /\ managers a = [mg] /\ m = 0 /\
    in_open mg = true /\ inbox mg = [] /\
    m_actor mg = ChatManager.new d (ChatConnection.new (k : @EndpointId keys) (p : @EndpointId keys)).1.
Proof.
  destruct (handle_new_chat calm_env (p : @EndpointId keys) (start k)) as (r & pool & _ & _ & _ & _ & _ & _ & Eh);
    [done|done|apply empty_db_wf|done|done|].
  assert (handle_actor_request (E := GossipError) calm_env (GetChatManager (p : @EndpointId keys) 7) (start k) =
    (Ok tt, add_reply 7 (Ok 0) (handle_chat_manager calm_env (p : @EndpointId keys) None (start k)).2)) as Eq.
  { unfold handle_actor_request, attempt, bind. by rewrite Eh. }
  eexists _, _, _, _. split.
  { unfold chat_manager. rewrite id_from_to_string, (bind_ok _ _ _ _ _ Eq). unfold bind, gets.
    by rewrite reply_to_add. }
  pose proof (keeps_request (E := GossipError) calm_env (GetChatManager (p : @EndpointId keys) 7) calm_env_ok (start k) (start_ok k)) as [Hok _].
  rewrite Eq in Hok. split; [done|]. rewrite Eh. split; [done|]. split; [apply lookup_insert_eq|]. do 4 (split; [reflexivity|]).
  reflexivity.
Qed.

Lemma asked :
  exists a m mg, chat_manager no_key (Served calm_env) 7 (id_to_string (1 : @EndpointId keys)) (start 0) = (Ok m, a) /\
    app_ok a /\ public_key a = 0 /\ chat_managers a !! chat 0 1 = Some m /\ managers a = [mg] /\ m = 0.
Proof. destruct (asked_for 0 1) as (a & m & mg & _ & ? & ? & ? & ? & ? & ? & _). by exists a, m, mg. Qed.

Lemma one_manager_per_chat_witness :
  exists a2 a3 m, chat_manager no_key (Served calm_env) 7 "sz" (start 0) = (Ok m, a2) /\
    chat_manager no_key (Served calm_env) 8 "sz" (run [] a2).2 = (Ok m, a3) /\
    NoDup (m_chat_id <$> managers a3).
Proof.
  destruct asked as (a2 & m & mg & E & Hok & Hk & Hm & _). exists a2, (add_reply 8 (Ok m) a2), m.
  assert (chat_manager no_key (Served calm_env) 8 "sz" (run [] a2).2 = (Ok m, add_reply 8 (Ok m) a2)) as E2.
  { apply (chat_manager_known no_key calm_env 8 (1 : @EndpointId keys)); [|done]. by rewrite Hk. }
  split; [exact E|]. split; [exact E2|].
  apply (one_manager_per_chat no_key (Served calm_env) (Served calm_env) 7 8 "sz" [] (start 0) a2 _ m m).
  - apply start_ok.
  - split; [apply calm_env_ok|done].
  - constructor.
  - split; [apply calm_env_ok|done].
  - exact E.
  - exact E2.
Defined.

(** The same node after the manager's actor has ended. *)
Definition end_manager (i : nat) (a : @App keys uuids toy_ids toy) : App :=
  set_managers (alter (fun m => {| m_chat_id := m_chat_id m; m_actor := m_actor m; m_effects := m_effects m;
                                   in_open := false; inbox := [] |}) i (managers a)) a.

Lemma end_manager_respects i : respects (end_manager i).
Proof. by apply (respects_manager i). Qed.

Lemma dead_manager_stays_witness :
  exists a m h, chat_managers a !! chat 0 1 = Some m /\
    handle_chat_manager calm_env (1 : @EndpointId keys) (Some h) a = (Ok m, drop_handle h a).
Proof.
  destruct asked as (a & m & mg & E & Hok & Hk & Hm & Hms & Hm0).
  destruct (end_manager_respects m a Hok) as [Hok' _].
  exists (end_manager m a), m, (ChatConnection.sample_handle 3 Accept 1).
  split; [done|].
  refine (proj1 (dead_manager_stays no_key [] (end_manager m a) (chat 0 1) m
    {| m_chat_id := m_chat_id mg; m_actor := m_actor mg; m_effects := m_effects mg; in_open := false; inbox := [] |}
    calm_env (ChatConnection.sample_handle 3 Accept 1) 9 Hok' _ _ _ _ _ _)).
  - constructor.
  - by rewrite <- Hk.
  - done.
  - unfold end_manager. simpl. by rewrite Hms, Hm0.
  - done.
  - done.
Defined.

Lemma invite_starts_chat_witness :
  exists inv inviter a' peers,
    create_tryst_invite "z" (start 1) = (Ok inv, inviter) /\
    receive_tryst_invite no_key (Served calm_env) 7 inv (start 0) = (Ok tt, a') /\
    all_remote_peers a' = (Ok peers, a') /\ "sz" ∈ peers.
Proof.
  destruct (invite_starts_chat no_key (start 1) "z" (TrystRepository.INVITE_PREFIX +:+ "sz") (start 1) (start 0) calm_env 7)
    as (a' & m & mg & peers & E & _ & _ & _ & _ & _ & _ & _ & _ & El & Hin).
  - done.
  - done.
  - done.
  - done.
  - apply empty_db_wf.
  - done.
  - intros row Hrow. simpl in Hrow. by rewrite dom_empty_L in Hrow.
  - done.
  - done.
  - exists (TrystRepository.INVITE_PREFIX +:+ "sz"), (start 1), a', peers. done.
Defined.
End AppSamples.
