(* ===== verification/Meeting.v ===== *)
(** How a connection comes up: the reconnect task of one peer (src/src/protocols/chat.rs)
    dials through its protocol actor (protocol_handler.rs), the other peer's protocol actor
    accepts, its application (app.rs) hands the connection to the chat's manager
    (manager.rs), and both actors find their chat connected. *)
From S2P Require Import Prelude External Wire Connection Errors ChatTypes Database Serial Automerge Schema Repository Sync Manager Link Tryst Handler App.
From stdpp Require Import base gmap strings list.
From Stdlib Require Import ZArith Lia.
Import ChatConnection(Inner, effect, reconnect_step, RStart, RGotHandle, RFailed, RAwaitDial, Resume, SendOk, DialOk, DialErr, DialClosed,
  DialEvent, update_handle, with_id, should_switch, state, state_value).
Open Scope tryst_scope.

(** ** The path of a dial, and of an accepted connection *)
Section Paths.
Context {Ids : EndpointIds} {Us : Uuids} {R : Type} {AR : AsyncRead R}.

(** What the oneshot [tx] of a dial brings. *)
Definition dial_reply (tx : nat) (p : ChatProtocol.Actor (R := R)) : option (outcome LibError ChatConnectionHandle) :=
  snd <$> last (filter (fun r => r.1 = tx) (ChatProtocol.dial_replies p)).
Definition dial_event (reply : option (outcome LibError ChatConnectionHandle)) : DialEvent :=
  match reply with Some (Ok handle) => DialOk handle | Some _ => DialErr | None => DialClosed end.

(** The task that [reconnect] spawns, when nothing else touches the connection meanwhile:
    its request is the protocol actor's next. *)
Definition reconnect_task (env : ChatProtocol.Env (R := R)) (tx : nat) (new_id : Uuid) (c : Inner) :
    action ChatProtocol.Actor (stop anyhow) (Inner * list effect) :=
  match reconnect_step RStart Resume new_id c with
  | Some (Some t1, c1, es1) =>
      match reconnect_step t1 SendOk new_id c1 with
      | Some (Some t2, c2, es2) =>
          ChatProtocol.turn env {| ChatProtocol.cancelled := false;
            ChatProtocol.request_rx := Some (Some (ChatProtocol.Dial (ChatConnection.remote_id c) tx)) |} ;;;
          reply <- gets (dial_reply tx) ;;
          ret match reconnect_step t2 (dial_event reply) new_id c2 with
              | Some (Some t3, c3, es3) =>
                  match reconnect_step t3 Resume new_id c3 with
                  | Some (_, c4, es4) => (c4, es1 ++ es2 ++ es3 ++ es4)
                  | None => (c3, es1 ++ es2 ++ es3)
                  end
              | _ => (c2, es1 ++ es2)
              end
      | _ => ret (c1, es1)
      end
  | Some (None, c1, es1) => ret (c1, es1)
  | None => ret (c, [])
  end.

Context {OI : ObjIds} {AM : Automerges}.

(** What [accept_conn] makes of the protocol actor's last word, as the application's loop
    sees it. *)
Definition accepted_of (p : ChatProtocol.Actor (R := R)) : option (outcome LibError ChatConnectionHandle) :=
  match ChatProtocol.accept_conn false false (Some (last (ChatProtocol.accept_tx p))) with
  | Ok handle => Some (Ok handle)
  | Err (Failed e) => Some (Err e)
  | Err Pending => None
  | Panic => Some Panic
  end.

(** An incoming connection: the router's [accept] has queued it, the protocol actor serves
    it, and the application's loop takes the result. *)
Definition accept_path (envp : ChatProtocol.Env (R := R)) (cn : ChatProtocol.Conn (R := R)) (enva : AppActor.Env) :
    action (ChatProtocol.Actor (R := R) * AppActor.App) (stop anyhow) ChatManager.control := fun s =>
  match ChatProtocol.turn envp {| ChatProtocol.cancelled := false;
          ChatProtocol.request_rx := Some (Some (ChatProtocol.Accept cn)) |} s.1 with
  | (Ok _, p) =>
      let '(r, a) := AppActor.turn enva {| AppActor.cancelled := false; AppActor.request_rx := None;
                       AppActor.accepted := accepted_of p |} s.2 in (r, (p, a))
  | (Err e, p) => (Err e, (p, s.2))
  | (Panic, p) => (Panic, (p, s.2))
  end.

Context {ARL : AsyncReadLaws R}.

(** A handle that arrives leaves the connection connected, whichever of two it keeps, and
    wakes the watchers. *)
Lemma update_handle_connected h new_id c :
  (should_switch c h = false -> exists cur, state c = IConnected cur) ->
  connected (update_handle h new_id c).1 /\ existsb ChatManager.notifies (update_handle h new_id c).2 = true.
Proof.
  intros Hsw. unfold update_handle. destruct (should_switch c h).
  - cbn. rewrite existsb_app, orb_true_r. split; [by eexists|done].
  - destruct (Hsw eq_refl) as [cur Hcur]. rewrite Hcur. cbn. split; [by eexists|done].
Qed.

Lemma switch_or_connected h c : should_switch c h = false -> exists cur, state c = IConnected cur.
Proof. unfold should_switch. destruct (state c); [done|eauto|done]. Qed.

Lemma dial_reply_last tx r p : dial_reply tx (ChatProtocol.reply_dial tx r p) = Some r.
Proof.
  unfold dial_reply. cbn [ChatProtocol.reply_dial ChatProtocol.dial_replies]. rewrite filter_app, last_app.
  by rewrite filter_cons_True.
Qed.

(** The turn of the protocol actor that serves a dial. *)
Lemma dial_turn env remote respond_to cn p :
  ChatProtocol.connect env remote = Some (inr cn) -> ChatProtocol.reply_open env respond_to = true ->
  ChatProtocol.verdict_of cn Connection.Dial <> ChatProtocol.Waits ->
  exists r p', ChatProtocol.turn env {| ChatProtocol.cancelled := false;
      ChatProtocol.request_rx := Some (Some (ChatProtocol.Dial remote respond_to)) |} p = (Ok ChatProtocol.Continue, p') /\
    dial_reply respond_to p' = Some r /\
    match ChatProtocol.verdict_of cn Connection.Dial with
    | ChatProtocol.Established => exists h t, r = Ok h /\ origin h = Connection.Dial /\ connection h = ChatProtocol.conn cn /\
        ChatProtocol.tasks p' = ChatProtocol.tasks p ++ [t] /\ ChatProtocol.t_token t = cancel_token h /\
        ChatProtocol.streams_ready cn Connection.Dial t
    | _ => exists e, r = Err e
    end.
Proof using ARL.
  intros Hc Hr Hv. destruct (ChatProtocol.process_spec env cn Connection.Dial p) as (r & p1 & E & H).
  unfold ChatProtocol.turn. cbn [ChatProtocol.cancelled ChatProtocol.request_rx].
  destruct (ChatProtocol.verdict_of cn Connection.Dial); [done|destruct H as ([e ->] & Ht & _)|destruct H as (h & t & -> & H)].
  - exists (Err (lib_of_anyhow e)). eexists. split.
    { unfold attempt, ChatProtocol.dial_endpoint, bind. rewrite Hc. unfold attempt. rewrite E. cbn. by rewrite Hr. }
    split; [apply dial_reply_last|by eexists].
  - exists (Ok h). eexists. split.
    { unfold attempt, ChatProtocol.dial_endpoint, bind. rewrite Hc. unfold attempt. rewrite E. cbn. by rewrite Hr. }
    split; [apply dial_reply_last|]. destruct H as (_ & Ho & Hcn & _ & Ht & _ & Htok & _ & _ & Hst).
    by exists h, t.
Qed.

(** A peer that dials is connected when the handshake is through, and disconnected again when
    it is refused. *)
Lemma reconnect_task_spec env respond_to new_id cn c p :
  state c = IDisconnected -> state_value c = CDisconnected ->
  ChatProtocol.connect env (ChatConnection.remote_id c) = Some (inr cn) -> ChatProtocol.reply_open env respond_to = true ->
  ChatProtocol.verdict_of cn Connection.Dial <> ChatProtocol.Waits ->
  exists c' es p', reconnect_task env respond_to new_id c p = (Ok (c', es), p') /\ existsb ChatManager.notifies es = true /\
    match ChatProtocol.verdict_of cn Connection.Dial with
    | ChatProtocol.Established => connected c' /\ exists h t, state c' = IConnected h /\ origin h = Connection.Dial /\
        connection h = ChatProtocol.conn cn /\ ChatProtocol.tasks p' = ChatProtocol.tasks p ++ [t] /\
        ChatProtocol.t_token t = cancel_token h /\ ChatProtocol.streams_ready cn Connection.Dial t
    | _ => state c' = IDisconnected /\ state_value c' = CDisconnected
    end.
Proof using ARL.
  intros Hst Hval Hc Hr Hv. destruct (dial_turn env _ respond_to cn p Hc Hr Hv) as (r & p' & E & Hreply & H).
  unfold reconnect_task, reconnect_step at 1, ChatConnection.set_state_if_disconnected, ChatConnection.send_if_modified.
  rewrite Hst. cbn [ChatConnection.set_internal ChatConnection.state_value chat_state_of]. rewrite Hval.
  rewrite bool_decide_eq_true_2 by done. cbn [reconnect_step ChatConnection.set_value ChatConnection.remote_id ChatConnection.set_internal]. rewrite (bind_ok _ _ _ _ _ E). unfold bind at 1, gets. rewrite Hreply. unfold ret.
  destruct (ChatProtocol.verdict_of cn Connection.Dial); [done|destruct H as [e ->]|destruct H as (h & t & -> & H)].
  - eexists _, _, _. split; [done|]. by cbn.
  - eexists _, _, _. split; [done|]. split; [done|]. cbn. split; [by eexists|]. by exists h, t.
Qed.

(** The turn of the protocol actor that serves an incoming connection. *)
Lemma accept_turn env cn p :
  ChatProtocol.accept_open env = true -> ChatProtocol.accept_room env = true ->
  ChatProtocol.verdict_of cn Connection.Accept <> ChatProtocol.Waits ->
  exists r p', ChatProtocol.turn env {| ChatProtocol.cancelled := false;
      ChatProtocol.request_rx := Some (Some (ChatProtocol.Accept cn)) |} p = (Ok ChatProtocol.Continue, p') /\
    accepted_of p' = Some r /\
    match ChatProtocol.verdict_of cn Connection.Accept with
    | ChatProtocol.Established => exists h t, r = Ok h /\ origin h = Connection.Accept /\ connection h = ChatProtocol.conn cn /\
        ChatProtocol.tasks p' = ChatProtocol.tasks p ++ [t] /\ ChatProtocol.t_token t = cancel_token h /\
        ChatProtocol.streams_ready cn Connection.Accept t
    | _ => exists e, r = Err e
    end.
Proof using ARL.
  intros Ho Hroom Hv. destruct (ChatProtocol.process_spec env cn Connection.Accept p) as (r & p1 & E & H).
  unfold ChatProtocol.turn. cbn [ChatProtocol.cancelled ChatProtocol.request_rx].
  assert (forall o q, accepted_of (ChatProtocol.send_accepted o q) = match o with
    | Ok h => Some (Ok h) | Err e => Some (Err (lib_of_anyhow e)) | Panic => Some Panic end) as Hacc.
  { intros o q. unfold accepted_of, ChatProtocol.accept_conn. cbn [ChatProtocol.send_accepted ChatProtocol.accept_tx].
    rewrite last_snoc. by destruct o. }
  destruct (ChatProtocol.verdict_of cn Connection.Accept); [done|destruct H as ([e ->] & Ht & _)|destruct H as (h & t & -> & H)].
  - exists (Err (lib_of_anyhow e)). eexists. split.
    { unfold attempt, bind. rewrite E. cbn. by rewrite Ho, Hroom. }
    split; [by rewrite Hacc|by eexists].
  - exists (Ok h). eexists. split.
    { unfold attempt, bind. rewrite E. cbn. by rewrite Ho, Hroom. }
    split; [by rewrite Hacc|]. destruct H as (_ & Hor & Hcn & _ & Ht & _ & Htok & _ & _ & Hst). by exists h, t.
Qed.

(** An accepted connection reaches the inbox of the manager of the chat with that peer. *)
Lemma accept_path_spec envp cn enva p (a : AppActor.App) i mg :
  ChatProtocol.accept_open envp = true -> ChatProtocol.accept_room envp = true ->
  ChatProtocol.verdict_of cn Connection.Accept = ChatProtocol.Established ->
  AppActor.chat_managers a !!
    {| my_id := AppActor.public_key a; remote_peer := conn_remote_id (ChatProtocol.conn cn) |} = Some i ->
  AppActor.managers a !! i = Some mg -> AppActor.in_open mg = true -> length (AppActor.inbox mg) < CHANNEL_BUFFER ->
  exists p' a' mg' h t, accept_path envp cn enva (p, a) = (Ok ChatManager.Continue, (p', a')) /\
    AppActor.managers a' !! i = Some mg' /\ AppActor.m_chat_id mg' = AppActor.m_chat_id mg /\
    AppActor.inbox mg' = AppActor.inbox mg ++ [ChatManager.PassAcceptedConnHandle h] /\
    origin h = Connection.Accept /\ connection h = ChatProtocol.conn cn /\
    ChatProtocol.tasks p' = ChatProtocol.tasks p ++ [t] /\ ChatProtocol.t_token t = cancel_token h /\
    ChatProtocol.streams_ready cn Connection.Accept t.
Proof using ARL.
  intros Ho Hroom Hv Hm Hmg Hopen Hlen. destruct (accept_turn envp cn p Ho Hroom) as (r & p' & E & Hacc & H); [by rewrite Hv|].
  rewrite Hv in H. destruct H as (h & t & -> & Hor & Hcn & Ht & Htok & Hst).
  unfold accept_path. cbn [fst snd]. rewrite E, Hacc. unfold AppActor.turn. cbn [AppActor.cancelled AppActor.request_rx AppActor.accepted].
  rewrite Hcn. unfold attempt, AppActor.handle_chat_manager, AppActor.pass_accepted_conn_handle, bind, gets, ret, modify.
  rewrite Hm. destruct (AppActor.while_full enva); cbn [AppActor.send_in]; unfold bind, gets; rewrite Hmg, Hopen;
    cbn [negb]; rewrite bool_decide_eq_true_2 by done;
    (eexists _, _, _, h, t; split; [done|]; split; [apply list_lookup_insert_eq; by eapply lookup_lt_Some|done]).
Qed.
End Paths.

(** ** The two ends *)
Section Ends.
Context {Ids : EndpointIds} {Us : Uuids} {R : Type} {AR : AsyncRead R} {ARL : AsyncReadLaws R}
  {OI : ObjIds} {AM : Automerges} {SC : SyncCodec AM}.

(** The manager's actor has nothing to do before it takes the next of its inbox. *)
Definition ready_for_inbox (rdy : ChatManager.Ready) (a : ChatManager.Actor) : Prop :=
  ChatManager.cancelled rdy = false /\ ChatManager.tick rdy = false /\
  ChatManager.sync_seen a = ChatRepository.status_version (ChatManager.doc_state a).1 /\ ChatManager.conn_changed a = false /\
  ChatManager.subscribe_rx rdy = None.

Lemma handle_taken env rdy h a :
  ready_for_inbox rdy a -> ChatManager.in_rx rdy = Some (Some (ChatManager.PassAcceptedConnHandle h)) ->
  exists a', ChatManager.turn env rdy a = (Ok ChatManager.Continue, a') /\ came_up a' /\
    ChatManager.doc_state a' = ChatManager.doc_state a /\
    (should_switch (ChatManager.conn a) h = true -> state (ChatManager.conn a') = IConnected h).
Proof.
  intros (Hc & Ht & Hs & Hch & Hsub) Hin. unfold ChatManager.turn. unfold bind at 1, gets, id. rewrite Hc, Ht.
  rewrite bool_decide_eq_true_2 by done. cbn [negb]. rewrite Hch, Hsub, Hin. cbn [ChatManager.handle_outgoing_message].
  pose proof (update_handle_connected h (ChatManager.rotation_id env) (ChatManager.conn a) (switch_or_connected _ _)) as [Hcon Hnot].
  assert (should_switch (ChatManager.conn a) h = true ->
    state (update_handle h (ChatManager.rotation_id env) (ChatManager.conn a)).1 = IConnected h) as Hsw.
  { unfold update_handle. by intros ->. }
  unfold bind, ChatManager.on_conn. destruct (update_handle h _ (ChatManager.conn a)) as [c es]. cbn [fst snd] in *.
  eexists. split; [done|]. split; [|done]. split; [|exact Hcon]. cbn. by rewrite Hnot, orb_true_r.
Qed.

(** [a] is what became, in any run so far, of the actor that the application started for
    the chat with [peer], and its connection is the one to that peer. *)
Definition actor_of (app : AppActor.App) (peer : EndpointId) (i : nat) (mg : AppActor.Managed) (a : ChatManager.Actor) : Prop :=
  AppActor.chat_managers app !! {| my_id := AppActor.public_key app; remote_peer := peer |} = Some i /\
  AppActor.managers app !! i = Some mg /\
  (exists env0 ts, ChatManager.run env0 ts (AppActor.m_actor mg) = (Ok ChatManager.Continue, a)) /\
  ChatConnection.local_id (ChatManager.conn a) = AppActor.public_key app /\ ChatConnection.remote_id (ChatManager.conn a) = peer.

(** [cn2] is the other end of the connection [cn1] that [dialer] opened and over which its
    send task has [t1]: the accepter reads first whatever the dialer wrote in its
    handshake, and then [later]. *)
Definition other_end (dialer : EndpointId) (cn1 : ChatProtocol.Conn (R := R)) (t1 : ChatProtocol.Tasks (R := R))
    (cn2 : ChatProtocol.Conn (R := R)) (later : bytes) : Prop :=
  conn_id (ChatProtocol.conn cn2) = conn_id (ChatProtocol.conn cn1) /\ conn_remote_id (ChatProtocol.conn cn2) = dialer /\
  exists send2 recv2, ChatProtocol.accept_bi cn2 = Some (inr (send2, recv2)) /\ ChatProtocol.greets cn2 = true /\
    stream recv2 = written (ChatProtocol.t_send t1) ++ later.

Lemma dial_verdict cn send recv :
  ChatProtocol.open_bi cn = Some (inr (send, recv)) -> write_results send = [] ->
  ChatProtocol.verdict_of cn Connection.Dial = ChatProtocol.Established.
Proof. intros Ho Hw. unfold ChatProtocol.verdict_of. by rewrite Ho, Hw. Qed.

(** The bytes of the dialer's handshake pass the accepter's. *)
Lemma accept_verdict dialer cn1 send1 recv1 t1 cn2 later :
  ChatProtocol.open_bi cn1 = Some (inr (send1, recv1)) -> written send1 = [] ->
  ChatProtocol.streams_ready cn1 Connection.Dial t1 -> other_end dialer cn1 t1 cn2 later ->
  ChatProtocol.verdict_of cn2 Connection.Accept = ChatProtocol.Established /\
  forall t2, ChatProtocol.streams_ready cn2 Connection.Accept t2 -> stream (ChatProtocol.t_recv t2) = later.
Proof.
  intros Ho Hw (send & recv & Ho' & _ & Hwr & _) (_ & _ & send2 & recv2 & Ha & Hg & Hs).
  rewrite Ho in Ho'. injection Ho' as <- <-. rewrite Hw in Hwr. simpl app in Hwr. rewrite Hwr in Hs.
  split.
  - unfold ChatProtocol.verdict_of. rewrite Ha, Hg. cbn [negb].
    rewrite bool_decide_eq_false_2 by (rewrite Hs, length_app; simpl; lia).
    by rewrite bool_decide_eq_true_2 by (rewrite Hs; by rewrite take_app_length').
  - intros t2 (send' & recv' & Ha' & _ & Hst & _). rewrite Ha in Ha'. injection Ha' as <- <-.
    by rewrite Hst, Hs, drop_app_length'.
Qed.

(** C16. A dial connects two applications. Each has a manager for the chat with the other;
    [a] and [b] are the actors of these managers, after whatever they did, both
    disconnected. The reconnect task of [a] dials the other's key and gets a connection it
    can write to. Then [a] is connected over it; and at the other end of that connection,
    whose first bytes are those the dialer's handshake wrote, the protocol actor
    establishes it, the application puts the handle into the inbox of the manager of [b], and
    [b], when it gets round to it, is connected over the same connection. Dialer and accepter
    have opposite origins, the accepter's receive task starts with the bytes that the
    dialer writes next, and the two actors are the ends of a fresh link, with which every
    exchange between two managers begins. *)
Theorem dial_connects_both envp1 envp2 enva respond_to new_id cn1 send1 recv1 p1 p2
    (app1 app2 : AppActor.App) i1 i2 mg1 mg2 a b :
  actor_of app1 (AppActor.public_key app2) i1 mg1 a -> actor_of app2 (AppActor.public_key app1) i2 mg2 b ->
  state (ChatManager.conn a) = IDisconnected -> state_value (ChatManager.conn a) = CDisconnected ->
  state (ChatManager.conn b) = IDisconnected ->
  (* the dialer's endpoint and its protocol actor *)
  ChatProtocol.connect envp1 (AppActor.public_key app2) = Some (inr cn1) -> ChatProtocol.reply_open envp1 respond_to = true ->
  ChatProtocol.open_bi cn1 = Some (inr (send1, recv1)) -> written send1 = [] -> write_results send1 = [] ->
  (* the accepter's channels *)
  ChatProtocol.accept_open envp2 = true -> ChatProtocol.accept_room envp2 = true ->
  AppActor.in_open mg2 = true -> AppActor.inbox mg2 = [] ->
  exists c1 es p1' h1 t1,
    reconnect_task envp1 respond_to new_id (ChatManager.conn a) p1 = (Ok (c1, es), p1') /\
    state c1 = IConnected h1 /\ origin h1 = Connection.Dial /\ connection h1 = ChatProtocol.conn cn1 /\
    ChatProtocol.tasks p1' = ChatProtocol.tasks p1 ++ [t1] /\ ChatProtocol.t_token t1 = cancel_token h1 /\
    ChatProtocol.streams_ready cn1 Connection.Dial t1 /\
    forall cn2 later, other_end (AppActor.public_key app1) cn1 t1 cn2 later ->
    exists p2' app2' mg2' h2 t2,
      accept_path envp2 cn2 enva (p2, app2) = (Ok ChatManager.Continue, (p2', app2')) /\
      AppActor.managers app2' !! i2 = Some mg2' /\ AppActor.inbox mg2' = [ChatManager.PassAcceptedConnHandle h2] /\
      origin h2 = Connection.Accept /\ conn_id (connection h2) = conn_id (connection h1) /\
      conn_remote_id (connection h2) = AppActor.public_key app1 /\
      ChatProtocol.tasks p2' = ChatProtocol.tasks p2 ++ [t2] /\ ChatProtocol.t_token t2 = cancel_token h2 /\
      stream (ChatProtocol.t_recv t2) = later /\
      forall env rdy, ready_for_inbox rdy b -> ChatManager.in_rx rdy = head (Some <$> AppActor.inbox mg2') ->
      exists b', ChatManager.turn env rdy b = (Ok ChatManager.Continue, b') /\ state (ChatManager.conn b') = IConnected h2 /\
        ChatManager.doc_state b' = ChatManager.doc_state b /\
        forall t, ChatManager.conn_before t (ChatManager.conn a) = (c1, existsb ChatManager.notifies es) ->
          fresh_link {| left := ChatManager.others_on_conn t a; right := b'; to_right := []; to_left := [] |}.
Proof using ARL.
  intros (_ & _ & _ & _ & Hrem) (Hcm & Hmg & _) Hst Hval Hstb Hcon Hro Hopen1 Hw1 Hwr1 Hao Har Hopen Hinb.
  pose proof (dial_verdict _ _ _ Hopen1 Hwr1) as Hv1. rewrite <- Hrem in Hcon.
  destruct (reconnect_task_spec envp1 respond_to new_id cn1 _ p1 Hst Hval Hcon Hro) as (c1 & es & p1' & E1 & Hnot & H1);
    [by rewrite Hv1|].
  rewrite Hv1 in H1. destruct H1 as (Hc1 & h1 & t1 & Hs1 & Ho1 & Hn1 & Ht1 & Htok1 & Hstr1).
  exists c1, es, p1', h1, t1. do 7 (split; [done|]). intros cn2 later Hend.
  destruct (accept_verdict _ _ _ _ _ _ _ Hopen1 Hw1 Hstr1 Hend) as [Hv2 Hlater]. destruct Hend as (Hid & Hrem2 & _).
  rewrite <- Hrem2 in Hcm.
  destruct (accept_path_spec envp2 cn2 enva p2 app2 i2 mg2 Hao Har Hv2 Hcm Hmg Hopen) as
    (p2' & app2' & mg2' & h2 & t2 & E2 & Hmg' & _ & Hin & Ho2 & Hn2 & Ht2 & Htok2 & Hstr2).
  { rewrite Hinb. unfold CHANNEL_BUFFER. simpl. lia. }
  rewrite Hinb in Hin. exists p2', app2', mg2', h2, t2. rewrite Hn1, Hn2. do 8 (split; [done|]).
  split; [by apply Hlater|]. rewrite Hin. intros env rdy Hrdy Hrx.
  destruct (handle_taken env rdy h2 b Hrdy Hrx) as (b' & Eb & Hup & Hd & Hsw).
  exists b'. split; [done|]. split; [apply Hsw; unfold should_switch; by rewrite Hstb|]. split; [done|].
  intros t Ht. unfold ChatManager.others_on_conn. rewrite Ht, Hnot, orb_true_r. by split.
Qed.
End Ends.

(** ** A concrete meeting *)

(** Node 1 dials node 0. Both opened the chat with each other on an empty database, and
    their actors wait. *)
Module MeetingSamples.
Import Concrete ConcreteWire WireSamples ToyDoc ChatRepositorySamples ManagerSamples ChatProtocolSamples AppSamples.

Definition taking (i : ChatManager.InMessage) : ChatManager.Ready :=
  {| ChatManager.cancelled := false; ChatManager.tick := false; ChatManager.subscribe_rx := None;
     ChatManager.in_rx := Some (Some i); ChatManager.conn_rx := None |}.

Lemma asked_actor (k p : nat) :
  exists (app : AppActor.App) i mg a, actor_of app (p : @EndpointId keys) i mg a /\ AppActor.public_key app = (k : @EndpointId keys) /\
    AppActor.in_open mg = true /\ AppActor.inbox mg = [] /\ state (ChatManager.conn a) = IDisconnected /\
    state_value (ChatManager.conn a) = CDisconnected /\ forall h, ready_for_inbox (taking h) a.
Proof.
  destruct (asked_for k p) as (app & i & mg & d & _ & _ & Hk & Hm & Hms & Hi & Hopen & Hin & Ha).
  eexists app, i, mg, _. split.
  { split; [by rewrite Hk|]. split; [by rewrite Hms, Hi|]. rewrite Ha. split; [by exists (sample_env true), []|].
    split; [by rewrite Hk|done]. }
  done.
Qed.

Lemma dial_connects_both_witness :
  exists app1 app2 i1 i2 mg1 mg2 a b c1 es p1' p2' app2' b' h,
    actor_of app1 (0 : @EndpointId keys) i1 mg1 a /\ actor_of app2 (1 : @EndpointId keys) i2 mg2 b /\
    reconnect_task (env_of 0) 4 (8 : @Uuid uuids) (ChatManager.conn a) fresh_actor = (Ok (c1, es), p1') /\
    accept_path (env_of 1) (conn_with 1 OPEN_MESSAGE true) calm_env (fresh_actor, app2) =
      (Ok ChatManager.Continue, (p2', app2')) /\
    ChatManager.turn (sample_env true) (taking (ChatManager.PassAcceptedConnHandle h)) b = (Ok ChatManager.Continue, b') /\
    fresh_link {| left := ChatManager.others_on_conn {| ChatManager.conn_before := fun _ => (c1, existsb ChatManager.notifies es);
                    ChatManager.env := sample_env true; ChatManager.ready := idle |} a;
                  right := b'; to_right := []; to_left := [] |}.
Proof.
  destruct (asked_actor 1 0) as (app1 & i1 & mg1 & a & Ha & Hk1 & _ & _ & Hst & Hval & _).
  destruct (asked_actor 0 1) as (app2 & i2 & mg2 & b & Hb & Hk2 & Hopen & Hin & Hstb & _ & Hready).
  destruct (dial_connects_both (env_of 0) (env_of 1) calm_env 4 (8 : @Uuid uuids) (conn_with 0 [] true) no_writes (cut [])
      fresh_actor fresh_actor app1 app2 i1 i2 mg1 mg2 a b)
    as (c1 & es & p1' & h1 & t1 & E1 & _ & _ & _ & _ & _ & Hstr & H).
  - by rewrite Hk2.
  - by rewrite Hk1.
  - exact Hst.
  - exact Hval.
  - exact Hstb.
  - reflexivity.
  - reflexivity.
  - reflexivity.
  - reflexivity.
  - reflexivity.
  - reflexivity.
  - reflexivity.
  - exact Hopen.
  - exact Hin.
  - destruct (H (conn_with 1 OPEN_MESSAGE true) []) as (p2' & app2' & mg2' & h2 & t2 & E2 & _ & Hin' & _ & _ & _ & _ & _ & _ & Hb').
    { split; [done|]. split; [by rewrite Hk1|]. exists no_writes, (cut OPEN_MESSAGE). do 2 (split; [done|]).
      destruct Hstr as (send & recv & [= <- <-] & _ & -> & _). by vm_compute. }
    destruct (Hb' (sample_env true) (taking (ChatManager.PassAcceptedConnHandle h2))) as (b' & Eb & _ & _ & Hl); [apply Hready|by rewrite Hin'|].
    exists app1, app2, i1, i2, mg1, mg2, a, b, c1, es, p1', p2', app2', b', h2.
    split; [exact Ha|]. split; [exact Hb|]. split; [exact E1|]. split; [exact E2|]. split; [exact Eb|].
    apply Hl. reflexivity.
Defined.
End MeetingSamples.
