(* ===== verification/Log.v ===== *)
(** The log bridge (src/src/log.rs): the tracing layer that renders spans and events as text
    for a foreign logger. The registry's spans are a map from span ids; the text of a value
    under [Debug] and of a duration come from outside. *)
From S2P Require Import Prelude.
From stdpp Require Import base gmap strings list pretty.
From Stdlib Require Import ZArith Lia.
Open Scope tryst_scope.

Inductive LogLevel := LevelError | LevelWarn | LevelInfo | LevelDebug | LevelTrace.

(** [impl Display for LogLevel] *)
Definition log_level_to_string (l : LogLevel) : string :=
  match l with
  | LevelError => "error"
  | LevelWarn => "warn"
  | LevelInfo => "info"
  | LevelDebug => "debug"
  | LevelTrace => "trace"
  end.

(** [tracing::Level] *)
Inductive Level := ERROR | WARN | INFO | DEBUG | TRACE.

(** [impl From<&Level> for LogLevel] *)
Definition log_level_of (level : Level) : LogLevel :=
  match level with
  | ERROR => LevelError
  | WARN => LevelWarn
  | INFO => LevelInfo
  | DEBUG => LevelDebug
  | TRACE => LevelTrace
  end.

Module FfiTracingLayer.

(** A recorded field, by the [Visit] method that gets it; [VDebug] has the [Debug] text. *)
Inductive FieldValue :=
| VStr (value : string)
| VI64 (value : Z)
| VU64 (value : Z)
| VBool (value : bool)
| VDebug (value : string).

Record Field := { name : string; value : FieldValue }.

Record FfiFieldVisitor := { fields : string; message : option string }.

Definition visitor_default : FfiFieldVisitor := {| fields := ""; message := None |}.

Definition finish (v : FfiFieldVisitor) : string := fields v.

Definition maybe_add_separator (v : FfiFieldVisitor) : FfiFieldVisitor :=
  if bool_decide (fields v <> "") then {| fields := fields v +:+ ", "; message := message v |} else v.

Definition push_field (text : string) (v : FfiFieldVisitor) : FfiFieldVisitor :=
  let v := maybe_add_separator v in {| fields := fields v +:+ text; message := message v |}.

Definition set_message (text : string) (v : FfiFieldVisitor) : FfiFieldVisitor :=
  {| fields := fields v; message := Some text |}.

(** A double quote. *)
Definition dquote : string := String (Ascii.ascii_of_nat 34) "".

Definition bool_to_string (b : bool) : string := if b then "true" else "false".

Definition record_str (field value : string) (v : FfiFieldVisitor) : FfiFieldVisitor :=
  if bool_decide (field = "message") then set_message value v
  else push_field (field +:+ " = " +:+ dquote +:+ value +:+ dquote) v.

Definition record_i64 (field : string) (value : Z) (v : FfiFieldVisitor) : FfiFieldVisitor :=
  push_field (field +:+ " = " +:+ pretty value) v.

Definition record_u64 (field : string) (value : Z) (v : FfiFieldVisitor) : FfiFieldVisitor :=
  push_field (field +:+ " = " +:+ pretty value) v.

Definition record_bool (field : string) (value : bool) (v : FfiFieldVisitor) : FfiFieldVisitor :=
  push_field (field +:+ " = " +:+ bool_to_string value) v.

Definition record_debug (field value : string) (v : FfiFieldVisitor) : FfiFieldVisitor :=
  if bool_decide (field = "message") then set_message value v
  else push_field (field +:+ " = " +:+ value) v.

(** [attrs.record(&mut visitor)]: every field goes to its method, in order. *)
Definition visit (v : FfiFieldVisitor) (f : Field) : FfiFieldVisitor :=
  match value f with
  | VStr s => record_str (name f) s v
  | VI64 z => record_i64 (name f) z v
  | VU64 z => record_u64 (name f) z v
  | VBool b => record_bool (name f) b v
  | VDebug s => record_debug (name f) s v
  end.
Definition record (fs : list Field) (v : FfiFieldVisitor) : FfiFieldVisitor := foldl visit v fs.

(** ** The layer *)
Record Metadata := { meta_name : string; level : Level; target : string }.

(** The extension the layer keeps in a span. *)
Record SpanData := { start : Z; span_fields : string }.

Record Span := { metadata : Metadata; extension : option SpanData }.

(** The registry's open spans and what the foreign logger was called with. *)
Record Layer := { spans : gmap nat Span; logged : list (LogLevel * string * string) }.

Definition set_extension (id : nat) (d : SpanData) (l : Layer) : Layer :=
  {| spans := alter (fun s => {| metadata := metadata s; extension := Some d |}) id (spans l); logged := logged l |}.

(** [swift_logger_proxy.log(..)] *)
Definition log (m : Metadata) (text : string) (l : Layer) : Layer :=
  {| spans := spans l; logged := logged l ++ [(log_level_of (level m), target m, text)] |}.

(** [init_logger]: the filter it asks for, with [try_new] the parser of filters; whether the
    subscriber could be installed. *)
Inductive LoggerInitError := SetLoggerError.

Definition filter_str (general_level gossip_core_level : LogLevel) : string :=
  log_level_to_string general_level +:+ ",gossip_core=" +:+ log_level_to_string gossip_core_level.

Definition init_logger {F} (try_new : string -> option F) (filter_new : string -> F)
    (try_init : F -> bool) (general_level gossip_core_level : LogLevel) : outcome LoggerInitError F :=
  let filter := from_option id (filter_new "info") (try_new (filter_str general_level gossip_core_level)) in
  if try_init filter then Ok filter else Err SetLoggerError.

Section Layer.
(** The [Debug] text of a duration. *)
Context (duration_text : Z -> string).

(** The [expect] on the span unwinds when the registry does not know it. *)
Definition on_new_span (now : Z) (attrs : list Field) (id : nat) : action Layer Empty_set unit :=
  span <- gets (fun l => spans l !! id) ;;
  match span with
  | None => lift Panic
  | Some span =>
      let visitor := record attrs visitor_default in
      let fields := finish visitor in
      modify (log (metadata span) ("start: " +:+ meta_name (metadata span) +:+ " { " +:+ fields +:+ " }")) ;;;
      modify (set_extension id {| start := now; span_fields := fields |}) ;;;
      (* [ExtensionsMut::insert] asserts that there was no such extension *)
      match extension span with None => ret tt | Some _ => lift Panic end
  end.

Definition on_record (id : nat) (values : list Field) : action Layer Empty_set unit :=
  span <- gets (fun l => spans l !! id) ;;
  match span with
  | None => lift Panic
  | Some span =>
      match extension span with
      | Some span_data =>
          let visitor := record values visitor_default in
          if bool_decide (fields visitor <> "") then
            let before := if bool_decide (span_fields span_data <> "") then span_fields span_data +:+ ", "
                          else span_fields span_data in
            modify (set_extension id {| start := start span_data; span_fields := before +:+ finish visitor |})
          else ret tt
      | None => ret tt
      end
  end.

Definition on_event (m : Metadata) (event : list Field) : action Layer Empty_set unit :=
  let visitor := record event visitor_default in
  let primary_message := from_option id (meta_name m) (message visitor) in
  let fields := finish visitor in
  let text := if bool_decide (fields = "") then primary_message
              else primary_message +:+ " { " +:+ fields +:+ " }" in
  modify (log m text).

Definition on_close (now : Z) (id : nat) : action Layer Empty_set unit :=
  span <- gets (fun l => spans l !! id) ;;
  match span with
  | Some span =>
      match extension span with
      | Some data =>
          modify (log (metadata span)
            ("end: " +:+ meta_name (metadata span) +:+ " (duration: " +:+ duration_text (now - start data) +:+ ") { "
             +:+ span_fields data +:+ " }"))
      | None => ret tt
      end
  | None => ret tt
  end.

(** What the registry does around the layer: it opens a span before [on_new_span] and
    forgets it after [on_close]. *)
Inductive Op :=
| NewSpan (now : Z) (id : nat) (m : Metadata) (attrs : list Field)
| Record_ (id : nat) (values : list Field)
| Event (m : Metadata) (event : list Field)
| Close (now : Z) (id : nat).

Definition run_op (op : Op) : action Layer Empty_set unit :=
  match op with
  | NewSpan now id m attrs =>
      modify (fun l => {| spans := <[id := {| metadata := m; extension := None |}]> (spans l); logged := logged l |}) ;;;
      on_new_span now attrs id
  | Record_ id values => on_record id values
  | Event m event => on_event m event
  | Close now id =>
      on_close now id ;;;
      modify (fun l => {| spans := delete id (spans l); logged := logged l |})
  end.

Fixpoint run_ops (ops : list Op) : action Layer Empty_set unit :=
  match ops with
  | [] => ret tt
  | op :: ops' => run_op op ;;; run_ops ops'
  end.


(** ** What the layer is to say *)

(** The registry's part of the contract: it calls the layer only about open spans, and a
    new span's id is not in use. *)
Definition known (open : gset nat) (op : Op) : bool :=
  match op with
  | NewSpan _ id _ _ => bool_decide (id ∉ open)
  | Record_ id _ | Close _ id => bool_decide (id ∈ open)
  | Event _ _ => true
  end.
Definition opened (open : gset nat) (op : Op) : gset nat :=
  match op with
  | NewSpan _ id _ _ => {[id]} ∪ open
  | Close _ id => open ∖ {[id]}
  | _ => open
  end.
Fixpoint scoped (open : gset nat) (ops : list Op) : bool :=
  match ops with
  | [] => true
  | op :: ops' => known open op && scoped (opened open op) ops'
  end.

(** A text or debug value named "message" is not a field. *)
Definition shown (f : Field) : bool :=
  match value f with
  | VStr _ | VDebug _ => negb (bool_decide (name f = "message"))
  | _ => true
  end.

Definition field_text (f : Field) : string :=
  name f +:+ " = " +:+
  match value f with
  | VStr s => dquote +:+ s +:+ dquote
  | VI64 z | VU64 z => pretty z
  | VBool b => bool_to_string b
  | VDebug s => s
  end.

Definition texts (fs : list Field) : list string := map field_text (List.filter shown fs).

Definition message_text (f : Field) : option string :=
  match value f with
  | VStr s | VDebug s => if bool_decide (name f = "message") then Some s else None
  | _ => None
  end.

(** The event's own message: the last of its fields of that name. *)
Definition last_message (fs : list Field) : option string := last (omap message_text fs).

Definition joined (ts : list string) : string := String.concat ", " ts.

(** What was recorded on span [id]. *)
Definition records_of (id : nat) (ops : list Op) : list Field :=
  concat (omap (fun op => match op with
                          | Record_ id' values => if bool_decide (id' = id) then Some values else None
                          | _ => None
                          end) ops).

Definition closes (id : nat) (op : Op) : bool :=
  match op with Close _ id' => bool_decide (id' = id) | _ => false end.

Definition line (m : Metadata) (text : string) : LogLevel * string * string :=
  (log_level_of (level m), target m, text).

Definition event_line (m : Metadata) (event : list Field) : LogLevel * string * string :=
  let msg := from_option id (meta_name m) (last_message event) in
  line m (match texts event with
          | [] => msg
          | ts => msg +:+ " { " +:+ joined ts +:+ " }"
          end).

Lemma append_nonempty (a b : string) : b <> "" -> String.append a b <> "".
Proof. by destruct a. Qed.

Lemma field_text_nonempty f : field_text f <> "".
Proof. unfold field_text. by apply append_nonempty. Qed.

Lemma joined_cons t ts :
  joined (t :: ts) = if bool_decide (ts = []) then t else t +:+ ", " +:+ joined ts.
Proof. by destruct ts. Qed.

Lemma joined_app a b :
  joined (a ++ b) =
    if bool_decide (a = []) then joined b
    else if bool_decide (b = []) then joined a else joined a +:+ ", " +:+ joined b.
Proof.
  induction a as [|x a IH]; [done|]. rewrite (bool_decide_false (x :: a = [])) by done.
  cbn [app]. rewrite !joined_cons, IH.
  destruct a as [|y a]; simpl app.
  - destruct b; [done|]. by rewrite !bool_decide_false by done.
  - rewrite (bool_decide_false (y :: a ++ b = [])), !(bool_decide_false (y :: a = [])) by done.
    repeat case_bool_decide; by rewrite ?append_assoc.
Qed.

Lemma joined_empty ts : Forall (fun t => t <> "") ts -> joined ts = "" <-> ts = [].
Proof.
  intros Hts. split; [|by intros ->]. destruct Hts as [|t ts Ht Hts]; [done|].
  rewrite joined_cons. case_bool_decide; [done|]. intros H0. by apply append_nonempty in H0.
Qed.

Lemma texts_nonempty fs : Forall (fun t => t <> "") (texts fs).
Proof. apply Forall_forall. intros t (f & -> & _)%list_elem_of_fmap. apply field_text_nonempty. Qed.

Lemma texts_app a b : texts (a ++ b) = texts a ++ texts b.
Proof. unfold texts. by rewrite List.filter_app, map_app. Qed.

Lemma texts_one f : texts [f] = if shown f then [field_text f] else [].
Proof. unfold texts. simpl. by destruct (shown f). Qed.

(** Text [b] after text [a], with a separator if [a] is not empty. *)
Definition after (a b : string) : string :=
  (if bool_decide (a <> "") then a +:+ ", " else a) +:+ b.

Lemma after_joined a b :
  Forall (fun t => t <> "") a -> b <> [] -> after (joined a) (joined b) = joined (a ++ b).
Proof.
  intros Ha Hb. pose proof (joined_empty _ Ha) as [Ha1 Ha2]. rewrite joined_app. unfold after.
  destruct (decide (a = [])) as [->|Ea].
  - by rewrite bool_decide_false by (intros H; by apply H).
  - rewrite (bool_decide_true (joined a <> "")) by tauto.
    rewrite !bool_decide_false by done. by rewrite append_assoc.
Qed.

Lemma visit_fields v f :
  fields (visit v f) = if shown f then after (fields v) (field_text f) else fields v.
Proof.
  destruct f as [n [s|z|z|b|s]]; unfold visit, shown, after, field_text, record_str, record_i64,
    record_u64, record_bool, record_debug, push_field, set_message, maybe_add_separator; cbn [value name];
    repeat case_bool_decide; simpl; rewrite ?append_assoc; done.
Qed.

(** The visitor's text is the join of the fields it was given. *)
Lemma record_fields fs a v :
  fields v = joined (texts a) -> fields (record fs v) = joined (texts (a ++ fs)).
Proof.
  revert a v. induction fs as [|f fs IH]; intros a v Hv.
  - by rewrite app_nil_r.
  - change (f :: fs) with ([f] ++ fs). rewrite (assoc_L (++)). apply (IH (a ++ [f])).
    rewrite visit_fields, texts_app, Hv, texts_one.
    destruct (shown f); [|by rewrite app_nil_r].
    by rewrite <- after_joined by (done || apply texts_nonempty).
Qed.

Lemma record_default_fields fs : fields (record fs visitor_default) = joined (texts fs).
Proof. by apply (record_fields fs []). Qed.

Lemma visit_message v f :
  message (visit v f) = from_option Some (message v) (message_text f).
Proof.
  destruct f as [n [s|z|z|b|s]]; unfold visit, message_text, record_str, record_i64, record_u64,
    record_bool, record_debug, push_field, set_message, maybe_add_separator; cbn [value name];
    repeat case_bool_decide; done.
Qed.

Lemma record_message fs v :
  message (record fs v) = from_option Some (message v) (last (omap message_text fs)).
Proof.
  revert v. induction fs as [|f fs IH]; intros v; [done|].
  change (record (f :: fs) v) with (record fs (visit v f)). rewrite IH, visit_message.
  change (omap message_text (f :: fs)) with (omap message_text ([f] ++ fs)).
  rewrite omap_app, last_app. simpl. destruct (last (omap message_text fs)); [done|].
  by destruct (message_text f).
Qed.

(** ** What a run of the layer says *)
Definition start_line (m : Metadata) (attrs : list Field) : LogLevel * string * string :=
  line m ("start: " +:+ meta_name m +:+ " { " +:+ joined (texts attrs) +:+ " }").
Definition end_line (m : Metadata) (d : Z) (fs : list Field) : LogLevel * string * string :=
  line m ("end: " +:+ meta_name m +:+ " (duration: " +:+ duration_text d +:+ ") { " +:+ joined (texts fs) +:+ " }").

(** A span as the layer should see it: when it began, its fields in the order recorded. *)
Record Story := { story_meta : Metadata; began : Z; told : list Field }.

(** The stories an operation continues, and the lines it is worth. *)
Definition tell (open : gmap nat Story) (op : Op) : gmap nat Story :=
  match op with
  | NewSpan now id m attrs => <[id := {| story_meta := m; began := now; told := attrs |}]> open
  | Record_ id values =>
      alter (fun s => {| story_meta := story_meta s; began := began s; told := told s ++ values |}) id open
  | Event _ _ => open
  | Close _ id => delete id open
  end.
Definition op_lines (open : gmap nat Story) (op : Op) : list (LogLevel * string * string) :=
  match op with
  | NewSpan now id m attrs => [start_line m attrs]
  | Record_ id values => []
  | Event m event => [event_line m event]
  | Close now id =>
      match open !! id with Some s => [end_line (story_meta s) (now - began s) (told s)] | None => [] end
  end.
Fixpoint story (open : gmap nat Story) (ops : list Op) : list (LogLevel * string * string) :=
  match ops with
  | [] => []
  | op :: ops' => op_lines open op ++ story (tell open op) ops'
  end.

Lemma dom_tell open op : known (dom open) op = true -> dom (tell open op) = opened (dom open) op.
Proof.
  destruct op as [now id m attrs|id values|m event|now id]; intros _; cbn [tell opened].
  - by rewrite dom_insert_L.
  - by rewrite dom_alter_L.
  - done.
  - by rewrite dom_delete_L.
Qed.

Definition span_of (s : Story) : Span :=
  {| metadata := story_meta s;
     extension := Some {| start := began s; span_fields := joined (texts (told s)) |} |}.

Definition tells (l : Layer) (open : gmap nat Story) : Prop := spans l = span_of <$> open.

Lemma tells_lookup l open id : tells l open -> spans l !! id = span_of <$> open !! id.
Proof. intros ->. apply lookup_fmap. Qed.

Lemma new_span_tells now id m attrs l open :
  tells l open ->
  exists l', run_op (NewSpan now id m attrs) l = (Ok tt, l') /\ tells l' (tell open (NewSpan now id m attrs)) /\
    logged l' = logged l ++ [start_line m attrs].
Proof.
  intros Hl. eexists. split; [|split].
  - unfold run_op, on_new_span, bind, modify, gets. cbn. rewrite lookup_insert_eq. cbn. done.
  - unfold tells, tell, log, set_extension. cbn [spans]. rewrite Hl, fmap_insert.
    rewrite alter_insert_eq. cbn. unfold span_of, finish. cbn. by rewrite record_default_fields.
  - cbn. unfold start_line, line, finish. by rewrite record_default_fields.
Qed.

Lemma record_tells id values l open s :
  tells l open -> open !! id = Some s ->
  exists l', run_op (Record_ id values) l = (Ok tt, l') /\ tells l' (tell open (Record_ id values)) /\
    logged l' = logged l.
Proof.
  intros Hl Hs. pose proof (tells_lookup l open id Hl) as Hid. rewrite Hs in Hid.
  unfold run_op, on_record, bind, gets. rewrite Hid. cbn [fmap option_fmap option_map span_of extension].
  rewrite !record_default_fields.
  pose proof (joined_empty _ (texts_nonempty values)) as Hne.
  destruct (decide (texts values = [])) as [E|E].
  - rewrite bool_decide_false by (intros H; by apply H, Hne). eexists. split; [done|]. split; [|done].
    unfold tells, tell. rewrite Hl. apply map_eq. intros id'. rewrite !lookup_fmap.
    destruct (decide (id' = id)) as [->|Hn]; [|by rewrite lookup_alter_ne].
    rewrite lookup_alter_eq, Hs. cbn [fmap option_fmap option_map]. unfold span_of.
    cbn [told story_meta began]. by rewrite texts_app, E, app_nil_r.
  - rewrite bool_decide_true by tauto. eexists. split; [done|]. split; [|done].
    unfold tells, tell, set_extension. cbn [spans]. rewrite Hl.
    apply map_eq. intros id'. rewrite lookup_fmap. destruct (decide (id' = id)) as [->|Hn].
    + rewrite !lookup_alter_eq, lookup_fmap, Hs.
      cbn [fmap option_fmap option_map]. unfold span_of at 2. cbn [told story_meta began]. do 3 f_equal.
      by rewrite texts_app, <- after_joined by (done || apply texts_nonempty).
    + by rewrite !lookup_alter_ne, lookup_fmap.
Qed.

Lemma event_tells m event l :
  exists l', run_op (Event m event) l = (Ok tt, l') /\ spans l' = spans l /\
    logged l' = logged l ++ [event_line m event].
Proof.
  eexists. split; [done|]. split; [done|]. cbn. unfold event_line, line. do 3 f_equal.
  rewrite record_message, record_default_fields.
  pose proof (joined_empty _ (texts_nonempty event)) as Hne.
  destruct (decide (texts event = [])) as [E|E].
  - rewrite bool_decide_true by tauto. rewrite E. unfold last_message. by destruct (last _).
  - rewrite bool_decide_false by tauto. unfold last_message.
    destruct (texts event); [done|]. by destruct (last _).
Qed.

Lemma close_tells now id l open s :
  tells l open -> open !! id = Some s ->
  exists l', run_op (Close now id) l = (Ok tt, l') /\ tells l' (tell open (Close now id)) /\
    logged l' = logged l ++ [end_line (story_meta s) (now - began s) (told s)].
Proof.
  intros Hl Hs. pose proof (tells_lookup l open id Hl) as Hid. rewrite Hs in Hid.
  unfold run_op, on_close, bind, gets. rewrite Hid. eexists. split; [done|]. split; [|done].
  unfold tells. cbn [spans log tell]. by rewrite Hl, fmap_delete.
Qed.

(** One operation: the layer does not panic and says its lines. *)
Lemma run_op_tells op l open :
  tells l open -> known (dom open) op = true ->
  exists l', run_op op l = (Ok tt, l') /\ tells l' (tell open op) /\ logged l' = logged l ++ op_lines open op.
Proof.
  intros Hl Hk. destruct op as [now id m attrs|id values|m event|now id]; cbn [known] in Hk.
  - by apply new_span_tells.
  - apply bool_decide_eq_true, elem_of_dom in Hk as [s Hs].
    destruct (record_tells id values l open s Hl Hs) as (l' & H1 & H2 & H3). exists l'.
    by rewrite app_nil_r.
  - destruct (event_tells m event l) as (l' & H1 & H2 & H3). exists l'. split_and!; [done| |done].
    unfold tells. by rewrite H2.
  - apply bool_decide_eq_true, elem_of_dom in Hk as [s Hs]. cbn [op_lines]. rewrite Hs.
    by apply close_tells.
Qed.

Lemma run_ops_tells ops : forall l open,
  tells l open -> scoped (dom open) ops = true ->
  exists l', run_ops ops l = (Ok tt, l') /\ logged l' = logged l ++ story open ops.
Proof.
  induction ops as [|op ops IH]; intros l open Hl Hs.
  { exists l. by rewrite app_nil_r. }
  cbn [scoped] in Hs. apply andb_true_iff in Hs as [Hk Hs].
  destruct (run_op_tells op l open Hl Hk) as (l1 & H1 & H2 & H3).
  destruct (IH l1 (tell open op) H2) as (l' & Hrun & Hlog); [by rewrite dom_tell|].
  exists l'. cbn [run_ops story]. rewrite (bind_ok _ _ _ _ _ H1). split; [done|].
  by rewrite Hlog, H3, (assoc_L (++)).
Qed.

(** ** The line that closes a span *)
Lemma story_app ops : forall open ops',
  scoped (dom open) (ops ++ ops') = true ->
  exists open', scoped (dom open') ops' = true /\ story open (ops ++ ops') = story open ops ++ story open' ops'.
Proof.
  induction ops as [|op ops IH]; intros open ops' Hs; [by exists open|].
  cbn [scoped app] in Hs. apply andb_true_iff in Hs as [Hk Hs].
  rewrite <- dom_tell in Hs by done. destruct (IH _ _ Hs) as (open' & H1 & H2).
  exists open'. split; [done|]. cbn [story app]. by rewrite H2, (assoc_L (++)).
Qed.

Lemma story_close id mid : forall open s t1 post,
  open !! id = Some s -> scoped (dom open) (mid ++ Close t1 id :: post) = true ->
  existsb (closes id) mid = false ->
  end_line (story_meta s) (t1 - began s) (told s ++ records_of id mid)
    ∈ story open (mid ++ Close t1 id :: post).
Proof.
  induction mid as [|op mid IH]; intros open s t1 post Hid Hs Hc.
  { cbn [story app op_lines]. rewrite Hid. unfold records_of. cbn. rewrite app_nil_r. set_solver. }
  cbn [scoped app] in Hs. apply andb_true_iff in Hs as [Hk Hs]. rewrite <- dom_tell in Hs by done.
  apply orb_false_iff in Hc as [Hc1 Hc]. cbn [story app]. apply elem_of_app. right.
  destruct op as [now id' m attrs|id' values|m event|now id']; cbn [known tell closes] in *.
  - apply bool_decide_eq_true in Hk. apply IH; [|done..].
    rewrite lookup_insert_ne; [done|]. intros ->. apply Hk, elem_of_dom. eauto.
  - destruct (decide (id' = id)) as [->|Hn].
    + unfold records_of. cbn. rewrite bool_decide_true by done. cbn. rewrite (assoc_L (++)).
      eapply (IH _ {| story_meta := story_meta s; began := began s; told := told s ++ values |}); [|done..].
      by rewrite lookup_alter_eq, Hid.
    + unfold records_of. cbn. rewrite bool_decide_false by done.
      apply IH; [by rewrite lookup_alter_ne|done..].
  - by apply IH.
  - apply bool_decide_eq_false in Hc1. apply IH; [by rewrite lookup_delete_ne|done..].
Qed.
End Layer.

Definition initial : Layer := {| spans := ∅; logged := [] |}.

(** C24. Whatever spans are open at once, the layer never unwinds as long as the registry
    tells it of open spans only, and the foreign logger gets exactly the lines of the
    stories: the fields of a span are kept as text and joined piece by piece, and its last
    line has the fields it was opened with and all that were recorded on it, in order,
    separated by commas, without those named "message", and the time since it was opened. *)
Theorem log_tells_stories (duration_text : Z -> string) (ops : list Op) :
  scoped ∅ ops = true ->
  exists l, run_ops duration_text ops initial = (Ok tt, l) /\
    logged l = story duration_text ∅ ops /\
    forall pre t0 id m attrs mid t1 post,
      ops = pre ++ NewSpan t0 id m attrs :: mid ++ Close t1 id :: post ->
      existsb (closes id) mid = false ->
      end_line duration_text m (t1 - t0) (attrs ++ records_of id mid) ∈ logged l.
Proof.
  intros Hs. destruct (run_ops_tells duration_text ops initial ∅) as (l & Hrun & Hlog).
  { unfold tells. by rewrite fmap_empty. }
  { by rewrite dom_empty_L. }
  exists l. split_and!; [done..|]. intros pre t0 id m attrs mid t1 post -> Hc. rewrite Hlog.
  rewrite <- (dom_empty_L (M := gmap nat) (A := Story)) in Hs.
  destruct (story_app duration_text _ _ _ Hs) as (open & Hs1 & ->). cbn [initial logged app].
  apply elem_of_app. right. cbn [story]. apply elem_of_app. right.
  cbn [scoped] in Hs1. apply andb_true_iff in Hs1 as [Hk Hs1]. rewrite <- dom_tell in Hs1 by done.
  eapply (story_close duration_text id mid _ {| story_meta := m; began := t0; told := attrs |}); [|done..].
  cbn [tell]. by rewrite lookup_insert_eq.
Qed.

(** Two spans at once, a record on each, an event between. *)
Definition sample_meta (n : string) : Metadata := {| meta_name := n; level := INFO; target := "tryst" |}.
Definition sample_ops : list Op :=
  [ NewSpan 0 1 (sample_meta "dial") [{| name := "peer"; value := VStr "bob" |}];
    NewSpan 1 2 (sample_meta "sync") [];
    Record_ 1 [{| name := "message"; value := VDebug "hidden" |}; {| name := "tries"; value := VU64 3 |}];
    Event (sample_meta "event") [{| name := "message"; value := VDebug "hello" |}; {| name := "ok"; value := VBool true |}];
    Record_ 2 [{| name := "size"; value := VI64 7 |}];
    Close 5 1; Close 9 2 ].

Lemma log_tells_stories_witness :
  scoped ∅ sample_ops = true /\
  (exists l, run_ops pretty sample_ops initial = (Ok tt, l) /\
    logged l = story pretty ∅ sample_ops /\
    forall pre t0 id m attrs mid t1 post,
      sample_ops = pre ++ NewSpan t0 id m attrs :: mid ++ Close t1 id :: post ->
      existsb (closes id) mid = false ->
      end_line pretty m (t1 - t0) (attrs ++ records_of id mid) ∈ logged l) /\
  map snd (story pretty ∅ sample_ops) =
    [ "start: dial { peer = " +:+ dquote +:+ "bob" +:+ dquote +:+ " }";
      "start: sync {  }";
      "hello { ok = true }";
      "end: dial (duration: 5) { peer = " +:+ dquote +:+ "bob" +:+ dquote +:+ ", tries = 3 }";
      "end: sync (duration: 8) { size = 7 }" ].
Proof.
  split; [reflexivity|]. split; [exact (log_tells_stories pretty sample_ops eq_refl)|vm_compute; reflexivity].
Defined.
End FfiTracingLayer.
