(* ===== verification/Lifecycle.v ===== *)
(** Start-up and shutdown: keys, [setup_db], [Application::new_with_config] and
    [Application::shutdown] (src/src/app.rs), and [NetworkEndpoint::start]
    (src/src/network_endpoint.rs). What iroh's endpoint and discovery builders return is a
    parameter; the database files are a map from their paths. *)
From S2P Require Import Prelude External Wire Errors ChatTypes Database Automerge Schema Repository Connection Peers Manager Tryst Handler App.
From stdpp Require Import base gmap strings list.
From Stdlib Require Import ZArith Lia Floats.SpecFloat.
Open Scope tryst_scope.

(** ** Keys *)

(** iroh's [SecretKey] and data_encoding's [HEXLOWER]. *)
Class SecretKeys (Ids : EndpointIds) := {
  SecretKey : Type;
  public : SecretKey -> EndpointId;
  sk_to_bytes : SecretKey -> bytes;
  sk_from_bytes : bytes -> SecretKey;
  sk_from_str : string -> string + SecretKey;
  hexlower_encode : bytes -> string;
  hexlower_decode : string -> option bytes;
}.

(** A key is its 32 bytes, [HEXLOWER] is lossless, and [FromStr] reads hexadecimal. *)
Class SecretKeyLaws {Ids : EndpointIds} (K : SecretKeys Ids) : Prop := {
  sk_length (sk : SecretKey) : length (sk_to_bytes sk) = 32;
  sk_from_to_bytes (sk : SecretKey) : sk_from_bytes (sk_to_bytes sk) = sk;
  hexlower_decode_encode (b : bytes) : hexlower_decode (hexlower_encode b) = Some b;
  sk_from_str_hex (sk : SecretKey) : sk_from_str (hexlower_encode (sk_to_bytes sk)) = inr sk;
}.

Section Keys.
Context {Ids : EndpointIds} {K : SecretKeys Ids}.

(** [EpochSecret::dht_key] of the snapshot: the raw secret as a key (crypto.rs). *)
Definition dht_key (s : EpochSecret) (account_id : EndpointId) : SecretKey := sk_from_bytes (secret_bytes s).

(** [generate_private_key], for the key the generator drew. *)
Definition generate_private_key (secret_key : SecretKey) : string := hexlower_encode (sk_to_bytes secret_key).

Definition secret_key_from_hex_lower (secret_key_str : string) : outcome anyhow SecretKey :=
  match hexlower_decode secret_key_str with
  | None => Err "Failed to decode Secret Key from HEX Lower str."
  | Some decoded_bytes =>
      match to_array_32 decoded_bytes with
      | None => Err "Provided Secret Key hex str is wrong length."
      | Some decoded_key => Ok (sk_from_bytes decoded_key)
      end
  end.

Lemma key_string_roundtrip {KL : SecretKeyLaws K} sk :
  secret_key_from_hex_lower (generate_private_key sk) = Ok sk /\ sk_from_str (generate_private_key sk) = inr sk.
Proof.
  unfold secret_key_from_hex_lower, generate_private_key. rewrite hexlower_decode_encode.
  unfold to_array_32. rewrite bool_decide_true by apply sk_length.
  by rewrite sk_from_to_bytes, sk_from_str_hex.
Qed.
End Keys.

(** ** The database file *)

(** A file: the migrations applied to it and the tables' contents; a table that no
    migration has created yet is an empty one. *)
Record File := { applied : list string; chat_tables : Db; trysts : list TrystRepository.RawTryst }.


Definition file_data (f : option File) : Db * list TrystRepository.RawTryst :=
  match f with Some f => (chat_tables f, trysts f) | None => (empty_db, []) end.

Abbreviation Files := (gmap string File).
Abbreviation Disk := (World Files).

(** The files of src/migrations/. *)
Definition MIGRATIONS : list string := ["20250207000000_tryst"; "20250414093115_setup"].

Definition database_exists (db_url : string) : action Disk LibError bool :=
  stmt (fun fs => (Ok (bool_decide (is_Some (fs !! db_url))), fs)).

(** Creating opens a file that is there already. *)
Definition create_database (db_url : string) : action Disk LibError unit :=
  stmt (fun fs =>
    (Ok tt, match fs !! db_url with
            | Some _ => fs
            | None => <[db_url := {| applied := []; chat_tables := empty_db; trysts := [] |}]> fs
            end)).

Definition connect_pool (db_url : string) : action Disk LibError string :=
  stmt (fun fs => match fs !! db_url with
                  | Some _ => (Ok db_url, fs)
                  | None => (Err "unable to open database file", fs)
                  end).

(** One migration, in its own transaction, unless it has been applied. *)
Definition apply_migration (db_url name : string) (fs : Files) : outcome string unit * Files :=
  match fs !! db_url with
  | None => (Err "unable to open database file", fs)
  | Some f =>
      if bool_decide (name ∈ applied f) then (Ok tt, fs)
      else (Ok tt, <[db_url := {| applied := applied f ++ [name]; chat_tables := chat_tables f; trysts := trysts f |}]> fs)
  end.

Fixpoint run_migrations (db_url : string) (names : list string) : action Disk LibError unit :=
  match names with
  | [] => ret tt
  | name :: names' => stmt (apply_migration db_url name) ;;; run_migrations db_url names'
  end.

(** [MigrateError] becomes [SqlxMigrations]. *)
Definition of_migrate_error (e : LibError) : LibError :=
  match e with Sqlx e => SqlxMigrations e | e => e end.

Definition setup_db (db_url : string) : action Disk LibError string :=
  exists_ <- database_exists db_url ;;
  (if (exists_ : bool) then ret tt else create_database db_url) ;;;
  db_pool <- connect_pool db_url ;;
  act_map_err of_migrate_error (run_migrations db_url MIGRATIONS) ;;;
  ret db_pool.

Section Setup.
Implicit Types (fs : Files) (w : Disk) (url : string).

(** No other process writes the file. *)
Definition alone url w : Prop := Forall (fun wx => forall fs, others wx fs !! url = fs !! url) (forecast w).

Lemma alone_later url w w' : later w w' -> alone url w -> alone url w'.
Proof. intros [n Hn] Ha. unfold alone. rewrite Hn. by apply Forall_drop. Qed.

(** A statement on one file: its effect on the file, or a fault and none. *)
Lemma file_stmt {A} (f : Files -> outcome string A * Files) url w :
  alone url w -> (forall fs fs', fs !! url = fs' !! url -> (f fs).1 = (f fs').1 /\ (f fs).2 !! url = (f fs').2 !! url) ->
  exists r w', stmt f w = (r, w') /\ later w w' /\
    ((r = map_err Sqlx (f (store w)).1 /\
      store w' !! url = (if is_ok (f (store w)).1 then (f (store w)).2 !! url else store w !! url)) \/
     (~ faultless w /\ store w' !! url = store w !! url /\ exists e, r = Err (Sqlx e))).
Proof.
  intros Ha Hf. unfold stmt. destruct (next_weather w) as [wx rest] eqn:Enw.
  assert (others wx (store w) !! url = store w !! url) as Ho.
  { unfold alone, next_weather in *. destruct (forecast w) as [|y ys]; simplify_eq; [done|].
    by apply Forall_cons in Ha as [-> _]. }
  destruct (fault wx) as [e|] eqn:Ef.
  { eexists _, _. split; [done|]. split; [by eapply next_weather_later|]. right. split; [|by eauto].
    intros Hfl. apply (next_weather_faultless w wx rest Hfl) in Enw as [? ?]. congruence. }
  destruct (Hf _ _ Ho) as [H1 H2]. destruct (f (others wx (store w))) as [[a|e|] d'], (f (store w)) as [o d''];
    simpl in *; subst o; (eexists _, _; split; [done|]; split; [by eapply next_weather_later|]; left; split; [done|]; simpl; done || by rewrite ?H2, ?Ho).
Qed.

(** A statement that leaves another file alone. *)
Lemma other_file {A} (f : Files -> outcome string A * Files) url w :
  alone url w -> (forall fs, (f fs).2 !! url = fs !! url) ->
  store (stmt f w).2 !! url = store w !! url /\ alone url (stmt f w).2.
Proof.
  intros Ha Hf. unfold stmt, alone, next_weather in *. destruct (forecast w) as [|y ys] eqn:Ew.
  - specialize (Hf (store w)). simpl. destruct (f (store w)) as [[]]; simpl in *; by split.
  - apply Forall_cons in Ha as [Hy Hys]. destruct (fault y); simpl; [by rewrite Hy|].
    specialize (Hf (others y (store w))). rewrite Hy in Hf. destruct (f _) as [[]]; simpl in *; by rewrite ?Hy.
Qed.

(** What [setup_db] leaves: whatever happens, the data in the file stays, or the file is
    absent or empty where there was none; on success both migrations are applied. *)
Definition same_data (f f' : option File) : Prop := file_data f' = file_data f /\ (is_Some f -> is_Some f').

#[local] Instance same_data_preorder : PreOrder same_data.
Proof. split; [done|]. intros a b c [? ?] [? ?]. split; [congruence|auto]. Qed.

Lemma run_migrations_spec url names w :
  alone url w -> is_Some (store w !! url) ->
  exists r w', run_migrations url names w = (r, w') /\ later w w' /\ same_data (store w !! url) (store w' !! url) /\
    ((r = Ok tt /\ exists f, store w' !! url = Some f /\ names ⊆ applied f /\
       applied (default {| applied := []; chat_tables := empty_db; trysts := [] |} (store w !! url)) ⊆ applied f) \/
     (~ faultless w /\ exists e, r = Err (Sqlx e))).
Proof.
  revert w. induction names as [|name names IH]; intros w Ha [f Hf].
  { exists (Ok tt), w. split; [done|]. split; [done|]. split; [done|]. left. split; [done|]. exists f.
    split; [done|]. split; [set_solver|]. by rewrite Hf. }
  cbn [run_migrations].
  destruct (file_stmt (apply_migration url name) url w Ha) as (r & w1 & E & Hl & Hr).
  { intros fs fs' Heq. unfold apply_migration. rewrite Heq. destruct (fs' !! url) as [f'|] eqn:Ef; [|split; [done|]; simpl; congruence].
    case_bool_decide; simpl; [split; [done|congruence]|]. by rewrite !lookup_insert_eq. }
  destruct Hr as [[Hr Hs]|(Hn & Hs & e & Hr)].
  - assert (exists f1, r = Ok tt /\ store w1 !! url = Some f1 /\ file_data (Some f1) = file_data (Some f) /\
      name ∈ applied f1 /\ applied f ⊆ applied f1) as (f1 & -> & Hf1 & Hd & Hin & Hsub).
    { unfold apply_migration in Hr, Hs. rewrite Hf in Hr, Hs. case_bool_decide; simpl in Hr, Hs.
      - exists f. rewrite Hs. by split_and!.
      - eexists. rewrite lookup_insert_eq in Hs. split; [done|]. split; [exact Hs|]. split; [done|]. simpl. set_solver. }
    destruct (IH w1 (alone_later _ _ _ Hl Ha)) as (r & w2 & E2 & Hl2 & Hd2 & H2); [by rewrite Hf1|].
    exists r, w2. split; [by rewrite (bind_ok _ _ _ _ _ E)|]. split; [by etransitivity|].
    rewrite Hf1 in Hd2, H2. rewrite Hf. cbn [default from_option id] in *.
    split; [etransitivity; [|exact Hd2]; by split|].
    destruct H2 as [(-> & f2 & Hf2 & Hn2 & Ha2)|[Hn ?]].
    + left. split; [done|]. exists f2. split; [done|]. split; [|by etransitivity].
      intros x [->|Hx]%elem_of_cons; auto.
    + right. split; [|done]. intros Hfl. by apply Hn, (faultless_later w).
  - subst r. exists (Err (Sqlx e)), w1. split; [by rewrite (bind_err _ _ _ _ _ E)|]. split; [done|].
    split; [by rewrite Hs|]. right. eauto.
Qed.

Lemma setup_db_spec url w :
  alone url w ->
  exists r w', setup_db url w = (r, w') /\ later w w' /\ same_data (store w !! url) (store w' !! url) /\
    ((r = Ok url /\ exists f, store w' !! url = Some f /\ MIGRATIONS ⊆ applied f) \/
     (~ faultless w /\ exists e, r = Err (Sqlx e) \/ r = Err (SqlxMigrations e))).
Proof.
  intros Ha. unfold setup_db.
  destruct (file_stmt (fun fs => (Ok (bool_decide (is_Some (fs !! url))), fs)) url w Ha) as (r0 & w0 & E0 & Hl0 & H0).
  { intros fs fs' Heq. simpl. by rewrite Heq. }
  destruct H0 as [[-> Hs0]|(Hn & Hs0 & e & ->)];
    [|exists (Err (Sqlx e)), w0; rewrite (bind_err _ _ _ _ _ E0), Hs0; do 3 (split; [done|]); right; eauto].
  cbn [fst snd is_ok map_err] in *. rewrite (bind_ok _ _ _ _ _ E0). pose proof (alone_later _ _ _ Hl0 Ha) as Ha0.
  assert (exists r1 w1, (if bool_decide (is_Some (store w !! url)) then ret tt else create_database url) w0 = (r1, w1) /\
    later w w1 /\ same_data (store w !! url) (store w1 !! url) /\
    ((r1 = Ok tt /\ is_Some (store w1 !! url)) \/ (~ faultless w /\ exists e, r1 = Err (Sqlx e)))) as (r1 & w1 & E1 & Hl1 & Hd1 & H1).
  { case_bool_decide as Hex.
    { exists (Ok tt), w0. rewrite Hs0. split; [done|]. split; [done|]. split; [done|]. by left. }
    destruct (file_stmt (fun fs => (Ok (E := string) tt, match fs !! url with Some _ => fs
        | None => <[url := {| applied := []; chat_tables := empty_db; trysts := [] |}]> fs end)) url w0 Ha0)
      as (r1 & w1 & E1 & Hl1 & H1).
    { intros fs fs' Heq. simpl. rewrite Heq. split; [done|]. destruct (fs' !! url) eqn:Ef; [congruence|].
      by rewrite !lookup_insert_eq. }
    exists r1, w1. split; [exact E1|]. split; [by etransitivity|].
    destruct (store w !! url) as [f|] eqn:Ew; [by destruct Hex|]. cbn [fst snd is_ok map_err] in *. rewrite Hs0 in H1.
    destruct H1 as [[-> Hs1]|(Hn & Hs1 & e & ->)]; rewrite Hs1.
    - rewrite lookup_insert_eq. split; [by split|]. left. eauto.
    - split; [done|]. right. split; [|eauto]. intros Hfl. by apply Hn, (faultless_later w). }
  destruct H1 as [[-> Hex]|[Hn [e ->]]]; [|exists (Err (Sqlx e)), w1; rewrite (bind_err _ _ _ _ _ E1); do 3 (split; [done|]); right; eauto].
  rewrite (bind_ok _ _ _ _ _ E1). pose proof (alone_later _ _ _ Hl1 Ha) as Ha1.
  destruct (file_stmt (fun fs => match fs !! url with Some _ => (Ok url, fs)
    | None => (Err "unable to open database file", fs) end) url w1 Ha1) as (r2 & w2 & E2 & Hl2 & H2).
  { intros fs fs' Heq. rewrite Heq. destruct (fs' !! url) eqn:Ef; (split; [done|]); simpl; congruence. }
  destruct Hex as [f1 Hf1]. rewrite Hf1 in H2. cbn [fst snd is_ok map_err] in H2. rewrite Hf1 in H2.
  assert (store w2 !! url = Some f1) as Hf2 by (by destruct H2 as [[_ ?]|(_ & ? & _)]).
  assert (later w w2) as Hlw2 by (by etransitivity).
  destruct H2 as [[-> _]|(Hn & _ & e & ->)].
  2: { exists (Err (Sqlx e)), w2. rewrite (bind_err _ _ _ _ _ E2), Hf2, <- Hf1. split; [done|]. split; [done|].
       split; [done|]. right. split; [|eauto]. intros Hfl. by apply Hn, (faultless_later w). }
  rewrite (bind_ok _ _ _ _ _ E2).
  destruct (run_migrations_spec url MIGRATIONS w2 (alone_later _ _ _ Hlw2 Ha)) as (r3 & w3 & E3 & Hl3 & Hd3 & H3);
    [by rewrite Hf2|].
  assert (same_data (store w !! url) (store w3 !! url)) as Hd.
  { etransitivity; [exact Hd1|]. by rewrite Hf1, <- Hf2. }
  assert (later w w3) as Hlw3 by (by etransitivity).
  destruct H3 as [(-> & f3 & Hf3 & Hm & _)|[Hn [e ->]]].
  - exists (Ok url), w3. split; [unfold act_map_err, bind, ret; by rewrite E3|]. split; [done|]. split; [done|]. eauto.
  - exists (Err (SqlxMigrations e)), w3. split; [unfold act_map_err, bind, ret; by rewrite E3|]. split; [done|]. split; [done|].
    right. split; [|eauto]. intros Hfl. by apply Hn, (faultless_later w).
Qed.
End Setup.

(** ** The endpoint and the application *)
Module Application.

(** [Duration::as_secs_f32() as u32]: binary32 arithmetic, and a conversion that truncates
    and saturates. *)
Record Duration := { secs : Z; nanos : Z }.
Definition f32 (z : Z) : spec_float := binary_normalize 24 128 z 0 false.
Definition as_secs_f32 (d : Duration) : spec_float :=
  SFadd 24 128 (f32 (secs d)) (SFdiv 24 128 (f32 (nanos d)) (f32 1000000000)).
Definition as_u32 (f : spec_float) : Z :=
  match f with
  | S754_finite false m e => Z.min (2 ^ 32 - 1) (Z.shiftl (Z.pos m) e)
  | S754_infinity false => 2 ^ 32 - 1
  | _ => 0
  end%Z.

Section Application.
Context {Ids : EndpointIds} {K : SecretKeys Ids} {Us : Uuids} {OI : ObjIds} {AM : Automerges}.
Context {R : Type} {AR : AsyncRead R}.
(** iroh's types of what it builds. *)
Context {Discovery Endpoint : Type}.

(** [DhtDiscovery::builder()..build()] and [Endpoint::builder()..bind().await]. *)
Record Net := {
  build_discovery : SecretKey -> Z -> bool -> string + Discovery;
  bind_endpoint : SecretKey -> Discovery -> string + Endpoint;
}.

Definition ALPN : bytes := bytes_of_string "/gossip/chat/0".

(** The router hands connections of protocol [alpn] to [chat]. *)
Record NetworkEndpoint := {
  endpoint : Endpoint;
  router_open : bool;
  alpn : bytes;
  chat : ChatProtocol.Inner (R := R);
}.

Definition start (net : Net) (secret_key : SecretKey) (discovery : Discovery) : outcome LibError NetworkEndpoint :=
  match bind_endpoint net secret_key discovery with
  | inl _ => Err (lib_of_anyhow "Failed to bind endpoint connection with selected discovery methods.")
  | inr endpoint => Ok {| endpoint := endpoint; router_open := true; alpn := ALPN; chat := ChatProtocol.new |}
  end.

(** [Inner] of [Application], with the state of the actor's task. *)
Record Application := {
  secret_key : SecretKey;
  db_url : string;
  app_actor : AppActor.App;
  network_endpoint : NetworkEndpoint;
  app_actor_join_handle : bool;
  cancelled : bool;
}.

(** [republish_delay] sets the time to live of what discovery publishes; [weather] is what
    the pool's calls will meet. *)
Definition new_with_config (net : Net) (weather : list (Weather Db))
    (secret_key_str db_directory_path : string) (republish_delay : Duration) : action Disk GossipError Application :=
  match sk_from_str secret_key_str with
  | inl _ => throw (gossip_of_anyhow "Expected to get secret key from string.")
  | inr secret_key =>
      let db_url := db_directory_path +:+ "/" +:+ id_to_string (public secret_key) +:+ ".db" in
      db_pool <- act_map_err gossip_of_lib (setup_db db_url) ;;
      match build_discovery net secret_key (as_u32 (as_secs_f32 republish_delay)) false with
      | inl _ => throw (gossip_of_anyhow "Failed to build standard discovery.")
      | inr discovery =>
          match start net secret_key discovery with
          | Ok network_endpoint =>
              tables <- gets (fun d : Disk => (file_data (store d !! db_pool)).1) ;;
              ret {| secret_key := secret_key; db_url := db_pool;
                     app_actor := AppActor.new {| store := tables; forecast := weather |} (public secret_key);
                     network_endpoint := network_endpoint; app_actor_join_handle := true; cancelled := false |}
          | Err _ => throw (gossip_of_anyhow "Failed to start network endpoint.")
          | Panic => lift Panic
          end
      end
  end.

Definition new (net : Net) (weather : list (Weather Db)) (DEFAULT_PKARR_TTL : Z) (secret_key db_directory_path : string) :
    action Disk GossipError Application :=
  new_with_config net weather secret_key db_directory_path {| secs := DEFAULT_PKARR_TTL; nanos := 0 |}.

Definition endpoint_id (a : Application) : string := id_to_string (public (secret_key a)).

(** *** Shutdown *)
Definition set_cancelled (a : Application) : Application :=
  {| secret_key := secret_key a; db_url := db_url a; app_actor := app_actor a; network_endpoint := network_endpoint a;
     app_actor_join_handle := app_actor_join_handle a; cancelled := true |}.
Definition take_join_handle (a : Application) : Application :=
  {| secret_key := secret_key a; db_url := db_url a; app_actor := app_actor a; network_endpoint := network_endpoint a;
     app_actor_join_handle := false; cancelled := cancelled a |}.
Definition set_app_actor (x : AppActor.App) (a : Application) : Application :=
  {| secret_key := secret_key a; db_url := db_url a; app_actor := x; network_endpoint := network_endpoint a;
     app_actor_join_handle := app_actor_join_handle a; cancelled := cancelled a |}.
Definition set_network (n : NetworkEndpoint) (a : Application) : Application :=
  {| secret_key := secret_key a; db_url := db_url a; app_actor := app_actor a; network_endpoint := n;
     app_actor_join_handle := app_actor_join_handle a; cancelled := cancelled a |}.
Definition set_chat (c : ChatProtocol.Inner) (n : NetworkEndpoint) : NetworkEndpoint :=
  {| endpoint := endpoint n; router_open := router_open n; alpn := alpn n; chat := c |}.
Definition close_router (n : NetworkEndpoint) : NetworkEndpoint :=
  {| endpoint := endpoint n; router_open := false; alpn := alpn n; chat := chat n |}.

(** What the tasks are doing when [shutdown] is called: the turn each actor is in. *)
Record Busy := {
  app_busy : option AppActor.Turn;
  chat_env : ChatProtocol.Env (R := R);
  chat_busy : option (ChatProtocol.Env (R := R) * ChatProtocol.Ready (R := R));
}.

(** A call on a part of the application. *)
Definition on_app {A} (c : action AppActor.App (stop anyhow) A) : action Application (stop Empty_set) (outcome (stop anyhow) A) :=
  fun a => let '(r, x) := c (app_actor a) in (Ok r, set_app_actor x a).
Definition on_chat {A} (c : action (ChatProtocol.Inner (R := R)) (stop Empty_set) A) : action Application (stop Empty_set) A :=
  fun a => let '(r, x) := c (chat (network_endpoint a)) in (r, set_network (set_chat x (network_endpoint a)) a).

(** [cleanup]: [Router::shutdown] waits for every protocol's [shutdown] and then closes the
    endpoint. *)
Definition cleanup (b : Busy) : action Application (stop Empty_set) unit :=
  on_chat (ChatProtocol.shutdown (chat_env b) (chat_busy b)) ;;;
  modify (fun a => set_network (close_router (network_endpoint a)) a).

Definition cancelled_turn : AppActor.Turn :=
  {| AppActor.before := id;
     AppActor.env := {| AppActor.while_full := []; AppActor.while_opening := id; AppActor.reply_open := fun _ => true |};
     AppActor.ready := {| AppActor.cancelled := true; AppActor.request_rx := None; AppActor.accepted := None |} |}.

(** The actor's task: [run] and then [cleanup], whatever [run] returned; a panic ends it. *)
Definition join (b : Busy) : action Application (stop Empty_set) unit :=
  r <- on_app (AppActor.run (option_list (app_busy b) ++ [cancelled_turn])) ;;
  match r with
  | Err Pending => throw Pending
  | Panic => ret tt
  | Ok _ | Err (Failed _) => cleanup b
  end.

Definition shutdown (b : Busy) : action Application (stop Empty_set) unit :=
  modify set_cancelled ;;;
  actor_join_handle <- gets app_actor_join_handle ;;
  modify take_join_handle ;;;
  if (actor_join_handle : bool) then join b else ret tt.

(** ** Start-up *)

Definition url_of (dir : string) (sk : SecretKey) : string := dir +:+ "/" +:+ id_to_string (public sk) +:+ ".db".

Lemma url_of_inj {Laws : EndpointIdLaws Ids} dir sk sk' : url_of dir sk = url_of dir sk' -> public sk = public sk'.
Proof.
  intros H. do 2 apply (inj (String.append _)) in H. apply append_suffix_inj in H. by apply (inj id_to_string).
Qed.

(** [setup_db] leaves the other files alone. *)
Lemma run_migrations_other url url' names w :
  url' <> url -> alone url' w ->
  store (run_migrations url names w).2 !! url' = store w !! url' /\ alone url' (run_migrations url names w).2.
Proof.
  intros Hne. revert w. induction names as [|name names IH]; intros w Ha; [done|]. cbn [run_migrations].
  destruct (other_file (apply_migration url name) url' w Ha) as [H1 H2].
  { intros fs. unfold apply_migration. destruct (fs !! url); [|done]. case_bool_decide; simpl; [done|].
    by rewrite lookup_insert_ne. }
  unfold bind. destruct (stmt (apply_migration url name) w) as [[[]|e|] w1]; simpl in *; [|done..].
  destruct (IH w1 H2) as [H3 H4]. by rewrite H3.
Qed.

Lemma setup_db_other url url' w :
  url' <> url -> alone url' w -> store (setup_db url w).2 !! url' = store w !! url'.
Proof.
  intros Hne Ha. unfold setup_db, database_exists, connect_pool, create_database.
  destruct (other_file (fun fs => (Ok (bool_decide (is_Some (fs !! url))), fs)) url' w Ha (fun _ => eq_refl)) as [H1 H2].
  unfold bind at 1. destruct (stmt _ w) as [[ex|e|] w1]; simpl in *; [|done..]. rewrite <- H1.
  assert (forall w2, store w2 !! url' = store w1 !! url' -> alone url' w2 ->
    store ((db_pool <- stmt (fun fs : Files => match fs !! url with Some _ => (Ok url, fs)
        | None => (Err "unable to open database file", fs) end) ;;
      act_map_err of_migrate_error (run_migrations url MIGRATIONS) ;;; ret db_pool) w2).2 !! url' = store w1 !! url') as Hrest.
  { intros w2 <- Ha2. destruct (other_file (fun fs : Files => match fs !! url with Some _ => (Ok url, fs)
        | None => (Err "unable to open database file", fs) end) url' w2 Ha2) as [H3 H4].
    { intros fs. by destruct (fs !! url). }
    unfold bind at 1. destruct (stmt _ w2) as [[p|e|] w3]; simpl in H3, H4; [|done..].
    destruct (run_migrations_other url url' MIGRATIONS w3 Hne H4) as [H5 _].
    unfold bind, act_map_err. destruct (run_migrations url MIGRATIONS w3) as [[[]|e|] w4]; simpl in *; congruence. }
  destruct ex; [by apply Hrest|].
  destruct (other_file (fun fs => (Ok (E := string) tt, match fs !! url with Some _ => fs
        | None => <[url := {| applied := []; chat_tables := empty_db; trysts := [] |}]> fs end)) url' w1 H2) as [H3 H4].
  { intros fs. simpl. destruct (fs !! url); [done|]. by rewrite lookup_insert_ne. }
  unfold bind at 1. destruct (stmt _ w1) as [[u|e|] w2]; simpl in H3, H4; [by apply Hrest|done..].
Qed.

(** C25. Starting the application, on every branch: a bad key or a failing builder is an
    internal error, a failing database a storage error, each with its text; once the database
    is there, its file is the one of this node's id with both migrations applied, and
    whatever happens it keeps the data it had, as do the files of all other nodes in the
    directory; the application that comes back has a fresh actor over that data. A network
    endpoint that cannot start is reported as internal, not as a connectivity problem. *)
Theorem start_up_cases {Laws : EndpointIdLaws Ids} net weather s dir delay (w : Disk) :
  (forall sk, sk_from_str s = inr sk -> alone (url_of dir sk) w) ->
  exists r w', new_with_config net weather s dir delay w = (r, w') /\
    match sk_from_str s with
    | inl _ => r = Err (Internal "Expected to get secret key from string.") /\ w' = w
    | inr sk =>
        same_data (store w !! url_of dir sk) (store w' !! url_of dir sk) /\
        (forall sk', public sk' <> public sk -> alone (url_of dir sk') w ->
           store w' !! url_of dir sk' = store w !! url_of dir sk') /\
        ((~ faultless w /\ exists e, r = Err (Storage e)) \/
         (exists f, store w' !! url_of dir sk = Some f /\ MIGRATIONS ⊆ applied f /\
            r = match build_discovery net sk (as_u32 (as_secs_f32 delay)) false with
                | inl _ => Err (Internal "Failed to build standard discovery.")
                | inr disc =>
                    match bind_endpoint net sk disc with
                    | inl _ => Err (Internal "Failed to start network endpoint.")
                    | inr ep => Ok {|
                        secret_key := sk; db_url := url_of dir sk;
                        app_actor := AppActor.new {| store := (file_data (store w !! url_of dir sk)).1; forecast := weather |} (public sk);
                        network_endpoint := {| endpoint := ep; router_open := true; alpn := ALPN; chat := ChatProtocol.new |};
                        app_actor_join_handle := true; cancelled := false |}
                    end
                end))
    end.
Proof.
  intros Ha. unfold new_with_config. destruct (sk_from_str s) as [e|sk] eqn:Es; [by do 2 eexists|].
  specialize (Ha sk eq_refl). fold (url_of dir sk).
  destruct (setup_db_spec (url_of dir sk) w Ha) as (r & w' & E & _ & Hd & Hr).
  assert (forall sk', public sk' <> public sk -> alone (url_of dir sk') w ->
           store w' !! url_of dir sk' = store w !! url_of dir sk') as Ho.
  { intros sk' Hne Ha'. pose proof (setup_db_other (url_of dir sk) (url_of dir sk') w) as Ho. rewrite E in Ho.
    apply Ho; [|done]. intros Heq. by apply url_of_inj in Heq. }
  assert (act_map_err gossip_of_lib (setup_db (url_of dir sk)) w = (map_err gossip_of_lib r, w')) as E'
    by (unfold act_map_err; by rewrite E).
  destruct Hr as [(-> & f & Hf & Hm)|[Hn [e He]]].
  - rewrite (bind_ok _ _ _ _ _ E'). unfold start. pose proof Hd as [Hd' _]. rewrite Hf in Hd'.
    destruct (build_discovery net sk _ false) as [e|disc]; [|destruct (bind_endpoint net sk disc) as [e|ep]];
      (do 2 eexists; split; [done|]; split; [done|]; split; [done|]; right; exists f; split; [done|]; split; [done|]).
    + done.
    + done.
    + by rewrite Hf, Hd'.
  - assert (map_err gossip_of_lib r = Err (Storage e)) as Hr by (by destruct He as [-> | ->]). rewrite Hr in E'.
    rewrite (bind_err _ _ _ _ _ E'). do 2 eexists. split; [done|]. split; [done|]. split; [done|]. left. eauto.
Qed.

(** ** Shutdown *)

Lemma app_run_cancelled x :
  AppActor.run [cancelled_turn] x = (Ok ChatManager.Stop, AppActor.close_pool x).
Proof. done. Qed.

(** C26. [shutdown] waits for the actor's task, which closes the pool and waits for the chat
    protocol's actor before the endpoint is closed. From an idle node it returns with all of
    that done; a second call, or one that comes while the first still waits, returns at once
    without waiting. While a peer that connected stays silent in its handshake [shutdown] does
    not return and the endpoint stays open, with the pool already closed. *)
Theorem shutdown_waits {ARL : AsyncReadLaws R} b a :
  (app_actor_join_handle a = false -> shutdown b a = (Ok tt, take_join_handle (set_cancelled a))) /\
  (app_actor_join_handle a = true -> app_busy b = None ->
     ChatProtocol.actor_join_handle (chat (network_endpoint a)) = true ->
     (chat_busy b = None -> exists a', shutdown b a = (Ok tt, a') /\
        AppActor.pool_open (app_actor a') = false /\ router_open (network_endpoint a') = false /\
        ChatProtocol.token_cancelled (chat (network_endpoint a')) = true /\
        AppActor.managers (app_actor a') = AppActor.managers (app_actor a) /\
        forall b', shutdown b' a' = (Ok tt, a')) /\
     (ChatProtocol.stalled (chat_busy b) -> exists a', shutdown b a = (Err Pending, a') /\
        AppActor.pool_open (app_actor a') = false /\ router_open (network_endpoint a') = router_open (network_endpoint a))).
Proof using.
  split.
  { intros Hj. unfold shutdown, modify, gets, bind. cbn. by rewrite Hj. }
  intros Hj Hb Hc. set (a1 := take_join_handle (set_cancelled a)).
  set (a2 := set_app_actor (AppActor.close_pool (app_actor a)) a1).
  assert (shutdown b a = cleanup b a2) as ->.
  { unfold shutdown, modify, gets, bind. cbn. rewrite Hj. unfold join. rewrite Hb. done. }
  destruct (ChatProtocol.shutdown_joins (chat_env b) (chat_busy b) (chat (network_endpoint a))) as (Hst & Hidle & _).
  split.
  - intros Hbusy. specialize (Hidle Hbusy). unfold cleanup, on_chat.
    eexists. split.
    { unfold bind. change (network_endpoint a2) with (network_endpoint a). by rewrite Hidle. }
    split_and!; done.
  - intros Hs. specialize (Hst Hs Hc). unfold cleanup, on_chat.
    destruct (ChatProtocol.shutdown (chat_env b) (chat_busy b) (chat (network_endpoint a))) as [r x] eqn:E.
    simpl in Hst. subst r. eexists. split.
    { unfold bind. change (network_endpoint a2) with (network_endpoint a). by rewrite E. }
    by split.
Qed.
End Application.
End Application.

(** ** Concrete keys: 32 bytes, written as they are. *)
Module ConcreteKeys.
Import Concrete.

Definition Key : Type := { b : bytes | bool_decide (length b = 32) = true }.

Definition default_key : Key := exist _ (repeat Byte.x00 32) eq_refl.

Definition key_of_bytes (b : bytes) : option Key :=
  match bool_decide (length b = 32) as x return bool_decide (length b = 32) = x -> option Key with
  | true => fun E => Some (exist _ b E)
  | false => fun _ => None
  end eq_refl.

Lemma key_of_own_bytes (k : Key) : key_of_bytes (proj1_sig k) = Some k.
Proof.
  destruct k as [b E]. simpl. unfold key_of_bytes.
  generalize (eq_refl (bool_decide (length b = 32))).
  generalize (bool_decide (length b = 32)) at 2 3. intros [] E'; [|congruence].
  do 2 f_equal. apply Eqdep_dec.UIP_dec. apply Bool.bool_dec.
Qed.

#[export] Instance secret_keys : SecretKeys keys := {|
  SecretKey := Key;
  public k := Byte.to_nat (List.hd Byte.x00 (proj1_sig k));
  sk_to_bytes k := proj1_sig k;
  sk_from_bytes b := default default_key (key_of_bytes b);
  sk_from_str s := match key_of_bytes (String.list_byte_of_string s) with Some k => inr k | None => inl "not a key" end;
  hexlower_encode := String.string_of_list_byte;
  hexlower_decode s := Some (String.list_byte_of_string s);
|}.

#[export] Instance secret_keys_laws : SecretKeyLaws secret_keys.
Proof.
  split; simpl.
  - intros [b E]. by eapply bool_decide_eq_true_1.
  - intros k. by rewrite key_of_own_bytes.
  - intros b. by rewrite String.list_byte_of_string_of_list_byte.
  - intros k. by rewrite String.list_byte_of_string_of_list_byte, key_of_own_bytes.
Qed.
End ConcreteKeys.

Module LifecycleSamples.
Import Concrete ConcreteKeys ConcreteWire ToyDoc ChatRepositorySamples ChatProtocolSamples Application.

Definition key (b : byte) : Key := default default_key (key_of_bytes (repeat b 32)).
Definition key_str (b : byte) : string := generate_private_key (K := secret_keys) (key b).

(** Everything can be built but node 3's endpoint. *)
Definition sample_net : Net (K := secret_keys) (Discovery := Z) (Endpoint := nat) := {|
  build_discovery _ ttl _ := inr ttl;
  bind_endpoint sk _ := if bool_decide (public sk = (3 : @EndpointId keys)) then inl "no socket" else inr 0;
|}.

(** A disk on which node 1 has been before. *)
Definition old_tables : Db := {| chats := {[ "z_sz" := [Byte.x01] ]}; chat_log := []; next_log_id := 5 |}.
Definition sample_disk : Disk := {|
  store := {[ "db/sz.db" := {| applied := MIGRATIONS; chat_tables := old_tables; trysts := [] |} ]};
  forecast := [] |}.

Lemma start_up_cases_witness :
  exists (a : Application (K := secret_keys) (AM := toy) (R := Segments) (Endpoint := nat)) w',
    new_with_config sample_net [] (key_str Byte.x02) "db" {| secs := 2; nanos := 0 |} sample_disk = (Ok a, w') /\
    db_url a = "db/ssz.db" /\ store (AppActor.db_pool (app_actor a)) = empty_db /\
    store w' !! "db/sz.db" = Some {| applied := MIGRATIONS; chat_tables := old_tables; trysts := [] |}.
Proof.
  destruct (start_up_cases (Us := uuids) (OI := toy_ids) (AM := toy) (R := Segments) sample_net [] (key_str Byte.x02) "db" {| secs := 2; nanos := 0 |} sample_disk)
    as (r & w' & E & H).
  { intros sk _. constructor. }
  change (sk_from_str (key_str Byte.x02)) with (inr (key Byte.x02) : string + @SecretKey keys secret_keys) in H.
  destruct H as (_ & Ho & [[Hn _]|(f & Hf & _ & Hr)]); [destruct Hn; constructor|].
  cbn [build_discovery bind_endpoint sample_net] in Hr. rewrite bool_decide_false in Hr by (by vm_compute). eexists _, w'. split; [rewrite E; f_equal; exact Hr|]. split; [reflexivity|].
  split; [reflexivity|]. exact (Ho (key Byte.x01) ltac:(by vm_compute) ltac:(constructor)).
Defined.

Definition running : Application (K := secret_keys) (AM := toy) (R := Segments) (Endpoint := nat) := {|
  secret_key := key Byte.x02; db_url := "db/ssz.db";
  app_actor := AppActor.new (quiet empty_db) (2 : @EndpointId keys);
  network_endpoint := {| endpoint := 0; router_open := true; alpn := ALPN; chat := ChatProtocol.new |};
  app_actor_join_handle := true; cancelled := false |}.

Definition waiting_for (c : ChatProtocol.Conn (R := Segments)) : Busy (R := Segments) (AM := toy) := {|
  app_busy := None; chat_env := env_of 1;
  chat_busy := Some (env_of 1, {| ChatProtocol.cancelled := false; ChatProtocol.request_rx := Some (Some (ChatProtocol.Accept c)) |}) |}.

Lemma shutdown_waits_witness :
  (exists a', shutdown {| app_busy := None; chat_env := env_of 1; chat_busy := None |} running = (Ok tt, a') /\
     router_open (network_endpoint a') = false) /\
  (exists a', shutdown (waiting_for (conn_with 1 [] false)) running = (Err Pending, a') /\
     router_open (network_endpoint a') = true).
Proof.
  split.
  - destruct (shutdown_waits (Endpoint := nat) {| app_busy := None; chat_env := env_of 1; chat_busy := None |} running) as [_ H].
    destruct (H eq_refl eq_refl eq_refl) as [H1 _]. destruct (H1 eq_refl) as (a' & E & _ & Hr & _). by exists a'.
  - destruct (shutdown_waits (Endpoint := nat) (waiting_for (conn_with 1 [] false)) running) as [_ H].
    destruct (H eq_refl eq_refl eq_refl) as [_ H2]. destruct (H2 eq_refl) as (a' & E & _ & Hr). by exists a'.
Defined.
End LifecycleSamples.
