(* ===== verification/Bench.v ===== *)
(** The benchmark orchestrator and the utilities its workers share
    (src/src/bench_utils.rs, src/src/bin/bench_orchestrator.rs): measuring, result lines and
    their parser, histograms and the rows of the result file. hdrhistogram and the ron parser
    are parameters; binary64 arithmetic is the Standard Library's. *)
From S2P Require Import Prelude External Errors Schema Tryst.
From stdpp Require Import base sets strings list pretty.
From Stdlib Require Import ZArith Lia Ascii Floats.SpecFloat.
Open Scope tryst_scope.

(** ** Text *)
Definition newline : ascii := ascii_of_nat 10.
Definition carriage_return : ascii := ascii_of_nat 13.

(** [str::split] at a character. *)
Fixpoint split_on (c : ascii) (s : string) : list string :=
  match s with
  | EmptyString => [""]
  | String d s' =>
      if bool_decide (c = d) then "" :: split_on c s'
      else match split_on c s' with
           | x :: xs => String d x :: xs
           | [] => [String d ""]
           end
  end.

Fixpoint strip_last_cr (s : string) : string :=
  match s with
  | EmptyString => ""
  | String c EmptyString => if bool_decide (c = carriage_return) then "" else s
  | String c s' => String c (strip_last_cr s')
  end.

(** [str::lines]: what newlines end, without a carriage return before it; an unfinished last
    line counts if it is not empty. *)
Fixpoint finished (ls : list string) : list string :=
  match ls with
  | [] => []
  | [s] => if bool_decide (s = "") then [] else [s]
  | s :: ls' => strip_last_cr s :: finished ls'
  end.
Definition lines (s : string) : list string := finished (split_on newline s).

(** What [println!] of every line writes. *)
Definition unlines (ls : list string) : string :=
  foldr (fun l s => l +:+ String newline s) "" ls.

Definition digit (c : ascii) : option Z :=
  let n := Z.of_nat (nat_of_ascii c) in
  if bool_decide (48 <= n <= 57)%Z then Some (n - 48)%Z else None.

Definition u64_max : Z := 2 ^ 64 - 1.

(** [u64::from_str]: an optional plus sign and at least one digit, without overflow. *)
Fixpoint parse_digits (acc : Z) (s : string) : outcome string Z :=
  match s with
  | EmptyString => Ok acc
  | String c s' =>
      match digit c with
      | None => Err "invalid digit found in string"
      | Some d =>
          if bool_decide (acc * 10 + d <= u64_max)%Z then parse_digits (acc * 10 + d) s'
          else Err "number too large to fit in target type"
      end
  end.
Definition parse_u64 (s : string) : outcome string Z :=
  match s with
  | EmptyString => Err "cannot parse integer from empty string"
  | String "+"%char EmptyString => Err "invalid digit found in string"
  | String "+"%char s' => parse_digits 0 s'
  | _ => parse_digits 0 s
  end.

(** [u64::to_string] *)
Definition u64_to_string (z : Z) : string := pretty (Z.to_N z).

Definition u64 (z : Z) : Prop := (0 <= z <= u64_max)%Z.

(** [Vec<String>::join] *)
Definition join (sep : string) (ls : list string) : string := String.concat sep ls.

(** [str::parse] of every element into a [Result<Vec<u64>>]: the first error, if any. *)
Fixpoint parse_all (ls : list string) : outcome anyhow (list Z) :=
  match ls with
  | [] => Ok []
  | s :: ls' => let? z := parse_u64 s in let? zs := parse_all ls' in Ok (z :: zs)
  end.

(** ** bench_utils.rs *)

(** What the process measures with, and its standard output. Each reading takes the next
    value; where the values end, or /sys has no counters, a reading is 0. *)
Record Machine := {
  stdout : list string;
  net : list (Z * Z);
  cpu : list Z;
  clock : list Z;
}.

Definition println {E} (line : string) : action Machine E unit := fun m =>
  (Ok tt, {| stdout := stdout m ++ [line]; net := net m; cpu := cpu m; clock := clock m |}).

(** Of the [rusage] of the process: seconds and microseconds of user and system time. *)
Record rusage := { utime_sec : Z; utime_usec : Z; stime_sec : Z; stime_usec : Z }.
Definition cpu_time_us (u : rusage) : Z :=
  (utime_sec u * 1000000 + utime_usec u + (stime_sec u * 1000000 + stime_usec u))%Z.

Definition get_cpu_time_us {E} : action Machine E Z := fun m =>
  (Ok (default 0%Z (head (cpu m))),
   {| stdout := stdout m; net := net m; cpu := tail (cpu m); clock := clock m |}).

(** The two counters' texts ([None] where the file cannot be read), on Linux. *)
Definition bandwidth_of (trim : string -> string) (rx_str tx_str : option string) : Z * Z :=
  let parsed s := match parse_u64 (trim (default "0" s)) with Ok z => z | _ => 0%Z end in
  (parsed rx_str, parsed tx_str).

(** [contains], [ends_with], and [split_whitespace] on ASCII white space. *)
Fixpoint contains (p s : string) : bool :=
  starts_with p s || match s with EmptyString => false | String _ s' => contains p s' end.
Fixpoint ends_with (p s : string) : bool :=
  bool_decide (s = p) || match s with EmptyString => false | String _ s' => ends_with p s' end.
Definition is_space (c : ascii) : bool :=
  let n := nat_of_ascii c in bool_decide (n = 32) || bool_decide (9 <= n <= 13).
Fixpoint split_whitespace (word : string) (s : string) : list string :=
  match s with
  | EmptyString => if bool_decide (word = "") then [] else [word]
  | String c s' =>
      if is_space c then (if bool_decide (word = "") then [] else [word]) ++ split_whitespace "" s'
      else split_whitespace (word +:+ String c "") s'
  end.

(** On macOS: the counters of process [pid] in what nettop printed. *)
Fixpoint nettop_line (pid : Z) (ls : list string) : Z * Z :=
  match ls with
  | [] => (0, 0)%Z
  | line :: ls' =>
      if contains "bytes_in" line then nettop_line pid ls'
      else match split_whitespace "" line with
           | name_pid :: parts =>
               if ends_with ("." +:+ u64_to_string pid) name_pid then
                 let parsed s := match parse_u64 s with Ok z => z | _ => 0%Z end in
                 (parsed (default "0" (parts !! 0)), parsed (default "0" (parts !! 1)))
               else nettop_line pid ls'
           | [] => nettop_line pid ls'
           end
  end.
Definition nettop_bandwidth (pid : Z) (stdout : string) : Z * Z := nettop_line pid (lines stdout).

Example nettop_reads :
  nettop_bandwidth 42 (unlines [",bytes_in,bytes_out"; "mdns.7 1 2"; "worker.42   300 17"]) = (300, 17)%Z.
Proof. vm_compute. reflexivity. Qed.

Definition get_bandwidth_bytes {E} : action Machine E (Z * Z) := fun m =>
  (Ok (default (0, 0)%Z (head (net m))),
   {| stdout := stdout m; net := tail (net m); cpu := cpu m; clock := clock m |}).

(** [Instant::elapsed().as_millis()] *)
Definition elapsed_ms {E} : action Machine E Z := fun m =>
  (Ok (default 0%Z (head (clock m))),
   {| stdout := stdout m; net := net m; cpu := cpu m; clock := tail (clock m) |}).

(** The loop of [wait_for_bandwidth_stabilization], with the intervals left. *)
Fixpoint stabilize {E} (overflow_checks : bool) (n : nat) (max_bytes previous_total silent_intervals : Z) :
    action Machine E Z :=
  match n with
  | O => ret max_bytes
  | S n' =>
      curr <- get_bandwidth_bytes ;;
      current_total <- lift (usize_add overflow_checks curr.1 curr.2) ;;
      let max_bytes := Z.max max_bytes current_total in
      let delta := saturating_sub current_total previous_total in
      if bool_decide (delta = 0%Z) then
        let silent_intervals := (silent_intervals + 1)%Z in
        if bool_decide (3 <= silent_intervals)%Z then ret max_bytes
        else stabilize overflow_checks n' max_bytes current_total silent_intervals
      else stabilize overflow_checks n' max_bytes current_total 0
  end.

Definition wait_for_bandwidth_stabilization {E} (overflow_checks : bool) : action Machine E Z :=
  stabilize overflow_checks 20 0 0 0.

Definition report_result {E} (parts : list Z) : action Machine E unit :=
  println ("RESULT," +:+ join "," (map u64_to_string parts)).

(** ** bench_orchestrator.rs *)

(** Starting a worker binary with its arguments and waiting for it: its output as text. *)
Abbreviation Spawner := (string -> list string -> outcome anyhow string).

Fixpoint find_result (ls : list string) : option string :=
  match ls with
  | [] => None
  | line :: ls' =>
      match Schema.strip_prefix "RESULT," line with
      | Some rest => Some rest
      | None => find_result ls'
      end
  end.

(** [current_exe] and its parent directory come first: [exe_dir] is what they are. *)
Definition run_worker (spawn : Spawner) (exe_dir : outcome anyhow (option string)) (bin : string) (args : list string) :
    outcome anyhow (list Z) :=
  let? dir := exe_dir in
  match dir with
  | None => Err "No parent dir"
  | Some parent_dir =>
      let? stdout := spawn (parent_dir +:+ "/" +:+ bin) args in
      match find_result (lines stdout) with
      | Some rest => parse_all (split_on ","%char rest)
      | None => Err "Worker failed to return result"
      end
  end.

(** *** Numbers as the rows print them *)
Abbreviation f64 := spec_float.
Definition f64_of_Z (z : Z) : f64 := binary_normalize 53 1024 z 0 false.
Definition f64_mul : f64 -> f64 -> f64 := SFmul 53 1024.
Definition f64_div : f64 -> f64 -> f64 := SFdiv 53 1024.
(** The literal [n / 10^d]: the nearest binary64 value. *)
Definition f64_lit (n : Z) (d : nat) : f64 := f64_div (f64_of_Z n) (f64_of_Z (10 ^ Z.of_nat d)).

(** [f64 as u64]: truncates and saturates. *)
Definition f64_as_u64 (f : f64) : Z :=
  match f with
  | S754_finite false m e => Z.min u64_max (Z.shiftl (Z.pos m) e)
  | S754_infinity false => u64_max
  | _ => 0
  end%Z.

(** [a / b] to the nearest integer, ties to even. *)
Definition div_half_even (a b : Z) : Z :=
  let q := (a / b)%Z in
  match (2 * (a mod b) ?= b)%Z with
  | Lt => q
  | Eq => if Z.even q then q else q + 1
  | Gt => q + 1
  end%Z.

(** [d] decimals of a number of units of [10^-d]. *)
Fixpoint pad_zeros (n : nat) (s : string) : string :=
  match n with O => s | S n' => if bool_decide (String.length s < S n') then String "0"%char (pad_zeros n' s) else s end.
Definition decimals (d : nat) (units : Z) : string :=
  u64_to_string (units / 10 ^ Z.of_nat d) +:+ "." +:+ pad_zeros d (u64_to_string (units mod 10 ^ Z.of_nat d)).

(** [{:.d}] of an [f64]: its exact value rounded to [d] decimals. *)
Definition fixed (d : nat) (f : f64) : string :=
  match f with
  | S754_zero s => (if s then "-" else "") +:+ decimals d 0
  | S754_infinity s => (if s then "-" else "") +:+ "inf"
  | S754_nan => "NaN"
  | S754_finite s m e =>
      let scaled := (Z.pos m * 10 ^ Z.of_nat d)%Z in
      (if s then "-" else "") +:+
      decimals d (if bool_decide (0 <= e)%Z then scaled * 2 ^ e else div_half_even scaled (2 ^ (- e)))%Z
  end.

(** *** Cryptographic cost *)
Record CryptoConfig := { epochs_to_simulate : list Z }.
Record DiscoveryConfig := { discovery_iterations : nat }.
Record LatencyConfig := { latency_iterations : nat }.
Record BenchConfig := {
  crypto : option CryptoConfig;
  discovery : option DiscoveryConfig;
  latency : option LatencyConfig;
}.

(** [iters] rounds of [epochs] ratchets of one secret. *)
Definition ratchet_rounds (iters : nat) (epochs : Z) (secret : EpochSecret) : EpochSecret :=
  Nat.iter iters (fun s => N.iter (Z.to_N epochs) ratchet_secret s) secret.

Definition crypto_row (epochs elapsed_us : Z) : string :=
  "crypto_cost,epochs," +:+ u64_to_string epochs +:+ ",cpu_time_ms," +:+
  fixed 6 (f64_div (f64_of_Z elapsed_us) (f64_of_Z 1000)).

(** The secrets [EpochSecret::generate_random] draws are of no consequence; [secret] is one. *)
Fixpoint measure_crypto_rows {E} (secret : EpochSecret) (epochs : list Z) : action Machine E (list string) :=
  match epochs with
  | [] => ret []
  | n :: rest =>
      start_cpu <- get_cpu_time_us ;;
      let _ := ratchet_rounds 1000 n secret in
      end_cpu <- get_cpu_time_us ;;
      let elapsed_us := (saturating_sub end_cpu start_cpu / 1000)%Z in
      let row := crypto_row n elapsed_us in
      println row ;;;
      rows <- measure_crypto_rows secret rest ;;
      ret (row :: rows)
  end.
Definition measure_crypto {E} (secret : EpochSecret) (config : CryptoConfig) : action Machine E (list string) :=
  println "--- Hardware-Agnostic Cryptographic Cost ---" ;;;
  measure_crypto_rows secret (epochs_to_simulate config).

(** *** Histograms *)

(** hdrhistogram's [Histogram<u64>]. *)
Class Histograms := {
  Histogram : Type;
  hist_new : outcome anyhow Histogram;
  hist_record : Z -> Histogram -> outcome anyhow Histogram;
  hist_len : Histogram -> Z;
  value_at_quantile : f64 -> Histogram -> Z;
}.

Section Orchestrator.
Context {H : Histograms}.

Definition quantiles : list f64 := [f64_lit 50 2; f64_lit 75 2; f64_lit 90 2; f64_lit 95 2; f64_lit 99 2].

(** The value and the percentile of a row. *)
Definition scaled_quantile (hist : Histogram) (scale q : f64) : f64 := f64_mul (f64_of_Z (value_at_quantile q hist)) scale.
Definition q_str (q : f64) : string := u64_to_string (f64_as_u64 (f64_mul q (f64_of_Z 100))).

Definition hist_row (name metric : string) (hist : Histogram) (scale q : f64) : string :=
  name +:+ ",p" +:+ q_str q +:+ "_" +:+ metric +:+ "," +:+ fixed 2 (scaled_quantile hist scale q).
Definition row_part (unit_ : string) (hist : Histogram) (scale q : f64) : string :=
  "p" +:+ q_str q +:+ ": " +:+ fixed 2 (scaled_quantile hist scale q) +:+ " " +:+ unit_.

(** [{:<15}] *)
Fixpoint pad_right (n : nat) (s : string) : string :=
  match n with
  | O => s
  | S n' => match s with EmptyString => String " "%char (pad_right n' "") | String c s' => String c (pad_right n' s') end
  end.

Definition report_hist {E} (name metric : string) (hist : Histogram) (scale : f64) (unit_ : string) :
    action Machine E (list string) :=
  if bool_decide (0 < hist_len hist)%Z then
    println (pad_right 15 name +:+ " - " +:+ join ", " (map (row_part unit_ hist scale) quantiles)) ;;;
    ret (map (hist_row name metric hist scale) quantiles)
  else ret [].

(** A worker's numbers go to one histogram each. *)
Fixpoint record_all (zs : list Z) (hs : list Histogram) : outcome anyhow (list Histogram) :=
  match zs, hs with
  | z :: zs', h :: hs' =>
      let? h' := hist_record z h in
      let? rest := record_all zs' hs' in
      Ok (h' :: rest)
  | _, _ => Ok hs
  end.

Context (spawn : Spawner) (exe_dir : outcome anyhow (option string)).

(** One iteration: the worker's result is recorded if it has as many numbers as there are
    histograms; anything else only prints a line. [success] is that line. *)
Definition iteration (bin : string) (args : list string) (success : list Z -> string) (hs : list Histogram) :
    action Machine anyhow (list Histogram) :=
  match run_worker spawn exe_dir bin args with
  | Ok parts =>
      if bool_decide (length parts = length hs) then
        hs' <- lift (record_all parts hs) ;;
        println (success parts) ;;;
        ret hs'
      else println "  Worker reported an error." ;;; ret hs
  | Err _ => println "  Worker reported an error." ;;; ret hs
  | Panic => lift Panic
  end.

(** The loop, over the two keys each iteration draws. *)
Fixpoint iterations (title bin : string) (total : Z) (success : list Z -> string) (i : Z) (keys : list (string * string))
    (hs : list Histogram) : action Machine anyhow (list Histogram) :=
  match keys with
  | [] => ret hs
  | (bob_sk, alice_sk) :: keys' =>
      println "" ;;;
      println ("Running " +:+ title +:+ " Iteration " +:+ u64_to_string i +:+ "/" +:+ u64_to_string total +:+ "...") ;;;
      hs' <- iteration bin [u64_to_string i; bob_sk; alice_sk] success hs ;;
      iterations title bin total success (i + 1) keys' hs'
  end.

Fixpoint new_histograms (n : nat) : outcome anyhow (list Histogram) :=
  match n with
  | O => Ok []
  | S n' => let? h := hist_new in let? hs := new_histograms n' in Ok (h :: hs)
  end.

(** The rows of the histograms, each with its name, metric, scale and unit. *)
Fixpoint report_all {E} (specs : list (string * string * f64 * string)) (hs : list Histogram) :
    action Machine E (list string) :=
  match specs, hs with
  | (name, metric, scale, unit_) :: specs', h :: hs' =>
      rows <- report_hist name metric h scale unit_ ;;
      rest <- report_all specs' hs' ;;
      ret (rows ++ rest)
  | _, _ => ret []
  end.

Definition one : f64 := f64_lit 10 1.
Definition thousandth : f64 := f64_lit 1 3.

Definition dht_specs : list (string * string * f64 * string) :=
  [ ("dht_publish", "bytes", one, "B"); ("dht_publish", "cpu_ms", thousandth, "ms");
    ("dht_resolve", "latency_ms", one, "ms"); ("dht_resolve", "bytes", one, "B");
    ("dht_resolve", "cpu_ms", thousandth, "ms") ].
Definition dht_success (parts : list Z) : string :=
  "  Success: pub: " +:+ u64_to_string (nth 0 parts 0%Z) +:+ " B, res: " +:+ u64_to_string (nth 3 parts 0%Z) +:+
  " B, " +:+ u64_to_string (nth 2 parts 0%Z) +:+ " ms".

Definition measure_dht_discovery (keys : list (string * string)) : action Machine anyhow (list string) :=
  println "--- Pure DHT Discovery Costs (Publish & Resolve) ---" ;;;
  hs <- lift (new_histograms 5) ;;
  hs <- iterations "DHT Discovery" "bench_tryst_discovery_worker" (Z.of_nat (length keys)) dht_success 1 keys hs ;;
  println "" ;;;
  println "--- DHT Discovery Results ---" ;;;
  report_all dht_specs hs.

Definition conn_specs : list (string * string * f64 * string) :=
  [ ("conn_est", "latency_ms", one, "ms"); ("conn_est", "bytes", one, "B"); ("conn_est", "cpu_ms", thousandth, "ms") ].
Definition conn_success (parts : list Z) : string :=
  "  Success: " +:+ u64_to_string (nth 0 parts 0%Z) +:+ " ms, " +:+ u64_to_string (nth 1 parts 0%Z) +:+ " B".

Definition measure_connection_establishment (keys : list (string * string)) : action Machine anyhow (list string) :=
  println "--- Full Connection Establishment Costs ---" ;;;
  hs <- lift (new_histograms 3) ;;
  hs <- iterations "Connection Establishment" "bench_p2p_conn_worker" (Z.of_nat (length keys)) conn_success 1 keys hs ;;
  println "" ;;;
  println "--- Connection Establishment Results ---" ;;;
  report_all conn_specs hs.

(** *** [main] *)
Definition possible_paths : list string := ["bench_config.ron"; "./config/bench_config.ron"; "../bench_config.ron"].

(** The first path there is a file at, or else the one beside the executable. *)
Definition find_config (exists_ : string -> bool) : option string :=
  match List.find exists_ possible_paths with
  | Some path => Some path
  | None =>
      match exe_dir with
      | Ok (Some parent) =>
          let alt_path := parent +:+ "/bench_config.ron" in
          if exists_ alt_path then Some alt_path else None
      | _ => None
      end
  end.

Definition header : string := "run_type,metric,param,value".

(** [read_config] opens and parses the file ([open_error] is the text of what fails there);
    [keys] are the pairs the iterations of the two benchmarks draw. The result is the text
    written to bench_results.csv, if [write] succeeds. *)
Definition main (exists_ : string -> bool) (read_config : string -> outcome anyhow BenchConfig) (secret : EpochSecret)
    (dht_keys conn_keys : nat -> list (string * string)) (write : string -> outcome anyhow unit) :
    action Machine anyhow string :=
  match find_config exists_ with
  | None => throw "Configuration file 'bench_config.ron' not found in root, ./config, or executable directory."
  | Some config_path =>
      config <- lift (read_config config_path) ;;
      rows1 <- (match crypto config with Some c => measure_crypto secret c | None => ret [] end) ;;
      rows2 <- (match discovery config with
                | Some d => measure_dht_discovery (dht_keys (discovery_iterations d)) | None => ret [] end) ;;
      rows3 <- (match latency config with
                | Some l => measure_connection_establishment (conn_keys (latency_iterations l)) | None => ret [] end) ;;
      let text := join (String newline "") (header :: rows1 ++ rows2 ++ rows3) +:+ String newline "" in
      lift (write text) ;;;
      println "" ;;;
      println "✅ Benchmarks complete! Results written to bench_results.csv" ;;;
      ret text
  end.
End Orchestrator.

Example percentiles_printed : map q_str quantiles = ["50"; "75"; "90"; "95"; "99"].
Proof. vm_compute. reflexivity. Qed.
Example fixed_examples :
  fixed 2 (f64_mul (f64_of_Z 125) thousandth) = "0.12" /\ fixed 2 (f64_mul (f64_of_Z 1234567) one) = "1234567.00" /\
  fixed 6 (f64_div (f64_of_Z 1) (f64_of_Z 1000)) = "0.001000".
Proof. vm_compute. done. Qed.

(** ** Result lines are read back *)
Lemma char_free_app c a b : char_free c (a +:+ b) = char_free c a && char_free c b.
Proof.
  induction a as [|d a IH]; [done|].
  change (negb (bool_decide (c = d)) && char_free c (a +:+ b) = negb (bool_decide (c = d)) && char_free c a && char_free c b).
  by rewrite IH, andb_assoc.
Qed.

Lemma split_on_free c s : char_free c s = true -> split_on c s = [s].
Proof.
  induction s as [|d s IH]; [done|]. simpl. intros [Hd Hs]%andb_true_iff. apply negb_true_iff in Hd.
  by rewrite Hd, IH.
Qed.

Lemma split_on_app c a b : char_free c a = true -> split_on c (a +:+ String c b) = a :: split_on c b.
Proof.
  induction a as [|d a IH]; intros Ha.
  - change ("" +:+ String c b) with (String c b). simpl. by rewrite bool_decide_true.
  - change (String d a +:+ String c b) with (String d (a +:+ String c b)). simpl in *.
    apply andb_true_iff in Ha as [Hd Ha]. apply negb_true_iff in Hd. by rewrite Hd, IH.
Qed.

Lemma split_on_join (c : ascii) ls :
  Forall (fun l => char_free c l = true) ls -> ls <> [] -> split_on c (join (String c "") ls) = ls.
Proof.
  induction 1 as [|l ls Hl Hls IH]; [done|]. intros _. destruct ls as [|l' ls].
  - by apply split_on_free.
  - change (join (String c "") (l :: l' :: ls)) with (l +:+ (String c "" +:+ join (String c "") (l' :: ls))).
    change (String c "" +:+ join (String c "") (l' :: ls)) with (String c (join (String c "") (l' :: ls))).
    rewrite split_on_app by done. by rewrite IH.
Qed.

Lemma split_on_unlines ls :
  Forall (fun l => char_free newline l = true) ls -> split_on newline (unlines ls) = ls ++ [""].
Proof.
  induction 1 as [|l ls Hl Hls IH]; [done|].
  change (unlines (l :: ls)) with (l +:+ String newline (unlines ls)).
  by rewrite split_on_app, IH.
Qed.

Lemma finished_app ls : finished (ls ++ [""]) = map strip_last_cr ls.
Proof.
  induction ls as [|l ls IH]; [done|]. destruct ls as [|l' ls]; [done|].
  change (finished ((l :: l' :: ls) ++ [""])) with (strip_last_cr l :: finished ((l' :: ls) ++ [""])). by rewrite IH.
Qed.

Lemma lines_unlines ls :
  Forall (fun l => char_free newline l = true) ls -> lines (unlines ls) = map strip_last_cr ls.
Proof. intros Hls. unfold lines. by rewrite split_on_unlines, finished_app. Qed.

Lemma strip_last_cr_free s : char_free carriage_return s = true -> strip_last_cr s = s.
Proof.
  induction s as [|c s IH]; [done|]. intros Hs. simpl in *. apply andb_true_iff in Hs as [Hc Hs].
  apply negb_true_iff, bool_decide_eq_false in Hc. destruct s; [by rewrite bool_decide_false by congruence|].
  by rewrite IH.
Qed.

Lemma strip_last_cr_prefix s : exists r, s = strip_last_cr s +:+ r.
Proof.
  induction s as [|c s [r IH]]; [by exists ""|]. destruct s as [|d s].
  - simpl. case_bool_decide; [|by exists ""]. by exists (String c "").
  - exists r. change (strip_last_cr (String c (String d s))) with (String c (strip_last_cr (String d s))).
    change (String c (strip_last_cr (String d s)) +:+ r) with (String c (strip_last_cr (String d s) +:+ r)).
    by rewrite <- IH.
Qed.

Lemma strip_prefix_none p s : Schema.strip_prefix p s = None -> Schema.strip_prefix p (strip_last_cr s) = None.
Proof.
  intros Hs. destruct (Schema.strip_prefix p (strip_last_cr s)) as [x|] eqn:E; [|done].
  apply Schema.strip_prefix_inv in E. destruct (strip_last_cr_prefix s) as [r Hr]. rewrite E, append_assoc in Hr.
  by rewrite Hr, Schema.strip_prefix_app in Hs.
Qed.

Lemma digit_pretty x : (x < 10)%N -> digit (pretty_N_char x) = Some (Z.of_N x).
Proof.
  intros Hx. assert (x = 0 \/ x = 1 \/ x = 2 \/ x = 3 \/ x = 4 \/ x = 5 \/ x = 6 \/ x = 7 \/ x = 8 \/ x = 9)%N as Hc by lia.
  by repeat (destruct Hc as [-> | Hc]); [..|subst x].
Qed.

Lemma parse_digits_go x : forall s,
  (Z.of_N x <= u64_max)%Z -> parse_digits 0 (pretty_N_go x s) = parse_digits (Z.of_N x) s.
Proof.
  induction (N.lt_wf_0 x) as [x _ IH]. intros s Hx. destruct (decide (x = 0)%N) as [->|Hne]; [done|].
  rewrite pretty_N_go_step by lia. pose proof (N.div_mod x 10 ltac:(lia)) as Hdm.
  pose proof (N.mod_lt x 10 ltac:(lia)) as Hm.
  remember (x / 10)%N as q eqn:Eq. remember (x mod 10)%N as r eqn:Er. clear Eq Er.
  rewrite IH by lia. cbn [parse_digits]. rewrite digit_pretty by done.
  rewrite bool_decide_true by lia. f_equal. lia.
Qed.

(** Decimal text of numbers: digits only, and read back. *)
Lemma pretty_N_go_digits c x : forall s,
  digit c = None -> char_free c s = true -> char_free c (pretty_N_go x s) = true.
Proof.
  induction (N.lt_wf_0 x) as [x _ IH]. intros s Hc Hs. destruct (decide (x = 0)%N) as [->|Hne]; [done|].
  rewrite pretty_N_go_step by lia. apply IH; [apply N.div_lt; lia|done|]. simpl. rewrite Hs, andb_true_r.
  apply negb_true_iff, bool_decide_eq_false. intros ->. rewrite digit_pretty in Hc by (apply N.mod_lt; lia). done.
Qed.

Lemma u64_to_string_free c z : digit c = None -> char_free c (u64_to_string z) = true.
Proof.
  intros Hc. unfold u64_to_string, pretty, pretty_N. case_decide; [|by apply pretty_N_go_digits].
  simpl. rewrite andb_true_r. apply negb_true_iff, bool_decide_eq_false. by intros ->.
Qed.

Lemma pretty_N_go_nonempty x : forall s, s <> "" -> pretty_N_go x s <> "".
Proof.
  induction (N.lt_wf_0 x) as [x _ IH]. intros s Hs. destruct (decide (x = 0)%N) as [->|Hne]; [done|].
  rewrite pretty_N_go_step by lia. apply IH; [apply N.div_lt; lia|done].
Qed.

Lemma parse_u64_to_string z : u64 z -> parse_u64 (u64_to_string z) = Ok z.
Proof.
  intros Hz. assert (parse_digits 0 (u64_to_string z) = Ok z) as Hp.
  { unfold u64_to_string, pretty, pretty_N. case_decide as H0.
    - replace z with 0%Z by (unfold u64 in Hz; lia). done.
    - rewrite parse_digits_go by (unfold u64 in Hz; lia). simpl. f_equal. unfold u64 in Hz. lia. }
  pose proof (u64_to_string_free "+"%char z eq_refl) as Hf. unfold parse_u64.
  assert (u64_to_string z <> "") as Hne.
  { unfold u64_to_string, pretty, pretty_N. case_decide as Hd; [done|]. rewrite pretty_N_go_step by lia.
    by apply pretty_N_go_nonempty. }
  destruct (u64_to_string z) as [|c s]; [done|]. simpl in Hf. apply andb_true_iff in Hf as [Hc _].
  apply negb_true_iff, bool_decide_eq_false in Hc.
  destruct c as [[] [] [] [] [] [] [] []]; try exact Hp. done.
Qed.

Lemma parse_all_to_string zs : Forall u64 zs -> parse_all (map u64_to_string zs) = Ok zs.
Proof. induction 1 as [|z zs Hz _ IH]; [done|]. simpl. by rewrite parse_u64_to_string, IH. Qed.

Lemma join_free c sep ls :
  char_free c sep = true -> Forall (fun l => char_free c l = true) ls -> char_free c (join sep ls) = true.
Proof.
  intros Hs. induction 1 as [|l ls Hl Hls IH]; [done|]. destruct ls as [|l' ls]; [done|].
  change (join sep (l :: l' :: ls)) with (l +:+ (sep +:+ join sep (l' :: ls))).
  by rewrite !char_free_app, Hl, Hs, IH.
Qed.

Lemma find_result_app pre line rest post :
  Forall (fun l => Schema.strip_prefix "RESULT," l = None) pre -> Schema.strip_prefix "RESULT," line = Some rest ->
  find_result (pre ++ line :: post) = Some rest.
Proof. intros Hp Hl. induction Hp as [|l pre Hx _ IH]; cbn [find_result app]; [by rewrite Hl|by rewrite Hx]. Qed.

Lemma find_result_none ls :
  Forall (fun l => Schema.strip_prefix "RESULT," l = None) ls -> find_result ls = None.
Proof. induction 1 as [|l pre Hx _ IH]; cbn [find_result]; [done|by rewrite Hx]. Qed.

(** A line of output that is no result. *)
Definition chatter (l : string) : Prop :=
  char_free newline l = true /\ Schema.strip_prefix "RESULT," l = None.

Lemma chatter_read ls :
  Forall chatter ls -> Forall (fun l => Schema.strip_prefix "RESULT," l = None) (map strip_last_cr ls).
Proof. induction 1 as [|l ls [_ Hl] _ IH]; [constructor|]. constructor; [by apply strip_prefix_none|done]. Qed.

Lemma chatter_free ls : Forall chatter ls -> Forall (fun l => char_free newline l = true) ls.
Proof. intros Hls. eapply Forall_impl; [exact Hls|]. by intros l []. Qed.

(** What the orchestrator makes of an output without a result line, and of one with. *)
Lemma run_worker_chatter spawn parent bin args ls :
  Forall chatter ls -> spawn (parent +:+ "/" +:+ bin) args = Ok (unlines ls) ->
  run_worker spawn (Ok (Some parent)) bin args = Err "Worker failed to return result".
Proof.
  intros Hls Hs. unfold run_worker. cbn [obind]. rewrite Hs. cbn [obind].
  by rewrite lines_unlines, find_result_none by (by apply chatter_free || by apply chatter_read).
Qed.

Lemma run_worker_result spawn parent bin args pre parts post :
  Forall chatter pre -> Forall u64 parts -> Forall (fun l => char_free newline l = true) post ->
  spawn (parent +:+ "/" +:+ bin) args =
    Ok (unlines (pre ++ ("RESULT," +:+ join "," (map u64_to_string parts)) :: post)) ->
  run_worker spawn (Ok (Some parent)) bin args =
    match parts with [] => Err "cannot parse integer from empty string" | _ => Ok parts end.
Proof.
  intros Hpre Hparts Hpost Hs. unfold run_worker. cbn [obind]. rewrite Hs. cbn [obind].
  set (line := "RESULT," +:+ join "," (map u64_to_string parts)).
  assert (forall c, digit c = None -> c <> ","%char -> char_free c (join "," (map u64_to_string parts)) = true) as Hfree.
  { intros c Hd Hc. apply join_free; [simpl; by rewrite bool_decide_false|].
    apply Forall_forall. intros l (z & -> & _)%list_elem_of_fmap. by apply u64_to_string_free. }
  assert (char_free newline line = true) as Hn by (unfold line; by rewrite char_free_app, Hfree).
  assert (char_free carriage_return line = true) as Hcr by (unfold line; by rewrite char_free_app, Hfree).
  rewrite lines_unlines by (apply Forall_app; split; [by apply chatter_free|by constructor]).
  rewrite map_app, map_cons, (strip_last_cr_free line Hcr).
  rewrite (find_result_app _ _ (join "," (map u64_to_string parts))) by (by apply chatter_read || apply Schema.strip_prefix_app).
  destruct parts as [|z zs]; [done|]. change "," with (String ","%char "") at 1.
  rewrite split_on_join; [by apply parse_all_to_string| |done].
  apply Forall_forall. intros l (x & -> & _)%list_elem_of_fmap. by apply u64_to_string_free.
Qed.

(** C33. The line a worker reports its numbers with and the orchestrator's parser agree: whatever
    the worker printed before (no line of its own starting with the marker) and prints after,
    the orchestrator gets exactly the numbers reported, up to the largest [u64]; a worker that
    reports no number at all is an error of the parser, not a missing result. *)
Theorem worker_result_roundtrip {E} spawn parent bin args parts post (m : Machine) :
  Forall chatter (stdout m) -> Forall u64 parts -> Forall (fun l => char_free newline l = true) post ->
  let m' := (report_result (E := E) parts m).2 in
  spawn (parent +:+ "/" +:+ bin) args = Ok (unlines (stdout m' ++ post)) ->
  run_worker spawn (Ok (Some parent)) bin args =
    match parts with [] => Err "cannot parse integer from empty string" | _ => Ok parts end.
Proof.
  intros Hpre Hparts Hpost m' Hs. apply (run_worker_result spawn parent bin args (stdout m) parts post); [done..|].
  rewrite Hs. do 2 f_equal. unfold m', report_result, println. cbn [snd stdout]. by rewrite <- (assoc_L (++)).
Qed.

Lemma worker_result_roundtrip_witness :
  let m := {| stdout := ["Waiting for DHT propagation..."]; net := []; cpu := []; clock := [] |} in
  let m' := (report_result (E := anyhow) [12; 2 ^ 64 - 1; 0]%Z m).2 in
  run_worker (fun _ _ => Ok (unlines (stdout m' ++ []))) (Ok (Some "target/debug")) "bench_p2p_conn_worker" ["1"; "a"; "b"] =
    Ok [12; 2 ^ 64 - 1; 0]%Z.
Proof.
  intros m m'.
  apply (worker_result_roundtrip (E := anyhow) (fun _ _ => Ok (unlines (stdout m' ++ []))) "target/debug"
    "bench_p2p_conn_worker" ["1"; "a"; "b"] [12; 2 ^ 64 - 1; 0]%Z [] m).
  - repeat constructor.
  - repeat constructor; unfold u64, u64_max; lia.
  - constructor.
  - reflexivity.
Defined.

(** ** Waiting for silence *)
Definition total (m : Machine) (i : nat) : Z :=
  let r := default (0, 0)%Z (net m !! i) in (r.1 + r.2)%Z.

(** No bytes more in interval [i] than before. *)
Definition quiet (m : Machine) (i : nat) : Prop :=
  (total m i <= match i with O => 0 | S j => total m j end)%Z.

(** Three quiet intervals have just ended after [k]. *)
Definition settled (m : Machine) (k : nat) : Prop := exists i, k = i + 3 /\ quiet m i /\ quiet m (i + 1) /\ quiet m (i + 2).

Definition max_total (m : Machine) (k : nat) : Z := foldr Z.max 0%Z (map (total m) (seq 0 k)).

Lemma max_total_S m k : (forall i, 0 <= total m i)%Z -> max_total m (S k) = Z.max (max_total m k) (total m k).
Proof.
  intros Hpos. unfold max_total. rewrite seq_S, map_app. simpl.
  generalize (map (total m) (seq 0 k)) (Hpos k). intros l Hk. induction l as [|x l IH]; simpl; lia.
Qed.

(** [m] after [k] readings of the counters. *)
Definition after (k : nat) (m : Machine) : Machine :=
  {| stdout := stdout m; net := drop k (net m); cpu := cpu m; clock := clock m |}.

Lemma read_bandwidth {E} k m :
  get_bandwidth_bytes (E := E) (after k m) = (Ok (default (0, 0)%Z (net m !! k)), after (S k) m).
Proof.
  unfold get_bandwidth_bytes, after. cbn [net stdout cpu clock].
  rewrite head_lookup, lookup_drop, Nat.add_0_r. do 2 f_equal.
  change (tail (drop k (net m))) with (drop 1 (drop k (net m))). rewrite drop_drop. f_equal. lia.
Qed.

Lemma stabilize_spec {E} oc m n : forall k s,
  k + n = 20 -> s < 3 -> s <= k -> (forall i, 0 <= total m i <= usize_max)%Z ->
  (forall j, j < s -> quiet m (k - 1 - j)) -> (s < k -> ~ quiet m (k - 1 - s)) -> (forall j, j <= k -> ~ settled m j) ->
  exists k', stabilize (E := E) oc n (max_total m k) (match k with O => 0%Z | S j => total m j end) (Z.of_nat s) (after k m) =
      (Ok (max_total m k'), after k' m) /\
    k <= k' /\ k' <= 20 /\ (k' = 20 \/ settled m k') /\ forall j, j < k' -> ~ settled m j.
Proof.
  induction n as [|n IH]; intros k s Hk Hs Hsk Ht Hq Hnq Hns.
  { exists k. split; [done|]. split; [lia|]. split; [lia|]. split; [left; lia|]. intros j Hj. apply Hns. lia. }
  cbn [stabilize]. rewrite (bind_ok _ _ _ _ _ (read_bandwidth k m)).
  assert (usize_add (E := E) oc (default (0, 0)%Z (net m !! k)).1 (default (0, 0)%Z (net m !! k)).2 = Ok (total m k)) as Ea.
  { unfold usize_add. fold (total m k). rewrite bool_decide_true by apply Ht. done. }
  rewrite Ea. unfold bind, lift. rewrite <- max_total_S by apply Ht.
  set (prev := match k with O => 0%Z | S j => total m j end).
  assert (saturating_sub (total m k) prev = 0%Z <-> quiet m k) as Hdelta by (unfold saturating_sub, quiet; fold prev; lia).
  assert (forall j, j <= k -> quiet m j \/ ~ quiet m j) as Hdec by (intros j _; unfold quiet; lia).
  case_bool_decide as Hd.
  - apply Hdelta in Hd. case_bool_decide as H3.
    + assert (s = 2) as -> by lia. exists (S k). split; [done|]. split; [lia|]. split; [lia|].
      split; [|intros j Hj; apply Hns; lia]. right. exists (k - 2). split; [lia|].
      pose proof (Hq 0 ltac:(lia)) as Hq0. pose proof (Hq 1 ltac:(lia)) as Hq1.
      replace (k - 2 + 1) with (k - 1) by lia. replace (k - 2 + 2) with k by lia.
      replace (k - 1 - 0) with (k - 1) in Hq0 by lia. replace (k - 1 - 1) with (k - 2) in Hq1 by lia. done.
    + destruct (IH (S k) (S s)) as (k' & E' & Hk' & ?); [lia|lia|lia|done| | | |].
      * intros [|j] Hj; [by replace (S k - 1 - 0) with k by lia|].
        replace (S k - 1 - S j) with (k - 1 - j) by lia. apply Hq. lia.
      * intros Hlt. replace (S k - 1 - S s) with (k - 1 - s) by lia. apply Hnq. lia.
      * intros j Hj (i & -> & H0 & H1 & H2). destruct (decide (i + 3 <= k)); [apply (Hns (i + 3)); [done|by exists i]|].
        assert (s <= 1) by lia. destruct (decide (s < k)) as [Hlt|Hge]; [|lia].
        apply (Hnq Hlt). destruct s as [|[|s]]; [|replace (k - 1 - 1) with i by lia; done|lia].
        by replace (k - 1 - 0) with (i + 1) by lia.
      * exists k'. replace (Z.of_nat s + 1)%Z with (Z.of_nat (S s)) by lia. split; [exact E'|]. split; [lia|done].
  - destruct (IH (S k) 0) as (k' & E' & Hk' & ?); [lia|lia|lia|done| | | |].
    + intros j Hj. lia.
    + intros _ Hqk. apply Hd, Hdelta. by replace (S k - 1 - 0) with k in Hqk by lia.
    + intros j Hj (i & -> & H0 & H1 & H2). destruct (decide (i + 3 <= k)); [apply (Hns (i + 3)); [done|by exists i]|].
      apply Hd, Hdelta. by replace k with (i + 2) by lia.
    + exists k'. split; [exact E'|]. split; [lia|done].
Qed.

(** Waiting for the traffic to settle takes the first point at which three intervals in a
    row have brought no more bytes, or twenty intervals if there is none, and returns the
    largest total of the two counters seen until then. *)
Theorem stabilization_reference {E} oc (m : Machine) :
  (forall i, 0 <= total m i <= usize_max)%Z ->
  exists k, wait_for_bandwidth_stabilization (E := E) oc m = (Ok (max_total m k), after k m) /\
    k <= 20 /\ (k = 20 \/ settled m k) /\ (forall j, j < k -> ~ settled m j).
Proof.
  intros Ht. destruct (stabilize_spec (E := E) oc m 20 0 0) as (k & Ek & _ & H); [lia..|done|lia|lia| |].
  - intros j Hj (i & -> & _). lia.
  - exists k. split; [|exact H]. rewrite <- Ek. unfold wait_for_bandwidth_stabilization. by destruct m.
Qed.

Definition sample_traffic : list (Z * Z) := [(0, 0); (100, 50); (400, 90); (400, 90); (400, 95); (400, 95); (400, 95); (400, 95); (9, 9)]%Z.

Lemma stabilization_reference_witness :
  let m := {| stdout := []; net := sample_traffic; cpu := []; clock := [] |} in
  exists k, wait_for_bandwidth_stabilization (E := anyhow) true m = (Ok (max_total m k), after k m) /\
    k = 8 /\ max_total m k = 495%Z.
Proof.
  intros m. destruct (stabilization_reference (E := anyhow) true m) as (k & Ek & _ & _ & Hmin).
  { intros i. unfold total, usize_max. do 9 (destruct i as [|i]; [vm_compute; split; congruence|]). vm_compute. split; congruence. }
  exists k. split; [exact Ek|].
  assert (wait_for_bandwidth_stabilization (E := anyhow) true m = (Ok 495%Z, after 8 m)) as Ev by (vm_compute; reflexivity).
  rewrite Ek in Ev. pose proof Ev as Ev2. injection Ev as Hm Hd.
  split; [|exact Hm].
  assert (settled m 8) as H8 by (exists 5; split; [reflexivity|]; vm_compute; repeat split; congruence).
  destruct (Nat.lt_trichotomy k 8) as [Hlt|[?|Hgt]]; [|done|destruct (Hmin 8 Hgt H8)].
  exfalso. do 8 (destruct k as [|k]; [vm_compute in Hd; discriminate Hd|]). lia.
Defined.

(** ** The result file *)
Definition columns (row : string) : nat := length (split_on ","%char row).

Lemma split_on_nonempty c s : split_on c s <> [].
Proof. destruct s as [|d s]; [done|]. simpl. case_bool_decide; [done|]. by destruct (split_on c s). Qed.

Lemma columns_app a b : columns (a +:+ b) + 1 = columns a + columns b.
Proof.
  unfold columns. induction a as [|d a IH]; [change ("" +:+ b) with b; simpl; lia|].
  change (String d a +:+ b) with (String d (a +:+ b)). simpl split_on. case_bool_decide; [simpl length; lia|].
  pose proof (split_on_nonempty ","%char a). pose proof (split_on_nonempty ","%char (a +:+ b)).
  destruct (split_on ","%char a), (split_on ","%char (a +:+ b)); simpl in *; try done.
Qed.

Lemma columns_free s : char_free ","%char s = true -> columns s = 1.
Proof. intros Hs. unfold columns. by rewrite split_on_free. Qed.

Lemma pad_zeros_free c n s : c <> "0"%char -> char_free c s = true -> char_free c (pad_zeros n s) = true.
Proof.
  intros Hc Hs. induction n as [|n IH]; [done|]. cbn [pad_zeros]. case_bool_decide; [|done].
  simpl. by rewrite bool_decide_false, IH.
Qed.

(** [x] is one of a list of concrete elements. *)
Ltac find_elem := apply list_elem_of_In; repeat (first [left; reflexivity | right]).

(** A printed number has digits, a point, a sign, or the letters of inf and NaN. *)
Lemma fixed_free c d f :
  digit c = None -> forallb (fun x => negb (bool_decide (c = x))) (String.list_ascii_of_string ".-infNa0") = true ->
  char_free c (fixed d f) = true.
Proof.
  intros Hd Hc. assert (forall x, x ∈ String.list_ascii_of_string ".-infNa0" -> c <> x) as Hne.
  { intros x Hx%list_elem_of_In ->. rewrite forallb_forall in Hc. specialize (Hc x Hx).
    by rewrite bool_decide_true in Hc. }
  assert (forall a b, char_free c a = true -> char_free c b = true -> char_free c (a +:+ b) = true) as Happ
    by (intros a b Ha Hb; by rewrite char_free_app, Ha, Hb).
  assert (forall x s, x ∈ String.list_ascii_of_string ".-infNa0" -> char_free c s = true -> char_free c (String x s) = true) as Hs.
  { intros x s Hx Hcs. simpl. by rewrite bool_decide_false by auto. }
  assert (forall z, char_free c (decimals d z) = true) as Hdec.
  { intros z. unfold decimals. apply Happ; [by apply u64_to_string_free|]. apply Happ; [apply Hs; [find_elem|done]|].
    apply pad_zeros_free; [apply Hne; find_elem|by apply u64_to_string_free]. }
  unfold fixed. destruct f as [[]|[]| |[] m e]; repeat (done || apply Hdec || apply Happ || (apply Hs; [find_elem|])).
Qed.

Lemma columns_comma a b : columns (a +:+ ("," +:+ b)) = columns a + columns b.
Proof. pose proof (columns_app a ("," +:+ b)). pose proof (columns_app "," b). change (columns ",") with 2 in *. lia. Qed.

(** No character of [s] ends a line. *)
Definition on_a_line (s : string) : Prop := char_free newline s = true /\ char_free carriage_return s = true.

Lemma crypto_row_columns epochs us : columns (crypto_row epochs us) = 5 /\ on_a_line (crypto_row epochs us).
Proof.
  unfold crypto_row. split.
  - change (columns ("crypto_cost" +:+ ("," +:+ ("epochs" +:+ ("," +:+ (u64_to_string epochs +:+ ("," +:+ ("cpu_time_ms" +:+ ("," +:+
      fixed 6 (f64_div (f64_of_Z us) (f64_of_Z 1000))))))))) ) = 5).
    rewrite !columns_comma, (columns_free (u64_to_string epochs)), (columns_free (fixed _ _))
      by (by apply u64_to_string_free || by apply fixed_free). done.
  - split; by rewrite !char_free_app, u64_to_string_free, fixed_free.
Qed.

Section Rows.
Context {H : Histograms}.

(** The name and metric of a row, as the program gives them. *)
Definition plain_name (s : string) : Prop := char_free ","%char s = true /\ on_a_line s.

Lemma hist_row_columns name metric hist scale q :
  plain_name name -> plain_name metric ->
  columns (hist_row name metric hist scale q) = 3 /\ on_a_line (hist_row name metric hist scale q).
Proof.
  intros (Hn1 & Hn2 & Hn3) (Hm1 & Hm2 & Hm3). unfold hist_row, q_str. split.
  - set (a := u64_to_string _). set (b := fixed _ _).
    assert (columns (name +:+ ("," +:+ (("p" +:+ (a +:+ ("_" +:+ metric))) +:+ ("," +:+ b)))) = 3) as <-.
    { rewrite !columns_comma. rewrite !columns_free; [done|..|done].
      - by apply fixed_free.
      - unfold a. by rewrite !char_free_app, u64_to_string_free, Hm1. }
    f_equal. change (",p" +:+ (a +:+ ("_" +:+ (metric +:+ ("," +:+ b))))) with ("," +:+ ("p" +:+ (a +:+ ("_" +:+ (metric +:+ ("," +:+ b)))))).
    by rewrite !append_assoc.
  - split; rewrite !char_free_app, u64_to_string_free, fixed_free by done; by rewrite ?Hn2, ?Hm2, ?Hn3, ?Hm3.
Qed.

Definition row_ok (row : string) : Prop := (columns row = 3 \/ columns row = 5) /\ on_a_line row.

Lemma report_all_rows {E} specs : forall hs m rows m',
  Forall (fun s : string * string * f64 * string => plain_name s.1.1.1 /\ plain_name s.1.1.2) specs ->
  report_all (E := E) specs hs m = (Ok rows, m') -> Forall row_ok rows.
Proof.
  induction specs as [|[[[name metric] scale] unit_] specs IH]; intros hs m rows m' Hs.
  { intros [= <- <-]. constructor. }
  apply Forall_cons in Hs as [[Hn Hm] Hs]. cbn [report_all]. destruct hs as [|h hs]; [intros [= <- <-]; constructor|].
  intros Hr. inv_ok. apply Forall_app. split; [|by eapply IH].
  unfold report_hist in Hc. generalize dependent quantiles. intros qs Hc.
  case_bool_decide; inv_ok; [|constructor].
  apply Forall_forall. intros row (q & -> & _)%list_elem_of_fmap.
  destruct (hist_row_columns name metric h scale q Hn Hm). split; [by left|done].
Qed.

Lemma measure_crypto_row_ok {E} secret epochs : forall m rows m',
  measure_crypto_rows (E := E) secret epochs m = (Ok rows, m') -> Forall row_ok rows.
Proof.
  induction epochs as [|n epochs IH]; intros m rows m'; [intros [= <- <-]; constructor|].
  cbn [measure_crypto_rows]. intros Hr. inv_ok. constructor; [|by eapply IH].
  destruct (crypto_row_columns n (saturating_sub a0 a / 1000)). split; [by right|done].
Qed.

Context (spawn : Spawner) (exe_dir : outcome anyhow (option string)).

(** Every file the orchestrator writes: the first line is the header, which names four
    columns, and no data line has four; a crypto row has five and a histogram row three. *)
Theorem csv_columns exists_ read_config secret dht_keys conn_keys write m text m' :
  main spawn exe_dir exists_ read_config secret dht_keys conn_keys write m = (Ok text, m') ->
  exists rows, lines text = header :: rows /\ columns header = 4 /\
    Forall (fun row => columns row = 3 \/ columns row = 5) rows.
Proof.
  unfold main. destruct (find_config exe_dir exists_) as [path|]; [|done]. intros Hr. inv_ok.
  rename a0 into rows1, a1 into rows2, a2 into rows3.
  assert (Forall row_ok (rows1 ++ rows2 ++ rows3)) as Hrows.
  { apply Forall_app. split; [|apply Forall_app; split].
    - destruct (crypto a) as [c|]; inv_ok; [|constructor]. unfold measure_crypto in Hc0. inv_ok.
      by eapply measure_crypto_row_ok.
    - destruct (discovery a) as [c|]; inv_ok; [|constructor]. unfold measure_dht_discovery in Hc1. inv_ok.
      eapply report_all_rows; [|done]. repeat constructor.
    - destruct (latency a) as [c|]; inv_ok; [|constructor]. unfold measure_connection_establishment in Hc2. inv_ok.
      eapply report_all_rows; [|done]. repeat constructor. }
  set (rows := rows1 ++ rows2 ++ rows3) in *.
  assert (forall l ls, join (String newline "") (l :: ls) +:+ String newline "" = unlines (l :: ls)) as Hj.
  { intros l ls. revert l. induction ls as [|l' ls IH]; intros l.
    - change (unlines [l]) with (l +:+ String newline ""). done.
    - change (unlines (l :: l' :: ls)) with (l +:+ String newline (unlines (l' :: ls))). rewrite <- IH.
      change (join (String newline "") (l :: l' :: ls)) with (l +:+ (String newline "" +:+ join (String newline "") (l' :: ls))).
      by rewrite !append_assoc. }
  exists rows.
  change (lines (join (String newline "") (header :: rows) +:+ String newline "") = header :: rows /\
    columns header = 4 /\ Forall (fun row => columns row = 3 \/ columns row = 5) rows).
  rewrite Hj, lines_unlines.
  2: { constructor; [done|]. eapply Forall_impl; [exact Hrows|]. by intros r [_ []]. }
  split; [|split; [done|eapply Forall_impl; [exact Hrows|]; by intros r []]].
  assert (map strip_last_cr rows = rows) as Hmap; [|by rewrite map_cons, Hmap].
  clear -Hrows. clearbody rows. induction Hrows as [|r rs [_ [_ Hr]] _ IH]; [done|].
  rewrite map_cons, IH. f_equal. by apply strip_last_cr_free.
Qed.
End Rows.

(** A histogram that keeps every value. *)
Module ConcreteHistograms.
#[export] Instance list_histograms : Histograms := {|
  Histogram := list Z;
  hist_new := Ok [];
  hist_record z h := Ok (z :: h);
  hist_len h := Z.of_nat (length h);
  value_at_quantile _ h := foldr Z.max 0%Z h;
|}.
End ConcreteHistograms.

Module BenchSamples.
Import ConcreteHistograms.

Definition bench_config : BenchConfig := {|
  crypto := Some {| epochs_to_simulate := [1; 10000]%Z |};
  discovery := None;
  latency := Some {| latency_iterations := 1 |};
|}.
Definition worker_out : Spawner := fun _ _ => Ok (unlines ["Waiting for DHT propagation..."; "RESULT,125,2048,1500"]).
Definition sample_main : action Machine anyhow string :=
  main worker_out (Ok (Some "target/debug")) (fun p => bool_decide (p = "bench_config.ron")) (fun _ => Ok bench_config)
    {| secret_bytes := [] |} (fun _ => []) (fun _ => [("aa", "bb")]) (fun _ => Ok tt).
Definition sample_machine : Machine := {| stdout := []; net := []; cpu := [0; 0; 5; 7005]%Z; clock := [] |}.

Lemma csv_columns_witness :
  exists text m', sample_main sample_machine = (Ok text, m') /\
    nth 2 (lines text) "" = "crypto_cost,epochs,10000,cpu_time_ms,0.007000" /\
    nth 3 (lines text) "" = "conn_est,p50_latency_ms,125.00" /\
    exists rows, lines text = header :: rows /\ columns header = 4 /\
      Forall (fun row => columns row = 3 \/ columns row = 5) rows.
Proof.
  eexists _, _. split; [vm_compute; reflexivity|]. split; [vm_compute; reflexivity|]. split; [vm_compute; reflexivity|].
  eapply (csv_columns worker_out (Ok (Some "target/debug")) (fun p => bool_decide (p = "bench_config.ron"))
    (fun _ => Ok bench_config) {| secret_bytes := [] |} (fun _ => []) (fun _ => [("aa", "bb")]) (fun _ => Ok tt)
    sample_machine).
  vm_compute. reflexivity.
Defined.
End BenchSamples.
