(* ===== verification/Workers.v ===== *)
(** The benchmark workers (src/src/bin/bench_tryst_discovery_worker.rs and
    bench_p2p_conn_worker.rs): each is one process with its own measurements, directories
    and database files, which reports one line to the orchestrator of [Bench]. *)
From S2P Require Import Prelude External Wire Errors ChatTypes Database Automerge Schema Repository Connection Peers Manager Tryst Handler App Lifecycle Bench.
From stdpp Require Import base gmap strings list.
From Stdlib Require Import ZArith Lia Ascii.
Open Scope tryst_scope.

(** [io_faults]: for each call on the file system whether it fails. *)
Record Process := {
  machine : Machine;
  disk : Disk;
  dirs : list string;
  io_faults : list (option string);
}.

Definition set_machine (m : Machine) (p : Process) : Process :=
  {| machine := m; disk := disk p; dirs := dirs p; io_faults := io_faults p |}.
Definition set_disk (d : Disk) (p : Process) : Process :=
  {| machine := machine p; disk := d; dirs := dirs p; io_faults := io_faults p |}.

Definition on_machine {E A} (c : action Machine E A) : action Process E A :=
  fun p => let '(r, m) := c (machine p) in (r, set_machine m p).
Definition on_disk {E A} (c : action Disk E A) : action Process E A :=
  fun p => let '(r, d) := c (disk p) in (r, set_disk d p).

Definition io {E} (of_io : string -> E) (f : Process -> Process) : action Process E unit := fun p =>
  let p' := {| machine := machine p; disk := disk p; dirs := dirs p; io_faults := tail (io_faults p) |} in
  match head (io_faults p) with
  | Some (Some e) => (Err (of_io e), p')
  | _ => (Ok tt, f p')
  end.

(** [remove_dir_all]: the directory and the database files in it. *)
Definition remove_dir_all (dir : string) (p : Process) : Process :=
  {| machine := machine p;
     disk := {| store := filter (fun f => Schema.strip_prefix (dir +:+ "/") f.1 = None) (store (disk p));
                forecast := forecast (disk p) |};
     dirs := filter (fun d => d <> dir) (dirs p); io_faults := io_faults p |}.
Definition create_dir_all (dir : string) (p : Process) : Process :=
  {| machine := machine p; disk := disk p; dirs := dir :: dirs p; io_faults := io_faults p |}.

Definition setup_bench_db {E} (of_io : string -> E) (name iteration : string) : action Process E string :=
  let db_root := "./target/bench_dbs/" +:+ name +:+ "_" +:+ iteration in
  exists_ <- gets (fun p => bool_decide (db_root ∈ dirs p)) ;;
  (if (exists_ : bool) then io of_io (remove_dir_all db_root) else ret tt) ;;;
  io of_io (create_dir_all db_root) ;;;
  ret db_root.

(** What a process wrote when it ended, in whatever way. *)
Definition output_of {E A} (main : action Process E A) (p : Process) : string := unlines (stdout (machine (main p).2)).

Section DiscoveryWorker.
Context {Ids : EndpointIds} {K : SecretKeys Ids}.
(** A discovery item, and the addresses [publish] is given. *)
Context {Item Data : Type} (bob_info : Data).

(** Up to [n] attempts to resolve, each followed by a second's sleep; what a success measured. *)
Fixpoint resolve_attempts (overflow_checks : bool) (resolve : EndpointId -> option (list Item)) (bob : EndpointId)
    (start : Z * Z) (start_cpu : Z) (n : nat) : action Machine anyhow (option (Z * Z * Z)) :=
  match n with
  | O => ret None
  | S n' =>
      match resolve bob with
      | Some (_ :: _) =>
          res_latency <- elapsed_ms ;;
          max_resolve_bytes <- wait_for_bandwidth_stabilization overflow_checks ;;
          end_cpu <- get_cpu_time_us ;;
          before <- lift (usize_add overflow_checks start.1 start.2) ;;
          ret (Some (res_latency, saturating_sub max_resolve_bytes before, saturating_sub end_cpu start_cpu))
      | _ => resolve_attempts overflow_checks resolve bob start start_cpu n'
      end
  end.

Definition usage (args : list string) : anyhow :=
  "Usage: " +:+ default "" (head args) +:+ " <iteration> <bob_sk_hex> <alice_sk_hex>".

Definition discovery_main (overflow_checks : bool) (args : list string) : action Process anyhow unit :=
  match args with
  | [_; iteration; bob_sk_str; alice_sk_str] =>
      db_root <- setup_bench_db id "dht" iteration ;;
      bob_db_pool <- on_disk (act_map_err anyhow_of_lib (setup_db (db_root +:+ "/bob.sqlite"))) ;;
      alice_db_pool <- on_disk (act_map_err anyhow_of_lib (setup_db (db_root +:+ "/alice.sqlite"))) ;;
      bob_sk <- lift (secret_key_from_hex_lower bob_sk_str) ;;
      alice_sk <- lift (secret_key_from_hex_lower alice_sk_str) ;;
      tryst_invite_to_alice <- lift (map_err anyhow_of_lib (TrystRepository.create_invite_str (public bob_sk))) ;;
      bob_discovery <- lift (TrystDiscovery.build (TrystDiscovery.new bob_sk bob_db_pool)) ;;
      start <- on_machine get_bandwidth_bytes ;;
      start_cpu <- on_machine get_cpu_time_us ;;
      TrystDiscovery.publish bob_discovery bob_info ;;;
      max_publish_bytes <- on_machine (wait_for_bandwidth_stabilization overflow_checks) ;;
      end_cpu <- on_machine get_cpu_time_us ;;
      before <- lift (usize_add overflow_checks start.1 start.2) ;;
      let pub_bytes := saturating_sub max_publish_bytes before in
      let pub_cpu := saturating_sub end_cpu start_cpu in
      lift (map_err anyhow_of_lib (TrystRepository.receive_invite_str tryst_invite_to_alice)) ;;;
      alice_discovery <- lift (TrystDiscovery.build (TrystDiscovery.new alice_sk alice_db_pool)) ;;
      start <- on_machine get_bandwidth_bytes ;;
      start_cpu <- on_machine get_cpu_time_us ;;
      result <- on_machine (resolve_attempts overflow_checks (TrystDiscovery.resolve alice_discovery) (public bob_sk)
                              start start_cpu 10) ;;
      match result with
      | Some (res_latency, res_bytes, res_cpu) =>
          on_machine (report_result [pub_bytes; pub_cpu; res_latency; res_bytes; res_cpu])
      | None => on_machine (println "ERROR")
      end
  | _ => throw (usage args)
  end.

(** *** Nothing is reported *)

(** A call that prints nothing. *)
Definition silent {E A} (c : action Process E A) : Prop := forall p, stdout (machine (c p).2) = stdout (machine p).

Lemma silent_bind {E A B} (c : action Process E A) (k : A -> action Process E B) :
  silent c -> (forall a, silent (k a)) -> silent (bind c k).
Proof.
  intros Hc Hk p. unfold bind. specialize (Hc p). destruct (c p) as [[a|e|] p1]; simpl in *; [|done..]. by rewrite Hk.
Qed.

Lemma stabilize_silent {E} oc n : forall a b c (m : Machine), stdout (stabilize (E := E) oc n a b c m).2 = stdout m.
Proof.
  induction n as [|n IH]; intros a b c m; [done|]. cbn [stabilize]. unfold bind, get_bandwidth_bytes, lift. simpl.
  destruct (usize_add oc _ _); [|done..]. repeat case_bool_decide; simpl; by rewrite ?IH.
Qed.

Lemma wait_silent {E} oc m : stdout (wait_for_bandwidth_stabilization (E := E) oc m).2 = stdout m.
Proof. apply stabilize_silent. Qed.

Lemma silent_measure {E A} (c : action Machine E A) : (forall m, stdout (c m).2 = stdout m) -> silent (on_machine c).
Proof. intros Hc p. unfold on_machine. specialize (Hc (machine p)). by destruct (c (machine p)). Qed.

Lemma silent_disk {E A} (c : action Disk E A) : silent (on_disk c).
Proof. intros p. unfold on_disk. by destruct (c (disk p)). Qed.

Lemma silent_setup {E} (of_io : string -> E) name iteration : silent (setup_bench_db of_io name iteration).
Proof.
  assert (forall f, (forall p, machine (f p) = machine p) -> silent (io of_io f)) as Hio.
  { intros f Hf p. unfold io. destruct (head (io_faults p)) as [[e|]|]; simpl; by rewrite ?Hf. }
  unfold setup_bench_db. apply silent_bind; [done|]. intros ex. apply silent_bind; [destruct ex; [by apply Hio|done]|].
  intros []. apply silent_bind; [by apply Hio|done].
Qed.
End DiscoveryWorker.

Ltac solve_silent :=
  repeat first
    [ apply silent_setup | apply silent_disk
    | apply silent_measure; intros ?; first [apply wait_silent | done]
    | solve [intros ?; done] | apply silent_bind; [|intros ?] ].

Section Reports.
Context {Ids : EndpointIds} {K : SecretKeys Ids} {Item Data : Type} (bob_info : Data).

(** With the snapshot's [resolve] no attempt succeeds, however often it is made. *)
Lemma resolve_attempts_none {D} oc (d : @TrystDiscovery.TrystDiscovery D) bob start start_cpu n m :
  resolve_attempts (Item := Item) oc (TrystDiscovery.resolve d) bob start start_cpu n m = (Ok None, m).
Proof. induction n as [|n IH]; [done|]. exact IH. Qed.

(** [c] prints nothing or the lines [l]. *)
Definition says {E A} (c : action Process E A) (l : list string) : Prop :=
  forall p, stdout (machine (c p).2) = stdout (machine p) \/ stdout (machine (c p).2) = stdout (machine p) ++ l.

Lemma says_bind {E A B} (c : action Process E A) (k : A -> action Process E B) l :
  silent c -> (forall a, says (k a) l) -> says (bind c k) l.
Proof.
  intros Hc Hk p. unfold bind. specialize (Hc p). destruct (c p) as [[a|e|] p1]; simpl in *; [|by left..].
  rewrite <- Hc. apply Hk.
Qed.

Lemma says_println {E} line : says (on_machine (println (E := E) line)) [line].
Proof. intros p. by right. Qed.

(** No attempt to resolve succeeds, so only what follows a failure is said. *)
Lemma says_resolve {D B} oc (d : @TrystDiscovery.TrystDiscovery D) bob start start_cpu n (k : _ -> action Process anyhow B) l :
  says (k None) l ->
  says (bind (on_machine (resolve_attempts (Item := Item) oc (TrystDiscovery.resolve d) bob start start_cpu n)) k) l.
Proof. intros Hk p. unfold bind, on_machine. rewrite resolve_attempts_none. destruct p. apply Hk. Qed.

(** All that reaches the output is the line ERROR. *)
Lemma discovery_main_says oc args : says (discovery_main (Item := Item) bob_info oc args) ["ERROR"].
Proof.
  unfold discovery_main.
  destruct args as [|a0 [|iteration [|bob_sk_str [|alice_sk_str [|a5 args]]]]]; try (intros p; by left).
  repeat first [apply says_resolve; apply says_println | apply says_bind; [solve_silent|intros ?]].
Qed.

Context {H : Histograms} (spawn : Spawner) (parent : string).

(** Each run of the worker's binary starts a new process, or fails. *)
Definition starts_workers : Prop := forall args,
  (exists e, spawn (parent +:+ "/bench_tryst_discovery_worker") args = Err e) \/
  (exists oc p, stdout (machine p) = [] /\ spawn (parent +:+ "/bench_tryst_discovery_worker") args =
     Ok (output_of (discovery_main (Item := Item) bob_info oc ((parent +:+ "/bench_tryst_discovery_worker") :: args)) p)).

Lemma run_discovery_worker args :
  starts_workers -> exists e, run_worker spawn (Ok (Some parent)) "bench_tryst_discovery_worker" args = Err e.
Proof.
  intros Hw. destruct (Hw args) as [[e He]|(oc & p & Hp & Ho)].
  - exists e. unfold run_worker. cbn [obind]. change (parent +:+ "/" +:+ "bench_tryst_discovery_worker") with
      (parent +:+ "/bench_tryst_discovery_worker"). by rewrite He.
  - eexists. eapply run_worker_chatter; [|exact Ho].
    destruct (discovery_main_says oc ((parent +:+ "/bench_tryst_discovery_worker") :: args) p) as [-> | ->]; rewrite Hp.
    + constructor.
    + by repeat constructor.
Qed.

Lemma iterations_without_results keys : forall title total success i hs m,
  starts_workers ->
  exists m', iterations spawn (Ok (Some parent)) title "bench_tryst_discovery_worker" total success i keys hs m = (Ok hs, m').
Proof.
  induction keys as [|[bob alice] keys IH]; intros title total success i hs m Hw; [by exists m|].
  cbn [iterations]. unfold bind at 1 2, println at 1 2. unfold iteration.
  destruct (run_discovery_worker [u64_to_string i; bob; alice] Hw) as [e ->].
  unfold bind at 1 2, println, ret at 1. by apply IH.
Qed.

(** In this snapshot the discovery benchmark measures nothing: discovery resolves no peer,
    so every worker, whatever its keys, database, counters and arguments, prints at most the
    line ERROR; the orchestrator takes each iteration for a failed worker and contributes no
    row to the results, for any number of iterations. *)
Theorem discovery_never_measured h0 keys m :
  starts_workers -> hist_new = Ok h0 -> hist_len h0 = 0%Z ->
  exists m', measure_dht_discovery spawn (Ok (Some parent)) keys m = (Ok [], m').
Proof.
  intros Hw Hh Hlen. unfold measure_dht_discovery.
  assert (new_histograms 5 = Ok [h0; h0; h0; h0; h0]) as Hn by (simpl; by rewrite Hh).
  unfold bind at 1, println at 1. unfold bind at 1, lift. rewrite Hn.
  destruct (iterations_without_results keys "DHT Discovery" (Z.of_nat (length keys)) dht_success 1 [h0; h0; h0; h0; h0]
    {| stdout := stdout m ++ ["--- Pure DHT Discovery Costs (Publish & Resolve) ---"]; net := net m; cpu := cpu m; clock := clock m |} Hw)
    as [m' Em].
  rewrite (bind_ok _ _ _ _ _ Em). unfold bind at 1 2, println at 1 2.
  assert (forall E n mt sc u (m : Machine), report_hist (E := E) n mt h0 sc u m = (Ok [], m)) as Hr.
  { intros. unfold report_hist. by rewrite bool_decide_false by lia. }
  eexists. unfold dht_specs. cbn [report_all]. unfold bind. by rewrite !Hr.
Qed.
End Reports.

(** ** bench_p2p_conn_worker.rs *)
Section ConnWorker.
Context {Ids : EndpointIds} {K : SecretKeys Ids} {Us : Uuids} {OI : ObjIds} {AM : Automerges}.
Context {R : Type} {AR : AsyncRead R} {Discovery Endpoint : Type}.

(** [BenchReceiver]: only a connected state notifies; the other calls do nothing. *)
Definition process_connection_state (state : UniffiChatConnectionState) : bool :=
  match state with UConnected _ => true | _ => false end.

(** The world around the worker's two nodes: what their builders, pools and actors do, what
    becomes of the subscription, the states the receiver hears before the timeout, and what
    the tasks are doing at each shutdown. *)
Record Nodes := {
  alice_net : Application.Net (K := K) (Discovery := Discovery) (Endpoint := Endpoint);
  bob_net : Application.Net (K := K) (Discovery := Discovery) (Endpoint := Endpoint);
  alice_pool : list (Weather Db);
  bob_pool : list (Weather Db);
  invite_service : AppActor.service;
  manager_service : AppActor.service;
  subscribed : ChatManager.exchange unit;
  heard : list UniffiChatConnectionState;
  alice_busy : Application.Busy (R := R);
  bob_busy : Application.Busy (R := R);
  debug : GossipError -> string;
  parse_error : string -> string;
}.

Abbreviation Node := (Application.Application (K := K) (R := R) (Endpoint := Endpoint)).

(** A call of an application's actor, with its result and the application after it. *)
Definition call {A} (nodes : Nodes) (c : action AppActor.App (stop GossipError) A) (a : Node) :
    outcome (stop anyhow) (A * Node) :=
  let '(r, x) := c (Application.app_actor a) in
  match r with
  | Ok v => Ok (v, Application.set_app_actor x a)
  | Err (Failed e) => Err (Failed (debug nodes e))
  | Err Pending => Err Pending
  | Panic => Panic
  end.

Definition failing {W A} (c : action W anyhow A) : action W (stop anyhow) A := act_map_err Failed c.

(** [app.shutdown().await] *)
Definition shut {E} (b : Application.Busy (R := R)) (a : Node) : action Process (stop E) unit :=
  lift (match (Application.shutdown b a).1 with Err Pending => Err Pending | Panic => Panic | _ => Ok tt end).

Definition conn_main (nodes : Nodes) (overflow_checks : bool) (args : list string) : action Process (stop anyhow) unit :=
  match args with
  | [_; iteration; bob_sk_str; alice_sk_str] =>
      db_path <- setup_bench_db Failed "conn" iteration ;;
      alice <- failing (on_disk (act_map_err (debug nodes) (Application.new_with_config (alice_net nodes) (alice_pool nodes)
        alice_sk_str db_path {| Application.secs := 2; Application.nanos := 0 |}))) ;;
      bob <- failing (on_disk (act_map_err (debug nodes) (Application.new_with_config (bob_net nodes) (bob_pool nodes)
        bob_sk_str db_path {| Application.secs := 3600; Application.nanos := 0 |}))) ;;
      invited <- lift (call nodes (AppActor.create_tryst_invite (Application.endpoint_id bob)) alice) ;;
      let '(invite_str, alice) := invited in
      on_machine (println "Waiting for DHT propagation...") ;;;
      start <- on_machine get_bandwidth_bytes ;;
      start_cpu <- on_machine get_cpu_time_us ;;
      received <- lift (call nodes (AppActor.receive_tryst_invite (parse_error nodes) (invite_service nodes) 0 invite_str) bob) ;;
      managed <- lift (call nodes (AppActor.chat_manager (parse_error nodes) (manager_service nodes) 1
        (Application.endpoint_id alice)) received.2) ;;
      lift (map_err (Failed ∘ debug nodes) (ChatManager.subscribe (subscribed nodes))) ;;;
      let success := existsb process_connection_state (heard nodes) in
      conn_latency <- (if success then on_machine elapsed_ms else ret 0%Z) ;;
      max_conn_bytes <- on_machine (wait_for_bandwidth_stabilization overflow_checks) ;;
      end_cpu <- on_machine get_cpu_time_us ;;
      before <- lift (usize_add overflow_checks start.1 start.2) ;;
      let conn_bytes := saturating_sub max_conn_bytes before in
      let conn_cpu := saturating_sub end_cpu start_cpu in
      shut (alice_busy nodes) alice ;;;
      shut (bob_busy nodes) managed.2 ;;;
      if (success : bool) then on_machine (report_result [conn_latency; conn_bytes; conn_cpu])
      else on_machine (println "ERROR")
  | _ => throw (Failed (usage args))
  end.

(** *** What is measured fits in 64 bits *)
Definition sane (m : Machine) : Prop :=
  Forall (fun r => u64 r.1 /\ u64 r.2) (net m) /\ Forall u64 (cpu m) /\ Forall u64 (clock m).

(** A measurement: it keeps the readings to come sane and its own value is a [u64]. *)
Definition measures {E} (c : action Machine E Z) : Prop :=
  forall m z m', sane m -> c m = (Ok z, m') -> u64 z /\ sane m'.

Lemma measures_cpu {E} : measures (get_cpu_time_us (E := E)).
Proof.
  intros m z m' (Hn & Hc & Ht) [= <- <-]. unfold sane. simpl. destruct Hc as [|x l Hx Hl]; simpl; [|done].
  split; [done|]. split_and!; [done|constructor|done].
Qed.

Lemma measures_clock {E} : measures (elapsed_ms (E := E)).
Proof.
  intros m z m' (Hn & Hc & Ht) [= <- <-]. unfold sane. simpl. destruct Ht as [|x l Hx Hl]; simpl; [|done].
  split; [done|]. split_and!; [done|done|constructor].
Qed.

Lemma sane_bandwidth {E} m r m' :
  sane m -> get_bandwidth_bytes (E := E) m = (Ok r, m') -> (u64 r.1 /\ u64 r.2) /\ sane m'.
Proof.
  intros (Hn & Hc & Ht) [= <- <-]. unfold sane. simpl. destruct Hn as [|x l Hx Hl]; simpl; [|done].
  split; [done|]. split_and!; [constructor|done|done].
Qed.

Lemma usize_add_u64 {E} oc a b z : u64 a -> u64 b -> usize_add (E := E) oc a b = Ok z -> u64 z.
Proof.
  unfold usize_add, u64. change usize_max with u64_max. intros Ha Hb. case_bool_decide; [intros [= <-]; lia|].
  destruct oc; [done|]. intros [= <-]. pose proof (Z.mod_pos_bound (a + b) (2 ^ 64)). unfold u64_max. lia.
Qed.

Lemma saturating_sub_u64 a b : u64 a -> u64 b -> u64 (saturating_sub a b).
Proof. unfold u64, saturating_sub. lia. Qed.

Lemma measures_stabilize {E} oc n : forall a b c, u64 a -> measures (stabilize (E := E) oc n a b c).
Proof.
  induction n as [|n IH]; intros a b c Ha m z m' Hm; [by intros [= <- <-]|]. cbn [stabilize]. intros Hr.
  apply bind_ok_inv in Hr as (r & m1 & Hc & Hr). apply bind_ok_inv in Hr as (t & m2 & [= Ht <-] & Hr).
  destruct (sane_bandwidth _ _ _ Hm Hc) as [[H1 H2] Hs].
  pose proof (usize_add_u64 _ _ _ _ H1 H2 Ht) as Hz.
  assert (u64 (Z.max a t)) as Hmax by (unfold u64 in *; lia).
  case_bool_decide; [case_bool_decide; [by injection Hr as <- <-|]|]; by eapply IH.
Qed.

Lemma measures_wait {E} oc : measures (wait_for_bandwidth_stabilization (E := E) oc).
Proof. unfold wait_for_bandwidth_stabilization. apply measures_stabilize. unfold u64, u64_max. lia. Qed.

Lemma on_machine_ok {E A} (c : action Machine E A) p a p' :
  on_machine c p = (Ok a, p') -> c (machine p) = (Ok a, machine p').
Proof. unfold on_machine. destruct (c (machine p)) as [r m] eqn:Ec. by intros [= -> <-]. Qed.

(** A call beside the measurements. *)
Definition beside {E A} (c : action Process E A) : Prop := forall p, machine (c p).2 = machine p.

Lemma beside_ok {E A} (c : action Process E A) p a p' : beside c -> c p = (Ok a, p') -> machine p' = machine p.
Proof. intros Hb Hc. specialize (Hb p). by rewrite Hc in Hb. Qed.

Lemma beside_setup {E} (of_io : string -> E) name iteration : beside (setup_bench_db of_io name iteration).
Proof.
  intros p. unfold setup_bench_db, bind, gets, io. simpl. case_bool_decide; simpl.
  - destruct (head (io_faults p)) as [[e|]|]; simpl; [done| |]; destruct (head (tail (io_faults p))) as [[e|]|]; done.
  - unfold ret. destruct (head (io_faults p)) as [[e|]|]; done.
Qed.

Lemma beside_disk {A} (c : action Disk anyhow A) : beside (failing (on_disk c)).
Proof. intros p. unfold failing, act_map_err, on_disk. by destruct (c (disk p)). Qed.

(** What a finished run of the worker printed. *)
Lemma conn_main_output nodes oc args p p' :
  sane (machine p) -> conn_main nodes oc args p = (Ok tt, p') ->
  exists parts, length parts = 3 /\ Forall u64 parts /\
    stdout (machine p') = stdout (machine p) ++ ["Waiting for DHT propagation...";
      if existsb process_connection_state (heard nodes) then "RESULT," +:+ Bench.join "," (map u64_to_string parts) else "ERROR"].
Proof.
  intros Hs. unfold conn_main. destruct args as [|a0 [|iteration [|bob_sk_str [|alice_sk_str [|a5 args]]]]]; try done.
  intros Hr.
  apply bind_ok_inv in Hr as (db & p1 & Hc & Hr). apply beside_ok in Hc; [|apply beside_setup]. rewrite <- Hc in Hs |- *.
  apply bind_ok_inv in Hr as (alice & p2 & Hc2 & Hr). apply beside_ok in Hc2; [|apply beside_disk]. rewrite <- Hc2 in Hs |- *.
  apply bind_ok_inv in Hr as (bob & p3 & Hc3 & Hr). apply beside_ok in Hc3; [|apply beside_disk]. rewrite <- Hc3 in Hs |- *.
  clear Hc Hc2 Hc3.
  apply bind_ok_inv in Hr as ([invite alice'] & p4 & [= _ <-] & Hr).
  apply bind_ok_inv in Hr as (u & p4 & Hc & Hr). apply on_machine_ok in Hc. injection Hc as _ Hp4.
  assert (sane (machine p4)) as Hs4 by (by rewrite <- Hp4).
  assert (stdout (machine p4) = stdout (machine p3) ++ ["Waiting for DHT propagation..."]) as Ho4 by (by rewrite <- Hp4).
  clear Hp4 Hs.
  apply bind_ok_inv in Hr as (start & p5 & Hc & Hr). apply on_machine_ok in Hc.
  destruct (sane_bandwidth _ _ _ Hs4 Hc) as [[Hst1 Hst2] Hs5]. assert (stdout (machine p5) = stdout (machine p4)) as Ho5.
  { by injection Hc as _ <-. }
  apply bind_ok_inv in Hr as (start_cpu & p6 & Hc6 & Hr). apply on_machine_ok in Hc6.
  destruct (measures_cpu _ _ _ Hs5 Hc6) as [Hscpu Hs6]. assert (stdout (machine p6) = stdout (machine p5)) as Ho6.
  { by injection Hc6 as _ <-. }
  apply bind_ok_inv in Hr as (received & p7 & [= _ <-] & Hr).
  apply bind_ok_inv in Hr as (managed & p7 & [= _ <-] & Hr).
  apply bind_ok_inv in Hr as (u7 & p7 & [= _ <-] & Hr).
  set (success := existsb process_connection_state (heard nodes)) in *.
  apply bind_ok_inv in Hr as (latency & p8 & Hc8 & Hr).
  assert (u64 latency /\ sane (machine p8) /\ stdout (machine p8) = stdout (machine p6)) as (Hlat & Hs8 & Ho8).
  { destruct success.
    - apply on_machine_ok in Hc8. destruct (measures_clock _ _ _ Hs6 Hc8). split_and!; [done|done|]. by injection Hc8 as _ <-.
    - injection Hc8 as <- <-. split_and!; [|done|done]. unfold u64, u64_max. lia. }
  apply bind_ok_inv in Hr as (bytes & p9 & Hc9 & Hr). apply on_machine_ok in Hc9.
  destruct (measures_wait _ _ _ _ Hs8 Hc9) as [Hb Hs9].
  assert (stdout (machine p9) = stdout (machine p8)) as Ho9.
  { pose proof (wait_silent (E := stop anyhow) oc (machine p8)) as Hx. by rewrite Hc9 in Hx. }
  apply bind_ok_inv in Hr as (end_cpu & p10 & Hc10 & Hr). apply on_machine_ok in Hc10.
  destruct (measures_cpu _ _ _ Hs9 Hc10) as [Hecpu Hs10]. assert (stdout (machine p10) = stdout (machine p9)) as Ho10.
  { by injection Hc10 as _ <-. }
  apply bind_ok_inv in Hr as (before & p11 & [= Hbefore <-] & Hr).
  pose proof (usize_add_u64 _ _ _ _ Hst1 Hst2 Hbefore) as Hbe.
  apply bind_ok_inv in Hr as (u12 & p12 & [= _ <-] & Hr).
  apply bind_ok_inv in Hr as (u13 & p13 & [= _ <-] & Hr).
  exists [latency; saturating_sub bytes before; saturating_sub end_cpu start_cpu]. split; [done|].
  split; [apply Forall_cons; split; [done|]; apply Forall_cons; split; [by apply saturating_sub_u64|];
    apply Forall_cons; split; [by apply saturating_sub_u64|constructor]|].
  rewrite Ho6, Ho5, Ho4 in Ho8. rewrite Ho9, Ho8 in Ho10. clearbody success.
  destruct success; apply on_machine_ok in Hr; injection Hr as Hm; rewrite <- Hm; cbn [stdout]; rewrite Ho10;
    by rewrite <- (assoc_L (++)).
Qed.
End ConnWorker.

Section ConnReports.
Context {Ids : EndpointIds} {K : SecretKeys Ids} {Us : Uuids} {OI : ObjIds} {AM : Automerges}.
Context {R : Type} {AR : AsyncRead R} {Discovery Endpoint : Type}.

(** The connection benchmark end to end: a run of the worker that ends normally gives the
    orchestrator exactly three 64-bit numbers when the receiver was told of a connection in
    time, and a failed worker otherwise; the other lines it prints and wrapping or clamped
    differences of its counters make no difference. *)
Theorem conn_worker_reported (nodes : Nodes (Discovery := Discovery) (Endpoint := Endpoint) (R := R)) oc args p p' spawn parent wargs :
  sane (machine p) -> stdout (machine p) = [] -> conn_main nodes oc args p = (Ok tt, p') ->
  spawn (parent +:+ "/bench_p2p_conn_worker") wargs = Ok (unlines (stdout (machine p'))) ->
  exists parts, length parts = 3 /\ Forall u64 parts /\
    run_worker spawn (Ok (Some parent)) "bench_p2p_conn_worker" wargs =
      if existsb process_connection_state (heard nodes) then Ok parts else Err "Worker failed to return result".
Proof using.
  intros Hs Ho Hmain Hsp. destruct (conn_main_output nodes oc args p p' Hs Hmain) as (parts & Hl & Hu & Hout).
  exists parts. split; [done|]. split; [done|]. rewrite Ho in Hout.
  assert (chatter "Waiting for DHT propagation...") as Hw by done.
  destruct (existsb process_connection_state (heard nodes)).
  - rewrite (run_worker_result spawn parent "bench_p2p_conn_worker" wargs ["Waiting for DHT propagation..."] parts []).
    + by destruct parts.
    + by repeat constructor.
    + done.
    + constructor.
    + change (parent +:+ "/" +:+ "bench_p2p_conn_worker") with (parent +:+ "/bench_p2p_conn_worker").
      by rewrite Hsp, Hout.
  - apply (run_worker_chatter spawn parent "bench_p2p_conn_worker" wargs ["Waiting for DHT propagation..."; "ERROR"]).
    + by repeat constructor.
    + change (parent +:+ "/" +:+ "bench_p2p_conn_worker") with (parent +:+ "/bench_p2p_conn_worker").
      by rewrite Hsp, Hout.
Qed.
End ConnReports.

Module WorkersSamples.
Import Concrete ConcreteKeys ConcreteWire ToyDoc ChatRepositorySamples ChatProtocolSamples LifecycleSamples ConcreteHistograms.

Definition counters : Machine := {|
  stdout := []; net := [(10, 10); (30, 20); (60, 20); (60, 20); (60, 20); (60, 20)]%Z;
  cpu := [1000; 4500; 4600; 9000]%Z; clock := [42]%Z |}.
Definition fresh : Process := {|
  machine := counters; disk := {| store := ∅; forecast := [] |}; dirs := []; io_faults := [] |}.

Definition discovery_spawner : Spawner := fun bin args =>
  Ok (output_of (discovery_main (K := secret_keys) (Item := unit) tt true (bin :: args)) fresh).

Lemma discovery_never_measured_witness :
  starts_workers (K := secret_keys) (Item := unit) tt discovery_spawner "target/debug" /\
  discovery_spawner "target/debug/bench_tryst_discovery_worker" ["1"; key_str Byte.x01; key_str Byte.x02] =
    Ok (unlines ["ERROR"]) /\
  exists m', measure_dht_discovery discovery_spawner (Ok (Some "target/debug")) [(key_str Byte.x01, key_str Byte.x02); ("", "")] counters
    = (Ok [], m').
Proof.
  assert (starts_workers (K := secret_keys) (Item := unit) tt discovery_spawner "target/debug") as Hw.
  { intros args. right. exists true, fresh. split; reflexivity. }
  split; [exact Hw|]. split; [vm_compute; reflexivity|].
  exact (discovery_never_measured tt discovery_spawner "target/debug" []
    [(key_str Byte.x01, key_str Byte.x02); ("", "")] counters Hw eq_refl eq_refl).
Defined.

Definition idle : Application.Busy (R := Segments) (Ids := keys) (AM := toy) := {| Application.app_busy := None; Application.chat_env := env_of 1; Application.chat_busy := None |}.
Definition sample_nodes : Nodes (K := secret_keys) (Us := uuids) (AM := toy) (R := Segments) (Discovery := Z) (Endpoint := nat) := {|
  alice_net := sample_net; bob_net := sample_net; alice_pool := []; bob_pool := [];
  invite_service := AppActor.Served AppSamples.calm_env; manager_service := AppActor.Served AppSamples.calm_env;
  subscribed := ChatManager.Replied _ (Ok tt); heard := [UReconnecting; UConnected "5"];
  alice_busy := idle; bob_busy := idle;
  debug := gossip_error_message; parse_error := AppSamples.no_key |}.

Definition conn_run : outcome (stop anyhow) unit * Process :=
  conn_main sample_nodes true ["w"; "1"; key_str Byte.x01; key_str Byte.x02] fresh.
Definition conn_spawner : Spawner := fun _ _ => Ok (unlines (stdout (machine conn_run.2))).

Lemma conn_worker_reported_witness :
  run_worker conn_spawner (Ok (Some "target/debug")) "bench_p2p_conn_worker" ["1"; key_str Byte.x01; key_str Byte.x02] =
    Ok [42; 60; 3500]%Z /\
  exists parts, length parts = 3 /\ Forall u64 parts /\
    run_worker conn_spawner (Ok (Some "target/debug")) "bench_p2p_conn_worker" ["1"; key_str Byte.x01; key_str Byte.x02] =
      Ok parts.
Proof.
  split; [vm_compute; reflexivity|].
  apply (conn_worker_reported sample_nodes true ["w"; "1"; key_str Byte.x01; key_str Byte.x02] fresh conn_run.2 conn_spawner
    "target/debug" ["1"; key_str Byte.x01; key_str Byte.x02]).
  - unfold sane, u64, u64_max. simpl. split_and!; repeat constructor; simpl; lia.
  - reflexivity.
  - vm_compute. reflexivity.
  - reflexivity.
Defined.
End WorkersSamples.
